(* ===== verification/_CoqProject ===== *)
-Q . S2P
Prelude.v
Lts.v
Mutex.v
Nodes.v
Chain.v
TicketMutex.v
Tickets.v
SoftLock.v
BurnsLynch.v
Dijkstra.v
Eisenberg.v
Bakery.v
Hehner.v
LamportFast.v
CrTurn.v
PetersonBuhr.v
CrLocks.v
AwnEe.v
AwnNe.v
AwnSb.v
TryLock.v
TidexMutex.v
NpsOpen.v
ClhMutex.v
RwLock.v
MpscMutex.v
QueueSpec.v
LockQueue.v
Validation.v
VyukovQueue.v
CloudiusQueue.v
NatsysQueue.v
Bench.v
BenchSpec.v
BenchCtl.v
BenchFlow.v
BenchSafe.v
BenchThm.v
BenchRun.v
BenchSim.v
SharedLocks.v
Qrate.v
Lockrate.v
AllocRate.v
SsQueue.v
SsStacks.v
SsSize.v
SsMem.v
SsMalloc.v
SsLinks.v
SsInv.v
SsChunk.v
SsMoves.v
SsRecall.v
SsBuf.v
SsPool.v
SsSmall.v
SsFree.v
SsInit.v
SsLarge.v
SsThm.v
SsSystem.v
SsTypes.v
Printme.v
