(* ===== verification/Prelude.v ===== *)
(** * Verification of the queue-rate benchmark suite

    The repository measures how fast threads exchange messages.  Three programs
    share one shape: producers send nodes to consumers through one queue for
    each consumer.  [src/lockrate.c] varies the lock around a simple queue,
    [src/qrate.cc] the queue, and [src/alloc_rate.cc] the allocator.  Below the
    programs are the locks of [ConcurrencyFreaks/C11/locks], the queues of
    [src/] and [include/], and the allocator [SSMalloc].  (Paths are relative to
    [src/queue-rate].)

    ** Files

    - This file: machine integers, hints and tactics, lemmas on lists and maps.
      [Lts]: transition systems, reachability, invariants, runs.
    - [Mutex]: the interface of a lock; [Chain] and [Nodes]: what the lock
      proofs share.  [TicketMutex] ([ticket_mutex.h]), [TidexMutex]
      ([tidex_mutex.h], [tidex_nps_mutex.h]), [ClhMutex] ([clh_mutex.h]) and
      [MpscMutex] ([mpsc_mutex.h]) implement it, and so do [AwnEe], [AwnNe] and
      [AwnSb] ([ticketawn/ticket_awnee_mutex.c] and its siblings), which share
      [Tickets]; [TryLock] adds their [trylock].  [RwLock] ([clh_rwlock.c]) is a
      reader-writer lock with its own specification.  [Validation]
      ([mutex_validation.c]) is the test program of these locks.
    - [SoftLock]: what algorithms with loads and stores only have in common.
      [BurnsLynch], [Dijkstra], [Eisenberg], [Bakery], [Hehner], [LamportFast],
      [CrTurn] and [PetersonBuhr] are the algorithms of
      [ConcurrencyFreaks/C11/papers/cralgorithm] of these names, and [CrLocks]
      states what is shown of them.
    - [QueueSpec]: the interface of a queue.  [LockQueue] ([q_create], [q_push],
      [q_pop] of [lockrate.c], over any lock), [VyukovQueue] ([vyukov_q.h]) and
      [CloudiusQueue] ([queue-mpsc.h]) implement it; [NatsysQueue]
      ([natsysq.h], [natsys_q.h]) has its own contract.
    - [Bench]: data, effects and interleaving semantics of the programs;
      [BenchSpec]: their common description; [BenchCtl], [BenchFlow],
      [BenchSafe], [BenchThm]: its invariants and their consequences;
      [BenchRun]: a scheduler for examples.  [NpsOpen], [BenchSim] and
      [SharedLocks]: queues whose locks share the indices of the threads, as
      those of [tidex_nps_mutex.h] do.  [Qrate], [Lockrate] and
      [AllocRate]: the three programs, each shown to agree with the common
      description.
    - [SsQueue] ([atomic.h], [queue.h]), [SsSize] (constants, size classes),
      [SsMem] ([ssmalloc.h], [double-list.h]) and [SsMalloc] ([ssmalloc.c]) are
      the code of the allocator.  [SsLinks] and [SsInv] are its invariant;
      [SsChunk], [SsMoves], [SsRecall] and [SsBuf] show that moving blocks and
      chunks keeps it; [SsPool], [SsSmall], [SsFree], [SsInit] and [SsLarge]
      specify the functions; [SsThm], [SsSystem] and [SsTypes] are about the
      interface.  [SsStacks] is about the stacks of [queue.h] through which
      threads give back blocks of others.
    - [Printme] ([printme.c]): the report of where a thread is bound.

    ** How the code is modelled

    Locks, queues and the shared stacks of SSMalloc are step functions: one
    access to shared memory is one step, local computation belongs to the step
    before it, and the label of a step names the thread and what the environment
    chooses (addresses, spurious failures of a weak compare-and-swap).  Memory
    is sequentially consistent; the [memory_order] arguments are not used.  The
    functions of a thread are types of program points, the fields of a
    structure are records, and node memory is explicit where the code allocates.
    Fixed-width integers are integers with explicit wrap-around.

    A program is a function from a program point to the next effect; the
    semantics in [Bench] interleaves the threads and lets a queue take its own
    steps inside a call.

    The functions of [ssmalloc.c] are state transformers over a memory of
    cells that return, exit the process, touch unmapped memory or hang.  The fields of a
    header and the words of a block are different cells; that blocks stay off the headers of their
    chunks is part of [ss_headers_typed].

    ** What the theorems show

    - Locks: mutual exclusion, service in order of arrival, progress (when the
      lock is free some waiting thread acquires it by running alone), no use
      after free, no leak.  [trylock] of the tidex locks is not exclusive; that
      of the locks with waiting arrays is, and returns in four steps.  The
      reader-writer lock refines a queue from which readers go in together and
      writers alone, in the order of their arrival.  The validation program never
      prints ERROR and loses no increment, with any of the ten locks.
    - Algorithms with loads and stores: no access out of range, mutual exclusion,
      entry without contention, release, and no deadlock in the sense that
      some continuation lets a waiting thread in.  Freedom from starvation is not claimed.
    - Queues: each refines an atomic first-in first-out queue; whole runs
      deliver in order; the Vyukov queue is wait-free; [popall] and iteration
      of the Cloudius queue are complete.  The ring buffer delivers each message
      once if its size is a power of two and the identifiers differ, which is
      not how [natsys_q.h] uses it.
    - Programs: at exit every message has arrived at its consumer, in order;
      memory is neither misused nor lost; the timed interval contains the
      exchange; what the printed figures count.  Two options lead to memory
      errors and are shown to.
    - SSMalloc: the shared stacks are linearizable, and what comes out of them is
      what the callers put in; a request gets the
      smallest class that fits; blocks in use never overlap and stay mapped; a
      new block is large enough; the header in front of a block in use is well
      typed; calls return; a heap serves one thread.
      Defects of [memalign], [calloc], [realloc] and of very large requests are
      evaluated.
    - Reports: the text of a bitmap can be read back, and the line is the one
      that a direct description gives, if it fits its array.

    ** Bounds and fuel

    - The ticket lock needs fewer than 2^64 threads, the indexed tidex lock
      fewer than 2^63 - 1, the reader-writer lock fewer than 2^63.  The locks
      with waiting arrays need an array of at least two slots, and no
      thread calls [lock] once 2^63 - 1 tickets have been drawn.  Tickets of the
      bakery are 32 bits wide and those of [Hehner] 64: at most 2^31 - 1 and 2^63 - 2 calls
      are made.  The tournament of [PetersonBuhr] has as many levels as the fuel of
      [fill], the number of the leaf, allows for.  [mc_stack_lifo] assumes that no operation is
      overtaken by 2^16 successful others: the count in the head has 16 bits.
    - [reverse_loop] and [it_collect] of [CloudiusQueue] take fuel; their
      theorems ask for the number of nodes inside, which the loop visits once
      each.
    - [small_malloc_loop] has two rounds: only the dummy chunk causes a second
      one, and the first round replaces it.  Running out is the outcome [Hangs],
      which [ss_calls_return] excludes.  The same holds for [gpool_grow_loop], one round,
      since a round adds many chunks and the pool lacks one, and for
      [touch_memory], a round for each page of the range.
    - Sizes passed to SSMalloc are at most [LARGE_MAX] in the theorems: above,
      [large_malloc] wraps around.

    ** What is assumed

    [pthread] locks satisfy [MutexLaws]; [pthread_self] gives distinct positive
    numbers; [malloc] of the locks and programs returns memory that is not
    allocated and does not fail.  [mmap] satisfies [mmap_contract] of [SsPool]:
    without a hint fresh pages outside the region of the pool, with the hint the
    code gives either the page of the hint or failure.  [memcpy] and [memset]
    change only the words of their destination.  hwloc answers as the arguments of
    [printme] say.  A thread makes no call of SSMalloc between its destructor and its
    end.  The programs have a core for each thread and, except for [alloc_rate], at least as many
    messages per producer as there are consumers; their queues meet the contract of
    [QueueSpec].  Every theorem with such a hypothesis is applied to a concrete
    instance.

    ** Not modelled

    - Weak memory: all accesses are sequentially consistent.
    - Interleaving inside SSMalloc calls: a call is one transition.  The
      private heaps are not shared, and the stacks that are shared are proved
      linearizable step by step in [SsQueue] and [SsStacks].
    - [RETURN_MEMORY], [DEBUG] and the clean-up thread of SSMalloc, which the
      default build leaves out; [new_delete.cpp], which forwards to [malloc] and
      [free]; [bitops.h], which nothing calls.
    - The theorems on SSMalloc leave out [realloc] of large blocks, which needs
      a contract of [mremap] for moved headers, and [memalign] and what is built
      on it, which do not align; both are defined and evaluated.
    - The queues of folly, moodycamel, TBB, boost and libcds, and jemalloc,
      gperftools and the lockless allocator: libraries behind an interface that
      is a parameter here.  The bulk dequeue of [moody_camel_q.h], which returns
      several nodes at once, is among them.  [folly_q.h] does not meet the contract: its
      queue is bounded and a failing [write] is ignored.
    - Three algorithms of [cralgorithm]: those of Szymanski and Doran and the
      handover of Correia and Ramalhete; and the harness around all of them.
    - In [alloc_rate] and [qrate], accesses of a queue to the link inside a node: the program's own
      accesses are checked against the allocated nodes, those of a queue are its own affair.
    - The other languages of ConcurrencyFreaks and the [.c] copies of the lock headers: no program of
      the suite uses them.
    - Printing, except for [printme], and the scripts. *)

From stdpp Require Export base tactics numbers functions option list gmap.
From Stdlib Require Export ZArith Lia.

(** ** Identifiers

    Threads are numbered; heap nodes are addresses.  [NULL] is [None]. *)

Abbreviation tid := nat (only parsing).
Abbreviation loc := positive (only parsing).
Abbreviation ptr := (option positive) (only parsing).

Declare Scope qr_scope.
Delimit Scope qr_scope with qr.
Open Scope qr_scope.

(** ** Machine integers

    A [w]-bit integer is the [Z] it denotes; arithmetic wraps explicitly. *)

Coercion Z.of_nat : nat >-> Z.

Definition wrap_u (w : Z) (z : Z) : Z := (z mod 2 ^ w)%Z.

Definition wrap_s (w : Z) (z : Z) : Z :=
  let m := (2 ^ w)%Z in
  let r := (z mod m)%Z in
  if bool_decide (r < m / 2)%Z then r else (r - m)%Z.

Abbreviation u64 := (wrap_u 64).
Abbreviation s64 := (wrap_s 64).
Abbreviation s32 := (wrap_s 32).

(** ** Proof automation *)

Create HintDb qr discriminated.

(** Case analysis on every [match] that guards a successful step. *)
Ltac step_inv H :=
  repeat (simplify_eq/=;
    match type of H with
    | context [ match ?x with _ => _ end ] =>
        lazymatch x with
        | context [ match _ with _ => _ end ] => fail
        | _ => destruct x eqn:?
        end
    end); simplify_eq/=.

(** Rewrite reads of a thread map that has just been updated. *)
Ltac simpl_fn :=
  repeat first
    [ rewrite fn_lookup_insert in *
    | rewrite fn_lookup_insert_ne in * by congruence ].

(** Split on whether two thread ids are the same one. *)
Ltac same_tid t1 t2 :=
  let Heq := fresh in
  destruct (decide (t1 = t2)) as [Heq|?]; [first [subst t2|subst; try clear Heq]; simpl_fn|simpl_fn].

(** ** Machine-integer lemmas *)

Section wrap.
Local Open Scope Z_scope.

Lemma wrap_s_mod w a b :
  0 < w → a mod 2 ^ w = b mod 2 ^ w → wrap_s w a = wrap_s w b.
Proof. intros Hw Hab. unfold wrap_s. by rewrite Hab. Qed.

Lemma wrap_s_congr w z : 0 < w → wrap_s w z mod 2 ^ w = z mod 2 ^ w.
Proof.
  intros Hw. assert (0 < 2 ^ w) by (apply Z.pow_pos_nonneg; lia).
  unfold wrap_s. case_bool_decide.
  - apply Zmod_mod.
  - replace (z mod 2 ^ w - 2 ^ w) with (z mod 2 ^ w + (-1) * 2 ^ w) by lia.
    rewrite Z_mod_plus_full. apply Zmod_mod.
Qed.

Lemma wrap_s_add w a b :
  0 < w → wrap_s w (wrap_s w a + b) = wrap_s w (a + b).
Proof.
  intros Hw. apply wrap_s_mod; [done|].
  rewrite Zplus_mod, wrap_s_congr, <-Zplus_mod by done. done.
Qed.

Lemma wrap_s_inj w a b :
  0 < w → wrap_s w a = wrap_s w b → Z.abs (a - b) < 2 ^ w → a = b.
Proof.
  intros Hw Heq Habs. assert (0 < 2 ^ w) by (apply Z.pow_pos_nonneg; lia).
  assert (a mod 2 ^ w = b mod 2 ^ w) as Hm.
  { rewrite <-(wrap_s_congr w a), <-(wrap_s_congr w b) by done. by rewrite Heq. }
  pose proof (Z.div_mod a (2 ^ w) ltac:(lia)).
  pose proof (Z.div_mod b (2 ^ w) ltac:(lia)).
  assert (a / 2 ^ w = b / 2 ^ w) by nia. nia.
Qed.

(** A value in range is not changed. *)
Lemma wrap_u_small w z : 0 ≤ z < 2 ^ w → wrap_u w z = z.
Proof. intros Hz. by apply Z.mod_small. Qed.

Lemma wrap_s_small w z : 0 < w → - 2 ^ (w - 1) ≤ z < 2 ^ (w - 1) → wrap_s w z = z.
Proof.
  intros Hw Hz. assert (2 ^ w = 2 * 2 ^ (w - 1)) as Hpow.
  { rewrite <-Z.pow_succ_r by lia. f_equal. lia. }
  unfold wrap_s. rewrite Hpow.
  replace (2 * 2 ^ (w - 1) / 2) with (2 ^ (w - 1)) by (rewrite Z.mul_comm, Z.div_mul; lia).
  destruct (decide (0 ≤ z)).
  - rewrite Z.mod_small by lia. by rewrite bool_decide_eq_true_2 by lia.
  - replace (z mod (2 * 2 ^ (w - 1))) with (z + 2 * 2 ^ (w - 1)).
    + rewrite bool_decide_eq_false_2 by lia. lia.
    + apply Zmod_unique with (-1); lia.
Qed.
End wrap.

(** ** Lists *)

Lemma NoDup_bounded_length n (l : list nat) :
  NoDup l → Forall (λ t, t < n) l → length l ≤ n.
Proof.
  intros Hnd Hb. rewrite <-(length_seq n 0).
  apply submseteq_length, NoDup_submseteq; [done|].
  intros t Ht. rewrite Forall_forall in Hb. apply elem_of_seq. specialize (Hb t Ht). lia.
Qed.

Lemma submseteq_NoDup {A} (l k : list A) : l ⊆+ k → NoDup k → NoDup l.
Proof. intros [x ->]%submseteq_Permutation. by intros [? _]%NoDup_app. Qed.

Lemma filter_none {A} (P : A → Prop) `{∀ x, Decision (P x)} (l : list A) :
  (∀ x, x ∈ l → ¬ P x) → filter P l = [].
Proof.
  intros Hl. induction l as [|x l IH]; [done|]. rewrite filter_cons_False.
  - apply IH. intros y Hy. apply Hl. by right.
  - apply Hl. by left.
Qed.

(** [y] comes right after [x] in [l]. *)
Definition consec {A} (l : list A) (x y : A) : Prop :=
  ∃ i, l !! i = Some x ∧ l !! S i = Some y.

Section consec.
Context {A : Type}.
Implicit Types (l : list A) (x y z : A).

Lemma consec_cons a l x y : consec (a :: l) x y ↔ (x = a ∧ head l = Some y) ∨ consec l x y.
Proof.
  unfold consec. split.
  - intros ([|i] & Hx & Hy); simpl in *; [|by eauto].
    left. simplify_eq. by rewrite head_lookup.
  - intros [[-> Hy]|(i & Hx & Hy)].
    + exists 0. by rewrite head_lookup in Hy.
    + by exists (S i).
Qed.

Lemma consec_snoc l n x y : consec (l ++ [n]) x y ↔ consec l x y ∨ (last l = Some x ∧ y = n).
Proof.
  induction l as [|a l IH].
  - simpl. rewrite consec_cons. unfold consec. simpl. setoid_rewrite lookup_nil. naive_solver.
  - rewrite <-app_comm_cons, !consec_cons, IH. destruct l as [|b l]; simpl; [|naive_solver].
    unfold consec. setoid_rewrite lookup_nil. naive_solver.
Qed.

Lemma consec_elem l x y : consec l x y → x ∈ l ∧ y ∈ l.
Proof. intros (i & Hx & Hy). split; by eapply list_elem_of_lookup_2. Qed.

Lemma consec_unique l x y z : NoDup l → consec l x y → consec l x z → y = z.
Proof.
  intros Hnd (i & Hx & Hy) (j & Hx' & Hz). rewrite (NoDup_lookup l i j x) in Hy by done. congruence.
Qed.

(** The last element has no successor. *)
Lemma consec_last l x y : NoDup l → last l = Some x → ¬ consec l x y.
Proof.
  intros Hnd Hl (i & Hx & Hy). rewrite last_lookup in Hl.
  rewrite (NoDup_lookup l i (pred (length l)) x) in Hy by done.
  apply lookup_lt_Some in Hy. lia.
Qed.
End consec.

Lemma NoDup_head_last {A} (l : list A) x :
  NoDup l → head l = Some x → last l = Some x → l = [x].
Proof.
  destruct l as [|y [|z l]]; intros Hnd Hh Hl; simplify_eq/=; [done|].
  apply NoDup_cons in Hnd as [Hn _]. destruct Hn. by apply (last_Some_elem_of (z :: l)).
Qed.
