(* ===== verification/Lts.v ===== *)
(** * Labelled transition systems

    Concurrent components are modelled as labelled transition systems under
    sequentially consistent interleaving: a label names the thread that moves
    and whatever the environment chooses for that move (the address [malloc]
    returns, whether a weak compare-and-swap fails spuriously).  The step
    function is executable, so concrete schedules evaluate. *)

From S2P Require Import Prelude.

Class Lts (L S : Type) := {
  lts_init : S → Prop;
  lts_step : L → S → option S;
}.

Section lts.
Context {L S : Type} {sys : Lts L S}.

(** States reached by some interleaving. *)
Inductive reachable : S → Prop :=
  | reachable_init s : lts_init s → reachable s
  | reachable_step l s s' :
      reachable s → lts_step l s = Some s' → reachable s'.

(** Running a schedule; [None] when a label is not enabled. *)
Fixpoint run (ls : list L) (s : S) : option S :=
  match ls with
  | [] => Some s
  | l :: ls' => match lts_step l s with Some s' => run ls' s' | None => None end
  end.

Definition invariant (I : S → Prop) : Prop :=
  (∀ s, lts_init s → I s) ∧
  (∀ l s s', I s → lts_step l s = Some s' → I s').

Lemma invariant_reachable (I : S → Prop) s : invariant I → reachable s → I s.
Proof. intros [Hi Hs]. induction 1; eauto. Qed.

(** An invariant may be strengthened by what is already known. *)
Lemma invariant_reachable_with (J I : S → Prop) s :
  (∀ s, reachable s → J s) →
  (∀ s, lts_init s → I s) →
  (∀ l s s', J s → I s → lts_step l s = Some s' → I s') →
  reachable s → I s.
Proof. intros HJ Hi Hs. induction 1; eauto. Qed.

Lemma run_app ls1 ls2 s :
  run (ls1 ++ ls2) s = match run ls1 s with Some s' => run ls2 s' | None => None end.
Proof. revert s. induction ls1 as [|l ls1 IH]; intros s; simpl; [done|]. by case_match. Qed.

Lemma run_reachable ls s s' : reachable s → run ls s = Some s' → reachable s'.
Proof.
  revert s. induction ls as [|l ls IH]; intros s Hr Hrun; simplify_eq/=; [done|].
  case_match; simplify_eq. eauto using reachable_step.
Qed.

Lemma reachable_run s : reachable s → ∃ s0 ls, lts_init s0 ∧ run ls s0 = Some s.
Proof.
  induction 1 as [s Hi|l s s' Hr (s0 & ls & Hi & Hrun) Hstep].
  - by exists s, [].
  - exists s0, (ls ++ [l]). split; [done|]. rewrite run_app, Hrun. simpl. by rewrite Hstep.
Qed.
End lts.

Arguments invariant {_ _} _ _.

(** ** Forward simulation

    [R] relates the states of an implementation to those of an abstract
    system, given by its initial states and its step relation; every
    implementation step is matched by one abstract step or by none. *)

Section simulation.
Context {L S A : Type} {sys : Lts L S}.
Context (ainit : A → Prop) (astep : A → A → Prop).

Inductive areachable : A → Prop :=
  | areachable_init a : ainit a → areachable a
  | areachable_step a a' : areachable a → astep a a' → areachable a'.

Definition simulation (R : S → A → Prop) : Prop :=
  (∀ s, lts_init s → ∃ a, ainit a ∧ R s a) ∧
  (∀ l s s' a, R s a → lts_step l s = Some s' →
     ∃ a', (a' = a ∨ astep a a') ∧ R s' a').

Lemma simulation_reachable R s :
  simulation R → reachable s → ∃ a, areachable a ∧ R s a.
Proof.
  intros [Hi Hs]. induction 1 as [s Hs0|l s s' _ (a & Ha & HR) Hstep].
  - destruct (Hi s Hs0) as (a & ? & ?). eauto using areachable_init.
  - destruct (Hs l s s' a HR Hstep) as (a' & [->|?] & ?); eauto using areachable_step.
Qed.
End simulation.

#[export] Hint Resolve reachable_init reachable_step : qr.
