(* ===== verification/Mutex.v ===== *)
(** * The mutual-exclusion interface

    [src/lockrate.c] is compiled once per lock: [LOCK_METHOD] selects which
    implementation stands behind [lock_init], [lock] and [unlock].  The class
    [Mutex] is that interface as a transition system, [MutexLaws] is what a
    client may rely on, and [QueueLock] is the contract the lock
    implementations discharge: each of them refines one abstract lock, a queue
    of threads whose head may hold the lock.  Mutual exclusion, first-come
    first-served service and progress are consequences of that refinement,
    proved here once. *)

From S2P Require Import Prelude Lts.

(** ** Where a thread stands with respect to one lock *)

Inductive phase :=
  | Idle       (** outside [lock] and [unlock] and not holding *)
  | Entering   (** in [lock], before the instruction that queues it *)
  | Waiting    (** in [lock], queued *)
  | Acquired   (** in [lock], admitted, bookkeeping left to do *)
  | Holding    (** [lock] has returned *)
  | Unlocking  (** in [unlock], before the releasing store *)
  | Leaving    (** in [unlock], after the releasing store *).

#[export] Instance phase_eq_dec : EqDecision phase.
Proof. solve_decision. Defined.

Definition owns (p : phase) : bool :=
  match p with Acquired | Holding | Unlocking => true | _ => false end.

Definition queued (p : phase) : bool :=
  match p with Waiting => true | _ => owns p end.

(** The order in which a thread may pass through the phases. *)
Definition phase_next (p p' : phase) : bool :=
  match p, p' with
  | Idle, (Entering | Waiting) => true
  | Entering, (Entering | Waiting) => true
  | Waiting, (Waiting | Acquired | Holding) => true
  | Acquired, (Acquired | Holding) => true
  | Holding, (Unlocking | Leaving | Idle) => true
  | Unlocking, (Unlocking | Leaving | Idle) => true
  | Leaving, (Leaving | Idle) => true
  | _, _ => false
  end.

(** ** The interface *)

Class Mutex (L S : Type) := {
  mtx_init : S → Prop;
  mtx_step : tid → L → S → option S;
  mtx_phase : S → tid → phase;
}.

#[export] Instance mutex_lts {L S} `{Mutex L S} : Lts (tid * L) S := {
  lts_init := mtx_init;
  lts_step := λ '(t, l) s, mtx_step t l s;
}.

(** [P] holds after thread [t] has run alone for a while from [s]. *)
Definition solo {L S} {M : Mutex L S} (t : tid) (s : S) (P : S → Prop) : Prop :=
  ∃ ls s', run (map (pair t) ls) s = Some s' ∧ P s'.

(** What a client of a lock relies on. *)
Class MutexLaws (L S : Type) `{Mutex L S} := {
  mtx_init_idle s t : mtx_init s → mtx_phase s t = Idle;
  mtx_frame t t' l s s' :
    mtx_step t l s = Some s' → t ≠ t' → mtx_phase s' t' = mtx_phase s t';
  mtx_cycle t l s s' :
    mtx_step t l s = Some s' → phase_next (mtx_phase s t) (mtx_phase s' t) = true;
  mtx_exclusion s t1 t2 :
    reachable s → owns (mtx_phase s t1) = true → owns (mtx_phase s t2) = true → t1 = t2;
}.

(** ** Correctness of a lock

    No two threads own the lock; threads are admitted in the order in which
    they queued up; and when the lock is free some queued thread can take it
    by running alone. *)

Definition lock_exclusive {L S} (M : Mutex L S) : Prop :=
  ∀ s t1 t2, reachable s →
    owns (mtx_phase s t1) = true → owns (mtx_phase s t2) = true → t1 = t2.

Definition lock_progress {L S} (M : Mutex L S) : Prop :=
  ∀ s t, reachable s → queued (mtx_phase s t) = true →
    (∀ t', owns (mtx_phase s t') = false) →
    ∃ t', queued (mtx_phase s t') = true ∧ solo t' s (λ s', mtx_phase s' t' = Holding).

(** ** The abstract queue lock

    A state is the queue of threads that have asked for the lock and have not
    given it back, and whether the head of the queue has been admitted. *)

Inductive qlock_step (t : tid) : list tid → bool → list tid → bool → Prop :=
  | ql_stutter q h : qlock_step t q h q h
  | ql_arrive q h : t ∉ q → qlock_step t q h (q ++ [t]) h
  | ql_admit q : qlock_step t (t :: q) false (t :: q) true
  | ql_leave q : qlock_step t (t :: q) true q false.

Definition qlock_wf (q : list tid) (h : bool) : Prop :=
  NoDup q ∧ (h = true → q ≠ []).

(** The refinement contract of a lock implementation. *)
Class QueueLock (L S : Type) `{Mutex L S} := {
  ql_rel : S → list tid → bool → Prop;
  ql_init s : mtx_init s → ql_rel s [] false;
  ql_sim t l s s' q h :
    ql_rel s q h → mtx_step t l s = Some s' →
    ∃ q' h', qlock_step t q h q' h' ∧ ql_rel s' q' h';
  ql_queued s q h t : ql_rel s q h → (queued (mtx_phase s t) = true ↔ t ∈ q);
  ql_owns s q h t :
    ql_rel s q h → (owns (mtx_phase s t) = true ↔ h = true ∧ head q = Some t);
  ql_init_idle s t : mtx_init s → mtx_phase s t = Idle;
  ql_frame t t' l s s' :
    mtx_step t l s = Some s' → t ≠ t' → mtx_phase s' t' = mtx_phase s t';
  ql_cycle t l s s' :
    mtx_step t l s = Some s' → phase_next (mtx_phase s t) (mtx_phase s' t) = true;
  (** A queued head that is not yet admitted gets in by itself ... *)
  ql_enters s t q :
    ql_rel s (t :: q) false →
    solo t s (λ s', mtx_phase s' t = Holding);
  (** ... and whoever has been admitted can give the lock back by itself. *)
  ql_exits s q h t :
    ql_rel s q h → owns (mtx_phase s t) = true →
    solo t s (λ s', queued (mtx_phase s' t) = false);
}.

(** ** Events of a schedule *)

Inductive event := Arrive (t : tid) | Enter (t : tid) | Leave (t : tid).

Definition step_events (t : tid) (p p' : phase) : list event :=
  (if negb (queued p) && queued p' then [Arrive t] else []) ++
  (if negb (owns p) && owns p' then [Enter t] else []) ++
  (if owns p && negb (owns p') then [Leave t] else []).

Section trace.
Context {L S : Type} `{Mutex L S}.

Fixpoint trace (ls : list (tid * L)) (s : S) : list event :=
  match ls with
  | [] => []
  | (t, l) :: ls' =>
      match mtx_step t l s with
      | Some s' => step_events t (mtx_phase s t) (mtx_phase s' t) ++ trace ls' s'
      | None => []
      end
  end.
End trace.

Definition arrivals (es : list event) : list tid :=
  omap (λ e, match e with Arrive t => Some t | _ => None end) es.

Definition entries (es : list event) : list tid :=
  omap (λ e, match e with Enter t => Some t | _ => None end) es.

Definition lock_fifo {L S} (M : Mutex L S) : Prop :=
  ∀ ls s s', mtx_init s → run ls s = Some s' →
    entries (trace ls s) `prefix_of` arrivals (trace ls s).

(** ** Consequences of the contract *)

Lemma solo_done {L S} {M : Mutex L S} t s (P : S → Prop) : P s → solo t s P.
Proof. by exists [], s. Qed.

Lemma solo_step {L S} {M : Mutex L S} t l s s1 (P : S → Prop) :
  mtx_step t l s = Some s1 → solo t s1 P → solo t s P.
Proof.
  intros Hstep (ls & s' & Hrun & HP). exists (l :: ls), s'. split; [|done].
  simpl. by rewrite Hstep.
Qed.

Lemma qlock_step_wf t q h q' h' :
  qlock_step t q h q' h' → qlock_wf q h → qlock_wf q' h'.
Proof.
  intros Hstep [Hnd Hh]. destruct Hstep; split; try done.
  - apply NoDup_app. split_and!; [done| |apply NoDup_singleton].
    intros t' ? ->%list_elem_of_singleton. done.
  - intros _ ?. by destruct q.
  - by apply NoDup_cons in Hnd as [??].
Qed.

Section queue_lock.
Context {L S : Type} {M : Mutex L S} {Q : QueueLock L S}.

(** Every reachable state is related to a well-formed queue. *)
Lemma qlock_reachable s : reachable s → ∃ q h, ql_rel s q h ∧ qlock_wf q h.
Proof.
  induction 1 as [s Hi|[t l] s s' _ (q & h & HR & Hwf) Hstep].
  - exists [], false. split; [by apply ql_init|]. split; [constructor|done].
  - destruct (ql_sim t l s s' q h HR Hstep) as (q' & h' & Hq & HR').
    exists q', h'. eauto using qlock_step_wf.
Qed.

Lemma qlock_exclusion : lock_exclusive M.
Proof.
  intros s t1 t2 (q & h & HR & _)%qlock_reachable [_ ?]%(ql_owns _ _ _ _ HR)
    [_ ?]%(ql_owns _ _ _ _ HR). congruence.
Qed.

(** If somebody is queued and nobody has the lock, then the thread at the
    head of the queue acquires it by running alone. *)
Lemma qlock_progress : lock_progress M.
Proof.
  intros s t (q & h & HR & [_ Hh])%qlock_reachable Ht%(ql_queued _ _ _ _ HR) Hno.
  destruct q as [|t' q]; [by apply not_elem_of_nil in Ht|].
  destruct h.
  - specialize (Hno t'). assert (owns (mtx_phase s t') = true) by (by apply (ql_owns _ _ _ _ HR)).
    congruence.
  - exists t'. split; [|by eapply ql_enters]. apply (ql_queued _ _ _ _ HR). by left.
Qed.

(** What the queue still owes: the threads that have arrived and not been
    admitted. *)
Definition owed (q : list tid) (h : bool) : list tid := if h then tail q else q.

Lemma ql_queued_bool s q h t :
  ql_rel s q h → queued (mtx_phase s t) = bool_decide (t ∈ q).
Proof.
  intros HR. apply Bool.eq_iff_eq_true. rewrite bool_decide_eq_true. by apply ql_queued with h.
Qed.

Lemma ql_owns_bool s q h t :
  ql_rel s q h → owns (mtx_phase s t) = h && bool_decide (head q = Some t).
Proof.
  intros HR. apply Bool.eq_iff_eq_true.
  rewrite andb_true_iff, bool_decide_eq_true. by apply ql_owns.
Qed.

Lemma step_events_owed t s s' q h q' h' :
  qlock_wf q h → ql_rel s q h → ql_rel s' q' h' → qlock_step t q h q' h' →
  let es := step_events t (mtx_phase s t) (mtx_phase s' t) in
  owed q h ++ arrivals es = entries es ++ owed q' h'.
Proof.
  intros [Hnd Hh] HR HR' Hq. unfold step_events.
  rewrite !(ql_queued_bool _ _ _ _ HR), !(ql_queued_bool _ _ _ _ HR').
  rewrite !(ql_owns_bool _ _ _ _ HR), !(ql_owns_bool _ _ _ _ HR').
  destruct Hq as [q h|q h Hnin|q|q]; simpl.
  - by rewrite !andb_negb_l, andb_negb_r, app_nil_r.
  - rewrite (bool_decide_eq_false_2 (t ∈ q)), (bool_decide_eq_true_2 (t ∈ q ++ [t]))
      by set_solver.
    destruct q as [|t0 q]; simpl.
    + destruct h; [by specialize (Hh eq_refl)|done].
    + rewrite bool_decide_eq_false_2 by set_solver.
      rewrite andb_false_r. simpl. by destruct h.
  - rewrite !bool_decide_eq_true_2 by set_solver. simpl. by rewrite app_nil_r.
  - apply NoDup_cons in Hnd as [Hnin _].
    rewrite (bool_decide_eq_true_2 (t ∈ t :: q)), (bool_decide_eq_true_2 (Some t = Some t)),
      (bool_decide_eq_false_2 (t ∈ q)) by set_solver.
    simpl. by rewrite app_nil_r.
Qed.

Lemma trace_owed ls s s' q h :
  qlock_wf q h → ql_rel s q h → run ls s = Some s' →
  ∃ q' h', owed q h ++ arrivals (trace ls s) = entries (trace ls s) ++ owed q' h'.
Proof.
  revert s q h. induction ls as [|[t l] ls IH]; intros s q h Hwf HR Hrun; simpl in *.
  { exists q, h. simpl. by rewrite app_nil_r. }
  destruct (mtx_step t l s) as [s1|] eqn:Hstep; [|done].
  destruct (ql_sim t l s s1 q h HR Hstep) as (q1 & h1 & Hq & HR1).
  destruct (IH s1 q1 h1) as (q' & h' & Heq); eauto using qlock_step_wf.
  exists q', h'. unfold arrivals, entries in *. rewrite !omap_app.
  pose proof (step_events_owed t s s1 q h q1 h1 Hwf HR HR1 Hq) as Hes.
  unfold arrivals, entries in Hes. simpl in Hes.
  rewrite (assoc_L (++)), Hes, <-!(assoc_L (++)). by rewrite Heq.
Qed.

(** Threads are admitted in the order in which they arrived. *)
Lemma qlock_fifo : lock_fifo M.
Proof.
  intros ls s s' Hi Hrun.
  destruct (trace_owed ls s s' [] false) as (q' & h' & Heq);
    [split; [constructor|done]|by apply ql_init|done|].
  exists (owed q' h'). done.
Qed.

Lemma qlock_correct : lock_exclusive M ∧ lock_fifo M ∧ lock_progress M.
Proof. split_and!; [apply qlock_exclusion|apply qlock_fifo|apply qlock_progress]. Qed.

(** The contract implies what clients rely on. *)
#[export] Instance queue_lock_laws : MutexLaws L S := {
  mtx_init_idle := ql_init_idle;
  mtx_frame := ql_frame;
  mtx_cycle := ql_cycle;
  mtx_exclusion := qlock_exclusion;
}.
End queue_lock.
