(* ===== verification/Nodes.v ===== *)
(** * Ownership of heap nodes

    The node-based locks and queues of the repository allocate with [malloc],
    publish a node by an atomic instruction and [free] it somewhere else.
    This file accounts for the nodes: every allocated node is either part of
    the shared structure or private to exactly one thread.  Use after free,
    double free and leaks are all excluded by keeping that account. *)

From S2P Require Import Prelude.

(** What a step does: it finishes, or it touches memory that is not
    allocated. *)
Inductive res (A : Type) := Done (a : A) | Fault.
Arguments Done {A} _.
Arguments Fault {A}.

Section owned.
Context {PC : Type} (priv : PC → ptr).

(** [D] is the set of allocated nodes, [P] says which nodes are shared, and
    [priv pc] is the node that a thread at [pc] has for itself. *)
Record owned (D : gset loc) (P : loc → Prop) (pcs : tid → PC) : Prop := {
  ow_shared : ∀ p, P p → p ∈ D;
  ow_priv : ∀ t p, priv (pcs t) = Some p → p ∈ D ∧ ¬ P p;
  ow_sep : ∀ t t' p, priv (pcs t) = Some p → priv (pcs t') = Some p → t = t';
  ow_all : ∀ p, p ∈ D → P p ∨ ∃ t, priv (pcs t) = Some p;
}.

Context (D : gset loc) (P : loc → Prop) (pcs : tid → PC) (t : tid) (pc : PC).

Lemma owned_keep (P' : loc → Prop) :
  owned D P pcs → priv pc = priv (pcs t) → (∀ q, P' q ↔ P q) →
  owned D P' (<[t := pc]> pcs).
Proof.
  intros [H1 H2 H3 H4] Hpc HP.
  assert (∀ t', priv ((<[t := pc]> pcs) t') = priv (pcs t')) as Hsame.
  { intros t'. by same_tid t t'. }
  split.
  - intros p. rewrite HP. auto.
  - intros t' p. rewrite Hsame, HP. apply H2.
  - intros t1 t2 p. rewrite !Hsame. eauto.
  - intros p Hp. rewrite HP. destruct (H4 p Hp) as [|[t' ?]]; [by left|right].
    exists t'. by rewrite Hsame.
Qed.

Lemma owned_alloc p :
  owned D P pcs → p ∉ D → priv (pcs t) = None → priv pc = Some p →
  owned ({[p]} ∪ D) P (<[t := pc]> pcs).
Proof.
  intros [H1 H2 H3 H4] Hp Ht Hpc. split.
  - set_solver.
  - intros t' q. same_tid t t'; intros Hq.
    + simplify_eq. split; [set_solver|]. auto.
    + destruct (H2 t' q Hq). set_solver.
  - intros t1 t2 q. same_tid t t1; same_tid t t2; intros Hq1 Hq2; simplify_eq; [done|..|eauto].
    + by destruct Hp, (H2 t2 p).
    + by destruct Hp, (H2 t1 p).
  - intros q [->%elem_of_singleton|Hq]%elem_of_union.
    + right. exists t. by simpl_fn.
    + destruct (H4 q Hq) as [|[t' ?]]; [by left|right]. exists t'.
      same_tid t t'; congruence.
Qed.

Lemma owned_publish (P' : loc → Prop) p :
  owned D P pcs → priv (pcs t) = Some p → priv pc = None → (∀ q, P' q ↔ q = p ∨ P q) →
  owned D P' (<[t := pc]> pcs).
Proof.
  intros [H1 H2 H3 H4] Ht Hpc HP. split.
  - intros q [->|?]%HP; [by apply (H2 t)|auto].
  - intros t' q. same_tid t t'; [congruence|]. intros Hq. rewrite HP.
    destruct (H2 t' q Hq). split; [done|]. intros [->|?]; [|done]. by assert (t = t') by eauto.
  - intros t1 t2 q. same_tid t t1; same_tid t t2; intros; [congruence..|eauto].
  - intros q Hq. rewrite HP. destruct (H4 q Hq) as [|[t' ?]]; [by auto|].
    same_tid t t'; [left; left; congruence|]. right. exists t'. by simpl_fn.
Qed.

Lemma owned_retire (P' : loc → Prop) p :
  owned D P pcs → P p → priv (pcs t) = None → priv pc = Some p →
  (∀ q, P' q ↔ q ≠ p ∧ P q) →
  owned D P' (<[t := pc]> pcs).
Proof.
  intros [H1 H2 H3 H4] Hp Ht Hpc HP. split.
  - intros q [_ ?]%HP. auto.
  - intros t' q. rewrite HP. same_tid t t'; intros Hq; [split; [|naive_solver]; simplify_eq; auto|].
    destruct (H2 t' q Hq). naive_solver.
  - intros t1 t2 q. same_tid t t1; same_tid t t2; intros Hq1 Hq2; simplify_eq; [done|..|eauto].
    + by destruct (H2 t2 p).
    + by destruct (H2 t1 p).
  - intros q Hq. rewrite HP. destruct (decide (q = p)) as [->|Hne].
    + right. exists t. by simpl_fn.
    + destruct (H4 q Hq) as [|[t' ?]]; [by auto|right]. exists t'. same_tid t t'; congruence.
Qed.

Lemma owned_free p :
  owned D P pcs → priv (pcs t) = Some p → priv pc = None →
  owned (D ∖ {[p]}) P (<[t := pc]> pcs).
Proof.
  intros [H1 H2 H3 H4] Ht Hpc. destruct (H2 t p Ht) as [_ Hp]. split.
  - intros q Hq. specialize (H1 q Hq). assert (q ≠ p) by naive_solver. set_solver.
  - intros t' q. same_tid t t'; [congruence|]. intros Hq. destruct (H2 t' q Hq).
    assert (q ≠ p) by (intros ->; by assert (t = t') by eauto). set_solver.
  - intros t1 t2 q. same_tid t t1; same_tid t t2; intros; [congruence..|eauto].
  - intros q [Hq Hne%not_elem_of_singleton]%elem_of_difference.
    destruct (H4 q Hq) as [|[t' ?]]; [by auto|]. same_tid t t'; [congruence|].
    right. exists t'. by simpl_fn.
Qed.

(** A shared node is freed in the step that takes it out. *)
Lemma owned_drop (P' : loc → Prop) p :
  owned D P pcs → P p → priv pc = priv (pcs t) → (∀ q, P' q ↔ q ≠ p ∧ P q) →
  owned (D ∖ {[p]}) P' (<[t := pc]> pcs).
Proof.
  intros [H1 H2 H3 H4] Hp Hpc HP.
  assert (∀ t', priv ((<[t := pc]> pcs) t') = priv (pcs t')) as Hsame.
  { intros t'. by same_tid t t'. }
  split.
  - intros q [? ?%H1]%HP. set_solver.
  - intros t' q. rewrite Hsame, HP. intros Hq. destruct (H2 t' q Hq).
    assert (q ≠ p) by naive_solver. set_solver.
  - intros t1 t2 q. rewrite !Hsame. eauto.
  - intros q [Hq Hne%not_elem_of_singleton]%elem_of_difference. rewrite HP.
    destruct (H4 q Hq) as [|[t' ?]]; [by auto|]. right. exists t'. by rewrite Hsame.
Qed.
End owned.

(** ** Linked lists

    [lseg nx p l e]: starting at [p] and following the [next] fields [nx] one
    meets the nodes of [l] in order and then [e]. *)

Fixpoint lseg (nx : loc → ptr) (p : ptr) (l : list loc) (e : ptr) : Prop :=
  match l with
  | [] => p = e
  | x :: l' => p = Some x ∧ lseg nx (nx x) l' e
  end.

Lemma lseg_frame nx nx' p l e :
  (∀ x, x ∈ l → nx' x = nx x) → lseg nx p l e → lseg nx' p l e.
Proof.
  revert p. induction l as [|x l IH]; intros p Heq; simpl; [done|].
  intros [-> Hl]. split; [done|]. rewrite Heq by (by left).
  apply IH; [|done]. intros y Hy. apply Heq. by right.
Qed.

Lemma lseg_insert nx p l e n v : n ∉ l → lseg nx p l e → lseg (<[n := v]> nx) p l e.
Proof. intros Hn. apply lseg_frame. intros x Hx. apply fn_lookup_insert_ne. by intros ->. Qed.

Lemma lseg_app nx p l l' e :
  lseg nx p (l ++ l') e ↔ ∃ q, lseg nx p l q ∧ lseg nx q l' e.
Proof.
  revert p. induction l as [|x l IH]; intros p; simpl.
  - naive_solver.
  - rewrite IH. naive_solver.
Qed.

(** Appending: the last node is made to point to a new one. *)
Lemma lseg_snoc nx p l h n :
  lseg nx p l None → NoDup l → last l = Some h → n ∉ l → nx n = None →
  lseg (<[h := Some n]> nx) p (l ++ [n]) None.
Proof.
  intros Hl Hnd [l' ->]%last_Some Hn Hnx. apply NoDup_app in Hnd as (_ & Hnd & _).
  apply lseg_app in Hl as (q & Hl & -> & _). rewrite not_elem_of_app, not_elem_of_cons in Hn.
  apply lseg_app. exists (Some n). simpl. rewrite fn_lookup_insert_ne by naive_solver.
  split; [|done]. apply lseg_app. exists (Some h). simpl. simpl_fn. split; [|done].
  apply lseg_insert; [|done]. intros Hin. apply (Hnd h Hin). by left.
Qed.
