(* ===== verification/Chain.v ===== *)
(** * Chains of waiting threads

    Every queue lock of the repository hands the lock over along a chain of
    identifiers: a thread publishes an identifier of its own, learns the
    identifier published just before it, waits until that one is current, and
    makes its own identifier current when it releases.  The identifiers are
    tickets, thread ids or heap nodes depending on the lock.  This file holds
    the chain and the lemmas by which the locks maintain it. *)

From S2P Require Import Prelude Lts Mutex.

Section chain.
Context {I : Type}.

Record entry := Entry { en_tid : tid; en_prev : I; en_my : I }.

(** [chain cur c last]: the first entry waits for [cur], every other entry
    for the identifier of the one before it, and [last] was published last. *)
Fixpoint chain (cur : I) (c : list entry) (last : I) : Prop :=
  match c with
  | [] => last = cur
  | e :: c' => en_prev e = cur ∧ chain (en_my e) c' last
  end.

Definition chain_ids (cur : I) (c : list entry) : list I := cur :: map en_my c.
Definition chain_tids (c : list entry) : list tid := map en_tid c.

Lemma chain_snoc cur c last t m :
  chain cur c last → chain cur (c ++ [Entry t last m]) m.
Proof.
  revert cur. induction c as [|e c IH]; intros cur; simpl.
  - intros ->. done.
  - intros [??]. auto.
Qed.

Lemma chain_last_in cur c last : chain cur c last → last ∈ chain_ids cur c.
Proof.
  revert cur. induction c as [|e c IH]; intros cur; simpl.
  - intros ->. by left.
  - intros [_ Hc]. right. by apply IH.
Qed.

Lemma chain_prev_in cur c last e :
  chain cur c last → e ∈ c → en_prev e ∈ chain_ids cur c.
Proof.
  revert cur. induction c as [|e0 c IH]; intros cur; simpl; [set_solver|].
  intros [Hp Hc] [->|Hin]%elem_of_cons; [rewrite Hp; by left|].
  right. by apply IH.
Qed.

Lemma chain_prevs cur c last :
  chain cur c last → map en_prev c ++ [last] = chain_ids cur c.
Proof.
  unfold chain_ids. revert cur. induction c as [|e c IH]; intros cur; simpl.
  - by intros ->.
  - intros [-> Hc]. f_equal. by apply IH.
Qed.

(** No two entries wait for the same identifier. *)
Lemma chain_prev_unique cur c last e e' :
  chain cur c last → NoDup (chain_ids cur c) → e ∈ c → e' ∈ c →
  en_prev e = en_prev e' → e = e'.
Proof.
  intros Hc Hnd He He' Heq. rewrite <-(chain_prevs _ _ _ Hc) in Hnd.
  apply NoDup_app in Hnd as [Hnd _]. clear Hc.
  induction c as [|e0 c IH]; [set_solver|]. apply NoDup_cons in Hnd as [Hn Hnd].
  assert (∀ x, x ∈ c → en_prev e0 ≠ en_prev x) as Hne.
  { intros x Hx Heq'. apply Hn. rewrite Heq'. by apply list_elem_of_fmap_2. }
  apply elem_of_cons in He as [->|He], He' as [->|He']; naive_solver.
Qed.

(** Identifiers are distinct, so only the first entry waits for [cur]. *)
Lemma chain_head cur c last e :
  chain cur c last → NoDup (chain_ids cur c) → e ∈ c → en_prev e = cur →
  ∃ c', c = e :: c'.
Proof.
  destruct c as [|e0 c]; [set_solver|]. simpl.
  intros [Hp Hc] [Hn _]%NoDup_cons [->|Hin]%elem_of_cons Hcur; [by eauto|].
  destruct Hn. rewrite <-Hcur. by apply (chain_prev_in (en_my e0) c last).
Qed.
End chain.

Arguments entry : clear implicits.

(** Closes goals that say that a program counter, known by [Hpc], does not
    have a certain shape. *)
Ltac pc_absurd Hpc := rewrite Hpc; repeat intro; hnf in *; naive_solver.

(** ** A chain and the program points of its threads

    [W e pc] says that a thread with program counter [pc] waits as entry [e],
    [O e pc] that it has been admitted as [e], and [N t pc] that [t] is not
    queued.  [h] tells whether the first entry has been admitted. *)

Section chain_rel.
Context {I PC : Type}.

Record chain_rel (W O : entry I → PC → Prop) (N : tid → PC → Prop)
    (cur last : I) (pcs : tid → PC) (c : list (entry I)) (h : bool) : Prop := ChainRel {
  cr_chain : chain cur c last;
  cr_ids : NoDup (chain_ids cur c);
  cr_tids : NoDup (chain_tids c);
  cr_pos : match c with
           | [] => h = false
           | e :: c' => (if h then O e (pcs (en_tid e)) else W e (pcs (en_tid e))) ∧
                        ∀ e', e' ∈ c' → W e' (pcs (en_tid e'))
           end;
  cr_out : ∀ t, t ∉ chain_tids c → N t (pcs t);
}.

Context (W O : entry I → PC → Prop) (N : tid → PC → Prop).
Implicit Types (cur last : I) (pcs : tid → PC) (c : list (entry I)) (h : bool).

Lemma chain_tids_in c t : t ∈ chain_tids c → ∃ e, e ∈ c ∧ en_tid e = t.
Proof. intros (e & -> & ?)%list_elem_of_fmap. eauto. Qed.

Lemma chain_tids_elem c e : e ∈ c → en_tid e ∈ chain_tids c.
Proof. intros. apply list_elem_of_fmap. eauto. Qed.

(** Where the entry of a queued thread is. *)
Lemma chain_rel_entry cur last pcs c h t :
  chain_rel W O N cur last pcs c h → ¬ N t (pcs t) →
  ∃ e, e ∈ c ∧ en_tid e = t ∧
    ((h = true ∧ head c = Some e ∧ O e (pcs t)) ∨ W e (pcs t)).
Proof.
  intros [_ _ _ Hpos Hout] HN.
  destruct (decide (t ∈ chain_tids c)) as [(e & He & <-)%chain_tids_in|Hn].
  2:{ by destruct HN; apply Hout. }
  exists e. split_and!; [done|done|]. destruct c as [|e0 c]; [set_solver|].
  destruct Hpos as [H0 H1]. apply elem_of_cons in He as [->|He]; [|auto].
  destruct h; auto.
Qed.

(** A thread whose program counter only fits a waiting entry ... *)
Lemma chain_rel_waiter cur last pcs c h t :
  chain_rel W O N cur last pcs c h → ¬ N t (pcs t) → (∀ e, ¬ O e (pcs t)) →
  ∃ e, e ∈ c ∧ en_tid e = t ∧ W e (pcs t) ∧ ¬ (h = true ∧ head c = Some e).
Proof.
  intros Hcr HN HO.
  destruct (chain_rel_entry _ _ _ _ _ t Hcr HN) as (e & He & <- & [(_ & _ & ?)|HW]);
    [naive_solver|].
  exists e. split_and!; [done..|]. intros [-> Hhd]. destruct c as [|e0 c]; simplify_eq/=.
  by apply (HO e), (cr_pos _ _ _ _ _ _ _ _ Hcr).
Qed.

(** ... and one whose program counter only fits the admitted entry. *)
Lemma chain_rel_owner cur last pcs c h t :
  chain_rel W O N cur last pcs c h → ¬ N t (pcs t) → (∀ e, ¬ W e (pcs t)) →
  ∃ e c', c = e :: c' ∧ h = true ∧ en_tid e = t ∧ en_prev e = cur ∧ O e (pcs t).
Proof.
  intros Hcr HN HW.
  destruct (chain_rel_entry _ _ _ _ _ t Hcr HN) as (e & He & <- & [(-> & Hhd & HO)|?]);
    [|naive_solver].
  destruct c as [|e0 c]; simplify_eq/=.
  exists e, c. split_and!; [done..| |done]. apply (cr_chain _ _ _ _ _ _ _ _ Hcr).
Qed.

(** The predicates may be exchanged for others that hold at the same
    program points. *)
Lemma chain_rel_weaken (W' O' : entry I → PC → Prop) (N' : tid → PC → Prop) cur last pcs c h :
  (∀ e, e ∈ c → W e (pcs (en_tid e)) → W' e (pcs (en_tid e))) →
  (∀ e, e ∈ c → O e (pcs (en_tid e)) → O' e (pcs (en_tid e))) →
  (∀ t, t ∉ chain_tids c → N t (pcs t) → N' t (pcs t)) →
  chain_rel W O N cur last pcs c h → chain_rel W' O' N' cur last pcs c h.
Proof.
  intros HW HO HN [Hc Hi Ht Hpos Hout]. split; [done..| |by auto].
  destruct c as [|e c]; [done|]. destruct Hpos as [H0 H1]. split.
  - destruct h; [apply HO|apply HW]; try done; by left.
  - intros e' He'. apply HW; [by right|auto].
Qed.

(** A step of a thread that is not queued and stays so. *)
Lemma chain_rel_out cur last pcs c h t pc :
  chain_rel W O N cur last pcs c h → t ∉ chain_tids c → N t pc →
  chain_rel W O N cur last (<[t := pc]> pcs) c h.
Proof.
  intros [Hc Hi Ht Hpos Hout] Hn HN. split; [done..| |].
  - assert (∀ e, e ∈ c → <[t := pc]> pcs (en_tid e) = pcs (en_tid e)) as Hsame.
    { intros e He. apply fn_lookup_insert_ne. intros ->. by apply Hn, chain_tids_elem. }
    destruct c as [|e c]; [done|]. destruct Hpos as [H0 H1].
    rewrite Hsame by (by left). split; [done|]. intros e' He'.
    rewrite Hsame by (by right). auto.
  - intros t' Ht'. same_tid t t'; auto.
Qed.

(** A thread publishes its identifier. *)
Lemma chain_rel_arrive cur last pcs c h t m pc :
  chain_rel W O N cur last pcs c h → t ∉ chain_tids c → m ∉ chain_ids cur c →
  W (Entry t last m) pc →
  chain_rel W O N cur m (<[t := pc]> pcs) (c ++ [Entry t last m]) h.
Proof.
  intros [Hc Hi Ht Hpos Hout] Hn Hm HW.
  assert (∀ e, e ∈ c → <[t := pc]> pcs (en_tid e) = pcs (en_tid e)) as Hsame.
  { intros e He. apply fn_lookup_insert_ne. intros ->. by apply Hn, chain_tids_elem. }
  split.
  - by apply chain_snoc.
  - unfold chain_ids in *. rewrite map_app. rewrite app_comm_cons.
    apply NoDup_app. split_and!; [done| |apply NoDup_singleton].
    intros i Hin ->%list_elem_of_singleton. done.
  - unfold chain_tids in *. rewrite map_app. apply NoDup_app.
    split_and!; [done| |apply NoDup_singleton].
    intros i Hin ->%list_elem_of_singleton. done.
  - destruct c as [|e c]; simpl.
    + subst h. simpl_fn. split; [done|set_solver].
    + destruct Hpos as [H0 H1]. rewrite Hsame by (by left). split; [done|].
      intros e' [He'| ->%list_elem_of_singleton]%elem_of_app; simpl.
      * rewrite Hsame by (by right). auto.
      * by simpl_fn.
  - intros t' Ht'. unfold chain_tids in Ht'. rewrite map_app in Ht'.
    assert (t ≠ t') by (intros ->; apply Ht'; set_solver). simpl_fn.
    apply Hout. unfold chain_tids. set_solver.
Qed.

Lemma chain_tids_tail_ne e c e' :
  NoDup (chain_tids (e :: c)) → e' ∈ c → en_tid e ≠ en_tid e'.
Proof.
  intros [Hn _]%NoDup_cons He' Heq. apply Hn. rewrite Heq. by apply chain_tids_elem.
Qed.

Lemma chain_entry_unique c e e' :
  NoDup (chain_tids c) → e ∈ c → e' ∈ c → en_tid e = en_tid e' → e = e'.
Proof.
  induction c as [|e0 c IH]; [set_solver|].
  intros Hnd He He' Heq. pose proof (λ e, chain_tids_tail_ne e0 c e Hnd).
  apply NoDup_cons in Hnd as [_ Hnd].
  apply elem_of_cons in He as [->|He], He' as [->|He']; naive_solver.
Qed.

(** A waiting thread moves and keeps waiting. *)
Lemma chain_rel_wait cur last pcs c h e pc :
  chain_rel W O N cur last pcs c h → e ∈ c →
  ¬ (h = true ∧ head c = Some e) → W e pc →
  chain_rel W O N cur last (<[en_tid e := pc]> pcs) c h.
Proof.
  intros [Hc Hi Ht Hpos Hout] He Hnh HW. split; [done..| |].
  - destruct c as [|e0 c]; [set_solver|]. destruct Hpos as [H0 H1].
    apply elem_of_cons in He as [->|He].
    + simpl_fn. split; [destruct h; naive_solver|]. intros e' He'.
      rewrite fn_lookup_insert_ne; [auto|]. by apply chain_tids_tail_ne with c.
    + assert (en_tid e0 ≠ en_tid e) by (by apply chain_tids_tail_ne with c).
      rewrite fn_lookup_insert_ne by done. split; [done|]. intros e' He'.
      destruct (decide (en_tid e = en_tid e')) as [Heq|Hne]; [|simpl_fn; auto].
      rewrite <-Heq. simpl_fn.
      apply NoDup_cons in Ht as [_ Ht].
      by rewrite <-(chain_entry_unique c e e').
  - intros t' Ht'. rewrite fn_lookup_insert_ne; [auto|].
    intros <-. by apply Ht', chain_tids_elem.
Qed.

(** The thread whose predecessor is current is admitted. *)
Lemma chain_rel_admit cur last pcs c h e pc :
  chain_rel W O N cur last pcs c h → e ∈ c → en_prev e = cur →
  ¬ (h = true ∧ head c = Some e) → O e pc →
  h = false ∧ (∃ c', c = e :: c') ∧
  chain_rel W O N cur last (<[en_tid e := pc]> pcs) c true.
Proof.
  intros [Hc Hi Ht Hpos Hout] He Hp Hnh HO.
  destruct (chain_head cur c last e) as [c' ->]; [done..|].
  assert (h = false) as -> by (destruct h; naive_solver).
  split_and!; [done|by eauto|]. split; [done..| |].
  - destruct Hpos as [H0 H1]. simpl_fn. split; [done|]. intros e' He'.
    rewrite fn_lookup_insert_ne; [auto|]. by apply chain_tids_tail_ne with c'.
  - intros t' Ht'. rewrite fn_lookup_insert_ne; [auto|].
    intros <-. by apply Ht', chain_tids_elem.
Qed.

(** The admitted thread moves and keeps the lock. *)
Lemma chain_rel_own (O' : entry I → PC → Prop) cur last pcs c e pc :
  chain_rel W O N cur last pcs (e :: c) true → O' e pc →
  chain_rel W O' N cur last (<[en_tid e := pc]> pcs) (e :: c) true.
Proof.
  intros [Hc Hi Ht Hpos Hout] HO. split; [done..| |].
  - destruct Hpos as [H0 H1]. simpl_fn. split; [done|]. intros e' He'.
    rewrite fn_lookup_insert_ne; [auto|]. by apply chain_tids_tail_ne with c.
  - intros t' Ht'. rewrite fn_lookup_insert_ne; [auto|]. intros <-. apply Ht'. by left.
Qed.

(** The owner no longer needs the identifier it waited for: another one takes
    its place. *)
Lemma chain_rel_recur (O' : entry I → PC → Prop) cur cur' last pcs c e pc :
  chain_rel W O N cur last pcs (e :: c) true → cur' ∉ map en_my (e :: c) →
  O' (Entry (en_tid e) cur' (en_my e)) pc →
  chain_rel W O' N cur' last (<[en_tid e := pc]> pcs)
    (Entry (en_tid e) cur' (en_my e) :: c) true.
Proof.
  intros Hcr Hn HO. apply (chain_rel_own (λ e' pc', e' = e ∧ O' (Entry (en_tid e) cur' (en_my e)) pc')
    _ _ _ _ _ pc) in Hcr as [Hc Hi Ht Hpos Hout]; [|done].
  split; simpl in *.
  - by destruct Hc.
  - by apply NoDup_cons in Hi as [_ ?]; apply NoDup_cons.
  - done.
  - naive_solver.
  - done.
Qed.

(** The admitted thread makes its identifier current. *)
Lemma chain_rel_leave (O' : entry I → PC → Prop) (N' : tid → PC → Prop) cur last pcs c e pc :
  chain_rel W O N cur last pcs (e :: c) true → N' (en_tid e) pc →
  (∀ t, t ∉ chain_tids (e :: c) → N t (pcs t) → N' t (pcs t)) →
  chain_rel W O' N' (en_my e) last (<[en_tid e := pc]> pcs) c false.
Proof.
  intros [Hc Hi Ht Hpos Hout] HN HN'. destruct Hc as [_ Hc].
  split; [done| | | |].
  - by apply NoDup_cons in Hi as [_ ?].
  - by apply NoDup_cons in Ht as [_ ?].
  - destruct Hpos as [_ H1].
    assert (∀ e', e' ∈ c → W e' (<[en_tid e:=pc]> pcs (en_tid e'))) as Hall.
    { intros e' He'. rewrite fn_lookup_insert_ne; [auto|]. by apply chain_tids_tail_ne with c. }
    destruct c as [|e1 c]; [done|]. split; [apply Hall; by left|].
    intros. apply Hall. by right.
  - intros t' Ht'. same_tid (en_tid e) t'; [done|].
    assert (t' ∉ chain_tids (e :: c)) by set_solver. auto.
Qed.

(** ** Agreement with the phases of the lock interface *)

Context (ph : PC → phase).
Hypothesis W_waiting : ∀ e pc, W e pc → ph pc = Waiting.
Hypothesis O_owns : ∀ e pc, O e pc → owns (ph pc) = true.
Hypothesis N_out : ∀ t pc, N t pc → queued (ph pc) = false.

Lemma chain_rel_queued cur last pcs c h t :
  chain_rel W O N cur last pcs c h →
  (queued (ph (pcs t)) = true ↔ t ∈ chain_tids c).
Proof.
  intros [_ _ _ Hpos Hout]. split.
  - intros Hq. destruct (decide (t ∈ chain_tids c)) as [|Hn]; [done|].
    by rewrite (N_out t) in Hq by auto.
  - intros (e & He & <-)%chain_tids_in. destruct c as [|e0 c]; [set_solver|].
    destruct Hpos as [H0 H1]. apply elem_of_cons in He as [->|He].
    + destruct h; [|by rewrite (W_waiting _ _ H0)].
      apply O_owns in H0. by destruct (ph _).
    + by rewrite (W_waiting _ _ (H1 e He)).
Qed.

Lemma chain_rel_owns cur last pcs c h t :
  chain_rel W O N cur last pcs c h →
  (owns (ph (pcs t)) = true ↔ h = true ∧ head (chain_tids c) = Some t).
Proof.
  intros Hcr. pose proof (chain_rel_queued _ _ _ _ _ t Hcr) as Hq.
  destruct Hcr as [_ _ Hnd Hpos _]. split.
  - intros Ho. assert (t ∈ chain_tids c) as (e & He & <-)%chain_tids_in.
    { apply Hq. by destruct (ph (pcs t)). }
    destruct c as [|e0 c]; [set_solver|]. destruct Hpos as [H0 H1].
    apply elem_of_cons in He as [->|He].
    + destruct h; [done|]. by rewrite (W_waiting _ _ H0) in Ho.
    + by rewrite (W_waiting _ _ (H1 e He)) in Ho.
  - intros [-> Hhd]. destruct c as [|e0 c]; [done|]. simplify_eq/=.
    destruct Hpos as [H0 _]. eauto.
Qed.
End chain_rel.
