(* ===== verification/TicketMutex.v ===== *)
(** * The ticket lock

    [ConcurrencyFreaks/C11/locks/ticket_mutex.h], selected by
    [LOCK_METHOD=TICKET_LOCK] in [src/lockrate.c].  [ingress] and [egress] are
    64-bit and wrap; the lock is correct for any number of threads below
    [2^64]. *)

From S2P Require Import Prelude Lts Mutex Chain.

(** ** Data *)

Record ticket_mutex_t := TicketMutexT { ingress : Z; egress : Z }.

(** Program points of one thread, with the live local variables. *)
Inductive ticket_pc :=
  | TkIdle
  | TkSpin (lingress : Z)   (** in [lock], about to load [egress] *)
  | TkHeld
  | TkStore (legress : Z)   (** in [unlock], about to store [egress] *).

Record ticket_state := TicketState {
  tk_mutex : ticket_mutex_t;
  tk_pc : tid → ticket_pc;
}.

(** ** Operations, one atomic access per step *)

Definition ticket_mutex_init : ticket_mutex_t := TicketMutexT 0 0.

Definition ticket_mutex_destroy (self : ticket_mutex_t) : ticket_mutex_t := TicketMutexT 0 0.

Definition ticket_mutex_lock (self : ticket_mutex_t) (pc : ticket_pc)
    : option (ticket_mutex_t * ticket_pc) :=
  match pc with
  | TkIdle =>
      (* lingress = atomic_fetch_add(&self->ingress, 1) *)
      Some (TicketMutexT (s64 (ingress self + 1)) (egress self), TkSpin (ingress self))
  | TkSpin lingress =>
      (* while (lingress != atomic_load(&self->egress)) sched_yield(); *)
      if bool_decide (lingress = egress self) then Some (self, TkHeld)
      else Some (self, TkSpin lingress)
  | _ => None
  end.

Definition ticket_mutex_unlock (self : ticket_mutex_t) (pc : ticket_pc)
    : option (ticket_mutex_t * ticket_pc) :=
  match pc with
  | TkHeld =>
      (* legress = atomic_load_explicit(&self->egress, relaxed) *)
      Some (self, TkStore (egress self))
  | TkStore legress =>
      (* atomic_store(&self->egress, legress+1) *)
      Some (TicketMutexT (ingress self) (s64 (legress + 1)), TkIdle)
  | _ => None
  end.

(** A thread outside calls [lock]; one that holds the lock calls [unlock]. *)
Definition ticket_thread (self : ticket_mutex_t) (pc : ticket_pc)
    : option (ticket_mutex_t * ticket_pc) :=
  match pc with
  | TkIdle | TkSpin _ => ticket_mutex_lock self pc
  | TkHeld | TkStore _ => ticket_mutex_unlock self pc
  end.

Definition ticket_phase (pc : ticket_pc) : phase :=
  match pc with
  | TkIdle => Idle
  | TkSpin _ => Waiting
  | TkHeld => Holding
  | TkStore _ => Unlocking
  end.

(** [nthreads] threads share one lock. *)
Definition ticket_step (nthreads : nat) (t : tid) (s : ticket_state) : option ticket_state :=
  if bool_decide (t < nthreads) then
    match ticket_thread (tk_mutex s) (tk_pc s t) with
    | Some (m, pc) => Some (TicketState m (<[t := pc]> (tk_pc s)))
    | None => None
    end
  else None.

Definition ticket_start : ticket_state := TicketState ticket_mutex_init (λ _, TkIdle).

Definition ticket_mutex (nthreads : nat) : Mutex unit ticket_state := {|
  mtx_init := λ s, s = ticket_start;
  mtx_step := λ t _ s, ticket_step nthreads t s;
  mtx_phase := λ s t, ticket_phase (tk_pc s t);
|}.

(** ** Refinement of the queue lock *)

Section ticket.
Context (n : nat).
Hypothesis threads_fit : (Z.of_nat n < 2 ^ 64)%Z.

#[local] Instance ticket_mutex_n : Mutex unit ticket_state := ticket_mutex n.

(** A ticket lock hands over [k] and then [k+1]: the identifiers of the
    chain are the tickets. *)
Definition ticket_W (e : entry Z) (pc : ticket_pc) : Prop :=
  pc = TkSpin (en_prev e) ∧ en_my e = s64 (en_prev e + 1).
Definition ticket_O (e : entry Z) (pc : ticket_pc) : Prop :=
  (pc = TkHeld ∨ pc = TkStore (en_prev e)) ∧ en_my e = s64 (en_prev e + 1).
Definition ticket_N (t : tid) (pc : ticket_pc) : Prop := pc = TkIdle.

Record ticket_inv (s : ticket_state) (c : list (entry Z)) (h : bool) : Prop := {
  ti_chain : chain_rel ticket_W ticket_O ticket_N
    (egress (tk_mutex s)) (ingress (tk_mutex s)) (tk_pc s) c h;
  ti_tids : Forall (λ t, t < n) (chain_tids c);
  ti_egress : ∃ e, egress (tk_mutex s) = s64 e;
}.

Lemma ticket_succ (c : list (entry Z)) pcs h cur last :
  chain_rel ticket_W ticket_O ticket_N cur last pcs c h →
  ∀ e, e ∈ c → en_my e = s64 (en_prev e + 1).
Proof.
  intros [_ _ _ Hpos _] e He. destruct c as [|e0 c]; [set_solver|].
  destruct Hpos as [H0 H1]. apply elem_of_cons in He as [->|He].
  - destruct h; [by destruct H0|by destruct H0].
  - by destruct (H1 e He).
Qed.

(** The identifiers are consecutive tickets. *)
Lemma ticket_ids c e last :
  chain (s64 e) c last → (∀ x, x ∈ c → en_my x = s64 (en_prev x + 1)) →
  last = s64 (e + length c) ∧
  ∀ k, k ∈ chain_ids (s64 e) c → ∃ i : nat, i ≤ length c ∧ k = s64 (e + i).
Proof.
  revert e. induction c as [|x c IH]; intros e Hc Hsucc; simpl in *.
  - subst. rewrite Z.add_0_r. split; [done|].
    intros k ->%list_elem_of_singleton. exists 0. by rewrite Z.add_0_r.
  - destruct Hc as [Hp Hc].
    assert (en_my x = s64 (e + 1)) as Hx.
    { rewrite Hsucc by (by left). by rewrite Hp, wrap_s_add by lia. }
    rewrite Hx in Hc. destruct (IH _ Hc) as [Hlast Hids]; [set_solver|].
    split; [rewrite Hlast; f_equal; lia|].
    intros k [->|Hk]%elem_of_cons.
    + exists 0. by rewrite Z.add_0_r, <-?Hp; split; [lia|].
    + unfold chain_ids in Hids. simpl in Hk. rewrite Hx in Hk.
      destruct (Hids k Hk) as (i & ? & ->). exists (S i). split; [lia|]. f_equal. lia.
Qed.

Lemma ticket_fresh s c h t :
  ticket_inv s c h → t < n → t ∉ chain_tids c →
  s64 (ingress (tk_mutex s) + 1) ∉ chain_ids (egress (tk_mutex s)) c.
Proof.
  intros [Hcr Hb [e He]] Ht Hnin Hin.
  pose proof (ticket_succ _ _ _ _ _ Hcr) as Hsucc.
  pose proof (cr_chain _ _ _ _ _ _ _ _ Hcr) as Hch. rewrite He in Hch, Hin.
  destruct (ticket_ids c e _ Hch Hsucc) as [Hlast Hids].
  destruct (Hids _ Hin) as (i & Hi & Heq).
  rewrite Hlast, wrap_s_add in Heq by lia.
  assert (length c < n).
  { assert (length (t :: chain_tids c) ≤ length (seq 0 n)) as Hlen.
    { apply submseteq_length, NoDup_submseteq.
      - apply NoDup_cons. split; [done|]. by apply (cr_tids _ _ _ _ _ _ _ _ Hcr).
      - intros x Hx. apply elem_of_seq. rewrite Forall_forall in Hb.
        apply elem_of_cons in Hx as [->|Hx]; naive_solver lia. }
    unfold chain_tids in Hlen. rewrite length_seq in Hlen. simpl in Hlen.
    rewrite length_map in Hlen. lia. }
  apply (wrap_s_inj 64) in Heq; lia.
Qed.

Lemma ticket_inv_idle s c h t :
  ticket_inv s c h → tk_pc s t = TkIdle → t ∉ chain_tids c.
Proof.
  intros [Hcr _ _] Hpc Hin.
  apply (chain_rel_queued _ _ _ ticket_phase) with (t := t) in Hcr.
  - apply Hcr in Hin. by rewrite Hpc in Hin.
  - by intros ?? [-> _].
  - by intros ?? [[->| ->] _].
  - by intros ?? ->.
Qed.

Lemma ticket_sim t s s' c h :
  ticket_inv s c h → ticket_step n t s = Some s' →
  ∃ c' h', qlock_step t (chain_tids c) h (chain_tids c') h' ∧ ticket_inv s' c' h'.
Proof.
  intros Hinv Hstep. unfold ticket_step in Hstep.
  case_bool_decide as Ht; [|done].
  pose proof Hinv as [Hcr Hb [e He]].
  destruct (tk_pc s t) as [|k| |k] eqn:Hpc; simplify_eq/=.
  - (* fetch_add: join the queue *)
    pose proof (ticket_inv_idle s c h t Hinv Hpc) as Hnin.
    exists (c ++ [Entry t (ingress (tk_mutex s)) (s64 (ingress (tk_mutex s) + 1))]), h.
    unfold chain_tids at 2. rewrite map_app. split; [by constructor|]. split; simpl; [|..|by eauto].
    + apply chain_rel_arrive; [done..| |by split]. by eapply ticket_fresh.
    + unfold chain_tids. rewrite map_app. by apply Forall_app_2, Forall_singleton.
  - (* load egress *)
    destruct (chain_rel_waiter _ _ _ _ _ _ _ _ t Hcr) as (x & Hx & <- & HW & Hnh);
      [pc_absurd Hpc..|].
    rewrite Hpc in HW. destruct HW as [[= ->] Hmy].
    case_bool_decide as Heq; simplify_eq/=.
    + destruct (chain_rel_admit _ _ _ _ _ _ _ _ x TkHeld Hcr) as (-> & [c' ->] & Hcr');
        [done..|by split; auto|].
      exists (x :: c'), true. split; [constructor|]. split; eauto.
    + exists c, h. split; [constructor|]. split; simpl; [|done|by eauto].
      by apply chain_rel_wait.
  - (* unlock: relaxed load of egress *)
    destruct (chain_rel_owner _ _ _ _ _ _ _ _ t Hcr) as (x & c' & -> & -> & <- & Hp & HO);
      [pc_absurd Hpc..|]. destruct HO as [_ Hmy].
    exists (x :: c'), true. split; [constructor|]. split; simpl; [|done|by eauto].
    eapply chain_rel_own; [done|]. split; [|done]. right. by rewrite Hp.
  - (* unlock: store egress *)
    destruct (chain_rel_owner _ _ _ _ _ _ _ _ t Hcr) as (x & c' & -> & -> & <- & Hp & HO);
      [pc_absurd Hpc..|].
    rewrite Hpc in HO. destruct HO as [[?|[= ->]] Hmy]; [done|].
    exists c', false. split; [constructor|]. split; simpl; [|by inv Hb|by eauto].
    rewrite <-Hmy. by apply (chain_rel_leave _ _ _ ticket_O ticket_N _ _ _ _ _ _ Hcr).
Qed.

Lemma ticket_step_eq t s m pc :
  t < n → ticket_thread (tk_mutex s) (tk_pc s t) = Some (m, pc) →
  ticket_step n t s = Some (TicketState m (<[t := pc]> (tk_pc s))).
Proof. intros Ht Heq. unfold ticket_step. by rewrite bool_decide_eq_true_2, Heq. Qed.

Lemma ticket_enters s x c :
  ticket_inv s (x :: c) false →
  solo (en_tid x) s (λ s', ticket_phase (tk_pc s' (en_tid x)) = Holding).
Proof.
  intros [Hcr Hb _]. destruct Hcr as [[Hp _] _ _ [[Hpc _] _] _].
  apply Forall_cons in Hb as [Hlt _].
  apply (solo_step _ tt _ _ _ (ticket_step_eq _ s (tk_mutex s) TkHeld Hlt
    ltac:(rewrite Hpc; simpl; by rewrite bool_decide_eq_true_2))).
  apply solo_done. simpl. by simpl_fn.
Qed.

Lemma ticket_exits s c h t :
  ticket_inv s c h → owns (ticket_phase (tk_pc s t)) = true →
  solo t s (λ s', queued (ticket_phase (tk_pc s' t)) = false).
Proof.
  intros [Hcr Hb _] Ho.
  assert (t < n) as Hlt.
  { destruct (decide (t ∈ chain_tids c)) as [Hin|Hn].
    - rewrite Forall_forall in Hb. auto.
    - by rewrite (cr_out _ _ _ _ _ _ _ _ Hcr t Hn) in Ho. }
  assert (∀ s, (∃ k, tk_pc s t = TkStore k) →
    solo t s (λ s', queued (ticket_phase (tk_pc s' t)) = false)) as Hstore.
  { intros s0 [k Hpc]. eapply (solo_step _ tt).
    - apply ticket_step_eq; [done|by rewrite Hpc].
    - apply solo_done. simpl. by simpl_fn. }
  destruct (tk_pc s t) as [| | |k] eqn:Hpc; try done; [|by eauto].
  eapply (solo_step _ tt).
  - apply ticket_step_eq; [done|by rewrite Hpc].
  - apply Hstore. simpl. simpl_fn. eauto.
Qed.

Lemma ticket_inv_start : ticket_inv ticket_start [] false.
Proof.
  split; simpl; [|constructor|by exists 0%Z].
  split; simpl; try done; repeat constructor; set_solver.
Qed.

Lemma ticket_queue_lock : QueueLock unit ticket_state.
Proof.
  refine {| ql_rel s q h := ∃ c, q = chain_tids c ∧ ticket_inv s c h |}.
  - intros s ->. exists []. split; [done|]. apply ticket_inv_start.
  - intros t [] s s' q h (c & -> & Hinv) Hstep.
    destruct (ticket_sim t s s' c h Hinv Hstep) as (c' & h' & ? & ?). eauto 10.
  - intros s q h t (c & -> & [Hcr _ _]). simpl.
    apply (chain_rel_queued ticket_W ticket_O ticket_N) with (4 := Hcr).
    + by intros ?? [-> _].
    + by intros ?? [[->| ->] _].
    + by intros ?? ->.
  - intros s q h t (c & -> & [Hcr _ _]). simpl.
    apply (chain_rel_owns ticket_W ticket_O ticket_N) with (4 := Hcr).
    + by intros ?? [-> _].
    + by intros ?? [[->| ->] _].
    + by intros ?? ->.
  - by intros s t ->.
  - intros t t' [] s s' Hstep Hne. simpl in *. unfold ticket_step in Hstep.
    step_inv Hstep. by simpl_fn.
  - intros t [] s s' Hstep. simpl in *. unfold ticket_step in Hstep.
    destruct (tk_pc s t) eqn:Hpc; step_inv Hstep; simpl_fn; by rewrite ?Hpc.
  - intros s t q ([|x c] & Heq & Hinv); simplify_eq/=.
    by eapply ticket_enters.
  - intros s q h t (c & -> & Hinv) Ho. by eapply ticket_exits.
Qed.
End ticket.

(** ** Theorems *)

(** C17: the ticket lock is mutually exclusive for any number of threads below
    [2^64], although its two counters wrap around; it admits threads in the order in
    which they drew their tickets, and when it is free a waiting thread can
    always take it. *)
Theorem ticket_correct (n : nat) :
  (n < 2 ^ 64)%Z →
  lock_exclusive (ticket_mutex n) ∧ lock_fifo (ticket_mutex n) ∧ lock_progress (ticket_mutex n).
Proof. intros Hn. apply (qlock_correct (Q := ticket_queue_lock n Hn)). Qed.

(** Three threads, with a run in which thread 2 draws its ticket first. *)
Lemma ticket_correct_witness :
  arrivals (@trace _ _ (ticket_mutex 3) [(2, tt); (0, tt); (2, tt); (0, tt); (2, tt); (2, tt); (0, tt)]
    ticket_start) = [2; 0] ∧
  entries (@trace _ _ (ticket_mutex 3) [(2, tt); (0, tt); (2, tt); (0, tt); (2, tt); (2, tt); (0, tt)]
    ticket_start) = [2; 0] ∧
  (lock_exclusive (ticket_mutex 3) ∧ lock_fifo (ticket_mutex 3) ∧ lock_progress (ticket_mutex 3)).
Proof.
  split; [vm_compute; reflexivity|]. split; [vm_compute; reflexivity|].
  apply (ticket_correct 3). lia.
Defined.
