(* ===== verification/Tickets.v ===== *)
(** * Lines of tickets and arrays of waiting nodes

    The locks of [C11/locks/ticketawn] hand out tickets and let threads wait on
    nodes that they leave in an array, at the remainder of the ticket.  This
    file holds what their proofs share: a line of threads with consecutive
    tickets, the head of which may have been admitted, and the account of which
    slots of the array are taken.  A thread goes to the array only when its ticket is
    less than the size of the array away from the head, so no two threads share
    a slot. *)

From S2P Require Import Prelude Lts Mutex.

Local Open Scope Z_scope.

(** ** Lines *)

Section line.
Context {PC : Type} (ph : PC → phase) (tk : PC → option Z).
Implicit Types (pcs : tid → PC) (q : list tid) (h : bool).

(** Where the [i]-th thread of the line is: the admitted one owns the lock, the
    others wait with their ticket. *)
Definition stands (cur : Z) (h : bool) (i : nat) (pc : PC) : Prop :=
  if h && bool_decide (i = 0%nat) then owns (ph pc) = true ∧ (tk pc = None ∨ tk pc = Some cur)
  else ph pc = Waiting ∧ tk pc = Some (cur + i).

Record line (cur : Z) pcs q h : Prop := {
  ln_nodup : NoDup q;
  ln_in i t : q !! i = Some t → stands cur h i (pcs t);
  ln_out t : t ∉ q → queued (ph (pcs t)) = false;
}.

Lemma stands_wait cur h (i : nat) pc : (h = true → i ≠ 0%nat) → stands cur h i pc ↔ ph pc = Waiting ∧ tk pc = Some (cur + i).
Proof. intros Hi. unfold stands. destruct h; simpl; [|done]. by rewrite bool_decide_false by auto. Qed.

Lemma line_waiter cur pcs q h t k :
  line cur pcs q h → ph (pcs t) = Waiting → tk (pcs t) = Some k →
  ∃ i : nat, q !! i = Some t ∧ k = cur + i ∧ (h = true → i ≠ 0%nat).
Proof.
  intros [Hnd Hin Hout] Hp Hk. destruct (decide (t ∈ q)) as [[i Hi]%list_elem_of_lookup|Hn].
  2:{ specialize (Hout t Hn). by rewrite Hp in Hout. }
  exists i. pose proof (Hin i t Hi) as Hs. unfold stands in Hs. destruct h; simpl in Hs.
  - case_bool_decide as H0; [destruct Hs as [Ho _]; by rewrite Hp in Ho|]. destruct Hs. split_and!; [done|congruence|done].
  - destruct Hs. split_and!; [done|congruence|done].
Qed.

Lemma line_owner cur pcs q h t :
  line cur pcs q h → owns (ph (pcs t)) = true →
  ∃ q', q = t :: q' ∧ h = true ∧ (tk (pcs t) = None ∨ tk (pcs t) = Some cur).
Proof.
  intros [Hnd Hin Hout] Ho. destruct (decide (t ∈ q)) as [[i Hi]%list_elem_of_lookup|Hn].
  2:{ specialize (Hout t Hn). by destruct (ph (pcs t)). }
  pose proof (Hin i t Hi) as Hs. unfold stands in Hs. destruct h; simpl in Hs.
  - case_bool_decide as H0; [|destruct Hs as [Hp _]; by rewrite Hp in Ho]. subst i. destruct q as [|t' q]; simplify_eq/=. naive_solver.
  - destruct Hs as [Hp _]. by rewrite Hp in Ho.
Qed.

Lemma line_head cur pcs t q : line cur pcs (t :: q) false → ph (pcs t) = Waiting ∧ tk (pcs t) = Some cur.
Proof. intros Hl. destruct (ln_in _ _ _ _ Hl 0%nat t eq_refl) as [??]. split; [done|]. by rewrite Z.add_0_r in *. Qed.

(** Two threads of the line have different tickets. *)
Lemma line_unique cur pcs q h i j t : line cur pcs q h → q !! i = Some t → q !! j = Some t → i = j.
Proof. intros Hl. apply NoDup_lookup, Hl. Qed.

Lemma line_arrive cur pcs q h t pc :
  line cur pcs q h → t ∉ q → (h = true → q ≠ []) → ph pc = Waiting → tk pc = Some (cur + length q) →
  line cur (<[t := pc]> pcs) (q ++ [t]) h.
Proof.
  intros [Hnd Hin Hout] Hn Hh Hp Hk. split.
  - apply NoDup_app. split_and!; [done| |apply NoDup_singleton]. by intros x Hx ->%list_elem_of_singleton.
  - intros i u [Hi|[Hi Hu]]%lookup_app_Some.
    + rewrite fn_lookup_insert_ne; [by apply Hin|]. intros <-. by apply Hn, (list_elem_of_lookup_2 q i).
    + apply list_lookup_singleton_Some in Hu as [Hi' <-]. rewrite fn_lookup_insert.
      apply stands_wait; [intros Hh'; specialize (Hh Hh'); destruct q; simpl in *; [done|lia]|].
      split; [done|]. rewrite Hk. f_equal. lia.
  - intros u Hu. rewrite fn_lookup_insert_ne by set_solver. apply Hout. set_solver.
Qed.

(** The [i]-th thread moves. *)
Lemma line_move cur pcs q h h' i t pc :
  line cur pcs q h → q !! i = Some t → stands cur h' i pc →
  (∀ j u, j ≠ i → q !! j = Some u → stands cur h j (pcs u) → stands cur h' j (pcs u)) →
  line cur (<[t := pc]> pcs) q h'.
Proof.
  intros Hl Hi Hpc Hoth. pose proof Hl as [Hnd Hin Hout]. split; [done|..].
  - intros j u Hj. same_tid t u.
    + by rewrite <-(line_unique _ _ _ _ i j t Hl Hi Hj).
    + apply Hoth; [|done|by apply Hin]. intros ->. congruence.
  - intros u Hu. rewrite fn_lookup_insert_ne; [by apply Hout|]. intros <-. by apply Hu, (list_elem_of_lookup_2 q i).
Qed.

Lemma line_wait cur pcs q h (i : nat) t pc :
  line cur pcs q h → q !! i = Some t → (h = true → i ≠ 0%nat) → ph pc = Waiting → tk pc = Some (cur + i) →
  line cur (<[t := pc]> pcs) q h.
Proof. intros Hl Hi H0 Hp Hk. eapply line_move; [done..| |done]. by apply stands_wait. Qed.

Lemma line_admit cur pcs q h (i : nat) t pc :
  line cur pcs q h → q !! i = Some t → (h = true → i ≠ 0%nat) → i = 0%nat →
  owns (ph pc) = true → (tk pc = None ∨ tk pc = Some cur) →
  h = false ∧ (∃ q', q = t :: q') ∧ line cur (<[t := pc]> pcs) q true.
Proof.
  intros Hl Hi H0 -> Ho Hk. destruct h; [by destruct H0|]. split; [done|]. split; [destruct q; simplify_eq/=; eauto|].
  eapply (line_move _ _ _ false _ 0%nat); [done..|]. intros j u Hj _. unfold stands. simpl. by rewrite bool_decide_false.
Qed.

Lemma line_own cur pcs q t pc :
  line cur pcs (t :: q) true → owns (ph pc) = true → (tk pc = None ∨ tk pc = Some cur) →
  line cur (<[t := pc]> pcs) (t :: q) true.
Proof. intros Hl Ho Hk. by apply (line_move _ _ _ true _ 0%nat). Qed.

(** A thread that takes the lock at once. *)
Lemma line_enter cur pcs h t pc :
  line cur pcs [] h → owns (ph pc) = true → (tk pc = None ∨ tk pc = Some cur) → line cur (<[t := pc]> pcs) [t] true.
Proof.
  intros [_ _ Hout] Ho Hk. split; [apply NoDup_singleton|..].
  - intros i u [-> <-]%list_lookup_singleton_Some. by rewrite fn_lookup_insert.
  - intros u Hu. rewrite fn_lookup_insert_ne by set_solver. apply Hout. set_solver.
Qed.

Lemma line_leave cur pcs q t pc :
  line cur pcs (t :: q) true → queued (ph pc) = false → line (cur + 1) (<[t := pc]> pcs) q false.
Proof.
  intros [Hnd Hin Hout] Hp. apply NoDup_cons in Hnd as [Hn Hnd]. split; [done|..].
  - intros i u Hi. rewrite fn_lookup_insert_ne by (intros <-; by apply Hn, (list_elem_of_lookup_2 q i)).
    destruct (Hin (S i) u Hi) as [Hp' Hk]. split; [done|]. rewrite Hk. f_equal. lia.
  - intros u Hu. same_tid t u; [done|]. apply Hout. set_solver.
Qed.

(** Agreement with the lock interface. *)
Lemma line_queued cur pcs q h t : line cur pcs q h → queued (ph (pcs t)) = true ↔ t ∈ q.
Proof.
  intros [_ Hin Hout]. split.
  - intros Hq. destruct (decide (t ∈ q)) as [|Hn]; [done|]. by rewrite Hout in Hq.
  - intros [i Hi]%list_elem_of_lookup. specialize (Hin i t Hi). unfold stands in Hin. destruct (h && _).
    + destruct Hin as [Ho _]. by destruct (ph (pcs t)).
    + destruct Hin as [-> _]. done.
Qed.

Lemma line_owns cur pcs q h t : line cur pcs q h → (h = true → q ≠ []) → owns (ph (pcs t)) = true ↔ h = true ∧ head q = Some t.
Proof.
  intros Hl Hh. split.
  - intros (q' & -> & -> & _)%(line_owner _ _ _ _ _ Hl). done.
  - intros [-> Hq]. destruct q as [|t' q]; simplify_eq/=. by destruct (ln_in _ _ _ _ Hl 0%nat t eq_refl) as [Ho _].
Qed.
End line.

(** ** Slots

    A thread at a point of [post] has its node in the array, one at a point of
    [may] may have it there, and one at a point of [near] has been found to be close enough
    to the head. *)

Section slots.
Context {PC : Type} (post may near : PC → bool) (max : Z).
Hypothesis max_pos : 0 < max.
Hypothesis post_may : ∀ pc, post pc = true → may pc = true.
Hypothesis may_near : ∀ pc, may pc = true → near pc = true.
Implicit Types (pcs : tid → PC) (q : list tid) (arr : list (option tid)).

Definition slot (k : Z) : nat := Z.to_nat (k `mod` max).

Record slots (cur : Z) arr q pcs : Prop := {
  sl_len : length arr = Z.to_nat max;
  sl_post (i : nat) t : q !! i = Some t → post (pcs t) = true → arr !! slot (cur + i) = Some (Some t);
  sl_in j t : arr !! j = Some (Some t) → ∃ i : nat, q !! i = Some t ∧ j = slot (cur + i) ∧ may (pcs t) = true;
  sl_near (i : nat) t : q !! i = Some t → near (pcs t) = true → i < max;
}.

Lemma slot_inj cur (i j : nat) : i < max → j < max → slot (cur + i) = slot (cur + j) → i = j.
Proof.
  intros Hi Hj Heq. unfold slot in Heq. apply Z2Nat.inj in Heq; [|apply Z.mod_pos_bound; lia..].
  pose proof (Z.div_mod (cur + i) max ltac:(lia)) as H1. pose proof (Z.div_mod (cur + j) max ltac:(lia)) as H2.
  rewrite Heq in H1. set (a := (cur + i) / max) in *. set (b := (cur + j) / max) in *.
  assert (Z.of_nat i - Z.of_nat j = max * (a - b)) by (rewrite Z.mul_sub_distr_l; lia).
  destruct (Z.lt_trichotomy a b) as [?|[->|?]]; [nia|lia|nia].
Qed.

Lemma slot_lt cur arr q pcs k : slots cur arr q pcs → (slot k < length arr)%nat.
Proof. intros Hs. rewrite (sl_len _ _ _ _ Hs). unfold slot. pose proof (Z.mod_pos_bound k max). lia. Qed.

(** The slot of a thread that is close to the head holds that thread or nothing. *)
Lemma slots_own cur arr q pcs (i : nat) t :
  slots cur arr q pcs → q !! i = Some t → i < max →
  ∃ r, arr !! slot (cur + i) = Some r ∧ (r = Some t ∨ r = None).
Proof.
  intros Hs Hi Hm. destruct (lookup_lt_is_Some_2 arr (slot (cur + i))) as [r Hr]; [by eapply slot_lt|].
  exists r. split; [done|]. destruct r as [u|]; [left|by right].
  destruct (sl_in _ _ _ _ Hs _ _ Hr) as (j & Hj & Hslot & Hmay).
  apply slot_inj in Hslot; [congruence|done|]. eapply sl_near; eauto.
Qed.

(** A thread moves and the array stays. *)
Lemma slots_move cur arr q pcs (i : nat) t pc :
  slots cur arr q pcs → NoDup q → q !! i = Some t →
  (post pc = true → post (pcs t) = true) → (may (pcs t) = true → may pc = true) → (near pc = true → i < max) →
  slots cur arr q (<[t := pc]> pcs).
Proof.
  intros [Hlen Hpost Hin Hnear] Hnd Hi Hp Hm Hn. split; [done|..].
  - intros j u Hj. same_tid t u; auto.
  - intros j u Hj. destruct (Hin j u Hj) as (k & Hk & -> & Hu). exists k. split_and!; [done..|]. same_tid t u; auto.
  - intros j u Hj. same_tid t u; [|by eauto]. rewrite (NoDup_lookup q j i t) by done. auto.
Qed.

(** A thread writes to its slot. *)
Lemma slots_write cur arr q pcs (i : nat) t pc v :
  slots cur arr q pcs → NoDup q → q !! i = Some t → i < max →
  (post pc = true → v = Some t) → (v = Some t ∧ may pc = true ∨ v = None) →
  slots cur (<[slot (cur + i) := v]> arr) q (<[t := pc]> pcs).
Proof.
  intros Hs Hnd Hi Hm Hp Hv. pose proof Hs as [Hlen Hpost Hin Hnear]. pose proof (slot_lt _ _ _ _ (cur + i) Hs) as Hlt. split.
  - by rewrite length_insert.
  - intros j u Hj. same_tid t u.
    + rewrite (NoDup_lookup q j i t) by done. intros Hpc. rewrite (Hp Hpc) in *. by rewrite list_lookup_insert_eq.
    + intros Hpc. rewrite list_lookup_insert_ne; [by apply Hpost|]. intros Heq. apply slot_inj in Heq; [|done|by eauto].
      subst j. congruence.
  - intros j u Hj. apply list_lookup_insert_Some in Hj as [(<- & -> & _)|[Hne Hj]].
    + destruct Hv as [[[= ->] Hv]|]; [|done]. exists i. by rewrite fn_lookup_insert.
    + destruct (Hin j u Hj) as (k & Hk & -> & Hu). exists k. split_and!; [done..|]. same_tid t u; [|done].
      exfalso. apply Hne. by rewrite (NoDup_lookup q i k t).
  - intros j u Hj. same_tid t u; [|by eauto]. by rewrite (NoDup_lookup q j i t).
Qed.

Lemma slots_arrive cur arr q pcs t pc :
  slots cur arr q pcs → t ∉ q → near pc = false → slots cur arr (q ++ [t]) (<[t := pc]> pcs).
Proof.
  intros [Hlen Hpost Hin Hnear] Ht Hpc.
  assert (post pc = false) as Hp by (destruct (post pc) eqn:E; [by rewrite (may_near _ (post_may _ E)) in Hpc|done]).
  assert (∀ i u, (q ++ [t]) !! i = Some u → u = t ∨ q !! i = Some u) as Hcase.
  { intros i u [Hi|[_ [_ <-]%list_lookup_singleton_Some]]%lookup_app_Some; [by right|by left]. }
  split; [done|..].
  - intros i u [->|Hi]%Hcase; [by rewrite fn_lookup_insert, Hp|].
    rewrite fn_lookup_insert_ne; [by apply Hpost|]. intros <-. by apply Ht, (list_elem_of_lookup_2 q i).
  - intros j u Hj. destruct (Hin j u Hj) as (i & Hi & -> & Hu). exists i. split_and!; [by apply lookup_app_l_Some|done|].
    rewrite fn_lookup_insert_ne; [done|]. intros <-. by apply Ht, (list_elem_of_lookup_2 q i).
  - intros i u [->|Hi]%Hcase; [by rewrite fn_lookup_insert, Hpc|].
    rewrite fn_lookup_insert_ne; [by eauto|]. intros <-. by apply Ht, (list_elem_of_lookup_2 q i).
Qed.

Lemma slots_enter cur arr pcs t pc :
  slots cur arr [] pcs → post pc = false → slots cur arr [t] (<[t := pc]> pcs).
Proof.
  intros [Hlen _ Hin _] Hp. split; [done|..].
  - intros i u [_ <-]%list_lookup_singleton_Some. by rewrite fn_lookup_insert, Hp.
  - intros j u Hj. by destruct (Hin j u Hj) as (i & Hi & _).
  - intros i u [-> _]%list_lookup_singleton_Some. lia.
Qed.

Lemma slots_leave cur arr q pcs t pc :
  slots cur arr (t :: q) pcs → NoDup (t :: q) → may (pcs t) = false → slots (cur + 1) arr q (<[t := pc]> pcs).
Proof.
  intros [Hlen Hpost Hin Hnear] [Ht Hnd]%NoDup_cons Hm.
  assert (∀ i u, q !! i = Some u → (<[t := pc]> pcs) u = pcs u) as Hsame.
  { intros i u Hi. apply fn_lookup_insert_ne. intros <-. by apply Ht, (list_elem_of_lookup_2 q i). }
  assert (∀ i : nat, cur + 1 + i = cur + S i) as Hshift by lia.
  split; [done|..].
  - intros i u Hi. rewrite (Hsame i u Hi), Hshift. by apply (Hpost (S i)).
  - intros j u Hj. destruct (Hin j u Hj) as ([|i] & Hi & -> & Hu); simplify_eq/=; [congruence|].
    exists i. rewrite (Hsame i u Hi), Hshift. done.
  - intros i u Hi. rewrite (Hsame i u Hi). intros Hn. specialize (Hnear (S i) u Hi Hn). lia.
Qed.

Lemma slots_empty cur pcs : slots cur (replicate (Z.to_nat max) None) [] pcs.
Proof. split; [apply length_replicate|done| |done]. intros j t [? _]%lookup_replicate. done. Qed.
End slots.

(** ** Access to the array *)

(** [(int)(ticket % maxArrayWaiters)] *)
Definition awn_index (ticket max : Z) : nat := Z.to_nat (s32 (Z.rem ticket max)).

(** A store at an index of the array; there is no step outside it. *)
Definition awn_store (arr : list (option tid)) (i : nat) (v : option tid) : option (list (option tid)) :=
  if bool_decide (i < length arr)%nat then Some (<[i := v]> arr) else None.

Lemma awn_index_slot max ticket : 0 ≤ ticket → 0 < max < 2 ^ 31 → awn_index ticket max = slot max ticket.
Proof.
  intros Ht Hm. unfold awn_index, slot. rewrite Z.rem_mod_nonneg by lia. pose proof (Z.mod_pos_bound ticket max ltac:(lia)).
  rewrite wrap_s_small; lia.
Qed.

Lemma s64_id z : - 2 ^ 63 ≤ z < 2 ^ 63 → s64 z = z.
Proof. intros Hz. apply wrap_s_small; lia. Qed.

(** ** [trylock]

    Program points of [trylock]; the expression [self->ingress+1] is evaluated
    by a load of its own before the compare-and-swap. *)

Inductive try_pc :=
  | TryEgress                       (** [localE = egress] *)
  | TryIngress (localE : Z)         (** [localI = ingress] *)
  | TryLoad (localI : Z)            (** [self->ingress+1] *)
  | TryCas (localI new : Z)         (** the compare-and-swap *).
