(* ===== verification/SoftLock.v ===== *)
(** * Mutual exclusion with loads and stores

    The algorithms of [ConcurrencyFreaks/C11/papers/cralgorithm] are compiled into
    one harness, which starts [N] threads that run the function [Worker] of the
    chosen algorithm.  They use no atomic operations but loads and stores.  This
    file holds what the models share: an algorithm as a step function of
    [Worker], the lock that [N] such threads make, what is shown of it, and the
    flag principle, from which several of the algorithms get mutual exclusion. *)

From S2P Require Import Prelude Lts Mutex.

(** ** Algorithms *)

Record soft (Mem PC : Type) := Soft {
  so_ctor : Mem → Prop;                                 (** after [ctor()] *)
  so_idle : PC;
  so_worker : tid → Mem → PC → option (Mem * PC);       (** one access of [Worker] *)
  so_phase : PC → phase;
}.
Arguments Soft {Mem PC}.
Arguments so_ctor {Mem PC}.
Arguments so_idle {Mem PC}.
Arguments so_worker {Mem PC}.
Arguments so_phase {Mem PC}.

Record soft_state (Mem PC : Type) := SoftState {
  so_mem : Mem;
  so_pcs : tid → PC;
}.
Arguments SoftState {Mem PC}.
Arguments so_mem {Mem PC}.
Arguments so_pcs {Mem PC}.

(** An array of [n] elements; an index out of range has no value. *)
Definition ld {A} (n : nat) (a : nat → A) (i : nat) : option A :=
  if bool_decide (i < n) then Some (a i) else None.

Lemma ld_lt {A} n (a : nat → A) i : i < n → ld n a i = Some (a i).
Proof. intros Hi. unfold ld. by rewrite bool_decide_true. Qed.

Lemma ld_Some {A} n (a : nat → A) i v : ld n a i = Some v ↔ i < n ∧ a i = v.
Proof. unfold ld. case_bool_decide; naive_solver. Qed.

(** [cycleUp] of [HarnessC11.c]. *)
Definition cycleUp (v n : nat) : nat := if bool_decide (n - 1 ≤ v) then 0 else S v.

Lemma cycleUp_lt v n : 0 < n → cycleUp v n < n.
Proof. unfold cycleUp. case_bool_decide; lia. Qed.

(** From everywhere [cycleUp] gets to [t]. *)
Lemma cycle_ind n t (P : nat → Prop) :
  t < n → P t → (∀ j, j < n → j ≠ t → P (cycleUp j n) → P j) → ∀ j, j < n → P j.
Proof.
  intros Ht Hbase Hstep.
  assert (∀ k j, j ≤ t → t - j = k → P j) as Hlow.
  { induction k as [|k IH]; intros j Hj Hk; [by replace j with t by lia|].
    apply Hstep; [lia..|]. unfold cycleUp. rewrite bool_decide_false by lia. apply IH; lia. }
  assert (∀ k j, t < j → j < n → n - j = S k → P j) as Hhigh.
  { induction k as [|k IH]; intros j Hj Hn Hk; (apply Hstep; [lia..|]); unfold cycleUp.
    - rewrite bool_decide_true by lia. apply (Hlow t); lia.
    - rewrite bool_decide_false by lia. apply IH; lia. }
  intros j Hj. destruct (decide (j ≤ t)); [by eapply Hlow|]. apply (Hhigh (n - j - 1)); lia.
Qed.

(** The cases of a step of [Worker]. *)
Ltac worker_inv H pc :=
  destruct pc; simpl in H; unfold mbind, option_bind in H;
  try match type of H with context [ld ?n ?a ?i] => destruct (ld n a i) eqn:? end; step_inv H; repeat case_match; simplify_eq/=;
  rewrite ?bool_decide_eq_true, ?bool_decide_eq_false, ?ld_Some in *; destruct_and?.

(** How many flags are up. *)
Fixpoint flags (n : nat) (f : tid → bool) : nat :=
  match n with 0 => 0 | S n' => flags n' f + (if f n' then 1 else 0) end.

Lemma flags_ext n f f' : (∀ u, u < n → f' u = f u) → flags n f' = flags n f.
Proof. induction n as [|n IH]; intros Hf; simpl; [done|]. rewrite IH, Hf by auto. done. Qed.

Lemma flags_set n f f' t :
  t < n → (∀ u, u ≠ t → f' u = f u) → flags n f' + (if f t then 1 else 0) = flags n f + (if f' t then 1 else 0).
Proof.
  intros Ht Hf. induction n as [|n IH]; [lia|]. simpl. destruct (decide (t = n)) as [->|Hne].
  - rewrite (flags_ext n f f'); [lia|]. intros u Hu. apply Hf. lia.
  - rewrite (Hf n) by done. specialize (IH ltac:(lia)). lia.
Qed.

Lemma flags_pos n f t : t < n → f t = true → 0 < flags n f.
Proof.
  intros Ht Hf. induction n as [|n IH]; [lia|]. simpl. destruct (decide (t = n)) as [->|]; [rewrite Hf; lia|].
  specialize (IH ltac:(lia)). lia.
Qed.

Lemma flags_lower n f f' t :
  t < n → (∀ u, u ≠ t → f' u = f u) → f t = true → f' t = false → flags n f' < flags n f.
Proof. intros Ht Hf Hup Hdown. pose proof (flags_set n f f' t Ht Hf) as Hs. rewrite Hup, Hdown in Hs. lia. Qed.

(** A sum over the threads. *)
Fixpoint total (n : nat) (f : tid → nat) : nat := match n with 0 => 0 | S n' => total n' f + f n' end.

Lemma total_ext n f f' : (∀ u, u < n → f' u = f u) → total n f' = total n f.
Proof. induction n as [|n IH]; intros Hf; simpl; [done|]. by rewrite IH, Hf by auto. Qed.

Lemma total_lower n f f' t : t < n → (∀ u, u ≠ t → f' u = f u) → f' t < f t → total n f' < total n f.
Proof.
  intros Ht Hf Hlt. induction n as [|n IH]; [lia|]. simpl. destruct (decide (t = n)) as [->|Hne].
  - rewrite (total_ext n f f'); [lia|]. intros u Hu. apply Hf. lia.
  - rewrite (Hf n) by done. specialize (IH ltac:(lia)). lia.
Qed.

(** The last one that is up. *)
Lemma flags_last n f :
  (∀ u, u < n → f u = false) ∨ ∃ u, u < n ∧ f u = true ∧ ∀ v, u < v < n → f v = false.
Proof.
  induction n as [|n IH]; [left; lia|]. destruct (f n) eqn:Hn; [right; exists n; split_and!; [lia|done|lia]|].
  destruct IH as [IH|(u & ? & ? & Hv)]; [left|right].
  - intros u Hu. destruct (decide (u = n)) as [->|]; [done|]. apply IH. lia.
  - exists u. split_and!; [lia|done|]. intros v ?. destruct (decide (v = n)) as [->|]; [done|]. apply Hv. lia.
Qed.

(** The thread with the smallest key, and the smallest number among those. *)
Lemma least_key (n : nat) (P : nat → bool) (key : nat → Z) t :
  t < n → P t = true →
  ∃ u, u < n ∧ P u = true ∧ ∀ v, v < n → P v = true → v ≠ u → (key u < key v)%Z ∨ (key u = key v ∧ u < v).
Proof.
  revert t. induction n as [|n IH]; intros t Ht HP; [lia|].
  destruct (flags_last n P) as [Hf|(w & Hw & HPw & _)].
  - exists t. split_and!; [done..|]. intros v Hv HPv Hne. destruct (decide (t = n)) as [->|].
    + rewrite Hf in HPv by lia. done.
    + rewrite Hf in HP by lia. done.
  - destruct (IH w Hw HPw) as (u & Hu & HPu & Hmin). destruct (P n) eqn:Hn.
    + destruct (decide (key u ≤ key n)%Z) as [Hle|Hgt].
      * exists u. split_and!; [lia|done|]. intros v Hv HPv Hne. destruct (decide (v = n)) as [->|]; [lia|]. apply Hmin; [lia|done..].
      * exists n. split_and!; [lia|done|]. intros v Hv HPv Hne. destruct (decide (v = u)) as [->|]; [lia|].
        destruct (Hmin v) as [|[]]; [lia|done..|lia|lia].
    + exists u. split_and!; [lia|done|]. intros v Hv HPv Hne. destruct (decide (v = n)) as [->|]; [congruence|]. apply Hmin; [lia|done..].
Qed.

Section soft.
Context {Mem PC : Type} (N : nat) (A : soft Mem PC).
Implicit Types (m : Mem) (pc : PC) (s : soft_state Mem PC).

Definition soft_step (t : tid) s : option (soft_state Mem PC) :=
  if bool_decide (t < N) then
    '(m, pc) ← so_worker A t (so_mem s) (so_pcs s t);
    Some (SoftState m (<[t := pc]> (so_pcs s)))
  else None.

Definition soft_mutex : Mutex unit (soft_state Mem PC) := {|
  mtx_init := λ s, so_ctor A (so_mem s) ∧ so_pcs s = (λ _, so_idle A);
  mtx_step := λ t _ s, soft_step t s;
  mtx_phase := λ s t, so_phase A (so_pcs s t);
|}.

Lemma soft_step_inv t s s' :
  soft_step t s = Some s' → t < N ∧ ∃ m pc,
    so_worker A t (so_mem s) (so_pcs s t) = Some (m, pc) ∧ s' = SoftState m (<[t := pc]> (so_pcs s)).
Proof.
  unfold soft_step. intros H. case_bool_decide; [|done].
  destruct (so_worker A t (so_mem s) (so_pcs s t)) as [[m pc]|]; simplify_eq/=. eauto 10.
Qed.

(** Invariants step by step. *)
Lemma soft_invariant (I : soft_state Mem PC → Prop) :
  (∀ m, so_ctor A m → I (SoftState m (λ _, so_idle A))) →
  (∀ s t m pc, I s → t < N → so_worker A t (so_mem s) (so_pcs s t) = Some (m, pc) → I (SoftState m (<[t := pc]> (so_pcs s)))) →
  ∀ s, reachable (sys := mutex_lts (H := soft_mutex)) s → I s.
Proof.
  intros Hi Hs s. apply invariant_reachable. split.
  - intros [m pcs] [Hm Hp]. simpl in *. subst. by apply Hi.
  - intros [t l] s1 s2 HI (Ht & m & pc & Hw & ->)%soft_step_inv. by apply Hs.
Qed.

(** Invariants of each thread. *)
Lemma soft_local (ok : Mem → tid → PC → Prop) s :
  (∀ m t, so_ctor A m → ok m t (so_idle A)) →
  (∀ t m pc m' pc', t < N → ok m t pc → so_worker A t m pc = Some (m', pc') → ok m' t pc') →
  (∀ t u m pc m' pc' pcu, u ≠ t → t < N → ok m t pc → so_worker A t m pc = Some (m', pc') → ok m u pcu → ok m' u pcu) →
  reachable (sys := mutex_lts (H := soft_mutex)) s → ∀ t, ok (so_mem s) t (so_pcs s t).
Proof.
  intros Hi Hown Hother. apply (soft_invariant (λ s, ∀ t, ok (so_mem s) t (so_pcs s t))); clear s.
  - intros m Hm t. by apply Hi.
  - intros s t m pc Hok Ht Hw u. simpl. same_tid t u; [by eapply Hown|by eapply Hother].
Qed.

(** ** A thread that runs alone *)

Definition go (t : tid) : relation (Mem * PC) := rtc (λ x y, so_worker A t x.1 x.2 = Some y).

Lemma soft_step_lt t s : soft_step t s ≠ None → t < N.
Proof. unfold soft_step. by case_bool_decide. Qed.

Lemma go_step t m pc m1 pc1 y : so_worker A t m pc = Some (m1, pc1) → go t (m1, pc1) y → go t (m, pc) y.
Proof. intros. by eapply rtc_l. Qed.

Lemma go_trans t x y z : go t x y → go t y z → go t x z.
Proof. intros. by etrans. Qed.

(** What the others hold is left alone. *)
Lemma go_run t s m pc :
  t < N → go t (so_mem s, so_pcs s t) (m, pc) →
  ∃ ls s', run (sys := mutex_lts (H := soft_mutex)) (map (pair t) ls) s = Some s' ∧
    so_mem s' = m ∧ so_pcs s' t = pc ∧ ∀ u, u ≠ t → so_pcs s' u = so_pcs s u.
Proof.
  intros Ht Hgo. remember (so_mem s, so_pcs s t) as y eqn:Hy. remember (m, pc) as z eqn:Hz.
  revert s Hy. induction Hgo as [y|y [m1 pc1] z Hstep _ IH]; intros s ->; simplify_eq/=.
  - by exists [], s.
  - destruct (IH eq_refl (SoftState m1 (<[t := pc1]> (so_pcs s)))) as (ls & s' & Hrun & Hm & Hpc & Ho); simpl.
    { by rewrite fn_lookup_insert. }
    exists (tt :: ls), s'. split_and!; [|done..|].
    + simpl. unfold soft_step. by rewrite bool_decide_true, Hstep by done.
    + intros u Hu. rewrite Ho by done. simpl. by rewrite fn_lookup_insert_ne.
Qed.

(** Loops that only look. *)
Lemma go_loop t m (P : nat → PC) a b :
  a ≤ b → (∀ j, a ≤ j < b → so_worker A t m (P j) = Some (m, P (S j))) → go t (m, P a) (m, P b).
Proof.
  intros Hle. induction Hle as [|b Hle IH]; intros Hstep; [apply rtc_refl|].
  eapply rtc_r; [apply IH; intros; apply Hstep; lia|]. apply Hstep. lia.
Qed.

Lemma go_scan t m (P : nat → PC) E a b :
  a ≤ b → (∀ j, a ≤ j < b → so_worker A t m (P j) = Some (m, P (S j)) ∨ so_worker A t m (P j) = Some (m, E)) →
  go t (m, P a) (m, P b) ∨ go t (m, P a) (m, E).
Proof.
  intros Hle. induction Hle as [|b Hle IH]; intros Hstep; [left; apply rtc_refl|].
  destruct IH as [IH|IH]; [intros; apply Hstep; lia| |by right].
  destruct (Hstep b) as [Hb|Hb]; [lia|left|right]; (eapply rtc_r; [exact IH|exact Hb]).
Qed.

(** The same over a list of indices. *)
Lemma go_list t m (P : list nat → PC) (Q : nat → Prop) todo :
  (∀ i rest, Q i → so_worker A t m (P (i :: rest)) = Some (m, P rest)) → (∀ i, i ∈ todo → Q i) → go t (m, P todo) (m, P []).
Proof.
  intros Hstep. induction todo as [|i todo IH]; intros HQ; [apply rtc_refl|].
  eapply go_step; [apply Hstep; set_solver|]. apply IH. set_solver.
Qed.

Lemma go_list_any t m (P : list nat → PC) E (Q : nat → Prop) todo :
  (∀ i rest, Q i → so_worker A t m (P (i :: rest)) = Some (m, P rest) ∨ so_worker A t m (P (i :: rest)) = Some (m, E)) →
  (∀ i, i ∈ todo → Q i) → go t (m, P todo) (m, P []) ∨ go t (m, P todo) (m, E).
Proof.
  intros Hstep. induction todo as [|i todo IH]; intros HQ; [left; apply rtc_refl|].
  destruct (Hstep i todo) as [Hi|Hi]; [set_solver| |right; by apply rtc_once].
  destruct IH as [IH|IH]; [set_solver|left|right]; by eapply go_step.
Qed.

(** ** What is shown of an algorithm *)

(** A thread that competes with nobody gets in by itself. *)
Definition soft_alone : Prop :=
  ∀ s t, reachable (sys := mutex_lts (H := soft_mutex)) s → soft_step t s ≠ None →
    (∀ u, u ≠ t → so_phase A (so_pcs s u) = Idle) → owns (so_phase A (so_pcs s t)) = false →
    solo (M := soft_mutex) t s (λ s', so_phase A (so_pcs s' t) = Holding).

(** A thread that is in gets out by itself. *)
Definition soft_release : Prop :=
  ∀ s t, reachable (sys := mutex_lts (H := soft_mutex)) s → owns (so_phase A (so_pcs s t)) = true →
    solo (M := soft_mutex) t s (λ s', so_phase A (so_pcs s' t) = Idle).

(** A thread that has begun goes on: no array is read out of its range. *)
Definition soft_safe : Prop :=
  ∀ s t, reachable (sys := mutex_lts (H := soft_mutex)) s → so_phase A (so_pcs s t) ≠ Idle → soft_step t s ≠ None.

(** There is no deadlock: when threads want in and nobody is in, the
    threads can go on in such a way that one of them gets in. *)
Definition soft_live : Prop :=
  ∀ s t, reachable (sys := mutex_lts (H := soft_mutex)) s → so_phase A (so_pcs s t) = Waiting →
    (∀ u, owns (so_phase A (so_pcs s u)) = false) →
    ∃ ls s' u, run (sys := mutex_lts (H := soft_mutex)) ls s = Some s' ∧ so_phase A (so_pcs s' u) = Holding.

Lemma go_solo t s m pc (P : phase → Prop) :
  t < N → go t (so_mem s, so_pcs s t) (m, pc) → P (so_phase A pc) →
  solo (M := soft_mutex) t s (λ s', P (so_phase A (so_pcs s' t))).
Proof. intros Ht Hgo HP. destruct (go_run t s m pc Ht Hgo) as (ls & s' & Hrun & _ & Hpc & _). exists ls, s'. by rewrite Hpc. Qed.

(** Stages of a run alone. *)
Lemma go_stage t s m pc (P : soft_state Mem PC → Prop) :
  t < N → go t (so_mem s, so_pcs s t) (m, pc) → reachable (sys := mutex_lts (H := soft_mutex)) s →
  (∀ s', reachable (sys := mutex_lts (H := soft_mutex)) s' → so_mem s' = m → so_pcs s' t = pc →
     (∀ u, u ≠ t → so_pcs s' u = so_pcs s u) → solo (M := soft_mutex) t s' P) →
  solo (M := soft_mutex) t s P.
Proof.
  intros Ht Hgo Hr Hnext. destruct (go_run t s m pc Ht Hgo) as (ls & s' & Hrun & Hm & Hpc & Ho).
  destruct (Hnext s') as (ls' & s2 & Hrun' & HP); [by eapply run_reachable|done..|].
  exists (ls ++ ls'), s2. split; [|done]. by rewrite map_app, run_app, Hrun.
Qed.

(** [soft_live] by a measure: some thread can get in by itself, or can
    make a state with a smaller measure in which somebody still waits. *)
Lemma soft_live_wf (size : soft_state Mem PC → nat) :
  (∀ s t, reachable (sys := mutex_lts (H := soft_mutex)) s → so_phase A (so_pcs s t) = Waiting →
     (∀ u, owns (so_phase A (so_pcs s u)) = false) →
     ∃ u m pc, u < N ∧ go u (so_mem s, so_pcs s u) (m, pc) ∧
       (so_phase A pc = Holding ∨
        owns (so_phase A pc) = false ∧ (so_phase A pc = Waiting ∨ u ≠ t) ∧
        ∀ s', so_mem s' = m → so_pcs s' u = pc → (∀ v, v ≠ u → so_pcs s' v = so_pcs s v) → size s' < size s)) →
  soft_live.
Proof.
  intros Hm s. remember (size s) as n eqn:Hn. revert s Hn. induction (lt_wf n) as [n _ IH]. intros s -> t Hr Ht Hno.
  destruct (Hm s t Hr Ht Hno) as (u & m & pc & Hu & Hgo & Hend).
  destruct (go_run u s m pc Hu Hgo) as (ls & s' & Hrun & Hm' & Hpc & Ho).
  destruct Hend as [Hh|(Hout & Hw & Hlt)].
  - exists (map (pair u) ls), s', u. by rewrite Hpc.
  - assert (∃ v, so_phase A (so_pcs s' v) = Waiting) as [w Hw'].
    { destruct Hw as [Hw|Hne]; [exists u; by rewrite Hpc|exists t; by rewrite Ho by done]. }
    destruct (IH (size s')) with (s := s') (t := w) as (ls' & s2 & v & Hrun' & Hv); [by apply Hlt|done| |done| |].
    + by eapply run_reachable.
    + intros v. destruct (decide (v = u)) as [->|Hv]; [by rewrite Hpc|by rewrite Ho].
    + exists (map (pair u) ls ++ ls'), s2, v. split; [|done]. by rewrite run_app, Hrun.
Qed.

Lemma soft_live_descent (size : Mem → nat) :
  (∀ s t, reachable (sys := mutex_lts (H := soft_mutex)) s → so_phase A (so_pcs s t) = Waiting →
     (∀ u, owns (so_phase A (so_pcs s u)) = false) →
     ∃ u m pc, u < N ∧ go u (so_mem s, so_pcs s u) (m, pc) ∧
       (so_phase A pc = Holding ∨
        owns (so_phase A pc) = false ∧ (so_phase A pc = Waiting ∨ u ≠ t) ∧ size m < size (so_mem s))) →
  soft_live.
Proof.
  intros Hm. apply (soft_live_wf (λ s, size (so_mem s))). intros s t Hr Ht Hno.
  destruct (Hm s t Hr Ht Hno) as (u & m & pc & Hu & Hgo & Hend). exists u, m, pc. split_and!; [done..|].
  destruct Hend as [|(Ho & Hw & Hlt)]; [by left|right]. split_and!; [done..|]. by intros s' ->.
Qed.

(** The case in which the thread that moves goes on waiting. *)
Lemma soft_live_measure (size : Mem → nat) :
  (∀ s t, reachable (sys := mutex_lts (H := soft_mutex)) s → so_phase A (so_pcs s t) = Waiting →
     (∀ u, owns (so_phase A (so_pcs s u)) = false) →
     ∃ u m pc, u < N ∧ go u (so_mem s, so_pcs s u) (m, pc) ∧
       (so_phase A pc = Holding ∨ so_phase A pc = Waiting ∧ size m < size (so_mem s))) →
  soft_live.
Proof.
  intros Hm. apply (soft_live_descent size). intros s t Hr Ht Hno. destruct (Hm s t Hr Ht Hno) as (u & m & pc & Hu & Hgo & Hend).
  exists u, m, pc. split_and!; [done..|]. destruct Hend as [|[Hw Hlt]]; [by left|right]. rewrite Hw. auto.
Qed.
End soft.

(** The shape of a lock: phases follow each other as they should. *)
Class SoftShape {Mem PC : Type} (A : soft Mem PC) := {
  ss_idle : so_phase A (so_idle A) = Idle;
  ss_cycle t m pc m' pc' : so_worker A t m pc = Some (m', pc') → phase_next (so_phase A pc) (so_phase A pc') = true;
}.

(** Algorithms whose variables grow: at most [limit] calls are made in all. *)
Definition limited {Mem PC : Type} (limit : Z) (A : soft Mem PC) : soft (Mem * Z) PC := {|
  so_ctor := λ m, so_ctor A m.1 ∧ m.2 = 0%Z;
  so_idle := so_idle A;
  so_worker := λ t m pc,
    let calls := if decide (so_phase A pc = Idle) then (m.2 + 1)%Z else m.2 in
    if bool_decide (calls ≤ limit)%Z then '(m', pc') ← so_worker A t m.1 pc; Some ((m', calls), pc') else None;
  so_phase := so_phase A;
|}.

Lemma limited_step {Mem PC : Type} limit (A : soft Mem PC) t m pc m' pc' :
  so_worker (limited limit A) t m pc = Some (m', pc') → so_worker A t m.1 pc = Some (m'.1, pc') ∧
  m'.2 = (if decide (so_phase A pc = Idle) then m.2 + 1 else m.2)%Z ∧ (m'.2 ≤ limit)%Z.
Proof.
  simpl. case_bool_decide as Hc; [|done]. destruct (so_worker A t m.1 pc) as [[]|]; intros; simplify_eq/=. done.
Qed.

(** The threads that draw a number, and the largest number drawn so far, stay below the number of calls. *)
Lemma limited_draw {PC : Type} (N : nat) (draws : PC → bool) (pcs : tid → PC) t pc (P : Prop) `{!Decision P} (T calls : Z) :
  t < N → (draws pc = true → draws (pcs t) = true ∨ P) → (T + flags N (λ u, draws (pcs u)) ≤ calls)%Z →
  (T + (if draws (pcs t) && negb (draws pc) then 1 else 0) + flags N (λ u, draws (<[t := pc]> pcs u)) ≤
   if decide P then calls + 1 else calls)%Z.
Proof.
  intros Ht Hd Hb. pose proof (flags_set N (λ u, draws (pcs u)) (λ u, draws (<[t := pc]> pcs u)) t Ht) as Hfl.
  specialize (Hfl ltac:(intros u Hu; cbn beta; by rewrite fn_lookup_insert_ne)). cbn beta in Hfl. rewrite fn_lookup_insert in Hfl.
  destruct (draws (pcs t)), (draws pc); simpl; destruct (decide P); try lia. by destruct Hd.
Qed.

#[export] Instance limited_shape {Mem PC : Type} limit (A : soft Mem PC) : SoftShape A → SoftShape (limited limit A).
Proof.
  intros HA. split; [apply (ss_idle (A := A))|]. intros t m pc m' pc' Hw. simpl in Hw. case_bool_decide; [|done].
  destruct (so_worker A t m.1 pc) as [[m1 pc1]|] eqn:Hw'; simplify_eq/=. by eapply (ss_cycle (A := A)).
Qed.

(** Only the threads [0 .. N - 1] exist. *)
Lemma soft_range {Mem PC : Type} (N : nat) (A : soft Mem PC) `{!SoftShape A} s t :
  reachable (sys := mutex_lts (H := soft_mutex N A)) s → so_phase A (so_pcs s t) ≠ Idle → t < N.
Proof.
  intros Hr. apply (soft_invariant N A (λ s, so_phase A (so_pcs s t) ≠ Idle → t < N)); [..|exact Hr]; clear s Hr.
  - intros m _ Ht. simpl in Ht. by rewrite ss_idle in Ht.
  - intros s u m pc Hinv Hu _ Ht. simpl in Ht. same_tid u t; [done|by apply Hinv].
Qed.

Lemma soft_safe_intro {Mem PC : Type} (N : nat) (A : soft Mem PC) `{!SoftShape A} :
  (∀ s t, reachable (sys := mutex_lts (H := soft_mutex N A)) s → t < N → so_phase A (so_pcs s t) ≠ Idle →
     is_Some (so_worker A t (so_mem s) (so_pcs s t))) → soft_safe N A.
Proof.
  intros Hw s t Hr Ht. pose proof (soft_range N A s t Hr Ht) as Hlt. unfold soft_step. rewrite bool_decide_true by done.
  by destruct (Hw s t Hr Hlt Ht) as [[m pc] ->].
Qed.

Lemma limited_goes {Mem PC : Type} limit (A : soft Mem PC) t m pc :
  so_phase A pc ≠ Idle → (m.2 ≤ limit)%Z → is_Some (so_worker A t m.1 pc) → is_Some (so_worker (limited limit A) t m pc).
Proof.
  intros Hp Hle [[m' pc'] Hw]. simpl. destruct (decide _); [done|]. rewrite bool_decide_true, Hw by done. eauto.
Qed.

Lemma soft_laws {Mem PC : Type} (N : nat) (A : soft Mem PC) `{!SoftShape A} :
  lock_exclusive (soft_mutex N A) → MutexLaws unit (soft_state Mem PC) (H := soft_mutex N A).
Proof.
  intros Hex. split.
  - intros s t [_ Hp]. simpl. rewrite Hp. apply ss_idle.
  - intros t t' l s s' (_ & m & pc & _ & ->)%soft_step_inv Hne. simpl. by rewrite fn_lookup_insert_ne.
  - intros t l s s' (_ & m & pc & Hw & ->)%soft_step_inv. simpl. rewrite fn_lookup_insert. by eapply ss_cycle.
  - exact Hex.
Qed.

(** ** The flag principle

    Each thread has a flag.  While a thread is in, its flag is up, and since
    it put the flag up it has seen the flag of every other thread down.  Then no
    two threads are in: the one that looked last would have seen the flag of the other. *)

Class FlagLock {Mem PC : Type} (N : nat) (A : soft Mem PC) := {
  fl_up : Mem → tid → bool;
  fl_raised : PC → bool;                  (** the flag is up, and stays so *)
  fl_passed : tid → PC → tid → bool;      (** has seen the flag of the other down since *)
  fl_idle : so_phase A (so_idle A) = Idle;
  fl_start : fl_raised (so_idle A) = false;
  fl_frame t u m pc m' pc' : so_worker A t m pc = Some (m', pc') → u ≠ t → fl_up m' u = fl_up m u;
  fl_keeps t m pc m' pc' :
    so_worker A t m pc = Some (m', pc') → (fl_raised pc = true → fl_up m t = true) → fl_raised pc' = true → fl_up m' t = true;
  fl_pass_raised t pc u : fl_passed t pc u = true → fl_raised pc = true;
  fl_sees t u m pc m' pc' :
    so_worker A t m pc = Some (m', pc') → u ≠ t → u < N → fl_passed t pc' u = true → fl_passed t pc u = true ∨ fl_up m u = false;
  fl_owns t pc u : owns (so_phase A pc) = true → u ≠ t → u < N → fl_passed t pc u = true;
}.

Section flag.
Context {Mem PC : Type} (N : nat) (A : soft Mem PC) {F : FlagLock N A}.

Record flag_inv (s : soft_state Mem PC) : Prop := {
  fi_range t : N ≤ t → so_pcs s t = so_idle A;
  fi_up t : fl_raised (so_pcs s t) = true → fl_up (so_mem s) t = true;
  fi_once t u : t ≠ u → t < N → u < N → fl_passed t (so_pcs s t) u = true → fl_passed u (so_pcs s u) t = true → False;
}.

Lemma flag_inv_step s t m pc :
  flag_inv s → t < N → so_worker A t (so_mem s) (so_pcs s t) = Some (m, pc) → flag_inv (SoftState m (<[t := pc]> (so_pcs s))).
Proof.
  intros [Hr Hu Ho] Ht Hw. split; simpl.
  - intros u Hge. rewrite fn_lookup_insert_ne by lia. by apply Hr.
  - intros u Hup. same_tid t u; [by apply (fl_keeps _ _ _ _ _ Hw (Hu t))|].
    rewrite (fl_frame _ _ _ _ _ _ Hw) by done. by apply Hu.
  - assert (∀ u, t ≠ u → u < N → fl_passed t pc u = true → fl_passed u (so_pcs s u) t = true → False) as Hnew.
    { intros u Hne Hlt Hp Hq. destruct (fl_sees _ u _ _ _ _ Hw ltac:(done) Hlt Hp) as [Hold|Hdown]; [by apply (Ho t u)|].
      rewrite (Hu u) in Hdown; [done|]. by eapply fl_pass_raised. }
    intros u v Hne Hlt Hlt' Hp Hq. same_tid t u; [by apply (Hnew v)|]. same_tid t v; [by apply (Hnew u)|by apply (Ho u v)].
Qed.

Lemma flag_reachable s : reachable (sys := mutex_lts (H := soft_mutex N A)) s → flag_inv s.
Proof.
  apply soft_invariant.
  - intros m _. split; simpl; [done| |].
    + intros t. by rewrite fl_start.
    + intros t u _ _ _ Hp%fl_pass_raised. by rewrite fl_start in Hp.
  - intros. by apply flag_inv_step.
Qed.

Lemma flag_exclusive : lock_exclusive (soft_mutex N A).
Proof.
  intros s t u Hs%flag_reachable Ht Hu. simpl in *. destruct (decide (t = u)) as [|Hne]; [done|]. exfalso.
  assert (∀ v, owns (so_phase A (so_pcs s v)) = true → v < N) as Hlt.
  { intros v Hv. destruct (decide (v < N)) as [|Hge]; [done|]. rewrite (fi_range s Hs v), fl_idle in Hv by lia. done. }
  apply (fi_once s Hs t u Hne); [by apply Hlt..| |]; apply fl_owns; auto.
Qed.
End flag.
