(* ===== verification/BurnsLynch.v ===== *)
(** * The algorithm of Burns and Lynch

    [C11/papers/cralgorithm/BurnsLynchRetractC11.c]: one flag for each thread.  A thread
    gives way to threads with smaller numbers until none of them wants in,
    and then waits for those with larger numbers. *)

From S2P Require Import Prelude Lts Mutex SoftLock.

(** ** Data *)

Inductive Intent := DontWantIn | WantIn.

#[export] Instance bl_intent_dec : EqDecision Intent.
Proof. solve_decision. Defined.

(** [intents]. *)
Abbreviation memory := (tid → Intent).

(** Program points of [Worker]; the start of the loop and [L0] do the same. *)
Inductive wpc :=
  | BlIdle
  | BlL0
  | BlBelow (j : nat)    (** the first loop over [j < id] *)
  | BlCheck (j : nat)    (** the second one *)
  | BlAbove (j : nat)    (** the loop at [L1] *)
  | BlCs.

(** ** Operations *)

Definition ctor (intents : memory) : Prop := ∀ i, intents i = DontWantIn.

Definition Worker (N : nat) (id : tid) (intents : memory) (pc : wpc) : option (memory * wpc) :=
  match pc with
  | BlIdle | BlL0 => Some (<[id := DontWantIn]> intents, BlBelow 0)
  | BlBelow j =>
      if bool_decide (j < id) then
        v ← ld N intents j; Some (intents, if bool_decide (v = WantIn) then BlL0 else BlBelow (S j))
      else Some (<[id := WantIn]> intents, BlCheck 0)
  | BlCheck j =>
      if bool_decide (j < id) then
        v ← ld N intents j; Some (intents, if bool_decide (v = WantIn) then BlL0 else BlCheck (S j))
      else Some (intents, BlAbove (S id))
  | BlAbove j =>
      if bool_decide (j < N) then
        v ← ld N intents j; Some (intents, if bool_decide (v = WantIn) then BlAbove (S id) else BlAbove (S j))
      else Some (intents, BlCs)
  | BlCs => Some (<[id := DontWantIn]> intents, BlIdle)
  end.

Definition bl_phase (pc : wpc) : phase :=
  match pc with BlIdle => Idle | BlCs => Holding | _ => Waiting end.

Definition algorithm (N : nat) : soft memory wpc := Soft ctor BlIdle (Worker N) bl_phase.

(** ** Exclusion *)

#[export] Instance bl_shape N : SoftShape (algorithm N).
Proof.
  split; [done|]. intros t m pc m' pc' Hw. by worker_inv Hw pc.
Qed.

#[export] Instance bl_flags N : FlagLock N (algorithm N).
Proof.
  refine {|
    fl_up := λ m t, bool_decide (m t = WantIn);
    fl_raised := λ pc, match pc with BlCheck _ | BlAbove _ | BlCs => true | _ => false end;
    fl_passed := λ t pc u,
      match pc with
      | BlCheck j => bool_decide (u < j)
      | BlAbove j => bool_decide (u < t ∨ t < u < j)
      | BlCs => true
      | _ => false
      end;
  |}; try done.
  - intros t u m pc m' pc' Hw Hne. worker_inv Hw pc; by simpl_fn.
  - intros t m pc m' pc' Hw Hup Hr. worker_inv Hw pc; simpl_fn; auto.
  - intros t pc u. by destruct pc.
  - intros t u m pc m' pc' Hw Hne Hlt Hp. worker_inv Hw pc; auto; destruct (decide (u = j)) as [->|]; (right; congruence) || (left; lia).
  - intros t pc u. by destruct pc.
Defined.

Lemma bl_exclusive N : lock_exclusive (soft_mutex N (algorithm N)).
Proof. apply flag_exclusive, _. Qed.

(** ** Progress *)

Section progress.
Context (N : nat).
Local Abbreviation go := (go (algorithm N)).
Local Abbreviation reach := (reachable (sys := mutex_lts (H := soft_mutex N (algorithm N)))).

Definition bl_ok (m : memory) (t : tid) (pc : wpc) : Prop :=
  match pc with BlIdle | BlBelow _ => m t = DontWantIn | BlAbove j => t < j | _ => True end.

Lemma bl_reach_ok s t : reach s → bl_ok (so_mem s) t (so_pcs s t).
Proof.
  intros Hr. revert t. eapply soft_local; [..|exact Hr]; clear s Hr.
  - intros m t Hm. apply Hm.
  - intros t m pc m' pc' _ Hok Hw. worker_inv Hw pc; simpl_fn; auto with lia.
  - intros t u m pc m' pc' pcu Hne _ _ Hw. assert (m' u = m u) as Hu by (worker_inv Hw pc; by simpl_fn).
    unfold bl_ok. by rewrite Hu.
Qed.

Lemma bl_load (m : memory) j v : j < N → m j = v → ld N m j = Some v.
Proof. intros Hj <-. by apply ld_lt. Qed.

Lemma bl_go_above t (m : memory) : t < N → (∀ u, t < u < N → m u = DontWantIn) → ∀ j, t < j → go t (m, BlAbove j) (m, BlCs).
Proof.
  intros Ht Hm j Hj. assert (so_worker (algorithm N) t m (BlAbove (max j N)) = Some (m, BlCs)) as Hend.
  { simpl. by rewrite bool_decide_false by lia. }
  eapply go_trans; [|by eapply go_step; [exact Hend|apply rtc_refl]]. apply go_loop; [lia|].
  intros k Hk. simpl. rewrite bool_decide_true by lia. by rewrite (bl_load m k DontWantIn) by (lia || (apply Hm; lia)).
Qed.

(** The second loop: somebody below wants in, or nobody. *)
Lemma bl_go_check t (m : memory) j :
  t < N → go t (m, BlCheck j) (m, BlAbove (S t)) ∨ go t (m, BlCheck j) (m, BlL0).
Proof.
  intros Ht. destruct (go_scan (algorithm N) t m BlCheck BlL0 j (max j t)) as [Hgo|Hgo]; [lia| | |by right].
  - intros k Hk. simpl. rewrite bool_decide_true, ld_lt by lia. simpl. case_bool_decide; auto.
  - left. eapply go_trans; [exact Hgo|]. eapply go_step; [|apply rtc_refl]. simpl. by rewrite bool_decide_false by lia.
Qed.

(** When nobody else wants in, a thread gets in. *)
Lemma bl_go_in t (m : memory) pc :
  t < N → pc ≠ BlCs → (∀ u, u < N → u ≠ t → m u = DontWantIn) → bl_ok m t pc → ∃ m', go t (m, pc) (m', BlCs).
Proof.
  intros Ht Hpc Hm Hj.
  assert (∀ m' j, (∀ u, u < N → u ≠ t → m' u = DontWantIn) → t < j → go t (m', BlAbove j) (m', BlCs)) as Habove.
  { intros m' j Hm' ?. apply bl_go_above; [done| |done]. intros u Hu. apply Hm'; lia. }
  assert (∀ m' j, (∀ u, u < N → u ≠ t → m' u = DontWantIn) → go t (m', BlCheck j) (m', BlCs)) as Hcheck.
  { intros m' j Hm'. eapply go_trans; [apply (go_loop _ t m' BlCheck j (max j t)); [lia|]|].
    - intros k Hk. simpl. rewrite bool_decide_true by lia. by rewrite (bl_load m' k DontWantIn) by (lia || (apply Hm'; lia)).
    - eapply go_step; [simpl; by rewrite bool_decide_false by lia|]. apply Habove; [done|lia]. }
  assert (∀ m' j, (∀ u, u < N → u ≠ t → m' u = DontWantIn) → go t (m', BlBelow j) (<[t := WantIn]> m', BlCs)) as Hbelow.
  { intros m' j Hm'. eapply go_trans; [apply (go_loop _ t m' BlBelow j (max j t)); [lia|]|].
    - intros k Hk. simpl. rewrite bool_decide_true by lia. by rewrite (bl_load m' k DontWantIn) by (lia || (apply Hm'; lia)).
    - eapply go_step; [simpl; by rewrite bool_decide_false by lia|]. apply Hcheck. intros u ??. simpl_fn. by apply Hm'. }
  assert (∀ u, u < N → u ≠ t → <[t := DontWantIn]> m u = DontWantIn) as Hd by (intros u ??; simpl_fn; by apply Hm).
  destruct pc as [| |j|j|j|]; try done; eexists.
  1,2: eapply go_step; [done|by apply Hbelow].
  - by apply Hbelow.
  - by apply Hcheck.
  - by apply Habove.
Qed.

Lemma bl_alone : soft_alone N (algorithm N).
Proof.
  intros s t Hr Ht%soft_step_lt Hidle Ho. destruct (bl_go_in t (so_mem s) (so_pcs s t)) as [m' Hgo].
  - done.
  - intros Heq. by rewrite Heq in Ho.
  - intros u _ Hu. pose proof (bl_reach_ok s u Hr) as Hok. specialize (Hidle u Hu). by destruct (so_pcs s u).
  - by apply bl_reach_ok.
  - by apply (go_solo N (algorithm N) t s m' BlCs (λ p, p = Holding)).
Qed.

Lemma bl_release : soft_release N (algorithm N).
Proof.
  intros s t Hr Ho. assert (t < N) as Ht by (apply (soft_range _ _ s t Hr); intros Heq; by rewrite Heq in Ho).
  assert (so_pcs s t = BlCs) as Hpc by (by destruct (so_pcs s t)).
  apply (go_solo N (algorithm N) t s (<[t := DontWantIn]> (so_mem s)) BlIdle (λ p, p = Idle)); [done| |done].
  rewrite Hpc. by apply rtc_once.
Qed.

(** The last thread that has its flag up gets in, or takes it down. *)
Lemma bl_live : soft_live N (algorithm N).
Proof.
  set (up := λ m : memory, λ u, bool_decide (m u = WantIn)).
  apply (soft_live_measure N (algorithm N) (λ m, flags N (up m))). intros s t Hr Hw Hno.
  assert (∀ u, so_pcs s u ≠ BlCs) as Hncs by (intros u Heq; specialize (Hno u); by rewrite Heq in Hno).
  destruct (flags_last N (up (so_mem s))) as [Hall|(u & Hu & Hup & Hv)].
  - assert (t < N) as Ht by (apply (soft_range _ _ s t Hr); by rewrite Hw).
    destruct (bl_go_in t (so_mem s) (so_pcs s t)) as [m' Hgo]; [done..| |by apply bl_reach_ok|].
    + intros u Hu _. specialize (Hall u Hu). unfold up in Hall. case_bool_decide; [done|]. by destruct (so_mem s u).
    + exists t, m', BlCs. auto.
  - unfold up in Hup. apply bool_decide_eq_true in Hup. exists u.
    assert (∀ v, u < v < N → so_mem s v = DontWantIn) as Hlow.
    { intros v Hlt. specialize (Hv v Hlt). unfold up in Hv. case_bool_decide; [done|]. by destruct (so_mem s v). }
    assert (∀ pc, go u (so_mem s, pc) (so_mem s, BlL0) → ∃ m' pc', u < N ∧ go u (so_mem s, pc) (m', pc') ∧
      (bl_phase pc' = Holding ∨ bl_phase pc' = Waiting ∧ flags N (up m') < flags N (up (so_mem s)))) as Hl0.
    { intros pc Hgo. exists (<[u := DontWantIn]> (so_mem s)), (BlBelow 0). split_and!; [done|by eapply rtc_r|].
      right. split; [done|]. apply (flags_lower N _ _ u); unfold up; [done| |by apply bool_decide_eq_true|by simpl_fn].
      intros v Hne. by simpl_fn. }
    pose proof (bl_reach_ok s u Hr) as Hok. destruct (so_pcs s u) as [| |j|j|j|] eqn:Hpc; simpl in Hok; try congruence.
    + apply Hl0. apply rtc_refl.
    + destruct (bl_go_check u (so_mem s) j Hu) as [Hgo|Hgo]; [|by apply Hl0].
      exists (so_mem s), BlCs. split_and!; [done| |by left]. eapply go_trans; [exact Hgo|]. apply bl_go_above; [done..|lia].
    + exists (so_mem s), BlCs. split_and!; [done|by apply bl_go_above|by left].
    + by destruct (Hncs u).
Qed.

Lemma bl_safe : soft_safe N (algorithm N).
Proof.
  apply soft_safe_intro; [apply _|]. intros s t Hr Ht Hp. destruct (so_pcs s t); simpl; repeat case_bool_decide; rewrite ?ld_lt by lia; simpl; eauto.
Qed.
End progress.
