(* ===== verification/Dijkstra.v ===== *)
(** * Dijkstra's algorithm

    [C11/papers/cralgorithm/DijkstraC11.c].  [b[id]] is 0 while a thread wants in, [c[id]] is
    0 while it tries; before it tries it makes itself the holder of [turn], for
    which the present holder must not want in.  The numbers of the threads
    begin with 1. *)

From S2P Require Import Prelude Lts Mutex SoftLock.

(** ** Data *)

Record memory := Memory {
  b : nat → Z;
  c : nat → Z;
  turn : nat;
}.

(** Program points of [Worker]. *)
Inductive wpc :=
  | DjIdle
  | DjL                 (** [c[id] = 1] *)
  | DjTurn              (** [if (turn != id)] *)
  | DjWait              (** the load of [turn] in the condition of the busy wait *)
  | DjWaitB (k : nat)   (** the load of [b[turn]] there *)
  | DjTake              (** [turn = id] *)
  | DjSet               (** [c[id] = 0] *)
  | DjScan (j : nat)    (** the loop over the others *)
  | DjCs
  | DjExit              (** [c[id] = 1] *)
  | DjExit2             (** [turn = 0] *).

#[export] Instance dj_wpc_dec : EqDecision wpc.
Proof. solve_decision. Defined.

(** ** Operations *)

Definition ctor (m : memory) : Prop := (∀ i, c m i = 1%Z) ∧ (∀ i, b m i = 1%Z) ∧ turn m = 0.

Definition Worker (N : nat) (arg : tid) (m : memory) (pc : wpc) : option (memory * wpc) :=
  let id := S arg in
  match pc with
  | DjIdle => Some (Memory (<[id := 0%Z]> (b m)) (c m) (turn m), DjL)
  | DjL => Some (Memory (b m) (<[id := 1%Z]> (c m)) (turn m), DjTurn)
  | DjTurn => Some (m, if bool_decide (turn m = id) then DjSet else DjWait)
  | DjWait => Some (m, DjWaitB (turn m))
  | DjWaitB k => v ← ld (S N) (b m) k; Some (m, if bool_decide (v = 1%Z) then DjTake else DjWait)
  | DjTake => Some (Memory (b m) (c m) id, DjSet)
  | DjSet => Some (Memory (b m) (<[id := 0%Z]> (c m)) (turn m), DjScan 1)
  | DjScan j =>
      if bool_decide (j ≤ N) then
        if bool_decide (j = id) then Some (m, DjScan (S j))
        else v ← ld (S N) (c m) j; Some (m, if bool_decide (v = 0%Z) then DjL else DjScan (S j))
      else Some (m, DjCs)
  | DjCs => Some (Memory (<[id := 1%Z]> (b m)) (c m) (turn m), DjExit)
  | DjExit => Some (Memory (b m) (<[id := 1%Z]> (c m)) (turn m), DjExit2)
  | DjExit2 => Some (Memory (b m) (c m) 0, DjIdle)
  end.

Definition dj_phase (pc : wpc) : phase :=
  match pc with DjIdle => Idle | DjCs => Holding | DjExit => Unlocking | DjExit2 => Leaving | _ => Waiting end.

Definition algorithm (N : nat) : soft memory wpc := Soft ctor DjIdle (Worker N) dj_phase.

(** ** Exclusion *)

#[export] Instance dj_shape N : SoftShape (algorithm N).
Proof. split; [done|]. intros t m pc m' pc' Hw. by worker_inv Hw pc. Qed.

#[export] Instance dj_flags N : FlagLock N (algorithm N).
Proof.
  refine {|
    fl_up := λ m t, bool_decide (c m (S t) = 0%Z);
    fl_raised := λ pc, match pc with DjScan _ | DjCs | DjExit => true | _ => false end;
    fl_passed := λ t pc u,
      match pc with
      | DjScan j => bool_decide (S u < j)
      | DjCs | DjExit => true
      | _ => false
      end;
  |}; try done.
  - intros t u m pc m' pc' Hw Hne. worker_inv Hw pc; by simpl_fn.
  - intros t m pc m' pc' Hw Hup Hr. worker_inv Hw pc; simpl_fn; auto.
  - intros t pc u. by destruct pc.
  - intros t u m pc m' pc' Hw Hne Hlt Hp. worker_inv Hw pc; auto; destruct (decide (S u = j)) as [<-|]; (right; congruence) || (left; lia).
  - intros t pc u. by destruct pc.
Defined.

Lemma dj_exclusive N : lock_exclusive (soft_mutex N (algorithm N)).
Proof. apply flag_exclusive, _. Qed.

(** ** Progress *)

Section progress.
Context (N : nat).
Local Abbreviation go := (go (algorithm N)).
Local Abbreviation reach := (reachable (sys := mutex_lts (H := soft_mutex N (algorithm N)))).

Record dj_ok (m : memory) (t : tid) (pc : wpc) : Prop := {
  do_turn : turn m ≤ N;
  do_b0 : b m 0 = 1%Z;
  do_b : match pc with DjIdle | DjExit | DjExit2 => b m (S t) = 1%Z | _ => True end;
  do_c : match pc with DjL | DjScan _ | DjCs | DjExit => True | _ => c m (S t) = 1%Z end;
  do_wait : match pc with DjWait | DjWaitB _ | DjTake => turn m ≠ S t | _ => True end;
  do_index : match pc with DjWaitB k => k ≤ N | DjScan j => 1 ≤ j | _ => True end;
}.

Lemma dj_reach_ok s t : reach s → dj_ok (so_mem s) t (so_pcs s t).
Proof.
  intros Hr. revert t. eapply soft_local; [..|exact Hr]; clear s Hr.
  - intros m t (Hc & Hb & Ht). split; simpl; rewrite ?Ht; auto with lia.
  - intros t m pc m' pc' Ht Hok Hw. worker_inv Hw pc; destruct Hok; split; simpl; simpl_fn; auto with lia.
  - intros t u m pc m' pc' pcu Hne Ht _ Hw Hok. worker_inv Hw pc; destruct Hok; split; simpl; simpl_fn; auto; by destruct pcu; auto with lia.
Qed.

(** Nobody else tries. *)
Definition free (m : memory) (t : tid) : Prop := ∀ u, u < N → u ≠ t → c m (S u) ≠ 0%Z.

Lemma dj_free_frame m m' t : free m t → (∀ i, i ≠ S t → c m' i = c m i) → free m' t.
Proof. intros Hf Hc u Hu Hne. rewrite Hc by lia. by apply Hf. Qed.

(** The turn belongs to the thread, or to one that does not want in. *)
Definition unlocked (m : memory) (t : tid) : Prop := turn m ≤ N ∧ (turn m = S t ∨ b m (turn m) = 1%Z).

Lemma dj_scan_end t m j : N < j → so_worker (algorithm N) t m (DjScan j) = Some (m, DjCs).
Proof. intros Hj. simpl. by rewrite bool_decide_false by lia. Qed.

Lemma dj_go_scan_in t m j : free m t → 1 ≤ j → go t (m, DjScan j) (m, DjCs).
Proof.
  intros Hf Hj. eapply go_trans; [apply (go_loop _ t m DjScan j (max j (S N))); [lia|]|].
  - intros [|k] Hk; [lia|]. simpl. rewrite bool_decide_true by lia. case_bool_decide; [done|]. rewrite ld_lt by lia. simpl.
    by rewrite bool_decide_false by (apply Hf; lia).
  - eapply go_step; [apply dj_scan_end; lia|apply rtc_refl].
Qed.

Lemma dj_go_set t m : free m t → ∃ m', go t (m, DjSet) (m', DjCs).
Proof.
  intros Hf. eexists. eapply go_step; [done|]. apply dj_go_scan_in; [|lia]. apply (dj_free_frame m); [done|]. intros i Hi. simpl. by simpl_fn.
Qed.

Lemma dj_go_take t m : free m t → ∃ m', go t (m, DjTake) (m', DjCs).
Proof. intros Hf. destruct (dj_go_set t (Memory (b m) (c m) (S t))) as [m' Hgo]; [done|]. exists m'. by eapply go_step. Qed.

Lemma dj_go_wait t m : free m t → unlocked m t → turn m ≠ S t → ∃ m', go t (m, DjWait) (m', DjCs).
Proof.
  intros Hf [Ht Hb] Hne. destruct (dj_go_take t m Hf) as [m' Hgo]. exists m'. eapply go_step; [done|]. eapply go_step; [|exact Hgo].
  simpl. rewrite ld_lt by lia. simpl. by rewrite bool_decide_true by naive_solver.
Qed.

Lemma dj_go_turn t m : free m t → unlocked m t → ∃ m', go t (m, DjTurn) (m', DjCs).
Proof.
  intros Hf Hu. destruct (decide (turn m = S t)) as [Heq|Hne]; [destruct (dj_go_set t m Hf) as [m' Hgo]|destruct (dj_go_wait t m Hf Hu Hne) as [m' Hgo]];
    exists m'; (eapply go_step; [|exact Hgo]); simpl; [by rewrite bool_decide_true|by rewrite bool_decide_false].
Qed.

Lemma dj_go_l t m : free m t → unlocked m t → ∃ m', go t (m, DjL) (m', DjCs).
Proof.
  intros Hf Hu. destruct (dj_go_turn t (Memory (b m) (<[S t := 1%Z]> (c m)) (turn m))) as [m' Hgo]; [|done|by exists m'; eapply go_step].
  apply (dj_free_frame m); [done|]. intros i Hi. simpl. by simpl_fn.
Qed.

(** With no competitor and the turn in reach a thread gets in. *)
Lemma dj_go_in t m pc :
  t < N → (dj_phase pc = Idle ∨ dj_phase pc = Waiting) → dj_ok m t pc → free m t → unlocked m t → ∃ m', go t (m, pc) (m', DjCs).
Proof.
  intros Ht Hp Hok Hf Hu. destruct pc as [| | | |k| | |j| | |]; simpl in *; try by destruct Hp.
  - destruct (dj_go_l t (Memory (<[S t := 0%Z]> (b m)) (c m) (turn m))) as [m' Hgo]; [done| |by exists m'; eapply go_step].
    destruct Hu as [Hr Hu]. split; [done|]. simpl. destruct (decide (turn m = S t)) as [|Hne]; [by left|]. right. simpl_fn. naive_solver.
  - by apply dj_go_l.
  - by apply dj_go_turn.
  - apply dj_go_wait; [done..|]. apply (do_wait _ _ _ Hok).
  - destruct (dj_go_wait t m Hf Hu (do_wait _ _ _ Hok)) as [m1 Hgo1]. destruct (dj_go_take t m Hf) as [m2 Hgo2].
    pose proof (do_index _ _ _ Hok) as Hk. simpl in Hk. destruct (decide (b m k = 1%Z)) as [Hb|Hb].
    + exists m2. eapply go_step; [|exact Hgo2]. simpl. rewrite ld_lt by lia. simpl. by rewrite bool_decide_true.
    + exists m1. eapply go_step; [|exact Hgo1]. simpl. rewrite ld_lt by lia. simpl. by rewrite bool_decide_false.
  - by apply dj_go_take.
  - by apply dj_go_set.
  - exists m. apply dj_go_scan_in; [done|]. apply (do_index _ _ _ Hok).
Qed.

(** Whose turn it is. *)
Lemma dj_unlocked_cases s t : reach s → t < N → unlocked (so_mem s) t ∨
  ∃ u, u < N ∧ u ≠ t ∧ turn (so_mem s) = S u ∧ match so_pcs s u with DjIdle | DjExit | DjExit2 => False | _ => True end.
Proof.
  intros Hr Ht. destruct (dj_reach_ok s t Hr) as [Hle H0 _ _ _ _]. destruct (turn (so_mem s)) as [|u] eqn:Hu.
  { left. split; rewrite Hu; [lia|by right]. }
  destruct (decide (u = t)) as [->|Hne]; [left; split; rewrite Hu; auto|].
  destruct (decide (b (so_mem s) (S u) = 1%Z)) as [Hb|Hb]; [left; split; rewrite Hu; auto|right].
  exists u. split_and!; [lia|done..|]. pose proof (do_b _ _ _ (dj_reach_ok s u Hr)) as Hok. by destruct (so_pcs s u).
Qed.

Lemma dj_alone : soft_alone N (algorithm N).
Proof.
  intros s t Hr Ht%soft_step_lt Hidle Ho. pose proof (dj_reach_ok s t Hr) as Hok.
  assert (free (so_mem s) t) as Hf.
  { intros u Hu Hne. pose proof (do_c _ _ _ (dj_reach_ok s u Hr)) as Hc. specialize (Hidle u Hne).
    destruct (so_pcs s u); simpl in *; try done. by rewrite Hc. }
  assert (∃ m', go t (so_mem s, so_pcs s t) (m', DjCs)) as [m' Hgo].
  2:{ by apply (go_solo N (algorithm N) t s m' DjCs (λ p, p = Holding)). }
  destruct (decide (so_pcs s t = DjExit2)) as [Heq|Hne].
  - rewrite Heq. destruct (dj_go_l t (Memory (<[S t := 0%Z]> (b (so_mem s))) (c (so_mem s)) 0)) as [m' Hgo]; [done| |].
    + split; simpl; [lia|]. right. simpl_fn. apply (do_b0 _ _ _ Hok).
    + exists m'. by do 2 (eapply go_step; [done|]).
  - apply dj_go_in; [done| |done..|].
    + destruct (so_pcs s t); simpl in *; auto; congruence.
    + destruct (dj_unlocked_cases s t Hr Ht) as [|(u & ? & Hne' & _ & Hu)]; [done|]. specialize (Hidle u Hne'). by destruct (so_pcs s u).
Qed.

Lemma dj_release : soft_release N (algorithm N).
Proof.
  intros s t Hr Ho. assert (t < N) as Ht by (apply (soft_range _ _ s t Hr); intros Heq; by rewrite Heq in Ho).
  assert (∃ m', go t (so_mem s, so_pcs s t) (m', DjIdle)) as [m' Hgo].
  { destruct (so_pcs s t); try done; eexists; repeat (apply rtc_refl || (eapply go_step; [done|])). }
  by apply (go_solo N (algorithm N) t s m' DjIdle (λ p, p = Idle)).
Qed.

(** A thread that tries gets in, or gives way; if nobody tries, the one
    whose turn it is or anybody gets in. *)
Lemma dj_live : soft_live N (algorithm N).
Proof.
  set (up := λ m : memory, λ u, bool_decide (c m (S u) = 0%Z)).
  apply (soft_live_measure N (algorithm N) (λ m, flags N (up m))). intros s t Hr Hw Hno.
  destruct (flags_last N (up (so_mem s))) as [Hall|(u & Hu & Hup & _)].
  - assert (t < N) as Ht by (apply (soft_range _ _ s t Hr); by rewrite Hw).
    assert (∀ u, free (so_mem s) u) as Hf.
    { intros u v Hv _. specialize (Hall v Hv). unfold up in Hall. by case_bool_decide. }
    destruct (dj_unlocked_cases s t Hr Ht) as [Hu|(u & Hu & _ & Htu & Hpc)].
    + destruct (dj_go_in t (so_mem s) (so_pcs s t)) as [m' Hgo]; [done|by right|by apply dj_reach_ok|done..|]. exists t, m', DjCs. auto.
    + destruct (dj_go_in u (so_mem s) (so_pcs s u)) as [m' Hgo]; [done| |by apply dj_reach_ok|done| |].
      * specialize (Hno u). right. by destruct (so_pcs s u).
      * split; [apply (do_turn _ _ _ (dj_reach_ok s u Hr))|by left].
      * exists u, m', DjCs. auto.
  - unfold up in Hup. apply bool_decide_eq_true in Hup. exists u. specialize (Hno u).
    assert (∀ pc, go u (so_mem s, pc) (so_mem s, DjL) → ∃ m' pc', u < N ∧ go u (so_mem s, pc) (m', pc') ∧
      (dj_phase pc' = Holding ∨ dj_phase pc' = Waiting ∧ flags N (up m') < flags N (up (so_mem s)))) as Hl.
    { intros pc Hgo. exists (Memory (b (so_mem s)) (<[S u := 1%Z]> (c (so_mem s))) (turn (so_mem s))), DjTurn.
      split_and!; [done|by eapply rtc_r|]. right. split; [done|].
      apply (flags_lower N _ _ u); unfold up; simpl; [done| |by apply bool_decide_eq_true|by simpl_fn]. intros v Hne. by simpl_fn. }
    pose proof (do_c _ _ _ (dj_reach_ok s u Hr)) as Hc. pose proof (do_index _ _ _ (dj_reach_ok s u Hr)) as Hj.
    destruct (so_pcs s u) as [| | | |k| | |j| | |]; simpl in Hc, Hno; try (rewrite Hup in Hc; done); try done.
    + apply Hl. apply rtc_refl.
    + destruct (go_scan (algorithm N) u (so_mem s) DjScan DjL j (max j (S N))) as [Hgo|Hgo]; [lia| | |by apply Hl].
      * intros k Hk. simpl. rewrite bool_decide_true by lia. case_bool_decide; [by left|]. rewrite ld_lt by lia. simpl. case_bool_decide; auto.
      * exists (so_mem s), DjCs. split_and!; [done| |by left]. eapply go_trans; [exact Hgo|].
        eapply go_step; [apply dj_scan_end; lia|apply rtc_refl].
Qed.

Lemma dj_safe : soft_safe N (algorithm N).
Proof.
  apply soft_safe_intro; [apply _|]. intros s t Hr Ht Hp. pose proof (do_index _ _ _ (dj_reach_ok s t Hr)) as Hj.
  destruct (so_pcs s t); simpl in *; repeat case_bool_decide; rewrite ?ld_lt by lia; simpl; eauto.
Qed.
End progress.
