(* ===== verification/Eisenberg.v ===== *)
(** * The algorithm of Eisenberg and McGuire

    [C11/papers/cralgorithm/EisenbergC11.c].  A thread waits for the threads between the
    holder of [HIGH] and itself, announces that it enters, and enters if it is
    the only one and the holder of [HIGH] has no business. *)

From S2P Require Import Prelude Lts Mutex SoftLock.

(** ** Data *)

Inductive Intent := DontWantIn | WantIn | EnterCS.

#[export] Instance ei_intent_dec : EqDecision Intent.
Proof. solve_decision. Defined.

Record memory := Memory {
  control : nat → Intent;
  HIGH : nat;
}.

(** Program points of [Worker]; the start of the loop and [L0] do the same. *)
Inductive wpc :=
  | EiIdle
  | EiL0
  | EiL1                (** [j = HIGH] *)
  | EiScan (j : nat)    (** the loop of step 1 *)
  | EiChk (j : nat)     (** the loop of step 2 *)
  | EiHigh              (** [control[HIGH] != DontWantIn], the load of [HIGH] *)
  | EiHigh2 (h : nat)   (** the load of [control[h]] *)
  | EiHigh3             (** [HIGH != id] *)
  | EiSet               (** [HIGH = id] *)
  | EiCs
  | EiExit (j : nat)    (** the loop of the exit protocol *)
  | EiExit2 (j : nat)   (** [HIGH = j] *)
  | EiExit3             (** [control[id] = DontWantIn] *).

(** ** Operations *)

Definition ctor (m : memory) : Prop := (∀ i, control m i = DontWantIn) ∧ HIGH m = 0.

Definition Worker (N : nat) (id : tid) (m : memory) (pc : wpc) : option (memory * wpc) :=
  match pc with
  | EiIdle | EiL0 => Some (Memory (<[id := WantIn]> (control m)) (HIGH m), EiL1)
  | EiL1 => Some (m, EiScan (HIGH m))
  | EiScan j =>
      if bool_decide (j = id) then Some (Memory (<[id := EnterCS]> (control m)) (HIGH m), EiChk 0)
      else v ← ld N (control m) j; Some (m, if bool_decide (v = DontWantIn) then EiScan (cycleUp j N) else EiL1)
  | EiChk j =>
      if bool_decide (j < N) then
        if bool_decide (j = id) then Some (m, EiChk (S j))
        else v ← ld N (control m) j; Some (m, if bool_decide (v = EnterCS) then EiL0 else EiChk (S j))
      else Some (m, EiHigh)
  | EiHigh => Some (m, EiHigh2 (HIGH m))
  | EiHigh2 h => v ← ld N (control m) h; Some (m, if bool_decide (v = DontWantIn) then EiSet else EiHigh3)
  | EiHigh3 => Some (m, if bool_decide (HIGH m = id) then EiSet else EiL0)
  | EiSet => Some (Memory (control m) id, EiCs)
  | EiCs => Some (m, EiExit (cycleUp (HIGH m + 1) N))
  | EiExit j => v ← ld N (control m) j; Some (m, if bool_decide (v = DontWantIn) then EiExit (cycleUp j N) else EiExit2 j)
  | EiExit2 j => Some (Memory (control m) j, EiExit3)
  | EiExit3 => Some (Memory (<[id := DontWantIn]> (control m)) (HIGH m), EiIdle)
  end.

Definition ei_phase (pc : wpc) : phase :=
  match pc with EiIdle => Idle | EiCs => Holding | EiExit _ | EiExit2 _ | EiExit3 => Unlocking | _ => Waiting end.

Definition algorithm (N : nat) : soft memory wpc := Soft ctor EiIdle (Worker N) ei_phase.

(** ** Exclusion *)

#[export] Instance ei_shape N : SoftShape (algorithm N).
Proof. split; [done|]. intros t m pc m' pc' Hw. by worker_inv Hw pc. Qed.

(** Behind step 1 until the end. *)
Definition enters (pc : wpc) : bool :=
  match pc with
  | EiChk _ | EiHigh | EiHigh2 _ | EiHigh3 | EiSet | EiCs | EiExit _ | EiExit2 _ | EiExit3 => true
  | _ => false
  end.

#[export] Instance ei_flags N : FlagLock N (algorithm N).
Proof.
  refine {|
    fl_up := λ m t, bool_decide (control m t = EnterCS);
    fl_raised := enters;
    fl_passed := λ _ pc u, match pc with EiChk j => bool_decide (u < j) | _ => enters pc end;
  |}; try done.
  - intros t u m pc m' pc' Hw Hne. worker_inv Hw pc; by simpl_fn.
  - intros t m pc m' pc' Hw Hup Hr. worker_inv Hw pc; simpl_fn; auto.
  - intros t pc u. by destruct pc.
  - intros t u m pc m' pc' Hw Hne Hlt Hp. worker_inv Hw pc; auto; try (destruct (decide (u = j)) as [->|]; (right; congruence) || (left; lia)).
  - intros t pc u. by destruct pc.
Defined.

Lemma ei_exclusive N : lock_exclusive (soft_mutex N (algorithm N)).
Proof. apply flag_exclusive, _. Qed.

(** ** Progress *)

Section progress.
Context (N : nat).
Local Abbreviation go := (go (algorithm N)).
Local Abbreviation reach := (reachable (sys := mutex_lts (H := soft_mutex N (algorithm N)))).

Record ei_ok (m : memory) (t : tid) (pc : wpc) : Prop := {
  eo_high : 0 < N → HIGH m < N;
  eo_index : match pc with EiScan j | EiHigh2 j | EiExit j | EiExit2 j => j < N | _ => True end;
  eo_control : match pc with
    | EiIdle => control m t = DontWantIn
    | EiL0 => control m t ≠ DontWantIn
    | EiL1 | EiScan _ => control m t = WantIn
    | _ => control m t = EnterCS
    end;
}.

Lemma ei_reach_ok s t : reach s → ei_ok (so_mem s) t (so_pcs s t).
Proof.
  intros Hr. revert t. eapply soft_local; [..|exact Hr]; clear s Hr.
  - intros m t (Hc & Ht). split; simpl; rewrite ?Ht; auto.
  - intros t m pc m' pc' Ht Hok Hw. worker_inv Hw pc; destruct Hok; split; simpl in *; simpl_fn; auto with lia; try (apply cycleUp_lt; lia); try congruence.
  - intros t u m pc m' pc' pcu Hne Ht Hok' Hw Hok. worker_inv Hw pc; destruct Hok, Hok'; split; simpl in *; simpl_fn; auto with lia.
Qed.

(** Nobody else enters. *)
Definition free (m : memory) (t : tid) : Prop := ∀ u, u < N → u ≠ t → control m u ≠ EnterCS.

(** Nobody between [j] and [t] wants in. *)
Inductive clear (f : nat → Intent) (t : tid) : nat → Prop :=
  | clear_here : clear f t t
  | clear_next j : j < N → j ≠ t → f j = DontWantIn → clear f t (cycleUp j N) → clear f t j.

Lemma ei_clear_frame f t v j : clear f t j → clear (<[t := v]> f) t j.
Proof. induction 1; [constructor|]. apply clear_next; [done..|by simpl_fn|done]. Qed.

Lemma ei_free_frame m t v h : free m t → free (Memory (<[t := v]> (control m)) h) t.
Proof. intros Hf u Hu Hne. simpl. simpl_fn. by apply Hf. Qed.

(** The first thread from [j] on that wants in. *)
Lemma ei_clear_first f t j : t < N → f t ≠ DontWantIn → j < N → ∃ u, u < N ∧ f u ≠ DontWantIn ∧ clear f u j.
Proof.
  intros Ht Hf. revert j. apply (cycle_ind N t); [done|by exists t; eauto using clear|].
  intros j Hj _ (u & Hu & Hfu & Hc). destruct (decide (f j = DontWantIn)) as [Hd|Hd]; [|by exists j; eauto using clear].
  exists u. split_and!; [done..|]. apply clear_next; [done|congruence|done..].
Qed.

Lemma ei_go_enter t m : HIGH m < N → control m (HIGH m) = DontWantIn ∨ HIGH m = t → go t (m, EiHigh) (Memory (control m) t, EiCs).
Proof.
  intros Hh Hc. eapply go_step; [done|]. assert (go t (m, EiSet) (Memory (control m) t, EiCs)) as Hset by by apply rtc_once.
  eapply go_step; [simpl; by rewrite ld_lt|]. simpl. case_bool_decide as Hd; [done|]. destruct Hc as [|Hc]; [done|].
  eapply go_step; [|exact Hset]. simpl. by rewrite bool_decide_true.
Qed.

Lemma ei_chk_end t m j : N ≤ j → so_worker (algorithm N) t m (EiChk j) = Some (m, EiHigh).
Proof. intros Hj. simpl. by rewrite bool_decide_false by lia. Qed.

Lemma ei_go_chk t m j : free m t → go t (m, EiChk j) (m, EiHigh).
Proof.
  intros Hf. eapply go_trans; [apply (go_loop _ t m EiChk j (max j N)); [lia|]|].
  - intros k Hk. simpl. rewrite bool_decide_true by lia. case_bool_decide; [done|]. rewrite ld_lt by lia. simpl.
    by rewrite bool_decide_false by (apply Hf; lia).
  - eapply go_step; [apply ei_chk_end; lia|apply rtc_refl].
Qed.

(** A thread with nobody before it. *)
Definition first (m : memory) (t : tid) : Prop := HIGH m < N ∧ free m t ∧ clear (control m) t (HIGH m).

Lemma ei_first_frame m t v : first m t → first (Memory (<[t := v]> (control m)) (HIGH m)) t.
Proof. intros (Hh & Hf & Hc). split_and!; [done|by apply ei_free_frame|by apply ei_clear_frame]. Qed.

Lemma ei_go_high t m : first m t → go t (m, EiHigh) (Memory (control m) t, EiCs).
Proof. intros (Hh & Hf & Hc). apply ei_go_enter; [done|]. destruct Hc; auto. Qed.

Lemma ei_go_step2 t m : first m t → go t (m, EiScan t) (Memory (<[t := EnterCS]> (control m)) t, EiCs).
Proof.
  intros Hm. eapply go_step; [simpl; by rewrite bool_decide_true|]. eapply go_trans; [apply ei_go_chk; by apply ei_free_frame, Hm|].
  exact (ei_go_high t _ (ei_first_frame m t EnterCS Hm)).
Qed.

Lemma ei_go_l1 t m : first m t → ∃ m', go t (m, EiL1) (m', EiCs).
Proof.
  intros Hm. pose proof Hm as (Hh & Hf & Hc). exists (Memory (<[t := EnterCS]> (control m)) t). eapply go_step; [done|].
  assert (go t (m, EiScan t) (Memory (<[t := EnterCS]> (control m)) t, EiCs)) as Hend by by apply ei_go_step2.
  clear Hh. induction Hc as [|j Hj Hne Hd _ IH]; [done|]. eapply go_step; [|exact IH].
  simpl. rewrite bool_decide_false, ld_lt by done. simpl. by rewrite Hd.
Qed.

Lemma ei_go_l0 t m : first m t → ∃ m', go t (m, EiL0) (m', EiCs).
Proof. intros Hm. destruct (ei_go_l1 t _ (ei_first_frame m t WantIn Hm)) as [m' Hgo]. exists m'. by eapply go_step. Qed.

(** Step 1 from anywhere in the loop. *)
Lemma ei_go_scan_in t m j : t < N → j < N → first m t → ∃ m', go t (m, EiScan j) (m', EiCs).
Proof.
  intros Ht Hj Hm. revert j Hj. apply (cycle_ind N t); [done| |].
  - eexists. by apply ei_go_step2.
  - intros j Hj Hne [m1 Hgo]. destruct (ei_go_l1 t m Hm) as [m2 Hgo2]. destruct (decide (control m j = DontWantIn)) as [Hd|Hd].
    + exists m1. eapply go_step; [|exact Hgo]. simpl. rewrite bool_decide_false, ld_lt by done. simpl. by rewrite bool_decide_true.
    + exists m2. eapply go_step; [|exact Hgo2]. simpl. rewrite bool_decide_false, ld_lt by done. simpl. by rewrite bool_decide_false.
Qed.

Lemma ei_go_in t m pc :
  t < N → (ei_phase pc = Idle ∨ ei_phase pc = Waiting) → ei_ok m t pc → first m t → ∃ m', go t (m, pc) (m', EiCs).
Proof.
  intros Ht Hp Hok Hm. destruct (ei_go_l0 t m Hm) as [m0 Hl0]. pose proof (eo_index _ _ _ Hok) as Hj.
  assert (∃ m', go t (m, EiSet) (m', EiCs)) as [m1 Hset] by (eexists; by apply rtc_once).
  assert (∃ m', go t (m, EiHigh3) (m', EiCs)) as [m3 Hh3].
  { destruct (decide (HIGH m = t)); [exists m1; eapply go_step; [|exact Hset]|exists m0; eapply go_step; [|exact Hl0]];
      simpl; by case_bool_decide. }
  destruct pc as [| | |j|j| |h| | | | | |]; simpl in *; try by destruct Hp.
  - destruct (ei_go_l1 t _ (ei_first_frame m t WantIn Hm)) as [m' Hgo]. exists m'. by eapply go_step.
  - by exists m0.
  - by apply ei_go_l1.
  - by apply ei_go_scan_in.
  - eexists. eapply go_trans; [apply ei_go_chk, Hm|by apply ei_go_high].
  - eexists. by apply ei_go_high.
  - destruct (decide (control m h = DontWantIn)); [exists m1; eapply go_step; [|exact Hset]|exists m3; eapply go_step; [|exact Hh3]];
      simpl; rewrite ld_lt by done; simpl; by case_bool_decide.
  - by exists m3.
  - by exists m1.
Qed.

Lemma ei_alone : soft_alone N (algorithm N).
Proof.
  intros s t Hr Ht%soft_step_lt Hidle Ho. assert (∀ u, u ≠ t → control (so_mem s) u = DontWantIn) as Hd.
  { intros u Hu. pose proof (eo_control _ _ _ (ei_reach_ok s u Hr)) as Hc. specialize (Hidle u Hu). by destruct (so_pcs s u). }
  pose proof (ei_reach_ok s t Hr) as Hok. assert (HIGH (so_mem s) < N) as Hh by (apply (eo_high _ _ _ Hok); lia).
  destruct (ei_go_in t (so_mem s) (so_pcs s t)) as [m' Hgo]; [done| |done| |].
  - destruct (so_pcs s t); simpl in *; auto; done.
  - split_and!; [done| |].
    + intros u _ Hu. by rewrite Hd.
    + revert Hh. generalize (HIGH (so_mem s)). apply (cycle_ind N t); [done|constructor|]. intros j Hj Hne. apply clear_next; auto.
  - by apply (go_solo N (algorithm N) t s m' EiCs (λ p, p = Holding)).
Qed.

(** The loop of the exit protocol stops at the latest at the thread itself. *)
Lemma ei_go_exit t m j : t < N → j < N → control m t = EnterCS → ∃ m', go t (m, EiExit j) (m', EiIdle).
Proof.
  intros Ht Hj Hc.
  assert (∀ k, k < N → control m k ≠ DontWantIn → ∃ m', go t (m, EiExit k) (m', EiIdle)) as Hstop.
  { intros k Hk Hne. eexists. eapply go_step; [simpl; by rewrite ld_lt|]. simpl. rewrite bool_decide_false by done.
    do 2 (eapply go_step; [done|]). apply rtc_refl. }
  revert j Hj. apply (cycle_ind N t); [done|by apply Hstop; rewrite ?Hc|].
  intros j Hj Hne [m' Hgo]. destruct (decide (control m j = DontWantIn)) as [Hd|]; [|by apply Hstop].
  exists m'. eapply go_step; [|exact Hgo]. simpl. rewrite ld_lt by done. simpl. by rewrite Hd.
Qed.

Lemma ei_release : soft_release N (algorithm N).
Proof.
  intros s t Hr Ho. assert (t < N) as Ht by (apply (soft_range _ _ s t Hr); intros Heq; by rewrite Heq in Ho).
  assert (∃ m', go t (so_mem s, so_pcs s t) (m', EiIdle)) as [m' Hgo].
  { pose proof (ei_reach_ok s t Hr) as [_ Hj Hc]. destruct (so_pcs s t); try done.
    - destruct (ei_go_exit t (so_mem s) (cycleUp (HIGH (so_mem s) + 1) N) Ht) as [m' Hgo]; [apply cycleUp_lt; lia|done|].
      exists m'. by eapply go_step.
    - by apply ei_go_exit.
    - eexists. do 2 (eapply go_step; [done|]). apply rtc_refl.
    - eexists. by apply rtc_once. }
  by apply (go_solo N (algorithm N) t s m' EiIdle (λ p, p = Idle)).
Qed.

(** A thread behind step 1 gets in, or goes back to [L0]. *)
Lemma ei_go_in_or_back t m pc :
  t < N → enters pc = true → owns (ei_phase pc) = false → ei_ok m t pc →
  (∃ m', go t (m, pc) (m', EiCs)) ∨ go t (m, pc) (m, EiL0).
Proof.
  intros Ht He Ho Hok. pose proof (eo_index _ _ _ Hok) as Hj. pose proof (eo_high _ _ _ Hok ltac:(lia)) as Hh.
  assert (∃ m', go t (m, EiSet) (m', EiCs)) as [m1 Hset] by (eexists; by apply rtc_once).
  assert (go t (m, EiHigh3) (m1, EiCs) ∨ go t (m, EiHigh3) (m, EiL0)) as Hh3.
  { destruct (decide (HIGH m = t)); [left; eapply go_step; [|exact Hset]|right; eapply go_step; [|apply rtc_refl]];
      simpl; by case_bool_decide. }
  assert (∀ h, h < N → go t (m, EiHigh2 h) (m1, EiCs) ∨ go t (m, EiHigh2 h) (m, EiL0)) as Hh2.
  { intros h Hlt. assert (go t (m, EiHigh2 h) (m, EiSet) ∨ go t (m, EiHigh2 h) (m, EiHigh3)) as [Hgo|Hgo].
    { destruct (decide (control m h = DontWantIn)); [left|right]; apply rtc_once; simpl; rewrite ld_lt by done; simpl;
        by case_bool_decide. }
    - left. by eapply go_trans.
    - destruct Hh3; [left|right]; by eapply go_trans. }
  assert (go t (m, EiHigh) (m1, EiCs) ∨ go t (m, EiHigh) (m, EiL0)) as Hh1.
  { destruct (Hh2 (HIGH m) Hh); [left|right]; by eapply go_step. }
  destruct pc as [| | |j|j| |h| | | | | |]; try done; [|destruct Hh1; eauto|destruct (Hh2 h Hj); eauto|destruct Hh3; eauto|by eauto].
  destruct (go_scan (algorithm N) t m EiChk EiL0 j (max j N)) as [Hgo|Hgo]; [lia| | |by right].
  - intros k Hk. simpl. rewrite bool_decide_true by lia. case_bool_decide; [by left|]. rewrite ld_lt by lia. simpl. case_bool_decide; auto.
  - assert (go t (m, EiChk j) (m, EiHigh)) as Hgo' by (eapply go_trans; [exact Hgo|]; apply rtc_once; apply ei_chk_end; lia).
    destruct Hh1; [left; exists m1|right]; by eapply go_trans.
Qed.

Lemma ei_live : soft_live N (algorithm N).
Proof.
  set (up := λ m : memory, λ u, bool_decide (control m u = EnterCS)).
  apply (soft_live_measure N (algorithm N) (λ m, flags N (up m))). intros s t Hr Hw Hno.
  assert (t < N) as Ht by (apply (soft_range _ _ s t Hr); by rewrite Hw).
  destruct (flags_last N (up (so_mem s))) as [Hall|(u & Hu & Hup & _)].
  - pose proof (ei_reach_ok s t Hr) as [Hh _ Hc]. specialize (Hh ltac:(lia)).
    destruct (ei_clear_first (control (so_mem s)) t (HIGH (so_mem s)) Ht) as (u & Hu & Hne & Hcl); [|done|].
    { destruct (so_pcs s t); try done; congruence. }
    destruct (ei_go_in u (so_mem s) (so_pcs s u)) as [m' Hgo]; [done| |by apply ei_reach_ok| |].
    + specialize (Hno u). pose proof (eo_control _ _ _ (ei_reach_ok s u Hr)). destruct (so_pcs s u); simpl in *; auto; done.
    + split_and!; [done| |done]. intros v Hv _. specialize (Hall v Hv). unfold up in Hall. by case_bool_decide.
    + exists u, m', EiCs. auto.
  - unfold up in Hup. apply bool_decide_eq_true in Hup. exists u. specialize (Hno u).
    pose proof (ei_reach_ok s u Hr) as Hok. pose proof (eo_control _ _ _ Hok) as Hc.
    assert ((∃ m', go u (so_mem s, so_pcs s u) (m', EiCs)) ∨ go u (so_mem s, so_pcs s u) (so_mem s, EiL0)) as [[m' Hgo]|Hgo].
    { destruct (so_pcs s u) as [| | |j|j| |h| | | | | |]; try congruence; try done; [right; apply rtc_refl|by apply ei_go_in_or_back..]. }
    + exists m', EiCs. auto.
    + exists (Memory (<[u := WantIn]> (control (so_mem s))) (HIGH (so_mem s))), EiL1. split_and!; [done|by eapply rtc_r|].
      right. split; [done|]. apply (flags_lower N _ _ u); unfold up; simpl; [done| |by apply bool_decide_eq_true|by simpl_fn].
      intros v Hv. by simpl_fn.
Qed.

Lemma ei_safe : soft_safe N (algorithm N).
Proof.
  apply soft_safe_intro; [apply _|]. intros s t Hr Ht Hp. pose proof (eo_index _ _ _ (ei_reach_ok s t Hr)) as Hj.
  destruct (so_pcs s t); simpl in *; repeat case_bool_decide; rewrite ?ld_lt by lia; simpl; eauto.
Qed.
End progress.
