(* ===== verification/Bakery.v ===== *)
(** * Lamport's bakery

    [C11/papers/cralgorithm/LamportBakeryC11.c].  A thread draws a ticket above all that it sees and
    waits for those with smaller tickets.  Tickets are [int]s that grow as long as
    threads overlap; the runs considered here make fewer than 2^31 calls. *)

From S2P Require Import Prelude Lts Mutex SoftLock.

Local Open Scope Z_scope.

(** ** Data *)

Record memory := Memory {
  choosing : nat → bool;
  ticket : nat → Z;
}.

(** Program points of [Worker], with the local variables that are alive. *)
Inductive wpc :=
  | BkIdle
  | BkMax (j : nat) (max : Z)       (** the search for the largest ticket *)
  | BkDone (max : Z)                (** [choosing[id] = 0] *)
  | BkWait (max : Z) (j : nat)      (** [while (choosing[j] == 1)] *)
  | BkZero (max : Z) (j : nat)      (** [ticket[j] != 0] *)
  | BkLess (max : Z) (j : nat)      (** [ticket[j] < max] *)
  | BkSame (max : Z) (j : nat)      (** [ticket[j] == max && j < id] *)
  | BkCs.

(** ** Operations *)

Definition ctor (m : memory) : Prop := ∀ i, choosing m i = false ∧ ticket m i = 0.

Definition Worker (N : nat) (id : tid) (m : memory) (pc : wpc) : option (memory * wpc) :=
  match pc with
  | BkIdle => Some (Memory (<[id := true]> (choosing m)) (ticket m), BkMax 0 0)
  | BkMax j max =>
      if bool_decide (j < N)%nat then
        v ← ld N (ticket m) j; Some (m, BkMax (S j) (if bool_decide (max < v) then v else max))
      else let max := s32 (max + 1) in Some (Memory (choosing m) (<[id := max]> (ticket m)), BkDone max)
  | BkDone max => Some (Memory (<[id := false]> (choosing m)) (ticket m), BkWait max 0)
  | BkWait max j =>
      if bool_decide (j < N)%nat then v ← ld N (choosing m) j; Some (m, if v : bool then BkWait max j else BkZero max j)
      else Some (m, BkCs)
  | BkZero max j => v ← ld N (ticket m) j; Some (m, if bool_decide (v = 0) then BkWait max (S j) else BkLess max j)
  | BkLess max j => v ← ld N (ticket m) j; Some (m, if bool_decide (v < max) then BkZero max j else BkSame max j)
  | BkSame max j =>
      v ← ld N (ticket m) j; Some (m, if bool_decide (v = max ∧ (j < id)%nat) then BkZero max j else BkWait max (S j))
  | BkCs => Some (Memory (choosing m) (<[id := 0]> (ticket m)), BkIdle)
  end.

Definition bk_phase (pc : wpc) : phase :=
  match pc with BkIdle => Idle | BkCs => Holding | _ => Waiting end.

Definition algorithm (N : nat) : soft memory wpc := Soft ctor BkIdle (Worker N) bk_phase.

#[export] Instance bk_shape N : SoftShape (algorithm N).
Proof. split; [done|]. intros t m pc m' pc' Hw. by worker_inv Hw pc. Qed.

Definition bakery (N : nat) : soft (memory * Z) wpc := limited (2 ^ 31 - 1) (algorithm N).

#[export] Instance bakery_shape N : SoftShape (bakery N).
Proof. apply limited_shape, _. Qed.

(** ** Invariant *)

(** Behind the test of [choosing[j]]. *)
Definition seen (pc : wpc) (j : nat) : bool :=
  match pc with
  | BkWait _ k => bool_decide (j < k)%nat
  | BkZero _ k | BkLess _ k | BkSame _ k => bool_decide (j ≤ k)%nat
  | BkCs => true
  | _ => false
  end.

(** Behind the tests of [ticket[j]] as well. *)
Definition passed (pc : wpc) (j : nat) : bool :=
  match pc with
  | BkWait _ k | BkZero _ k | BkLess _ k | BkSame _ k => bool_decide (j < k)%nat
  | BkCs => true
  | _ => false
  end.

(** What the memory says of a thread. *)
Definition bk_own (N : nat) (m : memory) (t : tid) (pc : wpc) : Prop :=
  match pc with
  | BkIdle => choosing m t = false ∧ ticket m t = 0
  | BkMax _ max => choosing m t = true ∧ ticket m t = 0 ∧ 0 ≤ max
  | BkDone max => choosing m t = true ∧ ticket m t = max ∧ 0 < max
  | BkWait max _ => choosing m t = false ∧ ticket m t = max ∧ 0 < max
  | BkZero max j | BkLess max j | BkSame max j => choosing m t = false ∧ ticket m t = max ∧ 0 < max ∧ (j < N)%nat
  | BkCs => choosing m t = false ∧ 0 < ticket m t
  end.

(** The order in which tickets are served. *)
Definition before (m : memory) (t u : tid) : Prop := ticket m t < ticket m u ∨ (ticket m t = ticket m u ∧ (t < u)%nat).

(** What [t] knows of [u]: a ticket that [u] draws after [t] has seen it not choosing is larger;
    when [t] has passed [u], it comes before [u]. *)
Record bk_pair (m : memory) (t u : tid) (pc pcu : wpc) : Prop := {
  bp_draws : seen pc u = true →
    match pcu with
    | BkMax k max => (t < k)%nat → ticket m t ≤ max
    | BkDone max => ticket m t < max
    | _ => True
    end;
  bp_same max : pc = BkSame max u → ticket m u ≠ 0 → ticket m t ≤ ticket m u;
  bp_passed : passed pc u = true → ticket m u ≠ 0 → before m t u;
}.

Definition draws (pc : wpc) : bool := match pc with BkMax _ _ => true | _ => false end.

(** Tickets stay in range: each thread that is choosing can still draw one. *)
Record bk_room (N : nat) (m : memory) (pcs : tid → wpc) (calls T : Z) : Prop := {
  br_ticket j : (j < N)%nat → ticket m j ≤ T;
  br_max t k max : pcs t = BkMax k max → max ≤ T;
  br_nonneg : 0 ≤ T;
  br_bound : T + flags N (λ t, draws (pcs t)) ≤ calls ≤ 2 ^ 31 - 1;
}.

Record bk_inv (N : nat) (s : soft_state (memory * Z) wpc) : Prop := {
  bi_own t : bk_own N (so_mem s).1 t (so_pcs s t);
  bi_pair t u : (t < N)%nat → (u < N)%nat → t ≠ u → bk_pair (so_mem s).1 t u (so_pcs s t) (so_pcs s u);
  bi_room : ∃ T, bk_room N (so_mem s).1 (so_pcs s) (so_mem s).2 T;
}.

Lemma bk_pair_weaken m t u pc pc' pcu :
  bk_pair m t u pc pcu → (seen pc' u = true → seen pc u = true) → (passed pc' u = true → passed pc u = true) →
  (∀ max, pc' ≠ BkSame max u) → bk_pair m t u pc' pcu.
Proof. intros [H1 H2 H3] Hs Hp Hn. split; [exact (λ Hq, H1 (Hs Hq))|intros max Heq; by destruct (Hn max)|exact (λ Hq, H3 (Hp Hq))]. Qed.

Section step.
Context (N : nat) (t : tid) (m m' : memory) (pc pc' : wpc).
Context (Ht : (t < N)%nat) (Hw : Worker N t m pc = Some (m', pc')).
Context (Hfit : ∀ k max, pc = BkMax k max → max < 2 ^ 31 - 1) (Hown : bk_own N m t pc).

Lemma bk_frame u : u ≠ t → choosing m' u = choosing m u ∧ ticket m' u = ticket m u.
Proof. intros Hne. clear Hown Hfit. worker_inv Hw pc; by simpl_fn. Qed.

Lemma bk_draw k max : pc = BkMax k max → s32 (max + 1) = max + 1.
Proof. intros Heq. specialize (Hfit k max Heq). rewrite Heq in Hown. destruct Hown as (_ & _ & ?). apply wrap_s_small; lia. Qed.

Lemma bk_step_own : bk_own N m' t pc'.
Proof.
  pose proof bk_draw as Hd. clear Hfit. unfold bk_own in Hown.
  worker_inv Hw pc; simpl; simpl_fn; rewrite ?(Hd _ _ eq_refl); split_and?; auto; lia.
Qed.

(** What [t] knows. *)
Lemma bk_step_self u pcu :
  u ≠ t → (u < N)%nat → bk_own N m u pcu → bk_pair m t u pc pcu → bk_pair m' t u pc' pcu.
Proof.
  intros Hne Hu Ho Hp. clear Hfit. unfold bk_own in Hown. destruct (decide (seen pc' u = false)) as [Hs|Hs].
  { split; [by rewrite Hs| |].
    - intros max ->. simpl in Hs. case_bool_decide; [done|lia].
    - intros Hq. exfalso. destruct pc'; simpl in *; try done; repeat case_bool_decide; try done; lia. }
  apply not_false_is_true in Hs. pose proof (bk_pair_weaken _ _ _ _ pc' _ Hp) as Hweak.
  worker_inv Hw pc; try done; try (by apply Hweak; lia || done);
    (destruct (decide (u = j)) as [->|Hj]; [clear Hweak|by apply Hweak; lia || congruence]).
  - split; [|done|intros Hq; simpl in Hq; case_bool_decide; [lia|done]]. intros _. destruct pcu; simpl in Ho; try done; destruct Ho; congruence.
  - split; [intros _; apply (bp_draws _ _ _ _ _ Hp); simpl; by rewrite bool_decide_true|done|intros _ ?; congruence].
  - split; [apply (bp_draws _ _ _ _ _ Hp)|intros; lia|apply (bp_passed _ _ _ _ _ Hp)].
  - split; [intros _; apply (bp_draws _ _ _ _ _ Hp); simpl; by rewrite bool_decide_true|done|].
    intros _ H0'. pose proof (bp_same _ _ _ _ _ Hp _ eq_refl H0'). unfold before. lia.
Qed.

(** What [u] knows of [t]. *)
Lemma bk_step_other u pcu :
  u ≠ t → (u < N)%nat → bk_pair m u t pcu pc → bk_pair m' u t pcu pc'.
Proof.
  intros Hne Hu [H1 H2 H3]. destruct (bk_frame u Hne) as [_ Htk]. pose proof bk_draw as Hd. clear Hfit. unfold bk_own in Hown.
  assert (seen pcu t = true → ticket m' t ≠ 0 → ticket m' t = ticket m t ∨ ticket m u < ticket m' t) as Hnew.
  { intros Hs. specialize (H1 Hs). clear H2 H3 Hs. worker_inv Hw pc; simpl_fn; rewrite ?(Hd _ _ eq_refl); auto; lia. }
  split; unfold before in *; rewrite Htk.
  - intros Hs. specialize (H1 Hs). clear H2 H3 Hnew Hs.
    worker_inv Hw pc; try done; rewrite ?(Hd _ _ eq_refl); try lia; intros ?; destruct (decide (u = j)) as [->|]; lia.
  - intros max Heq H0. assert (seen pcu t = true) as Hs by (rewrite Heq; simpl; by rewrite bool_decide_true).
    destruct (Hnew Hs H0) as [Hsame|]; [|lia]. rewrite Hsame in *. by apply (H2 max).
  - intros Hp H0. assert (seen pcu t = true) as Hs.
    { destruct pcu; simpl in *; try done; apply bool_decide_eq_true in Hp; apply bool_decide_eq_true; lia. }
    destruct (Hnew Hs H0) as [Hsame|]; [|by left]. rewrite Hsame in *. by apply H3.
Qed.

Lemma bk_step_bound T :
  (∀ j, (j < N)%nat → ticket m j ≤ T) → 0 ≤ T → (∀ k max, pc = BkMax k max → max ≤ T) →
  let T' := T + (if draws pc && negb (draws pc') then 1 else 0) in
  ticket m' t ≤ T' ∧ ∀ k max, pc' = BkMax k max → max ≤ T'.
Proof.
  intros Htk H0 Hm. pose proof bk_draw as Hd. pose proof (Htk t Ht). clear Hfit. unfold bk_own in Hown.
  worker_inv Hw pc; simpl_fn; rewrite ?(Hd _ _ eq_refl); (split; [|intros; simplify_eq]); try specialize (Hm _ _ eq_refl); try done; try lia.
  specialize (Htk j ltac:(lia)). lia.
Qed.

(** Only a call adds to the threads that draw. *)
Lemma bk_step_draws : draws pc' = true → draws pc = true ∨ pc = BkIdle.
Proof. clear Hfit Hown. worker_inv Hw pc; auto. Qed.
End step.

Section bakery.
Context (N : nat).
Local Abbreviation go := (go (bakery N)).
Local Abbreviation reach := (reachable (sys := mutex_lts (H := soft_mutex N (bakery N)))).

Lemma bk_room_fit m pcs calls T t :
  bk_room N m pcs calls T → (t < N)%nat → ∀ k max, pcs t = BkMax k max → max + 1 ≤ T + 1 ≤ 2 ^ 31 - 1.
Proof.
  intros [_ Hm _ Hb] Ht k max Heq. specialize (Hm t k max Heq).
  assert (0 < flags N (λ t, draws (pcs t)))%nat by (apply (flags_pos N _ t Ht); by rewrite Heq). lia.
Qed.

Lemma bk_step_room t m m' pcs pc' calls calls' T :
  bk_room N m pcs calls T → (t < N)%nat → Worker N t m (pcs t) = Some (m', pc') → bk_own N m t (pcs t) →
  calls' = (if decide (bk_phase (pcs t) = Idle) then calls + 1 else calls) → calls' ≤ 2 ^ 31 - 1 →
  ∃ T', bk_room N m' (<[t := pc']> pcs) calls' T'.
Proof.
  intros Hr Ht Hw Hown Hc Hle. pose proof (bk_room_fit _ _ _ _ t Hr Ht) as Hfit. destruct Hr as [Htk Hm H0 Hb].
  assert (∀ k max, pcs t = BkMax k max → max < 2 ^ 31 - 1) as Hf by (intros k max Hk; specialize (Hfit k max Hk); lia).
  destruct (bk_step_bound N t m m' (pcs t) pc' Ht Hw Hf Hown T Htk H0 (Hm t)) as [Hnew Hmax].
  pose proof (limited_draw N draws pcs t pc' (bk_phase (pcs t) = Idle) T calls Ht) as Hnum.
  set (T' := T + (if draws (pcs t) && negb (draws pc') then 1 else 0)) in *. assert (T ≤ T') by (unfold T'; destruct (_ && _); lia). exists T'. split.
  - intros j Hj. destruct (decide (j = t)) as [->|Hne]; [done|].
    rewrite (proj2 (bk_frame N t m m' (pcs t) pc' Hw j Hne)). specialize (Htk j Hj). lia.
  - intros u k max Hu. same_tid t u; [by apply (Hmax k)|]. specialize (Hm u k max Hu). lia.
  - lia.
  - split; [|lia]. subst calls'. apply Hnum; [|lia]. intros Hd.
    destruct (bk_step_draws N t m m' (pcs t) pc' Hw Hd) as [|Hi]; [by left|right]. by rewrite Hi.
Qed.

Lemma bk_inv_step s t m pc :
  bk_inv N s → (t < N)%nat → so_worker (bakery N) t (so_mem s) (so_pcs s t) = Some (m, pc) →
  bk_inv N (SoftState m (<[t := pc]> (so_pcs s))).
Proof.
  intros [Hown Hpair [T Hroom]] Ht (Hw & Hc & Hle)%limited_step.
  assert (∀ k max, so_pcs s t = BkMax k max → max < 2 ^ 31 - 1) as Hfit.
  { intros k max Hk. pose proof (bk_room_fit _ _ _ _ t Hroom Ht k max Hk). lia. }
  split; simpl.
  - intros u. same_tid t u; [by apply (bk_step_own _ _ _ _ _ _ Ht Hw Hfit)|]. pose proof (Hown u) as Hu.
    destruct (bk_frame N t _ _ _ _ Hw u) as [Hch Htk]; [done|]. unfold bk_own in *. by rewrite Hch, Htk.
  - intros u v Hu Hv Hne. same_tid t u.
    + simpl_fn. apply (bk_step_self N t _ _ _ _ Ht Hw (Hown t)); auto.
    + same_tid t v; [apply (bk_step_other N t _ _ _ _ Ht Hw Hfit (Hown t)); auto|].
      destruct (bk_frame N t _ _ _ _ Hw u) as [_ Htu]; [done|]. destruct (bk_frame N t _ _ _ _ Hw v) as [_ Htv]; [done|].
      destruct (Hpair u v Hu Hv Hne) as [H1 H2 H3]. split; unfold before in *; rewrite Htu, ?Htv; done.
  - by eapply bk_step_room.
Qed.

Lemma bk_reachable s : reach s → bk_inv N s.
Proof.
  apply soft_invariant; [|by intros; apply bk_inv_step]. intros [m c] [Hm Hc]. simpl in *. split; simpl.
  - intros t. apply Hm.
  - intros t u _ _ _. by split.
  - exists 0. split; try done.
    + intros j _. by rewrite (proj2 (Hm j)).
    + subst c. rewrite (flags_ext N (λ _, false)) by done.
      assert (flags N (λ _, false) = 0%nat) as -> by (by induction N; simpl; lia). lia.
Qed.

Lemma bk_exclusive : lock_exclusive (soft_mutex N (bakery N)).
Proof.
  intros s t u Hr Ht Hu. simpl in *. destruct (decide (t = u)) as [|Hne]; [done|]. exfalso.
  assert (∀ v, owns (bk_phase (so_pcs s v)) = true → (v < N)%nat ∧ so_pcs s v = BkCs) as Hcs.
  { intros v Hv. split; [|by destruct (so_pcs s v)]. apply (soft_range N (bakery N) s v Hr). simpl. by destruct (so_pcs s v). }
  destruct (Hcs t Ht) as [Htn Hpt], (Hcs u Hu) as [Hun Hpu]. destruct (bk_reachable s Hr) as [Hown Hpair _].
  pose proof (Hown t) as Ht'. pose proof (Hown u) as Hu'. rewrite Hpt in Ht'. rewrite Hpu in Hu'. simpl in *.
  pose proof (bp_passed _ _ _ _ _ (Hpair t u Htn Hun Hne)) as H1. pose proof (bp_passed _ _ _ _ _ (Hpair u t Hun Htn ltac:(done))) as H2.
  rewrite Hpt in H1. rewrite Hpu in H2. specialize (H1 eq_refl ltac:(lia)). specialize (H2 eq_refl ltac:(lia)). unfold before in *. lia.
Qed.

(** ** Progress *)

Lemma bk_calls s : reach s → (so_mem s).2 ≤ 2 ^ 31 - 1.
Proof. intros [_ _ [T [_ _ _ Hb]]]%bk_reachable. lia. Qed.

(** A step inside a call. *)
Lemma bk_go_call t m c pc m1 pc1 y :
  Worker N t m pc = Some (m1, pc1) → bk_phase pc ≠ Idle → c ≤ 2 ^ 31 - 1 → go t ((m1, c), pc1) y → go t ((m, c), pc) y.
Proof.
  intros Hw Hp Hc. apply go_step. simpl. rewrite decide_False, bool_decide_true, Hw by done. done.
Qed.

Lemma bk_go_draw t m c k max : c ≤ 2 ^ 31 - 1 →
  ∃ max', go t ((m, c), BkMax k max) ((Memory (<[t := false]> (choosing m)) (<[t := max']> (ticket m)), c), BkWait max' 0).
Proof.
  intros Hc. remember (N - k)%nat as d eqn:Hd. revert k max Hd. induction d as [|d IH]; intros k max Hd.
  - exists (s32 (max + 1)). eapply bk_go_call; [simpl; by rewrite bool_decide_false by lia|done..|].
    by eapply bk_go_call; [done..|apply rtc_refl].
  - destruct (IH (S k) (if bool_decide (max < ticket m k) then ticket m k else max)) as [max' Hgo]; [lia|].
    exists max'. eapply bk_go_call; [|done..|exact Hgo]. simpl. rewrite bool_decide_true by lia. by rewrite ld_lt by lia.
Qed.

(** Nobody draws, and [t] is the first in line. *)
Record bk_first (m : memory) (t : tid) (max : Z) : Prop := {
  bf_ticket : ticket m t = max ∧ 0 < max;
  bf_quiet j : (j < N)%nat → choosing m j = false;
  bf_before j : (j < N)%nat → j ≠ t → ticket m j ≠ 0 → max < ticket m j ∨ (max = ticket m j ∧ (t < j)%nat);
}.

Section first.
Context (t : tid) (m : memory) (c max : Z).
Context (Hc : c ≤ 2 ^ 31 - 1) (Hf : bk_first m t max).

Lemma bk_go_same j : (j < N)%nat → go t ((m, c), BkSame max j) ((m, c), BkWait max (S j)).
Proof.
  intros Hj. eapply bk_go_call; [simpl; by rewrite ld_lt|done..|]. simpl. rewrite bool_decide_false; [apply rtc_refl|].
  intros [Heq Hlt]. destruct (bf_ticket _ _ _ Hf). destruct (bf_before _ _ _ Hf j Hj); lia.
Qed.

Lemma bk_go_zero j : (j < N)%nat → go t ((m, c), BkZero max j) ((m, c), BkWait max (S j)).
Proof.
  intros Hj. destruct (decide (ticket m j = 0)) as [H0|H0].
  - eapply bk_go_call; [simpl; by rewrite ld_lt|done..|]. simpl. rewrite bool_decide_true by done. apply rtc_refl.
  - eapply bk_go_call; [simpl; by rewrite ld_lt|done..|]. simpl. rewrite bool_decide_false by done.
    eapply bk_go_call; [simpl; by rewrite ld_lt|done..|]. simpl. rewrite bool_decide_false; [by apply bk_go_same|].
    destruct (bf_ticket _ _ _ Hf). destruct (decide (j = t)) as [->|Hne]; [lia|]. destruct (bf_before _ _ _ Hf j Hj Hne H0); lia.
Qed.

Lemma bk_go_wait j : go t ((m, c), BkWait max j) ((m, c), BkCs).
Proof.
  remember (N - j)%nat as d eqn:Hd. revert j Hd. induction d as [|d IH]; intros j Hd.
  - eapply bk_go_call; [simpl; by rewrite bool_decide_false by lia|done..|apply rtc_refl].
  - eapply bk_go_call; [simpl; rewrite bool_decide_true by lia; by rewrite ld_lt by lia|done..|].
    simpl. rewrite (bf_quiet _ _ _ Hf) by lia. eapply go_trans; [apply bk_go_zero; lia|]. apply IH. lia.
Qed.

Lemma bk_go_first pc :
  match pc with BkWait n j => n = max | BkZero n j | BkLess n j | BkSame n j => n = max ∧ (j < N)%nat | _ => False end →
  go t ((m, c), pc) ((m, c), BkCs).
Proof.
  intros Hpc. assert (∀ j, (j < N)%nat → go t ((m, c), BkZero max j) ((m, c), BkCs)) as Hzero.
  { intros j Hj. eapply go_trans; [by apply bk_go_zero|apply bk_go_wait]. }
  assert (∀ j, (j < N)%nat → go t ((m, c), BkSame max j) ((m, c), BkCs)) as Hsame.
  { intros j Hj. eapply go_trans; [by apply bk_go_same|apply bk_go_wait]. }
  destruct pc as [| | |n j|n j|n j|n j|]; try done; destruct_and?; subst; auto using bk_go_wait.
  eapply bk_go_call; [simpl; by rewrite ld_lt|done..|]. simpl. case_bool_decide; auto.
Qed.
End first.

(** A thread that waits, seen from the first place. *)
Lemma bk_waits s t max :
  reach s → bk_first (so_mem s).1 t max → bk_phase (so_pcs s t) = Waiting → (t < N)%nat →
  go t (so_mem s, so_pcs s t) (so_mem s, BkCs).
Proof.
  intros Hr Hf Hw Ht. pose proof (bi_own _ _ (bk_reachable s Hr) t) as Ho. pose proof (bk_calls s Hr) as Hc.
  destruct (so_mem s) as [m c]. simpl in *. apply (bk_go_first t m c max Hc Hf). pose proof (bf_quiet _ _ _ Hf t Ht) as Hq.
  destruct (bf_ticket _ _ _ Hf) as [Htk _]. destruct (so_pcs s t); simpl in *; destruct_and?; try done; try congruence; split; congruence.
Qed.

Lemma bk_release : soft_release N (bakery N).
Proof.
  intros s t Hr Ho. assert (t < N)%nat as Ht by (apply (soft_range N (bakery N) s t Hr); intros Heq; by rewrite Heq in Ho).
  pose proof (bk_calls s Hr) as Hc. assert (so_pcs s t = BkCs) as Hpc by (simpl in Ho; by destruct (so_pcs s t)).
  destruct (so_mem s) as [m c] eqn:Hm. apply (go_solo N (bakery N) t s (Memory (choosing m) (<[t := 0]> (ticket m)), c) BkIdle (λ p, p = Idle)); [done| |done].
  rewrite Hpc, Hm. by eapply bk_go_call; [done..|apply rtc_refl].
Qed.

(** Whoever draws can finish; then the first in line gets in. *)
Lemma bk_live : soft_live N (bakery N).
Proof.
  apply (soft_live_measure N (bakery N) (λ m, flags N (choosing m.1))). intros s t Hr Hw Hno. simpl in *.
  assert (t < N)%nat as Ht by (apply (soft_range N (bakery N) s t Hr); simpl; by rewrite Hw).
  pose proof (bi_own _ _ (bk_reachable s Hr)) as Hown. pose proof (bk_calls s Hr) as Hc.
  destruct (flags_last N (choosing (so_mem s).1)) as [Hall|(u & Hu & Hup & _)].
  - destruct (least_key N (λ u, bool_decide (0 < ticket (so_mem s).1 u)) (ticket (so_mem s).1) t Ht) as (u & Hu & HPu & Hmin).
    { specialize (Hown t). specialize (Hall t Ht). apply bool_decide_eq_true.
      destruct (so_pcs s t); simpl in *; destruct_and?; try done; try lia; congruence. }
    apply bool_decide_eq_true in HPu. exists u, (so_mem s), BkCs. split_and!; [done| |by left].
    apply (bk_waits s u (ticket (so_mem s).1 u) Hr); [|specialize (Hown u); specialize (Hno u); specialize (Hall u Hu)|done].
    + split; [done|done|]. intros j Hj Hne H0. apply Hmin; [done| |done]. apply bool_decide_eq_true.
      specialize (Hown j). destruct (so_pcs s j); simpl in *; destruct_and?; lia.
    + destruct (so_pcs s u); simpl in *; destruct_and?; try done; lia.
  - exists u. specialize (Hown u). specialize (Hno u). destruct (so_mem s) as [m c]. simpl in *.
    assert (∀ pc n tk, go u ((m, c), pc) ((Memory (<[u := false]> (choosing m)) tk, c), BkWait n 0) → ∃ m' pc',
      (u < N)%nat ∧ go u ((m, c), pc) (m', pc') ∧
      (bk_phase pc' = Holding ∨ bk_phase pc' = Waiting ∧ (flags N (choosing m'.1) < flags N (choosing m))%nat)) as Hdone.
    { intros pc n tk Hgo. eexists _, _. split_and!; [done|exact Hgo|]. right. split; [done|]. simpl.
      apply (flags_lower N _ _ u); [done| |done|by simpl_fn]. intros v Hv. by simpl_fn. }
    destruct (so_pcs s u) as [|k max|max| | | | |]; simpl in *; destruct_and?; try congruence.
    + destruct (bk_go_draw u m c k max Hc) as [n Hgo]. by eapply Hdone.
    + eapply Hdone. by eapply bk_go_call; [done..|apply rtc_refl].
Qed.

(** A thread that competes with nobody. *)
Lemma bk_alone_waits s t :
  reach s → (t < N)%nat → (∀ u, u ≠ t → bk_phase (so_pcs s u) = Idle) → bk_phase (so_pcs s t) = Waiting →
  choosing (so_mem s).1 t = false → go t (so_mem s, so_pcs s t) (so_mem s, BkCs).
Proof.
  intros Hr Ht Hidle Hw Hch. pose proof (bi_own _ _ (bk_reachable s Hr)) as Hown.
  assert (∀ u, u ≠ t → choosing (so_mem s).1 u = false ∧ ticket (so_mem s).1 u = 0) as Hout.
  { intros u Hu. specialize (Hidle u Hu). specialize (Hown u). by destruct (so_pcs s u). }
  apply (bk_waits s t (ticket (so_mem s).1 t) Hr); [|done..]. split.
  - split; [done|]. specialize (Hown t). destruct (so_pcs s t); simpl in *; destruct_and?; try done; try lia; congruence.
  - intros j _. destruct (decide (j = t)) as [->|Hne]; [done|]. apply Hout, Hne.
  - intros j _ Hne H0. by destruct (Hout j Hne).
Qed.

Lemma bk_alone : soft_alone N (bakery N).
Proof.
  intros s t Hr Hen Hidle Ho. pose proof (soft_step_lt _ _ _ _ Hen) as Ht. simpl in *.
  set (P := λ s', bk_phase (so_pcs s' t) = Holding).
  assert (∀ s, reach s → (∀ u, u ≠ t → bk_phase (so_pcs s u) = Idle) → bk_phase (so_pcs s t) = Waiting →
    choosing (so_mem s).1 t = false → solo (M := soft_mutex N (bakery N)) t s P) as Hwait.
  { intros s1 Hr1 Hi1 Hw1 Hc1. apply (go_solo N (bakery N) t s1 (so_mem s1) BkCs (λ p, p = Holding)); [done| |done]. by apply bk_alone_waits. }
  assert (∀ m c n, go t (so_mem s, so_pcs s t) ((m, c), BkWait n 0) → choosing m t = false → solo (M := soft_mutex N (bakery N)) t s P) as Hstage.
  { intros m c n Hgo Hch. apply (go_stage N (bakery N) t s _ _ P Ht Hgo Hr). intros s' Hr' Hm' Hpc' Hother.
    apply Hwait; rewrite ?Hpc', ?Hm'; [done| |done..]. intros u Hu. rewrite Hother by done. by apply Hidle. }
  pose proof (bk_calls s Hr) as Hc. pose proof (bi_own _ _ (bk_reachable s Hr) t) as Hown.
  assert (∀ m c k max, so_mem s = (m, c) → go t (so_mem s, so_pcs s t) ((m, c), BkMax k max) → solo (M := soft_mutex N (bakery N)) t s P) as Hdraw.
  { intros m c k max Hm Hgo. rewrite Hm in Hc. destruct (bk_go_draw t m c k max Hc) as [n Hgo']. eapply Hstage; [by eapply go_trans|]. simpl. by simpl_fn. }
  destruct (so_pcs s t) as [|k max|max|n j|n j|n j|n j|] eqn:Hpc; simpl in *; try done.
  - unfold soft_step in Hen. rewrite bool_decide_true, Hpc in Hen by done. simpl in Hen.
    destruct (so_mem s) as [m c] eqn:Hm. simpl in *. case_bool_decide as Hlim; [|done].
    destruct (bk_go_draw t (Memory (<[t := true]> (choosing m)) (ticket m)) (c + 1) 0 0 Hlim) as [n Hgo].
    eapply Hstage; [eapply go_step; [simpl; by rewrite bool_decide_true|exact Hgo]|]. simpl. by simpl_fn.
  - destruct (so_mem s) as [m c] eqn:Hm. eapply Hdraw; [done|apply rtc_refl].
  - destruct (so_mem s) as [m c] eqn:Hm. eapply Hstage; [eapply bk_go_call; [done..|apply rtc_refl]|]. simpl. by simpl_fn.
  - apply Hwait; [done..|by rewrite Hpc|apply Hown].
  - apply Hwait; [done..|by rewrite Hpc|apply Hown].
  - apply Hwait; [done..|by rewrite Hpc|apply Hown].
  - apply Hwait; [done..|by rewrite Hpc|apply Hown].
Qed.

Lemma bk_safe : soft_safe N (bakery N).
Proof.
  apply soft_safe_intro; [apply _|]. intros s t Hr Ht Hp. destruct (bk_reachable s Hr) as [Hown _ [T Hroom]].
  apply limited_goes; [done|apply Hroom|]. specialize (Hown t).
  destruct (so_pcs s t); simpl in *; repeat case_bool_decide; rewrite ?ld_lt by lia; simpl; eauto.
Qed.
End bakery.
