(* ===== verification/Hehner.v ===== *)
(** * The algorithm of Hehner and Shyamasundar

    [C11/papers/cralgorithm/HehnerC11.c]: the bakery with one variable for each thread, in which
    the largest value stands for a thread that does not want in and 0 for one
    that is drawing.  Tickets are 64-bit; the runs considered here make at most
    2^63 - 2 calls. *)

From S2P Require Import Prelude Lts Mutex SoftLock.

Local Open Scope Z_scope.

(** ** Data *)

Definition MAX_TICKET : Z := 2 ^ 63 - 1.

(** [ticket]. *)
Abbreviation memory := (nat → Z).

(** Program points of [Worker], with the local variables that are alive. *)
Inductive wpc :=
  | HeIdle
  | HeMax (j : nat) (max : Z)       (** the search for the largest ticket *)
  | HeLess (max : Z) (j : nat)      (** [ticket[j] < max] *)
  | HeSame (max : Z) (j : nat)      (** [ticket[j] == max && j < id] *)
  | HeCs.

(** ** Operations *)

Definition ctor (ticket : memory) : Prop := ∀ i, ticket i = MAX_TICKET.

(** A ticket converted to [uint64_t]. *)
Definition load (N : nat) (ticket : memory) (j : nat) : option Z := v ← ld N ticket j; Some (u64 v).

Definition Worker (N : nat) (id : tid) (ticket : memory) (pc : wpc) : option (memory * wpc) :=
  match pc with
  | HeIdle => Some (<[id := 0]> ticket, HeMax 0 0)
  | HeMax j max =>
      if bool_decide (j < N)%nat then
        v ← load N ticket j; Some (ticket, HeMax (S j) (if bool_decide (max < v ∧ v ≠ MAX_TICKET) then v else max))
      else let max := u64 (max + 1) in Some (<[id := s64 max]> ticket, HeLess max 0)
  | HeLess max j =>
      if bool_decide (j < N)%nat then
        v ← load N ticket j; Some (ticket, if bool_decide (v < max) then HeLess max j else HeSame max j)
      else Some (ticket, HeCs)
  | HeSame max j =>
      v ← load N ticket j; Some (ticket, if bool_decide (v = max ∧ (j < id)%nat) then HeLess max j else HeLess max (S j))
  | HeCs => Some (<[id := MAX_TICKET]> ticket, HeIdle)
  end.

Definition he_phase (pc : wpc) : phase :=
  match pc with HeIdle => Idle | HeCs => Holding | _ => Waiting end.

Definition algorithm (N : nat) : soft memory wpc := Soft ctor HeIdle (Worker N) he_phase.

#[export] Instance he_shape N : SoftShape (algorithm N).
Proof. split; [done|]. intros t m pc m' pc' Hw. by worker_inv Hw pc. Qed.

Definition hehner (N : nat) : soft (memory * Z) wpc := limited (2 ^ 63 - 2) (algorithm N).

#[export] Instance hehner_shape N : SoftShape (hehner N).
Proof. apply limited_shape, _. Qed.

(** ** Invariant *)

(** Behind the first test of [ticket[j]], at least for this round of the loop. *)
Definition seen (pc : wpc) (j : nat) : bool :=
  match pc with
  | HeLess _ k => bool_decide (j < k)%nat
  | HeSame _ k => bool_decide (j ≤ k)%nat
  | HeCs => true
  | _ => false
  end.

(** Behind both tests. *)
Definition passed (pc : wpc) (j : nat) : bool :=
  match pc with
  | HeLess _ k | HeSame _ k => bool_decide (j < k)%nat
  | HeCs => true
  | _ => false
  end.

(** A thread that has drawn. *)
Definition drawn (ticket : memory) (t : tid) : Prop := 0 < ticket t < MAX_TICKET.

(** What the memory says of a thread. *)
Definition he_own (N : nat) (ticket : memory) (t : tid) (pc : wpc) : Prop :=
  match pc with
  | HeIdle => ticket t = MAX_TICKET
  | HeMax _ max => ticket t = 0 ∧ 0 ≤ max
  | HeLess max _ => ticket t = max ∧ drawn ticket t
  | HeSame max j => ticket t = max ∧ drawn ticket t ∧ (j < N)%nat
  | HeCs => drawn ticket t
  end.

Lemma he_range N ticket t pc : he_own N ticket t pc → 0 ≤ ticket t ≤ MAX_TICKET.
Proof. assert (0 < MAX_TICKET) by done. unfold he_own, drawn. destruct pc; lia. Qed.

(** The order in which tickets are served. *)
Definition before (ticket : memory) (t u : tid) : Prop := ticket t < ticket u ∨ (ticket t = ticket u ∧ (t < u)%nat).

(** What [t] knows of [u]: a ticket that [u] draws after [t] has looked is larger;
    when [t] has passed [u], it comes before [u]. *)
Record he_pair (ticket : memory) (t u : tid) (pc pcu : wpc) : Prop := {
  hp_draws : seen pc u = true → match pcu with HeMax k max => (t < k)%nat → ticket t ≤ max | _ => True end;
  hp_same max : pc = HeSame max u → drawn ticket u → ticket t ≤ ticket u;
  hp_passed : passed pc u = true → drawn ticket u → before ticket t u;
}.

Lemma he_pair_weaken m t u pc pc' pcu :
  he_pair m t u pc pcu → (seen pc' u = true → seen pc u = true) → (passed pc' u = true → passed pc u = true) →
  (∀ max, pc' ≠ HeSame max u) → he_pair m t u pc' pcu.
Proof. intros [H1 H2 H3] Hs Hp Hn. split; [exact (λ Hq, H1 (Hs Hq))|intros max Heq; by destruct (Hn max)|exact (λ Hq, H3 (Hp Hq))]. Qed.

Lemma he_load_Some N (m : memory) j v :
  (∀ j, (j < N)%nat → 0 ≤ m j ≤ MAX_TICKET) → load N m j = Some v → (j < N)%nat ∧ m j = v.
Proof.
  intros Hrange. unfold load. destruct (ld N m j) as [w|] eqn:Hl; [|done]. intros [= <-]. apply ld_Some in Hl as [Hj <-].
  split; [done|]. symmetry. specialize (Hrange j Hj). assert (MAX_TICKET < 2 ^ 64) by done. apply wrap_u_small. lia.
Qed.

Definition draws (pc : wpc) : bool := match pc with HeMax _ _ => true | _ => false end.

(** Tickets stay in range: each thread that is drawing can still get one. *)
Record he_room (N : nat) (m : memory) (pcs : tid → wpc) (calls T : Z) : Prop := {
  hr_ticket j : (j < N)%nat → m j ≤ T ∨ m j = MAX_TICKET;
  hr_max t k max : pcs t = HeMax k max → max ≤ T;
  hr_nonneg : 0 ≤ T;
  hr_bound : T + flags N (λ t, draws (pcs t)) ≤ calls ≤ 2 ^ 63 - 2;
}.

Record he_inv (N : nat) (s : soft_state (memory * Z) wpc) : Prop := {
  hi_own t : he_own N (so_mem s).1 t (so_pcs s t);
  hi_pair t u : (t < N)%nat → (u < N)%nat → t ≠ u → he_pair (so_mem s).1 t u (so_pcs s t) (so_pcs s u);
  hi_room : ∃ T, he_room N (so_mem s).1 (so_pcs s) (so_mem s).2 T;
}.

Section step.
Context (N : nat) (t : tid) (m m' : memory) (pc pc' : wpc).
Context (Ht : (t < N)%nat) (Hw : Worker N t m pc = Some (m', pc')).
Context (Hfit : ∀ k max, pc = HeMax k max → max < 2 ^ 63 - 2) (Hown : he_own N m t pc).
Context (Hrange : ∀ j, (j < N)%nat → 0 ≤ m j ≤ MAX_TICKET).

Lemma he_frame u : u ≠ t → m' u = m u.
Proof. intros Hne. clear Hown Hfit Hrange. worker_inv Hw pc; by simpl_fn. Qed.

Lemma he_draw k max : pc = HeMax k max → u64 (max + 1) = max + 1 ∧ s64 (max + 1) = max + 1 ∧ 0 < max + 1 < MAX_TICKET.
Proof.
  intros Heq. specialize (Hfit k max Heq). rewrite Heq in Hown. destruct Hown as (_ & ?). assert (MAX_TICKET = 2 ^ 63 - 1) by done.
  split_and!; [apply wrap_u_small; lia|apply wrap_s_small; lia|lia|lia].
Qed.

Ltac he_cases :=
  worker_inv Hw pc; repeat match goal with H : load _ _ _ = Some _ |- _ => apply he_load_Some in H as [? ?]; [|done] end.

Lemma he_step_own : he_own N m' t pc'.
Proof.
  pose proof he_draw as Hd. clear Hfit. unfold he_own, drawn in *.
  he_cases; simpl; simpl_fn; try destruct (Hd _ _ eq_refl) as (-> & -> & ?); split_and?; auto; try lia; done.
Qed.

(** What [t] knows. *)
Lemma he_step_self u pcu :
  u ≠ t → (u < N)%nat → he_own N m u pcu → he_pair m t u pc pcu → he_pair m' t u pc' pcu.
Proof.
  intros Hne Hu Ho Hp. clear Hfit. unfold he_own in Hown. destruct (decide (seen pc' u = false)) as [Hs|Hs].
  { split; [by rewrite Hs| |].
    - intros max ->. simpl in Hs. case_bool_decide; [done|lia].
    - intros Hq. exfalso. destruct pc'; simpl in *; try done; repeat case_bool_decide; try done; lia. }
  apply not_false_is_true in Hs. pose proof (he_pair_weaken _ _ _ _ pc' _ Hp) as Hweak.
  he_cases; try done; try (by apply Hweak; lia || done);
    (destruct (decide (u = j)) as [->|Hj]; [clear Hweak|by apply Hweak; lia || congruence]).
  - split; [|intros; lia|apply (hp_passed _ _ _ _ _ Hp)]. intros _. unfold drawn in *. destruct pcu; simpl in Ho; try done; lia.
  - split; [intros _; apply (hp_draws _ _ _ _ _ Hp); simpl; by rewrite bool_decide_true|done|].
    intros _ H0'. pose proof (hp_same _ _ _ _ _ Hp _ eq_refl H0'). unfold before. lia.
Qed.

(** What [u] knows of [t]. *)
Lemma he_step_other u pcu :
  u ≠ t → (u < N)%nat → he_own N m u pcu → he_pair m u t pcu pc → he_pair m' u t pcu pc'.
Proof.
  intros Hne Hu Ho [H1 H2 H3]. pose proof (he_frame u Hne) as Htk. pose proof he_draw as Hd. clear Hfit. unfold he_own in Hown.
  assert (seen pcu t = true → drawn m' t → drawn m t ∧ m' t = m t ∨ m u < m' t) as Hnew.
  { intros Hs. specialize (H1 Hs). clear H2 H3 Hs Ho. unfold drawn. he_cases; simpl_fn; try destruct (Hd _ _ eq_refl) as (-> & -> & ?); auto; lia. }
  split; unfold before in *; rewrite Htk.
  - intros Hs. specialize (H1 Hs). assert (m u ≠ MAX_TICKET) as Hmax.
    { unfold he_own, drawn in Ho. destruct pcu; simpl in Hs; try done; lia. }
    clear H2 H3 Hnew Hs Ho. he_cases; try done; try lia; intros ?; destruct (decide (u = j)) as [->|]; lia.
  - intros max Heq H0. assert (seen pcu t = true) as Hs by (rewrite Heq; simpl; by rewrite bool_decide_true).
    destruct (Hnew Hs H0) as [[Hdr Hsame]|]; [|lia]. rewrite Hsame in *. by apply (H2 max).
  - intros Hp H0. assert (seen pcu t = true) as Hs.
    { destruct pcu; simpl in *; try done; apply bool_decide_eq_true in Hp; apply bool_decide_eq_true; lia. }
    destruct (Hnew Hs H0) as [[Hdr Hsame]|]; [|by left]. rewrite Hsame in *. by apply H3.
Qed.

Lemma he_step_bound T :
  (∀ j, (j < N)%nat → m j ≤ T ∨ m j = MAX_TICKET) → 0 ≤ T → (∀ k max, pc = HeMax k max → max ≤ T) →
  let T' := T + (if draws pc && negb (draws pc') then 1 else 0) in
  (m' t ≤ T' ∨ m' t = MAX_TICKET) ∧ ∀ k max, pc' = HeMax k max → max ≤ T'.
Proof.
  intros Htk H0 Hm. pose proof he_draw as Hd. pose proof (Htk t Ht). clear Hfit. unfold he_own in Hown.
  he_cases; simpl_fn; try destruct (Hd _ _ eq_refl) as (-> & -> & ?); (split; [|intros; simplify_eq]);
    try specialize (Hm _ _ eq_refl); auto; try (left; lia); try lia.
  destruct (Htk j ltac:(lia)); lia.
Qed.

(** Only a call adds to the threads that draw. *)
Lemma he_step_draws : draws pc' = true → draws pc = true ∨ pc = HeIdle.
Proof. clear Hfit Hown Hrange. worker_inv Hw pc; auto. Qed.
End step.

Section hehner.
Context (N : nat).
Local Abbreviation go := (go (hehner N)).
Local Abbreviation reach := (reachable (sys := mutex_lts (H := soft_mutex N (hehner N)))).

Lemma he_room_fit m pcs calls T t :
  he_room N m pcs calls T → (t < N)%nat → ∀ k max, pcs t = HeMax k max → max + 1 ≤ T + 1 ≤ 2 ^ 63 - 2.
Proof.
  intros [_ Hm _ Hb] Ht k max Heq. specialize (Hm t k max Heq).
  assert (0 < flags N (λ t, draws (pcs t)))%nat by (apply (flags_pos N _ t Ht); by rewrite Heq). lia.
Qed.

Lemma he_step_room t m m' pcs pc' calls calls' T :
  he_room N m pcs calls T → (t < N)%nat → Worker N t m (pcs t) = Some (m', pc') → he_own N m t (pcs t) →
  (∀ j, (j < N)%nat → 0 ≤ m j ≤ MAX_TICKET) →
  calls' = (if decide (he_phase (pcs t) = Idle) then calls + 1 else calls) → calls' ≤ 2 ^ 63 - 2 →
  ∃ T', he_room N m' (<[t := pc']> pcs) calls' T'.
Proof.
  intros Hr Ht Hw Hown Hrg Hc Hle. pose proof (he_room_fit _ _ _ _ t Hr Ht) as Hfit. destruct Hr as [Htk Hm H0 Hb].
  assert (∀ k max, pcs t = HeMax k max → max < 2 ^ 63 - 2) as Hf by (intros k max Hk; specialize (Hfit k max Hk); lia).
  destruct (he_step_bound N t m m' (pcs t) pc' Ht Hw Hf Hown Hrg T Htk H0 (Hm t)) as [Hnew Hmax].
  pose proof (limited_draw N draws pcs t pc' (he_phase (pcs t) = Idle) T calls Ht) as Hnum.
  set (T' := T + (if draws (pcs t) && negb (draws pc') then 1 else 0)) in *. assert (T ≤ T') by (unfold T'; destruct (_ && _); lia). exists T'. split.
  - intros j Hj. destruct (decide (j = t)) as [->|Hne]; [done|].
    rewrite (he_frame N t m m' (pcs t) pc' Hw j Hne). destruct (Htk j Hj); [left; lia|by right].
  - intros u k max Hu. same_tid t u; [by apply (Hmax k)|]. specialize (Hm u k max Hu). lia.
  - lia.
  - split; [|lia]. subst calls'. apply Hnum; [|lia]. intros Hd.
    destruct (he_step_draws N t m m' (pcs t) pc' Hw Hd) as [|Hi]; [by left|right]. by rewrite Hi.
Qed.

Lemma he_inv_step s t m pc :
  he_inv N s → (t < N)%nat → so_worker (hehner N) t (so_mem s) (so_pcs s t) = Some (m, pc) →
  he_inv N (SoftState m (<[t := pc]> (so_pcs s))).
Proof.
  intros [Hown Hpair [T Hroom]] Ht (Hw & Hc & Hle)%limited_step.
  assert (∀ k max, so_pcs s t = HeMax k max → max < 2 ^ 63 - 2) as Hfit.
  { intros k max Hk. pose proof (he_room_fit _ _ _ _ t Hroom Ht k max Hk). lia. }
  assert (∀ j, (j < N)%nat → 0 ≤ (so_mem s).1 j ≤ MAX_TICKET) as Hrg by (intros j _; by eapply he_range).
  split; simpl.
  - intros u. same_tid t u; [by apply (he_step_own _ _ _ _ _ _ Ht Hw Hfit)|]. pose proof (Hown u) as Hu.
    unfold he_own, drawn in *. by rewrite (he_frame N t _ _ _ _ Hw u).
  - intros u v Hu Hv Hne. same_tid t u.
    + simpl_fn. apply (he_step_self N t _ _ _ _ Ht Hw (Hown t) Hrg); auto.
    + same_tid t v; [apply (he_step_other N t _ _ _ _ Ht Hw Hfit (Hown t) Hrg); auto|].
      destruct (Hpair u v Hu Hv Hne) as [H1 H2 H3].
      split; unfold before, drawn in *; rewrite (he_frame N t _ _ _ _ Hw u), ?(he_frame N t _ _ _ _ Hw v) by done; done.
  - by eapply he_step_room.
Qed.

Lemma he_reachable s : reach s → he_inv N s.
Proof.
  apply soft_invariant; [|by intros; apply he_inv_step]. intros [m c] [Hm Hc]. simpl in *. split; simpl.
  - intros t. apply Hm.
  - intros t u _ _ _. by split.
  - exists 0. split; try done.
    + intros j _. right. apply Hm.
    + subst c. rewrite (flags_ext N (λ _, false)) by done.
      assert (flags N (λ _, false) = 0%nat) as -> by (by induction N; simpl; lia). lia.
Qed.

Lemma he_exclusive : lock_exclusive (soft_mutex N (hehner N)).
Proof.
  intros s t u Hr Ht Hu. simpl in *. destruct (decide (t = u)) as [|Hne]; [done|]. exfalso.
  assert (∀ v, owns (he_phase (so_pcs s v)) = true → (v < N)%nat ∧ so_pcs s v = HeCs) as Hcs.
  { intros v Hv. split; [|by destruct (so_pcs s v)]. apply (soft_range N (hehner N) s v Hr). simpl. by destruct (so_pcs s v). }
  destruct (Hcs t Ht) as [Htn Hpt], (Hcs u Hu) as [Hun Hpu]. destruct (he_reachable s Hr) as [Hown Hpair _].
  pose proof (Hown t) as Ht'. pose proof (Hown u) as Hu'. rewrite Hpt in Ht'. rewrite Hpu in Hu'. simpl in *.
  pose proof (hp_passed _ _ _ _ _ (Hpair t u Htn Hun Hne)) as H1. pose proof (hp_passed _ _ _ _ _ (Hpair u t Hun Htn ltac:(done))) as H2.
  rewrite Hpt in H1. rewrite Hpu in H2. specialize (H1 eq_refl Hu'). specialize (H2 eq_refl Ht'). unfold before in *. lia.
Qed.

(** ** Progress *)

Lemma he_calls s : reach s → (so_mem s).2 ≤ 2 ^ 63 - 2.
Proof. intros [_ _ [T [_ _ _ Hb]]]%he_reachable. lia. Qed.

(** A step inside a call. *)
Lemma he_go_call t m c pc m1 pc1 y :
  Worker N t m pc = Some (m1, pc1) → he_phase pc ≠ Idle → c ≤ 2 ^ 63 - 2 → go t ((m1, c), pc1) y → go t ((m, c), pc) y.
Proof.
  intros Hw Hp Hc. apply go_step. simpl. rewrite decide_False, bool_decide_true, Hw by done. done.
Qed.

Lemma he_load_lt (m : memory) j : (∀ j, (j < N)%nat → 0 ≤ m j ≤ MAX_TICKET) → (j < N)%nat → load N m j = Some (m j).
Proof.
  intros Hrg Hj. unfold load. rewrite ld_lt by done. simpl. f_equal. specialize (Hrg j Hj).
  assert (MAX_TICKET < 2 ^ 64) by done. apply wrap_u_small. lia.
Qed.

Lemma he_go_draw t m c k max : c ≤ 2 ^ 63 - 2 → (∀ j, (j < N)%nat → 0 ≤ m j ≤ MAX_TICKET) →
  ∃ max', go t ((m, c), HeMax k max) ((<[t := s64 max']> m, c), HeLess max' 0).
Proof.
  intros Hc Hrg. remember (N - k)%nat as d eqn:Hd. revert k max Hd. induction d as [|d IH]; intros k max Hd.
  - exists (u64 (max + 1)). eapply he_go_call; [simpl; by rewrite bool_decide_false by lia|done..|apply rtc_refl].
  - destruct (IH (S k) (if bool_decide (max < m k ∧ m k ≠ MAX_TICKET) then m k else max)) as [max' Hgo]; [lia|].
    exists max'. eapply he_go_call; [|done..|exact Hgo]. simpl. rewrite bool_decide_true by lia. by rewrite he_load_lt by (done || lia).
Qed.

(** Nobody draws, and [t] is the first in line. *)
Record he_first (m : memory) (t : tid) (max : Z) : Prop := {
  hf_ticket : m t = max ∧ 0 < max;
  hf_range j : (j < N)%nat → 0 ≤ m j ≤ MAX_TICKET;
  hf_before j : (j < N)%nat → j ≠ t → max < m j ∨ (max = m j ∧ (t < j)%nat);
}.

Section first.
Context (t : tid) (m : memory) (c max : Z).
Context (Hc : c ≤ 2 ^ 63 - 2) (Hf : he_first m t max).

Lemma he_go_same j : (j < N)%nat → go t ((m, c), HeSame max j) ((m, c), HeLess max (S j)).
Proof.
  intros Hj. eapply he_go_call; [simpl; by rewrite he_load_lt by (done || apply Hf)|done..|]. simpl. rewrite bool_decide_false; [apply rtc_refl|].
  intros [Heq Hlt]. destruct (hf_before _ _ _ Hf j Hj); lia.
Qed.

Lemma he_go_less j : go t ((m, c), HeLess max j) ((m, c), HeCs).
Proof.
  remember (N - j)%nat as d eqn:Hd. revert j Hd. induction d as [|d IH]; intros j Hd.
  - eapply he_go_call; [simpl; by rewrite bool_decide_false by lia|done..|apply rtc_refl].
  - eapply he_go_call; [simpl; rewrite bool_decide_true by lia; by rewrite he_load_lt by (lia || apply Hf)|done..|].
    simpl. rewrite bool_decide_false.
    + eapply go_trans; [apply he_go_same; lia|]. apply IH. lia.
    + destruct (hf_ticket _ _ _ Hf). destruct (decide (j = t)) as [->|Hne]; [lia|]. destruct (hf_before _ _ _ Hf j ltac:(lia) Hne); lia.
Qed.
End first.

(** A thread that waits, seen from the first place. *)
Lemma he_waits s t :
  reach s → he_first (so_mem s).1 t ((so_mem s).1 t) → he_phase (so_pcs s t) = Waiting → go t (so_mem s, so_pcs s t) (so_mem s, HeCs).
Proof.
  intros Hr Hf Hw. pose proof (hi_own _ _ (he_reachable s Hr) t) as Ho. pose proof (he_calls s Hr) as Hc.
  destruct (hf_ticket _ _ _ Hf) as [_ Hpos]. destruct (so_mem s) as [m c]. simpl in *.
  destruct (so_pcs s t) as [|k max|max j|max j|]; simpl in *; destruct_and?; try done; try lia; subst max.
  - by apply he_go_less.
  - eapply go_trans; [by apply he_go_same|by apply he_go_less].
Qed.

Lemma he_release : soft_release N (hehner N).
Proof.
  intros s t Hr Ho. assert (t < N)%nat as Ht by (apply (soft_range N (hehner N) s t Hr); intros Heq; by rewrite Heq in Ho).
  pose proof (he_calls s Hr) as Hc. assert (so_pcs s t = HeCs) as Hpc by (simpl in Ho; by destruct (so_pcs s t)).
  destruct (so_mem s) as [m c] eqn:Hm. apply (go_solo N (hehner N) t s (<[t := MAX_TICKET]> m, c) HeIdle (λ p, p = Idle)); [done| |done].
  rewrite Hpc, Hm. by eapply he_go_call; [done..|apply rtc_refl].
Qed.

Lemma he_ranges s : reach s → ∀ j, (j < N)%nat → 0 ≤ (so_mem s).1 j ≤ MAX_TICKET.
Proof. intros Hr j _. eapply he_range. apply (hi_own _ _ (he_reachable s Hr)). Qed.

(** A thread that draws gets a ticket. *)
Lemma he_draws s t k max :
  reach s → (t < N)%nat → so_pcs s t = HeMax k max → ∃ n, 0 < n ∧
    go t (so_mem s, so_pcs s t) ((<[t := n]> (so_mem s).1, (so_mem s).2), HeLess n 0).
Proof.
  intros Hr Ht Hpc. destruct (he_go_draw t (so_mem s).1 (so_mem s).2 k max (he_calls s Hr) (he_ranges s Hr)) as [n Hgo].
  rewrite <-Hpc, <-surjective_pairing in Hgo. destruct (go_run N (hehner N) t s _ _ Ht Hgo) as (ls & s' & Hrun & Hm & Hpc' & _).
  assert (reach s') as Hr' by by eapply run_reachable. pose proof (hi_own _ _ (he_reachable s' Hr') t) as Hown.
  rewrite Hpc', Hm in Hown. simpl in Hown. unfold drawn in Hown. rewrite fn_lookup_insert in Hown. destruct Hown as [Heq Hd].
  exists n. rewrite Heq in *. split; [lia|done].
Qed.

(** Whoever draws can finish; then the first in line gets in. *)
Lemma he_live : soft_live N (hehner N).
Proof.
  set (zero := λ m : memory, λ u, bool_decide (m u = 0)).
  apply (soft_live_measure N (hehner N) (λ m, flags N (zero m.1))). intros s t Hr Hw Hno. simpl in *.
  assert (t < N)%nat as Ht by (apply (soft_range N (hehner N) s t Hr); simpl; by rewrite Hw).
  pose proof (hi_own _ _ (he_reachable s Hr)) as Hown.
  destruct (flags_last N (zero (so_mem s).1)) as [Hall|(u & Hu & Hup & _)].
  - assert (∀ j, (j < N)%nat → (so_mem s).1 j ≠ 0) as Hpos.
    { intros j Hj. specialize (Hall j Hj). unfold zero in Hall. by case_bool_decide. }
    destruct (least_key N (λ u, bool_decide (he_phase (so_pcs s u) = Waiting)) (so_mem s).1 t Ht) as (u & Hu & HPu & Hmin).
    { by apply bool_decide_eq_true. }
    apply bool_decide_eq_true in HPu. exists u, (so_mem s), HeCs. split_and!; [done| |by left]. apply (he_waits s u Hr); [|done].
    pose proof (he_ranges s Hr) as Hrg. split; [split; [done|]; specialize (Hrg u Hu); specialize (Hpos u Hu); lia|done|].
    intros j Hj Hne. destruct (decide (he_phase (so_pcs s j) = Waiting)) as [Hj'|Hj'].
    + apply Hmin; [done|by apply bool_decide_eq_true|done].
    + left. assert ((so_mem s).1 j = MAX_TICKET) as ->.
      { specialize (Hno j). specialize (Hown j). by destruct (so_pcs s j). }
      specialize (Hown u). specialize (Hpos u Hu). destruct (so_pcs s u); simpl in *; unfold drawn in *; try done; lia.
  - unfold zero in Hup. apply bool_decide_eq_true in Hup. exists u. specialize (Hown u). specialize (Hno u).
    destruct (so_pcs s u) as [|k max|max j|max j|] eqn:Hpc; simpl in Hown; unfold drawn in Hown; rewrite ?Hup in Hown; try lia; [done|].
    destruct (he_draws s u k max Hr Hu Hpc) as (n & Hn & Hgo). rewrite Hpc in Hgo. eexists _, _. split_and!; [done|exact Hgo|].
    right. split; [done|]. apply (flags_lower N _ _ u); unfold zero; simpl; [done| |by apply bool_decide_eq_true|].
    + intros v Hv. by simpl_fn.
    + rewrite fn_lookup_insert. apply bool_decide_eq_false. lia.
Qed.

Lemma he_alone : soft_alone N (hehner N).
Proof.
  intros s t Hr Hen Hidle Ho. pose proof (soft_step_lt _ _ _ _ Hen) as Ht. simpl in *.
  set (P := λ s', he_phase (so_pcs s' t) = Holding).
  assert (∀ s, reach s → (∀ u, u ≠ t → he_phase (so_pcs s u) = Idle) → he_phase (so_pcs s t) = Waiting → 0 < (so_mem s).1 t →
    solo (M := soft_mutex N (hehner N)) t s P) as Hwait.
  { intros s1 Hr1 Hi1 Hw1 Hpos. apply (go_solo N (hehner N) t s1 (so_mem s1) HeCs (λ p, p = Holding)); [done| |done].
    apply (he_waits s1 t Hr1); [|done]. split; [done|apply he_ranges, Hr1|]. intros j _ Hne. left.
    pose proof (hi_own _ _ (he_reachable s1 Hr1)) as Hown. pose proof (Hown j) as Hj. specialize (Hi1 j Hne). specialize (Hown t).
    assert ((so_mem s1).1 j = MAX_TICKET) as -> by (by destruct (so_pcs s1 j)).
    destruct (so_pcs s1 t); simpl in *; unfold drawn in *; try done; lia. }
  assert (∀ s k max, reach s → (∀ u, u ≠ t → he_phase (so_pcs s u) = Idle) → so_pcs s t = HeMax k max →
    solo (M := soft_mutex N (hehner N)) t s P) as Hdraw.
  { intros s1 k max Hr1 Hi1 Hpc. destruct (he_draws s1 t k max Hr1 Ht Hpc) as (n & Hn & Hgo).
    apply (go_stage N (hehner N) t s1 _ _ P Ht Hgo Hr1). intros s' Hr' Hm' Hpc' Hother. apply Hwait; rewrite ?Hpc', ?Hm'; [done| |done|].
    - intros u Hu. rewrite Hother by done. by apply Hi1.
    - simpl. by rewrite fn_lookup_insert. }
  pose proof (hi_own _ _ (he_reachable s Hr) t) as Hown.
  destruct (so_pcs s t) as [|k max|max j|max j|] eqn:Hpc; simpl in *; try done.
  - unfold soft_step in Hen. rewrite bool_decide_true, Hpc in Hen by done. simpl in Hen. case_bool_decide as Hlim; [|done].
    apply (go_stage N (hehner N) t s (<[t := 0]> (so_mem s).1, (so_mem s).2 + 1) (HeMax 0 0) P Ht); [|done|].
    + rewrite Hpc. apply rtc_once. simpl. by rewrite bool_decide_true.
    + intros s' Hr' _ Hpc' Hother. apply (Hdraw s' 0%nat 0); [done| |done]. intros u Hu. rewrite Hother by done. by apply Hidle.
  - by eapply Hdraw.
  - apply Hwait; [done..|by rewrite Hpc|apply Hown].
  - apply Hwait; [done..|by rewrite Hpc|apply Hown].
Qed.

Lemma he_safe : soft_safe N (hehner N).
Proof.
  apply soft_safe_intro; [apply _|]. intros s t Hr Ht Hp. destruct (he_reachable s Hr) as [Hown _ [T Hroom]].
  apply limited_goes; [done|apply Hroom|]. specialize (Hown t).
  destruct (so_pcs s t); simpl in *; unfold load; repeat case_bool_decide; rewrite ?ld_lt by lia; simpl; eauto.
Qed.
End hehner.
