(* ===== verification/LamportFast.v ===== *)
(** * Lamport's fast mutual exclusion

    [C11/papers/cralgorithm/LamportFastC11.c].  Without contention a thread gets in after a
    constant number of accesses: it writes [x], finds [y] free, writes [y] and finds
    its own number in [x].  Otherwise it takes down its flag in [b], waits
    until all flags are down, and gets in if [y] still holds its number. *)

From S2P Require Import Prelude Lts Mutex SoftLock.

(** ** Data *)

Record memory := Memory {
  b : nat → bool;
  x : nat;
  y : nat;
}.

(** Program points of [Worker]; the beginning of the loop and [start] do the same. *)
Inductive wpc :=
  | LfIdle
  | LfStart
  | LfX                 (** [x = id] *)
  | LfY                 (** [if (y != N)] *)
  | LfBack              (** [b[id] = false] *)
  | LfAwait             (** [await(y == N)] *)
  | LfSetY              (** [y = id] *)
  | LfTestX             (** [if (x != id)] *)
  | LfDown              (** [b[id] = false] *)
  | LfScan (j : nat)    (** [await(!b[j])] *)
  | LfTestY             (** [if (y != id)] *)
  | LfCs (fast : bool)  (** in, by the fast or the slow path *)
  | LfOut               (** [b[id] = false] *).

(** ** Operations *)

(** [x] is not initialised. *)
Definition ctor (N : nat) (m : memory) : Prop := (∀ i, b m i = false) ∧ y m = N.

Definition Worker (N : nat) (id : tid) (m : memory) (pc : wpc) : option (memory * wpc) :=
  let set_b v pc := Some (Memory (<[id := v]> (b m)) (x m) (y m), pc) in
  match pc with
  | LfIdle | LfStart => set_b true LfX
  | LfX => Some (Memory (b m) id (y m), LfY)
  | LfY => if bool_decide (y m = N) then Some (m, LfSetY) else Some (m, LfBack)
  | LfBack => set_b false LfAwait
  | LfAwait => if bool_decide (y m = N) then Some (m, LfStart) else Some (m, LfAwait)
  | LfSetY => Some (Memory (b m) (x m) id, LfTestX)
  | LfTestX => if bool_decide (x m = id) then Some (m, LfCs true) else Some (m, LfDown)
  | LfDown => set_b false (LfScan 0)
  | LfScan j =>
      if bool_decide (j < N) then v ← ld N (b m) j; if v : bool then Some (m, LfScan j) else Some (m, LfScan (S j))
      else Some (m, LfTestY)
  | LfTestY => if bool_decide (y m = id) then Some (m, LfCs false) else Some (m, LfStart)
  | LfCs _ => Some (Memory (b m) (x m) N, LfOut)
  | LfOut => set_b false LfIdle
  end.

Definition lf_phase (pc : wpc) : phase :=
  match pc with LfIdle => Idle | LfCs _ => Holding | LfOut => Leaving | _ => Waiting end.

Definition algorithm (N : nat) : soft memory wpc := Soft (ctor N) LfIdle (Worker N) lf_phase.

#[export] Instance lf_shape N : SoftShape (algorithm N).
Proof. split; [done|]. intros t m pc m' pc' Hw. by worker_inv Hw pc. Qed.

(** ** Invariant *)

(** Has found [y] free, and may write it or get in by the fast path. *)
Definition window (pc : wpc) : bool := match pc with LfSetY | LfTestX | LfCs true => true | _ => false end.

(** On the slow path, has seen the flag of [u] down. *)
Definition passed (pc : wpc) (u : tid) : bool :=
  match pc with LfScan j => bool_decide (u < j) | LfTestY | LfCs false => true | _ => false end.

Definition lf_own (N : nat) (m : memory) (t : tid) (pc : wpc) : Prop :=
  match pc with
  | LfIdle | LfStart | LfAwait | LfScan _ | LfTestY | LfCs false => b m t = false
  | LfOut => True
  | _ => b m t = true
  end.

Record lf_inv (N : nat) (m : memory) (pcs : tid → wpc) : Prop := {
  li_own t : lf_own N m t (pcs t);
  li_slow t u : t < N → u < N → passed (pcs t) u = true → y m = t → u ≠ t → window (pcs u) = false;
  li_holds t : pcs t = LfCs false → y m = t;
  li_fast t : pcs t = LfCs true →
    y m ≠ N ∧ ∀ u, u ≠ t → pcs u = LfSetY ∨ pcs u = LfTestX → x m ≠ u;
  li_test t : t < N → pcs t = LfTestX → x m = t → y m ≠ N;
  li_one t u : pcs t = LfCs true → pcs u = LfCs true → t = u;
  li_y t : y m = t → t < N →
    match pcs t with LfTestX | LfDown | LfScan _ | LfTestY | LfCs _ => True | _ => False end;
  li_bound : y m ≤ N;
  li_range t : N ≤ t → pcs t = LfIdle;
}.

Lemma lf_range N m pcs t : lf_inv N m pcs → pcs t ≠ LfIdle → t < N.
Proof. intros Hinv Ht. destruct (decide (t < N)); [done|]. destruct Ht. apply (li_range _ _ _ Hinv). lia. Qed.

Section step.
Context (N : nat) (m m' : memory) (pcs : tid → wpc) (a : tid) (pc' : wpc).
Context (Hinv : lf_inv N m pcs) (Ha : a < N) (Hw : Worker N a m (pcs a) = Some (m', pc')).

Lemma lf_frame u : u ≠ a → b m' u = b m u.
Proof. intros Hne. clear Hinv. remember (pcs a) as pc. worker_inv Hw pc; by simpl_fn. Qed.

(** Who writes [y] and [x]. *)
Lemma lf_writes_y : y m' = y m ∨ (pcs a = LfSetY ∧ y m' = a ∧ pc' = LfTestX) ∨ (∃ f, pcs a = LfCs f ∧ y m' = N ∧ pc' = LfOut).
Proof. clear Hinv. destruct (pcs a) eqn:Hpc; simpl in Hw; unfold mbind, option_bind in Hw; step_inv Hw; eauto 10. Qed.

Lemma lf_writes_x : x m' = x m ∨ x m' = a ∧ pc' = LfY.
Proof. clear Hinv. destruct (pcs a) eqn:Hpc; simpl in Hw; unfold mbind, option_bind in Hw; step_inv Hw; eauto 10. Qed.

(** Who gets on with the slow path, and who finds [y] free. *)
Lemma lf_new_pass u : passed pc' u = true → y m' = y m ∧ (u < N → passed (pcs a) u = true ∨ b m u = false).
Proof.
  clear Hinv. remember (pcs a) as pc. intros Hp. worker_inv Hw pc; split; auto; try (intros; lia).
  intros _. destruct (decide (u = j)) as [->|]; auto. left. lia.
Qed.

Lemma lf_new_window : window pc' = true → window (pcs a) = true ∨ y m = N.
Proof. clear Hinv. remember (pcs a) as pc. worker_inv Hw pc; auto. Qed.

(** Whoever is in keeps the others from writing [y]. *)
Lemma lf_slow_y t : pcs t = LfCs false → t ≠ a → y m' = y m.
Proof.
  intros Ht Hne. pose proof (li_holds _ _ _ Hinv t Ht) as Hy.
  assert (t < N) as HtN by (apply (lf_range _ _ _ _ Hinv); by rewrite Ht).
  assert (window (pcs a) = false) as Hwin.
  { apply (li_slow _ _ _ Hinv t a); [done|done|by rewrite Ht|done|done]. }
  destruct lf_writes_y as [|[(Hpc & _)|(f & Hpc & _)]]; [done|by rewrite Hpc in Hwin|].
  destruct f; [by rewrite Hpc in Hwin|]. pose proof (li_holds _ _ _ Hinv a Hpc). lia.
Qed.

Lemma lf_fast_y t : pcs t = LfCs true → t ≠ a → y m' ≠ N.
Proof.
  intros Ht Hne. destruct (li_fast _ _ _ Hinv t Ht) as [Hy _].
  destruct lf_writes_y as [->|[(Hpc & -> & _)|(f & Hpc & _)]]; [done|lia|]. exfalso. destruct f.
  - by apply Hne, (li_one _ _ _ Hinv).
  - assert (t < N) as HtN by (apply (lf_range _ _ _ _ Hinv); by rewrite Ht).
    pose proof (li_slow _ _ _ Hinv a t Ha HtN) as Hs. rewrite Hpc, Ht in Hs.
    specialize (Hs eq_refl (li_holds _ _ _ Hinv a Hpc) Hne). done.
Qed.

(** The fields of the invariant after the step. *)
Let pcs' := <[a := pc']> pcs.

Lemma lf_step_own t : lf_own N m' t (pcs' t).
Proof.
  pose proof (li_own _ _ _ Hinv t) as Ho. unfold pcs'. same_tid a t.
  - clear Hinv. remember (pcs a) as pc. unfold lf_own in *. worker_inv Hw pc; by simpl_fn.
  - unfold lf_own in *. by rewrite lf_frame.
Qed.

Lemma lf_y_back t : t ≠ a → t < N → y m' = t → y m = t.
Proof. intros Hne Ht Hy. destruct lf_writes_y as [|[(_ & ? & _)|(f & _ & ? & _)]]; lia. Qed.

Lemma lf_step_slow t u : t < N → u < N → passed (pcs' t) u = true → y m' = t → u ≠ t → window (pcs' u) = false.
Proof.
  intros Ht Hu Hp Hy Hne. pose proof (li_slow _ _ _ Hinv t u Ht Hu) as Hs. unfold pcs' in *.
  destruct (decide (t = a)) as [->|Hta]; [|destruct (decide (u = a)) as [->|Hua]]; simpl_fn.
  - destruct (lf_new_pass u Hp) as [Hym Hnew]. destruct (Hnew Hu) as [|Hb]; [apply Hs; [done|congruence|done]|].
    pose proof (li_own _ _ _ Hinv u) as Ho. destruct (pcs u) as [| | | | | | | | | | |[]|]; simpl in *; congruence.
  - pose proof (lf_y_back t ltac:(done) Ht Hy) as Hym. specialize (Hs Hp Hym Hne).
    destruct (window pc') eqn:Hwin; [|done]. destruct lf_new_window as [|HyN]; [done|congruence|lia].
  - apply Hs; [done|by apply lf_y_back|done].
Qed.

Lemma lf_step_holds t : pcs' t = LfCs false → y m' = t.
Proof.
  unfold pcs'. intros Ht. destruct (decide (t = a)) as [->|Hta]; simpl_fn.
  - clear Hinv. remember (pcs a) as pc. clear pcs'. subst pc'. by worker_inv Hw pc.
  - rewrite (lf_slow_y t) by done. by apply (li_holds _ _ _ Hinv).
Qed.

Lemma lf_step_fast t : pcs' t = LfCs true →
  y m' ≠ N ∧ ∀ u, u ≠ t → pcs' u = LfSetY ∨ pcs' u = LfTestX → x m' ≠ u.
Proof.
  unfold pcs'. intros Ht. destruct (decide (t = a)) as [->|Hta]; simpl_fn.
  - assert (pcs a = LfTestX ∧ x m = a ∧ m' = m) as (Hpc & Hx & ->).
    { clear Hinv. remember (pcs a) as pc. clear pcs'. subst pc'. by worker_inv Hw pc. }
    split; [by apply (li_test _ _ _ Hinv a)|]. intros u Hu _. lia.
  - split; [by apply (lf_fast_y t)|]. destruct (li_fast _ _ _ Hinv t Ht) as [Hy Hx]. intros u Hu Hpu. destruct (decide (u = a)) as [->|Hua]; simpl_fn.
    + assert (x m' = x m) as -> by (destruct lf_writes_x as [|[_ ->]]; [done|by destruct Hpu]).
      apply Hx; [done|]. clear -Hw Hpu Hy. remember (pcs a) as pc. worker_inv Hw pc; naive_solver.
    + destruct lf_writes_x as [->|[-> _]]; [by apply Hx|done].
Qed.

Lemma lf_step_test t : t < N → pcs' t = LfTestX → x m' = t → y m' ≠ N.
Proof.
  unfold pcs'. intros HtN Ht Hx. destruct (decide (t = a)) as [->|Hta]; simpl_fn.
  - assert (y m' = a) as ->; [|lia]. clear -Hw Ht. remember (pcs a) as pc. subst pc'. by worker_inv Hw pc.
  - destruct lf_writes_x as [Hxm|[Hxa _]]; [|congruence]. rewrite Hxm in Hx.
    destruct lf_writes_y as [->|[(_ & -> & _)|(f & Hpc & _)]]; [by apply (li_test _ _ _ Hinv t)|lia|]. exfalso. destruct f.
    + destruct (li_fast _ _ _ Hinv a Hpc) as [_ Hno]. by apply (Hno t); auto.
    + pose proof (li_slow _ _ _ Hinv a t Ha HtN) as Hs. rewrite Hpc, Ht in Hs.
      specialize (Hs eq_refl (li_holds _ _ _ Hinv a Hpc) ltac:(done)). done.
Qed.

Lemma lf_step_one t u : pcs' t = LfCs true → pcs' u = LfCs true → t = u.
Proof.
  assert (∀ u, u ≠ a → pc' = LfCs true → pcs u = LfCs true → False) as Hnew.
  { intros v Hv Hpc' Hpv. assert (pcs a = LfTestX ∧ x m = a) as [Hpc Hx].
    { clear -Hw Hpc'. remember (pcs a) as pc. subst pc'. by worker_inv Hw pc. }
    destruct (li_fast _ _ _ Hinv v Hpv) as [_ Hno]. by apply (Hno a); auto. }
  unfold pcs'. intros Ht Hu. destruct (decide (t = a)) as [->|Hta], (decide (u = a)) as [->|Hua]; simpl_fn; try done.
  - by destruct (Hnew u).
  - by destruct (Hnew t).
  - by apply (li_one _ _ _ Hinv).
Qed.

Lemma lf_step_y t : y m' = t → t < N →
  match pcs' t with LfTestX | LfDown | LfScan _ | LfTestY | LfCs _ => True | _ => False end.
Proof.
  intros Hy HtN. unfold pcs'. destruct (decide (t = a)) as [->|Hta]; simpl_fn.
  - pose proof (li_y _ _ _ Hinv a) as Hold. revert Hy. clear -Hw Hold Ha. remember (pcs a) as pc.
    worker_inv Hw pc; intros Hy; simpl in Hy; auto; lia.
  - apply (li_y _ _ _ Hinv t); [by apply lf_y_back|done].
Qed.
End step.

Section fast.
Context (N : nat).
Local Abbreviation go := (go (algorithm N)).
Local Abbreviation reach := (reachable (sys := mutex_lts (H := soft_mutex N (algorithm N)))).

Lemma lf_reachable s : reach s → lf_inv N (so_mem s) (so_pcs s).
Proof.
  apply (soft_invariant N (algorithm N) (λ s, lf_inv N (so_mem s) (so_pcs s))).
  - intros m [Hb Hy]. split; simpl; try done; [intros t Ht; lia|by rewrite Hy].
  - intros [m pcs] a m' pc' Hinv Ha Hw. simpl in *. split.
    + by apply (lf_step_own N m m' pcs a pc').
    + by apply (lf_step_slow N m m' pcs a pc').
    + by apply (lf_step_holds N m m' pcs a pc').
    + by apply (lf_step_fast N m m' pcs a pc').
    + by apply (lf_step_test N m m' pcs a pc').
    + by apply (lf_step_one N m m' pcs a pc').
    + by apply (lf_step_y N m m' pcs a pc').
    + pose proof (li_bound _ _ _ Hinv). destruct (lf_writes_y N m m' pcs a pc' Hw) as [|[(_ & ? & _)|(f & _ & ? & _)]]; lia.
    + intros t Ht. rewrite fn_lookup_insert_ne by lia. by apply (li_range _ _ _ Hinv).
Qed.

Lemma lf_exclusive : lock_exclusive (soft_mutex N (algorithm N)).
Proof.
  intros s t u Hinv%lf_reachable Ht Hu. simpl in *.
  assert (∀ v w, so_pcs s v = LfCs false → so_pcs s w = LfCs true → False) as Hmix.
  { intros v w Hv Hw. assert (v ≠ w) by congruence. pose proof (li_holds _ _ _ Hinv v Hv) as Hy.
    assert (v < N) as HvN by (apply (lf_range _ _ _ _ Hinv); by rewrite Hv).
    assert (w < N) as HwN by (apply (lf_range _ _ _ _ Hinv); by rewrite Hw).
    pose proof (li_slow _ _ _ Hinv v w HvN HwN) as Hs. rewrite Hv, Hw in Hs. by specialize (Hs eq_refl Hy ltac:(done)). }
  assert (∀ v, owns (lf_phase (so_pcs s v)) = true → ∃ f, so_pcs s v = LfCs f) as Hcs.
  { intros v Hv. destruct (so_pcs s v); try done. by eexists. }
  destruct (Hcs t Ht) as [[] Hpt], (Hcs u Hu) as [[] Hpu].
  - by apply (li_one _ _ _ Hinv).
  - by destruct (Hmix u t).
  - by destruct (Hmix t u).
  - rewrite <-(li_holds _ _ _ Hinv t Hpt). by apply (li_holds _ _ _ Hinv).
Qed.

(** ** Progress *)

Definition low (m : memory) (t : tid) : Prop := ∀ u, u < N → u ≠ t → b m u = false.

(** From [start] with [y] free a thread gets in by the fast path. *)
Lemma lf_go_start t m : y m = N → ∃ m', go t (m, LfStart) (m', LfCs true).
Proof.
  intros Hy. eexists. do 2 (eapply go_step; [done|]). eapply go_step; [simpl; by rewrite bool_decide_true|].
  eapply go_step; [done|]. eapply go_step; [simpl; by rewrite bool_decide_true|]. apply rtc_refl.
Qed.

(** The loop over the flags, when they are down. *)
Lemma lf_go_scan_low t m j : low m t → b m t = false → go t (m, LfScan j) (m, LfTestY).
Proof.
  intros Hl Hb. eapply go_trans; [apply (go_loop _ t m LfScan j (max j N)); [lia|]|].
  - intros k Hk. simpl. rewrite bool_decide_true by lia. rewrite ld_lt by lia. simpl.
    destruct (decide (k = t)) as [->|Hne]; [by rewrite Hb|]. by rewrite Hl by (lia || done).
  - eapply go_step; [|apply rtc_refl]. simpl. by rewrite bool_decide_false by lia.
Qed.

Lemma lf_go_test_y t m : y m = N ∨ y m = t → t < N → ∃ m' f, go t (m, LfTestY) (m', LfCs f).
Proof.
  intros Hy Ht. destruct (decide (y m = t)) as [Heq|Hne].
  - exists m, false. eapply go_step; [|apply rtc_refl]. simpl. by rewrite bool_decide_true.
  - destruct (lf_go_start t m) as [m' Hgo]; [naive_solver|]. exists m', true. eapply go_step; [|exact Hgo]. simpl. by rewrite bool_decide_false.
Qed.

Lemma lf_go_test_x t m : low m t → y m = N ∨ y m = t → t < N → ∃ m' f, go t (m, LfTestX) (m', LfCs f).
Proof.
  intros Hl Hy Ht. destruct (decide (x m = t)) as [Hx|Hx].
  - exists m, true. eapply go_step; [|apply rtc_refl]. simpl. by rewrite bool_decide_true.
  - destruct (lf_go_test_y t (Memory (<[t := false]> (b m)) (x m) (y m))) as (m' & f & Hgo); [done..|]. exists m', f.
    eapply go_step; [simpl; by rewrite bool_decide_false|]. eapply go_step; [done|]. eapply go_trans; [|exact Hgo].
    apply lf_go_scan_low; simpl; [|by rewrite fn_lookup_insert]. intros u Hu Hne. simpl. simpl_fn. by apply Hl.
Qed.

Definition lf_turn (m : memory) (t : tid) (pc : wpc) : Prop :=
  y m = N ∨ y m = t ∧ match pc with LfTestX | LfDown | LfScan _ | LfTestY => True | _ => False end.

(** With all other flags down and [y] free or its own, a thread gets in. *)
Lemma lf_go_in t m pc :
  t < N → low m t → owns (lf_phase pc) = false → lf_own N m t pc → lf_turn m t pc → ∃ m' f, go t (m, pc) (m', LfCs f).
Proof.
  intros Ht Hl Hp Hown Hy.
  assert (∀ m', y m' = N → ∃ m2 f, go t (m', LfStart) (m2, LfCs f)) as Hstart.
  { intros m' Hy'. destruct (lf_go_start t m' Hy') as [m2 Hgo]. eauto. }
  assert (∀ m', low m' t → ∃ m2 f, go t (m', LfSetY) (m2, LfCs f)) as Hset.
  { intros m' Hl'. destruct (lf_go_test_x t (Memory (b m') (x m') t)) as (m2 & f & Hgo); [done|by right|done|].
    exists m2, f. by eapply go_step. }
  assert (∀ v, low (Memory (<[t := v]> (b m)) (x m) (y m)) t) as Hl'.
  { intros v u Hu Hne. simpl. simpl_fn. by apply Hl. }
  assert (∀ pc' m', y m' = N → go t (m', pc') (m', LfStart) → ∃ m2 f, go t (m', pc') (m2, LfCs f)) as Hto.
  { intros pc' m' Hy' Hgo. destruct (Hstart m' Hy') as (m2 & f & Hgo'). exists m2, f. by eapply go_trans. }
  unfold lf_turn in Hy. destruct pc as [| | | | | | | | |j| |f|]; simpl in *; try done;
    try (assert (y m = N) as HyN by (by destruct Hy as [|[_ []]])).
  - destruct (Hstart m HyN) as (m2 & f & Hgo). exists m2, f. inversion Hgo as [|? [m1 pc1] ? Hs Hrest]; subst. by eapply go_step.
  - by apply Hstart.
  - destruct (Hset (Memory (b m) t (y m))) as (m2 & f & Hgo); [done|]. exists m2, f. eapply go_step; [done|].
    eapply go_step; [|exact Hgo]. simpl. by rewrite bool_decide_true.
  - destruct (Hset m Hl) as (m2 & f & Hgo). exists m2, f. eapply go_step; [|exact Hgo]. simpl. by rewrite bool_decide_true.
  - destruct (Hstart (Memory (<[t := false]> (b m)) (x m) (y m)) HyN) as (m2 & f & Hgo). exists m2, f. eapply go_step; [done|].
    eapply go_step; [|exact Hgo]. simpl. by rewrite bool_decide_true.
  - apply Hto; [done|]. eapply go_step; [|apply rtc_refl]. simpl. by rewrite bool_decide_true.
  - by apply Hset.
  - apply lf_go_test_x; naive_solver.
  - destruct (lf_go_test_y t (Memory (<[t := false]> (b m)) (x m) (y m))) as (m' & f & Hgo); [naive_solver|done|]. exists m', f.
    eapply go_step; [done|]. eapply go_trans; [|exact Hgo]. apply lf_go_scan_low; [done|simpl; by rewrite fn_lookup_insert].
  - destruct (lf_go_test_y t m) as (m' & f & Hgo); [naive_solver|done|]. exists m', f. eapply go_trans; [|exact Hgo]. by apply lf_go_scan_low.
  - apply lf_go_test_y; naive_solver.
  - destruct (Hstart (Memory (<[t := false]> (b m)) (x m) (y m)) HyN) as (m2 & f & Hgo). exists m2, f.
    eapply go_step; [done|]. inversion Hgo as [|? [m1 pc1] ? Hs Hrest]; subst. by eapply go_step.
Qed.

Lemma lf_alone : soft_alone N (algorithm N).
Proof.
  intros s t Hr Ht%soft_step_lt Hidle Ho. pose proof (lf_reachable s Hr) as Hinv. pose proof (li_bound _ _ _ Hinv) as Hb.
  destruct (lf_go_in t (so_mem s) (so_pcs s t)) as (m' & f & Hgo); [done| |done|apply (li_own _ _ _ Hinv)| |].
  - intros u _ Hne. pose proof (li_own _ _ _ Hinv u) as Hu. specialize (Hidle u Hne). by destruct (so_pcs s u) as [| | | | | | | | | | |[]|].
  - destruct (decide (y (so_mem s) = N)) as [|HyN]; [by left|]. pose proof (li_y _ _ _ Hinv _ eq_refl ltac:(lia)) as Hy.
    destruct (decide (y (so_mem s) = t)) as [Heq|Hne]; [right; split; [done|]|].
    + rewrite Heq in Hy. by destruct (so_pcs s t).
    + specialize (Hidle _ Hne). simpl in Hidle. by destruct (so_pcs s (y (so_mem s))).
  - by apply (go_solo N (algorithm N) t s m' (LfCs f) (λ p, p = Holding)).
Qed.

Lemma lf_release : soft_release N (algorithm N).
Proof.
  intros s t Hr Ho. assert (t < N) as Ht by (apply (soft_range _ _ s t Hr); intros Heq; by rewrite Heq in Ho).
  assert (∃ m', go t (so_mem s, so_pcs s t) (m', LfIdle)) as [m' Hgo].
  { destruct (so_pcs s t); try done. eexists. do 2 (eapply go_step; [done|]). apply rtc_refl. }
  by apply (go_solo N (algorithm N) t s m' LfIdle (λ p, p = Idle)).
Qed.

(** A thread with its flag up gets in or takes it down. *)
Lemma lf_go_lower t m pc :
  b m t = true → owns (lf_phase pc) = false → lf_own N m t pc →
  (∃ m', go t (m, pc) (m', LfCs true)) ∨
  ∃ xy pc', go t (m, pc) (Memory (<[t := false]> (b m)) xy.1 xy.2, pc') ∧ (lf_phase pc' = Waiting ∨ pc = LfOut ∧ pc' = LfIdle).
Proof.
  intros Hb Hp Hown.
  assert (∀ m', b m' = b m → (∃ m2, go t (m', LfTestX) (m2, LfCs true)) ∨
    ∃ xy, go t (m', LfTestX) (Memory (<[t := false]> (b m)) xy.1 xy.2, LfScan 0)) as Hx.
  { intros m' Hbm. destruct (decide (x m' = t)) as [Heq|Hne].
    - left. exists m'. apply rtc_once. simpl. by rewrite bool_decide_true.
    - right. exists (x m', y m'). eapply go_step; [simpl; by rewrite bool_decide_false|]. apply rtc_once. simpl. by rewrite Hbm. }
  assert (∀ m', b m' = b m → (∃ m2, go t (m', LfY) (m2, LfCs true)) ∨
    ∃ xy pc', go t (m', LfY) (Memory (<[t := false]> (b m)) xy.1 xy.2, pc') ∧ lf_phase pc' = Waiting) as Hy.
  { intros m' Hbm. destruct (decide (y m' = N)) as [Heq|Hne].
    - destruct (Hx (Memory (b m') (x m') t) Hbm) as [(m2 & Hgo)|(xy & Hgo)]; [left; exists m2|right; exists xy, (LfScan 0); split; [|done]];
        (eapply go_step; [simpl; by rewrite bool_decide_true|]; by eapply go_step).
    - right. exists (x m', y m'), LfAwait. split; [|done]. eapply go_step; [simpl; by rewrite bool_decide_false|].
      apply rtc_once. simpl. by rewrite Hbm. }
  destruct pc as [| | | | | | | | |j| |[]|]; simpl in *; try congruence; try done.
  - destruct (Hy (Memory (b m) t (y m)) eq_refl) as [(m2 & Hgo)|(xy & pc' & Hgo & Hw)]; [left; exists m2|right; exists xy, pc'; split; [|by left]]; by eapply go_step.
  - destruct (Hy m eq_refl) as [|(xy & pc' & Hgo & Hw)]; [by left|right; exists xy, pc'; auto].
  - right. exists (x m, y m), LfAwait. split; [by apply rtc_once|by left].
  - destruct (Hx (Memory (b m) (x m) t) eq_refl) as [(m2 & Hgo)|(xy & Hgo)]; [left; exists m2|right; exists xy, (LfScan 0); split; [|by left]]; by eapply go_step.
  - destruct (Hx m eq_refl) as [|(xy & Hgo)]; [by left|right; exists xy, (LfScan 0); auto].
  - right. exists (x m, y m), (LfScan 0). split; [by apply rtc_once|by left].
  - right. exists (x m, y m), LfIdle. split; [by apply rtc_once|by right].
Qed.

Lemma lf_live : soft_live N (algorithm N).
Proof.
  apply (soft_live_descent N (algorithm N) (λ m, flags N (b m))). intros s t Hr Hw Hno. simpl in *.
  assert (t < N) as Ht by (apply (soft_range _ _ s t Hr); simpl; by rewrite Hw).
  pose proof (lf_reachable s Hr) as Hinv. pose proof (li_own _ _ _ Hinv) as Hown. pose proof (li_bound _ _ _ Hinv) as Hb.
  destruct (flags_last N (b (so_mem s))) as [Hall|(u & Hu & Hup & _)].
  - assert (∀ u, u < N → lf_turn (so_mem s) u (so_pcs s u) → ∃ v m pc, v < N ∧ go v (so_mem s, so_pcs s v) (m, pc) ∧ (lf_phase pc = Holding ∨
      owns (lf_phase pc) = false ∧ (lf_phase pc = Waiting ∨ v ≠ t) ∧ flags N (b m) < flags N (b (so_mem s)))) as Hin.
    { intros u Hu Hturn. destruct (lf_go_in u (so_mem s) (so_pcs s u)) as (m' & f & Hgo); [done| |done..|].
      - intros v Hv _. by apply Hall.
      - exists u, m', (LfCs f). split_and!; [done..|by left]. }
    destruct (decide (y (so_mem s) = N)) as [HyN|HyN]; [apply (Hin t Ht); by left|].
    apply (Hin (y (so_mem s))); [lia|]. right. split; [done|]. pose proof (li_y _ _ _ Hinv _ eq_refl ltac:(lia)) as Hy.
    specialize (Hno (y (so_mem s))). by destruct (so_pcs s (y (so_mem s))).
  - destruct (lf_go_lower u (so_mem s) (so_pcs s u) Hup (Hno u) (Hown u)) as [[m' Hgo]|(xy & pc' & Hgo & Hend)].
    + exists u, m', (LfCs true). auto.
    + eexists u, _, pc'. split_and!; [done|exact Hgo|right]. split_and!.
      * destruct Hend as [Hend|[_ ->]]; [by rewrite Hend|done].
      * destruct Hend as [Hend|[Heq _]]; [by left|right]. intros ->. by rewrite Heq in Hw.
      * apply (flags_lower N _ _ u); simpl; [done| |done|by rewrite fn_lookup_insert]. intros v Hv. by simpl_fn.
Qed.

Lemma lf_safe : soft_safe N (algorithm N).
Proof.
  apply soft_safe_intro; [apply _|]. intros s t Hr Ht Hp. destruct (so_pcs s t); simpl; repeat case_bool_decide; rewrite ?ld_lt by lia; simpl; eauto.
  by destruct (b (so_mem s) _); eauto.
Qed.
End fast.
