(* ===== verification/CrTurn.v ===== *)
(** * The algorithm of Correia and Ramalhete with a turn

    [C11/papers/cralgorithm/CorreiaRamalheteTurnC11.c].  A thread that wants in sets its state to
    [LOCKED], gives way to the threads between the holder of the turn and itself, and then
    waits until none of the others is [LOCKED].  Whoever leaves passes the turn
    on.

    The loop over the threads behind also ends when the turn moves, and the test
    that follows compares the turn with its old value once more: were the turn
    back at that value, a thread would get in without having looked.  A counting argument
    shows that this cannot happen: while a thread is [LOCKED] no other
    thread gets in twice, so the turn does not come around. *)

From S2P Require Import Prelude Lts Mutex SoftLock.

(** ** Data *)

Inductive State := UNLOCKED | WAITING | LOCKED.

#[export] Instance State_eq_dec : EqDecision State.
Proof. solve_decision. Defined.

Record memory := Memory {
  states : nat → State;
  turn : nat;
}.

(** Program points of [Worker].  The calls of [validate_left] and [validate_right] hold the
    indices that are still to be read. *)
Inductive wpc :=
  | TuIdle
  | TuTurn                              (** [lturn = turn], at the head of the outer loop *)
  | TuLeft (l : nat) (todo : list nat)  (** [validate_left(id, lturn)] *)
  | TuFail (l : nat)                    (** [states[id] = WAITING] *)
  | TuWLeft (l : nat) (todo : list nat) (** [validate_left(id, lturn)] while waiting *)
  | TuWLoad                             (** [lturn = turn] there *)
  | TuRelock                            (** [states[id] = LOCKED] *)
  | TuWhile (l : nat)                   (** [while (lturn == turn)] *)
  | TuRight (l : nat) (todo : list nat) (** [validate_right(id, lturn)] *)
  | TuFinal (l : nat)                   (** [if (lturn == turn) break], after the turn has moved *)
  | TuCs
  | TuExit (l : nat)                    (** [turn = lturn] *)
  | TuExit2                             (** [states[id] = UNLOCKED] *).

(** ** Operations *)

(** The indices that [validate_left] and [validate_right] read, in order. *)
Definition left_of (N id lturn : nat) : list nat :=
  if bool_decide (id < lturn) then seq lturn (N - lturn) ++ seq 0 id else seq lturn (id - lturn).

Definition right_of (N id lturn : nat) : list nat :=
  if bool_decide (lturn ≤ id) then seq (id + 1) (N - (id + 1)) ++ seq 0 lturn else seq (id + 1) (lturn - (id + 1)).

Definition ctor (m : memory) : Prop := (∀ i, states m i = UNLOCKED) ∧ turn m = 0.

Definition Worker (N : nat) (id : tid) (m : memory) (pc : wpc) : option (memory * wpc) :=
  let set_state v pc := Some (Memory (<[id := v]> (states m)) (turn m), pc) in
  match pc with
  | TuIdle => set_state LOCKED TuTurn
  | TuTurn => Some (m, TuLeft (turn m) (left_of N id (turn m)))
  | TuLeft l (i :: todo) =>
      v ← ld N (states m) i; if bool_decide (v = UNLOCKED) then Some (m, TuLeft l todo) else Some (m, TuFail l)
  | TuLeft l [] => Some (m, TuWhile l)
  | TuFail l => set_state WAITING (TuWLeft l (left_of N id l))
  | TuWLeft l (i :: todo) =>
      v ← ld N (states m) i; if bool_decide (v = UNLOCKED) then Some (m, TuWLeft l todo) else Some (m, TuWLoad)
  | TuWLeft l [] => if bool_decide (l = turn m) then Some (m, TuRelock) else Some (m, TuWLoad)
  | TuWLoad => Some (m, TuWLeft (turn m) (left_of N id (turn m)))
  | TuRelock => set_state LOCKED TuTurn
  | TuWhile l => if bool_decide (l = turn m) then Some (m, TuRight l (right_of N id l)) else Some (m, TuFinal l)
  | TuRight l (i :: todo) =>
      v ← ld N (states m) i; if bool_decide (v = LOCKED) then Some (m, TuWhile l) else Some (m, TuRight l todo)
  | TuRight l [] | TuFinal l => if bool_decide (l = turn m) then Some (m, TuCs) else Some (m, TuTurn)
  | TuCs => Some (m, TuExit ((turn m + 1) mod N))
  | TuExit l => Some (Memory (states m) l, TuExit2)
  | TuExit2 => set_state UNLOCKED TuIdle
  end.

Definition tu_phase (pc : wpc) : phase :=
  match pc with TuIdle => Idle | TuCs => Holding | TuExit _ | TuExit2 => Unlocking | _ => Waiting end.

Definition algorithm (N : nat) : soft memory wpc := Soft ctor TuIdle (Worker N) tu_phase.

(** The same without the way in through [TuFinal]. *)
Definition strict (N : nat) : soft memory wpc :=
  Soft ctor TuIdle (λ t m pc, match pc with TuFinal _ => Some (m, TuTurn) | _ => Worker N t m pc end) tu_phase.

(** ** The ring of threads *)

(** From the holder of the turn: those on the left, the thread, those on the right. *)
Lemma ring N id l : l < N → id < N → seq l (N - l) ++ seq 0 l = left_of N id l ++ id :: right_of N id l.
Proof.
  intros Hl Hid. unfold left_of, right_of. case_bool_decide as H1; case_bool_decide as H2; try lia.
  - rewrite <-(assoc_L (++)). f_equal. replace l with (id + (1 + (l - (id + 1)))) at 1 by lia. rewrite !seq_app. simpl.
    by replace (S id) with (id + 1) by lia.
  - replace (N - l) with ((id - l) + (1 + (N - (id + 1)))) by lia. rewrite !seq_app. replace (l + (id - l)) with id by lia. simpl.
    replace (S id) with (id + 1) by lia. by rewrite <-!(assoc_L (++)).
Qed.

Lemma ring_elem N l u : l < N → u ∈ seq l (N - l) ++ seq 0 l ↔ u < N.
Proof. intros Hl. rewrite elem_of_app, !elem_of_seq. lia. Qed.

Lemma ring_nodup N l : NoDup (seq l (N - l) ++ seq 0 l).
Proof.
  apply NoDup_app. split_and!; [apply NoDup_seq| |apply NoDup_seq]. intros u. rewrite !elem_of_seq. lia.
Qed.

Lemma sides N id l u : u < N → u ≠ id → u ∈ left_of N id l ∨ u ∈ right_of N id l.
Proof.
  intros Hu Hne. unfold left_of, right_of. repeat case_bool_decide; rewrite ?elem_of_app, !elem_of_seq; lia.
Qed.

Lemma left_lt N id l u : id < N → u ∈ left_of N id l → u < N.
Proof. intros Hid. unfold left_of. case_bool_decide; rewrite ?elem_of_app, !elem_of_seq; lia. Qed.

Lemma right_lt N id l u : id < N → l < N → u ∈ right_of N id l → u < N.
Proof. intros Hid Hl. unfold right_of. case_bool_decide; rewrite ?elem_of_app, !elem_of_seq; lia. Qed.

(** ** Exclusion without [TuFinal] *)

#[export] Instance tu_shape N : SoftShape (algorithm N).
Proof.
  split; [done|]. intros t m pc m' pc' Hw. by worker_inv Hw pc.
Qed.

Definition tu_passed (N : nat) (t : tid) (pc : wpc) (u : tid) : bool :=
  match pc with
  | TuLeft l todo => bool_decide (u ∈ left_of N t l ∧ u ∉ todo)
  | TuWhile l => bool_decide (u ∈ left_of N t l)
  | TuRight l todo => bool_decide (u ∈ left_of N t l ∨ u ∈ right_of N t l ∧ u ∉ todo)
  | TuCs | TuExit _ | TuExit2 => true
  | _ => false
  end.

#[export] Instance tu_flags N : FlagLock N (strict N).
Proof.
  refine {|
    fl_up := λ m t, bool_decide (states m t = LOCKED);
    fl_raised := λ pc, match pc with TuIdle | TuWLeft _ _ | TuWLoad | TuRelock => false | _ => true end;
    fl_passed := tu_passed N;
  |}; try done.
  - intros t u m pc m' pc' Hw Hne. worker_inv Hw pc; by simpl_fn.
  - intros t m pc m' pc' Hw Hup Hr. worker_inv Hw pc; simpl_fn; auto.
  - intros t pc u. by destruct pc.
  - intros t u m pc m' pc' Hw Hne Hlt Hp. pose proof (sides N t) as Hsides. worker_inv Hw pc; auto; try set_solver.
    all: destruct (decide (u = n)) as [->|]; [right; congruence|left; set_solver].
  - intros t pc u. by destruct pc.
Defined.

(** ** The turn does not come around *)

(** Those that may still move the turn while [t] has its flag up. *)
Definition may_move (N : nat) (pcs : tid → wpc) (t k : tid) : bool :=
  bool_decide (k ≠ t) && match pcs k with TuExit2 => false | pc => tu_passed N k pc t end.

Definition lturn (pc : wpc) : option nat :=
  match pc with TuLeft l _ | TuWhile l | TuRight l _ | TuFinal l => Some l | _ => None end.

Record turn_inv (N : nat) (s : soft_state memory wpc) : Prop := {
  tv_range : 0 < N → turn (so_mem s) < N;
  tv_exit t l : so_pcs s t = TuExit l → l = (turn (so_mem s) + 1) mod N;
  (** Since [t] read the turn it has moved [d] times. *)
  tv_moves t l : t < N → lturn (so_pcs s t) = Some l → l < N ∧ ∃ d,
    turn (so_mem s) = (l + d) mod N ∧ d + flags N (may_move N (so_pcs s) t) ≤ N - 1 ∧
    (so_pcs s t = TuFinal l → d ≠ 0);
}.

Lemma flags_but n f t : t < n → f t = false → flags n f ≤ n - 1.
Proof.
  intros Ht Hf. assert (∀ k, flags k f ≤ k) as Hle by (intros k; induction k as [|k IH]; simpl; [lia|destruct (f k); lia]).
  induction n as [|n IH]; [lia|]. simpl. destruct (decide (t = n)) as [->|]; [rewrite Hf; specialize (Hle n); lia|].
  specialize (IH ltac:(lia)). destruct (f n); lia.
Qed.

Lemma turn_around N l d : l < N → d ≤ N - 1 → (l + d) mod N = l → d = 0.
Proof.
  intros Hl Hd Hm. destruct (decide (l + d < N)) as [|Hge]; [rewrite Nat.mod_small in Hm; lia|].
  replace (l + d) with (l + d - N + 1 * N) in Hm by lia. rewrite Nat.Div0.mod_add, Nat.mod_small in Hm; lia.
Qed.

(** [TuFinal] leads back to the head of the loop. *)
Lemma turn_strict N s t : turn_inv N s → t < N → so_worker (algorithm N) t (so_mem s) (so_pcs s t) = so_worker (strict N) t (so_mem s) (so_pcs s t).
Proof.
  intros Hv Ht. destruct (so_pcs s t) as [| | | | | | | | |l| | |] eqn:Hpc; try done. simpl.
  destruct (tv_moves N s Hv t l) as (Hl & d & Hm & Hd & Hne); [done|by rewrite Hpc|].
  rewrite bool_decide_false; [done|]. intros Heq. apply Hne; [done|]. apply (turn_around N l); [done|lia|congruence].
Qed.

(** Nobody gets past a flag that is up. *)
Lemma may_move_keep N s t m pc i :
  flag_inv N (strict N) s → t < N → i ≠ t → i < N → is_Some (lturn (so_pcs s i)) →
  so_worker (strict N) t (so_mem s) (so_pcs s t) = Some (m, pc) →
  may_move N (<[t := pc]> (so_pcs s)) i t = true → may_move N (so_pcs s) i t = true ∧ ∀ l, so_pcs s t ≠ TuExit l.
Proof.
  intros Hf Ht Hne Hi [l Hl] Hw Hmv.
  assert (fl_up (so_mem s) i = true) as Hup by (apply (fi_up N (strict N) s Hf); by destruct (so_pcs s i)).
  pose proof (fl_sees (A := strict N) t i _ _ _ _ Hw Hne Hi) as Hsees.
  unfold may_move in *. rewrite fn_lookup_insert in Hmv. rewrite bool_decide_true in Hmv |- * by done.
  destruct Hsees as [Hold|Hold]; [by destruct pc| |congruence].
  split; [|intros l' Heq; rewrite Heq in Hw; by simplify_eq/=].
  destruct (so_pcs s t) eqn:Hpc; try done. by simplify_eq/=.
Qed.

(** What a step does to the turn, and to what the thread knows of it. *)
Lemma turn_frame N t m pc m' pc' :
  so_worker (strict N) t m pc = Some (m', pc') → turn m' = turn m ∨ ∃ l, pc = TuExit l ∧ pc' = TuExit2 ∧ turn m' = l.
Proof. intros Hw. worker_inv Hw pc; eauto. Qed.

Lemma lturn_own N t m pc m' pc' l :
  so_worker (strict N) t m pc = Some (m', pc') → lturn pc' = Some l → turn m' = turn m ∧
  (pc = TuTurn ∧ l = turn m ∧ pc' ≠ TuFinal l ∨ lturn pc = Some l ∧ (pc' = TuFinal l → l ≠ turn m)).
Proof. intros Hw Hl. worker_inv Hw pc; auto. Qed.

Lemma exit_own N t m m' pc l :
  so_worker (strict N) t m pc = Some (m', TuExit l) → turn m' = turn m ∧ l = (turn m + 1) mod N.
Proof. intros Hw. by worker_inv Hw pc. Qed.

Lemma may_move_frame N pcs t pc i k : k ≠ t → may_move N (<[t := pc]> pcs) i k = may_move N pcs i k.
Proof. intros Hk. unfold may_move. by rewrite fn_lookup_insert_ne. Qed.

Lemma moves_own N s t m pc l :
  turn_inv N s → t < N → so_worker (strict N) t (so_mem s) (so_pcs s t) = Some (m, pc) → lturn pc = Some l →
  l < N ∧ ∃ d, turn m = (l + d) mod N ∧ d + flags N (may_move N (<[t := pc]> (so_pcs s)) t) ≤ N - 1 ∧ (pc = TuFinal l → d ≠ 0).
Proof.
  intros Hv Ht Hw Hl. destruct (lturn_own N t _ _ _ _ l Hw Hl) as [-> [(_ & -> & Hpc)|[Hold Hpc]]].
  - pose proof (tv_range N s Hv ltac:(lia)) as Hr. split; [done|]. exists 0. rewrite Nat.add_0_r, Nat.mod_small by done.
    split_and!; [done| |done]. apply (flags_but N _ t); [done|]. unfold may_move. by rewrite bool_decide_false by auto.
  - destruct (tv_moves N s Hv t l Ht Hold) as (Hlt & d & Hm & Hd & _). split; [done|]. exists d. split_and!; [done| |].
    + rewrite (flags_ext N (may_move N (so_pcs s) t)); [done|]. intros k _. destruct (decide (k = t)) as [->|]; [|by apply may_move_frame].
      unfold may_move. by rewrite bool_decide_false by auto.
    + intros Hf ->. apply (Hpc Hf). rewrite Hm, Nat.add_0_r. by rewrite Nat.mod_small.
Qed.

Lemma moves_other N s t m pc i l :
  turn_inv N s → flag_inv N (strict N) s → t < N → i ≠ t → i < N →
  so_worker (strict N) t (so_mem s) (so_pcs s t) = Some (m, pc) → lturn (so_pcs s i) = Some l →
  l < N ∧ ∃ d, turn m = (l + d) mod N ∧ d + flags N (may_move N (<[t := pc]> (so_pcs s)) i) ≤ N - 1 ∧ (so_pcs s i = TuFinal l → d ≠ 0).
Proof.
  intros Hv Hf Ht Hne Hi Hw Hl. destruct (tv_moves N s Hv i l Hi Hl) as (Hlt & d & Hm & Hd & Hfin). split; [done|].
  pose proof (may_move_keep N s t m pc i Hf Ht Hne Hi ltac:(eauto) Hw) as Hkeep.
  pose proof (flags_set N (may_move N (so_pcs s) i) (may_move N (<[t := pc]> (so_pcs s)) i) t Ht) as Hfl.
  specialize (Hfl ltac:(intros; by apply may_move_frame)).
  destruct (turn_frame N t _ _ _ _ Hw) as [->|(l' & Hpc & -> & ->)].
  - exists d. split_and!; [done| |done].
    destruct (may_move N (<[t := pc]> (so_pcs s)) i t) eqn:Hn; [rewrite (proj1 (Hkeep eq_refl)) in Hfl|]; lia.
  - exists (S d). rewrite (tv_exit N s Hv t l' Hpc), Hm. split_and!; [|..|lia].
    + rewrite Nat.Div0.add_mod_idemp_l. f_equal. lia.
    + assert (may_move N (so_pcs s) i t = true) as Hold by (unfold may_move; rewrite Hpc; by rewrite bool_decide_true).
      rewrite Hold in Hfl. destruct (may_move N (<[t := TuExit2]> (so_pcs s)) i t); [|lia].
      by destruct (proj2 (Hkeep eq_refl) l').
Qed.

Lemma turn_step N s t m pc :
  turn_inv N s → reachable (sys := mutex_lts (H := soft_mutex N (strict N))) s → t < N →
  so_worker (strict N) t (so_mem s) (so_pcs s t) = Some (m, pc) → turn_inv N (SoftState m (<[t := pc]> (so_pcs s))).
Proof.
  intros Hv Hr Ht Hw. pose proof (flag_reachable N (strict N) s Hr) as Hf. split; simpl.
  - intros HN. destruct (turn_frame N t _ _ _ _ Hw) as [->|(l & Hpc & _ & ->)]; [by apply Hv|].
    rewrite (tv_exit N s Hv t l Hpc). apply Nat.mod_upper_bound. lia.
  - intros u l Hu. same_tid t u; [subst pc; by destruct (exit_own N t _ _ _ l Hw) as [-> ->]|].
    destruct (turn_frame N t _ _ _ _ Hw) as [->|(l' & Hpc & _)]; [by apply (tv_exit N s Hv u)|].
    assert (t = u) as Heq; [|done]. apply (flag_exclusive N (strict N) s t u Hr); simpl; by rewrite ?Hpc, ?Hu.
  - intros u l Hu Hl. same_tid t u; [by apply moves_own|]. by apply (moves_other N s t).
Qed.

(** Both algorithms reach the same states. *)
Lemma tu_strict N s :
  reachable (sys := mutex_lts (H := soft_mutex N (algorithm N))) s →
  reachable (sys := mutex_lts (H := soft_mutex N (strict N))) s ∧ turn_inv N s.
Proof.
  revert s. apply (soft_invariant N (algorithm N)).
  - intros m Hm. split; [apply reachable_init; by split|]. split; simpl; [|done|done]. destruct Hm as [_ ->]. lia.
  - intros s t m pc [Hr Hv] Ht Hw. rewrite turn_strict in Hw by done. split; [|by apply turn_step].
    apply (reachable_step (sys := mutex_lts (H := soft_mutex N (strict N))) (t, tt) s); [exact Hr|]. simpl. unfold soft_step. by rewrite bool_decide_true, Hw by done.
Qed.

Lemma tu_exclusive N : lock_exclusive (soft_mutex N (algorithm N)).
Proof. intros s t u [Hr _]%tu_strict. by apply (flag_exclusive N (strict N) s t u). Qed.

(** ** Progress *)

Lemma last_such (P : nat → Prop) `{!∀ u, Decision (P u)} l :
  Forall (λ v, ¬ P v) l ∨ ∃ l1 u l2, l = l1 ++ u :: l2 ∧ P u ∧ Forall (λ v, ¬ P v) l2.
Proof.
  induction l as [|v l [IH|(l1 & u & l2 & -> & Hu & H2)]]; [by left; constructor| |by right; exists (v :: l1), u, l2].
  destruct (decide (P v)); [right; by exists [], v, l|left; by constructor].
Qed.

Lemma first_such (P : nat → Prop) `{!∀ u, Decision (P u)} l :
  Forall (λ v, ¬ P v) l ∨ ∃ l1 u l2, l = l1 ++ u :: l2 ∧ P u ∧ Forall (λ v, ¬ P v) l1.
Proof.
  induction l as [|v l IH]; [by left; constructor|]. destruct (decide (P v)); [right; by exists [], v, l|].
  destruct IH as [IH|(l1 & u & l2 & -> & Hu & H1)]; [left|right; exists (v :: l1), u, l2; split_and!; [done..|]]; by constructor.
Qed.

Lemma split_unique (u : nat) l1 l2 k1 k2 :
  u ∉ l1 → u ∉ k1 → l1 ++ u :: l2 = k1 ++ u :: k2 → l1 = k1 ∧ l2 = k2.
Proof.
  revert k1. induction l1 as [|v l1 IH]; intros [|w k1] Hl Hk Heq; simplify_eq/=; [done|set_solver..|].
  destruct (IH k1) as [-> ->]; [set_solver..|done|done].
Qed.

(** Where a thread of the ring stands. *)
Lemma ring_split N T l1 u l2 :
  T < N → seq T (N - T) ++ seq 0 T = l1 ++ u :: l2 → u < N ∧ left_of N u T = l1 ∧ right_of N u T = l2.
Proof.
  intros HT Heq. assert (u < N) as Hu by (apply (ring_elem N T); [done|]; rewrite Heq; set_solver). split; [done|].
  assert (∀ k1 k2, seq T (N - T) ++ seq 0 T = k1 ++ u :: k2 → u ∉ k1) as Hout.
  { intros k1 k2 Hk. pose proof (ring_nodup N T) as Hnd. rewrite Hk in Hnd. apply NoDup_app in Hnd. set_solver. }
  pose proof (ring N u T HT Hu) as Hring. apply (split_unique u); [by eapply Hout..|]. by rewrite <-Hring, <-Heq.
Qed.

Definition state_of (pc : wpc) : State :=
  match pc with TuIdle => UNLOCKED | TuWLeft _ _ | TuWLoad | TuRelock => WAITING | _ => LOCKED end.

Section progress.
Context (N : nat).
Local Abbreviation go := (go (algorithm N)).
Local Abbreviation reach := (reachable (sys := mutex_lts (H := soft_mutex N (algorithm N)))).

Definition tu_todo (pc : wpc) : Prop :=
  match pc with
  | TuLeft l todo | TuRight l todo => l < N ∧ ∀ i, i ∈ todo → i < N
  | TuWLeft _ todo => ∀ i, i ∈ todo → i < N
  | TuWhile l | TuExit l => l < N
  | _ => True
  end.

Definition tu_ok (m : memory) (t : tid) (pc : wpc) : Prop :=
  (0 < N → turn m < N) ∧ states m t = state_of pc ∧ tu_todo pc.

Lemma tu_todo_step t m pc m' pc' :
  t < N → turn m < N → tu_todo pc → so_worker (algorithm N) t m pc = Some (m', pc') → tu_todo pc' ∧ turn m' < N.
Proof.
  intros Ht HT Hok Hw. pose proof (left_lt N t) as Hl. pose proof (right_lt N t) as Hr.
  assert ((turn m + 1) mod N < N) by (apply Nat.mod_upper_bound; lia).
  worker_inv Hw pc; split_and?; eauto; set_solver.
Qed.

Lemma tu_reach_ok s t : reach s → tu_ok (so_mem s) t (so_pcs s t).
Proof.
  intros Hr. revert t. eapply soft_local; [..|exact Hr]; clear s Hr.
  - intros m t [Hm HT]. split_and!; [by rewrite HT|apply Hm|done].
  - intros t m pc m' pc' Ht (HT & Hst & Htodo) Hw. destruct (tu_todo_step t m pc m' pc') as [??]; [done|apply HT; lia|done..|].
    split_and!; [done| |done]. worker_inv Hw pc; by simpl_fn.
  - intros t u m pc m' pc' pcu Hne Ht (HT & Hst & Htodo) Hw (_ & Hu & Hv).
    destruct (tu_todo_step t m pc m' pc') as [??]; [done|apply HT; lia|done..|].
    split_and!; [done| |done]. worker_inv Hw pc; by simpl_fn.
Qed.

(** The loops over the threads, alone. *)
Lemma tu_left_ok t m l todo :
  (∀ i, i ∈ todo → i < N ∧ states m i = UNLOCKED) → go t (m, TuLeft l todo) (m, TuWhile l).
Proof.
  intros Hok. eapply rtc_r; [eapply (go_list _ t m (TuLeft l)); [|exact Hok]|done].
  intros i rest [Hi Hu]. simpl. by rewrite ld_lt, Hu.
Qed.

Lemma tu_left_any t m l todo :
  (∀ i, i ∈ todo → i < N) → go t (m, TuLeft l todo) (m, TuWhile l) ∨ go t (m, TuLeft l todo) (m, TuFail l).
Proof.
  intros Hok. destruct (go_list_any (algorithm N) t m (TuLeft l) (TuFail l) (λ i, i < N) todo) as [Hgo|Hgo];
    [|exact Hok|left; by eapply rtc_r|by right].
  intros i rest Hi. simpl. rewrite ld_lt by done. simpl. case_bool_decide; auto.
Qed.

Lemma tu_right_ok t m l todo :
  (∀ i, i ∈ todo → i < N ∧ states m i ≠ LOCKED) → go t (m, TuRight l todo) (m, TuRight l []).
Proof.
  intros Hok. eapply (go_list _ t m (TuRight l)); [|exact Hok].
  intros i rest [Hi Hu]. simpl. rewrite ld_lt by done. simpl. by rewrite bool_decide_false.
Qed.

Lemma tu_right_any t m l todo :
  (∀ i, i ∈ todo → i < N) → go t (m, TuRight l todo) (m, TuRight l []) ∨ go t (m, TuRight l todo) (m, TuWhile l).
Proof.
  apply (go_list_any (algorithm N) t m (TuRight l)).
  intros i rest Hi. simpl. rewrite ld_lt by done. simpl. case_bool_decide; auto.
Qed.

Lemma tu_wleft_ok t m todo :
  (∀ i, i ∈ todo → i < N ∧ states m i = UNLOCKED) → go t (m, TuWLeft (turn m) todo) (m, TuRelock).
Proof.
  intros Hok. eapply rtc_r; [eapply (go_list _ t m (TuWLeft (turn m))); [|exact Hok]|simpl; by rewrite bool_decide_true].
  intros i rest [Hi Hu]. simpl. by rewrite ld_lt, Hu.
Qed.

Lemma tu_wleft_any t m l todo :
  (∀ i, i ∈ todo → i < N) → go t (m, TuWLeft l todo) (m, TuRelock) ∨ go t (m, TuWLeft l todo) (m, TuWLoad).
Proof.
  intros Hok. destruct (go_list_any (algorithm N) t m (TuWLeft l) TuWLoad (λ i, i < N) todo) as [Hgo|Hgo]; [|exact Hok| |by right].
  - intros i rest Hi. simpl. rewrite ld_lt by done. simpl. case_bool_decide; auto.
  - destruct (decide (l = turn m)); [left|right]; (eapply rtc_r; [exact Hgo|]); simpl; by rewrite ?bool_decide_true, ?bool_decide_false by done.
Qed.

(** A thread with no flag up behind it gets in, or gives up. *)
Lemma tu_drive t m pc :
  t < N → turn m < N → tu_todo pc → state_of pc = LOCKED → owns (tu_phase pc) = false →
  (∀ i, i ∈ right_of N t (turn m) → states m i ≠ LOCKED) →
  go t (m, pc) (m, TuCs) ∨ ∃ l, go t (m, pc) (m, TuFail l).
Proof.
  intros Ht HT Htodo Hst Hno Hright.
  assert (∀ l, l = turn m → go t (m, TuRight l []) (m, TuCs)) as Hend.
  { intros l ->. apply rtc_once. simpl. by rewrite bool_decide_true. }
  assert (go t (m, TuWhile (turn m)) (m, TuCs)) as Hwhile.
  { eapply go_step; [simpl; by rewrite bool_decide_true|]. eapply go_trans; [apply tu_right_ok|by apply Hend].
    intros i Hi. split; [by apply (right_lt N t (turn m))|by apply Hright]. }
  assert (go t (m, TuTurn) (m, TuCs) ∨ ∃ l, go t (m, TuTurn) (m, TuFail l)) as Hturn.
  { destruct (tu_left_any t m (turn m) (left_of N t (turn m))) as [Hgo|Hgo]; [by intros i; apply left_lt|left|right; exists (turn m)];
      (eapply go_step; [done|]); [by eapply go_trans|done]. }
  assert (∀ pc', go t (m, pc') (m, TuTurn) → go t (m, pc') (m, TuCs) ∨ ∃ l, go t (m, pc') (m, TuFail l)) as Hback.
  { intros pc' Hgo. destruct Hturn as [Hc|[l Hf]]; [left|right; exists l]; by eapply go_trans. }
  assert (∀ l, l ≠ turn m → go t (m, TuWhile l) (m, TuTurn) ∧ go t (m, TuFinal l) (m, TuTurn) ∧ go t (m, TuRight l []) (m, TuTurn)) as Hstale.
  { intros l Hl. assert (go t (m, TuFinal l) (m, TuTurn)) by (apply rtc_once; simpl; by rewrite bool_decide_false).
    split_and!; [|done|apply rtc_once; simpl; by rewrite bool_decide_false]. eapply go_step; [simpl; by rewrite bool_decide_false|done]. }
  assert (∀ l, go t (m, TuWhile l) (m, TuCs) ∨ ∃ l', go t (m, TuWhile l) (m, TuFail l')) as Hany.
  { intros l. destruct (decide (l = turn m)) as [->|Hl]; [by left|]. apply Hback. by apply Hstale. }
  destruct pc as [| |l todo|l| | | |l|l todo|l| | |]; try done.
  - destruct Htodo as [_ Hi]. destruct (tu_left_any t m l todo Hi) as [Hgo|Hgo]; [|right; by exists l].
    destruct (Hany l) as [Hc|[l' Hf]]; [left|right; exists l']; by eapply go_trans.
  - right. exists l. apply rtc_refl.
  - destruct Htodo as [_ Hi]. destruct (tu_right_any t m l todo Hi) as [Hgo|Hgo].
    + destruct (decide (l = turn m)) as [Hl|Hl]; [left; eapply go_trans; [exact Hgo|by apply Hend]|].
      apply Hback. eapply go_trans; [exact Hgo|]. by apply Hstale.
    + destruct (Hany l) as [Hc|[l' Hf]]; [left|right; exists l']; by eapply go_trans.
  - destruct (decide (l = turn m)) as [->|Hl]; [left; apply rtc_once; simpl; by rewrite bool_decide_true|].
    apply Hback. by apply Hstale.
Qed.

(** When moreover nobody stands before it, it gets in. *)
Definition first_in (t : tid) (m : memory) : Prop :=
  (∀ i, i ∈ left_of N t (turn m) → states m i = UNLOCKED) ∧ (∀ i, i ∈ right_of N t (turn m) → states m i ≠ LOCKED).

Lemma first_in_set t m v : t < N → first_in t m → first_in t (Memory (<[t := v]> (states m)) (turn m)).
Proof.
  intros Ht [Hl Hr]. unfold first_in. simpl.
  split; intros i Hi; (rewrite fn_lookup_insert_ne; [by auto|]); intros <-; revert Hi;
    unfold left_of, right_of; case_bool_decide; rewrite ?elem_of_app, !elem_of_seq; lia.
Qed.

Lemma tu_turn_in t m : t < N → turn m < N → first_in t m → go t (m, TuTurn) (m, TuCs).
Proof.
  intros Ht HT [Hl Hr]. eapply go_step; [done|]. eapply go_trans; [apply tu_left_ok; intros i Hi; split; [by apply (left_lt N t (turn m))|by apply Hl]|].
  eapply go_step; [simpl; by rewrite bool_decide_true|]. eapply rtc_r; [apply tu_right_ok|simpl; by rewrite bool_decide_true].
  intros i Hi. split; [by apply (right_lt N t (turn m))|by apply Hr].
Qed.

Lemma tu_wait_in t m pc :
  t < N → turn m < N → tu_todo pc → state_of pc = WAITING → first_in t m → ∃ m', go t (m, pc) (m', TuCs).
Proof.
  intros Ht HT Htodo Hst Hf. exists (Memory (<[t := LOCKED]> (states m)) (turn m)).
  assert (go t (m, TuRelock) (Memory (<[t := LOCKED]> (states m)) (turn m), TuCs)) as Hre.
  { eapply go_step; [done|]. apply tu_turn_in; [done..|]. by apply first_in_set. }
  assert (go t (m, TuWLoad) (Memory (<[t := LOCKED]> (states m)) (turn m), TuCs)) as Hload.
  { eapply go_step; [done|]. eapply go_trans; [apply tu_wleft_ok|exact Hre].
    intros i Hi. split; [by apply (left_lt N t (turn m))|by apply Hf]. }
  destruct pc; try done. destruct (tu_wleft_any t m l todo Htodo); by eapply go_trans.
Qed.

Lemma tu_in t m pc :
  t < N → turn m < N → tu_todo pc → owns (tu_phase pc) = false → first_in t m → ∃ m', go t (m, pc) (m', TuCs).
Proof.
  intros Ht HT Htodo Hno Hf. destruct (state_of pc) eqn:Hst; [|by apply tu_wait_in|].
  - destruct pc; try done. eexists. eapply go_step; [done|]. apply tu_turn_in; [done..|]. by apply first_in_set.
  - destruct (tu_drive t m pc) as [Hgo|[l Hgo]]; [done..|apply Hf|by exists m|].
    set (m1 := Memory (<[t := WAITING]> (states m)) (turn m)).
    destruct (tu_wait_in t m1 (TuWLeft l (left_of N t l))) as [m' Hgo']; [done|done| |done|by apply first_in_set|].
    + intros i. by apply left_lt.
    + exists m'. eapply go_trans; [exact Hgo|]. by eapply go_step.
Qed.

Lemma tu_alone : soft_alone N (algorithm N).
Proof.
  intros s t Hr Ht%soft_step_lt Hidle Ho. destruct (tu_reach_ok s t Hr) as (HT & _ & Htodo).
  destruct (tu_in t (so_mem s) (so_pcs s t)) as [m' Hgo]; [done|apply HT; lia|done..| |].
  - assert (∀ i, i ≠ t → states (so_mem s) i = UNLOCKED) as Hu.
    { intros i Hi. destruct (tu_reach_ok s i Hr) as (_ & -> & _). specialize (Hidle i Hi). by destruct (so_pcs s i). }
    destruct (first_in_set t (Memory (λ _, UNLOCKED) (turn (so_mem s))) LOCKED) as [Hl Hrt]; [done|by split|].
    simpl in Hl, Hrt. split; intros i Hi; (destruct (decide (i = t)) as [->|]; [|by rewrite Hu]).
    + apply Hl in Hi. by rewrite fn_lookup_insert in Hi.
    + apply Hrt in Hi. by rewrite fn_lookup_insert in Hi.
  - by apply (go_solo N (algorithm N) t s m' TuCs (λ p, p = Holding)).
Qed.

Lemma tu_release : soft_release N (algorithm N).
Proof.
  intros s t Hr Ho. assert (t < N) as Ht by (apply (soft_range _ _ s t Hr); intros Heq; by rewrite Heq in Ho).
  assert (∀ m, go t (m, TuExit2) (Memory (<[t := UNLOCKED]> (states m)) (turn m), TuIdle)) as H2 by (intros m; by apply rtc_once).
  assert (∃ m, go t (so_mem s, so_pcs s t) (m, TuIdle)) as [m Hgo].
  { destruct (so_pcs s t); try done; eexists.
    - eapply go_step; [done|]. eapply go_step; [done|apply H2].
    - eapply go_step; [done|apply H2].
    - apply H2. }
  by apply (go_solo N (algorithm N) t s m TuIdle (λ p, p = Idle)).
Qed.

(** The last one in the ring that has its flag up gets in or gives up; when there is none, the
    first one that waits gets in. *)
Lemma tu_live : soft_live N (algorithm N).
Proof.
  set (up := λ m : memory, λ u, bool_decide (states m u = LOCKED)).
  apply (soft_live_measure N (algorithm N) (λ m, flags N (up m))). intros s t Hr Hw Hno.
  assert (t < N) as Ht by (apply (soft_range _ _ s t Hr); by rewrite Hw).
  set (m := so_mem s). assert (turn m < N) as HT by (apply (tu_reach_ok s t Hr); lia).
  destruct (last_such (λ u, states m u = LOCKED) (seq (turn m) (N - turn m) ++ seq 0 (turn m))) as [Hnone|(l1 & u & l2 & Heq & Hup & Hl2)].
  - destruct (first_such (λ u, states m u ≠ UNLOCKED) (seq (turn m) (N - turn m) ++ seq 0 (turn m))) as [Hall|(l1 & u & l2 & Heq & Hup & Hl1)].
    + rewrite Forall_forall in Hall. destruct (Hall t); [by apply ring_elem|]. destruct (tu_reach_ok s t Hr) as (_ & Hst & _).
      unfold m. rewrite Hst. by destruct (so_pcs s t).
    + destruct (ring_split N (turn m) l1 u l2 HT Heq) as (Hu & Hleft & Hright). rewrite Forall_forall in Hnone, Hl1.
      destruct (tu_reach_ok s u Hr) as (_ & _ & Htodo).
      destruct (tu_in u m (so_pcs s u)) as [m' Hgo]; [done..| |exists u, m', TuCs; auto].
      split; [rewrite Hleft; intros i Hi; apply dec_stable; by apply Hl1|rewrite Hright].
      intros i Hi. apply Hnone. rewrite Heq. set_solver.
  - destruct (ring_split N (turn m) l1 u l2 HT Heq) as (Hu & _ & Hright). rewrite Forall_forall in Hl2.
    destruct (tu_reach_ok s u Hr) as (_ & Hst & Htodo).
    destruct (tu_drive u m (so_pcs s u)) as [Hgo|[l Hgo]]; [done..|by rewrite <-Hst|done|by rewrite Hright|exists u, m, TuCs; auto|].
    exists u, (Memory (<[u := WAITING]> (states m)) (turn m)), (TuWLeft l (left_of N u l)).
    split_and!; [done|by eapply rtc_r|right]. split; [done|].
    apply (flags_lower N _ _ u); unfold up; simpl; [done| |by apply bool_decide_eq_true|by simpl_fn]. intros v Hne. by simpl_fn.
Qed.

Lemma tu_safe : soft_safe N (algorithm N).
Proof.
  apply soft_safe_intro; [apply _|]. intros s t Hr Ht Hp. destruct (tu_reach_ok s t Hr) as (_ & _ & Htodo).
  destruct (so_pcs s t) as [| |l [|]|l|l [|]| | |l|l [|]|l| |l|]; simpl in *; try rewrite ld_lt by set_solver; simpl;
    repeat case_bool_decide; eauto.
Qed.
End progress.
