(* ===== verification/PetersonBuhr.v ===== *)
(** * The tournament of Peterson and Buhr

    [C11/papers/cralgorithm/PetersonBuhrC11.c]: the threads are the leaves of a binary tree whose
    inner nodes are two-thread locks by Peterson.  A thread wins the nodes from
    its leaf to the root, and releases them in the opposite order. *)

From S2P Require Import Prelude Lts Mutex SoftLock.

#[local] Arguments Nat.div : simpl never.
#[local] Arguments Nat.modulo : simpl never.

(** ** Data *)

Inductive Intent := DontWantIn | WantIn.

#[export] Instance pb_intent_dec : EqDecision Intent.
Proof. solve_decision. Defined.

(** The array [t] of [TokenC11]: of each node the two flags and the turn. *)
Record memory := Memory {
  q : nat → nat → Intent;
  turn : nat → nat;
}.

(** Program points of [Worker]; [lv] is the level of the node. *)
Inductive wpc :=
  | PbIdle
  | PbWant (lv : nat)      (** [lv <= level]; [binary_prologue]: [q[id] = WantIn] *)
  | PbTurn (lv : nat)      (** [turn = id] *)
  | PbOther (lv : nat)     (** [q[other] != DontWantIn] *)
  | PbWait (lv : nat)      (** [turn == id] *)
  | PbCs
  | PbTop (lv : nat)       (** [binary_epilogue] of the root: [q[id] = DontWantIn] *)
  | PbExit (lv : nat)      (** the same further down *).

#[export] Instance pb_wpc_dec : EqDecision wpc.
Proof. solve_decision. Defined.

(** ** Operations *)

Definition inv (c : nat) : nat := Nat.lxor c 1.

(** [states[id]] as [ctor] fills it: side and node of each level. *)
Fixpoint fill (fuel start : nat) : list (nat * nat) :=
  match fuel with
  | 0 => []
  | S fuel => if bool_decide (1 < start) then (Nat.land start 1, Nat.shiftr start 1) :: fill fuel (Nat.shiftr start 1) else []
  end.

Definition states (N id : nat) : list (nat * nat) := fill (N + id) (N + id).

(** [levels[id]], plus one. *)
Definition depth (N id : nat) : nat := Nat.log2 (N + id).

Definition ctor (m : memory) : Prop := (∀ i e, q m i e = DontWantIn) ∧ ∀ i, turn m i = 0.

(** The next round of the loop of the exit protocol. *)
Definition epilogue (lv : nat) : wpc := match lv with 0 => PbIdle | S lv => PbExit lv end.

Definition set_q (m : memory) (i e : nat) (v : Intent) : memory := Memory (<[i := <[e := v]> (q m i)]> (q m)) (turn m).

(** Side and node; the node has to be one of the [N] that there are. *)
Definition node (N id lv : nat) : option (nat * nat) :=
  '(e, i) ← states N id !! lv; if bool_decide (i < N) then Some (e, i) else None.

Definition Worker (N : nat) (id : tid) (m : memory) (pc : wpc) : option (memory * wpc) :=
  match pc with
  | PbIdle => Some (m, PbWant 0)
  | PbWant lv =>
      if bool_decide (lv < depth N id) then '(e, i) ← node N id lv; Some (set_q m i e WantIn, PbTurn lv)
      else Some (m, PbCs)
  | PbTurn lv => '(e, i) ← node N id lv; Some (Memory (q m) (<[i := e]> (turn m)), PbOther lv)
  | PbOther lv =>
      '(e, i) ← node N id lv;
      Some (m, if bool_decide (q m i (inv e) ≠ DontWantIn) then PbWait lv else PbWant (lv + 1))
  | PbWait lv => '(e, i) ← node N id lv; Some (m, if bool_decide (turn m i = e) then PbOther lv else PbWant (lv + 1))
  | PbCs => Some (m, match depth N id with 0 => PbIdle | S lv => PbTop lv end)
  | PbTop lv | PbExit lv => '(e, i) ← node N id lv; Some (set_q m i e DontWantIn, epilogue lv)
  end.

(** The lock is given up at the root. *)
Definition pb_phase (pc : wpc) : phase :=
  match pc with PbIdle => Idle | PbCs => Holding | PbTop _ => Unlocking | PbExit _ => Leaving | _ => Waiting end.

Definition algorithm (N : nat) : soft memory wpc := Soft ctor PbIdle (Worker N) pb_phase.

#[export] Instance pb_shape N : SoftShape (algorithm N).
Proof.
  split; [done|]. intros t m pc m' pc' Hw. unfold so_worker, algorithm, Worker in Hw.
  destruct pc as [|lv|lv|lv|lv| |lv|lv]; try destruct (node N t lv) as [[e i]|]; simplify_eq/=;
    unfold epilogue in *; repeat case_match; by simplify_eq/=.
Qed.

(** ** The tree

    The nodes are numbered as in a heap: the leaf of thread [t] is [N + t], and the parent of [x] is
    [x / 2]. *)

Definition at_ (N t k : nat) : nat := (N + t) / 2 ^ k.

Lemma at_S N t k : at_ N t (S k) = at_ N t k / 2.
Proof. unfold at_. rewrite Nat.Div0.div_div, Nat.pow_succ_r'. f_equal. lia. Qed.

Lemma at_pos N t k : t < N → k ≤ depth N t → 1 ≤ at_ N t k.
Proof.
  intros Ht Hk. unfold at_. apply Nat.div_le_lower_bound; [by apply Nat.pow_nonzero|]. rewrite Nat.mul_1_r.
  transitivity (2 ^ depth N t); [by apply Nat.pow_le_mono_r|]. apply Nat.log2_spec. lia.
Qed.

Lemma at_depth N t : t < N → at_ N t (depth N t) = 1.
Proof.
  intros Ht. unfold at_, depth. pose proof (Nat.log2_spec (N + t) ltac:(lia)) as [Hl Hu].
  symmetry. apply (Nat.div_unique _ _ 1 (N + t - 2 ^ Nat.log2 (N + t))); [rewrite Nat.pow_succ_r' in Hu|]; lia.
Qed.

Lemma at_lt N t k j : t < N → k < j → j ≤ depth N t → at_ N t j < at_ N t k.
Proof.
  intros Ht Hkj. induction Hkj as [|j Hkj IH]; intros Hj; rewrite at_S.
  - apply Nat.div_lt; [pose proof (at_pos N t k Ht)|]; lia.
  - pose proof (Nat.div_lt (at_ N t j) 2) as Hd. pose proof (at_pos N t j Ht). lia.
Qed.

Lemma at_inj N t k j : t < N → k ≤ depth N t → j ≤ depth N t → at_ N t k = at_ N t j → k = j.
Proof.
  intros Ht Hk Hj Heq. destruct (decide (k < j)) as [Hlt|]; [pose proof (at_lt N t k j Ht Hlt Hj); lia|].
  destruct (decide (j < k)) as [Hlt|]; [pose proof (at_lt N t j k Ht Hlt Hk); lia|lia].
Qed.

Lemma at_node N t k : t < N → at_ N t (S k) < N.
Proof.
  intros Ht. rewrite at_S. unfold at_. apply Nat.Div0.div_lt_upper_bound.
  apply (Nat.le_lt_trans _ (N + t)); [|lia]. apply Nat.Div0.div_le_upper_bound.
  pose proof (Nat.pow_nonzero 2 k). nia.
Qed.

(** The array [states] holds the path from the leaf to the root. *)
Lemma fill_lookup fuel x k :
  x ≤ fuel → k < Nat.log2 x → fill fuel x !! k = Some ((x / 2 ^ k) mod 2, x / 2 ^ k / 2).
Proof.
  revert x k. induction fuel as [|fuel IH]; intros x k Hx Hk; pose proof (proj2 (Nat.log2_null x)) as Hlow; [lia|].
  assert (1 < x) as H1 by lia. simpl. rewrite bool_decide_true by done.
  pose proof (Nat.land_ones x 1) as Hland. change (Nat.ones 1) with 1 in Hland. pose proof (Nat.shiftr_div_pow2 x 1) as Hshift.
  change (2 ^ 1) with 2 in *. change (Nat.div2 x) with (Nat.shiftr x 1). rewrite Hland, Hshift. destruct k as [|k]; [by rewrite Nat.pow_0_r, Nat.div_1_r|].
  pose proof (Nat.div_lt x 2). pose proof (Nat.log2_shiftr x 1) as Hlog. rewrite Hshift in Hlog.
  rewrite Nat.pow_succ_r', <-Nat.Div0.div_div. apply IH; lia.
Qed.

Lemma node_at N t lv : t < N → lv < depth N t → node N t lv = Some (at_ N t lv mod 2, at_ N t (S lv)).
Proof.
  intros Ht Hlv. pose proof (fill_lookup (N + t) (N + t) lv (le_n _) Hlv) as Hf. fold (at_ N t lv) in Hf. rewrite <-at_S in Hf.
  unfold node, states, mbind, option_bind. rewrite Hf, bool_decide_true; [done|by apply at_node].
Qed.

(** The flag of [x] is one of those of its parent. *)
Definition flag (m : memory) (x : nat) : Intent := q m (x / 2) (x mod 2).

Definition set_flag (m : memory) (x : nat) (v : Intent) : memory := set_q m (x / 2) (x mod 2) v.

Definition set_turn (m : memory) (x : nat) : memory := Memory (q m) (<[x / 2 := x mod 2]> (turn m)).

Lemma same_child x y : x / 2 = y / 2 → x mod 2 = y mod 2 → x = y.
Proof. intros H1 H2. pose proof (Nat.div_mod_eq x 2). pose proof (Nat.div_mod_eq y 2). lia. Qed.

Lemma flag_set m x v : flag (set_flag m x v) x = v.
Proof. unfold flag, set_flag, set_q. simpl. by rewrite !fn_lookup_insert. Qed.

Lemma flag_set_ne m x y v : x ≠ y → flag (set_flag m x v) y = flag m y.
Proof.
  intros Hne. unfold flag, set_flag, set_q. simpl. destruct (decide (x / 2 = y / 2)) as [Heq|]; [|by rewrite fn_lookup_insert_ne].
  rewrite <-Heq, fn_lookup_insert, fn_lookup_insert_ne; [done|]. intros Hm. by apply Hne, same_child.
Qed.

(** The other child of the same parent. *)
Lemma inv_mod x : inv (x mod 2) = 1 - x mod 2.
Proof. pose proof (Nat.mod_upper_bound x 2). destruct (x mod 2) as [|[|]]; [done..|lia]. Qed.

Lemma other_child x y : x / 2 = y / 2 → x ≠ y → y mod 2 = 1 - x mod 2.
Proof.
  intros Hd Hne. pose proof (Nat.mod_upper_bound x 2). pose proof (Nat.mod_upper_bound y 2).
  destruct (decide (x mod 2 = y mod 2)); [|lia]. by destruct Hne; apply same_child.
Qed.

Lemma two_children x y z : x / 2 = y / 2 → x / 2 = z / 2 → x ≠ y → x ≠ z → y = z.
Proof.
  intros Hy Hz ??. apply same_child; [congruence|]. by rewrite (other_child x y), (other_child x z).
Qed.

(** ** Steps *)

(** The steps of [Worker], in terms of the tree. *)
Inductive pb_step (N : nat) (t : tid) (m : memory) : wpc → memory → wpc → Prop :=
  | ps_start : pb_step N t m PbIdle m (PbWant 0)
  | ps_want lv : lv < depth N t → pb_step N t m (PbWant lv) (set_flag m (at_ N t lv) WantIn) (PbTurn lv)
  | ps_in : pb_step N t m (PbWant (depth N t)) m PbCs
  | ps_turn lv : pb_step N t m (PbTurn lv) (set_turn m (at_ N t lv)) (PbOther lv)
  | ps_pass lv :
      q m (at_ N t lv / 2) (1 - at_ N t lv mod 2) = DontWantIn → pb_step N t m (PbOther lv) m (PbWant (S lv))
  | ps_busy lv : pb_step N t m (PbOther lv) m (PbWait lv)
  | ps_win lv : turn m (at_ N t lv / 2) ≠ at_ N t lv mod 2 → pb_step N t m (PbWait lv) m (PbWant (S lv))
  | ps_again lv : pb_step N t m (PbWait lv) m (PbOther lv)
  | ps_out0 : depth N t = 0 → pb_step N t m PbCs m PbIdle
  | ps_out lv : depth N t = S lv → pb_step N t m PbCs m (PbTop lv)
  | ps_top lv : pb_step N t m (PbTop lv) (set_flag m (at_ N t lv) DontWantIn) (epilogue lv)
  | ps_exit lv : pb_step N t m (PbExit lv) (set_flag m (at_ N t lv) DontWantIn) (epilogue lv).

(** The levels of a program point exist. *)
Definition pb_level (N : nat) (t : tid) (pc : wpc) : Prop :=
  match pc with
  | PbWant lv => lv ≤ depth N t
  | PbTurn lv | PbOther lv | PbWait lv | PbExit lv => lv < depth N t
  | PbTop lv => S lv = depth N t
  | _ => True
  end.

Lemma pb_worker N t m pc m' pc' : t < N → pb_level N t pc → Worker N t m pc = Some (m', pc') → pb_step N t m pc m' pc'.
Proof.
  intros Ht Hlv Hw. unfold Worker in Hw.
  destruct pc as [|lv|lv|lv|lv| |lv|lv]; simpl in Hlv;
    rewrite ?node_at in Hw by (done || lia); rewrite ?Nat.add_1_r, ?at_S in Hw; cbn [mbind option_bind] in Hw.
  - simplify_eq/=. constructor.
  - case_bool_decide as Hc.
    + rewrite node_at, at_S in Hw by done. simplify_eq/=. by constructor.
    + simplify_eq/=. replace lv with (depth N t) by lia. constructor.
  - simplify_eq/=. constructor.
  - case_bool_decide as Hc; simplify_eq/=; constructor. by rewrite <-inv_mod.
  - case_bool_decide as Hc; simplify_eq/=; by constructor.
  - destruct (depth N t) eqn:Hd; simplify_eq/=; by constructor.
  - simplify_eq/=. constructor.
  - simplify_eq/=. constructor.
Qed.

(** ** Exclusion *)

(** How many nodes a thread has won, and at how many it has its flag up. *)
Definition won (N : nat) (t : tid) (pc : wpc) : nat :=
  match pc with
  | PbIdle => 0
  | PbWant lv | PbTurn lv | PbOther lv | PbWait lv => lv
  | PbCs => depth N t
  | PbTop lv | PbExit lv => S lv
  end.

Definition up (N : nat) (t : tid) (pc : wpc) : nat :=
  match pc with PbTurn lv | PbOther lv | PbWait lv => S lv | _ => won N t pc end.

(** It has set the turn at this level. *)
Definition turned (pc : wpc) : option nat := match pc with PbOther lv | PbWait lv => Some lv | _ => None end.

Record pb_inv (N : nat) (s : soft_state memory wpc) : Prop := {
  pi_level t : t < N → pb_level N t (so_pcs s t);
  pi_turn i : turn (so_mem s) i < 2;
  pi_up t k : t < N → k < up N t (so_pcs s t) → flag (so_mem s) (at_ N t k) = WantIn;
  pi_who x : flag (so_mem s) x = WantIn → ∃ t k, t < N ∧ k < up N t (so_pcs s t) ∧ at_ N t k = x;
  (** No two threads have won the same node. *)
  pi_won t u k j : t < N → u < N → t ≠ u → k ≤ won N t (so_pcs s t) → j ≤ won N u (so_pcs s u) → at_ N t k ≠ at_ N u j;
  (** Who meets the winner of a node has set the turn after it. *)
  pi_last t u k j :
    t < N → u < N → t ≠ u → k < won N t (so_pcs s t) → turned (so_pcs s u) = Some j →
    at_ N t k / 2 = at_ N u j / 2 → turn (so_mem s) (at_ N u j / 2) = at_ N u j mod 2;
}.

Lemma up_won N t pc : up N t pc ≤ S (won N t pc).
Proof. destruct pc; simpl; lia. Qed.

Lemma turned_up N t pc lv : turned pc = Some lv → won N t pc = lv ∧ up N t pc = S lv.
Proof. destruct pc; intros; by simplify_eq/=. Qed.

Lemma won_depth N t pc : pb_level N t pc → won N t pc ≤ depth N t.
Proof. destruct pc; simpl; lia. Qed.

(** The node that [t] is about to win is free. *)
Lemma pb_free N s t lv u j :
  pb_inv N s → t < N → u < N → t ≠ u → turned (so_pcs s t) = Some lv →
  q (so_mem s) (at_ N t lv / 2) (1 - at_ N t lv mod 2) = DontWantIn ∨ turn (so_mem s) (at_ N t lv / 2) ≠ at_ N t lv mod 2 →
  j ≤ won N u (so_pcs s u) → at_ N t (S lv) ≠ at_ N u j.
Proof.
  intros Hi Ht Hu Hne Hlv Hpass Hj Heq. destruct (turned_up N t _ _ Hlv) as [Hw Hup].
  destruct j as [|j]; [pose proof (at_node N t lv Ht); unfold at_ in Heq at 2; rewrite Nat.pow_0_r, Nat.div_1_r in Heq; lia|].
  rewrite !at_S in Heq. assert (at_ N t lv ≠ at_ N u j) as Hside by (apply (pi_won N s Hi); lia).
  destruct Hpass as [Hq|Hturn].
  - assert (flag (so_mem s) (at_ N u j) = WantIn) as Hf.
    { apply (pi_up N s Hi); [done|]. pose proof (up_won N u (so_pcs s u)). destruct (so_pcs s u); simpl in *; lia. }
    unfold flag in Hf. rewrite <-Heq, (other_child _ _ Heq Hside) in Hf. congruence.
  - apply Hturn. apply (pi_last N s Hi u t j lv); auto.
Qed.

(** What a step does to the flags, to the turns, and to what has been won. *)
Section steps.
Context (N : nat) (t : tid) (m : memory) (pc : wpc) (m' : memory) (pc' : wpc).
Hypothesis (Ht : t < N) (Hlevel : pb_level N t pc) (Hstep : pb_step N t m pc m' pc').

Lemma pb_step_level : pb_level N t pc'.
Proof using All. destruct Hstep as [| | | | | | | | | |[]|[]]; simpl in *; lia. Qed.

Lemma pb_step_flags :
  up N t pc' = up N t pc ∧ (∀ x, flag m' x = flag m x) ∨
  up N t pc' = S (up N t pc) ∧ m' = set_flag m (at_ N t (up N t pc)) WantIn ∧ up N t pc = won N t pc ∧ S (up N t pc) ≤ depth N t ∨
  up N t pc = S (up N t pc') ∧ m' = set_flag m (at_ N t (up N t pc')) DontWantIn ∧ up N t pc' < won N t pc ∧ up N t pc ≤ depth N t.
Proof using All. destruct Hstep as [| | | | | | | | | |[]|[]]; simpl in *; auto 10 with lia. Qed.

Lemma pb_step_won :
  won N t pc' ≤ won N t pc ∨ ∃ lv, turned pc = Some lv ∧ won N t pc' = S lv ∧ m' = m ∧
    (q m (at_ N t lv / 2) (1 - at_ N t lv mod 2) = DontWantIn ∨ turn m (at_ N t lv / 2) ≠ at_ N t lv mod 2).
Proof using All. destruct Hstep as [| | | | | | | | | |[]|[]]; simpl in *; eauto 10 with lia. Qed.

Lemma pb_step_turn :
  turn m' = turn m ∨ ∃ lv, m' = set_turn m (at_ N t lv) ∧ won N t pc = lv ∧ won N t pc' = lv ∧ lv < depth N t.
Proof using All. destruct Hstep as [| | | | | | | | | |[]|[]]; simpl in *; eauto 10. Qed.

Lemma pb_step_turned lv :
  turned pc' = Some lv → turned pc = Some lv ∧ turn m' = turn m ∨ turn m' (at_ N t lv / 2) = at_ N t lv mod 2.
Proof using All.
  intros Hlv. destruct Hstep as [| | | | | | | | | |[]|[]]; simplify_eq/=; auto. right. by rewrite fn_lookup_insert.
Qed.
End steps.

Section invariant.
Context (N : nat) (s : soft_state memory wpc) (t : tid) (m : memory) (pc : wpc).
Hypothesis (Hi : pb_inv N s) (Ht : t < N) (Hstep : pb_step N t (so_mem s) (so_pcs s t) m pc).
Local Abbreviation s' := (SoftState m (<[t := pc]> (so_pcs s))).

Lemma pb_level_now : pb_level N t (so_pcs s t).
Proof using Hi Ht. by apply (pi_level N s Hi). Qed.

Lemma pb_keep_up u k : u < N → k < up N u (so_pcs s' u) → flag m (at_ N u k) = WantIn.
Proof using All.
  simpl. intros Hu Hk. pose proof (pb_step_flags N t _ _ _ _ Ht pb_level_now Hstep) as Hf.
  assert (∀ j, u ≠ t → j ≤ won N t (so_pcs s t) → k < up N u (so_pcs s u) → at_ N t j ≠ at_ N u k) as Hother.
  { intros j ? Hj Hk'. pose proof (up_won N u (so_pcs s u)). apply (pi_won N s Hi); auto with lia. }
  destruct Hf as [[Hup Hf]|[(Hup & -> & Hw & Hd)|(Hup & -> & Hw & Hd)]].
  - rewrite Hf. apply (pi_up N s Hi); [done|]. same_tid t u; congruence.
  - same_tid t u; [|rewrite flag_set_ne by (apply Hother; auto with lia); by apply (pi_up N s Hi)].
    destruct (decide (k = up N t (so_pcs s t))) as [->|]; [apply flag_set|].
    rewrite flag_set_ne; [apply (pi_up N s Hi); lia|]. intros Heq. apply at_inj in Heq; lia.
  - same_tid t u; [|rewrite flag_set_ne by (apply Hother; auto with lia); by apply (pi_up N s Hi)].
    rewrite flag_set_ne; [apply (pi_up N s Hi); lia|]. intros Heq. apply at_inj in Heq; lia.
Qed.

Lemma pb_keep_who x : flag m x = WantIn → ∃ u k, u < N ∧ k < up N u (so_pcs s' u) ∧ at_ N u k = x.
Proof using All.
  simpl. intros Hx. pose proof (pb_step_flags N t _ _ _ _ Ht pb_level_now Hstep) as Hf.
  assert (flag (so_mem s) x = WantIn → (∀ k, k < up N t (so_pcs s t) → at_ N t k = x → k < up N t pc) →
    ∃ u k, u < N ∧ k < up N u (<[t := pc]> (so_pcs s) u) ∧ at_ N u k = x) as Hold.
  { intros Hq Hk. destruct (pi_who N s Hi x Hq) as (u & k & Hu & Hlt & Heq). exists u, k. split_and!; [done| |done].
    same_tid t u; [by apply Hk|done]. }
  destruct Hf as [[Hup Hf]|[(Hup & -> & Hw & Hd)|(Hup & -> & Hw & Hd)]].
  - apply Hold; [by rewrite <-Hf|]. intros; lia.
  - destruct (decide (at_ N t (up N t (so_pcs s t)) = x)) as [Heq|Hne].
    + exists t, (up N t (so_pcs s t)). rewrite fn_lookup_insert. split_and!; [done|lia|done].
    + apply Hold; [by rewrite flag_set_ne in Hx|]. intros; lia.
  - destruct (decide (at_ N t (up N t pc) = x)) as [Heq|Hne]; [rewrite <-Heq, flag_set in Hx; done|].
    apply Hold; [by rewrite flag_set_ne in Hx|]. intros k Hk Heq. destruct (decide (k = up N t pc)) as [->|]; [done|lia].
Qed.

Lemma pb_keep_won u v k j :
  u < N → v < N → u ≠ v → k ≤ won N u (so_pcs s' u) → j ≤ won N v (so_pcs s' v) → at_ N u k ≠ at_ N v j.
Proof using All.
  simpl. assert (∀ v k j, v < N → t ≠ v → k ≤ won N t pc → j ≤ won N v (so_pcs s v) → at_ N t k ≠ at_ N v j) as Hnew.
  { clear u v k j. intros v k j Hv Hne Hk Hj. destruct (decide (k ≤ won N t (so_pcs s t))); [by apply (pi_won N s Hi)|].
    destruct (pb_step_won N t _ _ _ _ Ht pb_level_now Hstep) as [|(lv & Hlv & Hw & _ & Hp)]; [lia|].
    destruct (turned_up N t _ _ Hlv). replace k with (S lv) by lia. by apply (pb_free N s). }
  intros Hu Hv Hne Hk Hj. same_tid t u; [by apply Hnew|]. same_tid t v; [apply not_eq_sym, Hnew; auto|by apply (pi_won N s Hi)].
Qed.

(** A thread that sets the turn leaves alone the nodes at which others meet. *)
Lemma pb_turn_other u v k j :
  u < N → v < N → u ≠ v → t ≠ v → (u ≠ t → k ≤ won N u (so_pcs s u)) → (u = t → k < won N t (so_pcs s t)) →
  j ≤ won N v (so_pcs s v) → at_ N u k / 2 = at_ N v j / 2 → turn m (at_ N v j / 2) = turn (so_mem s) (at_ N v j / 2).
Proof using All.
  intros Hu Hv Hne Htv Hk Hkt Hj Hpar. destruct (pb_step_turn N t _ _ _ _ Ht pb_level_now Hstep) as [->|(lv & -> & Hw & _ & Hd)]; [done|].
  simpl. rewrite fn_lookup_insert_ne; [done|]. intros Heq. destruct (decide (u = t)) as [->|Hut].
  - specialize (Hkt eq_refl). rewrite <-Hpar, <-!at_S in Heq. apply at_inj in Heq; lia.
  - specialize (Hk Hut). apply (pi_won N s Hi u v k j); [done..|]. apply (two_children (at_ N t lv)); [congruence..| |];
      apply (pi_won N s Hi); auto with lia.
Qed.

Lemma pb_keep_last u v k j :
  u < N → v < N → u ≠ v → k < won N u (so_pcs s' u) → turned (so_pcs s' v) = Some j →
  at_ N u k / 2 = at_ N v j / 2 → turn m (at_ N v j / 2) = at_ N v j mod 2.
Proof using All.
  simpl. intros Hu Hv Hne Hk Hj Hpar. destruct (decide (v = t)) as [->|Hvt].
  { rewrite fn_lookup_insert in Hj. rewrite fn_lookup_insert_ne in Hk by done.
    destruct (pb_step_turned N t _ _ _ _ Ht pb_level_now Hstep j Hj) as [[Hold ->]|]; [|done]. by apply (pi_last N s Hi u t k). }
  rewrite fn_lookup_insert_ne in Hj by done. destruct (turned_up N v _ _ Hj) as [Hwv Huv].
  destruct (decide (u = t)) as [->|Hut].
  2:{ rewrite fn_lookup_insert_ne in Hk by done. rewrite (pb_turn_other u v k j) by (congruence || lia). by apply (pi_last N s Hi u v k). }
  rewrite fn_lookup_insert in Hk. destruct (decide (k < won N t (so_pcs s t))) as [Hold|Hnew].
  { rewrite (pb_turn_other t v k j) by (congruence || lia). by apply (pi_last N s Hi t v k). }
  destruct (pb_step_won N t _ _ _ _ Ht pb_level_now Hstep) as [|(lv & Hlv & Hw & -> & Hp)]; [lia|].
  destruct (turned_up N t _ _ Hlv) as [Hwt _]. assert (k = lv) as -> by lia.
  assert (at_ N v j mod 2 = 1 - at_ N t lv mod 2) as Hside by (apply other_child; [done|]; apply (pi_won N s Hi); lia).
  destruct Hp as [Hq|Hturn].
  - pose proof (pi_up N s Hi v j Hv ltac:(lia)) as Hf. unfold flag in Hf. rewrite <-Hpar, Hside in Hf. congruence.
  - rewrite <-Hpar. pose proof (pi_turn N s Hi (at_ N t lv / 2)). pose proof (Nat.mod_upper_bound (at_ N t lv) 2). lia.
Qed.

Lemma pb_inv_step : pb_inv N s'.
Proof using All.
  split; simpl.
  - intros u Hu. same_tid t u; [by apply (pb_step_level N t _ _ _ _ Ht pb_level_now Hstep)|by apply (pi_level N s Hi)].
  - intros i. destruct (pb_step_turn N t _ _ _ _ Ht pb_level_now Hstep) as [->|(lv & -> & _)]; [by apply (pi_turn N s Hi)|].
    simpl. destruct (decide (at_ N t lv / 2 = i)) as [<-|]; simpl_fn; [by apply Nat.mod_upper_bound|by apply (pi_turn N s Hi)].
  - apply pb_keep_up.
  - apply pb_keep_who.
  - apply pb_keep_won.
  - apply pb_keep_last.
Qed.
End invariant.

Lemma pb_reachable N s : reachable (sys := mutex_lts (H := soft_mutex N (algorithm N))) s → pb_inv N s.
Proof.
  apply soft_invariant; clear s.
  - intros m [Hq Hturn]. split; simpl.
    + done.
    + intros i. rewrite Hturn. lia.
    + intros; lia.
    + intros x Hx. unfold flag in Hx. by rewrite Hq in Hx.
    + intros t u k j Ht Hu Hne Hk Hj. assert (k = 0 ∧ j = 0) as [-> ->] by lia. unfold at_. rewrite Nat.pow_0_r, !Nat.div_1_r. lia.
    + intros; lia.
  - intros s t m pc Hi Ht Hw. apply pb_inv_step; [done..|]. by apply pb_worker; [|apply (pi_level N s Hi)|].
Qed.

(** The root is won by one thread. *)
Lemma pb_exclusive N : lock_exclusive (soft_mutex N (algorithm N)).
Proof.
  intros s t u Hr Ht Hu. simpl in *. destruct (decide (t = u)) as [|Hne]; [done|]. exfalso.
  pose proof (pb_reachable N s Hr) as Hi.
  assert (∀ v, owns (pb_phase (so_pcs s v)) = true → v < N ∧ won N v (so_pcs s v) = depth N v) as Hown.
  { intros v Hv. assert (v < N) as Hlt by (apply (soft_range _ _ s v Hr); simpl; by destruct (so_pcs s v)). split; [done|].
    pose proof (pi_level N s Hi v Hlt). by destruct (so_pcs s v). }
  destruct (Hown t Ht) as [Htl Htw], (Hown u Hu) as [Hul Huw].
  apply (pi_won N s Hi t u (depth N t) (depth N u)); [done..|lia|lia|]. by rewrite !at_depth.
Qed.

(** ** Progress *)

Section progress.
Context (N : nat).
Local Abbreviation go := (go (algorithm N)).
Local Abbreviation reach := (reachable (sys := mutex_lts (H := soft_mutex N (algorithm N)))).

(** The other contender at level [j] does not want in. *)
Definition other_down (t : tid) (m : memory) (j : nat) : Prop := q m (at_ N t j / 2) (1 - at_ N t j mod 2) = DontWantIn.

#[local] Instance other_down_dec t m j : Decision (other_down t m j).
Proof. unfold other_down. apply _. Defined.

Lemma other_down_flag t m j x : other_down t m j → x / 2 = at_ N t j / 2 → x ≠ at_ N t j → flag m x = DontWantIn.
Proof. intros Hd Hpar Hne. unfold flag. rewrite Hpar, (other_child (at_ N t j) x) by congruence. done. Qed.

Lemma other_up_flag t m j : ¬ other_down t m j → ∃ x, x / 2 = at_ N t j / 2 ∧ x ≠ at_ N t j ∧ flag m x = WantIn.
Proof.
  unfold other_down. intros Hd. exists (2 * (at_ N t j / 2) + (1 - at_ N t j mod 2)).
  pose proof (Nat.mod_upper_bound (at_ N t j) 2) as Hm. pose proof (Nat.div_mod_eq (at_ N t j) 2) as He.
  set (d := at_ N t j / 2) in *. set (e := at_ N t j mod 2) in *.
  assert ((2 * d + (1 - e)) / 2 = d) as Hdiv by (symmetry; apply (Nat.div_unique _ _ _ (1 - e)); lia).
  assert ((2 * d + (1 - e)) mod 2 = 1 - e) as Hmod by (symmetry; apply (Nat.mod_unique _ _ d); lia).
  split_and!; [done|lia|]. unfold flag. rewrite Hdiv, Hmod. by destruct (q m d (1 - e)).
Qed.

(** Its own flags and turns are no concern of the thread. *)
Lemma other_down_set t m j k v : t < N → j < depth N t → k < depth N t → other_down t (set_flag m (at_ N t k) v) j ↔ other_down t m j.
Proof.
  intros Ht Hj Hk. unfold other_down, set_flag, set_q. simpl. destruct (decide (k = j)) as [->|Hne].
  - rewrite fn_lookup_insert, fn_lookup_insert_ne; [done|]. pose proof (Nat.mod_upper_bound (at_ N t j) 2). lia.
  - rewrite fn_lookup_insert_ne; [done|]. rewrite <-!at_S. intros Heq. apply at_inj in Heq; lia.
Qed.

Lemma pb_pass t m lv pc :
  t < N → lv < depth N t → pc = PbOther lv ∨ pc = PbWait lv →
  other_down t m lv ∨ turn m (at_ N t lv / 2) ≠ at_ N t lv mod 2 → go t (m, pc) (m, PbWant (S lv)).
Proof.
  intros Ht Hlv Hpc Hfree.
  assert (∀ b : bool, bool_decide (turn m (at_ N t lv / 2) = at_ N t lv mod 2) = b →
    so_worker (algorithm N) t m (PbWait lv) = Some (m, if b then PbOther lv else PbWant (S lv))) as Hwait.
  { intros b <-. simpl. rewrite node_at, at_S by done. simpl. by rewrite Nat.add_1_r. }
  assert (so_worker (algorithm N) t m (PbOther lv) =
    Some (m, if bool_decide (q m (at_ N t lv / 2) (1 - at_ N t lv mod 2) ≠ DontWantIn) then PbWait lv else PbWant (S lv))) as Hother.
  { simpl. rewrite node_at, at_S by done. simpl. by rewrite inv_mod, Nat.add_1_r. }
  assert (go t (m, PbOther lv) (m, PbWant (S lv))) as Hgo.
  { destruct (decide (other_down t m lv)) as [Hd|Hd]; unfold other_down in Hd.
    - apply rtc_once. cbn [fst snd]. rewrite Hother, bool_decide_false; [done|]. auto.
    - destruct Hfree as [|Hturn]; [done|]. eapply go_step; [by rewrite Hother, bool_decide_true|].
      apply rtc_once. cbn [fst snd]. apply (Hwait false). by apply bool_decide_false. }
  destruct Hpc as [-> | ->]; [done|]. destruct (bool_decide (turn m (at_ N t lv / 2) = at_ N t lv mod 2)) eqn:Hb.
  - by eapply go_step; [apply (Hwait true eq_refl)|].
  - apply rtc_once. by apply (Hwait false).
Qed.

(** A thread with nobody on the other side gets to the root. *)
Lemma pb_climb t m lv :
  t < N → lv ≤ depth N t → (∀ j, lv ≤ j < depth N t → other_down t m j) → ∃ m', go t (m, PbWant lv) (m', PbCs).
Proof.
  intros Ht Hle. remember (depth N t - lv) as n eqn:Hn. revert lv m Hle Hn. induction n as [|n IH]; intros lv m Hle Hn Hd.
  { exists m. apply rtc_once. simpl. by rewrite bool_decide_false by lia. }
  set (m1 := set_flag m (at_ N t lv) WantIn). set (m2 := set_turn m1 (at_ N t lv)).
  assert (∀ j, lv ≤ j < depth N t → other_down t m2 j) as Hd2.
  { intros j Hj. apply (other_down_set t m j lv WantIn); [lia..|]. by apply Hd. }
  destruct (IH (S lv) m2) as [m' Hgo]; [lia|lia|intros; apply Hd2; lia|]. exists m'.
  eapply (go_step _ _ _ _ m1 (PbTurn lv)); [simpl; rewrite bool_decide_true, node_at, at_S by lia; done|].
  eapply (go_step _ _ _ _ m2 (PbOther lv)); [simpl; rewrite node_at, at_S by lia; done|].
  eapply go_trans; [apply (pb_pass t m2 lv); auto with lia|exact Hgo].
Qed.

(** Releasing the nodes below the root. *)
Lemma pb_down t m lv : t < N → lv < depth N t → ∃ m', go t (m, PbExit lv) (m', PbIdle) ∧ ∀ j, j < depth N t → other_down t m j → other_down t m' j.
Proof.
  intros Ht. revert m. induction lv as [|lv IH]; intros m Hlv.
  - exists (set_flag m (at_ N t 0) DontWantIn). split; [apply rtc_once; simpl; by rewrite node_at, at_S by done|].
    intros j Hj. by apply other_down_set.
  - destruct (IH (set_flag m (at_ N t (S lv)) DontWantIn)) as (m' & Hgo & Hd); [lia|]. exists m'.
    split; [eapply go_step; [simpl; by rewrite node_at, (at_S N t (S lv)) by done|done]|].
    intros j Hj Hdown. apply Hd; [done|]. by apply other_down_set.
Qed.

(** Who wants in at a node stands on the way to it. *)
Lemma pb_other s t j :
  pb_inv N s → t < N → j < depth N t → ¬ other_down t (so_mem s) j →
  ∃ u k, u < N ∧ u ≠ t ∧ k < up N u (so_pcs s u) ∧ k < depth N u ∧ at_ N u (S k) = at_ N t (S j) ∧ at_ N u k ≠ at_ N t j.
Proof.
  intros Hi Ht Hj (x & Hpar & Hne & Hx)%other_up_flag. destruct (pi_who N s Hi x Hx) as (u & k & Hu & Hk & <-).
  assert (k < depth N u) as Hd.
  { pose proof (pi_level N s Hi u Hu). destruct (so_pcs s u); simpl in *; lia. }
  exists u, k. rewrite !at_S. split_and!; [done| |done..]. intros ->. apply Hne. f_equal.
  rewrite <-!at_S in Hpar. apply at_inj in Hpar; lia.
Qed.

Lemma pb_advance t m lv pc :
  t < N → lv < depth N t → turned pc = Some lv →
  other_down t m lv ∨ turn m (at_ N t lv / 2) ≠ at_ N t lv mod 2 → (∀ j, lv < j < depth N t → other_down t m j) →
  ∃ m', go t (m, pc) (m', PbCs).
Proof.
  intros Ht Hlv Hpc Hpass Hd. destruct (pb_climb t m (S lv)) as [m' Hgo]; [done|lia|intros; apply Hd; lia|].
  exists m'. eapply go_trans; [|exact Hgo]. apply pb_pass; [done..| |done]. destruct pc; simplify_eq/=; auto.
Qed.

Lemma pb_alone : soft_alone N (algorithm N).
Proof.
  intros s t Hr Ht%soft_step_lt Hidle Ho. pose proof (pb_reachable N s Hr) as Hi.
  assert (∀ j, j < depth N t → other_down t (so_mem s) j) as Hd.
  { intros j Hj. apply dec_stable. intros (u & k & _ & Hne & Hk & _)%pb_other; [|done..].
    specialize (Hidle u Hne). simpl in Hidle. destruct (so_pcs s u); simpl in *; (done || lia). }
  assert (∃ m, go t (so_mem s, so_pcs s t) (m, PbCs)) as [m Hgo]; [|by apply (go_solo N (algorithm N) t s m PbCs (λ p, p = Holding))].
  assert (∀ m, (∀ j, j < depth N t → other_down t m j) → ∃ m', go t (m, PbIdle) (m', PbCs)) as Hstart.
  { intros m Hm. destruct (pb_climb t m 0) as [m' Hgo]; [done|lia|intros; apply Hm; lia|]. exists m'. by eapply go_step. }
  pose proof (pi_level N s Hi t Ht) as Hlv. destruct (so_pcs s t) as [|lv|lv|lv|lv| |lv|lv] eqn:Hpc; simpl in *; try done.
  - by apply Hstart.
  - apply pb_climb; [done..|]. intros; apply Hd; lia.
  - destruct (pb_advance t (set_turn (so_mem s) (at_ N t lv)) lv (PbOther lv)) as [m Hgo]; [done..|left; by apply Hd|intros; apply Hd; lia|].
    exists m. eapply go_step; [simpl; by rewrite node_at, at_S by done|done].
  - apply (pb_advance t _ lv); [done..|left; by apply Hd|intros; apply Hd; lia].
  - apply (pb_advance t _ lv); [done..|left; by apply Hd|intros; apply Hd; lia].
  - destruct (pb_down t (so_mem s) lv Ht Hlv) as (m1 & Hgo1 & Hm1). destruct (Hstart m1) as [m Hgo]; [auto|].
    exists m. by eapply go_trans.
Qed.

Lemma pb_release : soft_release N (algorithm N).
Proof.
  intros s t Hr Ho. assert (t < N) as Ht by (apply (soft_range _ _ s t Hr); intros Heq; by rewrite Heq in Ho).
  assert (∀ m lv, S lv = depth N t → ∃ m', go t (m, PbTop lv) (m', PbIdle)) as Htop.
  { intros m lv Hlv. destruct (pb_down t m lv) as (m' & Hgo & _); [done|lia|]. exists m'.
    inversion Hgo as [|? [m1 pc1] ? Hstep Hrest]; simplify_eq/=. by eapply go_step. }
  pose proof (pi_level N s (pb_reachable N s Hr) t Ht) as Hlv.
  assert (∃ m, go t (so_mem s, so_pcs s t) (m, PbIdle)) as [m Hgo].
  { destruct (so_pcs s t) as [|lv|lv|lv|lv| |lv|lv]; simpl in *; try done; [|by apply Htop].
    destruct (depth N t) as [|lv] eqn:Hd.
    - exists (so_mem s). apply rtc_once. simpl. by rewrite Hd.
    - destruct (Htop (so_mem s) lv) as [m Hgo]; [done|]. exists m. eapply go_step; [simpl; by rewrite Hd|done]. }
  by apply (go_solo N (algorithm N) t s m PbIdle (λ p, p = Idle)).
Qed.

(** A waiting thread with no node below the one that it waits at. *)
Definition lowest (s : soft_state memory wpc) (x : nat) : Prop := ∀ v k, v < N → k < up N v (so_pcs s v) → x ≤ at_ N v (S k).

Lemma lowest_above s t lv j :
  pb_inv N s → t < N → lowest s (at_ N t (S lv)) → lv < j < depth N t → other_down t (so_mem s) j.
Proof.
  intros Hi Ht Hlow Hj. apply dec_stable. intros (u & k & Hu & _ & Hk & _ & Heq & _)%pb_other; [|done|done|lia].
  specialize (Hlow u k Hu Hk). pose proof (at_lt N t (S lv) (S j) Ht). lia.
Qed.

(** Of two threads at the lowest node, the one whose turn it is goes on. *)
Lemma pb_lowest s t lv :
  pb_inv N s → (∀ u, u < N → 0 < up N u (so_pcs s u) → ∃ j, turned (so_pcs s u) = Some j) →
  t < N → turned (so_pcs s t) = Some lv → lowest s (at_ N t (S lv)) →
  ∃ u m, u < N ∧ go u (so_mem s, so_pcs s u) (m, PbCs).
Proof.
  intros Hi Hall Ht Hlv Hlow.
  assert (∀ u j, u < N → turned (so_pcs s u) = Some j → j < depth N u) as Hdepth.
  { intros u j Hu Hj. pose proof (pi_level N s Hi u Hu). destruct (so_pcs s u); by simplify_eq/=. }
  destruct (decide (other_down t (so_mem s) lv ∨ turn (so_mem s) (at_ N t lv / 2) ≠ at_ N t lv mod 2)) as [Hpass|Hno].
  { exists t. destruct (pb_advance t (so_mem s) lv (so_pcs s t)) as [m Hgo]; eauto using lowest_above. }
  apply Decidable.not_or in Hno as [Hup Hturn].
  apply dec_stable in Hturn. destruct (pb_other s t lv Hi Ht (Hdepth t lv Ht Hlv) Hup) as (u & k & Hu & Hne & Hk & Hkd & Heq & Hside).
  destruct (Hall u Hu ltac:(lia)) as [j Hj]. destruct (turned_up N u _ _ Hj) as [_ Huj].
  assert (k = j) as ->.
  { destruct (decide (k = j)) as [|Hkj]; [done|]. specialize (Hlow u j Hu ltac:(lia)).
    pose proof (at_lt N u (S k) (S j) Hu ltac:(lia) (Hdepth u j Hu Hj)). lia. }
  exists u. rewrite <-Heq in Hlow. destruct (pb_advance u (so_mem s) j (so_pcs s u)) as [m Hgo]; eauto using lowest_above.
  right. rewrite <-at_S, Heq, at_S, Hturn. rewrite !at_S in Heq. intros Hmod. apply Hside. by apply same_child.
Qed.

(** Steps that a thread can make whatever the others do. *)
Definition weight (pc : wpc) : nat := match pc with PbExit lv => 3 + lv | PbWant _ => 2 | PbTurn _ => 1 | _ => 0 end.

Lemma pb_move s u t :
  pb_inv N s → u < N → pb_phase (so_pcs s t) = Waiting → 0 < weight (so_pcs s u) →
  ∃ m pc, go u (so_mem s, so_pcs s u) (m, pc) ∧
    (pb_phase pc = Holding ∨ owns (pb_phase pc) = false ∧ (pb_phase pc = Waiting ∨ u ≠ t) ∧ weight pc < weight (so_pcs s u)).
Proof.
  intros Hi Hu Ht Hpos. pose proof (pi_level N s Hi u Hu) as Hlv.
  destruct (so_pcs s u) as [|lv|lv|lv|lv| |lv|lv] eqn:Hpc; simpl in *; try lia.
  - destruct (decide (lv < depth N u)) as [Hlt|Hge].
    + do 2 eexists. split; [apply rtc_once; simpl; by rewrite bool_decide_true, node_at by done|]. right. simpl. auto.
    + do 2 eexists. split; [apply rtc_once; simpl; by rewrite bool_decide_false by done|]. by left.
  - do 2 eexists. split; [apply rtc_once; simpl; by rewrite node_at by done|]. right. simpl. auto.
  - do 2 eexists. split; [apply rtc_once; simpl; by rewrite node_at by done|]. right.
    split_and!; [by destruct lv|right; intros ->; by rewrite Hpc in Ht|destruct lv; simpl; lia].
Qed.

Lemma pb_live : soft_live N (algorithm N).
Proof.
  apply (soft_live_wf N (algorithm N) (λ s, total N (λ u, weight (so_pcs s u)))). intros s t Hr Hw Hno.
  pose proof (pb_reachable N s Hr) as Hi. assert (t < N) as Ht by (apply (soft_range _ _ s t Hr); by rewrite Hw).
  destruct (flags_last N (λ u, bool_decide (0 < weight (so_pcs s u)))) as [Hall|(u & Hu & Hpos%bool_decide_eq_true & _)].
  2:{ destruct (pb_move s u t Hi Hu Hw Hpos) as (m & pc & Hgo & Hend). exists u, m, pc. split_and!; [done..|].
      destruct Hend as [|(Ho & Hw' & Hlt)]; [by left|right]. split_and!; [done..|].
      intros s' _ Hpc Hs'. apply (total_lower N _ _ u); [done| |by rewrite Hpc]. intros v Hv. by rewrite Hs'. }
  assert (∀ u, u < N → so_pcs s u = PbIdle ∨ ∃ j, turned (so_pcs s u) = Some j) as Hstate.
  { intros u Hu. specialize (Hall u Hu). specialize (Hno u). rewrite bool_decide_eq_false in Hall.
    destruct (so_pcs s u); simpl in *; eauto; (done || lia). }
  set (key := λ u, match turned (so_pcs s u) with Some j => Z.of_nat (at_ N u (S j)) | None => 0%Z end).
  destruct (least_key N (λ u, bool_decide (so_pcs s u ≠ PbIdle)) key t Ht) as (u & Hu & Hni%bool_decide_eq_true & Hmin).
  { apply bool_decide_eq_true. intros Heq. by rewrite Heq in Hw. }
  destruct (Hstate u Hu) as [|[lv Hlv]]; [done|].
  destruct (pb_lowest s u lv Hi) as (v & m & Hv & Hgo); [|done|done| |exists v, m, PbCs; auto].
  - intros v Hv Hup. destruct (Hstate v Hv) as [Heq|]; [|done]. rewrite Heq in Hup. simpl in Hup. lia.
  - intros v k Hv Hk. destruct (Hstate v Hv) as [Heq|[j Hj]]; [rewrite Heq in Hk; simpl in Hk; lia|].
    destruct (turned_up N v _ _ Hj) as [_ Hup]. pose proof (pi_level N s Hi v Hv) as Hlev.
    assert (j < depth N v) as Hjd by (destruct (so_pcs s v); by simplify_eq/=).
    assert (at_ N v (S j) ≤ at_ N v (S k)) as Hle.
    { destruct (decide (k = j)) as [->|]; [done|]. pose proof (at_lt N v (S k) (S j) Hv). lia. }
    destruct (decide (v = u)) as [->|Hne]; [by simplify_eq|].
    unfold key in Hmin. specialize (Hmin v Hv). rewrite Hj, Hlv in Hmin. destruct Hmin as [|[]]; [|done|lia..].
    apply bool_decide_eq_true. intros Heq. by rewrite Heq in Hj.
Qed.

Lemma pb_safe : soft_safe N (algorithm N).
Proof.
  apply soft_safe_intro; [apply _|]. intros s t Hr Ht Hp. pose proof (pi_level N s (pb_reachable N s Hr) t Ht) as Hlv.
  destruct (so_pcs s t); simpl in *; repeat case_bool_decide; rewrite ?node_at by (done || lia); simpl; eauto.
Qed.
End progress.
