(* ===== verification/CrLocks.v ===== *)
(** * The algorithms of the harness

    What is shown of the algorithms of [C11/papers/cralgorithm]: Burns and Lynch, Dijkstra,
    Eisenberg and McGuire, the bakery, Hehner and Shyamasundar, Lamport's fast algorithm, the
    turn of Correia and Ramalhete, and the tournament of Peterson and Buhr. *)

From S2P Require Import Prelude Lts Mutex SoftLock.
From S2P Require Import BurnsLynch.
From S2P Require Import Dijkstra.
From S2P Require Import Eisenberg.
From S2P Require Import Bakery.
From S2P Require Import Hehner.
From S2P Require Import LamportFast.
From S2P Require Import CrTurn.
From S2P Require Import PetersonBuhr.

(** No access out of range, mutual exclusion, entry without contention, release, and no deadlock. *)
Record critical {Mem PC : Type} (N : nat) (A : soft Mem PC) : Prop := {
  cr_safe : soft_safe N A;
  cr_exclusive : lock_exclusive (soft_mutex N A);
  cr_alone : soft_alone N A;
  cr_release : soft_release N A;
  cr_live : soft_live N A;
}.

(** C40: For any number [N] of threads that run [Worker], each of the eight algorithms keeps its
    array accesses in range, never has two threads in the critical section, lets a thread that
    competes with nobody in, lets the thread that is in leave, both by the steps of that thread alone, and has no
    deadlock: from every reachable state in which somebody waits and nobody is in, some
    continuation lets a thread in.  Memory is sequentially consistent; the bakery makes at most
    2^31 - 1 calls and Hehner's algorithm at most 2^63 - 2, so that tickets do not overflow. *)
Theorem cr_locks_correct (N : nat) :
  critical N (BurnsLynch.algorithm N) ∧
  critical N (Dijkstra.algorithm N) ∧
  critical N (Eisenberg.algorithm N) ∧
  critical N (Bakery.bakery N) ∧
  critical N (Hehner.hehner N) ∧
  critical N (LamportFast.algorithm N) ∧
  critical N (CrTurn.algorithm N) ∧
  critical N (PetersonBuhr.algorithm N).
Proof.
  split_and!; split;
    auto using bl_safe, bl_exclusive, bl_alone, bl_release, bl_live, dj_safe, dj_exclusive, dj_alone, dj_release, dj_live,
      ei_safe, ei_exclusive, ei_alone, ei_release, ei_live, bk_safe, bk_exclusive, bk_alone, bk_release, bk_live,
      he_safe, he_exclusive, he_alone, he_release, he_live, lf_safe, lf_exclusive, lf_alone, lf_release, lf_live,
      tu_safe, tu_exclusive, tu_alone, tu_release, tu_live, pb_safe, pb_exclusive, pb_alone, pb_release, pb_live.
Qed.
