(* ===== verification/AwnEe.v ===== *)
(** * The ticket lock with waiting nodes that ends on egress

    [ConcurrencyFreaks/C11/locks/ticketawn/ticket_awnee_mutex.c].  A thread that is at
    least two tickets away from the head leaves its node in the array and
    spins on [lockIsMine] there; whoever releases the lock to it sets the flag first
    and increments [egress] afterwards, and the thread still waits for
    [egress].  There is one node for each thread, which a thread uses for one
    lock at a time.  The counters are 64-bit; no thread calls [lock] once
    2^63 - 1 tickets have been drawn. *)

From S2P Require Import Prelude Lts Mutex Tickets.

Local Open Scope Z_scope.

(** ** Data *)

Record ticket_awnee_mutex_t := AwneeMutexT {
  ee_ingress : Z;
  ee_egress : Z;
  ee_maxArrayWaiters : Z;
  ee_waitersArray : list (option tid);   (** nodes are named by their threads *)
}.

(** Program points, with the local variables that are alive. *)
Inductive ee_pc :=
  | EeIdle
  | EeFirst (ticket : Z)    (** [if (egress == ticket) return] *)
  | EeNear (ticket : Z)     (** [while (egress >= ticket-1)] *)
  | EeNear2 (ticket : Z)    (** [if (egress == ticket) return] *)
  | EeRoom (ticket : Z)     (** [while (ticket-egress >= maxArrayWaiters-1)] *)
  | EeTest (ticket : Z)     (** [if (egress < ticket-1)] *)
  | EeReset (ticket : Z)    (** [lockIsMine = false] *)
  | EePut (ticket : Z)      (** [waitersArray[...] = wnode] *)
  | EeTest2 (ticket : Z)    (** [if (egress < ticket-1)] *)
  | EeSpin (ticket : Z)     (** [while (!lockIsMine)] *)
  | EeClear (ticket : Z)    (** [waitersArray[...] = NULL] *)
  | EeEgress (ticket : Z)   (** [while (egress != ticket)] *)
  | EeHeld
  | EeLook (ticket : Z)     (** [wnode = waitersArray[...]] *)
  | EeSignal (ticket : Z) (wnode : tid)   (** [wnode->lockIsMine = true] *)
  | EeStore (ticket : Z)    (** [egress = ticket+1] *).

Record ee_state := EeState {
  ee_mutex : ticket_awnee_mutex_t;
  ee_lockIsMine : tid → bool;            (** of [tlNode] of each thread *)
  ee_pcs : tid → ee_pc;
}.

(** ** Operations, one atomic access per step *)

Definition ticket_awnee_mutex_init (maxArrayWaiters : Z) : ticket_awnee_mutex_t :=
  AwneeMutexT 0 0 maxArrayWaiters (replicate (Z.to_nat maxArrayWaiters) None).

(** The counters; the array is freed. *)
Definition ticket_awnee_mutex_destroy (self : ticket_awnee_mutex_t) : ticket_awnee_mutex_t :=
  AwneeMutexT 0 0 (ee_maxArrayWaiters self) [].

Definition ee_set_array (self : ticket_awnee_mutex_t) (ticket : Z) (v : option tid) : option ticket_awnee_mutex_t :=
  arr ← awn_store (ee_waitersArray self) (awn_index ticket (ee_maxArrayWaiters self)) v;
  Some (AwneeMutexT (ee_ingress self) (ee_egress self) (ee_maxArrayWaiters self) arr).

Definition ticket_awnee_mutex_lock (me : tid) (self : ticket_awnee_mutex_t) (mine : tid → bool) (pc : ee_pc)
    : option (ticket_awnee_mutex_t * (tid → bool) * ee_pc) :=
  let egress := ee_egress self in
  match pc with
  | EeIdle =>
      Some (AwneeMutexT (s64 (ee_ingress self + 1)) egress (ee_maxArrayWaiters self) (ee_waitersArray self), mine,
            EeFirst (ee_ingress self))
  | EeFirst ticket => Some (self, mine, if bool_decide (egress = ticket) then EeHeld else EeNear ticket)
  | EeNear ticket => Some (self, mine, if bool_decide (s64 (ticket - 1) ≤ egress) then EeNear2 ticket else EeRoom ticket)
  | EeNear2 ticket => Some (self, mine, if bool_decide (egress = ticket) then EeHeld else EeNear ticket)
  | EeRoom ticket =>
      Some (self, mine, if bool_decide (s32 (ee_maxArrayWaiters self - 1) ≤ s64 (ticket - egress)) then EeRoom ticket else EeTest ticket)
  | EeTest ticket => Some (self, mine, if bool_decide (egress < s64 (ticket - 1)) then EeReset ticket else EeEgress ticket)
  | EeReset ticket => Some (self, <[me := false]> mine, EePut ticket)
  | EePut ticket => self' ← ee_set_array self ticket (Some me); Some (self', mine, EeTest2 ticket)
  | EeTest2 ticket => Some (self, mine, if bool_decide (egress < s64 (ticket - 1)) then EeSpin ticket else EeClear ticket)
  | EeSpin ticket => Some (self, mine, if mine me then EeClear ticket else EeSpin ticket)
  | EeClear ticket => self' ← ee_set_array self ticket None; Some (self', mine, EeEgress ticket)
  | EeEgress ticket => Some (self, mine, if bool_decide (egress = ticket) then EeHeld else EeEgress ticket)
  | _ => None
  end.

Definition ticket_awnee_mutex_unlock (self : ticket_awnee_mutex_t) (mine : tid → bool) (pc : ee_pc)
    : option (ticket_awnee_mutex_t * (tid → bool) * ee_pc) :=
  match pc with
  | EeHeld => Some (self, mine, EeLook (ee_egress self))
  | EeLook ticket =>
      wnode ← ee_waitersArray self !! awn_index (s64 (ticket + 1)) (ee_maxArrayWaiters self);
      Some (self, mine, match wnode with Some u => EeSignal ticket u | None => EeStore ticket end)
  | EeSignal ticket wnode => Some (self, <[wnode := true]> mine, EeStore ticket)
  | EeStore ticket =>
      Some (AwneeMutexT (ee_ingress self) (s64 (ticket + 1)) (ee_maxArrayWaiters self) (ee_waitersArray self), mine, EeIdle)
  | _ => None
  end.

Definition ticket_awnee_mutex_trylock (self : ticket_awnee_mutex_t) (pc : try_pc)
    : option (ticket_awnee_mutex_t * (try_pc + bool)) :=
  match pc with
  | TryEgress => Some (self, inl (TryIngress (ee_egress self)))
  | TryIngress localE =>
      let localI := ee_ingress self in
      Some (self, if bool_decide (localE = localI) then inl (TryLoad localI) else inr false)
  | TryLoad localI => Some (self, inl (TryCas localI (s64 (ee_ingress self + 1))))
  | TryCas localI new =>
      if bool_decide (ee_ingress self = localI) then
        Some (AwneeMutexT new (ee_egress self) (ee_maxArrayWaiters self) (ee_waitersArray self), inr true)
      else Some (self, inr false)
  end.

(** ** The lock as a transition system *)

Definition ee_phase (pc : ee_pc) : phase :=
  match pc with
  | EeIdle => Idle
  | EeHeld => Holding
  | EeLook _ | EeSignal _ _ | EeStore _ => Unlocking
  | _ => Waiting
  end.

Definition ee_thread (me : tid) (self : ticket_awnee_mutex_t) (mine : tid → bool) (pc : ee_pc) :=
  match ee_phase pc with
  | Holding | Unlocking => ticket_awnee_mutex_unlock self mine pc
  | _ => ticket_awnee_mutex_lock me self mine pc
  end.

Definition ee_step (nthreads : nat) (t : tid) (s : ee_state) : option ee_state :=
  if bool_decide (t < nthreads)%nat && negb (bool_decide (ee_phase (ee_pcs s t) = Idle ∧ ee_ingress (ee_mutex s) = 2 ^ 63 - 1)) then
    '(m, mine, pc) ← ee_thread t (ee_mutex s) (ee_lockIsMine s) (ee_pcs s t);
    Some (EeState m mine (<[t := pc]> (ee_pcs s)))
  else None.

(** The nodes hold anything at first. *)
Definition ee_init (max : Z) (s : ee_state) : Prop :=
  ee_mutex s = ticket_awnee_mutex_init max ∧ ee_pcs s = (λ _, EeIdle).

Definition awnee_mutex (nthreads : nat) (max : Z) : Mutex unit ee_state := {|
  mtx_init := ee_init max;
  mtx_step := λ t _ s, ee_step nthreads t s;
  mtx_phase := λ s t, ee_phase (ee_pcs s t);
|}.

(** ** Invariant *)

Definition ee_ticket (pc : ee_pc) : option Z :=
  match pc with
  | EeIdle | EeHeld => None
  | EeFirst k | EeNear k | EeNear2 k | EeRoom k | EeTest k | EeReset k | EePut k | EeTest2 k | EeSpin k
  | EeClear k | EeEgress k | EeLook k | EeSignal k _ | EeStore k => Some k
  end.

(** The node of the thread is in the array. *)
Definition ee_post (pc : ee_pc) : bool :=
  match pc with EeTest2 _ | EeSpin _ | EeClear _ => true | _ => false end.

Definition ee_near (pc : ee_pc) : bool :=
  match pc with EeTest _ | EeReset _ | EePut _ => true | _ => ee_post pc end.

(** The owner has not passed by the node of [t] yet. *)
Definition ee_waker (t : tid) (pc : ee_pc) : Prop :=
  match pc with EeStore _ => False | EeSignal _ u => u = t | _ => True end.

Section proof.
Context (n : nat) (max : Z).
Hypothesis max_range : 2 ≤ max < 2 ^ 31.

Local Notation ee_line := (line ee_phase ee_ticket).
Local Notation ee_slots := (slots ee_post ee_post ee_near max).

Record ee_inv (s : ee_state) (q : list tid) (h : bool) : Prop := {
  ev_line : ee_line (ee_egress (ee_mutex s)) (ee_pcs s) q h;
  ev_h : h = true → q ≠ [];
  ev_tids : Forall (λ t, (t < n)%nat) q;
  ev_egress : 0 ≤ ee_egress (ee_mutex s);
  ev_ingress : ee_ingress (ee_mutex s) = ee_egress (ee_mutex s) + length q;
  ev_bound : ee_ingress (ee_mutex s) < 2 ^ 63;
  ev_max : ee_maxArrayWaiters (ee_mutex s) = max;
  ev_slots : ee_slots (ee_egress (ee_mutex s)) (ee_waitersArray (ee_mutex s)) q (ee_pcs s);
  (** A thread that spins on its node has been or will be woken up. *)
  ev_spin (i : nat) t k : q !! i = Some t → ee_pcs s t = EeSpin k → ee_lockIsMine s t = false →
    i ≠ 0%nat ∧ (i = 1%nat → ∀ o, q !! 0%nat = Some o → ee_waker t (ee_pcs s o));
}.

Section sim.
Context (s : ee_state) (q : list tid) (h : bool) (t : tid) (Hinv : ee_inv s q h).

Local Notation sim s' := (∃ q' h', qlock_step t q h q' h' ∧ ee_inv s' q' h').
Local Notation egress := (ee_egress (ee_mutex s)).

(** Tickets in the line do not overflow. *)
Lemma ee_ticket_range (i : nat) u : q !! i = Some u → egress + i < 2 ^ 63 - 1.
Proof.
  intros Hi%lookup_lt_Some. pose proof (ev_ingress s q h Hinv). pose proof (ev_bound s q h Hinv). lia.
Qed.

(** A waiting thread moves on to another waiting point. *)
Lemma ee_sim_wait (i : nat) pc mine arr :
  q !! i = Some t → (h = true → i ≠ 0%nat) → ee_phase pc = Waiting → ee_ticket pc = Some (egress + i) →
  (∀ u, u ≠ t → mine u = ee_lockIsMine s u) →
  ee_slots egress arr q (<[t := pc]> (ee_pcs s)) →
  (∀ k, pc = EeSpin k → mine t = false → (1 < i)%nat ∨ ee_pcs s t = pc ∧ ee_lockIsMine s t = false) →
  sim (EeState (AwneeMutexT (ee_ingress (ee_mutex s)) egress (ee_maxArrayWaiters (ee_mutex s)) arr) mine (<[t := pc]> (ee_pcs s))).
Proof.
  intros Hi H0 Hp Hk Hmine Hslots Hspin. exists q, h. split; [constructor|]. destruct Hinv. split; simpl; try done.
  - by eapply line_wait.
  - intros j u k Hj Hu Hm.
    assert (j ≠ 0%nat ∧ (j = 1%nat → ∀ o, q !! 0%nat = Some o → ee_waker u (ee_pcs s o))) as [Hj0 Hj1].
    { same_tid t u; [|eapply ev_spin0; [done..|by rewrite <-Hmine]].
      assert (j = i) as -> by (by eapply line_unique). subst pc. destruct (Hspin k eq_refl Hm) as [?|[? ?]]; [lia|by eapply ev_spin0]. }
    split; [done|]. intros Hj' o Ho. specialize (Hj1 Hj' o Ho). same_tid t o; [|done].
    destruct pc; simpl in *; done.
Qed.

(** A waiting thread whose ticket has come up takes the lock. *)
Lemma ee_sim_admit (i : nat) :
  q !! i = Some t → (h = true → i ≠ 0%nat) → i = 0%nat → ee_post (ee_pcs s t) = false →
  sim (EeState (ee_mutex s) (ee_lockIsMine s) (<[t := EeHeld]> (ee_pcs s))).
Proof.
  intros Hi H0 Hi0 Hpost.
  destruct (line_admit _ _ _ _ _ _ i t EeHeld (ev_line s q h Hinv)) as (-> & [q' ->] & Hl); [done..|by left|].
  exists (t :: q'), true. split; [constructor|]. destruct Hinv. split; simpl; try done.
  - eapply (slots_move _ _ _ _ _ _ _ _ 0%nat); [done|apply ev_line0|done|done|by rewrite Hpost|done].
  - intros j u k Hj Hu Hm. same_tid t u; [done|]. destruct (ev_spin0 j u k Hj Hu Hm) as [Hj0 Hj1].
    split; [done|]. intros Hj' o Ho. simplify_eq/=. by rewrite fn_lookup_insert.
Qed.

(** The owner moves on and keeps the lock. *)
Lemma ee_sim_own q' pc mine :
  q = t :: q' → h = true → ee_phase pc = Unlocking → ee_ticket pc = Some egress → ee_post (ee_pcs s t) = false →
  (∀ u, mine u = false → ee_lockIsMine s u = false) →
  (∀ u k, q' !! 0%nat = Some u → ee_pcs s u = EeSpin k → mine u = false → ee_waker u (ee_pcs s t) → ee_waker u pc) →
  sim (EeState (ee_mutex s) mine (<[t := pc]> (ee_pcs s))).
Proof.
  intros -> -> Hp Hk Hpost Hmine Hwake. exists (t :: q'), true. split; [constructor|].
  destruct Hinv. split; simpl; try done.
  - apply line_own; [done|by rewrite Hp|by right].
  - eapply (slots_move _ _ _ _ _ _ _ _ 0%nat); [done|apply ev_line0|done|by destruct pc|by rewrite Hpost|lia].
  - intros j u k Hj Hu Hm. same_tid t u; [by subst pc|]. destruct (ev_spin0 j u k Hj Hu (Hmine u Hm)) as [Hj0 Hj1].
    split; [done|]. intros -> o Ho. simplify_eq/=. rewrite fn_lookup_insert. eapply Hwake; [done..|]. by apply Hj1.
Qed.

Lemma ee_sim_arrive :
  ee_pcs s t = EeIdle → (t < n)%nat → ee_ingress (ee_mutex s) ≠ 2 ^ 63 - 1 →
  sim (EeState (AwneeMutexT (s64 (ee_ingress (ee_mutex s) + 1)) egress (ee_maxArrayWaiters (ee_mutex s))
                  (ee_waitersArray (ee_mutex s))) (ee_lockIsMine s)
         (<[t := EeFirst (ee_ingress (ee_mutex s))]> (ee_pcs s))).
Proof.
  intros Hpc Ht Hlt.
  assert (t ∉ q) as Hn.
  { intros Hq%(line_queued _ _ _ _ _ _ t (ev_line s q h Hinv)). by rewrite Hpc in Hq. }
  pose proof (ev_ingress s q h Hinv) as Hing. pose proof (ev_bound s q h Hinv). pose proof (ev_egress s q h Hinv).
  rewrite s64_id by lia. exists (q ++ [t]), h. split; [by constructor|]. destruct Hinv. split; simpl; try done.
  - apply line_arrive; [done..|simpl; by f_equal].
  - intros Hh. by destruct q.
  - by apply Forall_app_2, Forall_singleton.
  - rewrite length_app. simpl. lia.
  - lia.
  - apply slots_arrive; [done|by intros []|done..].
  - intros j u k Hj Hu Hm. same_tid t u; [done|].
    apply lookup_app_Some in Hj as [Hj|[_ [_ <-]%list_lookup_singleton_Some]]; [|done].
    destruct (ev_spin0 j u k Hj Hu Hm) as [Hj0 Hj1]. split; [done|]. intros Hj' o Ho.
    apply lookup_app_Some in Ho as [Ho|[Hlen [_ <-]%list_lookup_singleton_Some]]; [|by rewrite fn_lookup_insert].
    rewrite fn_lookup_insert_ne; [by apply Hj1|]. intros <-. by apply Hn, (list_elem_of_lookup_2 q 0).
Qed.

Lemma ee_sim_leave q' :
  q = t :: q' → h = true → ee_pcs s t = EeStore egress →
  sim (EeState (AwneeMutexT (ee_ingress (ee_mutex s)) (s64 (egress + 1)) (ee_maxArrayWaiters (ee_mutex s))
                  (ee_waitersArray (ee_mutex s))) (ee_lockIsMine s) (<[t := EeIdle]> (ee_pcs s))).
Proof.
  intros Hq Hh Hpc. pose proof (ee_ticket_range 0%nat t ltac:(by rewrite Hq)). pose proof (ev_egress s q h Hinv).
  rewrite s64_id by lia. subst q h. exists q', false. split; [constructor|]. destruct Hinv. split; simpl in *; try done.
  - by apply line_leave.
  - by apply Forall_cons in ev_tids0 as [_ ?].
  - lia.
  - lia.
  - apply slots_leave; [done|apply ev_line0|by rewrite Hpc].
  - intros j u k Hj Hu Hm. same_tid t u; [done|]. destruct (ev_spin0 (S j) u k Hj Hu Hm) as [_ Hj1]. split.
    + intros ->. specialize (Hj1 eq_refl t eq_refl). by rewrite Hpc in Hj1.
    + intros -> o Ho. pose proof (ln_in _ _ _ _ _ _ ev_line0 1%nat o Ho) as [Hp _].
      destruct (decide (o = t)) as [->|Hne]; [by rewrite Hpc in Hp|]. rewrite fn_lookup_insert_ne by done.
      by destruct (ee_pcs s o).
Qed.

(** The slot of the next ticket. *)
Lemma ee_look q' wnode :
  q = t :: q' → ee_waitersArray (ee_mutex s) !! awn_index (s64 (egress + 1)) (ee_maxArrayWaiters (ee_mutex s)) = Some wnode →
  ∀ u k, q' !! 0%nat = Some u → ee_pcs s u = EeSpin k → wnode = Some u.
Proof.
  intros Hq Hlook u k Hu Hpc. pose proof (ev_egress s q h Hinv). rewrite (ev_max s q h Hinv) in Hlook.
  pose proof (ee_ticket_range 1%nat u ltac:(by rewrite Hq)). rewrite s64_id, awn_index_slot in Hlook by lia.
  pose proof (sl_post _ _ _ _ _ _ _ _ (ev_slots s q h Hinv) 1%nat u ltac:(by rewrite Hq) ltac:(by rewrite Hpc)) as Hslot.
  change (Z.of_nat 1) with 1 in Hslot. congruence.
Qed.

(** A store to the own slot. *)
Lemma ee_sim_store (i : nat) pc pc' v m :
  ee_pcs s t = pc → ee_near pc = true → q !! i = Some t → (h = true → i ≠ 0%nat) →
  ee_set_array (ee_mutex s) (egress + i) v = Some m →
  (ee_post pc' = true → v = Some t) → (v = Some t ∧ ee_post pc' = true ∨ v = None) →
  ee_phase pc' = Waiting → ee_ticket pc' = Some (egress + i) → (∀ k, pc' ≠ EeSpin k) →
  sim (EeState m (ee_lockIsMine s) (<[t := pc']> (ee_pcs s))).
Proof.
  intros Hpc Hnear Hi H0 Hm Hpost Hv Hp Hk Hns. unfold ee_set_array, awn_store in Hm. pose proof (ev_egress s q h Hinv).
  pose proof (sl_near _ _ _ _ _ _ _ _ (ev_slots s q h Hinv) i t Hi ltac:(by rewrite Hpc)).
  rewrite (ev_max s q h Hinv), awn_index_slot in Hm by lia. case_bool_decide; [|done]. simplify_eq/=.
  pose proof (ee_sim_wait i pc' (ee_lockIsMine s) (<[slot max (egress + i) := v]> (ee_waitersArray (ee_mutex s)))) as Hw.
  rewrite (ev_max s q h Hinv) in Hw. apply Hw; [done..| |by intros k ->; destruct (Hns k)].
  apply slots_write; [lia|done|by intros []|apply Hinv|apply Hinv|done..].
Qed.

Lemma ee_self (m : ticket_awnee_mutex_t) :
  AwneeMutexT (ee_ingress m) (ee_egress m) (ee_maxArrayWaiters m) (ee_waitersArray m) = m.
Proof. by destruct m. Qed.

(** A step of a waiting thread that stores nothing. *)
Lemma ee_sim_quiet (i : nat) pc :
  q !! i = Some t → (h = true → i ≠ 0%nat) → ee_phase pc = Waiting → ee_ticket pc = Some (egress + i) →
  ee_post pc = ee_post (ee_pcs s t) → (ee_near pc = true → ee_near (ee_pcs s t) = true ∨ i < max) →
  (∀ k, pc = EeSpin k → (1 < i)%nat ∨ ee_pcs s t = pc) →
  sim (EeState (ee_mutex s) (ee_lockIsMine s) (<[t := pc]> (ee_pcs s))).
Proof.
  intros Hi H0 Hp Hk Hpost Hnear Hspin. rewrite <-(ee_self (ee_mutex s)). eapply ee_sim_wait; [done..| |].
  - eapply slots_move; [apply Hinv|apply Hinv|done|by rewrite Hpost|by rewrite Hpost|].
    intros [Hn|?]%Hnear; [|done]. by eapply sl_near; [apply Hinv|..].
  - intros k Hs Hm. destruct (Hspin k Hs); auto.
Qed.
End sim.

Lemma ee_sim_lock s q h t m mine pc :
  ee_inv s q h → ee_phase (ee_pcs s t) = Waiting →
  ticket_awnee_mutex_lock t (ee_mutex s) (ee_lockIsMine s) (ee_pcs s t) = Some (m, mine, pc) →
  ∃ q' h', qlock_step t q h q' h' ∧ ee_inv (EeState m mine (<[t := pc]> (ee_pcs s))) q' h'.
Proof.
  intros Hinv Hph Hstep. pose proof (ev_egress s q h Hinv).
  destruct (ee_ticket (ee_pcs s t)) as [k|] eqn:Hk; [|by destruct (ee_pcs s t)].
  destruct (line_waiter _ _ _ _ _ _ t k (ev_line s q h Hinv) Hph Hk) as (i & Hi & -> & H0).
  pose proof (ee_ticket_range s q h Hinv i t Hi).
  destruct (ee_pcs s t) as [|k|k|k|k|k|k|k|k|k|k|k| | | |] eqn:Hpc; simplify_eq/=; rewrite ?s64_id in * by lia.
  - case_bool_decide; [by eapply ee_sim_admit; rewrite ?Hpc; try done; lia|eapply ee_sim_quiet; rewrite ?Hpc; done].
  - case_bool_decide; eapply ee_sim_quiet; rewrite ?Hpc; done.
  - case_bool_decide; [by eapply ee_sim_admit; rewrite ?Hpc; try done; lia|eapply ee_sim_quiet; rewrite ?Hpc; done].
  - rewrite (ev_max s q h Hinv), wrap_s_small by lia.
    case_bool_decide; eapply ee_sim_quiet; rewrite ?Hpc; try done. right. lia.
  - case_bool_decide; eapply ee_sim_quiet; rewrite ?Hpc; auto; done.
  - rewrite <-(ee_self (ee_mutex s)). eapply ee_sim_wait; try done.
    + intros u Hu. by rewrite fn_lookup_insert_ne.
    + eapply slots_move; [apply Hinv|apply Hinv|done|done|by rewrite Hpc|]. intros _. by eapply sl_near; [apply Hinv|done|rewrite Hpc].
  - destruct (ee_set_array _ _ _) as [m'|] eqn:Hm; simplify_eq/=. eapply ee_sim_store; try done. by left.
  - case_bool_decide; eapply ee_sim_quiet; rewrite ?Hpc; try done; try (by left); intros; left; lia.
  - destruct (ee_lockIsMine s t); eapply ee_sim_quiet; rewrite ?Hpc; try done; auto.
  - destruct (ee_set_array _ _ _) as [m'|] eqn:Hm; simplify_eq/=. eapply ee_sim_store; try done. by right.
  - case_bool_decide; [by eapply ee_sim_admit; rewrite ?Hpc; try done; lia|eapply ee_sim_quiet; rewrite ?Hpc; done].
Qed.
Lemma ee_sim_unlock s q h t m mine pc :
  ee_inv s q h → owns (ee_phase (ee_pcs s t)) = true →
  ticket_awnee_mutex_unlock (ee_mutex s) (ee_lockIsMine s) (ee_pcs s t) = Some (m, mine, pc) →
  ∃ q' h', qlock_step t q h q' h' ∧ ee_inv (EeState m mine (<[t := pc]> (ee_pcs s))) q' h'.
Proof.
  intros Hinv Ho Hstep. destruct (line_owner _ _ _ _ _ _ t (ev_line s q h Hinv) Ho) as (q' & Hq & Hh & Hk).
  destruct (ee_pcs s t) as [| | | | | | | | | | | | |k|k u|k] eqn:Hpc; simplify_eq/=.
  - by eapply ee_sim_own; rewrite ?Hpc.
  - destruct Hk as [|[= ->]]; [done|]. destruct (_ !! _) as [wnode|] eqn:Hlook; simplify_eq/=.
    pose proof (ee_look s _ _ t Hinv q' wnode eq_refl Hlook) as Hw.
    destruct wnode as [u|]; eapply ee_sim_own; rewrite ?Hpc; try done; intros v k Hv Hs; specialize (Hw v k Hv Hs); naive_solver.
  - destruct Hk as [|[= ->]]; [done|]. eapply ee_sim_own; rewrite ?Hpc; try done.
    + intros v. same_tid u v; done.
    + intros v k Hv Hs Hm Hw. simpl in Hw. subst v. by rewrite fn_lookup_insert in Hm.
  - destruct Hk as [|[= ->]]; [done|]. by eapply ee_sim_leave.
Qed.

Lemma ee_sim s q h t s' :
  ee_inv s q h → ee_step n t s = Some s' → ∃ q' h', qlock_step t q h q' h' ∧ ee_inv s' q' h'.
Proof.
  intros Hinv Hstep. unfold ee_step in Hstep. destruct (_ && _) eqn:Hg; [|done].
  apply andb_true_iff in Hg as [Ht%bool_decide_eq_true Hfull%negb_true_iff%bool_decide_eq_false].
  destruct (ee_thread _ _ _ _) as [[[m mine] pc]|] eqn:Hth; simplify_eq/=. unfold ee_thread in Hth.
  destruct (ee_phase (ee_pcs s t)) eqn:Hph;
    try (by destruct (ee_pcs s t)); try (by eapply ee_sim_lock); try (by eapply ee_sim_unlock; [done|rewrite Hph|]).
  destruct (ee_pcs s t) eqn:Hpc; simplify_eq/=. eapply ee_sim_arrive; [done..|]. intros Heq. by apply Hfull.
Qed.

(** ** Progress *)

Lemma ee_step_thread t s m mine pc :
  (t < n)%nat → ee_phase (ee_pcs s t) ≠ Idle →
  ee_thread t (ee_mutex s) (ee_lockIsMine s) (ee_pcs s t) = Some (m, mine, pc) →
  ee_step n t s = Some (EeState m mine (<[t := pc]> (ee_pcs s))).
Proof.
  intros Ht Hph Hth. unfold ee_step. rewrite bool_decide_true, bool_decide_false by (done || naive_solver). simpl. by rewrite Hth.
Qed.

#[local] Instance ee_mutex_n : Mutex unit ee_state := awnee_mutex n max.

(** How far a waiting thread at the head is from the lock. *)
Definition ee_rank (pc : ee_pc) : nat :=
  match pc with
  | EeNear _ => 2 | EeRoom _ => 3 | EeTest _ => 2 | EeReset _ => 5 | EePut _ => 4 | EeTest2 _ => 3 | EeSpin _ => 3
  | EeClear _ => 2 | _ => 1
  end.

Record ee_ready (s : ee_state) (t : tid) (k : Z) : Prop := {
  er_tid : (t < n)%nat;
  er_phase : ee_phase (ee_pcs s t) = Waiting;
  er_ticket : ee_ticket (ee_pcs s t) = Some k;
  er_egress : ee_egress (ee_mutex s) = k;
  er_range : 0 ≤ k < 2 ^ 63;
  er_max : ee_maxArrayWaiters (ee_mutex s) = max;
  er_len : length (ee_waitersArray (ee_mutex s)) = Z.to_nat max;
  er_spin : ee_pcs s t = EeSpin k → ee_lockIsMine s t = true;
}.

Lemma ee_ready_index s t k : ee_ready s t k → (awn_index k max < length (ee_waitersArray (ee_mutex s)))%nat.
Proof.
  intros [_ _ _ _ Hk _ -> _]. rewrite awn_index_slot by lia. unfold slot. pose proof (Z.mod_pos_bound k max). lia.
Qed.

(** Every step of the thread at the head brings it nearer to the lock. *)
Lemma ee_ready_step s t k :
  ee_ready s t k → ∃ m mine pc, ee_thread t (ee_mutex s) (ee_lockIsMine s) (ee_pcs s t) = Some (m, mine, pc) ∧
    (pc = EeHeld ∨ ee_ready (EeState m mine (<[t := pc]> (ee_pcs s))) t k ∧ (ee_rank pc < ee_rank (ee_pcs s t))%nat).
Proof.
  intros Hr. pose proof (ee_ready_index s t k Hr) as Hidx. destruct Hr as [Ht Hph Hk He Hrange Hmax Hlen Hspin].
  unfold ee_thread. destruct (ee_pcs s t) as [|k'|k'|k'|k'|k'|k'|k'|k'|k'|k'|k'| | | |] eqn:Hpc; simplify_eq/=;
    unfold ee_set_array, awn_store; rewrite ?Hmax in *; rewrite ?s64_id, ?Z.sub_diag by lia;
    rewrite ?(wrap_s_small 32) by lia; rewrite ?s64_id by lia.
  all: repeat first [rewrite bool_decide_true by (done || lia) | rewrite bool_decide_false by lia].
  all: try rewrite (Hspin eq_refl).
  all: eexists _, _, _; split; [done|]; first [by left|right; split; [|simpl; lia]].
  all: split; simpl; rewrite ?fn_lookup_insert, ?length_insert; try done; lia.
Qed.

Lemma ee_ready_enters s t k r :
  ee_ready s t k → (ee_rank (ee_pcs s t) ≤ r)%nat → solo t s (λ s', ee_phase (ee_pcs s' t) = Holding).
Proof.
  revert s. induction r as [|r IH]; intros s Hr Hle; [destruct (ee_pcs s t); simpl in Hle; lia|].
  destruct (ee_ready_step s t k Hr) as (m & mine & pc & Hth & Hnext).
  eapply (solo_step _ tt); [apply ee_step_thread; [apply Hr| |done]; by rewrite (er_phase s t k Hr)|].
  destruct Hnext as [->|[Hr' Hlt]]; [apply solo_done; simpl; by rewrite fn_lookup_insert|].
  apply IH; [done|]. simpl. rewrite fn_lookup_insert. lia.
Qed.

Lemma ee_enters s t q : ee_inv s (t :: q) false → solo t s (λ s', ee_phase (ee_pcs s' t) = Holding).
Proof.
  intros Hinv. destruct (line_head _ _ _ _ _ _ (ev_line _ _ _ Hinv)) as [Hp Hk].
  pose proof (ee_ticket_range s _ _ Hinv 0%nat t eq_refl). eapply ee_ready_enters; [|done].
  destruct Hinv. split; try done.
  - by apply Forall_cons in ev_tids0 as [? _].
  - lia.
  - apply ev_slots0.
  - intros Hs. destruct (ee_lockIsMine s t) eqn:Hm; [done|]. by destruct (ev_spin0 0%nat t _ eq_refl Hs Hm).
Qed.

(** From the look at the next slot to the end of [unlock]. *)
Lemma ee_unlock_ends s t k pc :
  (t < n)%nat → 0 ≤ k < 2 ^ 63 - 1 → ee_maxArrayWaiters (ee_mutex s) = max → length (ee_waitersArray (ee_mutex s)) = Z.to_nat max →
  ee_pcs s t = pc → (pc = EeLook k ∨ (∃ u, pc = EeSignal k u) ∨ pc = EeStore k) →
  solo t s (λ s', queued (ee_phase (ee_pcs s' t)) = false).
Proof.
  intros Ht Hk Hmax Hlen.
  assert (∀ s, ee_pcs s t = EeStore k → solo t s (λ s', queued (ee_phase (ee_pcs s' t)) = false)) as Hstore.
  { intros s1 Hpc. eapply (solo_step _ tt); [apply ee_step_thread; rewrite ?Hpc; done|].
    apply solo_done. simpl. by rewrite fn_lookup_insert. }
  assert (∀ s u, ee_pcs s t = EeSignal k u → solo t s (λ s', queued (ee_phase (ee_pcs s' t)) = false)) as Hsignal.
  { intros s1 u Hpc. eapply (solo_step _ tt); [apply ee_step_thread; rewrite ?Hpc; done|].
    apply Hstore. simpl. by rewrite fn_lookup_insert. }
  intros Hpc [->|[[u ->]| ->]]; [|by eauto..].
  destruct (lookup_lt_is_Some_2 (ee_waitersArray (ee_mutex s)) (awn_index (s64 (k + 1)) max)) as [w Hw].
  { rewrite s64_id, awn_index_slot, Hlen by lia. unfold slot. pose proof (Z.mod_pos_bound (k + 1) max). lia. }
  eapply (solo_step _ tt).
  - apply ee_step_thread; rewrite ?Hpc; [done..|]. unfold ee_thread. simpl. rewrite Hmax, Hw. done.
  - destruct w; [eapply Hsignal|apply Hstore]; simpl; by rewrite fn_lookup_insert.
Qed.

Lemma ee_exits s q h t :
  ee_inv s q h → owns (ee_phase (ee_pcs s t)) = true → solo t s (λ s', queued (ee_phase (ee_pcs s' t)) = false).
Proof.
  intros Hinv Ho. destruct (line_owner _ _ _ _ _ _ t (ev_line s q h Hinv) Ho) as (q' & -> & -> & Hk).
  assert ((t < n)%nat) as Ht by (pose proof (ev_tids _ _ _ Hinv) as Hf; by apply Forall_cons in Hf as [? _]).
  pose proof (ee_ticket_range s _ _ Hinv 0%nat t eq_refl). pose proof (ev_egress _ _ _ Hinv).
  pose proof (sl_len _ _ _ _ _ _ _ _ (ev_slots _ _ _ Hinv)). pose proof (ev_max _ _ _ Hinv).
  destruct (ee_pcs s t) as [| | | | | | | | | | | | |k|k u|k] eqn:Hpc; try done.
  - eapply (solo_step _ tt); [apply ee_step_thread; rewrite ?Hpc; done|].
    eapply (ee_unlock_ends _ _ (ee_egress (ee_mutex s))); simpl; rewrite ?fn_lookup_insert; [done|lia|done..|]. by left.
  - destruct Hk as [|[= ->]]; [done|]. eapply (ee_unlock_ends _ _ (ee_egress (ee_mutex s))); [done|lia|done..|by left].
  - destruct Hk as [|[= ->]]; [done|]. eapply (ee_unlock_ends _ _ (ee_egress (ee_mutex s))); [done|lia|done..|by eauto].
  - destruct Hk as [|[= ->]]; [done|]. eapply (ee_unlock_ends _ _ (ee_egress (ee_mutex s))); [done|lia|done..|by eauto].
Qed.

Lemma ee_inv_start s : ee_init max s → ee_inv s [] false.
Proof.
  intros [Hm Hp]. split; rewrite ?Hm, ?Hp; simpl; try done.
  - split; [by apply NoDup_nil|done|done].
  - apply slots_empty.
Qed.

Definition ee_queue_lock : QueueLock unit ee_state.
Proof.
  refine {| ql_rel := ee_inv |}.
  - apply ee_inv_start.
  - intros t [] s s' q h Hinv Hstep. by eapply ee_sim.
  - intros s q h t Hinv. eapply line_queued, Hinv.
  - intros s q h t Hinv. eapply line_owns; apply Hinv.
  - intros s t [_ Hp]. simpl. by rewrite Hp.
  - intros t t' [] s s' Hstep Hne. simpl in *. unfold ee_step in Hstep. destruct (_ && _); [|done].
    destruct (ee_thread _ _ _ _) as [[[m mine] pc]|]; simplify_eq/=. by rewrite fn_lookup_insert_ne by done.
  - intros t [] s s' Hstep. simpl in *. unfold ee_step in Hstep. destruct (_ && _); [|done].
    destruct (ee_thread _ _ _ _) as [[[m mine] pc]|] eqn:Hth; simplify_eq/=. rewrite fn_lookup_insert.
    unfold ee_thread, ticket_awnee_mutex_lock, ticket_awnee_mutex_unlock, mbind, option_bind in Hth.
    destruct (ee_pcs s t); step_inv Hth; repeat case_match; done.
  - intros s t q Hinv. by eapply ee_enters.
  - intros s q h t. apply ee_exits.
Defined.
End proof.

(** ** Theorem *)

(** The ends-on-egress lock is mutually exclusive, admits threads in the
    order in which they drew their tickets, and makes progress, for every number
    of threads and every array of at least two slots, whatever the nodes hold
    at first. *)
Lemma awnee_correct (n : nat) (max : Z) :
  2 ≤ max < 2 ^ 31 →
  lock_exclusive (awnee_mutex n max) ∧ lock_fifo (awnee_mutex n max) ∧ lock_progress (awnee_mutex n max).
Proof. intros Hmax. apply (qlock_correct (Q := ee_queue_lock n max Hmax)). Qed.

(** Three threads: the third spins on its node and is signalled. *)
Definition ee_start : ee_state := EeState (ticket_awnee_mutex_init 4) (λ _, true) (λ _, EeIdle).

Definition ee_schedule : list (tid * unit) :=
  (λ t, (t, tt)) <$> [0; 1; 2; 0; 1; 2; 1; 2; 1; 2; 2; 2; 2; 2; 2; 2; 1; 1; 0; 0; 0; 0; 1; 1; 1; 1; 1; 1; 1; 1; 2; 2; 2; 2]%nat.

