(* ===== verification/AwnNe.v ===== *)
(** * The ticket lock with waiting nodes and negative egress

    [ConcurrencyFreaks/C11/locks/ticketawn/ticket_awnne_mutex.c].  Whoever
    releases the lock tells the next thread by the sign of [egress] whether its
    node was seen in the array: a negative value sends the thread to spin on
    [lockIsMine], which is set afterwards.  There is one node for each thread,
    which a thread uses for one lock at a time.  The counters are 64-bit; no
    thread calls [lock] once 2^63 - 1 tickets have been drawn. *)

From S2P Require Import Prelude Lts Mutex Tickets.

Local Open Scope Z_scope.

(** ** Data *)

Record ticket_awnne_mutex_t := AwnneMutexT {
  ne_ingress : Z;
  ne_egress : Z;
  ne_maxArrayWaiters : Z;
  ne_waitersArray : list (option tid);   (** nodes are named by their threads *)
}.

(** Program points, with the local variables that are alive. *)
Inductive ne_pc :=
  | NeIdle
  | NeFirst (ticket : Z)               (** [if (egress == ticket) return] *)
  | NeNear (ticket : Z)                (** [while (get_pos_egress_relaxed() >= ticket-1)] *)
  | NeNear2 (ticket : Z)               (** [if (get_pos_egress() == ticket) return] *)
  | NeRoom (ticket : Z)                (** [while (ticket-get_pos_egress() >= maxArrayWaiters-1)] *)
  | NeReset (ticket : Z)               (** [lockIsMine = false] *)
  | NePut (ticket : Z)                 (** [waitersArray[...] = wnode] *)
  | NeLoop (ticket : Z)                (** [localEgress = egress] *)
  | NeLoop2 (ticket localEgress : Z)   (** the two tests on [localEgress] *)
  | NeSpin (ticket : Z)                (** [while (!lockIsMine)] *)
  | NeHeld
  | NeClear (ticket : Z)               (** [waitersArray[...] = NULL] *)
  | NeLook (ticket : Z)                (** [wnode = waitersArray[...]] *)
  | NeNeg (ticket : Z) (wnode : tid)      (** [egress = -(ticket+1)] *)
  | NeSignal (ticket : Z) (wnode : tid)   (** [wnode->lockIsMine = true] *)
  | NeStore (ticket : Z)               (** [egress = ticket+1] *).

Record ne_state := NeState {
  ne_mutex : ticket_awnne_mutex_t;
  ne_lockIsMine : tid → bool;            (** of [tlNode] of each thread *)
  ne_pcs : tid → ne_pc;
}.

(** ** Operations, one atomic access per step *)

Definition ticket_awnne_mutex_init (maxArrayWaiters : Z) : ticket_awnne_mutex_t :=
  AwnneMutexT 0 0 maxArrayWaiters (replicate (Z.to_nat maxArrayWaiters) None).

(** The counters; the array is freed. *)
Definition ticket_awnne_mutex_destroy (self : ticket_awnne_mutex_t) : ticket_awnne_mutex_t :=
  AwnneMutexT 0 0 (ne_maxArrayWaiters self) [].

Definition get_pos_egress (self : ticket_awnne_mutex_t) : Z :=
  let localEgress := ne_egress self in
  if bool_decide (0 < localEgress) then localEgress else s64 (- localEgress).

Definition ne_set_egress (self : ticket_awnne_mutex_t) (e : Z) : ticket_awnne_mutex_t :=
  AwnneMutexT (ne_ingress self) e (ne_maxArrayWaiters self) (ne_waitersArray self).

Definition ne_set_array (self : ticket_awnne_mutex_t) (ticket : Z) (v : option tid) : option ticket_awnne_mutex_t :=
  arr ← awn_store (ne_waitersArray self) (awn_index ticket (ne_maxArrayWaiters self)) v;
  Some (AwnneMutexT (ne_ingress self) (ne_egress self) (ne_maxArrayWaiters self) arr).

Definition ticket_awnne_mutex_lock (me : tid) (self : ticket_awnne_mutex_t) (mine : tid → bool) (pc : ne_pc)
    : option (ticket_awnne_mutex_t * (tid → bool) * ne_pc) :=
  let egress := ne_egress self in
  match pc with
  | NeIdle =>
      Some (AwnneMutexT (s64 (ne_ingress self + 1)) egress (ne_maxArrayWaiters self) (ne_waitersArray self), mine,
            NeFirst (ne_ingress self))
  | NeFirst ticket => Some (self, mine, if bool_decide (egress = ticket) then NeHeld else NeNear ticket)
  | NeNear ticket => Some (self, mine, if bool_decide (s64 (ticket - 1) ≤ get_pos_egress self) then NeNear2 ticket else NeRoom ticket)
  | NeNear2 ticket => Some (self, mine, if bool_decide (get_pos_egress self = ticket) then NeHeld else NeNear ticket)
  | NeRoom ticket =>
      Some (self, mine, if bool_decide (s32 (ne_maxArrayWaiters self - 1) ≤ s64 (ticket - get_pos_egress self)) then NeRoom ticket
                        else NeReset ticket)
  | NeReset ticket => Some (self, <[me := false]> mine, NePut ticket)
  | NePut ticket => self' ← ne_set_array self ticket (Some me); Some (self', mine, NeLoop ticket)
  | NeLoop ticket => Some (self, mine, NeLoop2 ticket egress)
  | NeLoop2 ticket localEgress =>
      Some (self, mine,
            if bool_decide (get_pos_egress self < s64 (ticket - 1)) || bool_decide (s64 (- localEgress) = ticket) then NeSpin ticket
            else if bool_decide (localEgress = ticket) then NeHeld else NeLoop ticket)
  | NeSpin ticket => Some (self, mine, if mine me then NeHeld else NeSpin ticket)
  | _ => None
  end.

Definition ticket_awnne_mutex_unlock (self : ticket_awnne_mutex_t) (mine : tid → bool) (pc : ne_pc)
    : option (ticket_awnne_mutex_t * (tid → bool) * ne_pc) :=
  match pc with
  | NeHeld => Some (self, mine, NeClear (get_pos_egress self))
  | NeClear ticket => self' ← ne_set_array self ticket None; Some (self', mine, NeLook ticket)
  | NeLook ticket =>
      wnode ← ne_waitersArray self !! awn_index (s64 (ticket + 1)) (ne_maxArrayWaiters self);
      Some (self, mine, match wnode with Some u => NeNeg ticket u | None => NeStore ticket end)
  | NeNeg ticket wnode => Some (ne_set_egress self (s64 (- s64 (ticket + 1))), mine, NeSignal ticket wnode)
  | NeSignal ticket wnode => Some (self, <[wnode := true]> mine, NeIdle)
  | NeStore ticket => Some (ne_set_egress self (s64 (ticket + 1)), mine, NeIdle)
  | _ => None
  end.

Definition ticket_awnne_mutex_trylock (self : ticket_awnne_mutex_t) (pc : try_pc)
    : option (ticket_awnne_mutex_t * (try_pc + bool)) :=
  match pc with
  | TryEgress => Some (self, inl (TryIngress (ne_egress self)))
  | TryIngress localE =>
      let localI := ne_ingress self in
      Some (self, if bool_decide (localE = localI) then inl (TryLoad localI) else inr false)
  | TryLoad localI => Some (self, inl (TryCas localI (s64 (ne_ingress self + 1))))
  | TryCas localI new =>
      if bool_decide (ne_ingress self = localI) then
        Some (AwnneMutexT new (ne_egress self) (ne_maxArrayWaiters self) (ne_waitersArray self), inr true)
      else Some (self, inr false)
  end.

(** ** The lock as a transition system *)

Definition ne_phase (pc : ne_pc) : phase :=
  match pc with
  | NeIdle => Idle
  | NeHeld => Holding
  | NeClear _ | NeLook _ | NeNeg _ _ | NeSignal _ _ | NeStore _ => Unlocking
  | _ => Waiting
  end.

Definition ne_thread (me : tid) (self : ticket_awnne_mutex_t) (mine : tid → bool) (pc : ne_pc) :=
  match ne_phase pc with
  | Holding | Unlocking => ticket_awnne_mutex_unlock self mine pc
  | _ => ticket_awnne_mutex_lock me self mine pc
  end.

Definition ne_step (nthreads : nat) (t : tid) (s : ne_state) : option ne_state :=
  if bool_decide (t < nthreads)%nat && negb (bool_decide (ne_phase (ne_pcs s t) = Idle ∧ ne_ingress (ne_mutex s) = 2 ^ 63 - 1)) then
    '(m, mine, pc) ← ne_thread t (ne_mutex s) (ne_lockIsMine s) (ne_pcs s t);
    Some (NeState m mine (<[t := pc]> (ne_pcs s)))
  else None.

(** The nodes hold anything at first. *)
Definition ne_init (max : Z) (s : ne_state) : Prop :=
  ne_mutex s = ticket_awnne_mutex_init max ∧ ne_pcs s = (λ _, NeIdle).

Definition awnne_mutex (nthreads : nat) (max : Z) : Mutex unit ne_state := {|
  mtx_init := ne_init max;
  mtx_step := λ t _ s, ne_step nthreads t s;
  mtx_phase := λ s t, ne_phase (ne_pcs s t);
|}.

(** ** Invariant *)

Definition ne_ticket (pc : ne_pc) : option Z :=
  match pc with
  | NeIdle | NeHeld => None
  | NeFirst k | NeNear k | NeNear2 k | NeRoom k | NeReset k | NePut k | NeLoop k | NeLoop2 k _ | NeSpin k
  | NeClear k | NeLook k | NeNeg k _ | NeSignal k _ | NeStore k => Some k
  end.

(** The node of the waiting thread is in the array. *)
Definition ne_post (pc : ne_pc) : bool :=
  match pc with NeLoop _ | NeLoop2 _ _ | NeSpin _ => true | _ => false end.

(** The owner may not have removed its node yet. *)
Definition ne_may (pc : ne_pc) : bool :=
  match pc with NeHeld | NeClear _ => true | _ => ne_post pc end.

Definition ne_near (pc : ne_pc) : bool :=
  match pc with NeReset _ | NePut _ => true | _ => ne_may pc end.

(** Between the reset of its node and its return from [lock]. *)
Definition ne_fresh (pc : ne_pc) : bool :=
  match pc with NePut _ => true | _ => ne_post pc end.

(** [egress] is ahead of the current ticket while the next thread is signalled. *)
Definition ne_lag (pc : ne_pc) : Z := match pc with NeSignal _ _ => 1 | _ => 0 end.

(** The owner has not passed by the node of [t] yet. *)
Definition ne_waker (t : tid) (pc : ne_pc) : Prop :=
  match pc with NeStore _ => False | NeNeg _ u | NeSignal _ u => u = t | _ => True end.

(** The thread has seen that it is not at the head. *)
Definition ne_late (pc : ne_pc) : bool :=
  match ne_phase pc, pc with Waiting, NeFirst _ => false | Waiting, _ => true | _, _ => false end.

Section proof.
Context (n : nat) (max : Z).
Hypothesis max_range : 2 ≤ max < 2 ^ 31.

Local Notation ne_line := (line ne_phase ne_ticket).
Local Notation ne_slots := (slots ne_post ne_may ne_near max).

Lemma ne_post_may pc : ne_post pc = true → ne_may pc = true.
Proof. by destruct pc. Qed.

Lemma ne_may_near pc : ne_may pc = true → ne_near pc = true.
Proof. by destruct pc. Qed.

Definition ne_head_lag (pcs : tid → ne_pc) (q : list tid) : Z :=
  match q with o :: _ => ne_lag (pcs o) | [] => 0 end.

Lemma ne_lag_range pcs q : 0 ≤ ne_head_lag pcs q ≤ 1.
Proof. unfold ne_head_lag. destruct q as [|o q]; [lia|]. destruct (pcs o); simpl; lia. Qed.

Record ne_inv (s : ne_state) (cur : Z) (q : list tid) (h : bool) : Prop := {
  nv_line : ne_line cur (ne_pcs s) q h;
  nv_h : h = true → q ≠ [];
  nv_tids : Forall (λ t, (t < n)%nat) q;
  nv_cur : 0 ≤ cur;
  nv_ingress : ne_ingress (ne_mutex s) = cur + length q;
  nv_bound : ne_ingress (ne_mutex s) < 2 ^ 63;
  nv_max : ne_maxArrayWaiters (ne_mutex s) = max;
  nv_slots : ne_slots cur (ne_waitersArray (ne_mutex s)) q (ne_pcs s);
  nv_egress : Z.abs (ne_egress (ne_mutex s)) = cur + ne_head_lag (ne_pcs s) q;
  (** A negative value means that the node of the thread was seen. *)
  nv_neg : ne_egress (ne_mutex s) < 0 → ∃ o, q !! 0%nat = Some o ∧
    (h = false → ne_post (ne_pcs s o) = true ∧ ne_lockIsMine s o = true);
  nv_lag o k u : q !! 0%nat = Some o → ne_pcs s o = NeSignal k u → ne_egress (ne_mutex s) < 0;
  nv_seen o k u : q !! 0%nat = Some o → (ne_pcs s o = NeNeg k u ∨ ne_pcs s o = NeSignal k u) →
    q !! 1%nat = Some u ∧ ne_post (ne_pcs s u) = true;
  nv_mine (i : nat) t : q !! i = Some t → ne_fresh (ne_pcs s t) = true → ne_lockIsMine s t = true →
    i = 0%nat ∧ ne_egress (ne_mutex s) < 0;
  (** A thread that spins on its node has been or will be woken up. *)
  nv_spin (i : nat) t k : q !! i = Some t → ne_pcs s t = NeSpin k → ne_lockIsMine s t = false →
    i ≠ 0%nat ∧ (i = 1%nat → ∀ o, q !! 0%nat = Some o → ne_waker t (ne_pcs s o));
  nv_loop2 (i : nat) t k e : q !! i = Some t → ne_pcs s t = NeLoop2 k e →
    Z.abs e < 2 ^ 63 ∧ (e = k ∨ e = - k → ne_egress (ne_mutex s) = e);
  nv_late (i : nat) t : q !! i = Some t → ne_late (ne_pcs s t) = true → 1 ≤ cur + i;
}.

Section sim.
Context (s : ne_state) (cur : Z) (q : list tid) (h : bool) (t : tid) (Hinv : ne_inv s cur q h).

Local Notation sim s' := (∃ cur' q' h', qlock_step t q h q' h' ∧ ne_inv s' cur' q' h').
Local Notation egress := (ne_egress (ne_mutex s)).

(** Tickets in the line do not overflow. *)
Lemma ne_ticket_range (i : nat) u : q !! i = Some u → cur + i < 2 ^ 63 - 1.
Proof.
  intros Hi%lookup_lt_Some. pose proof (nv_ingress s cur q h Hinv). pose proof (nv_bound s cur q h Hinv). lia.
Qed.

(** Only an owner can be ahead. *)
Lemma ne_lag_owner : ne_head_lag (ne_pcs s) q = 1 → ∃ o k u, q !! 0%nat = Some o ∧ ne_pcs s o = NeSignal k u.
Proof. unfold ne_head_lag. destruct q as [|o q']; [done|]. simpl. destruct (ne_pcs s o) eqn:Hpc; try done. eauto. Qed.

Lemma ne_pos : get_pos_egress (ne_mutex s) = cur + ne_head_lag (ne_pcs s) q ∧ cur + ne_head_lag (ne_pcs s) q < 2 ^ 63.
Proof.
  pose proof (nv_egress s cur q h Hinv) as He. pose proof (ne_lag_range (ne_pcs s) q). pose proof (nv_cur s cur q h Hinv).
  assert (cur + ne_head_lag (ne_pcs s) q < 2 ^ 63) as Hlt.
  { pose proof (nv_ingress s cur q h Hinv). pose proof (nv_bound s cur q h Hinv).
    unfold ne_head_lag in *. destruct q as [|o q']; simpl in *; lia. }
  split; [|done]. unfold get_pos_egress. case_bool_decide; [lia|]. rewrite s64_id; lia.
Qed.

(** A waiting thread moves on to another waiting point. *)
Lemma ne_sim_wait (i : nat) pc mine arr :
  q !! i = Some t → (h = true → i ≠ 0%nat) → ne_phase (ne_pcs s t) = Waiting →
  ne_phase pc = Waiting → ne_ticket pc = Some (cur + i) →
  (∀ u, u ≠ t → mine u = ne_lockIsMine s u) →
  (ne_post (ne_pcs s t) = true → ne_post pc = true ∧ mine t = ne_lockIsMine s t) →
  (ne_fresh pc = true → mine t = true → ne_fresh (ne_pcs s t) = true ∧ ne_lockIsMine s t = true) →
  ne_slots cur arr q (<[t := pc]> (ne_pcs s)) →
  (∀ k, pc = NeSpin k → mine t = false → i ≠ 0%nat ∧ (i = 1%nat → ∀ o, q !! 0%nat = Some o → ne_waker t (ne_pcs s o))) →
  (∀ k e, pc = NeLoop2 k e → Z.abs e < 2 ^ 63 ∧ (e = k ∨ e = - k → egress = e)) → (ne_late pc = true → 1 ≤ cur + i) →
  sim (NeState (AwnneMutexT (ne_ingress (ne_mutex s)) egress (ne_maxArrayWaiters (ne_mutex s)) arr) mine (<[t := pc]> (ne_pcs s))).
Proof.
  intros Hi H0 Hph Hp Hk Hmine Hpost Hfresh Hslots Hspin Hloop Hlate. exists cur, q, h. split; [constructor|].
  assert (∀ u, (<[t := pc]> (ne_pcs s)) u = if decide (u = t) then pc else ne_pcs s u) as Hpcs.
  { intros u. case_decide as Hu; [subst; by rewrite fn_lookup_insert|by rewrite fn_lookup_insert_ne]. }
  assert (∀ u, (ne_phase (ne_pcs s u) = Waiting ↔ ne_phase ((<[t := pc]> (ne_pcs s)) u) = Waiting) ∧
    (ne_phase (ne_pcs s u) ≠ Waiting → (<[t := pc]> (ne_pcs s)) u = ne_pcs s u)) as Hsame.
  { intros u. same_tid t u; naive_solver. }
  assert (∀ j, q !! j = Some t → j = i) as Huniq by (intros j Hj; by eapply line_unique; [apply Hinv|..]).
  destruct Hinv. split; simpl; try done.
  - by eapply line_wait.
  - rewrite nv_egress0. f_equal. unfold ne_head_lag. destruct q as [|o q']; [done|]. rewrite Hpcs. case_decide; [subst|done].
    by destruct (ne_pcs s t), pc.
  - intros He. destruct (nv_neg0 He) as (o & Ho & Hneg). exists o. split; [done|]. intros Hh. specialize (Hneg Hh) as [Hpo Hmo].
    same_tid t o; [|split; [done|by rewrite Hmine]]. destruct (Hpost Hpo) as [? ->]. done.
  - intros o k u Ho. rewrite Hpcs. case_decide; [by intros ->|]. eauto.
  - intros o k u Ho Hu. assert (ne_pcs s o = NeNeg k u ∨ ne_pcs s o = NeSignal k u) as Hu'.
    { rewrite Hpcs in Hu. case_decide; [|done]. by destruct Hu; subst pc. }
    destruct (nv_seen0 o k u Ho Hu') as [? Hpu]. split; [done|]. same_tid t u; [|done]. by apply Hpost.
  - intros j u Hj. same_tid t u; [|rewrite Hmine by done; eauto]. rewrite (Huniq j Hj). intros Hf Hm.
    destruct (Hfresh Hf Hm) as [??]. eauto.
  - intros j u k Hj Hu Hm.
    assert (j ≠ 0%nat ∧ (j = 1%nat → ∀ o, q !! 0%nat = Some o → ne_waker u (ne_pcs s o))) as [Hj0 Hj1].
    { same_tid t u; [|eapply nv_spin0; [done..|by rewrite <-Hmine]]. rewrite (Huniq j Hj). by eapply Hspin. }
    split; [done|]. intros Hj' o Ho. specialize (Hj1 Hj' o Ho). same_tid t o; [|done]. by destruct pc.
  - intros j u k e Hj. same_tid t u; [by intros; eapply Hloop|]. eauto.
  - intros j u Hj. same_tid t u; [|eauto]. by rewrite (Huniq j Hj).
Qed.

(** A waiting thread whose ticket has come up takes the lock. *)
Lemma ne_sim_admit (i : nat) :
  q !! i = Some t → (h = true → i ≠ 0%nat) → i = 0%nat → ne_phase (ne_pcs s t) = Waiting →
  sim (NeState (ne_mutex s) (ne_lockIsMine s) (<[t := NeHeld]> (ne_pcs s))).
Proof.
  intros Hi H0 Hi0 Hph.
  destruct (line_admit _ _ _ _ _ _ i t NeHeld (nv_line s cur q h Hinv)) as (-> & [q' ->] & Hl); [done..|by left|].
  exists cur, (t :: q'), true. split; [constructor|]. destruct Hinv. split; simpl; try done.
  - eapply (slots_move _ _ _ _ _ _ _ _ 0%nat); [done|apply nv_line0|done|done|done|lia].
  - rewrite nv_egress0. simpl. rewrite fn_lookup_insert. by destruct (ne_pcs s t).
  - intros _. by exists t.
  - intros o k u [= <-]. by rewrite fn_lookup_insert.
  - intros o k u [= <-]. rewrite fn_lookup_insert. by intros [].
  - intros j u Hj. same_tid t u; [done|eauto].
  - intros j u k Hj. same_tid t u; [done|]. intros Hu Hm. split; [by eapply nv_spin0|].
    intros _ o Ho. simplify_eq/=. by rewrite fn_lookup_insert.
  - intros j u k e Hj. same_tid t u; [done|eauto].
  - intros j u Hj. same_tid t u; [done|eauto].
Qed.

(** While the lock is held no thread has seen its ticket come up. *)
Lemma ne_loop_owner (i : nat) u k e :
  h = true → ne_head_lag (ne_pcs s) q = 0 → q !! i = Some u → ne_pcs s u = NeLoop2 k e → ¬ (e = k ∨ e = - k).
Proof.
  intros Hh Hlag Hi Hu He. destruct (nv_loop2 s cur q h Hinv i u k e Hi Hu) as [_ Hl]. specialize (Hl He). pose proof (nv_egress s cur q h Hinv).
  pose proof (nv_cur s cur q h Hinv). destruct (line_waiter _ _ _ _ _ _ u k (nv_line s cur q h Hinv)) as (j & Hj & -> & Hj0).
  { by rewrite Hu. } { by rewrite Hu. } specialize (Hj0 Hh). lia.
Qed.

Lemma ne_mine_owner (i : nat) u :
  h = true → q !! i = Some u → ne_fresh (ne_pcs s u) = true → ne_lockIsMine s u = false.
Proof.
  intros Hh Hi Hf. destruct (ne_lockIsMine s u) eqn:Hm; [|done]. destruct (nv_mine s cur q h Hinv i u Hi Hf Hm) as [-> _].
  pose proof (ln_in _ _ _ _ _ _ (nv_line s cur q h Hinv) 0%nat u Hi) as Hs. rewrite Hh in Hs. simpl in Hs.
  destruct Hs as [Ho _]. by destruct (ne_pcs s u).
Qed.

(** The owner moves on and keeps the lock. *)
Lemma ne_sim_own q' pc e arr :
  q = t :: q' → h = true → ne_phase pc = Unlocking → ne_ticket pc = Some cur →
  Z.abs e = cur + ne_lag pc → (e = egress ∨ ne_lag (ne_pcs s t) = 0) → ((∃ k u, pc = NeSignal k u) → e < 0) →
  (∀ k u, pc = NeNeg k u ∨ pc = NeSignal k u → q' !! 0%nat = Some u ∧ ne_post (ne_pcs s u) = true) →
  ne_slots cur arr q (<[t := pc]> (ne_pcs s)) →
  (∀ u k, q' !! 0%nat = Some u → ne_pcs s u = NeSpin k → ne_waker u (ne_pcs s t) → ne_waker u pc) →
  sim (NeState (AwnneMutexT (ne_ingress (ne_mutex s)) e (ne_maxArrayWaiters (ne_mutex s)) arr) (ne_lockIsMine s)
         (<[t := pc]> (ne_pcs s))).
Proof.
  intros Hq Hh Hp Hk Habs He Hsig Hseen Hslots Hwake. exists cur, q, h. split; [constructor|].
  pose proof (λ i u k e, ne_loop_owner i u k e Hh) as Hloop. pose proof (λ i u, ne_mine_owner i u Hh) as Hmine.
  subst q h. destruct Hinv. split; simpl; try done.
  - apply line_own; [done|by rewrite Hp|by right].
  - by rewrite fn_lookup_insert.
  - intros _. by exists t.
  - intros o k u [= <-]. rewrite fn_lookup_insert. intros ->. apply Hsig. eauto.
  - intros o k u [= <-]. rewrite fn_lookup_insert. intros Hu. destruct (Hseen k u Hu) as [Hu1 Hpu].
    split; [done|]. rewrite fn_lookup_insert_ne; [done|]. intros <-.
    pose proof (line_unique _ _ _ _ _ _ 0%nat 1%nat t nv_line0 eq_refl Hu1). done.
  - intros j u Hj. same_tid t u; [by destruct pc|]. intros Hf. by rewrite (Hmine j u Hj Hf).
  - intros j u k Hj. same_tid t u; [by intros ->|]. intros Hu Hm. destruct (nv_spin0 j u k Hj Hu Hm) as [? Hj1].
    split; [done|]. intros -> o Ho. simplify_eq/=. rewrite fn_lookup_insert. eapply Hwake; [done..|]. by apply Hj1.
  - intros j u k e' Hj. same_tid t u; [by intros ->|]. intros Hu. destruct (nv_loop3 j u k e' Hj Hu) as [? Hl]. split; [done|].
    intros He'. destruct He as [->|Hlag]; [by apply Hl|]. by destruct (Hloop j u k e' Hlag Hj Hu).
  - intros j u Hj. same_tid t u; [|by eauto]. by destruct pc.
Qed.

(** The owner is done with the lock. *)
Lemma ne_sim_leave q' e mine :
  q = t :: q' → h = true → ne_may (ne_pcs s t) = false →
  Z.abs e = cur + 1 → (e = egress ∨ ne_lag (ne_pcs s t) = 0) →
  (∀ u, ne_lockIsMine s u = true → mine u = true) →
  (∀ u, mine u = true → ne_lockIsMine s u = true ∨ q' !! 0%nat = Some u ∧ e < 0) →
  (e < 0 → ∃ o, q' !! 0%nat = Some o ∧ ne_post (ne_pcs s o) = true ∧ mine o = true) →
  (∀ u k, q' !! 0%nat = Some u → ne_pcs s u = NeSpin k → mine u = false → ¬ ne_waker u (ne_pcs s t)) →
  sim (NeState (ne_set_egress (ne_mutex s) e) mine (<[t := NeIdle]> (ne_pcs s))).
Proof.
  intros Hq Hh Hmay Habs He Hold Hnew Hneg Hwake. exists (cur + 1), q', false. split; [subst; constructor|].
  pose proof (λ i u k e, ne_loop_owner i u k e Hh) as Hloop. pose proof (λ i u, ne_mine_owner i u Hh) as Hmine.
  subst q h. destruct Hinv. pose proof (ln_nodup _ _ _ _ _ _ nv_line0) as [Hn Hnd]%NoDup_cons.
  assert (∀ (j : nat) u, q' !! j = Some u → u ≠ t) as Hne by (intros j u Hj ->; by apply Hn, (list_elem_of_lookup_2 q' j)).
  assert (∀ u, q' !! 0%nat = Some u → ne_phase (ne_pcs s u) = Waiting) as Hw1.
  { intros u Hu. by destruct (ln_in _ _ _ _ _ _ nv_line0 1%nat u Hu). }
  split; simpl in *; try done.
  - by apply line_leave.
  - by apply Forall_cons in nv_tids0 as [_ ?].
  - lia.
  - lia.
  - by apply slots_leave; [|apply nv_line0|].
  - rewrite Habs. destruct q' as [|o q'']; simpl; [lia|]. rewrite fn_lookup_insert_ne by (intros <-; by eapply (Hne 0%nat)).
    specialize (Hw1 o eq_refl). destruct (ne_pcs s o); simpl in *; lia || done.
  - intros Hlt. destruct (Hneg Hlt) as (o & Ho & ? & ?). exists o. split; [done|]. intros _.
    by rewrite fn_lookup_insert_ne by (intros <-; by eapply Hne).
  - intros o k u Ho. rewrite fn_lookup_insert_ne by (intros <-; by eapply Hne). specialize (Hw1 o Ho). intros Hpc. by rewrite Hpc in Hw1.
  - intros o k u Ho. rewrite fn_lookup_insert_ne by (intros <-; by eapply Hne). specialize (Hw1 o Ho). by intros [Hpc|Hpc]; rewrite Hpc in Hw1.
  - intros j u Hj. rewrite fn_lookup_insert_ne by (intros <-; by eapply Hne). intros Hf [Hm|[H0 ?]]%Hnew.
    + by rewrite (Hmine (S j) u Hj Hf) in Hm.
    + split; [|done]. by eapply (NoDup_lookup q').
  - intros j u k Hj. rewrite fn_lookup_insert_ne by (intros <-; by eapply Hne). intros Hu Hm.
    assert (ne_lockIsMine s u = false) as Hm' by (destruct (ne_lockIsMine s u) eqn:E; [by rewrite Hold in Hm|done]).
    destruct (nv_spin0 (S j) u k Hj Hu Hm') as [_ Hj1]. split.
    + intros ->. by eapply Hwake, Hj1.
    + intros _ o Ho. rewrite fn_lookup_insert_ne by (intros <-; by eapply Hne). specialize (Hw1 o Ho). by destruct (ne_pcs s o).
  - intros j u k e' Hj. rewrite fn_lookup_insert_ne by (intros <-; by eapply Hne). intros Hu.
    destruct (nv_loop3 (S j) u k e' Hj Hu) as [? Hl]. split; [done|]. intros He'.
    destruct He as [->|Hlag]; [by apply Hl|]. by destruct (Hloop (S j) u k e' Hlag Hj Hu).
  - intros j u Hj. rewrite fn_lookup_insert_ne by (intros <-; by eapply Hne). intros Hl.
    pose proof (nv_late0 (S j) u Hj Hl). lia.
Qed.

Lemma ne_sim_arrive :
  ne_pcs s t = NeIdle → (t < n)%nat → ne_ingress (ne_mutex s) ≠ 2 ^ 63 - 1 →
  sim (NeState (AwnneMutexT (s64 (ne_ingress (ne_mutex s) + 1)) egress (ne_maxArrayWaiters (ne_mutex s))
                  (ne_waitersArray (ne_mutex s))) (ne_lockIsMine s)
         (<[t := NeFirst (ne_ingress (ne_mutex s))]> (ne_pcs s))).
Proof.
  intros Hpc Ht Hlt.
  assert (t ∉ q) as Hn.
  { intros Hq%(line_queued _ _ _ _ _ _ t (nv_line s cur q h Hinv)). by rewrite Hpc in Hq. }
  pose proof (nv_ingress s cur q h Hinv) as Hing. pose proof (nv_bound s cur q h Hinv). pose proof (nv_cur s cur q h Hinv).
  rewrite s64_id by lia. exists cur, (q ++ [t]), h. split; [by constructor|].
  assert (∀ (i : nat) u, t ≠ u → (q ++ [t]) !! i = Some u → q !! i = Some u) as Hold.
  { intros i u Hu [Hi|[_ [_ <-]%list_lookup_singleton_Some]]%lookup_app_Some; done. }
  assert (∀ (i : nat) u, q !! i = Some u → (q ++ [t]) !! i = Some u ∧ u ≠ t) as Hnew.
  { intros i u Hi. split; [by apply lookup_app_l_Some|]. intros ->. by apply Hn, (list_elem_of_lookup_2 q i). }
  destruct Hinv. split; simpl; try done.
  - apply line_arrive; [done..|simpl; by f_equal].
  - intros Hh. by destruct q.
  - by apply Forall_app_2, Forall_singleton.
  - rewrite length_app. simpl. lia.
  - lia.
  - apply slots_arrive; [apply ne_post_may|apply ne_may_near|done..].
  - rewrite nv_egress0. f_equal. destruct q as [|o q']; simpl; [by rewrite fn_lookup_insert|].
    destruct (Hnew 0%nat o eq_refl). by rewrite fn_lookup_insert_ne.
  - intros He. destruct (nv_neg0 He) as (o & Ho & Hneg). destruct (Hnew 0%nat o Ho). exists o.
    by rewrite fn_lookup_insert_ne.
  - intros o k u Ho. same_tid t o; [done|]. eauto.
  - intros o k u Ho. same_tid t o; [by intros []|]. intros Hu. destruct (nv_seen0 o k u (Hold _ _ ltac:(done) Ho) Hu) as [Hu1 ?].
    destruct (Hnew 1%nat u Hu1). by rewrite fn_lookup_insert_ne.
  - intros j u Hj. same_tid t u; [done|]. eauto.
  - intros j u k Hj. same_tid t u; [done|]. intros Hu Hm. destruct (nv_spin0 j u k (Hold _ _ ltac:(done) Hj) Hu Hm) as [? Hj1].
    split; [done|]. intros Hj' o Ho. same_tid t o; [done|]. by eapply Hj1, Hold.
  - intros j u k e Hj. same_tid t u; [done|]. eauto.
  - intros j u Hj. same_tid t u; [done|]. eauto.
Qed.

(** The slot of the next ticket. *)
Lemma ne_look q' wnode :
  q = t :: q' → ne_waitersArray (ne_mutex s) !! awn_index (s64 (cur + 1)) (ne_maxArrayWaiters (ne_mutex s)) = Some wnode →
  (∀ u, q' !! 0%nat = Some u → ne_post (ne_pcs s u) = true → wnode = Some u) ∧
  (∀ u, wnode = Some u → ne_may (ne_pcs s t) = false → q' !! 0%nat = Some u ∧ ne_post (ne_pcs s u) = true).
Proof.
  intros Hq Hlook. pose proof (nv_cur s cur q h Hinv). rewrite (nv_max s cur q h Hinv) in Hlook.
  pose proof (ne_ticket_range 0%nat t ltac:(by rewrite Hq)). rewrite s64_id, awn_index_slot in Hlook by lia. split.
  - intros u Hu Hpu.
    pose proof (sl_post _ _ _ _ _ _ _ _ (nv_slots s cur q h Hinv) 1%nat u ltac:(by rewrite Hq) Hpu) as Hslot.
    change (Z.of_nat 1) with 1 in Hslot. congruence.
  - intros u -> Hm. destruct (sl_in _ _ _ _ _ _ _ _ (nv_slots s cur q h Hinv) _ u Hlook) as (i & Hi & Hslot & Hmu).
    pose proof (sl_near _ _ _ _ _ _ _ _ (nv_slots s cur q h Hinv) i u Hi (ne_may_near _ Hmu)) as Hnear.
    apply (slot_inj max ltac:(lia) cur 1 i) in Hslot as <-; [|lia|done]. rewrite Hq in Hi. split; [done|].
    pose proof (ln_in _ _ _ _ _ _ (nv_line s cur q h Hinv) 1%nat u ltac:(by rewrite Hq)) as Hs.
    apply stands_wait in Hs as [Hp _]; [|done]. by destruct (ne_pcs s u).
Qed.

Lemma ne_self (m : ticket_awnne_mutex_t) :
  AwnneMutexT (ne_ingress m) (ne_egress m) (ne_maxArrayWaiters m) (ne_waitersArray m) = m.
Proof. by destruct m. Qed.

(** A step of a waiting thread that stores nothing. *)
Lemma ne_sim_quiet (i : nat) pc :
  q !! i = Some t → (h = true → i ≠ 0%nat) → ne_phase (ne_pcs s t) = Waiting → ne_phase pc = Waiting → ne_ticket pc = Some (cur + i) →
  ne_post pc = ne_post (ne_pcs s t) → ne_fresh pc = ne_fresh (ne_pcs s t) →
  (ne_near pc = true → ne_near (ne_pcs s t) = true ∨ i < max) →
  (∀ k, pc = NeSpin k → ne_lockIsMine s t = false →
     i ≠ 0%nat ∧ (i = 1%nat → ∀ o, q !! 0%nat = Some o → ne_waker t (ne_pcs s o))) →
  (∀ k e, pc = NeLoop2 k e → Z.abs e < 2 ^ 63 ∧ (e = k ∨ e = - k → egress = e)) → 1 ≤ cur + i →
  sim (NeState (ne_mutex s) (ne_lockIsMine s) (<[t := pc]> (ne_pcs s))).
Proof.
  intros Hi H0 Hph Hp Hk Hpost Hfresh Hnear Hspin Hloop Hlate. rewrite <-(ne_self (ne_mutex s)).
  eapply ne_sim_wait; try done; [by rewrite Hpost|by rewrite Hfresh|].
  eapply slots_move; [apply Hinv|apply Hinv|done|by rewrite Hpost| |].
  - by destruct (ne_pcs s t), pc.
  - intros [Hn|?]%Hnear; [|done]. by eapply sl_near; [apply Hinv|..].
Qed.

(** The tests on [egress] only succeed at the head. *)
Lemma ne_first_head (i : nat) : egress = cur + i → i = 0%nat.
Proof.
  intros He. pose proof (nv_egress s cur q h Hinv). pose proof (nv_cur s cur q h Hinv). pose proof (ne_lag_range (ne_pcs s) q).
  destruct (decide (ne_head_lag (ne_pcs s) q = 1)) as [Hl|]; [|lia].
  destruct (ne_lag_owner Hl) as (o & k & u & Ho & Hpc). pose proof (nv_lag s cur q h Hinv o k u Ho Hpc). lia.
Qed.

Lemma ne_near_head (i : nat) :
  q !! i = Some t → ne_post (ne_pcs s t) = false → get_pos_egress (ne_mutex s) = cur + i → i = 0%nat.
Proof.
  intros Hi Hpost He. destruct ne_pos as [Hpos _]. pose proof (ne_lag_range (ne_pcs s) q).
  destruct (decide (ne_head_lag (ne_pcs s) q = 1)) as [Hl|]; [|lia].
  destruct (ne_lag_owner Hl) as (o & k & u & Ho & Hpc). destruct (nv_seen s cur q h Hinv o k u Ho) as [Hu Hpu]; [by right|].
  assert (i = 1%nat) as -> by lia. congruence.
Qed.

(** A thread whose ticket is announced by a negative [egress] is woken up. *)
Lemma ne_neg_spin (i : nat) :
  q !! i = Some t → (h = true → i ≠ 0%nat) → 1 ≤ cur + i → egress = - (cur + i) → ne_lockIsMine s t = false →
  i ≠ 0%nat ∧ (i = 1%nat → ∀ o, q !! 0%nat = Some o → ne_waker t (ne_pcs s o)).
Proof.
  intros Hi H0 Hlate He Hm. pose proof (nv_egress s cur q h Hinv) as Habs. split.
  - intros ->. destruct (nv_neg s cur q h Hinv) as (o & Ho & Hneg); [lia|]. destruct h; [by destruct H0|].
    destruct (Hneg eq_refl). congruence.
  - intros -> o Ho. destruct (ne_lag_owner) as (o' & k & u & Ho' & Hpc); [lia|].
    destruct (nv_seen s cur q h Hinv o' k u Ho') as [Hu _]; [by right|]. simplify_eq. by rewrite Hpc.
Qed.

(** A store to the own slot. *)
Lemma ne_set_array_slot (i : nat) v m :
  i < max → ne_set_array (ne_mutex s) (cur + i) v = Some m →
  m = AwnneMutexT (ne_ingress (ne_mutex s)) egress (ne_maxArrayWaiters (ne_mutex s))
        (<[slot max (cur + i) := v]> (ne_waitersArray (ne_mutex s))).
Proof.
  intros Hi Hm. unfold ne_set_array, awn_store in Hm. pose proof (nv_cur s cur q h Hinv).
  rewrite (nv_max s cur q h Hinv), awn_index_slot in Hm by lia. case_bool_decide; [|done]. simplify_eq/=.
  by rewrite (nv_max s cur q h Hinv).
Qed.
End sim.

Local Notation sim s t q h s' := (∃ cur' q' h', qlock_step t q h q' h' ∧ ne_inv s' cur' q' h').

(** The steps of the second loop. *)
Lemma ne_sim_loop2 s cur q h t (i : nat) e m mine pc :
  ne_inv s cur q h → q !! i = Some t → (h = true → i ≠ 0%nat) → ne_pcs s t = NeLoop2 (cur + i) e →
  ticket_awnne_mutex_lock t (ne_mutex s) (ne_lockIsMine s) (NeLoop2 (cur + i) e) = Some (m, mine, pc) →
  sim s t q h (NeState m mine (<[t := pc]> (ne_pcs s))).
Proof.
  intros Hinv Hi H0 Hpc Hstep. pose proof (ne_ticket_range s cur q h Hinv i t Hi). pose proof (nv_cur s cur q h Hinv).
  pose proof (nv_late s cur q h Hinv i t Hi ltac:(by rewrite Hpc)) as Hlate.
  destruct (nv_loop2 s cur q h Hinv i t _ _ Hi Hpc) as [Hrange He]. destruct (ne_pos s cur q h Hinv) as [Hpos _].
  pose proof (ne_lag_range (ne_pcs s) q). simpl in Hstep. rewrite !s64_id, Hpos in Hstep by lia.
  case_bool_decide as Hfar; [|case_bool_decide as Hneg; [|case_bool_decide as Heq]]; simplify_eq/=.
  - eapply (ne_sim_quiet s cur q h t Hinv i); rewrite ?Hpc; try done; [by left|]. intros; split; lia.
  - eapply (ne_sim_quiet s cur q h t Hinv i); rewrite ?Hpc; try done; [by left|]. intros k' _ Hm.
    apply (ne_neg_spin s cur q h t Hinv i); try done. rewrite He by lia. lia.
  - eapply (ne_sim_admit s cur q h t Hinv i); rewrite ?Hpc; try done.
    apply (ne_first_head s cur q h Hinv). apply He. by left.
  - eapply (ne_sim_quiet s cur q h t Hinv i); rewrite ?Hpc; try done. by left.
Qed.

Lemma ne_sim_lock s cur q h t m mine pc :
  ne_inv s cur q h → ne_phase (ne_pcs s t) = Waiting →
  ticket_awnne_mutex_lock t (ne_mutex s) (ne_lockIsMine s) (ne_pcs s t) = Some (m, mine, pc) →
  sim s t q h (NeState m mine (<[t := pc]> (ne_pcs s))).
Proof.
  intros Hinv Hph Hstep. pose proof (nv_cur s cur q h Hinv).
  destruct (ne_ticket (ne_pcs s t)) as [k|] eqn:Hk; [|by destruct (ne_pcs s t)].
  destruct (line_waiter _ _ _ _ _ _ t k (nv_line s cur q h Hinv) Hph Hk) as (i & Hi & -> & H0).
  pose proof (ne_ticket_range s cur q h Hinv i t Hi). destruct (ne_pos s cur q h Hinv) as [Hpos Hposr]. pose proof (ne_lag_range (ne_pcs s) q).
  pose proof (nv_late s cur q h Hinv i t Hi) as Hlate. pose proof (nv_egress s cur q h Hinv) as Habs.
  destruct (ne_pcs s t) as [|k|k|k|k|k|k|k|k e|k| | | | | |] eqn:Hpc; simplify_eq/=; rewrite ?s64_id in * by lia.
  - case_bool_decide as He; [by eapply ne_sim_admit; rewrite ?Hpc; try done; eapply ne_first_head|].
    eapply ne_sim_quiet; rewrite ?Hpc; try done. destruct (decide (i = 0%nat)) as [->|]; [|lia].
    destruct q as [|o q']; simplify_eq/=. rewrite Hpc in Habs. simpl in Habs. lia.
  - case_bool_decide; eapply ne_sim_quiet; rewrite ?Hpc; try done; auto.
  - case_bool_decide as He; [eapply ne_sim_admit; rewrite ?Hpc; try done; by eapply ne_near_head; rewrite ?Hpc|].
    eapply ne_sim_quiet; rewrite ?Hpc; try done; auto.
  - rewrite Hpos, (nv_max s cur q h Hinv), !wrap_s_small by lia.
    case_bool_decide; eapply ne_sim_quiet; rewrite ?Hpc; try done; auto. right. lia.
  - rewrite <-(ne_self (ne_mutex s)). eapply ne_sim_wait; rewrite ?Hpc; try done; rewrite ?fn_lookup_insert; try done; auto.
    + intros u Hu. by rewrite fn_lookup_insert_ne.
    + eapply slots_move; [apply Hinv|apply Hinv|done|done|by rewrite Hpc|]. intros _. by eapply sl_near; [apply Hinv|done|rewrite Hpc].
  - destruct (ne_set_array _ _ _) as [m'|] eqn:Hm; simplify_eq/=.
    assert (i < max) as Him by (eapply sl_near; [apply Hinv|done|by rewrite Hpc]).
    rewrite (ne_set_array_slot s cur q h Hinv i (Some t) m Him Hm). eapply ne_sim_wait; rewrite ?Hpc; try done; auto.
    apply slots_write; [lia|apply ne_post_may|apply ne_may_near|apply Hinv|apply Hinv|done..|by left].
  - eapply ne_sim_quiet; rewrite ?Hpc; try done; auto. intros k e [= <- <-]. split; [lia|done].
  - eapply (ne_sim_loop2 s cur q h t i e); [done..|]. simpl. by rewrite (s64_id (cur + i - 1)) by lia.
  - destruct (ne_lockIsMine s t) eqn:Hm.
    + eapply ne_sim_admit; rewrite ?Hpc; try done. by destruct (nv_mine s cur q h Hinv i t Hi ltac:(by rewrite Hpc) Hm).
    + eapply ne_sim_quiet; rewrite ?Hpc; try done; auto. intros k _ _. by eapply nv_spin.
Qed.

Lemma ne_sim_unlock s cur q h t m mine pc :
  ne_inv s cur q h → owns (ne_phase (ne_pcs s t)) = true →
  ticket_awnne_mutex_unlock (ne_mutex s) (ne_lockIsMine s) (ne_pcs s t) = Some (m, mine, pc) →
  sim s t q h (NeState m mine (<[t := pc]> (ne_pcs s))).
Proof.
  intros Hinv Ho Hstep. destruct (line_owner _ _ _ _ _ _ t (nv_line s cur q h Hinv) Ho) as (q' & Hq & Hh & Hk).
  destruct (ne_pos s cur q h Hinv) as [Hpos _]. pose proof (nv_cur s cur q h Hinv).
  pose proof (ne_ticket_range s cur q h Hinv 0%nat t ltac:(by rewrite Hq)).
  pose proof (nv_egress s cur q h Hinv) as Habs.
  assert (ne_head_lag (ne_pcs s) q = ne_lag (ne_pcs s t)) as Hlag by (by rewrite Hq). rewrite Hlag in Hpos, Habs. 
  destruct (ne_pcs s t) as [| | | | | | | | | | |k|k|k u|k u|k] eqn:Hpc; simplify_eq/=;
    try (destruct Hk as [|[= ->]]; [done|]); rewrite ?s64_id in * by lia.
  - rewrite Hpos, Z.add_0_r. rewrite <-(ne_self (ne_mutex s)). eapply ne_sim_own; rewrite ?Hpc; try done; auto.
    + by intros (?&?&?).
    + by intros k u [].
    + eapply (slots_move _ _ _ _ _ _ _ _ 0%nat); [apply Hinv|apply Hinv|done..|lia].
  - destruct (ne_set_array _ _ _) as [m'|] eqn:Hm; simplify_eq/=. rewrite <-(Z.add_0_r cur) in Hm.
    rewrite (ne_set_array_slot s cur _ _ Hinv 0%nat None m ltac:(lia) Hm). eapply ne_sim_own; rewrite ?Hpc; try done; auto.
    + by intros (?&?&?).
    + by intros k u [].
    + apply slots_write; [lia|apply ne_post_may|apply ne_may_near|apply Hinv|apply Hinv|done|lia|done|by right].
  - destruct (_ !! _) as [wnode|] eqn:Hlook; simplify_eq/=.
    destruct (ne_look s cur _ _ t Hinv q' wnode eq_refl) as [Hw1 Hw2]; [by rewrite s64_id by lia|].
    rewrite Hpc in Hw2. rewrite <-(ne_self (ne_mutex s)). 
    assert (∀ pc', ne_may pc' = false → ne_near pc' = false → ne_slots cur (ne_waitersArray (ne_mutex s)) (t :: q') (<[t := pc']> (ne_pcs s))) as Hsl.
    { intros pc' Hmay Hnear. eapply (slots_move _ _ _ _ _ _ _ _ 0%nat); [apply Hinv|apply Hinv|done| |by rewrite Hpc|by rewrite Hnear].
      intros Hp%ne_post_may. congruence. }
    destruct wnode as [u|]; eapply ne_sim_own; rewrite ?Hpc; try done; auto.
    + by intros (?&?&?).
    + intros k v [[= <- <-]|?]; [|done]. by apply Hw2.
    + intros v k Hv Hs _. specialize (Hw1 v Hv ltac:(by rewrite Hs)). by simplify_eq.
    + by intros (?&?&?).
    + by intros k v [].
    + intros v k Hv Hs _. by specialize (Hw1 v Hv ltac:(by rewrite Hs)).
  - rewrite (s64_id (cur + 1)), s64_id by lia. unfold ne_set_egress. eapply ne_sim_own; rewrite ?Hpc; try done; simpl; auto; try lia.
    + intros k v [?|[= <- <-]]; [done|]. apply (nv_seen s cur _ _ Hinv t cur u eq_refl). auto.
    + eapply (slots_move _ _ _ _ _ _ _ _ 0%nat); [apply Hinv|apply Hinv|done|done|by rewrite Hpc|done].
  - destruct (nv_seen s cur _ _ Hinv t cur u eq_refl) as [Hu Hpu]; [by right|].
    pose proof (nv_lag s cur _ _ Hinv t cur u eq_refl Hpc). 
    assert (ne_mutex s = ne_set_egress (ne_mutex s) (ne_egress (ne_mutex s))) as -> by (by destruct (ne_mutex s)).
    eapply ne_sim_leave; rewrite ?Hpc; try done; auto.
    + intros v. by same_tid u v.
    + intros v. same_tid u v; auto.
    + intros _. exists u. by rewrite fn_lookup_insert.
    + intros v k Hv Hs Hm Hw. simpl in Hw. subst v. by rewrite fn_lookup_insert in Hm.
  - eapply ne_sim_leave; rewrite ?Hpc; try done; simpl; auto; lia.
Qed.

Lemma ne_sim s cur q h t s' : ne_inv s cur q h → ne_step n t s = Some s' → sim s t q h s'.
Proof.
  intros Hinv Hstep. unfold ne_step in Hstep. destruct (_ && _) eqn:Hg; [|done].
  apply andb_true_iff in Hg as [Ht%bool_decide_eq_true Hfull%negb_true_iff%bool_decide_eq_false].
  destruct (ne_thread _ _ _ _) as [[[m mine] pc]|] eqn:Hth; simplify_eq/=. unfold ne_thread in Hth.
  destruct (ne_phase (ne_pcs s t)) eqn:Hph;
    try (by destruct (ne_pcs s t)); try (by eapply ne_sim_lock); try (by eapply ne_sim_unlock; [done|rewrite Hph|]).
  destruct (ne_pcs s t) eqn:Hpc; simplify_eq/=. eapply ne_sim_arrive; [done..|]. intros Heq. by apply Hfull.
Qed.

(** ** Progress *)

Lemma ne_step_thread t s m mine pc :
  (t < n)%nat → ne_phase (ne_pcs s t) ≠ Idle →
  ne_thread t (ne_mutex s) (ne_lockIsMine s) (ne_pcs s t) = Some (m, mine, pc) →
  ne_step n t s = Some (NeState m mine (<[t := pc]> (ne_pcs s))).
Proof.
  intros Ht Hph Hth. unfold ne_step. rewrite bool_decide_true, bool_decide_false by (done || naive_solver). simpl. by rewrite Hth.
Qed.

#[local] Instance ne_mutex_n : Mutex unit ne_state := awnne_mutex n max.

(** How far a waiting thread at the head is from the lock. *)
Definition ne_rank (pc : ne_pc) : nat :=
  match pc with
  | NeNear _ => 2 | NeRoom _ => 6 | NeReset _ => 5 | NePut _ => 4 | NeLoop _ => 3
  | NeLoop2 k e => if bool_decide (e = k ∨ e = - k) then 2 else 4
  | _ => 1
  end.

Record ne_ready (s : ne_state) (t : tid) (k : Z) : Prop := {
  nr_tid : (t < n)%nat;
  nr_phase : ne_phase (ne_pcs s t) = Waiting;
  nr_ticket : ne_ticket (ne_pcs s t) = Some k;
  nr_egress : ne_egress (ne_mutex s) = k ∨
    ne_egress (ne_mutex s) = - k ∧ ne_post (ne_pcs s t) = true ∧ ne_lockIsMine s t = true;
  nr_range : 0 ≤ k < 2 ^ 63;
  nr_max : ne_maxArrayWaiters (ne_mutex s) = max;
  nr_len : length (ne_waitersArray (ne_mutex s)) = Z.to_nat max;
  nr_spin : ne_pcs s t = NeSpin k → ne_lockIsMine s t = true;
  nr_loop e : ne_pcs s t = NeLoop2 k e → Z.abs e < 2 ^ 63 ∧ (e = k ∨ e = - k → ne_egress (ne_mutex s) = e);
  nr_late : ne_late (ne_pcs s t) = true → 1 ≤ k;
}.

Lemma ne_ready_pos s t k : ne_ready s t k → get_pos_egress (ne_mutex s) = k.
Proof.
  intros Hr. pose proof (nr_range s t k Hr). unfold get_pos_egress.
  destruct (nr_egress s t k Hr) as [->|(-> & _)]; case_bool_decide; rewrite ?s64_id by lia; lia.
Qed.

Lemma ne_ready_index s t k : ne_ready s t k → (awn_index k max < length (ne_waitersArray (ne_mutex s)))%nat.
Proof.
  intros Hr. rewrite (nr_len s t k Hr). pose proof (nr_range s t k Hr). rewrite awn_index_slot by lia. unfold slot.
  pose proof (Z.mod_pos_bound k max). lia.
Qed.

(** The state after a step of the thread. *)
Definition ne_nearer (s : ne_state) (t : tid) (k : Z) (m : ticket_awnne_mutex_t) (mine : tid → bool) (pc : ne_pc) : Prop :=
  pc = NeHeld ∨ ne_ready (NeState m mine (<[t := pc]> (ne_pcs s))) t k ∧ (ne_rank pc < ne_rank (ne_pcs s t))%nat.

Lemma ne_ready_loop2 s t k e :
  ne_ready s t k → ne_pcs s t = NeLoop2 k e →
  ∃ m mine pc, ne_thread t (ne_mutex s) (ne_lockIsMine s) (ne_pcs s t) = Some (m, mine, pc) ∧ ne_nearer s t k m mine pc.
Proof.
  intros Hr Hpc. pose proof (ne_ready_pos s t k Hr) as Hpos. destruct (nr_loop s t k Hr e Hpc) as [He Hseen].
  destruct Hr. rewrite Hpc in *. unfold ne_thread, ne_nearer. rewrite Hpc. simpl in *. specialize (nr_late0 eq_refl).
  rewrite Hpos, !s64_id by lia. rewrite (bool_decide_false (k < k - 1)) by lia. simpl. eexists _, _, _. split; [done|].
  case_bool_decide as Hneg; [right|case_bool_decide; [by left|right]].
  - rewrite bool_decide_true by lia. split; [|simpl; lia]. rewrite Hseen in nr_egress0 by lia.
    split; simpl; rewrite ?fn_lookup_insert; try done; [|intros _; destruct nr_egress0 as [|(_&_&?)]; [lia|done]].
    rewrite Hseen by lia. naive_solver.
  - rewrite bool_decide_false by lia. split; [|simpl; lia]. by split; simpl; rewrite ?fn_lookup_insert.
Qed.

(** Every step of the thread at the head brings it nearer to the lock. *)
Lemma ne_ready_step s t k :
  ne_ready s t k → ∃ m mine pc, ne_thread t (ne_mutex s) (ne_lockIsMine s) (ne_pcs s t) = Some (m, mine, pc) ∧ ne_nearer s t k m mine pc.
Proof.
  intros Hr. pose proof (λ e, ne_ready_loop2 s t k e Hr) as Hloop.
  pose proof (ne_ready_index s t k Hr) as Hidx. pose proof (ne_ready_pos s t k Hr) as Hpos.
  destruct Hr as [Ht Hph Hk He Hrange Hmax Hlen Hspin _ Hlate].
  destruct (ne_pcs s t) as [|k'|k'|k'|k'|k'|k'|k'|k' e|k'| | | | | |] eqn:Hpc; simplify_eq/=; try (by apply (Hloop e)); clear Hloop;
    unfold ne_thread, ne_nearer; rewrite ?Hpc; simpl; try specialize (Hlate eq_refl); unfold ne_set_array, awn_store; rewrite ?Hpos, ?Hmax in *; rewrite ?s64_id, ?Z.sub_diag by lia;
    rewrite ?(wrap_s_small 32) by lia; rewrite ?s64_id by lia.
  all: try (destruct He as [He|(? & ? & ?)]; [|done]).
  all: repeat first [rewrite bool_decide_true by (done || lia) | rewrite bool_decide_false by lia].
  all: try rewrite (Hspin eq_refl).
  all: eexists _, _, _; split; [done|]; first [by left|right; split; [|simpl; try case_bool_decide; lia]].
  all: split; simpl; rewrite ?fn_lookup_insert, ?length_insert; auto; try done.
  all: intros e [= <-]; split; [lia|done].
Qed.

Lemma ne_ready_enters s t k r :
  ne_ready s t k → (ne_rank (ne_pcs s t) ≤ r)%nat → solo t s (λ s', ne_phase (ne_pcs s' t) = Holding).
Proof.
  revert s. induction r as [|r IH]; intros s Hr Hle.
  { destruct (ne_pcs s t); simpl in Hle; try case_bool_decide; lia. }
  destruct (ne_ready_step s t k Hr) as (m & mine & pc & Hth & Hnext).
  eapply (solo_step _ tt); [apply ne_step_thread; [apply Hr| |done]; by rewrite (nr_phase s t k Hr)|].
  destruct Hnext as [->|[Hr' Hlt]]; [apply solo_done; simpl; by rewrite fn_lookup_insert|].
  apply IH; [done|]. simpl. rewrite fn_lookup_insert. lia.
Qed.

Lemma ne_enters s cur t q : ne_inv s cur (t :: q) false → solo t s (λ s', ne_phase (ne_pcs s' t) = Holding).
Proof.
  intros Hinv. destruct (line_head _ _ _ _ _ _ (nv_line _ _ _ _ Hinv)) as [Hp Hk].
  pose proof (ne_ticket_range s _ _ _ Hinv 0%nat t eq_refl). eapply ne_ready_enters; [|done].
  destruct Hinv. split; try done.
  - by apply Forall_cons in nv_tids0 as [? _].
  - assert (ne_head_lag (ne_pcs s) (t :: q) = 0) as Hlag by (simpl; by destruct (ne_pcs s t)).
    rewrite Hlag in nv_egress0. destruct (decide (ne_egress (ne_mutex s) < 0)) as [Hneg|]; [|left; lia].
    destruct (nv_neg0 Hneg) as (o & [= <-] & ?). right. split; [lia|auto].
  - lia.
  - apply nv_slots0.
  - intros Hs. destruct (ne_lockIsMine s t) eqn:Hm; [done|]. by destruct (nv_spin0 0%nat t _ eq_refl Hs Hm).
  - intros e Hs. by apply (nv_loop3 0%nat t cur e).
  - intros Hl. pose proof (nv_late0 0%nat t eq_refl Hl). lia.
Qed.

(** [unlock] from the look at the next slot on. *)
Lemma ne_unlock_ends s t k pc :
  (t < n)%nat → 0 ≤ k < 2 ^ 63 - 1 → ne_maxArrayWaiters (ne_mutex s) = max → length (ne_waitersArray (ne_mutex s)) = Z.to_nat max →
  ne_pcs s t = pc → (pc = NeLook k ∨ (∃ u, pc = NeNeg k u) ∨ (∃ u, pc = NeSignal k u) ∨ pc = NeStore k) →
  solo t s (λ s', queued (ne_phase (ne_pcs s' t)) = false).
Proof.
  intros Ht Hk Hmax Hlen.
  assert (∀ s u, ne_pcs s t = NeSignal k u ∨ ne_pcs s t = NeStore k → solo t s (λ s', queued (ne_phase (ne_pcs s' t)) = false)) as Hlast.
  { intros s1 u [Hpc|Hpc]; (eapply (solo_step _ tt); [apply ne_step_thread; rewrite ?Hpc; done|]);
      apply solo_done; simpl; by rewrite fn_lookup_insert. }
  assert (∀ s u, ne_pcs s t = NeNeg k u → solo t s (λ s', queued (ne_phase (ne_pcs s' t)) = false)) as Hneg.
  { intros s1 u Hpc. eapply (solo_step _ tt); [apply ne_step_thread; rewrite ?Hpc; done|].
    apply (Hlast _ u). simpl. rewrite fn_lookup_insert. by left. }
  intros Hpc [->|[[u ->]|[[u ->]| ->]]]; [|by eauto|by eauto|by apply (Hlast _ 0%nat); right].
  destruct (lookup_lt_is_Some_2 (ne_waitersArray (ne_mutex s)) (awn_index (s64 (k + 1)) max)) as [w Hw].
  { rewrite s64_id, awn_index_slot, Hlen by lia. unfold slot. pose proof (Z.mod_pos_bound (k + 1) max). lia. }
  eapply (solo_step _ tt).
  - apply ne_step_thread; rewrite ?Hpc; [done..|]. unfold ne_thread. simpl. rewrite Hmax, Hw. done.
  - destruct w; [eapply Hneg|apply (Hlast _ 0%nat); right]; simpl; by rewrite fn_lookup_insert.
Qed.

Lemma ne_unlock_clear s t k :
  (t < n)%nat → 0 ≤ k < 2 ^ 63 - 1 → ne_maxArrayWaiters (ne_mutex s) = max → length (ne_waitersArray (ne_mutex s)) = Z.to_nat max →
  ne_pcs s t = NeClear k → solo t s (λ s', queued (ne_phase (ne_pcs s' t)) = false).
Proof.
  intros Ht Hk Hmax Hlen Hpc. eapply (solo_step _ tt).
  - apply ne_step_thread; rewrite ?Hpc; [done..|]. unfold ne_thread. simpl. unfold ne_set_array, awn_store. rewrite Hmax, bool_decide_true; [done|].
    rewrite awn_index_slot, Hlen by lia. unfold slot. pose proof (Z.mod_pos_bound k max). lia.
  - eapply (ne_unlock_ends _ _ k); simpl; rewrite ?fn_lookup_insert, ?length_insert; [done..|]. by left.
Qed.

Lemma ne_exits s cur q h t :
  ne_inv s cur q h → owns (ne_phase (ne_pcs s t)) = true → solo t s (λ s', queued (ne_phase (ne_pcs s' t)) = false).
Proof.
  intros Hinv Ho. destruct (line_owner _ _ _ _ _ _ t (nv_line s cur q h Hinv) Ho) as (q' & -> & -> & Hk).
  assert ((t < n)%nat) as Ht by (pose proof (nv_tids _ _ _ _ Hinv) as Hf; by apply Forall_cons in Hf as [? _]).
  pose proof (ne_ticket_range s _ _ _ Hinv 0%nat t eq_refl). pose proof (nv_cur _ _ _ _ Hinv).
  pose proof (sl_len _ _ _ _ _ _ _ _ (nv_slots _ _ _ _ Hinv)). pose proof (nv_max _ _ _ _ Hinv).
  destruct (ne_pos s _ _ _ Hinv) as [Hpos _].
  destruct (ne_pcs s t) as [| | | | | | | | | | |k|k|k u|k u|k] eqn:Hpc; try done; try (destruct Hk as [|[= ->]]; [done|]).
  1:{ eapply (solo_step _ tt); [apply ne_step_thread; rewrite ?Hpc; done|].
      apply (ne_unlock_clear _ t cur); simpl; rewrite ?fn_lookup_insert; try done; [lia|].
      rewrite Hpos. simpl. rewrite Hpc. simpl. f_equal. lia. }
  1:{ apply (ne_unlock_clear _ t cur); try done. lia. }
  all: eapply (ne_unlock_ends _ _ cur); [done|lia|done..|]; eauto.
Qed.

Lemma ne_inv_start s : ne_init max s → ne_inv s 0 [] false.
Proof.
  intros [Hm Hp]. split; rewrite ?Hm, ?Hp; simpl; try done.
  - split; [by apply NoDup_nil|done|done].
  - apply slots_empty.
Qed.

Definition ne_queue_lock : QueueLock unit ne_state.
Proof.
  refine {| ql_rel := λ s q h, ∃ cur, ne_inv s cur q h |}.
  - intros s Hi. exists 0. by apply ne_inv_start.
  - intros t [] s s' q h [cur Hinv] Hstep. destruct (ne_sim s cur q h t s' Hinv Hstep) as (cur' & q' & h' & ? & ?). eauto.
  - intros s q h t [cur Hinv]. eapply line_queued, Hinv.
  - intros s q h t [cur Hinv]. eapply line_owns; apply Hinv.
  - intros s t [_ Hp]. simpl. by rewrite Hp.
  - intros t t' [] s s' Hstep Hne. simpl in *. unfold ne_step in Hstep. destruct (_ && _); [|done].
    destruct (ne_thread _ _ _ _) as [[[m mine] pc]|]; simplify_eq/=. by rewrite fn_lookup_insert_ne by done.
  - intros t [] s s' Hstep. simpl in *. unfold ne_step in Hstep. destruct (_ && _); [|done].
    destruct (ne_thread _ _ _ _) as [[[m mine] pc]|] eqn:Hth; simplify_eq/=. rewrite fn_lookup_insert.
    unfold ne_thread, ticket_awnne_mutex_lock, ticket_awnne_mutex_unlock, mbind, option_bind in Hth.
    destruct (ne_pcs s t); step_inv Hth; repeat case_match; done.
  - intros s t q [cur Hinv]. by eapply ne_enters.
  - intros s q h t [cur Hinv]. by eapply ne_exits.
Defined.
End proof.

(** ** Theorem *)

(** The negative-egress lock is mutually exclusive, admits threads in the
    order in which they drew their tickets, and makes progress, for every number
    of threads and every array of at least two slots, whatever the nodes hold
    at first. *)
Lemma awnne_correct (n : nat) (max : Z) :
  2 ≤ max < 2 ^ 31 →
  lock_exclusive (awnne_mutex n max) ∧ lock_fifo (awnne_mutex n max) ∧ lock_progress (awnne_mutex n max).
Proof. intros Hmax. apply (qlock_correct (Q := ne_queue_lock n max Hmax)). Qed.

(** Three threads: the second takes the lock when [egress] comes up, the third
    spins on its node and is signalled. *)
Definition ne_start : ne_state := NeState (ticket_awnne_mutex_init 4) (λ _, true) (λ _, NeIdle).

Definition ne_schedule : list (tid * unit) :=
  (λ t, (t, tt)) <$> [0; 1; 2; 0; 1; 2; 1; 2; 1; 2; 2; 2; 2; 2; 2; 2; 1; 1; 0; 0; 0; 0; 1; 1; 1; 1; 1; 1; 1; 1; 2; 2; 2; 2]%nat.

