(* ===== verification/AwnSb.v ===== *)
(** * The ticket lock with waiting nodes that spins on both

    [ConcurrencyFreaks/C11/locks/ticketawn/ticket_awnsb_mutex.c].  Whoever
    releases the lock either wakes up the thread whose node it saw in the array
    and leaves [egress] to that thread, or moves [egress] on; a thread that is
    next waits for either.  There is one node for each thread,
    which a thread uses for one lock at a time.  The counters are 64-bit; no
    thread calls [lock] once 2^63 - 1 tickets have been drawn. *)

From S2P Require Import Prelude Lts Mutex Tickets.

Local Open Scope Z_scope.

(** ** Data *)

Record ticket_awnsb_mutex_t := AwnsbMutexT {
  sb_ingress : Z;
  sb_egress : Z;
  sb_maxArrayWaiters : Z;
  sb_waitersArray : list (option tid);   (** nodes are named by their threads *)
}.

(** Program points, with the local variables that are alive. *)
Inductive sb_pc :=
  | SbIdle
  | SbFirst (ticket : Z)               (** [if (egress == ticket) return] *)
  | SbNear (ticket : Z)                (** [while (egress >= ticket-1)] *)
  | SbNear2 (ticket : Z)               (** [if (egress == ticket) return] *)
  | SbRoom (ticket : Z)                (** [while (ticket-egress >= maxArrayWaiters-1)] *)
  | SbReset (ticket : Z)               (** [lockIsMine = false] *)
  | SbPut (ticket : Z)                 (** [waitersArray[...] = wnode] *)
  | SbTest (ticket : Z)                (** [if (egress < ticket-1)] *)
  | SbSpin (ticket : Z)                (** [while (!lockIsMine)] *)
  | SbBoth (ticket : Z)                (** [while (egress != ticket)] *)
  | SbBoth2 (ticket : Z)               (** [if (lockIsMine)] *)
  | SbSet (ticket : Z)                 (** [egress = ticket], at the end of [lock] *)
  | SbHeld
  | SbClear (ticket : Z)               (** [waitersArray[...] = NULL] *)
  | SbLook (ticket : Z)                (** [wnode = waitersArray[...]] *)
  | SbSignal (ticket : Z) (wnode : tid)   (** [wnode->lockIsMine = true] *)
  | SbStore (ticket : Z)               (** [egress = ticket+1] *).

Record sb_state := SbState {
  sb_mutex : ticket_awnsb_mutex_t;
  sb_lockIsMine : tid → bool;            (** of [tlNode] of each thread *)
  sb_pcs : tid → sb_pc;
}.

(** ** Operations, one atomic access per step *)

Definition ticket_awnsb_mutex_init (maxArrayWaiters : Z) : ticket_awnsb_mutex_t :=
  AwnsbMutexT 0 0 maxArrayWaiters (replicate (Z.to_nat maxArrayWaiters) None).

(** The counters; the array is freed. *)
Definition ticket_awnsb_mutex_destroy (self : ticket_awnsb_mutex_t) : ticket_awnsb_mutex_t :=
  AwnsbMutexT 0 0 (sb_maxArrayWaiters self) [].

Definition sb_set_egress (self : ticket_awnsb_mutex_t) (e : Z) : ticket_awnsb_mutex_t :=
  AwnsbMutexT (sb_ingress self) e (sb_maxArrayWaiters self) (sb_waitersArray self).

Definition sb_set_array (self : ticket_awnsb_mutex_t) (ticket : Z) (v : option tid) : option ticket_awnsb_mutex_t :=
  arr ← awn_store (sb_waitersArray self) (awn_index ticket (sb_maxArrayWaiters self)) v;
  Some (AwnsbMutexT (sb_ingress self) (sb_egress self) (sb_maxArrayWaiters self) arr).

Definition ticket_awnsb_mutex_lock (me : tid) (self : ticket_awnsb_mutex_t) (mine : tid → bool) (pc : sb_pc)
    : option (ticket_awnsb_mutex_t * (tid → bool) * sb_pc) :=
  let egress := sb_egress self in
  match pc with
  | SbIdle =>
      Some (AwnsbMutexT (s64 (sb_ingress self + 1)) egress (sb_maxArrayWaiters self) (sb_waitersArray self), mine,
            SbFirst (sb_ingress self))
  | SbFirst ticket => Some (self, mine, if bool_decide (egress = ticket) then SbHeld else SbNear ticket)
  | SbNear ticket => Some (self, mine, if bool_decide (s64 (ticket - 1) ≤ egress) then SbNear2 ticket else SbRoom ticket)
  | SbNear2 ticket => Some (self, mine, if bool_decide (egress = ticket) then SbHeld else SbNear ticket)
  | SbRoom ticket =>
      Some (self, mine, if bool_decide (s32 (sb_maxArrayWaiters self - 1) ≤ s64 (ticket - egress)) then SbRoom ticket
                        else SbReset ticket)
  | SbReset ticket => Some (self, <[me := false]> mine, SbPut ticket)
  | SbPut ticket => self' ← sb_set_array self ticket (Some me); Some (self', mine, SbTest ticket)
  | SbTest ticket => Some (self, mine, if bool_decide (egress < s64 (ticket - 1)) then SbSpin ticket else SbBoth ticket)
  | SbSpin ticket => Some (self, mine, if mine me then SbSet ticket else SbSpin ticket)
  | SbBoth ticket => Some (self, mine, if bool_decide (egress = ticket) then SbHeld else SbBoth2 ticket)
  | SbBoth2 ticket => Some (self, mine, if mine me then SbSet ticket else SbBoth ticket)
  | SbSet ticket => Some (sb_set_egress self ticket, mine, SbHeld)
  | _ => None
  end.

Definition ticket_awnsb_mutex_unlock (self : ticket_awnsb_mutex_t) (mine : tid → bool) (pc : sb_pc)
    : option (ticket_awnsb_mutex_t * (tid → bool) * sb_pc) :=
  match pc with
  | SbHeld => Some (self, mine, SbClear (sb_egress self))
  | SbClear ticket => self' ← sb_set_array self ticket None; Some (self', mine, SbLook ticket)
  | SbLook ticket =>
      wnode ← sb_waitersArray self !! awn_index (s64 (ticket + 1)) (sb_maxArrayWaiters self);
      Some (self, mine, match wnode with Some u => SbSignal ticket u | None => SbStore ticket end)
  | SbSignal ticket wnode => Some (self, <[wnode := true]> mine, SbIdle)
  | SbStore ticket => Some (sb_set_egress self (s64 (ticket + 1)), mine, SbIdle)
  | _ => None
  end.

Definition ticket_awnsb_mutex_trylock (self : ticket_awnsb_mutex_t) (pc : try_pc)
    : option (ticket_awnsb_mutex_t * (try_pc + bool)) :=
  match pc with
  | TryEgress => Some (self, inl (TryIngress (sb_egress self)))
  | TryIngress localE =>
      let localI := sb_ingress self in
      Some (self, if bool_decide (localE = localI) then inl (TryLoad localI) else inr false)
  | TryLoad localI => Some (self, inl (TryCas localI (s64 (sb_ingress self + 1))))
  | TryCas localI new =>
      if bool_decide (sb_ingress self = localI) then
        Some (AwnsbMutexT new (sb_egress self) (sb_maxArrayWaiters self) (sb_waitersArray self), inr true)
      else Some (self, inr false)
  end.

(** ** The lock as a transition system *)

Definition sb_phase (pc : sb_pc) : phase :=
  match pc with
  | SbIdle => Idle
  | SbSet _ => Acquired
  | SbHeld => Holding
  | SbClear _ | SbLook _ | SbSignal _ _ | SbStore _ => Unlocking
  | _ => Waiting
  end.

Definition sb_thread (me : tid) (self : ticket_awnsb_mutex_t) (mine : tid → bool) (pc : sb_pc) :=
  match sb_phase pc with
  | Holding | Unlocking => ticket_awnsb_mutex_unlock self mine pc
  | _ => ticket_awnsb_mutex_lock me self mine pc
  end.

Definition sb_step (nthreads : nat) (t : tid) (s : sb_state) : option sb_state :=
  if bool_decide (t < nthreads)%nat && negb (bool_decide (sb_phase (sb_pcs s t) = Idle ∧ sb_ingress (sb_mutex s) = 2 ^ 63 - 1)) then
    '(m, mine, pc) ← sb_thread t (sb_mutex s) (sb_lockIsMine s) (sb_pcs s t);
    Some (SbState m mine (<[t := pc]> (sb_pcs s)))
  else None.

(** The nodes hold anything at first. *)
Definition sb_init (max : Z) (s : sb_state) : Prop :=
  sb_mutex s = ticket_awnsb_mutex_init max ∧ sb_pcs s = (λ _, SbIdle).

Definition awnsb_mutex (nthreads : nat) (max : Z) : Mutex unit sb_state := {|
  mtx_init := sb_init max;
  mtx_step := λ t _ s, sb_step nthreads t s;
  mtx_phase := λ s t, sb_phase (sb_pcs s t);
|}.

(** ** Invariant *)

Definition sb_ticket (pc : sb_pc) : option Z :=
  match pc with
  | SbIdle | SbHeld => None
  | SbFirst k | SbNear k | SbNear2 k | SbRoom k | SbReset k | SbPut k | SbTest k | SbSpin k | SbBoth k | SbBoth2 k
  | SbSet k | SbClear k | SbLook k | SbSignal k _ | SbStore k => Some k
  end.

(** The node of the waiting thread is in the array. *)
Definition sb_post (pc : sb_pc) : bool :=
  match pc with SbTest _ | SbSpin _ | SbBoth _ | SbBoth2 _ => true | _ => false end.

(** The owner may not have removed its node yet. *)
Definition sb_may (pc : sb_pc) : bool :=
  match pc with SbSet _ | SbHeld | SbClear _ => true | _ => sb_post pc end.

Definition sb_near (pc : sb_pc) : bool :=
  match pc with SbReset _ | SbPut _ => true | _ => sb_may pc end.

(** Between the reset of its node and its return from [lock]. *)
Definition sb_fresh (pc : sb_pc) : bool :=
  match pc with SbPut _ => true | _ => sb_post pc end.

(** The owner has not passed by the node of [t] yet. *)
Definition sb_waker (t : tid) (pc : sb_pc) : Prop :=
  match pc with SbStore _ => False | SbSignal _ u => u = t | _ => True end.

(** The head of the line was woken up and has yet to move [egress] on. *)
Definition sb_handed (h : bool) (pc : sb_pc) (mine : bool) : bool :=
  if h then match pc with SbSet _ => true | _ => false end else sb_post pc && mine.

Section proof.
Context (n : nat) (max : Z).
Hypothesis max_range : 2 ≤ max < 2 ^ 31.

Local Notation sb_line := (line sb_phase sb_ticket).
Local Notation sb_slots := (slots sb_post sb_may sb_near max).

Lemma sb_post_may pc : sb_post pc = true → sb_may pc = true.
Proof. by destruct pc. Qed.

Lemma sb_may_near pc : sb_may pc = true → sb_near pc = true.
Proof. by destruct pc. Qed.

Record sb_inv (s : sb_state) (cur : Z) (q : list tid) (h : bool) : Prop := {
  bv_line : sb_line cur (sb_pcs s) q h;
  bv_h : h = true → q ≠ [];
  bv_tids : Forall (λ t, (t < n)%nat) q;
  bv_cur : 0 ≤ cur;
  bv_ingress : sb_ingress (sb_mutex s) = cur + length q;
  bv_bound : sb_ingress (sb_mutex s) < 2 ^ 63;
  bv_max : sb_maxArrayWaiters (sb_mutex s) = max;
  bv_slots : sb_slots cur (sb_waitersArray (sb_mutex s)) q (sb_pcs s);
  bv_egress : sb_egress (sb_mutex s) = cur ∨ sb_egress (sb_mutex s) = cur - 1 ∧
    ∃ o, q !! 0%nat = Some o ∧ sb_handed h (sb_pcs s o) (sb_lockIsMine s o) = true;
  bv_seen o k u : q !! 0%nat = Some o → sb_pcs s o = SbSignal k u →
    q !! 1%nat = Some u ∧ sb_post (sb_pcs s u) = true;
  bv_mine (i : nat) t : q !! i = Some t → sb_fresh (sb_pcs s t) = true → sb_lockIsMine s t = true → i = 0%nat;
  (** A thread that spins on its node has been or will be woken up. *)
  bv_spin (i : nat) t k : q !! i = Some t → sb_pcs s t = SbSpin k → sb_lockIsMine s t = false →
    i ≠ 0%nat ∧ (i = 1%nat → ∀ o, q !! 0%nat = Some o → sb_waker t (sb_pcs s o));
}.

Section sim.
Context (s : sb_state) (cur : Z) (q : list tid) (h : bool) (t : tid) (Hinv : sb_inv s cur q h).

Local Notation sim s' := (∃ cur' q' h', qlock_step t q h q' h' ∧ sb_inv s' cur' q' h').
Local Notation egress := (sb_egress (sb_mutex s)).

(** Tickets in the line do not overflow. *)
Lemma sb_ticket_range (i : nat) u : q !! i = Some u → cur + i < 2 ^ 63 - 1.
Proof.
  intros Hi%lookup_lt_Some. pose proof (bv_ingress s cur q h Hinv). pose proof (bv_bound s cur q h Hinv). lia.
Qed.

Lemma sb_egress_range : cur - 1 ≤ egress ≤ cur.
Proof. destruct (bv_egress s cur q h Hinv) as [->|[-> _]]; lia. Qed.

(** Behind an [egress] that lags the next thread has not been passed by. *)
Lemma sb_lag_waker o : egress = cur - 1 → q !! 0%nat = Some o → sb_waker t (sb_pcs s o).
Proof.
  intros He Ho. destruct (bv_egress s cur q h Hinv) as [|(_ & o' & Ho' & Hh)]; [lia|]. simplify_eq.
  destruct h; [by destruct (sb_pcs s o)|]. apply andb_true_iff in Hh as [Hp _]. by destruct (sb_pcs s o).
Qed.

(** A waiting thread moves on to another waiting point. *)
Lemma sb_sim_wait (i : nat) pc mine arr :
  q !! i = Some t → (h = true → i ≠ 0%nat) → sb_phase (sb_pcs s t) = Waiting →
  sb_phase pc = Waiting → sb_ticket pc = Some (cur + i) →
  (∀ u, u ≠ t → mine u = sb_lockIsMine s u) →
  (sb_post (sb_pcs s t) = true → sb_post pc = true ∧ mine t = sb_lockIsMine s t) →
  (sb_fresh pc = true → mine t = true → sb_fresh (sb_pcs s t) = true ∧ sb_lockIsMine s t = true) →
  sb_slots cur arr q (<[t := pc]> (sb_pcs s)) →
  (∀ k, pc = SbSpin k → mine t = false → i ≠ 0%nat ∧ (i = 1%nat → ∀ o, q !! 0%nat = Some o → sb_waker t (sb_pcs s o))) →
  sim (SbState (AwnsbMutexT (sb_ingress (sb_mutex s)) egress (sb_maxArrayWaiters (sb_mutex s)) arr) mine (<[t := pc]> (sb_pcs s))).
Proof.
  intros Hi H0 Hph Hp Hk Hmine Hpost Hfresh Hslots Hspin. exists cur, q, h. split; [constructor|].
  assert (∀ j, q !! j = Some t → j = i) as Huniq by (intros j Hj; by eapply line_unique; [apply Hinv|..]).
  destruct Hinv. split; simpl; try done.
  - by eapply line_wait.
  - destruct bv_egress0 as [?|(? & o & Ho & Hh)]; [by left|right]. split; [done|]. exists o. split; [done|].
    same_tid t o; [|by rewrite Hmine]. destruct h; [by rewrite (Huniq 0%nat Ho) in *; destruct H0|].
    simpl in *. apply andb_true_iff in Hh as [Hpo Hmo]. destruct (Hpost Hpo) as [-> ->]. done.
  - intros o k u Ho. same_tid t o; [by intros ->|]. intros Hu. destruct (bv_seen0 o k u Ho Hu) as [? Hpu].
    split; [done|]. same_tid t u; [|done]. by apply Hpost.
  - intros j u Hj. same_tid t u; [|rewrite Hmine by done; eauto]. rewrite (Huniq j Hj). intros Hf Hm.
    destruct (Hfresh Hf Hm) as [??]. eauto.
  - intros j u k Hj Hu Hm.
    assert (j ≠ 0%nat ∧ (j = 1%nat → ∀ o, q !! 0%nat = Some o → sb_waker u (sb_pcs s o))) as [Hj0 Hj1].
    { same_tid t u; [|eapply bv_spin0; [done..|by rewrite <-Hmine]]. rewrite (Huniq j Hj). by eapply Hspin. }
    split; [done|]. intros Hj' o Ho. specialize (Hj1 Hj' o Ho). same_tid t o; [|done]. by destruct pc.
Qed.

(** A waiting thread whose ticket has come up takes the lock. *)
Lemma sb_sim_admit (i : nat) pc :
  q !! i = Some t → (h = true → i ≠ 0%nat) → i = 0%nat → sb_phase (sb_pcs s t) = Waiting →
  (pc = SbHeld ∧ egress = cur ∨ pc = SbSet cur) →
  sim (SbState (sb_mutex s) (sb_lockIsMine s) (<[t := pc]> (sb_pcs s))).
Proof.
  intros Hi H0 Hi0 Hph Hpc.
  assert (owns (sb_phase pc) = true ∧ (sb_ticket pc = None ∨ sb_ticket pc = Some cur) ∧ sb_may pc = true ∧ sb_fresh pc = false ∧
    sb_post pc = false ∧ (∀ u, sb_waker u pc) ∧ (∀ k u, pc ≠ SbSignal k u) ∧ (∀ k, pc ≠ SbSpin k))
    as (Ho & Hk & Hmay & Hfresh & Hpost & Hw & Hns & Hnsp).
  { destruct Hpc as [[-> _]| ->]; naive_solver. }
  destruct (line_admit _ _ _ _ _ _ i t pc (bv_line s cur q h Hinv)) as (-> & [q' ->] & Hl); [done..|].
  exists cur, (t :: q'), true. split; [constructor|]. destruct Hinv. split; simpl; try done.
  - eapply (slots_move _ _ _ _ _ _ _ _ 0%nat); [done|apply bv_line0|done|by rewrite Hpost|by rewrite Hmay|lia].
  - destruct Hpc as [[-> ->]| ->]; [by left|]. destruct bv_egress0 as [|[? _]]; [by left|right]. split; [done|].
    exists t. by rewrite fn_lookup_insert.
  - intros o k u [= <-]. rewrite fn_lookup_insert. by intros ?%Hns.
  - intros j u Hj. same_tid t u; [by rewrite Hfresh|eauto].
  - intros j u k Hj. same_tid t u; [by intros ?%Hnsp|]. intros Hu Hm. split; [by eapply bv_spin0|].
    intros _ o [= <-]. by rewrite fn_lookup_insert.
Qed.

Lemma sb_mine_owner (i : nat) u :
  h = true → q !! i = Some u → sb_fresh (sb_pcs s u) = true → sb_lockIsMine s u = false.
Proof.
  intros Hh Hi Hf. destruct (sb_lockIsMine s u) eqn:Hm; [|done]. pose proof (bv_mine s cur q h Hinv i u Hi Hf Hm) as ->.
  pose proof (ln_in _ _ _ _ _ _ (bv_line s cur q h Hinv) 0%nat u Hi) as Hs. rewrite Hh in Hs. simpl in Hs.
  destruct Hs as [Ho _]. by destruct (sb_pcs s u).
Qed.

(** The owner moves on and keeps the lock. *)
Lemma sb_sim_own q' pc arr :
  q = t :: q' → h = true → owns (sb_phase pc) = true → (sb_ticket pc = None ∨ sb_ticket pc = Some cur) →
  (∀ k u, pc = SbSignal k u → q' !! 0%nat = Some u ∧ sb_post (sb_pcs s u) = true) →
  sb_slots cur arr q (<[t := pc]> (sb_pcs s)) →
  (∀ u k, q' !! 0%nat = Some u → sb_pcs s u = SbSpin k → sb_waker u (sb_pcs s t) → sb_waker u pc) →
  sim (SbState (AwnsbMutexT (sb_ingress (sb_mutex s)) cur (sb_maxArrayWaiters (sb_mutex s)) arr) (sb_lockIsMine s)
         (<[t := pc]> (sb_pcs s))).
Proof.
  intros Hq Hh Hp Hk Hseen Hslots Hwake. exists cur, q, h. split; [constructor|].
  pose proof (λ i u, sb_mine_owner i u Hh) as Hmine. subst q h. destruct Hinv. split; simpl; try done.
  - by apply line_own.
  - by left.
  - intros o k u [= <-]. rewrite fn_lookup_insert. intros Hu. destruct (Hseen k u Hu) as [Hu1 Hpu].
    split; [done|]. rewrite fn_lookup_insert_ne; [done|]. intros <-.
    pose proof (line_unique _ _ _ _ _ _ 0%nat 1%nat t bv_line0 eq_refl Hu1). done.
  - intros j u Hj. same_tid t u; [by destruct pc|]. intros Hf. by rewrite (Hmine j u Hj Hf).
  - intros j u k Hj. same_tid t u; [by intros ->|]. intros Hu Hm. destruct (bv_spin0 j u k Hj Hu Hm) as [? Hj1].
    split; [done|]. intros -> o [= <-]. rewrite fn_lookup_insert. eapply Hwake; [done..|]. by apply Hj1.
Qed.

(** The owner is done with the lock. *)
Lemma sb_sim_leave q' e mine :
  q = t :: q' → h = true → sb_may (sb_pcs s t) = false →
  (e = cur + 1 ∨ e = cur ∧ ∃ o, q' !! 0%nat = Some o ∧ sb_post (sb_pcs s o) = true ∧ mine o = true) →
  (∀ u, sb_lockIsMine s u = true → mine u = true) →
  (∀ u, mine u = true → sb_lockIsMine s u = true ∨ q' !! 0%nat = Some u) →
  (∀ u k, q' !! 0%nat = Some u → sb_pcs s u = SbSpin k → mine u = false → ¬ sb_waker u (sb_pcs s t)) →
  sim (SbState (sb_set_egress (sb_mutex s) e) mine (<[t := SbIdle]> (sb_pcs s))).
Proof.
  intros Hq Hh Hmay He Hold Hnew Hwake. exists (cur + 1), q', false. split; [subst; constructor|].
  pose proof (λ i u, sb_mine_owner i u Hh) as Hmine.
  subst q h. destruct Hinv. pose proof (ln_nodup _ _ _ _ _ _ bv_line0) as [Hn Hnd]%NoDup_cons.
  assert (∀ (j : nat) u, q' !! j = Some u → u ≠ t) as Hne by (intros j u Hj ->; by apply Hn, (list_elem_of_lookup_2 q' j)).
  assert (∀ u, q' !! 0%nat = Some u → sb_phase (sb_pcs s u) = Waiting) as Hw1.
  { intros u Hu. by destruct (ln_in _ _ _ _ _ _ bv_line0 1%nat u Hu). }
  split; simpl in *; try done.
  - by apply line_leave.
  - by apply Forall_cons in bv_tids0 as [_ ?].
  - lia.
  - lia.
  - by apply slots_leave; [|apply bv_line0|].
  - destruct He as [->|(-> & o & Ho & Hp & Hm)]; [by left|right]. split; [lia|]. exists o. split; [done|].
    rewrite fn_lookup_insert_ne by (intros <-; by eapply Hne). by rewrite Hp, Hm.
  - intros o k u Ho. rewrite fn_lookup_insert_ne by (intros <-; by eapply Hne). specialize (Hw1 o Ho). intros Hpc. by rewrite Hpc in Hw1.
  - intros j u Hj. rewrite fn_lookup_insert_ne by (intros <-; by eapply Hne). intros Hf [Hm|H0]%Hnew.
    + by rewrite (Hmine (S j) u Hj Hf) in Hm.
    + by eapply (NoDup_lookup q').
  - intros j u k Hj. rewrite fn_lookup_insert_ne by (intros <-; by eapply Hne). intros Hu Hm.
    assert (sb_lockIsMine s u = false) as Hm' by (destruct (sb_lockIsMine s u) eqn:E; [by rewrite Hold in Hm|done]).
    destruct (bv_spin0 (S j) u k Hj Hu Hm') as [_ Hj1]. split.
    + intros ->. by eapply Hwake, Hj1.
    + intros _ o Ho. rewrite fn_lookup_insert_ne by (intros <-; by eapply Hne). specialize (Hw1 o Ho). by destruct (sb_pcs s o).
Qed.

Lemma sb_sim_arrive :
  sb_pcs s t = SbIdle → (t < n)%nat → sb_ingress (sb_mutex s) ≠ 2 ^ 63 - 1 →
  sim (SbState (AwnsbMutexT (s64 (sb_ingress (sb_mutex s) + 1)) egress (sb_maxArrayWaiters (sb_mutex s))
                  (sb_waitersArray (sb_mutex s))) (sb_lockIsMine s)
         (<[t := SbFirst (sb_ingress (sb_mutex s))]> (sb_pcs s))).
Proof.
  intros Hpc Ht Hlt.
  assert (t ∉ q) as Hn.
  { intros Hq%(line_queued _ _ _ _ _ _ t (bv_line s cur q h Hinv)). by rewrite Hpc in Hq. }
  pose proof (bv_ingress s cur q h Hinv) as Hing. pose proof (bv_bound s cur q h Hinv). pose proof (bv_cur s cur q h Hinv).
  rewrite s64_id by lia. exists cur, (q ++ [t]), h. split; [by constructor|].
  assert (∀ (i : nat) u, t ≠ u → (q ++ [t]) !! i = Some u → q !! i = Some u) as Hold.
  { intros i u Hu [Hi|[_ [_ <-]%list_lookup_singleton_Some]]%lookup_app_Some; done. }
  assert (∀ (i : nat) u, q !! i = Some u → (q ++ [t]) !! i = Some u ∧ u ≠ t) as Hnew.
  { intros i u Hi. split; [by apply lookup_app_l_Some|]. intros ->. by apply Hn, (list_elem_of_lookup_2 q i). }
  destruct Hinv. split; simpl; try done.
  - apply line_arrive; [done..|simpl; by f_equal].
  - intros Hh. by destruct q.
  - by apply Forall_app_2, Forall_singleton.
  - rewrite length_app. simpl. lia.
  - lia.
  - apply slots_arrive; [apply sb_post_may|apply sb_may_near|done..].
  - destruct bv_egress0 as [|(? & o & Ho & Hh)]; [by left|right]. split; [done|]. destruct (Hnew 0%nat o Ho). exists o.
    by rewrite fn_lookup_insert_ne.
  - intros o k u Ho. same_tid t o; [done|]. intros Hu. destruct (bv_seen0 o k u (Hold _ _ ltac:(done) Ho) Hu) as [Hu1 ?].
    destruct (Hnew 1%nat u Hu1). by rewrite fn_lookup_insert_ne.
  - intros j u Hj. same_tid t u; [done|]. eauto.
  - intros j u k Hj. same_tid t u; [done|]. intros Hu Hm. destruct (bv_spin0 j u k (Hold _ _ ltac:(done) Hj) Hu Hm) as [? Hj1].
    split; [done|]. intros Hj' o Ho. same_tid t o; [done|]. by eapply Hj1, Hold.
Qed.

(** The slot of the next ticket. *)
Lemma sb_look q' wnode :
  q = t :: q' → sb_waitersArray (sb_mutex s) !! awn_index (s64 (cur + 1)) (sb_maxArrayWaiters (sb_mutex s)) = Some wnode →
  (∀ u, q' !! 0%nat = Some u → sb_post (sb_pcs s u) = true → wnode = Some u) ∧
  (∀ u, wnode = Some u → q' !! 0%nat = Some u ∧ sb_post (sb_pcs s u) = true).
Proof.
  intros Hq Hlook. pose proof (bv_cur s cur q h Hinv). rewrite (bv_max s cur q h Hinv) in Hlook.
  pose proof (sb_ticket_range 0%nat t ltac:(by rewrite Hq)). rewrite s64_id, awn_index_slot in Hlook by lia. split.
  - intros u Hu Hpu.
    pose proof (sl_post _ _ _ _ _ _ _ _ (bv_slots s cur q h Hinv) 1%nat u ltac:(by rewrite Hq) Hpu) as Hslot.
    change (Z.of_nat 1) with 1 in Hslot. congruence.
  - intros u ->. destruct (sl_in _ _ _ _ _ _ _ _ (bv_slots s cur q h Hinv) _ u Hlook) as (i & Hi & Hslot & Hmu).
    pose proof (sl_near _ _ _ _ _ _ _ _ (bv_slots s cur q h Hinv) i u Hi (sb_may_near _ Hmu)) as Hnear.
    apply (slot_inj max ltac:(lia) cur 1 i) in Hslot as <-; [|lia|done]. rewrite Hq in Hi. split; [done|].
    pose proof (ln_in _ _ _ _ _ _ (bv_line s cur q h Hinv) 1%nat u ltac:(by rewrite Hq)) as Hs.
    apply stands_wait in Hs as [Hp _]; [|done]. by destruct (sb_pcs s u).
Qed.

Lemma sb_self (m : ticket_awnsb_mutex_t) :
  AwnsbMutexT (sb_ingress m) (sb_egress m) (sb_maxArrayWaiters m) (sb_waitersArray m) = m.
Proof. by destruct m. Qed.

(** A step of a waiting thread that stores nothing. *)
Lemma sb_sim_quiet (i : nat) pc :
  q !! i = Some t → (h = true → i ≠ 0%nat) → sb_phase (sb_pcs s t) = Waiting → sb_phase pc = Waiting → sb_ticket pc = Some (cur + i) →
  sb_post pc = sb_post (sb_pcs s t) → sb_fresh pc = sb_fresh (sb_pcs s t) →
  (sb_near pc = true → sb_near (sb_pcs s t) = true ∨ i < max) →
  (∀ k, pc = SbSpin k → sb_lockIsMine s t = false →
     i ≠ 0%nat ∧ (i = 1%nat → ∀ o, q !! 0%nat = Some o → sb_waker t (sb_pcs s o))) →
  sim (SbState (sb_mutex s) (sb_lockIsMine s) (<[t := pc]> (sb_pcs s))).
Proof.
  intros Hi H0 Hph Hp Hk Hpost Hfresh Hnear Hspin. rewrite <-(sb_self (sb_mutex s)).
  eapply sb_sim_wait; try done; [by rewrite Hpost|by rewrite Hfresh|].
  eapply slots_move; [apply Hinv|apply Hinv|done|by rewrite Hpost| |].
  - by destruct (sb_pcs s t), pc.
  - intros [Hn|?]%Hnear; [|done]. by eapply sl_near; [apply Hinv|..].
Qed.

(** A step of the owner that changes neither the array nor [egress]. *)
Lemma sb_sim_own_quiet q' pc :
  q = t :: q' → h = true → owns (sb_phase pc) = true → sb_ticket pc = Some cur → egress = cur →
  (∀ k u, pc = SbSignal k u → q' !! 0%nat = Some u ∧ sb_post (sb_pcs s u) = true) →
  (sb_may (sb_pcs s t) = true → sb_may pc = true) → (sb_near pc = true → sb_near (sb_pcs s t) = true) →
  (∀ u k, q' !! 0%nat = Some u → sb_pcs s u = SbSpin k → sb_waker u (sb_pcs s t) → sb_waker u pc) →
  sim (SbState (sb_mutex s) (sb_lockIsMine s) (<[t := pc]> (sb_pcs s))).
Proof.
  intros Hq Hh Hp Hk He Hseen Hmay Hnear Hwake. rewrite <-(sb_self (sb_mutex s)), He. eapply sb_sim_own; try done; [by right|].
  rewrite Hq. eapply (slots_move _ _ _ _ _ _ _ _ 0%nat); [rewrite <-Hq; apply Hinv|rewrite <-Hq; apply Hinv|done|by destruct pc|done|lia].
Qed.

(** A store to the own slot. *)
Lemma sb_set_array_slot (i : nat) v m :
  i < max → sb_set_array (sb_mutex s) (cur + i) v = Some m →
  m = AwnsbMutexT (sb_ingress (sb_mutex s)) egress (sb_maxArrayWaiters (sb_mutex s))
        (<[slot max (cur + i) := v]> (sb_waitersArray (sb_mutex s))).
Proof.
  intros Hi Hm. unfold sb_set_array, awn_store in Hm. pose proof (bv_cur s cur q h Hinv).
  rewrite (bv_max s cur q h Hinv), awn_index_slot in Hm by lia. case_bool_decide; [|done]. simplify_eq/=.
  by rewrite (bv_max s cur q h Hinv).
Qed.

(** Only the owner that has yet to move [egress] on is behind. *)
Lemma sb_owner_egress q' : q = t :: q' → h = true → (∀ k, sb_pcs s t ≠ SbSet k) → egress = cur.
Proof.
  intros Hq Hh Hns. destruct (bv_egress s cur q h Hinv) as [|(_ & o & Ho & Hd)]; [done|]. subst. simplify_eq/=.
  destruct (sb_pcs s o) eqn:Hpc; try done. by destruct (Hns ticket).
Qed.
End sim.

Local Notation sim s t q h s' := (∃ cur' q' h', qlock_step t q h q' h' ∧ sb_inv s' cur' q' h').

Lemma sb_sim_lock s cur q h t m mine pc :
  sb_inv s cur q h → sb_phase (sb_pcs s t) = Waiting →
  ticket_awnsb_mutex_lock t (sb_mutex s) (sb_lockIsMine s) (sb_pcs s t) = Some (m, mine, pc) →
  sim s t q h (SbState m mine (<[t := pc]> (sb_pcs s))).
Proof.
  intros Hinv Hph Hstep. pose proof (bv_cur s cur q h Hinv).
  destruct (sb_ticket (sb_pcs s t)) as [k|] eqn:Hk; [|by destruct (sb_pcs s t)].
  destruct (line_waiter _ _ _ _ _ _ t k (bv_line s cur q h Hinv) Hph Hk) as (i & Hi & -> & H0).
  pose proof (sb_ticket_range s cur q h Hinv i t Hi). pose proof (sb_egress_range s cur q h Hinv).
  assert (sb_egress (sb_mutex s) = cur + i → i = 0%nat ∧ sb_egress (sb_mutex s) = cur) as Hup by lia.
  assert (sb_fresh (sb_pcs s t) = true → sb_lockIsMine s t = true → i = 0%nat) as Hwoken by (intros; by eapply bv_mine).
  destruct (sb_pcs s t) as [|k|k|k|k|k|k|k|k|k|k| | | | | |] eqn:Hpc; simplify_eq/=; rewrite ?s64_id in * by lia.
  - case_bool_decide as He; [destruct (Hup He); by eapply sb_sim_admit; rewrite ?Hpc; eauto|].
    eapply sb_sim_quiet; rewrite ?Hpc; done.
  - case_bool_decide; eapply sb_sim_quiet; rewrite ?Hpc; done.
  - case_bool_decide as He; [destruct (Hup He); by eapply sb_sim_admit; rewrite ?Hpc; eauto|].
    eapply sb_sim_quiet; rewrite ?Hpc; done.
  - rewrite (bv_max s cur q h Hinv), wrap_s_small by lia.
    case_bool_decide; eapply sb_sim_quiet; rewrite ?Hpc; try done. right. lia.
  - rewrite <-(sb_self (sb_mutex s)). eapply sb_sim_wait; rewrite ?Hpc; try done; rewrite ?fn_lookup_insert; try done.
    + intros u Hu. by rewrite fn_lookup_insert_ne.
    + eapply slots_move; [apply Hinv|apply Hinv|done|done|by rewrite Hpc|]. intros _. by eapply sl_near; [apply Hinv|done|rewrite Hpc].
  - destruct (sb_set_array _ _ _) as [m'|] eqn:Hm; simplify_eq/=.
    assert (i < max) as Him by (eapply sl_near; [apply Hinv|done|by rewrite Hpc]).
    rewrite (sb_set_array_slot s cur q h Hinv i (Some t) m Him Hm). eapply sb_sim_wait; rewrite ?Hpc; try done; auto.
    apply slots_write; [lia|apply sb_post_may|apply sb_may_near|apply Hinv|apply Hinv|done..|by left].
  - case_bool_decide; eapply sb_sim_quiet; rewrite ?Hpc; try done; auto. intros k _ _. split; [lia|]. intros -> o Ho.
    eapply sb_lag_waker; [done|lia|done].
  - destruct (sb_lockIsMine s t) eqn:Hm; [|eapply sb_sim_quiet; rewrite ?Hpc; try done; auto; intros; by eapply bv_spin].
    eapply sb_sim_admit; rewrite ?Hpc; [done..|by apply Hwoken|done|]. right. f_equal. rewrite (Hwoken eq_refl eq_refl). lia.
  - case_bool_decide as He; [destruct (Hup He); by eapply sb_sim_admit; rewrite ?Hpc; eauto|].
    eapply sb_sim_quiet; rewrite ?Hpc; auto; done.
  - destruct (sb_lockIsMine s t) eqn:Hm; [|by eapply sb_sim_quiet; rewrite ?Hpc; auto].
    eapply sb_sim_admit; rewrite ?Hpc; [done..|by apply Hwoken|done|]. right. f_equal. rewrite (Hwoken eq_refl eq_refl). lia.
Qed.

Lemma sb_sim_unlock s cur q h t m mine pc :
  sb_inv s cur q h → owns (sb_phase (sb_pcs s t)) = true → (∀ k, sb_pcs s t ≠ SbSet k) →
  ticket_awnsb_mutex_unlock (sb_mutex s) (sb_lockIsMine s) (sb_pcs s t) = Some (m, mine, pc) →
  sim s t q h (SbState m mine (<[t := pc]> (sb_pcs s))).
Proof.
  intros Hinv Ho Hns Hstep. destruct (line_owner _ _ _ _ _ _ t (bv_line s cur q h Hinv) Ho) as (q' & Hq & Hh & Hk).
  pose proof (sb_owner_egress s cur q h t Hinv q' Hq Hh Hns) as He. pose proof (bv_cur s cur q h Hinv).
  pose proof (sb_ticket_range s cur q h Hinv 0%nat t ltac:(by rewrite Hq)). clear Hns.
  destruct (sb_pcs s t) as [| | | | | | | | | | | | |k|k|k u|k] eqn:Hpc; simplify_eq/=;
    try (destruct Hk as [|[= ->]]; [done|]).
  - by eapply sb_sim_own_quiet; rewrite ?Hpc.
  - destruct (sb_set_array _ _ _) as [m'|] eqn:Hm; simplify_eq/=. rewrite <-(Z.add_0_r (sb_egress _)) in Hm.
    rewrite (sb_set_array_slot s _ _ _ Hinv 0%nat None m ltac:(lia) Hm). eapply sb_sim_own; rewrite ?Hpc; try done; auto.
    apply slots_write; [lia|apply sb_post_may|apply sb_may_near|apply Hinv|apply Hinv|done|lia|done|by right].
  - destruct (_ !! _) as [wnode|] eqn:Hlook; simplify_eq/=.
    destruct (sb_look s _ _ _ t Hinv q' wnode eq_refl Hlook) as [Hw1 Hw2].
    destruct wnode as [u|]; eapply sb_sim_own_quiet; rewrite ?Hpc; try done.
    + intros k v [= <- <-]. by apply Hw2.
    + intros v k Hv Hs _. specialize (Hw1 v Hv ltac:(by rewrite Hs)). by simplify_eq.
    + intros v k Hv Hs _. by specialize (Hw1 v Hv ltac:(by rewrite Hs)).
  - destruct (bv_seen s _ _ _ Hinv t _ u eq_refl Hpc) as [Hu Hpu].
    assert (sb_mutex s = sb_set_egress (sb_mutex s) (sb_egress (sb_mutex s))) as -> by (by destruct (sb_mutex s)).
    eapply sb_sim_leave; rewrite ?Hpc; try done; auto.
    + right. split; [done|]. exists u. by rewrite fn_lookup_insert.
    + intros v. by same_tid u v.
    + intros v. same_tid u v; auto.
    + intros v k Hv Hs Hm Hw. simpl in Hw. subst v. by rewrite fn_lookup_insert in Hm.
  - rewrite s64_id by lia. eapply sb_sim_leave; rewrite ?Hpc; try done; simpl; auto.
Qed.

Lemma sb_sim_set s cur q h t k :
  sb_inv s cur q h → sb_pcs s t = SbSet k →
  sim s t q h (SbState (sb_set_egress (sb_mutex s) k) (sb_lockIsMine s) (<[t := SbHeld]> (sb_pcs s))).
Proof.
  intros Hinv Hpc. destruct (line_owner _ _ _ _ _ _ t (bv_line s cur q h Hinv)) as (q' & Hq & Hh & Hk); [by rewrite Hpc|].
  rewrite Hpc in Hk. destruct Hk as [|[= ->]]; [done|]. eapply sb_sim_own; rewrite ?Hpc; try done; [by left|].
  subst q. eapply (slots_move _ _ _ _ _ _ _ _ 0%nat); [apply Hinv|apply Hinv|done..|lia].
Qed.

Lemma sb_sim s cur q h t s' : sb_inv s cur q h → sb_step n t s = Some s' → sim s t q h s'.
Proof.
  intros Hinv Hstep. unfold sb_step in Hstep. destruct (_ && _) eqn:Hg; [|done].
  apply andb_true_iff in Hg as [Ht%bool_decide_eq_true Hfull%negb_true_iff%bool_decide_eq_false].
  destruct (sb_thread _ _ _ _) as [[[m mine] pc]|] eqn:Hth; simplify_eq/=. unfold sb_thread in Hth.
  destruct (sb_phase (sb_pcs s t)) eqn:Hph; try (by destruct (sb_pcs s t)); try (by eapply sb_sim_lock);
    try (by eapply sb_sim_unlock; [done|rewrite Hph|intros k Hk; rewrite Hk in Hph|]).
  - destruct (sb_pcs s t) eqn:Hpc; simplify_eq/=. eapply sb_sim_arrive; [done..|]. intros Heq. by apply Hfull.
  - destruct (sb_pcs s t) eqn:Hpc; simplify_eq/=. by eapply sb_sim_set.
Qed.

(** ** Progress *)

Lemma sb_step_thread t s m mine pc :
  (t < n)%nat → sb_phase (sb_pcs s t) ≠ Idle →
  sb_thread t (sb_mutex s) (sb_lockIsMine s) (sb_pcs s t) = Some (m, mine, pc) →
  sb_step n t s = Some (SbState m mine (<[t := pc]> (sb_pcs s))).
Proof.
  intros Ht Hph Hth. unfold sb_step. rewrite bool_decide_true, bool_decide_false by (done || naive_solver). simpl. by rewrite Hth.
Qed.

#[local] Instance sb_mutex_n : Mutex unit sb_state := awnsb_mutex n max.

(** How far a waiting thread at the head is from the lock. *)
Definition sb_rank (mine : bool) (pc : sb_pc) : nat :=
  match pc with
  | SbNear _ => 2 | SbRoom _ => 7 | SbReset _ => 6 | SbPut _ => 5 | SbTest _ => 4 | SbBoth _ => 3
  | SbBoth2 _ => if mine then 2 else 4
  | SbSpin _ => 2
  | _ => 1
  end.

Record sb_ready (s : sb_state) (t : tid) (k : Z) : Prop := {
  br_tid : (t < n)%nat;
  br_phase : sb_phase (sb_pcs s t) = Waiting ∨ sb_phase (sb_pcs s t) = Acquired;
  br_ticket : sb_ticket (sb_pcs s t) = Some k;
  br_egress : sb_egress (sb_mutex s) = k ∨ sb_egress (sb_mutex s) = k - 1 ∧
    (sb_phase (sb_pcs s t) = Waiting → sb_post (sb_pcs s t) = true ∧ sb_lockIsMine s t = true);
  br_range : 0 ≤ k < 2 ^ 63;
  br_max : sb_maxArrayWaiters (sb_mutex s) = max;
  br_len : length (sb_waitersArray (sb_mutex s)) = Z.to_nat max;
  br_spin : sb_pcs s t = SbSpin k → sb_lockIsMine s t = true;
}.

Lemma sb_ready_index s t k : sb_ready s t k → (awn_index k max < length (sb_waitersArray (sb_mutex s)))%nat.
Proof.
  intros Hr. rewrite (br_len s t k Hr). pose proof (br_range s t k Hr). rewrite awn_index_slot by lia. unfold slot.
  pose proof (Z.mod_pos_bound k max). lia.
Qed.

(** Every step of the thread at the head brings it nearer to the lock. *)
Lemma sb_ready_step s t k :
  sb_ready s t k → ∃ m mine pc, sb_thread t (sb_mutex s) (sb_lockIsMine s) (sb_pcs s t) = Some (m, mine, pc) ∧
    (pc = SbHeld ∨ sb_ready (SbState m mine (<[t := pc]> (sb_pcs s))) t k ∧
       (sb_rank (mine t) pc < sb_rank (sb_lockIsMine s t) (sb_pcs s t))%nat).
Proof.
  intros Hr. pose proof (sb_ready_index s t k Hr) as Hidx.
  destruct Hr as [Ht Hph Hk He Hrange Hmax Hlen Hspin].
  unfold sb_thread. destruct (sb_pcs s t) as [|k'|k'|k'|k'|k'|k'|k'|k'|k'|k'|k'| | | | |] eqn:Hpc; simplify_eq/=;
    try (by destruct Hph); unfold sb_set_array, awn_store; rewrite ?Hmax in *; rewrite ?s64_id, ?Z.sub_diag by lia;
    rewrite ?(wrap_s_small 32) by lia.
  all: try (destruct He as [He|[_ []]]; [|done..]).
  all: rewrite ?s64_id by lia.
  all: repeat first [rewrite bool_decide_true by (done || lia) | rewrite bool_decide_false by lia].
  all: try rewrite (Hspin eq_refl).
  all: try (destruct (sb_lockIsMine s t) eqn:Hm; [|destruct He as [He|[_ [_ ?]]]; [|done..]]).
  all: try case_bool_decide.
  all: eexists _, _, _; split; [done|]; first [by left|right; split; [|simpl; rewrite ?fn_lookup_insert, ?Hm; lia]].
  all: split; simpl; rewrite ?fn_lookup_insert, ?length_insert; auto; try done.
  all: destruct He as [He|[He Hw]]; [by left|right; split; [done|]]; naive_solver.
Qed.

Lemma sb_ready_enters s t k r :
  sb_ready s t k → (sb_rank (sb_lockIsMine s t) (sb_pcs s t) ≤ r)%nat → solo t s (λ s', sb_phase (sb_pcs s' t) = Holding).
Proof.
  revert s. induction r as [|r IH]; intros s Hr Hle.
  { destruct (sb_pcs s t), (sb_lockIsMine s t); simpl in Hle; lia. }
  destruct (sb_ready_step s t k Hr) as (m & mine & pc & Hth & Hnext).
  eapply (solo_step _ tt); [apply sb_step_thread; [apply Hr| |done]; by destruct (br_phase s t k Hr) as [-> | ->]|].
  destruct Hnext as [->|[Hr' Hlt]]; [apply solo_done; simpl; by rewrite fn_lookup_insert|].
  apply IH; [done|]. simpl. rewrite fn_lookup_insert. lia.
Qed.

Lemma sb_enters s cur t q : sb_inv s cur (t :: q) false → solo t s (λ s', sb_phase (sb_pcs s' t) = Holding).
Proof.
  intros Hinv. destruct (line_head _ _ _ _ _ _ (bv_line _ _ _ _ Hinv)) as [Hp Hk].
  pose proof (sb_ticket_range s _ _ _ Hinv 0%nat t eq_refl). eapply (sb_ready_enters _ _ cur); [|done].
  destruct Hinv. split; auto.
  - by apply Forall_cons in bv_tids0 as [? _].
  - destruct bv_egress0 as [|(? & o & [= <-] & Hh)]; [by left|right]. split; [done|]. intros _. by apply andb_true_iff.
  - lia.
  - apply bv_slots0.
  - intros Hs. destruct (sb_lockIsMine s t) eqn:Hm; [done|]. by destruct (bv_spin0 0%nat t _ eq_refl Hs Hm).
Qed.

(** [unlock] from the look at the next slot on. *)
Lemma sb_unlock_ends s t k pc :
  (t < n)%nat → 0 ≤ k < 2 ^ 63 - 1 → sb_maxArrayWaiters (sb_mutex s) = max → length (sb_waitersArray (sb_mutex s)) = Z.to_nat max →
  sb_pcs s t = pc → (pc = SbLook k ∨ (∃ u, pc = SbSignal k u) ∨ pc = SbStore k) →
  solo t s (λ s', queued (sb_phase (sb_pcs s' t)) = false).
Proof.
  intros Ht Hk Hmax Hlen.
  assert (∀ s, (∃ u, sb_pcs s t = SbSignal k u) ∨ sb_pcs s t = SbStore k → solo t s (λ s', queued (sb_phase (sb_pcs s' t)) = false)) as Hlast.
  { intros s1 [[u Hpc]|Hpc]; (eapply (solo_step _ tt); [apply sb_step_thread; rewrite ?Hpc; done|]);
      apply solo_done; simpl; by rewrite fn_lookup_insert. }
  intros Hpc [->|[[u ->]| ->]]; [|by eauto..].
  destruct (lookup_lt_is_Some_2 (sb_waitersArray (sb_mutex s)) (awn_index (s64 (k + 1)) max)) as [w Hw].
  { rewrite s64_id, awn_index_slot, Hlen by lia. unfold slot. pose proof (Z.mod_pos_bound (k + 1) max). lia. }
  eapply (solo_step _ tt).
  - apply sb_step_thread; rewrite ?Hpc; [done..|]. unfold sb_thread. simpl. rewrite Hmax, Hw. done.
  - apply Hlast. simpl. rewrite fn_lookup_insert. destruct w; eauto.
Qed.

Lemma sb_unlock_clear s t k :
  (t < n)%nat → 0 ≤ k < 2 ^ 63 - 1 → sb_maxArrayWaiters (sb_mutex s) = max → length (sb_waitersArray (sb_mutex s)) = Z.to_nat max →
  sb_pcs s t = SbClear k → solo t s (λ s', queued (sb_phase (sb_pcs s' t)) = false).
Proof.
  intros Ht Hk Hmax Hlen Hpc. eapply (solo_step _ tt).
  - apply sb_step_thread; rewrite ?Hpc; [done..|]. unfold sb_thread. simpl. unfold sb_set_array, awn_store.
    rewrite Hmax, bool_decide_true; [done|]. rewrite awn_index_slot, Hlen by lia. unfold slot. pose proof (Z.mod_pos_bound k max). lia.
  - eapply (sb_unlock_ends _ _ k); simpl; rewrite ?fn_lookup_insert, ?length_insert; [done..|]. by left.
Qed.

Lemma sb_exits s cur q h t :
  sb_inv s cur q h → owns (sb_phase (sb_pcs s t)) = true → solo t s (λ s', queued (sb_phase (sb_pcs s' t)) = false).
Proof.
  intros Hinv Ho. destruct (line_owner _ _ _ _ _ _ t (bv_line s cur q h Hinv) Ho) as (q' & Hq & Hh & Hk).
  assert ((t < n)%nat) as Ht by (pose proof (bv_tids _ _ _ _ Hinv) as Hf; rewrite Hq in Hf; by apply Forall_cons in Hf as [? _]).
  pose proof (sb_ticket_range s _ _ _ Hinv 0%nat t ltac:(by rewrite Hq)). pose proof (bv_cur _ _ _ _ Hinv).
  pose proof (sl_len _ _ _ _ _ _ _ _ (bv_slots _ _ _ _ Hinv)) as Hlen. pose proof (bv_max _ _ _ _ Hinv) as Hmax.
  pose proof (sb_owner_egress s cur q h t Hinv q' Hq Hh) as He. clear Hinv.
  assert (∀ s, sb_egress (sb_mutex s) = cur → sb_maxArrayWaiters (sb_mutex s) = max → length (sb_waitersArray (sb_mutex s)) = Z.to_nat max →
    sb_pcs s t = SbHeld → solo t s (λ s', queued (sb_phase (sb_pcs s' t)) = false)) as Hheld.
  { intros s1 He1 Hmax1 Hlen1 Hpc1. eapply (solo_step _ tt); [apply sb_step_thread; rewrite ?Hpc1; done|].
    apply (sb_unlock_clear _ t cur); simpl; rewrite ?fn_lookup_insert, ?He1; try done. lia. }
  destruct (sb_pcs s t) as [| | | | | | | | | | |k| |k|k|k u|k] eqn:Hpc; try done; try (destruct Hk as [|[= ->]]; [done|]).
  - eapply (solo_step _ tt); [apply sb_step_thread; rewrite ?Hpc; done|]. apply Hheld; simpl; rewrite ?fn_lookup_insert; done.
  - apply Hheld; auto; by apply He.
  - apply (sb_unlock_clear _ t cur); try done. lia.
  - eapply (sb_unlock_ends _ _ cur); [done|lia|done..|]; eauto.
  - eapply (sb_unlock_ends _ _ cur); [done|lia|done..|]; eauto.
  - eapply (sb_unlock_ends _ _ cur); [done|lia|done..|]; eauto.
Qed.

Lemma sb_inv_start s : sb_init max s → sb_inv s 0 [] false.
Proof.
  intros [Hm Hp]. split; rewrite ?Hm, ?Hp; simpl; try done.
  - split; [by apply NoDup_nil|done|done].
  - apply slots_empty.
  - by left.
Qed.

Definition sb_queue_lock : QueueLock unit sb_state.
Proof.
  refine {| ql_rel := λ s q h, ∃ cur, sb_inv s cur q h |}.
  - intros s Hi. exists 0. by apply sb_inv_start.
  - intros t [] s s' q h [cur Hinv] Hstep. destruct (sb_sim s cur q h t s' Hinv Hstep) as (cur' & q' & h' & ? & ?). eauto.
  - intros s q h t [cur Hinv]. eapply line_queued, Hinv.
  - intros s q h t [cur Hinv]. eapply line_owns; apply Hinv.
  - intros s t [_ Hp]. simpl. by rewrite Hp.
  - intros t t' [] s s' Hstep Hne. simpl in *. unfold sb_step in Hstep. destruct (_ && _); [|done].
    destruct (sb_thread _ _ _ _) as [[[m mine] pc]|]; simplify_eq/=. by rewrite fn_lookup_insert_ne by done.
  - intros t [] s s' Hstep. simpl in *. unfold sb_step in Hstep. destruct (_ && _); [|done].
    destruct (sb_thread _ _ _ _) as [[[m mine] pc]|] eqn:Hth; simplify_eq/=. rewrite fn_lookup_insert.
    unfold sb_thread, ticket_awnsb_mutex_lock, ticket_awnsb_mutex_unlock, mbind, option_bind in Hth.
    destruct (sb_pcs s t); step_inv Hth; repeat case_match; done.
  - intros s t q [cur Hinv]. by eapply sb_enters.
  - intros s q h t [cur Hinv]. by eapply sb_exits.
Defined.
End proof.

(** ** Theorem *)

(** The spins-on-both lock is mutually exclusive, admits threads in the
    order in which they drew their tickets, and makes progress, for every number
    of threads and every array of at least two slots, whatever the nodes hold
    at first. *)
Lemma awnsb_correct (n : nat) (max : Z) :
  2 ≤ max < 2 ^ 31 →
  lock_exclusive (awnsb_mutex n max) ∧ lock_fifo (awnsb_mutex n max) ∧ lock_progress (awnsb_mutex n max).
Proof. intros Hmax. apply (qlock_correct (Q := sb_queue_lock n max Hmax)). Qed.

(** Three threads: the second takes the lock when [egress] comes up, the third
    spins on its node and is signalled. *)
Definition sb_start : sb_state := SbState (ticket_awnsb_mutex_init 4) (λ _, true) (λ _, SbIdle).

Definition sb_schedule : list (tid * unit) :=
  (λ t, (t, tt)) <$> [0; 1; 2; 0; 1; 2; 1; 2; 1; 2; 2; 2; 2; 2; 2; 0; 0; 0; 0; 1; 1; 1; 1; 1; 1; 2; 2; 2; 2]%nat.

