(* ===== verification/TryLock.v ===== *)
(** * [trylock] of the ticket locks with waiting nodes

    The three locks of [C11/locks/ticketawn] have the same [trylock]: it reads [egress]
    and then [ingress], gives up when they differ, and otherwise tries to draw
    the next ticket by a compare-and-swap.  Here threads may call [lock], [unlock] and
    [trylock] in any order.  The proof is done once, against a class that says
    how [trylock] moves and how the counters of a lock relate to its queue. *)

From S2P Require Import Prelude Lts Mutex Tickets AwnEe AwnNe AwnSb.

Local Open Scope Z_scope.

(** ** The interface *)

Class TryLock (S : Type) {M : Mutex unit S} := {
  try_ingress : S → Z;
  try_egress : S → Z;
  (** The ticket has been drawn by the compare-and-swap. *)
  try_enter : tid → Z → S → S;
  (** A step of [trylock], which returns [true] for 0 and [false] for [EBUSY]. *)
  try_thread : tid → S → try_pc → option (S * (try_pc + bool));
}.

Class TryLockLaws (S : Type) {M : Mutex unit S} {Q : QueueLock unit S} {T : TryLock S} := {
  try_thread_spec t s pc : try_thread t s pc =
    match pc with
    | TryEgress => Some (s, inl (TryIngress (try_egress s)))
    | TryIngress e => Some (s, if bool_decide (e = try_ingress s) then inl (TryLoad (try_ingress s)) else inr false)
    | TryLoad i => Some (s, inl (TryCas i (s64 (try_ingress s + 1))))
    | TryCas i new => Some (if bool_decide (try_ingress s = i) then (try_enter t new s, inr true) else (s, inr false))
    end;
  try_counters s q h : ql_rel s q h → try_egress s ≤ try_ingress s ∧ (try_egress s = try_ingress s ↔ q = []);
  (** A thread that joins the queue draws a ticket. *)
  try_mono t s s' q h : ql_rel s q h → mtx_step t tt s = Some s' →
    try_ingress s ≤ try_ingress s' ∧ (t ∉ q → try_ingress s < try_ingress s');
  (** The ticket drawn by the compare-and-swap is that of the head. *)
  try_enter_rel t s h : ql_rel s [] h → mtx_step t tt s ≠ None → mtx_phase s t = Idle →
    ql_rel (try_enter t (s64 (try_ingress s + 1)) s) [t] true ∧
    try_ingress s < try_ingress (try_enter t (s64 (try_ingress s + 1)) s);
  try_enter_phase t v s t' : mtx_phase (try_enter t v s) t' = if bool_decide (t = t') then Holding else mtx_phase s t';
}.

(** ** The system *)

Record try_state (S : Type) := TryState {
  ts_lock : S;
  ts_try : tid → option try_pc;
}.
Arguments TryState {S}.
Arguments ts_lock {S}.
Arguments ts_try {S}.

(** Whether a thread that does neither calls [trylock] or goes on with [lock] and [unlock]. *)
Inductive try_label := CallTry | Go.

Section system.
Context {S : Type} {M : Mutex unit S} {T : TryLock S}.

(** A thread is in [trylock] only while it is not in [lock]; like [lock], it is
    not used once all tickets have been drawn. *)
Definition try_step (t : tid) (l : try_label) (s : try_state S) : option (try_state S) :=
  match ts_try s t with
  | Some pc =>
      _ ← mtx_step t tt (ts_lock s);
      '(lk, r) ← try_thread t (ts_lock s) pc;
      Some (TryState lk (<[t := match r with inl pc' => Some pc' | inr _ => None end]> (ts_try s)))
  | None =>
      match l with
      | CallTry =>
          if bool_decide (mtx_phase (ts_lock s) t = Idle) then Some (TryState (ts_lock s) (<[t := Some TryEgress]> (ts_try s)))
          else None
      | Go => lk ← mtx_step t tt (ts_lock s); Some (TryState lk (ts_try s))
      end
  end.

#[export] Instance try_lts : Lts (tid * try_label) (try_state S) := {
  lts_init := λ s, mtx_init (ts_lock s) ∧ ts_try s = (λ _, None);
  lts_step := λ '(t, l) s, try_step t l s;
}.

(** What the calls promise: no two threads own the lock, by whichever call they
    got it; [trylock] returns after at most four steps of its own, however the
    other threads run; and on a free lock it succeeds when nobody interferes. *)

Definition try_rank (pc : try_pc) : nat :=
  match pc with TryEgress => 4 | TryIngress _ => 3 | TryLoad _ => 2 | TryCas _ _ => 1 end.

Definition try_left (pc : option try_pc) : nat := match pc with Some pc => try_rank pc | None => 0 end.

Definition trylock_correct : Prop :=
  (∀ s t1 t2, reachable s →
     owns (mtx_phase (ts_lock s) t1) = true → owns (mtx_phase (ts_lock s) t2) = true → t1 = t2) ∧
  (∀ t ls s s', run ls s = Some s' → (try_left (ts_try s t) ≤ length (filter (λ l, l.1 = t) ls))%nat →
     ∃ ls1 ls2 s1, ls = ls1 ++ ls2 ∧ run ls1 s = Some s1 ∧ ts_try s1 t = None) ∧
  (∀ s t, reachable s → (∀ u, queued (mtx_phase (ts_lock s) u) = false) → ts_try s t = Some TryEgress →
     mtx_step t tt (ts_lock s) ≠ None →
     ∃ s', run (replicate 4 (t, Go)) s = Some s' ∧ mtx_phase (ts_lock s') t = Holding ∧ ts_try s' t = None).

(** ** Exclusion *)

Context {Q : QueueLock unit S} {TL : TryLockLaws S}.

(** What a thread in [trylock] knows: the lock was free when the counters had
    the value it has seen. *)
Definition try_knows (ingress : Z) (free : Prop) (pc : try_pc) : Prop :=
  match pc with
  | TryEgress => True
  | TryIngress v | TryLoad v => v ≤ ingress ∧ (ingress = v → free)
  | TryCas v new => v ≤ ingress ∧ (ingress = v → free ∧ new = s64 (v + 1))
  end.

Lemma try_knows_mono i i' (free free' : Prop) pc :
  i ≤ i' → (i' = i → free → free') → try_knows i free pc → try_knows i' free' pc.
Proof.
  intros Hi Hf. destruct pc; simpl; [done|..]; intros [Hle Hv]; (split; [lia|]); intros Heq.
  all: assert (i = i') as Hii by lia; rewrite <-Hii in *; naive_solver.
Qed.

Definition try_inv (s : try_state S) : Prop :=
  ∃ q h, ql_rel (ts_lock s) q h ∧
    ∀ t pc, ts_try s t = Some pc → mtx_phase (ts_lock s) t = Idle ∧ try_knows (try_ingress (ts_lock s)) (q = []) pc.

Lemma try_inv_go t s lk :
  try_inv s → ts_try s t = None → mtx_step t tt (ts_lock s) = Some lk → try_inv (TryState lk (ts_try s)).
Proof.
  intros (q & h & HR & Htry) Ht Hstep. destruct (ql_sim t tt _ _ _ _ HR Hstep) as (q' & h' & Hq & HR').
  destruct (try_mono t _ _ _ _ HR Hstep) as [Hle Hlt]. exists q', h'. split; [done|]. intros u pc Hu. simpl in *.
  assert (t ≠ u) by congruence. destruct (Htry u pc Hu) as [Hph Hk]. split; [by erewrite ql_frame|].
  eapply try_knows_mono; [done| |done]. intros Heq ->. inversion Hq; subst; [done|]. specialize (Hlt ltac:(set_solver)). lia.
Qed.

Lemma try_inv_try t s pc lk r :
  try_inv s → ts_try s t = Some pc → mtx_step t tt (ts_lock s) ≠ None → try_thread t (ts_lock s) pc = Some (lk, r) →
  try_inv (TryState lk (<[t := match r with inl pc' => Some pc' | inr _ => None end]> (ts_try s))).
Proof.
  intros (q & h & HR & Htry) Ht Hen Hth. destruct (Htry t pc Ht) as [Hph Hk]. destruct (try_counters _ _ _ HR) as [Hle Hfree].
  assert (∀ r : try_pc + bool, (∀ pc', r = inl pc' → try_knows (try_ingress (ts_lock s)) (q = []) pc') →
    try_inv (TryState (ts_lock s) (<[t := match r with inl pc' => Some pc' | inr _ => None end]> (ts_try s)))) as Hstay.
  { intros r' Hr. exists q, h. split; [done|]. intros u pcu. simpl. same_tid t u; [|by eauto].
    destruct r' as [pc'|]; intros [= <-]. auto. }
  rewrite try_thread_spec in Hth. destruct pc as [|e|i|i new]; simplify_eq/=.
  - apply (Hstay (inl _)). intros ? [= <-]. simpl. naive_solver.
  - case_bool_decide; [apply (Hstay (inl _)); intros ? [= <-]; simpl; by subst|by apply (Hstay (inr false))].
  - apply (Hstay (inl _)). intros ? [= <-]. simpl. naive_solver.
  - case_bool_decide as Hi; simplify_eq/=; [|by apply (Hstay (inr false))]. destruct Hk as [_ Hk]. destruct (Hk eq_refl) as [-> ->].
    destruct (try_enter_rel t _ _ HR Hen Hph) as [HR' Hlt]. exists [t], true. split; [done|]. intros u pcu. simpl.
    same_tid t u; [done|]. intros Hu. destruct (Htry u pcu Hu) as [Hphu Hku].
    rewrite try_enter_phase, bool_decide_false by done. split; [done|]. refine (try_knows_mono _ _ _ _ _ _ _ Hku); [lia|intros ?; lia].
Qed.

Lemma try_inv_reachable s : reachable s → try_inv s.
Proof.
  intros Hr. refine (invariant_reachable try_inv s _ Hr). split.
  - intros s0 [Hi Ht]. exists [], false. split; [by apply ql_init|]. intros t pc. by rewrite Ht.
  - intros [t l] s0 s1 Hinv Hstep. simpl in Hstep. unfold try_step in Hstep. destruct (ts_try s0 t) as [pc|] eqn:Ht.
    + destruct (mtx_step t tt (ts_lock s0)) as [lk'|] eqn:Hen; [|done]. simpl in Hstep.
      destruct (try_thread t (ts_lock s0) pc) as [[lk r]|] eqn:Hth; simplify_eq/=. by eapply try_inv_try; [..|rewrite Hen|].
    + destruct l; [|destruct (mtx_step t tt (ts_lock s0)) as [lk|] eqn:Hlk; simplify_eq/=; by eapply try_inv_go].
      case_bool_decide as Hph; simplify_eq/=. destruct Hinv as (q & h & HR & Htry). exists q, h. split; [done|].
      intros u pc. simpl. same_tid t u; [|by eauto]. by intros [= <-].
Qed.

(** No two threads own the lock, by whichever call they got it. *)
Lemma try_exclusive s t1 t2 :
  reachable s → owns (mtx_phase (ts_lock s) t1) = true → owns (mtx_phase (ts_lock s) t2) = true → t1 = t2.
Proof.
  intros (q & h & HR & _)%try_inv_reachable [_ ?]%(ql_owns _ _ _ _ HR) [_ ?]%(ql_owns _ _ _ _ HR). congruence.
Qed.

(** ** [trylock] returns *)

Lemma try_left_step t u l s s' :
  try_step u l s = Some s' → ts_try s t ≠ None →
  (try_left (ts_try s' t) + (if bool_decide (u = t) then 1 else 0) ≤ try_left (ts_try s t))%nat.
Proof.
  intros Hstep Ht. unfold try_step in Hstep. destruct (ts_try s u) as [pc|] eqn:Hu.
  - destruct (mtx_step u tt (ts_lock s)); [|done]. simpl in Hstep. rewrite try_thread_spec in Hstep.
    case_bool_decide; [subst u|by destruct pc; simplify_eq/=; repeat case_bool_decide; simplify_eq/=; rewrite fn_lookup_insert_ne by done; lia].
    rewrite Hu. destruct pc; simplify_eq/=; repeat case_bool_decide; simplify_eq/=; rewrite fn_lookup_insert; simpl; lia.
  - rewrite bool_decide_false by (intros ->; congruence). destruct l.
    + case_bool_decide; simplify_eq/=. rewrite fn_lookup_insert_ne by (intros ->; congruence). lia.
    + destruct (mtx_step u tt (ts_lock s)); simplify_eq/=. lia.
Qed.

(** However the other threads run, [trylock] returns in at most four steps of its own. *)
Lemma try_returns t ls s s' :
  run ls s = Some s' → (try_left (ts_try s t) ≤ length (filter (λ l, l.1 = t) ls))%nat →
  ∃ ls1 ls2 s1, ls = ls1 ++ ls2 ∧ run ls1 s = Some s1 ∧ ts_try s1 t = None.
Proof.
  revert s. induction ls as [|[u l] ls IH]; intros s Hrun Hle.
  { exists [], [], s. split_and!; [done..|]. destruct (ts_try s t) as [[]|]; simpl in Hle; lia || done. }
  destruct (ts_try s t) as [pc|] eqn:Ht; [|by exists [], ((u, l) :: ls), s].
  simpl in Hrun. destruct (try_step u l s) as [s1|] eqn:Hstep; [|done].
  pose proof (try_left_step t u l s s1 Hstep ltac:(by rewrite Ht)) as Hlt. rewrite Ht in Hlt.
  destruct (IH s1 Hrun) as (ls1 & ls2 & s2 & -> & Hrun1 & Hnone).
  { rewrite filter_cons in Hle. simpl in *. case_decide; case_bool_decide; simpl in *; try done; lia. }
  exists ((u, l) :: ls1), ls2, s2. split_and!; [done| |done]. simpl. by rewrite Hstep.
Qed.

(** On a free lock [trylock] succeeds when nobody interferes. *)
Lemma try_succeeds s t :
  reachable s → (∀ u, queued (mtx_phase (ts_lock s) u) = false) → ts_try s t = Some TryEgress →
  mtx_step t tt (ts_lock s) ≠ None →
  ∃ s', run (replicate 4 (t, Go)) s = Some s' ∧ mtx_phase (ts_lock s') t = Holding ∧ ts_try s' t = None.
Proof.
  intros Hr Hfree Ht Hen. destruct (try_inv_reachable s Hr) as (q & h & HR & _).
  destruct q as [|u q]; [|specialize (Hfree u); by rewrite (proj2 (ql_queued _ _ _ u HR)) in Hfree by left].
  destruct (try_counters _ _ _ HR) as [_ Heq]. destruct (mtx_step t tt (ts_lock s)) as [lk|] eqn:Hstep; [|done].
  assert (∀ s1 pc, ts_lock s1 = ts_lock s → ts_try s1 t = Some pc → try_step t Go s1 =
    '(lk, r) ← try_thread t (ts_lock s) pc; Some (TryState lk (<[t := match r with inl pc' => Some pc' | inr _ => None end]> (ts_try s1)))) as Hgo.
  { intros s1 pc Hl Hpc. unfold try_step. by rewrite Hpc, Hl, Hstep. }
  simpl. rewrite (Hgo s TryEgress), try_thread_spec by done. simpl.
  rewrite (Hgo _ (TryIngress (try_egress (ts_lock s)))), try_thread_spec, bool_decide_true by (done || by apply Heq || by (simpl; rewrite fn_lookup_insert)). simpl.
  rewrite (Hgo _ (TryLoad (try_ingress (ts_lock s)))), try_thread_spec by (done || by (simpl; rewrite fn_lookup_insert)). simpl.
  rewrite (Hgo _ (TryCas (try_ingress (ts_lock s)) (s64 (try_ingress (ts_lock s) + 1)))), try_thread_spec, bool_decide_true
    by (done || by (simpl; rewrite fn_lookup_insert)).
  eexists. split; [done|]. simpl. by rewrite try_enter_phase, bool_decide_true, fn_lookup_insert.
Qed.

Lemma try_correct : trylock_correct.
Proof.
  split_and!; [intros; by eapply try_exclusive|intros; by eapply try_returns|intros; by apply try_succeeds].
Qed.
End system.

Arguments trylock_correct S {M T}.

(** ** The ends-on-egress lock *)

Section ee.
Context (n : nat) (max : Z) (Hmax : 2 ≤ max < 2 ^ 31).
#[local] Instance ee_lock : Mutex unit ee_state := awnee_mutex n max.
#[local] Instance ee_lock_queue : QueueLock unit ee_state := ee_queue_lock n max Hmax.

Definition ee_enter (t : tid) (ingress : Z) (s : ee_state) : ee_state :=
  EeState (AwneeMutexT ingress (ee_egress (ee_mutex s)) (ee_maxArrayWaiters (ee_mutex s)) (ee_waitersArray (ee_mutex s)))
    (ee_lockIsMine s) (<[t := EeHeld]> (ee_pcs s)).

#[local] Instance ee_try : TryLock ee_state := {
  try_ingress := λ s, ee_ingress (ee_mutex s);
  try_egress := λ s, ee_egress (ee_mutex s);
  try_enter := ee_enter;
  try_thread := λ t s pc,
    '(m, r) ← ticket_awnee_mutex_trylock (ee_mutex s) pc;
    Some (EeState m (ee_lockIsMine s) (match r with inr true => <[t := EeHeld]> (ee_pcs s) | _ => ee_pcs s end), r);
}.

Lemma ee_step_enabled t s :
  ee_step n t s ≠ None → ee_phase (ee_pcs s t) = Idle → (t < n)%nat ∧ ee_ingress (ee_mutex s) ≠ 2 ^ 63 - 1.
Proof.
  intros Hen Hph. unfold ee_step in Hen. destruct (_ && _) eqn:Hg; [|done].
  apply andb_true_iff in Hg as [Ht%bool_decide_eq_true Hfull%negb_true_iff%bool_decide_eq_false]. naive_solver.
Qed.

Lemma ee_try_mono t s s' q h :
  ql_rel s q h → ee_step n t s = Some s' →
  ee_ingress (ee_mutex s) ≤ ee_ingress (ee_mutex s') ∧ (t ∉ q → ee_ingress (ee_mutex s) < ee_ingress (ee_mutex s')).
Proof.
  intros HR Hstep. pose proof (ee_step_enabled t s ltac:(congruence)) as Hen.
  assert (t ∉ q → queued (ee_phase (ee_pcs s t)) = false) as Hout.
  { intros Hn. destruct (queued _) eqn:Hq; [|done]. by apply (ql_queued s q h t HR) in Hq. }
  pose proof (HR : ee_inv n max s q h) as Hinv. pose proof (ev_ingress n max s q h Hinv) as Hi. pose proof (ev_bound n max s q h Hinv). pose proof (ev_egress n max s q h Hinv).
  unfold ee_step in Hstep. destruct (_ && _); [|done]. destruct (ee_thread _ _ _ _) as [[[m mine] pc]|] eqn:Hth; simplify_eq/=.
  unfold ee_thread, ticket_awnee_mutex_lock, ticket_awnee_mutex_unlock, ee_set_array, mbind, option_bind in Hth.
  destruct (ee_pcs s t); step_inv Hth; simpl; try (split; [lia|by intros ?%Hout]).
  destruct (Hen eq_refl). rewrite s64_id by lia. split; lia.
Qed.

Lemma ee_try_counters s q h :
  ql_rel s q h → ee_egress (ee_mutex s) ≤ ee_ingress (ee_mutex s) ∧ (ee_egress (ee_mutex s) = ee_ingress (ee_mutex s) ↔ q = []).
Proof.
  intros Hinv. pose proof (ev_ingress n max s q h Hinv) as Hi. rewrite Hi. split; [lia|]. destruct q; simpl; split; lia || done.
Qed.

Lemma ee_enter_rel t s h :
  ql_rel s [] h → ee_step n t s ≠ None → ee_phase (ee_pcs s t) = Idle →
  ql_rel (ee_enter t (s64 (ee_ingress (ee_mutex s) + 1)) s) [t] true ∧
  ee_ingress (ee_mutex s) < ee_ingress (ee_mutex (ee_enter t (s64 (ee_ingress (ee_mutex s) + 1)) s)).
Proof.
  intros Hinv Hen Hph. destruct (ee_step_enabled t s Hen Hph) as [Ht Hlt].
  pose proof (ev_ingress n max s [] h Hinv) as Hi. pose proof (ev_bound n max s [] h Hinv). pose proof (ev_egress n max s [] h Hinv). simpl in Hi.
  rewrite s64_id by lia. split; [|simpl; lia]. destruct Hinv. split; simpl; try done.
  - by eapply line_enter; [done|..|left].
  - by apply Forall_singleton.
  - lia.
  - lia.
  - apply slots_enter; [lia|done|done].
  - intros i u k [-> <-]%list_lookup_singleton_Some. by rewrite fn_lookup_insert.
Qed.

#[local] Instance ee_try_laws : TryLockLaws ee_state.
Proof.
  split.
  - intros t s []; simpl; repeat case_bool_decide; by destruct s as [[]].
  - intros s q h. apply ee_try_counters.
  - intros t s s' q h. apply ee_try_mono.
  - intros t s h. apply ee_enter_rel.
  - intros t v s t'. simpl. case_bool_decide; [subst; by rewrite fn_lookup_insert|by rewrite fn_lookup_insert_ne].
Qed.

Lemma ee_trylock_correct : trylock_correct ee_state.
Proof. apply try_correct. Qed.
End ee.

(** ** The negative-egress lock *)

Section ne.
Context (n : nat) (max : Z) (Hmax : 2 ≤ max < 2 ^ 31).
#[local] Instance ne_lock : Mutex unit ne_state := awnne_mutex n max.
#[local] Instance ne_lock_queue : QueueLock unit ne_state := ne_queue_lock n max Hmax.

Definition ne_enter (t : tid) (ingress : Z) (s : ne_state) : ne_state :=
  NeState (AwnneMutexT ingress (ne_egress (ne_mutex s)) (ne_maxArrayWaiters (ne_mutex s)) (ne_waitersArray (ne_mutex s)))
    (ne_lockIsMine s) (<[t := NeHeld]> (ne_pcs s)).

#[local] Instance ne_try : TryLock ne_state := {
  try_ingress := λ s, ne_ingress (ne_mutex s);
  try_egress := λ s, ne_egress (ne_mutex s);
  try_enter := ne_enter;
  try_thread := λ t s pc,
    '(m, r) ← ticket_awnne_mutex_trylock (ne_mutex s) pc;
    Some (NeState m (ne_lockIsMine s) (match r with inr true => <[t := NeHeld]> (ne_pcs s) | _ => ne_pcs s end), r);
}.

Lemma ne_step_enabled t s :
  ne_step n t s ≠ None → ne_phase (ne_pcs s t) = Idle → (t < n)%nat ∧ ne_ingress (ne_mutex s) ≠ 2 ^ 63 - 1.
Proof.
  intros Hen Hph. unfold ne_step in Hen. destruct (_ && _) eqn:Hg; [|done].
  apply andb_true_iff in Hg as [Ht%bool_decide_eq_true Hfull%negb_true_iff%bool_decide_eq_false]. naive_solver.
Qed.

Lemma ne_try_mono t s s' q h :
  ql_rel s q h → ne_step n t s = Some s' →
  ne_ingress (ne_mutex s) ≤ ne_ingress (ne_mutex s') ∧ (t ∉ q → ne_ingress (ne_mutex s) < ne_ingress (ne_mutex s')).
Proof.
  intros HR Hstep. pose proof (ne_step_enabled t s ltac:(congruence)) as Hen.
  assert (t ∉ q → queued (ne_phase (ne_pcs s t)) = false) as Hout.
  { intros Hn. destruct (queued _) eqn:Hq; [|done]. by apply (ql_queued s q h t HR) in Hq. }
  destruct HR as [cur Hinv]. pose proof (nv_ingress n max s cur q h Hinv) as Hi. pose proof (nv_bound n max s cur q h Hinv). pose proof (nv_cur n max s cur q h Hinv).
  unfold ne_step in Hstep. destruct (_ && _); [|done]. destruct (ne_thread _ _ _ _) as [[[m mine] pc]|] eqn:Hth; simplify_eq/=.
  unfold ne_thread, ticket_awnne_mutex_lock, ticket_awnne_mutex_unlock, ne_set_array, mbind, option_bind in Hth.
  destruct (ne_pcs s t); step_inv Hth; simpl; try (split; [lia|by intros ?%Hout]).
  destruct (Hen eq_refl). rewrite s64_id by lia. split; lia.
Qed.

Lemma ne_try_counters s q h :
  ql_rel s q h → ne_egress (ne_mutex s) ≤ ne_ingress (ne_mutex s) ∧ (ne_egress (ne_mutex s) = ne_ingress (ne_mutex s) ↔ q = []).
Proof.
  intros [cur Hinv]. pose proof (nv_ingress n max s cur q h Hinv) as Hi. pose proof (nv_egress n max s cur q h Hinv) as He.
  pose proof (nv_cur n max s cur q h Hinv). rewrite Hi. destruct q as [|o q]; simpl in *.
  - assert (¬ ne_egress (ne_mutex s) < 0) by (by intros (o & Ho & _)%(nv_neg n max s cur [] h Hinv)). split; [lia|]. split; lia || done.
  - pose proof (nv_lag n max s cur (o :: q) h Hinv o) as Hlag. split; [destruct (ne_pcs s o); simpl in He; lia|].
    split; [|done]. destruct (ne_pcs s o); simpl in He; try lia. specialize (Hlag _ _ eq_refl eq_refl). lia.
Qed.

Lemma ne_enter_rel t s h :
  ql_rel s [] h → ne_step n t s ≠ None → ne_phase (ne_pcs s t) = Idle →
  ql_rel (ne_enter t (s64 (ne_ingress (ne_mutex s) + 1)) s) [t] true ∧
  ne_ingress (ne_mutex s) < ne_ingress (ne_mutex (ne_enter t (s64 (ne_ingress (ne_mutex s) + 1)) s)).
Proof.
  intros [cur Hinv] Hen Hph. destruct (ne_step_enabled t s Hen Hph) as [Ht Hlt].
  pose proof (nv_ingress n max s cur [] h Hinv) as Hi. pose proof (nv_bound n max s cur [] h Hinv). pose proof (nv_cur n max s cur [] h Hinv). simpl in Hi.
  rewrite s64_id by lia. split; [|simpl; lia]. exists cur. destruct Hinv. split; simpl; try done.
  - by eapply line_enter; [done|..|left].
  - by apply Forall_singleton.
  - lia.
  - lia.
  - apply slots_enter; [lia|done|done].
  - by rewrite fn_lookup_insert.
  - intros _. by exists t.
  - intros o k u [= <-]. by rewrite fn_lookup_insert.
  - intros o k u [= <-]. rewrite fn_lookup_insert. by intros [].
  - intros i u [-> <-]%list_lookup_singleton_Some. by rewrite fn_lookup_insert.
  - intros i u k [-> <-]%list_lookup_singleton_Some. by rewrite fn_lookup_insert.
  - intros i u k e [-> <-]%list_lookup_singleton_Some. by rewrite fn_lookup_insert.
  - intros i u [-> <-]%list_lookup_singleton_Some. by rewrite fn_lookup_insert.
Qed.

#[local] Instance ne_try_laws : TryLockLaws ne_state.
Proof.
  split.
  - intros t s []; simpl; repeat case_bool_decide; by destruct s as [[]].
  - intros s q h. apply ne_try_counters.
  - intros t s s' q h. apply ne_try_mono.
  - intros t s h. apply ne_enter_rel.
  - intros t v s t'. simpl. case_bool_decide; [subst; by rewrite fn_lookup_insert|by rewrite fn_lookup_insert_ne].
Qed.

Lemma ne_trylock_correct : trylock_correct ne_state.
Proof. apply try_correct. Qed.
End ne.

(** ** The spins-on-both lock *)

Section sb.
Context (n : nat) (max : Z) (Hmax : 2 ≤ max < 2 ^ 31).
#[local] Instance sb_lock : Mutex unit sb_state := awnsb_mutex n max.
#[local] Instance sb_lock_queue : QueueLock unit sb_state := sb_queue_lock n max Hmax.

Definition sb_enter (t : tid) (ingress : Z) (s : sb_state) : sb_state :=
  SbState (AwnsbMutexT ingress (sb_egress (sb_mutex s)) (sb_maxArrayWaiters (sb_mutex s)) (sb_waitersArray (sb_mutex s)))
    (sb_lockIsMine s) (<[t := SbHeld]> (sb_pcs s)).

#[local] Instance sb_try : TryLock sb_state := {
  try_ingress := λ s, sb_ingress (sb_mutex s);
  try_egress := λ s, sb_egress (sb_mutex s);
  try_enter := sb_enter;
  try_thread := λ t s pc,
    '(m, r) ← ticket_awnsb_mutex_trylock (sb_mutex s) pc;
    Some (SbState m (sb_lockIsMine s) (match r with inr true => <[t := SbHeld]> (sb_pcs s) | _ => sb_pcs s end), r);
}.

Lemma sb_step_enabled t s :
  sb_step n t s ≠ None → sb_phase (sb_pcs s t) = Idle → (t < n)%nat ∧ sb_ingress (sb_mutex s) ≠ 2 ^ 63 - 1.
Proof.
  intros Hen Hph. unfold sb_step in Hen. destruct (_ && _) eqn:Hg; [|done].
  apply andb_true_iff in Hg as [Ht%bool_decide_eq_true Hfull%negb_true_iff%bool_decide_eq_false]. naive_solver.
Qed.

Lemma sb_try_mono t s s' q h :
  ql_rel s q h → sb_step n t s = Some s' →
  sb_ingress (sb_mutex s) ≤ sb_ingress (sb_mutex s') ∧ (t ∉ q → sb_ingress (sb_mutex s) < sb_ingress (sb_mutex s')).
Proof.
  intros HR Hstep. pose proof (sb_step_enabled t s ltac:(congruence)) as Hen.
  assert (t ∉ q → queued (sb_phase (sb_pcs s t)) = false) as Hout.
  { intros Hn. destruct (queued _) eqn:Hq; [|done]. by apply (ql_queued s q h t HR) in Hq. }
  destruct HR as [cur Hinv]. pose proof (bv_ingress n max s cur q h Hinv) as Hi. pose proof (bv_bound n max s cur q h Hinv). pose proof (bv_cur n max s cur q h Hinv).
  unfold sb_step in Hstep. destruct (_ && _); [|done]. destruct (sb_thread _ _ _ _) as [[[m mine] pc]|] eqn:Hth; simplify_eq/=.
  unfold sb_thread, ticket_awnsb_mutex_lock, ticket_awnsb_mutex_unlock, sb_set_array, mbind, option_bind in Hth.
  destruct (sb_pcs s t); step_inv Hth; simpl; try (split; [lia|by intros ?%Hout]).
  destruct (Hen eq_refl). rewrite s64_id by lia. split; lia.
Qed.

Lemma sb_try_counters s q h :
  ql_rel s q h → sb_egress (sb_mutex s) ≤ sb_ingress (sb_mutex s) ∧ (sb_egress (sb_mutex s) = sb_ingress (sb_mutex s) ↔ q = []).
Proof.
  intros [cur Hinv]. pose proof (bv_ingress n max s cur q h Hinv) as Hi. pose proof (bv_egress n max s cur q h Hinv) as He. rewrite Hi.
  split; [destruct He as [->|[-> _]]; lia|]. destruct q as [|o q]; simpl in *.
  - destruct He as [->|(_ & o & Ho & _)]; [|done]. split; lia || done.
  - destruct He as [->|[-> _]]; split; lia || done.
Qed.

Lemma sb_enter_rel t s h :
  ql_rel s [] h → sb_step n t s ≠ None → sb_phase (sb_pcs s t) = Idle →
  ql_rel (sb_enter t (s64 (sb_ingress (sb_mutex s) + 1)) s) [t] true ∧
  sb_ingress (sb_mutex s) < sb_ingress (sb_mutex (sb_enter t (s64 (sb_ingress (sb_mutex s) + 1)) s)).
Proof.
  intros [cur Hinv] Hen Hph. destruct (sb_step_enabled t s Hen Hph) as [Ht Hlt].
  pose proof (bv_ingress n max s cur [] h Hinv) as Hi. pose proof (bv_bound n max s cur [] h Hinv). pose proof (bv_cur n max s cur [] h Hinv).
  pose proof (bv_egress n max s cur [] h Hinv) as He. simpl in Hi.
  rewrite s64_id by lia. split; [|simpl; lia]. exists cur. destruct Hinv. split; simpl; try done.
  - by eapply line_enter; [done|..|left].
  - by apply Forall_singleton.
  - lia.
  - lia.
  - apply slots_enter; [lia|done|done].
  - destruct He as [|(_ & o & Ho & _)]; [by left|done].
  - intros o k u [= <-]. by rewrite fn_lookup_insert.
  - intros i u [-> <-]%list_lookup_singleton_Some. by rewrite fn_lookup_insert.
  - intros i u k [-> <-]%list_lookup_singleton_Some. by rewrite fn_lookup_insert.
Qed.

#[local] Instance sb_try_laws : TryLockLaws sb_state.
Proof.
  split.
  - intros t s []; simpl; repeat case_bool_decide; by destruct s as [[]].
  - intros s q h. apply sb_try_counters.
  - intros t s s' q h. apply sb_try_mono.
  - intros t s h. apply sb_enter_rel.
  - intros t v s t'. simpl. case_bool_decide; [subst; by rewrite fn_lookup_insert|by rewrite fn_lookup_insert_ne].
Qed.

Lemma sb_trylock_correct : trylock_correct sb_state.
Proof. apply try_correct. Qed.
End sb.

(** ** Theorems *)

(** C10: the three ticket locks with waiting nodes are mutually exclusive, admit threads in the
    order in which they drew their tickets, and make progress, for every number
    of threads and every array of at least two slots, whatever the nodes hold
    at first. *)
Theorem awn_locks_correct (n : nat) (max : Z) :
  2 ≤ max < 2 ^ 31 →
  (lock_exclusive (awnee_mutex n max) ∧ lock_fifo (awnee_mutex n max) ∧ lock_progress (awnee_mutex n max)) ∧
  (lock_exclusive (awnne_mutex n max) ∧ lock_fifo (awnne_mutex n max) ∧ lock_progress (awnne_mutex n max)) ∧
  (lock_exclusive (awnsb_mutex n max) ∧ lock_fifo (awnsb_mutex n max) ∧ lock_progress (awnsb_mutex n max)).
Proof. intros Hmax. split_and!; (by apply awnee_correct) || (by apply awnne_correct) || (by apply awnsb_correct). Qed.

(** Runs of the three locks in which the third thread is woken up by the second. *)
Lemma awn_locks_correct_witness :
  (entries (@trace _ _ (awnee_mutex 3 4) ee_schedule ee_start) = [0; 1; 2]%nat ∧
   entries (@trace _ _ (awnne_mutex 3 4) ne_schedule ne_start) = [0; 1; 2]%nat ∧
   entries (@trace _ _ (awnsb_mutex 3 4) sb_schedule sb_start) = [0; 1; 2]%nat) ∧
  (lock_exclusive (awnee_mutex 3 4) ∧ lock_exclusive (awnne_mutex 3 4) ∧ lock_exclusive (awnsb_mutex 3 4)).
Proof.
  split; [split; [vm_compute; reflexivity|split; vm_compute; reflexivity]|].
  destruct (awn_locks_correct 3 4) as ([? _] & [? _] & [? _]); [lia|]. split; [assumption|split; assumption].
Defined.

(** C39: with threads that call [lock], [unlock] and [trylock] in any order, each of
    the three locks is mutually exclusive; [trylock] returns in at most four
    steps of its own, however the other threads run; and on a free lock it gets the lock when
    nobody interferes. *)
Theorem awn_trylock_correct (n : nat) (max : Z) :
  2 ≤ max < 2 ^ 31 →
  trylock_correct ee_state (M := awnee_mutex n max) (T := ee_try n max) ∧
  trylock_correct ne_state (M := awnne_mutex n max) (T := ne_try n max) ∧
  trylock_correct sb_state (M := awnsb_mutex n max) (T := sb_try n max).
Proof.
  intros Hmax. split_and!; [by apply ee_trylock_correct|by apply ne_trylock_correct|by apply sb_trylock_correct].
Qed.

(** The first thread gets the lock by [trylock], the second is refused, the
    third waits for the first in [lock]. *)
Definition try_schedule : list (tid * try_label) :=
  [(0, CallTry); (1, CallTry); (0, Go); (1, Go); (0, Go); (1, Go); (0, Go); (1, Go); (0, Go); (1, Go); (2, Go); (2, Go)]%nat.

Lemma awn_trylock_correct_witness :
  (λ s : try_state ee_state, (ee_pcs (ts_lock s) <$> [0; 1; 2]%nat, ts_try s <$> [0; 1; 2]%nat)) <$>
    run (sys := try_lts (M := awnee_mutex 3 4) (T := ee_try 3 4)) try_schedule (TryState ee_start (λ _, None)) =
    Some ([EeHeld; EeIdle; EeNear 1], [None; None; None]) ∧
  trylock_correct ee_state (M := awnee_mutex 3 4) (T := ee_try 3 4) ∧
  trylock_correct ne_state (M := awnne_mutex 3 4) (T := ne_try 3 4) ∧
  trylock_correct sb_state (M := awnsb_mutex 3 4) (T := sb_try 3 4).
Proof. split; [vm_compute; reflexivity|]. apply (awn_trylock_correct 3 4). lia. Defined.

(** With an array of one slot a thread that is two places away from the head waits for
    room for ever: even when all others have left, [ticket-egress >= 0]. *)
Definition one_slot_schedule : list (tid * unit) :=
  (λ t, (t, tt)) <$> [0; 1; 2; 0; 2; 2; 0; 0; 0; 1; 1; 1; 1; 2; 2; 2]%nat.

Example awn_one_slot_stuck :
  (λ s, (ee_egress (ee_mutex s), ee_pcs s <$> [0; 1; 2]%nat)) <$>
    run (sys := mutex_lts (H := awnee_mutex 3 1)) one_slot_schedule (EeState (ticket_awnee_mutex_init 1) (λ _, true) (λ _, EeIdle)) =
    Some (2, [EeIdle; EeIdle; EeRoom 2]).
Proof. vm_compute. reflexivity. Qed.
