(* ===== verification/TidexMutex.v ===== *)
(** * The thread-id exchange lock (tidex)

    [ConcurrencyFreaks/C11/locks/tidex_mutex.h] and its variant
    [tidex_nps_mutex.h], selected by [LOCK_METHOD=TIDEX_LOCK] and
    [TIDEX_NPS_LOCK] in [src/lockrate.c].  The two differ only in where a
    thread gets its identifier from: [pthread_self] in the first, a
    thread-local index drawn from a global counter in the second.

    [lock] and [unlock] are correct.  [trylock] is not: it reads [egress] and
    [ingress] at different moments and then compares and swaps [ingress]
    against a value that may have come round again. *)

From S2P Require Import Prelude Lts Mutex Chain.

(** ** Data *)

Definition INVALID_TID : Z := 0.
Definition MAX_SPIN : nat := Z.to_nat (Z.shiftl 1 10).

Record tidex_mutex_t := TidexMutexT {
  tx_ingress : Z;
  tx_egress : Z;
  tx_nextEgress : Z;
}.

Inductive tidex_pc :=
  | TxIdle
  | TxLoad (mytid : Z)                      (** about to load [egress] *)
  | TxExch (mytid : Z)                      (** about to exchange [ingress] *)
  | TxWhile (mytid prevtid : Z)             (** the [while] condition *)
  | TxFor (mytid prevtid : Z) (k : nat)     (** the [for] loop, [k] spins left *)
  | TxNext (mytid : Z)                      (** about to store [nextEgress] *)
  | TxHeld
  | TxStore (v : Z)                         (** [unlock], [nextEgress] loaded *)
  | TxTry (localE : Z)                      (** [trylock], [egress] loaded *)
  | TxIdx (localI : Z)                      (** nps [trylock], about to get an index *)
  | TxCas (localI mytid : Z)                (** [trylock], about to swap *).

#[export] Instance tidex_pc_eq_dec : EqDecision tidex_pc.
Proof. solve_decision. Defined.

(** ** Operations *)

Definition tidex_mutex_init : tidex_mutex_t :=
  TidexMutexT INVALID_TID INVALID_TID INVALID_TID.

Definition tidex_mutex_destroy (self : tidex_mutex_t) : tidex_mutex_t :=
  TidexMutexT INVALID_TID INVALID_TID (tx_nextEgress self).

(** [lock] from the point where [mytid] is known; the same text in both
    headers. *)
Definition tidex_lock_body (self : tidex_mutex_t) (pc : tidex_pc)
    : option (tidex_mutex_t * tidex_pc) :=
  match pc with
  | TxLoad mytid =>
      (* if (atomic_load_explicit(&self->egress, relaxed) == mytid) mytid = -mytid; *)
      Some (self, TxExch (if bool_decide (tx_egress self = mytid) then - mytid else mytid)%Z)
  | TxExch mytid =>
      (* prevtid = atomic_exchange(&self->ingress, mytid) *)
      Some (TidexMutexT mytid (tx_egress self) (tx_nextEgress self),
            TxWhile mytid (tx_ingress self))
  | TxWhile mytid prevtid =>
      (* while (atomic_load(&self->egress) != prevtid) *)
      if bool_decide (tx_egress self = prevtid) then Some (self, TxNext mytid)
      else Some (self, TxFor mytid prevtid MAX_SPIN)
  | TxFor mytid prevtid (S k) =>
      (* if (atomic_load(&self->egress) == prevtid) *)
      if bool_decide (tx_egress self = prevtid) then Some (self, TxNext mytid)
      else Some (self, TxFor mytid prevtid k)
  | TxFor mytid prevtid 0 =>
      (* sched_yield() *)
      Some (self, TxWhile mytid prevtid)
  | TxNext mytid =>
      (* self->nextEgress = mytid *)
      Some (TidexMutexT (tx_ingress self) (tx_egress self) mytid, TxHeld)
  | _ => None
  end.

Definition tidex_mutex_lock (pthread_self : tid → Z) (t : tid)
    (self : tidex_mutex_t) (pc : tidex_pc) : option (tidex_mutex_t * tidex_pc) :=
  match pc with
  | TxIdle => Some (self, TxLoad (pthread_self t))
  | _ => tidex_lock_body self pc
  end.

Definition tidex_mutex_unlock (self : tidex_mutex_t) (pc : tidex_pc)
    : option (tidex_mutex_t * tidex_pc) :=
  match pc with
  | TxHeld => Some (self, TxStore (tx_nextEgress self))
  | TxStore v =>
      (* atomic_store(&self->egress, self->nextEgress) *)
      Some (TidexMutexT (tx_ingress self) v (tx_nextEgress self), TxIdle)
  | _ => None
  end.

(** [trylock]; a failure (EBUSY) returns to [TxIdle]. *)
Definition tidex_mutex_trylock (pthread_self : tid → Z) (t : tid)
    (self : tidex_mutex_t) (pc : tidex_pc) : option (tidex_mutex_t * tidex_pc) :=
  match pc with
  | TxIdle =>
      (* localE = atomic_load(&self->egress) *)
      Some (self, TxTry (tx_egress self))
  | TxTry localE =>
      (* localI = atomic_load_explicit(&self->ingress, relaxed);
         if (localE != localI) return EBUSY; *)
      let localI := tx_ingress self in
      if bool_decide (localE = localI) then
        let mytid := pthread_self t in
        Some (self, TxCas localI (if bool_decide (localE = mytid) then - mytid else mytid)%Z)
      else Some (self, TxIdle)
  | TxCas localI mytid =>
      (* if (!atomic_compare_exchange_strong(&self->ingress, &localI, mytid)) return EBUSY; *)
      if bool_decide (tx_ingress self = localI) then
        Some (TidexMutexT mytid (tx_egress self) (tx_nextEgress self), TxNext mytid)
      else Some (self, TxIdle)
  | TxNext mytid =>
      Some (TidexMutexT (tx_ingress self) (tx_egress self) mytid, TxHeld)
  | _ => None
  end.

Definition tidex_phase (pc : tidex_pc) : phase :=
  match pc with
  | TxIdle => Idle
  | TxLoad _ | TxExch _ | TxTry _ | TxIdx _ | TxCas _ _ => Entering
  | TxWhile _ _ | TxFor _ _ _ => Waiting
  | TxNext _ => Acquired
  | TxHeld => Holding
  | TxStore _ => Unlocking
  end.

Record tidex_state := TidexState {
  tx_mutex : tidex_mutex_t;
  tx_pc : tid → tidex_pc;
}.

Definition tidex_start : tidex_state := TidexState tidex_mutex_init (λ _, TxIdle).

Section system.
Context (pthread_self : tid → Z).

Definition tidex_step (t : tid) (s : tidex_state) : option tidex_state :=
  match
    match tx_pc s t with
    | TxHeld | TxStore _ => tidex_mutex_unlock (tx_mutex s) (tx_pc s t)
    | pc => tidex_mutex_lock pthread_self t (tx_mutex s) pc
    end
  with
  | Some (m, pc) => Some (TidexState m (<[t := pc]> (tx_pc s)))
  | None => None
  end.

(** Clients that only use [lock] and [unlock], as [src/lockrate.c] does. *)
Definition tidex_mutex : Mutex unit tidex_state := {|
  mtx_init := λ s, s = tidex_start;
  mtx_step := λ t _ s, tidex_step t s;
  mtx_phase := λ s t, tidex_phase (tx_pc s t);
|}.

(** Clients that may also call [trylock]: at [TxIdle] the label says which of
    the two the thread calls. *)
Inductive tidex_call := CallLock | CallTryLock.

Definition tidex_step_try (t : tid) (l : tidex_call) (s : tidex_state) : option tidex_state :=
  match
    match tx_pc s t, l with
    | (TxHeld | TxStore _) as pc, _ => tidex_mutex_unlock (tx_mutex s) pc
    | TxIdle, CallTryLock => tidex_mutex_trylock pthread_self t (tx_mutex s) TxIdle
    | (TxTry _ | TxCas _ _) as pc, _ => tidex_mutex_trylock pthread_self t (tx_mutex s) pc
    | pc, _ => tidex_mutex_lock pthread_self t (tx_mutex s) pc
    end
  with
  | Some (m, pc) => Some (TidexState m (<[t := pc]> (tx_pc s)))
  | None => None
  end.

Definition tidex_try_mutex : Mutex tidex_call tidex_state := {|
  mtx_init := λ s, s = tidex_start;
  mtx_step := λ t l s, tidex_step_try t l s;
  mtx_phase := λ s t, tidex_phase (tx_pc s t);
|}.
End system.

(** ** The variant with thread indices

    [globalThreadIndex] is shared by all locks; [tlThreadIndex] is
    thread-local.  The operations read and return both. *)

Definition tidex_nps_mutex_init : tidex_mutex_t :=
  TidexMutexT INVALID_TID INVALID_TID INVALID_TID.

Definition tidex_nps_mutex_destroy (self : tidex_mutex_t) : tidex_mutex_t :=
  TidexMutexT INVALID_TID INVALID_TID (tx_nextEgress self).

(** The thread's index and the new values of [globalThreadIndex] and
    [tlThreadIndex]. *)
Definition nps_index (global tl : Z) : Z * Z :=
  if bool_decide (tl = INVALID_TID) then (s64 (global + 1), global) else (global, tl).

Definition tidex_nps_mutex_lock (self : tidex_mutex_t) (global tl : Z) (pc : tidex_pc)
    : option (tidex_mutex_t * Z * Z * tidex_pc) :=
  match pc with
  | TxIdle =>
      (* if (mytid == INVALID_TID) tlThreadIndex = atomic_fetch_add(&globalThreadIndex, 1); *)
      let '(global', tl') := nps_index global tl in
      Some (self, global', tl', TxLoad tl')
  | _ =>
      match tidex_lock_body self pc with
      | Some (self', pc') => Some (self', global, tl, pc')
      | None => None
      end
  end.

Definition tidex_nps_mutex_unlock (self : tidex_mutex_t) (pc : tidex_pc)
    : option (tidex_mutex_t * tidex_pc) :=
  match pc with
  | TxHeld => Some (self, TxStore (tx_nextEgress self))
  | TxStore v => Some (TidexMutexT (tx_ingress self) v (tx_nextEgress self), TxIdle)
  | _ => None
  end.

Definition tidex_nps_mutex_trylock (self : tidex_mutex_t) (global tl : Z) (pc : tidex_pc)
    : option (tidex_mutex_t * Z * Z * tidex_pc) :=
  match pc with
  | TxIdle => Some (self, global, tl, TxTry (tx_egress self))
  | TxTry localE =>
      let localI := tx_ingress self in
      if bool_decide (localE = localI) then Some (self, global, tl, TxIdx localI)
      else Some (self, global, tl, TxIdle)
  | TxIdx localI =>
      (* localE == localI here *)
      let '(global', tl') := nps_index global tl in
      Some (self, global', tl',
            TxCas localI (if bool_decide (localI = tl') then - tl' else tl')%Z)
  | TxCas localI mytid =>
      if bool_decide (tx_ingress self = localI) then
        Some (TidexMutexT mytid (tx_egress self) (tx_nextEgress self), global, tl, TxNext mytid)
      else Some (self, global, tl, TxIdle)
  | TxNext mytid =>
      Some (TidexMutexT (tx_ingress self) (tx_egress self) mytid, global, tl, TxHeld)
  | _ => None
  end.

Record nps_state := NpsState {
  np_mutex : tidex_mutex_t;
  np_global : Z;
  np_tl : tid → Z;
  np_pc : tid → tidex_pc;
}.

Definition nps_start : nps_state :=
  NpsState tidex_nps_mutex_init 1 (λ _, INVALID_TID) (λ _, TxIdle).

Definition nps_step (nthreads : nat) (t : tid) (s : nps_state) : option nps_state :=
  if bool_decide (t < nthreads) then
    match np_pc s t with
    | (TxHeld | TxStore _) as pc =>
        match tidex_nps_mutex_unlock (np_mutex s) pc with
        | Some (m, pc') => Some (NpsState m (np_global s) (np_tl s) (<[t := pc']> (np_pc s)))
        | None => None
        end
    | pc =>
        match tidex_nps_mutex_lock (np_mutex s) (np_global s) (np_tl s t) pc with
        | Some (m, g, tl, pc') => Some (NpsState m g (<[t := tl]> (np_tl s)) (<[t := pc']> (np_pc s)))
        | None => None
        end
    end
  else None.

Definition tidex_nps_mutex (nthreads : nat) : Mutex unit nps_state := {|
  mtx_init := λ s, s = nps_start;
  mtx_step := λ t _ s, nps_step nthreads t s;
  mtx_phase := λ s t, tidex_phase (np_pc s t);
|}.

Definition nps_step_try (t : tid) (l : tidex_call) (s : nps_state) : option nps_state :=
  match np_pc s t, l with
  | (TxHeld | TxStore _) as pc, _ =>
      match tidex_nps_mutex_unlock (np_mutex s) pc with
      | Some (m, pc') => Some (NpsState m (np_global s) (np_tl s) (<[t := pc']> (np_pc s)))
      | None => None
      end
  | pc, l =>
      match
        match pc, l with
        | TxIdle, CallTryLock | (TxTry _ | TxIdx _ | TxCas _ _), _ =>
            tidex_nps_mutex_trylock (np_mutex s) (np_global s) (np_tl s t) pc
        | _, _ => tidex_nps_mutex_lock (np_mutex s) (np_global s) (np_tl s t) pc
        end
      with
      | Some (m, g, tl, pc') => Some (NpsState m g (<[t := tl]> (np_tl s)) (<[t := pc']> (np_pc s)))
      | None => None
      end
  end.

Definition tidex_nps_try_mutex : Mutex tidex_call nps_state := {|
  mtx_init := λ s, s = nps_start;
  mtx_step := λ t l s, nps_step_try t l s;
  mtx_phase := λ s t, tidex_phase (np_pc s t);
|}.

(** The steps the two variants have in common. *)
Definition tidex_shared (m : tidex_mutex_t) (pc : tidex_pc) : option (tidex_mutex_t * tidex_pc) :=
  match pc with
  | TxHeld | TxStore _ => tidex_mutex_unlock m pc
  | _ => tidex_lock_body m pc
  end.

(** ** The chain of thread identifiers

    [idf] gives every thread that has one its positive identifier. *)

Section core.
Context (idf : tid → Z).

Definition own_id (t : tid) (m : Z) : Prop :=
  (0 < idf t)%Z ∧ (m = idf t ∨ m = (- idf t)%Z).

Definition tidex_W (e : entry Z) (pc : tidex_pc) : Prop :=
  own_id (en_tid e) (en_my e) ∧
  (pc = TxWhile (en_my e) (en_prev e) ∨ ∃ k, pc = TxFor (en_my e) (en_prev e) k).

Definition tidex_O (next : Z) (e : entry Z) (pc : tidex_pc) : Prop :=
  own_id (en_tid e) (en_my e) ∧
  (pc = TxNext (en_my e) ∨
   next = en_my e ∧ (pc = TxHeld ∨ pc = TxStore (en_my e))).

Definition tidex_N (egress : Z) (t : tid) (pc : tidex_pc) : Prop :=
  pc = TxIdle ∨ (0 < idf t ∧ pc = TxLoad (idf t))%Z ∨
  (∃ m, pc = TxExch m ∧ own_id t m ∧ m ≠ egress).

Definition tidex_inv (m : tidex_mutex_t) (pcs : tid → tidex_pc)
    (c : list (entry Z)) (h : bool) : Prop :=
  chain_rel tidex_W (tidex_O (tx_nextEgress m)) (tidex_N (tx_egress m))
    (tx_egress m) (tx_ingress m) pcs c h.

Definition ids_distinct : Prop :=
  ∀ t t', (0 < idf t)%Z → idf t = idf t' → t = t'.
End core.

Section core_proofs.
Context (idf : tid → Z).
Hypothesis idf_distinct : ids_distinct idf.

Lemma own_id_distinct t t' m m' :
  own_id idf t m → own_id idf t' m' → t ≠ t' → m ≠ m'.
Proof.
  intros [Ht Hm] [Ht' Hm'] Hne Heq. apply Hne, idf_distinct; [done|]. lia.
Qed.

Lemma tidex_entry_id next cur last pcs c h e N :
  chain_rel (tidex_W idf) (tidex_O idf next) N cur last pcs c h →
  e ∈ c → own_id idf (en_tid e) (en_my e).
Proof.
  intros [_ _ _ Hpos _] He. destruct c as [|e0 c]; [set_solver|].
  destruct Hpos as [H0 H1]. apply elem_of_cons in He as [->|He].
  - destruct h; apply H0.
  - apply (H1 e He).
Qed.

Lemma tidex_fresh m pcs c h t my :
  tidex_inv idf m pcs c h → t ∉ chain_tids c → own_id idf t my → my ≠ tx_egress m →
  my ∉ chain_ids (tx_egress m) c.
Proof.
  intros Hinv Hn Hid Hne [?|(e & -> & He)%list_elem_of_fmap]%elem_of_cons; [done|].
  eapply own_id_distinct; [done|by eapply tidex_entry_id| |done].
  intros ->. by apply Hn, chain_tids_elem.
Qed.

Ltac tx_waiter Hinv Hpc x :=
  destruct (chain_rel_waiter _ _ _ _ _ _ _ _ _ Hinv ltac:(pc_absurd Hpc) ltac:(pc_absurd Hpc))
    as (x & Hx & <- & HW & Hnh); rewrite Hpc in HW.

Ltac tx_owner Hinv Hpc x c :=
  destruct (chain_rel_owner _ _ _ _ _ _ _ _ _ Hinv ltac:(pc_absurd Hpc) ltac:(pc_absurd Hpc))
    as (x & c & -> & -> & <- & Hp & HO); rewrite Hpc in HO.

(** A spinning thread loads [egress]. *)
Lemma tidex_sim_spin m pcs c h t mytid prevtid pc :
  tidex_inv idf m pcs c h →
  (pcs t = TxWhile mytid prevtid ∨ ∃ k, pcs t = TxFor mytid prevtid k) →
  (pc = TxWhile mytid prevtid ∨ (∃ k, pc = TxFor mytid prevtid k) ∨
   pc = TxNext mytid ∧ tx_egress m = prevtid) →
  ∃ c' h', qlock_step t (chain_tids c) h (chain_tids c') h' ∧
    tidex_inv idf m (<[t := pc]> pcs) c' h'.
Proof.
  intros Hinv Hpc Hpc'.
  assert (∃ x, x ∈ c ∧ en_tid x = t ∧ tidex_W idf x (pcs t) ∧ ¬ (h = true ∧ head c = Some x))
    as (x & Hx & <- & [Hid HW] & Hnh).
  { destruct Hpc as [Hpc|[k Hpc]]; (eapply chain_rel_waiter; [done|pc_absurd Hpc..]). }
  assert (mytid = en_my x ∧ prevtid = en_prev x) as [-> ->].
  { destruct Hpc as [Hpc|[? Hpc]], HW as [HW|[? HW]]; rewrite Hpc in HW; by simplify_eq. }
  destruct Hpc' as [->|[[k ->]|[-> Heq]]].
  - exists c, h. split; [constructor|]. apply chain_rel_wait; [done..|]. split; auto.
  - exists c, h. split; [constructor|]. apply chain_rel_wait; [done..|]. split; eauto.
  - destruct (chain_rel_admit _ _ _ _ _ _ _ _ x (TxNext (en_my x)) Hinv) as (-> & [c' ->] & Hcr');
      [done..|by split; auto|].
    exists (x :: c'), true. split; [constructor|done].
Qed.

Lemma tidex_inv_queued m pcs c h t :
  tidex_inv idf m pcs c h → (queued (tidex_phase (pcs t)) = true ↔ t ∈ chain_tids c).
Proof.
  intros Hinv. eapply (chain_rel_queued _ _ _ tidex_phase); [..|done].
  - by intros ?? [_ [->|[? ->]]].
  - by intros ?? [_ [->|[_ [->| ->]]]].
  - by intros ?? [->|[[_ ->]|(?&->&_)]].
Qed.

Lemma tidex_not_queued m pcs c h t :
  tidex_inv idf m pcs c h → queued (tidex_phase (pcs t)) = false → t ∉ chain_tids c.
Proof. intros Hinv Hq Hin%(tidex_inv_queued _ _ _ _ _ Hinv). congruence. Qed.

(** The steps that [lock] and [unlock] share once [mytid] is known. *)
Lemma tidex_sim_body m pcs c h t m' pc' :
  tidex_inv idf m pcs c h → pcs t ≠ TxIdle →
  tidex_shared m (pcs t) = Some (m', pc') →
  ∃ c' h', qlock_step t (chain_tids c) h (chain_tids c') h' ∧
    tidex_inv idf m' (<[t := pc']> pcs) c' h'.
Proof.
  intros Hinv Hni Hstep.
  destruct (pcs t) as [|my|my|my prev|my prev k|my| |v|lE|lI|lI my] eqn:Hpc; try done; simplify_eq/=.
  - (* load egress *)
    assert (t ∉ chain_tids c) as Hn by (eapply tidex_not_queued; [done|by rewrite Hpc]).
    pose proof (cr_out _ _ _ _ _ _ _ _ Hinv t Hn) as HN. rewrite Hpc in HN.
    destruct HN as [?|[[Hpos ?]|(?&?&_)]]; simplify_eq.
    exists c, h. split; [constructor|]. apply chain_rel_out; [done..|].
    right; right. eexists. split; [done|]. case_bool_decide; (split; [split; [done|lia]|lia]).
  - (* exchange ingress *)
    assert (t ∉ chain_tids c) as Hn by (eapply tidex_not_queued; [done|by rewrite Hpc]).
    pose proof (cr_out _ _ _ _ _ _ _ _ Hinv t Hn) as HN. rewrite Hpc in HN.
    destruct HN as [?|[[Hpos ?]|(? & [= <-] & Hid & Hne)]]; [done|done|].
    exists (c ++ [Entry t (tx_ingress m) my]), h.
    unfold chain_tids at 2. rewrite map_app. split; [by constructor|].
    unfold tidex_inv. simpl. apply chain_rel_arrive; [done..|by eapply tidex_fresh|]. split; auto.
  - (* while *)
    case_bool_decide; simplify_eq; (eapply tidex_sim_spin; [done|by rewrite Hpc; auto|eauto 10]).
  - (* for *)
    destruct k as [|k]; [simplify_eq; eapply tidex_sim_spin; [done|by rewrite Hpc; eauto|eauto 10]|].
    case_bool_decide; simplify_eq; (eapply tidex_sim_spin; [done|by rewrite Hpc; eauto|eauto 10]).
  - (* nextEgress = mytid *)
    tx_owner Hinv Hpc x c'. destruct HO as [Hid [?|[_ [?|?]]]]; simplify_eq.
    exists (x :: c'), true. split; [constructor|].
    eapply chain_rel_own; [done|]. split; auto.
  - (* load nextEgress *)
    tx_owner Hinv Hpc x c'. destruct HO as [Hid [?|[Hnx _]]]; simplify_eq.
    exists (x :: c'), true. split; [constructor|].
    eapply chain_rel_own; [done|]. rewrite Hnx. split; auto.
  - (* egress = nextEgress *)
    tx_owner Hinv Hpc x c'. destruct HO as [Hid [?|[Hnx [?|?]]]]; simplify_eq.
    exists c', false. split; [constructor|].
    unfold tidex_inv. simpl. eapply chain_rel_leave; [done|by left|].
    intros t Ht HN. destruct HN as [?|[?|(m0 & ? & Hid' & ?)]]; [by left|by right; left|].
    right; right. exists m0. split_and!; [done..|].
    eapply own_id_distinct; [done..|]. intros ->. apply Ht. by left.
Qed.

Lemma tidex_inv_idle m pcs c h t :
  tidex_inv idf m pcs c h → pcs t = TxIdle → (0 < idf t)%Z →
  tidex_inv idf m (<[t := TxLoad (idf t)]> pcs) c h.
Proof.
  intros Hinv Hpc Hpos. apply chain_rel_out; [done| |by right; left].
  eapply tidex_not_queued; [done|by rewrite Hpc].
Qed.

Lemma tidex_inv_owns m pcs c h t :
  tidex_inv idf m pcs c h →
  (owns (tidex_phase (pcs t)) = true ↔ h = true ∧ head (chain_tids c) = Some t).
Proof.
  intros Hinv. eapply (chain_rel_owns _ _ _ tidex_phase); [..|done].
  - by intros ?? [_ [->|[? ->]]].
  - by intros ?? [_ [->|[_ [->| ->]]]].
  - by intros ?? [->|[[_ ->]|(?&->&_)]].
Qed.

(** The identifier of an idle thread is not used. *)
Lemma tidex_inv_idf (idf' : tid → Z) m pcs c h :
  (∀ t, pcs t ≠ TxIdle → idf' t = idf t) →
  tidex_inv idf m pcs c h → tidex_inv idf' m pcs c h.
Proof.
  intros Hext. apply chain_rel_weaken.
  - intros e _ [Hid Hpc]. split; [|done]. unfold own_id. rewrite Hext; [done|].
    destruct Hpc as [->|[? ->]]; done.
  - intros e _ [Hid Hpc]. split; [|done]. unfold own_id. rewrite Hext; [done|].
    destruct Hpc as [->|[_ [->| ->]]]; done.
  - intros t _ [HN|HN]; [by left|right]. unfold own_id in *. rewrite Hext; [done|].
    destruct HN as [[_ ->]|(? & -> & _)]; done.
Qed.

Lemma tidex_inv_start : tidex_inv idf tidex_mutex_init (λ _, TxIdle) [] false.
Proof. split; simpl; try done; repeat constructor; set_solver. Qed.
End core_proofs.

(** ** Solo runs

    Both systems run the shared part of [lock] and [unlock] in the same way,
    so what one thread can do alone is proved once. *)

Section solo.
Context {S : Type} {M : Mutex unit S} (get_m : S → tidex_mutex_t) (get_pc : S → tid → tidex_pc).
Context (ok : tid → Prop).
Hypothesis get_phase : ∀ s t, mtx_phase s t = tidex_phase (get_pc s t).
Hypothesis get_step : ∀ s t m' pc',
  ok t → tidex_shared (get_m s) (get_pc s t) = Some (m', pc') →
  ∃ s', mtx_step t tt s = Some s' ∧ get_m s' = m' ∧ get_pc s' t = pc'.

Lemma solo_shared s t m' pc' P :
  ok t → tidex_shared (get_m s) (get_pc s t) = Some (m', pc') →
  (∀ s', get_m s' = m' → get_pc s' t = pc' → solo t s' P) → solo t s P.
Proof.
  intros Hok Hstep HP. destruct (get_step s t m' pc' Hok Hstep) as (s' & ? & ? & ?).
  eapply (solo_step _ tt); [done|]. auto.
Qed.

Lemma solo_held s t my :
  ok t → get_pc s t = TxNext my → solo t s (λ s', mtx_phase s' t = Holding).
Proof.
  intros Hok Hpc. eapply solo_shared; [done|by rewrite Hpc|].
  intros s' _ Hpc'. apply solo_done. by rewrite get_phase, Hpc'.
Qed.

Lemma solo_enters s t my :
  ok t → get_pc s t = TxWhile my (tx_egress (get_m s)) ∨
         (∃ k, get_pc s t = TxFor my (tx_egress (get_m s)) k) →
  solo t s (λ s', mtx_phase s' t = Holding).
Proof.
  intros Hok.
  assert (∀ s, get_pc s t = TxWhile my (tx_egress (get_m s)) →
    solo t s (λ s', mtx_phase s' t = Holding)) as Hwhile.
  { intros s0 Hpc. eapply solo_shared; [done|rewrite Hpc; simpl; by rewrite bool_decide_eq_true_2|].
    intros s' _ Hpc'. by eapply solo_held. }
  intros [Hpc|[[|k] Hpc]]; [by apply Hwhile|..].
  - eapply solo_shared; [done|by rewrite Hpc|]. intros s' Hm Hpc'. apply Hwhile. by rewrite Hm.
  - eapply solo_shared; [done|rewrite Hpc; simpl; by rewrite bool_decide_eq_true_2|].
    intros s' _ Hpc'. by eapply solo_held.
Qed.

Lemma solo_exits s t :
  ok t → owns (tidex_phase (get_pc s t)) = true →
  solo t s (λ s', queued (mtx_phase s' t) = false).
Proof.
  intros Hok Ho.
  assert (∀ s v, get_pc s t = TxStore v →
    solo t s (λ s', queued (mtx_phase s' t) = false)) as Hstore.
  { intros s0 v Hpc. eapply solo_shared; [done|by rewrite Hpc|].
    intros s' _ Hpc'. apply solo_done. by rewrite get_phase, Hpc'. }
  assert (∀ s, get_pc s t = TxHeld → solo t s (λ s', queued (mtx_phase s' t) = false)) as Hheld.
  { intros s0 Hpc. eapply solo_shared; [done|by rewrite Hpc|]. eauto. }
  destruct (get_pc s t) as [|?|?|? ?|? ? ?|?| |?|?|?|? ?] eqn:Hpc; try done; [|by eauto..].
  eapply solo_shared; [done|by rewrite Hpc|]. eauto.
Qed.

Lemma tidex_inv_enters (idf : tid → Z) s x c :
  ok (en_tid x) → tidex_inv idf (get_m s) (get_pc s) (x :: c) false →
  solo (en_tid x) s (λ s', mtx_phase s' (en_tid x) = Holding).
Proof.
  intros Hok [[Hp _] _ _ [[_ HW] _] _]. rewrite Hp in HW. by eapply solo_enters.
Qed.
End solo.

(** ** [tidex_mutex] *)

Section tidex.
Context (pthread_self : tid → Z).
Hypothesis self_pos : ∀ t, (0 < pthread_self t)%Z.
Hypothesis self_distinct : ids_distinct pthread_self.
Local Instance tidex_mutex_self : Mutex unit tidex_state := tidex_mutex pthread_self.

Lemma tidex_step_idle t s s' :
  tx_pc s t = TxIdle → tidex_step pthread_self t s = Some s' →
  s' = TidexState (tx_mutex s) (<[t := TxLoad (pthread_self t)]> (tx_pc s)).
Proof. intros Hpc. unfold tidex_step. rewrite Hpc. by intros [= <-]. Qed.

Lemma tidex_step_shared t s :
  tx_pc s t ≠ TxIdle → tidex_step pthread_self t s =
  match tidex_shared (tx_mutex s) (tx_pc s t) with
  | Some (m, pc) => Some (TidexState m (<[t := pc]> (tx_pc s)))
  | None => None
  end.
Proof. intros Hpc. unfold tidex_step. by destruct (tx_pc s t). Qed.

Lemma tidex_step_shared_ex s t m' pc' :
  True → tidex_shared (tx_mutex s) (tx_pc s t) = Some (m', pc') →
  ∃ s', tidex_step pthread_self t s = Some s' ∧ tx_mutex s' = m' ∧ tx_pc s' t = pc'.
Proof.
  intros _ Hstep. rewrite tidex_step_shared, Hstep by (intros Hpc; by rewrite Hpc in Hstep).
  eexists. split_and!; [done..|]. simpl. by simpl_fn.
Qed.

Lemma tidex_sim t s s' c h :
  tidex_inv pthread_self (tx_mutex s) (tx_pc s) c h → tidex_step pthread_self t s = Some s' →
  ∃ c' h', qlock_step t (chain_tids c) h (chain_tids c') h' ∧
    tidex_inv pthread_self (tx_mutex s') (tx_pc s') c' h'.
Proof.
  intros Hinv Hstep. destruct (decide (tx_pc s t = TxIdle)) as [Hpc|Hni].
  - apply tidex_step_idle in Hstep as ->; [|done]. exists c, h.
    split; [constructor|]. by apply tidex_inv_idle.
  - rewrite tidex_step_shared in Hstep by done.
    destruct (tidex_shared _ _) as [[m pc]|] eqn:Heq; simplify_eq/=.
    by eapply tidex_sim_body.
Qed.

Lemma tidex_queue_lock : QueueLock unit tidex_state.
Proof.
  refine {| ql_rel s q h := ∃ c, q = chain_tids c ∧ tidex_inv pthread_self (tx_mutex s) (tx_pc s) c h |}.
  - intros s ->. exists []. split; [done|]. by apply tidex_inv_start.
  - intros t [] s s' q h (c & -> & Hinv) Hstep.
    destruct (tidex_sim t s s' c h Hinv Hstep) as (c' & h' & ? & ?).
    exists (chain_tids c'), h'. split; [done|]. by exists c'.
  - intros s q h t (c & -> & Hinv). by apply (tidex_inv_queued pthread_self (tx_mutex s) _ _ h).
  - intros s q h t (c & -> & Hinv). by apply (tidex_inv_owns pthread_self (tx_mutex s)).
  - by intros s t ->.
  - intros t t' [] s s' Hstep Hne. simpl in *. unfold tidex_step in Hstep.
    step_inv Hstep; by simpl_fn.
  - intros t [] s s' Hstep. simpl in *. unfold tidex_step in Hstep.
    destruct (tx_pc s t) eqn:Hpc; step_inv Hstep; simpl_fn; by rewrite ?Hpc.
  - intros s t q ([|x c] & Heq & Hinv); [done|injection Heq as -> ->].
    eapply (tidex_inv_enters _ tx_pc (λ _, True)); [done|apply tidex_step_shared_ex|done..].
  - intros s q h t (c & -> & Hinv) Ho.
    eapply (solo_exits _ tx_pc (λ _, True)); [done|apply tidex_step_shared_ex|done..].
Qed.
End tidex.

(** ** [tidex_nps_mutex] *)

Section nps.
Context (n : nat).
Hypothesis n_small : (n < 2 ^ 63 - 1)%Z.
Local Instance nps_mutex_n : Mutex unit nps_state := tidex_nps_mutex n.

(** The threads that have drawn an index are those of [l]. *)
Record nps_ids (s : nps_state) (l : list tid) : Prop := {
  ni_nodup : NoDup l;
  ni_bound : Forall (λ t, t < n) l;
  ni_global : np_global s = (1 + length l)%Z;
  ni_none : ∀ t, t ∉ l → np_tl s t = INVALID_TID ∧ np_pc s t = TxIdle;
  ni_some : ∀ t, t ∈ l → (0 < np_tl s t < np_global s)%Z;
  ni_distinct : ids_distinct (np_tl s);
}.

Lemma nps_step_shared t s m pc :
  t < n → tidex_shared (np_mutex s) (np_pc s t) = Some (m, pc) →
  ∃ tl, nps_step n t s = Some (NpsState m (np_global s) tl (<[t := pc]> (np_pc s))) ∧
    ∀ t', tl t' = np_tl s t'.
Proof.
  intros Hlt Hstep. unfold nps_step. rewrite bool_decide_eq_true_2 by done.
  destruct (np_pc s t) as [| | | | ? ? [|?]| | | | | |] eqn:Hpc; simplify_eq/=;
    try case_bool_decide; simplify_eq/=; eexists; (split; [done|]);
    intros t'; same_tid t t'; by simpl_fn.
Qed.

Lemma nps_step_inv t s s' :
  nps_step n t s = Some s' → t < n ∧
  if decide (np_pc s t = TxIdle) then
    let '(g, tl) := nps_index (np_global s) (np_tl s t) in
    s' = NpsState (np_mutex s) g (<[t := tl]> (np_tl s)) (<[t := TxLoad tl]> (np_pc s))
  else ∃ m pc tl, tidex_shared (np_mutex s) (np_pc s t) = Some (m, pc) ∧
    s' = NpsState m (np_global s) tl (<[t := pc]> (np_pc s)) ∧ ∀ t', tl t' = np_tl s t'.
Proof.
  intros Hstep. assert (t < n) as Hlt.
  { unfold nps_step in Hstep. by case_bool_decide. }
  split; [done|]. case_decide as Hpc.
  - unfold nps_step in Hstep. rewrite bool_decide_eq_true_2, Hpc in Hstep by done.
    simpl in Hstep. destruct (nps_index _ _). by simplify_eq.
  - destruct (tidex_shared (np_mutex s) (np_pc s t)) as [[m pc]|] eqn:Hsh.
    + destruct (nps_step_shared t s m pc Hlt Hsh) as (tl & Heq & Htl).
      rewrite Heq in Hstep. simplify_eq. eauto 10.
    + unfold nps_step in Hstep. rewrite bool_decide_eq_true_2 in Hstep by done.
      destruct (np_pc s t) as [| | | | ? ? [|?]| | | | | |]; simplify_eq/=; by case_bool_decide.
Qed.

(** A thread that draws an index gets one that nobody has. *)
Lemma nps_ids_draw s l t :
  nps_ids s l → t < n → np_pc s t = TxIdle →
  let '(g, tl) := nps_index (np_global s) (np_tl s t) in
  (0 < tl)%Z ∧
  ∃ l', nps_ids (NpsState (np_mutex s) g (<[t := tl]> (np_tl s)) (<[t := TxLoad tl]> (np_pc s))) l'.
Proof.
  intros Hids Hlt Hpc.
  destruct Hids as [Hnd Hb Hg Hnone Hsome Hdis]. unfold nps_index, INVALID_TID in *.
  case_bool_decide as Htl.
  - assert (t ∉ l) as Hn by (intros Hin%Hsome; lia).
    pose proof (NoDup_bounded_length n (t :: l) ltac:(by constructor) ltac:(by constructor)) as Hlen.
    rewrite wrap_s_small by (simpl in Hlen; lia). split; [lia|]. exists (t :: l). split; simpl.
    + by constructor.
    + by constructor.
    + rewrite Hg. lia.
    + intros t' [Hne Hn']%not_elem_of_cons. simpl_fn. auto.
    + intros t' Ht'. same_tid t t'; [lia|].
      apply elem_of_cons in Ht' as [->|Ht']; [done|]. specialize (Hsome t' Ht'). lia.
    + intros t1 t2. assert (∀ t', np_tl s t' < np_global s)%Z as Hmax.
      { intros t'. destruct (decide (t' ∈ l)) as [Hin|Hout]; [by apply Hsome|].
        destruct (Hnone t' Hout) as [-> _]. lia. }
      pose proof (Hmax t1). pose proof (Hmax t2).
      same_tid t t1; same_tid t t2; [done|lia..|auto].
  - assert (t ∈ l) as Hin by (destruct (decide (t ∈ l)) as [|Hn%Hnone]; [done|tauto]).
    pose proof (Hsome t Hin). split; [lia|]. exists l. split; simpl; try done.
    + intros t' Hn'. assert (t ≠ t') by naive_solver. simpl_fn. auto.
    + intros t' Ht'. same_tid t t'; auto.
    + intros t1 t2. same_tid t t1; same_tid t t2; auto.
Qed.

Lemma nps_ids_shared s l m pc t tl :
  nps_ids s l → np_pc s t ≠ TxIdle → (∀ t', tl t' = np_tl s t') →
  nps_ids (NpsState m (np_global s) tl (<[t := pc]> (np_pc s))) l.
Proof.
  intros [Hnd Hb Hg Hnone Hsome Hdis] Hpc Htl. split; simpl; try done.
  - intros t' Ht'. rewrite Htl. assert (t ≠ t') by (intros <-; apply Hpc; by apply Hnone).
    simpl_fn. auto.
  - intros t' Ht'. rewrite Htl. auto.
  - intros t1 t2. rewrite !Htl. auto.
Qed.

Definition nps_inv (s : nps_state) (c : list (entry Z)) (h : bool) : Prop :=
  (∃ l, nps_ids s l) ∧ tidex_inv (np_tl s) (np_mutex s) (np_pc s) c h.

Lemma nps_sim t s s' c h :
  nps_inv s c h → nps_step n t s = Some s' →
  ∃ c' h', qlock_step t (chain_tids c) h (chain_tids c') h' ∧ nps_inv s' c' h'.
Proof.
  intros [[l Hids] Hinv] [Hlt Hstep]%nps_step_inv. case_decide as Hpc.
  - pose proof (nps_ids_draw s l t Hids Hlt Hpc) as Hdraw.
    destruct (nps_index _ _) as [g tl]. destruct Hdraw as [Hpos Hids']. subst s'.
    exists c, h. split; [constructor|]. split; [done|]. simpl.
    replace (TxLoad tl) with (TxLoad ((<[t := tl]> (np_tl s)) t)) by by simpl_fn.
    destruct Hids' as [l' [_ _ _ _ _ Hdis]]. apply tidex_inv_idle; simpl_fn; try done.
    apply (tidex_inv_idf (np_tl s)); [|done].
    intros t' Ht'. same_tid t t'; done.
  - destruct Hstep as (m & pc & tl & Hsh & -> & Htl).
    destruct (tidex_sim_body (np_tl s) (ni_distinct _ _ Hids) _ _ _ _ _ _ _ Hinv Hpc Hsh)
      as (c' & h' & Hq & Hinv').
    exists c', h'. split; [done|]. split; [exists l; by apply nps_ids_shared|].
    apply (tidex_inv_idf (np_tl s)); [by intros; simpl|done].
Qed.

Lemma nps_step_shared_ex s t m' pc' :
  t < n → tidex_shared (np_mutex s) (np_pc s t) = Some (m', pc') →
  ∃ s', nps_step n t s = Some s' ∧ np_mutex s' = m' ∧ np_pc s' t = pc'.
Proof.
  intros Hlt Hsh. destruct (nps_step_shared t s m' pc' Hlt Hsh) as (tl & Heq & _).
  eexists. split_and!; [done..|]. simpl. by simpl_fn.
Qed.

Lemma nps_queued_bound s c h t :
  nps_inv s c h → queued (tidex_phase (np_pc s t)) = true → t < n.
Proof.
  intros [[l [_ Hb _ Hnone _ _]] _] Hq. destruct (decide (t ∈ l)) as [Hin|Hn].
  - rewrite Forall_forall in Hb. auto.
  - destruct (Hnone t Hn) as [_ Hpc]. by rewrite Hpc in Hq.
Qed.

Lemma nps_queue_lock : QueueLock unit nps_state.
Proof.
  refine {| ql_rel s q h := ∃ c, q = chain_tids c ∧ nps_inv s c h |}.
  - intros s ->. exists []. split; [done|]. split; [|by apply tidex_inv_start].
    exists []. split; try done; [constructor|set_solver].
  - intros t [] s s' q h (c & -> & Hinv) Hstep.
    destruct (nps_sim t s s' c h Hinv Hstep) as (c' & h' & ? & ?). eauto 10.
  - intros s q h t (c & -> & Hinv). apply (tidex_inv_queued (np_tl s) (np_mutex s) _ _ h), Hinv.
  - intros s q h t (c & -> & Hinv). apply (tidex_inv_owns (np_tl s) (np_mutex s)), Hinv.
  - by intros s t ->.
  - intros t t' [] s s' [_ Hstep]%nps_step_inv Hne. simpl in *. case_decide.
    + destruct (nps_index _ _). subst. simpl. by simpl_fn.
    + destruct Hstep as (?&?&?&_&->&_). simpl. by simpl_fn.
  - intros t [] s s' [_ Hstep]%nps_step_inv. simpl in *. case_decide as Hpc.
    + destruct (nps_index _ _). subst. simpl. simpl_fn. by rewrite Hpc.
    + destruct Hstep as (?&?&?&Hsh&->&_). simpl. simpl_fn.
      destruct (np_pc s t) as [| | | | ? ? [|?]| | | | | |]; simplify_eq/=; by try case_bool_decide; simplify_eq.
  - intros s t q ([|x c] & Heq & Hinv); [done|injection Heq as -> ->].
    eapply (tidex_inv_enters _ np_pc (λ t, t < n)); [done|apply nps_step_shared_ex| |apply Hinv].
    eapply nps_queued_bound; [done|]. eapply tidex_inv_queued; [apply Hinv|by left].
  - intros s q h t (c & -> & Hinv) Ho.
    eapply (solo_exits _ np_pc (λ t, t < n)); [done|apply nps_step_shared_ex| |done].
    eapply nps_queued_bound; [done|]. simpl in Ho. by destruct (np_pc s t).
Qed.
End nps.

(** ** Theorems *)

(** Identifiers as glibc hands them out: distinct positive addresses. *)
Definition self_example (t : tid) : Z := (4096 * (t + 1))%Z.

Lemma self_example_distinct : ids_distinct self_example.
Proof. unfold ids_distinct, self_example. lia. Qed.

(** C18: [tidex_mutex_lock] and [tidex_mutex_unlock] exclude each other when
    thread identifiers are positive and distinct: although a thread's two
    identities are used again and again, no waiter is ever woken by a stale
    [egress].  The lock admits threads in the order of their exchanges on
    [ingress], and when it is free a waiting thread can always take it. *)
Theorem tidex_correct (pthread_self : tid → Z) :
  (∀ t, (0 < pthread_self t)%Z) → ids_distinct pthread_self →
  lock_exclusive (tidex_mutex pthread_self) ∧ lock_fifo (tidex_mutex pthread_self) ∧
  lock_progress (tidex_mutex pthread_self).
Proof. intros Hpos Hd. apply (qlock_correct (Q := tidex_queue_lock pthread_self Hpos Hd)). Qed.

(** Thread 0 takes the lock twice in a row, which uses both its identities,
    with thread 1 waiting between the two. *)
Lemma tidex_correct_witness :
  (∃ s, @run _ _ (@mutex_lts _ _ (tidex_mutex self_example))
         (replicate 7 (0, tt) ++ replicate 3 (0, tt) ++ replicate 5 (1, tt)) tidex_start = Some s ∧
    tx_ingress (tx_mutex s) = 8192%Z ∧ tidex_phase (tx_pc s 0) = Waiting ∧
    tidex_phase (tx_pc s 1) = Waiting) ∧
  (lock_exclusive (tidex_mutex self_example) ∧ lock_fifo (tidex_mutex self_example) ∧
   lock_progress (tidex_mutex self_example)).
Proof.
  split; [eexists; split; [vm_compute; reflexivity|]; do 2 (split; [reflexivity|]); reflexivity|].
  apply (tidex_correct self_example).
  - unfold self_example. lia.
  - exact self_example_distinct.
Defined.

(** C19: the variant with thread indices is a correct queue lock for fewer than
    [2^63 - 1] threads: the indices it draws are positive and distinct, so it
    excludes, serves in order and makes progress. *)
Theorem nps_correct (n : nat) :
  (n < 2 ^ 63 - 1)%Z →
  lock_exclusive (tidex_nps_mutex n) ∧ lock_fifo (tidex_nps_mutex n) ∧
  lock_progress (tidex_nps_mutex n).
Proof.
  intros Hn. split_and!.
  - apply (qlock_exclusion (Q := nps_queue_lock n Hn)).
  - apply (qlock_fifo (Q := nps_queue_lock n Hn)).
  - apply (qlock_progress (Q := nps_queue_lock n Hn)).
Qed.

Lemma nps_correct_witness :
  ∃ s, @run _ _ (@mutex_lts _ _ (tidex_nps_mutex 2))
         (replicate 5 (1, tt) ++ replicate 5 (0, tt)) nps_start = Some s ∧
    np_tl s 1 = 1%Z ∧ np_tl s 0 = 2%Z ∧ np_global s = 3%Z ∧
    tidex_phase (np_pc s 1) = Holding ∧ tidex_phase (np_pc s 0) = Waiting ∧
    lock_exclusive (tidex_nps_mutex 2).
Proof.
  eexists. split; [vm_compute; reflexivity|]. do 5 (split; [reflexivity|]).
  apply (nps_correct 2). lia.
Defined.

(** *** [trylock] *)

(** Thread 2 calls [trylock] and reads [egress]; threads 1 and 0 then pass
    through the lock, and thread 0, holding it, has put back into [ingress] the
    value thread 2 compares with. *)
Definition trylock_schedule (k : nat) : list (tid * tidex_call) :=
  replicate 7 (0, CallLock) ++ [(2, CallTryLock)] ++ replicate 7 (1, CallLock) ++
  replicate 5 (0, CallLock) ++ replicate k (2, CallLock).

Lemma not_exclusive_run {L S} (M : Mutex L S) ls s0 s t1 t2 :
  mtx_init s0 → run ls s0 = Some s →
  owns (mtx_phase s t1) = true → owns (mtx_phase s t2) = true → t1 ≠ t2 →
  ¬ lock_exclusive M.
Proof.
  intros Hi Hrun H1 H2 Hne Hex. apply Hne, (Hex s); [|done..].
  eapply run_reachable; [by apply reachable_init|done].
Qed.

(** C20: [trylock] breaks mutual exclusion in both variants: in a reachable
    state two threads hold the lock. *)
Theorem trylock_not_exclusive :
  ¬ lock_exclusive (tidex_try_mutex self_example) ∧ ¬ lock_exclusive tidex_nps_try_mutex.
Proof.
  split.
  - apply (not_exclusive_run _ (trylock_schedule 3) tidex_start
      (default tidex_start (@run _ _ (@mutex_lts _ _ (tidex_try_mutex self_example))
         (trylock_schedule 3) tidex_start)) 0 2); by vm_compute.
  - apply (not_exclusive_run _ (trylock_schedule 4) nps_start
      (default nps_start (@run _ _ (@mutex_lts _ _ tidex_nps_try_mutex)
         (trylock_schedule 4) nps_start)) 0 2); by vm_compute.
Qed.
