(* ===== verification/NpsOpen.v ===== *)
(** * [tidex_nps_mutex] as one of several locks

    All locks of type [tidex_nps_mutex_t] share [globalThreadIndex] and the thread-local
    [tlThreadIndex].  A program with several such locks is modelled with one
    copy of the two variables in each lock, and [nps_share] carries what a step on one
    lock has done to them over to the others.

    Seen from one lock, a thread then comes to its first call with an index that it may
    have drawn on another lock: positive, and different from those of all other
    threads.  [nps_open_mutex] is the lock in this larger set of
    circumstances, the label of a step being the index with which a thread comes.  It is a
    correct lock, and the locks that share the variables are simulated by it. *)

From S2P Require Import Prelude Lts Mutex Nodes Chain TidexMutex.

(** ** Sharing *)

Definition nps_share (from to : nps_state) : nps_state :=
  NpsState (np_mutex to) (np_global from) (np_tl from) (np_pc to).

(** ** The lock for any indices *)

Definition nps_open_step (nthreads : nat) (t : tid) (index : option Z) (s : nps_state) : option nps_state :=
  match np_pc s t, index with
  | TxIdle, Some i =>
      if decide (t < nthreads ∧ (0 < i)%Z ∧ (np_tl s t = INVALID_TID ∨ np_tl s t = i) ∧
                 Forall (λ u, u ≠ t → np_tl s u ≠ i) (seq 0 nthreads)) then
        Some (NpsState (np_mutex s) (np_global s) (<[t := i]> (np_tl s)) (<[t := TxLoad i]> (np_pc s)))
      else None
  | TxIdle, None => None
  | _, _ => nps_step nthreads t s
  end.

Definition nps_open_mutex (nthreads : nat) : Mutex (option Z) nps_state := {|
  mtx_init := λ s, s = nps_start;
  mtx_step := λ t l s, nps_open_step nthreads t l s;
  mtx_phase := λ s t, tidex_phase (np_pc s t);
|}.

Section open.
Context (n : nat).
Local Instance nps_open_n : Mutex (option Z) nps_state := nps_open_mutex n.

Record open_ids (s : nps_state) : Prop := {
  oi_range t : n ≤ t → np_tl s t = INVALID_TID;
  oi_none t : np_tl s t = INVALID_TID → np_pc s t = TxIdle;
  oi_distinct : ids_distinct (np_tl s);
}.

Lemma nps_open_inv t l s s' :
  nps_open_step n t l s = Some s' → t < n ∧
  ((∃ i, np_pc s t = TxIdle ∧ (0 < i)%Z ∧ (np_tl s t = INVALID_TID ∨ np_tl s t = i) ∧
      (∀ u, u < n → u ≠ t → np_tl s u ≠ i) ∧
      s' = NpsState (np_mutex s) (np_global s) (<[t := i]> (np_tl s)) (<[t := TxLoad i]> (np_pc s))) ∨
   (∃ m pc tl, np_pc s t ≠ TxIdle ∧ tidex_shared (np_mutex s) (np_pc s t) = Some (m, pc) ∧
      s' = NpsState m (np_global s) tl (<[t := pc]> (np_pc s)) ∧ ∀ t', tl t' = np_tl s t')).
Proof.
  intros Hs. destruct (decide (np_pc s t = TxIdle)) as [Hpc|Hpc].
  - unfold nps_open_step in Hs. rewrite Hpc in Hs. destruct l as [i|]; [|done]. case_decide as Hg; [|done].
    destruct Hg as (Ht & Hi & Hold & Hu). rewrite Forall_forall in Hu. simplify_eq. split; [done|]. left. exists i.
    split_and!; try done. intros u Hlt. apply Hu, elem_of_seq. lia.
  - assert (nps_step n t s = Some s') as Hs' by (unfold nps_open_step in Hs; by destruct (np_pc s t)).
    apply nps_step_inv in Hs' as [Ht Hs']. rewrite decide_False in Hs' by done. split; [done|]. right.
    destruct Hs' as (m & pc & tl & Hsh & -> & Htl). eauto 10.
Qed.

Definition open_inv (s : nps_state) (c : list (entry Z)) (h : bool) : Prop :=
  open_ids s ∧ tidex_inv (np_tl s) (np_mutex s) (np_pc s) c h.

Lemma open_ids_come s t i :
  open_ids s → t < n → (0 < i)%Z → (∀ u, u < n → u ≠ t → np_tl s u ≠ i) →
  open_ids (NpsState (np_mutex s) (np_global s) (<[t := i]> (np_tl s)) (<[t := TxLoad i]> (np_pc s))).
Proof.
  intros [Hr Hn Hd] Ht Hi Hu. assert (∀ u, u ≠ t → np_tl s u ≠ i) as Hne.
  { intros u Hut. destruct (decide (u < n)); [by apply Hu|]. rewrite Hr by lia. unfold INVALID_TID. lia. }
  split; simpl.
  - intros u Hge. rewrite fn_lookup_insert_ne by lia. by apply Hr.
  - intros u. same_tid t u; [unfold INVALID_TID; lia|apply Hn].
  - intros u v. same_tid t u; same_tid t v; [done|..|apply Hd].
    + intros _ Heq. by destruct (Hne v).
    + intros _ Heq. by destruct (Hne u).
Qed.

Lemma nps_open_sim t l s s' c h :
  open_inv s c h → nps_open_step n t l s = Some s' →
  ∃ c' h', qlock_step t (chain_tids c) h (chain_tids c') h' ∧ open_inv s' c' h'.
Proof.
  intros [Hids Hinv] (Ht & [(i & Hpc & Hi & Hold & Hu & ->)|(m & pc & tl & Hpc & Hsh & -> & Htl)])%nps_open_inv.
  - exists c, h. split; [constructor|]. split; [by apply open_ids_come|]. simpl.
    replace (TxLoad i) with (TxLoad ((<[t := i]> (np_tl s)) t)) by by simpl_fn.
    apply tidex_inv_idle; simpl_fn; try done.
    apply (tidex_inv_idf (np_tl s)); [|done]. intros u Hu'. by same_tid t u.
  - destruct (tidex_sim_body (np_tl s) (oi_distinct _ Hids) _ _ _ _ _ _ _ Hinv Hpc Hsh) as (c' & h' & Hq & Hinv').
    exists c', h'. split; [done|]. split.
    + destruct Hids as [Hr Hn Hd]. split; simpl.
      * intros u Hge. rewrite Htl. by apply Hr.
      * intros u. rewrite Htl. intros Hu%Hn. same_tid t u; [congruence|done].
      * intros u v. rewrite !Htl. apply Hd.
    + apply (tidex_inv_idf (np_tl s)); [by intros; simpl|done].
Qed.

Lemma nps_open_reachable s : reachable s → ∃ c h, open_inv s c h.
Proof.
  apply (invariant_reachable (λ s, ∃ c h, open_inv s c h)). split.
  - intros s0 ->. exists [], false. split; [|by apply tidex_inv_start]. by split.
  - intros [t l] s0 s1 (c & h & Hinv) Hs. destruct (nps_open_sim t l s0 s1 c h Hinv Hs) as (c' & h' & _ & Hinv'). eauto.
Qed.

Lemma nps_open_laws : MutexLaws (option Z) nps_state.
Proof.
  split.
  - by intros s t ->.
  - intros t u l s s' (_ & [(i & _ & _ & _ & _ & ->)|(m & pc & tl & _ & _ & -> & _)])%nps_open_inv Hne; simpl; by simpl_fn.
  - intros t l s s' (_ & [(i & Hpc & _ & _ & _ & ->)|(m & pc & tl & Hpc & Hsh & -> & _)])%nps_open_inv; simpl; simpl_fn.
    + by rewrite Hpc.
    + destruct (np_pc s t) as [| | | | ? ? [|?]| | | | | |]; simplify_eq/=; by try case_bool_decide; simplify_eq.
  - intros s t u (c & h & _ & Hinv)%nps_open_reachable Ht Hu.
    apply (tidex_inv_owns _ _ _ _ _ t Hinv) in Ht as [_ Ht]. apply (tidex_inv_owns _ _ _ _ _ u Hinv) in Hu as [_ Hu]. congruence.
Qed.
End open.
