(* ===== verification/ClhMutex.v ===== *)
(** * The CLH lock

    [ConcurrencyFreaks/C11/locks/clh_mutex.h], selected by
    [LOCK_METHOD=CLH_LOCK] in [src/lockrate.c].  Every acquisition allocates a
    node, publishes it by an exchange on [tail] and spins on the node of its
    predecessor, which it frees once admitted.  Memory is explicit: [malloc]
    returns any address that is not allocated at that moment, so an address
    that has been freed may come back at once, and a step that touches memory
    which is not allocated sets [cl_fault].  [malloc] does not return NULL. *)

From S2P Require Import Prelude Lts Mutex Nodes Chain.

(** ** Data *)

Record clh_mutex_node_t := ClhNode { succ_must_wait : bool }.

(** The allocated nodes. *)
Abbreviation clh_heap := (gmap loc clh_mutex_node_t).

Record clh_mutex_t := ClhMutexT {
  cl_mynode : ptr;
  cl_tail : loc;
}.

Inductive clh_pc :=
  | ClIdle
  | ClExch (mynode : loc)        (** node created, about to exchange [tail] *)
  | ClFirst (mynode prev : loc)  (** the relaxed load before the loop *)
  | ClSpin (mynode prev : loc)   (** the loop *)
  | ClFree (mynode prev : loc)   (** about to free [prev] *)
  | ClSet (mynode : loc)         (** about to store [self->mynode] *)
  | ClHeld
  | ClChecked                    (** [unlock], [self->mynode] is not NULL *)
  | ClStore (node : loc)         (** [unlock], about to clear [succ_must_wait] *).

(** ** Operations *)

(** [new_node] is the address [malloc] returns. *)
Definition clh_mutex_create_node (new_node : loc) (h : clh_heap) (islocked : bool)
    : option clh_heap :=
  match h !! new_node with
  | Some _ => None
  | None => Some (<[new_node := ClhNode islocked]> h)
  end.

Definition clh_mutex_init (new_node : loc) (h : clh_heap) : option (clh_heap * clh_mutex_t) :=
  match clh_mutex_create_node new_node h false with
  | Some h' => Some (h', ClhMutexT (Some new_node) new_node)
  | None => None
  end.

Definition clh_mutex_destroy (h : clh_heap) (self : clh_mutex_t) : res clh_heap :=
  match h !! cl_tail self with
  | Some _ => Done (delete (cl_tail self) h)
  | None => Fault
  end.

Definition clh_mutex_lock (new_node : loc) (h : clh_heap) (self : clh_mutex_t) (pc : clh_pc)
    : option (res (clh_heap * clh_mutex_t * clh_pc)) :=
  match pc with
  | ClIdle =>
      match clh_mutex_create_node new_node h true with
      | Some h' => Some (Done (h', self, ClExch new_node))
      | None => None
      end
  | ClExch mynode =>
      (* prev = atomic_exchange(&self->tail, mynode) *)
      Some (Done (h, ClhMutexT (cl_mynode self) mynode, ClFirst mynode (cl_tail self)))
  | ClFirst mynode prev | ClSpin mynode prev =>
      (* prev_islocked = atomic_load(&prev->succ_must_wait) *)
      match h !! prev with
      | Some (ClhNode true) => Some (Done (h, self, ClSpin mynode prev))
      | Some (ClhNode false) => Some (Done (h, self, ClFree mynode prev))
      | None => Some Fault
      end
  | ClFree mynode prev =>
      (* free(prev) *)
      match h !! prev with
      | Some _ => Some (Done (delete prev h, self, ClSet mynode))
      | None => Some Fault
      end
  | ClSet mynode =>
      (* self->mynode = mynode *)
      Some (Done (h, ClhMutexT (Some mynode) (cl_tail self), ClHeld))
  | _ => None
  end.

Definition clh_mutex_unlock (h : clh_heap) (self : clh_mutex_t) (pc : clh_pc)
    : option (res (clh_heap * clh_mutex_t * clh_pc)) :=
  match pc with
  | ClHeld =>
      (* if (self->mynode == NULL) return; *)
      match cl_mynode self with
      | None => Some (Done (h, self, ClIdle))
      | Some _ => Some (Done (h, self, ClChecked))
      end
  | ClChecked =>
      match cl_mynode self with
      | None => Some Fault
      | Some node => Some (Done (h, self, ClStore node))
      end
  | ClStore node =>
      (* atomic_store(&self->mynode->succ_must_wait, 0) *)
      match h !! node with
      | Some _ => Some (Done (<[node := ClhNode false]> h, self, ClIdle))
      | None => Some Fault
      end
  | _ => None
  end.

Definition clh_phase (pc : clh_pc) : phase :=
  match pc with
  | ClIdle => Idle
  | ClExch _ => Entering
  | ClFirst _ _ | ClSpin _ _ => Waiting
  | ClFree _ _ | ClSet _ => Acquired
  | ClHeld => Holding
  | ClChecked | ClStore _ => Unlocking
  end.

Record clh_state := ClhState {
  cl_heap : clh_heap;
  cl_mutex : clh_mutex_t;
  cl_pc : tid → clh_pc;
  cl_fault : bool;
}.

(** A fault leaves the memory undefined: nothing happens afterwards. *)
Definition clh_step (t : tid) (new_node : loc) (s : clh_state) : option clh_state :=
  if cl_fault s then None else
  match
    match cl_pc s t with
    | ClHeld | ClChecked | ClStore _ => clh_mutex_unlock (cl_heap s) (cl_mutex s) (cl_pc s t)
    | pc => clh_mutex_lock new_node (cl_heap s) (cl_mutex s) pc
    end
  with
  | Some (Done (h, m, pc)) => Some (ClhState h m (<[t := pc]> (cl_pc s)) false)
  | Some Fault => Some (ClhState (cl_heap s) (cl_mutex s) (cl_pc s) true)
  | None => None
  end.

Definition clh_init (s : clh_state) : Prop :=
  ∃ node h m, clh_mutex_init node ∅ = Some (h, m) ∧ s = ClhState h m (λ _, ClIdle) false.

#[export] Instance clh_mutex : Mutex loc clh_state := {|
  mtx_init := clh_init;
  mtx_step := clh_step;
  mtx_phase := λ s t, clh_phase (cl_pc s t);
|}.

(** ** The chain of nodes

    The identifiers are node addresses; [None] stands for the node the owner
    has freed, whose address may be in use again. *)

Definition clh_W (e : entry ptr) (pc : clh_pc) : Prop :=
  ∃ m p, en_my e = Some m ∧ en_prev e = Some p ∧ (pc = ClFirst m p ∨ pc = ClSpin m p).

Definition clh_O (mynode : ptr) (e : entry ptr) (pc : clh_pc) : Prop :=
  ∃ m, en_my e = Some m ∧
    ((∃ p, en_prev e = Some p ∧ pc = ClFree m p) ∨
     (en_prev e = None ∧
      (pc = ClSet m ∨ mynode = Some m ∧ (pc = ClHeld ∨ pc = ClChecked ∨ pc = ClStore m)))).

Definition clh_N (t : tid) (pc : clh_pc) : Prop := pc = ClIdle ∨ ∃ p, pc = ClExch p.

(** The node that only its creator knows. *)
Definition clh_priv (pc : clh_pc) : ptr :=
  match pc with ClExch p => Some p | _ => None end.

(** What [succ_must_wait] holds: it is cleared in the node the next thread
    looks at and set in all others. *)
Record clh_values (h : clh_heap) (cur : ptr) (c : list (entry ptr)) (pcs : tid → clh_pc) : Prop := {
  cv_cur : ∀ p, cur = Some p → h !! p = Some (ClhNode false);
  cv_my : ∀ e m, e ∈ c → en_my e = Some m → h !! m = Some (ClhNode true);
  cv_priv : ∀ t p, clh_priv (pcs t) = Some p → h !! p = Some (ClhNode true);
}.

Record clh_inv (s : clh_state) (cur : ptr) (c : list (entry ptr)) (h : bool) : Prop := {
  ci_fault : cl_fault s = false;
  ci_chain : chain_rel clh_W (clh_O (cl_mynode (cl_mutex s))) clh_N
               cur (Some (cl_tail (cl_mutex s))) (cl_pc s) c h;
  ci_owned : owned clh_priv (dom (cl_heap s)) (λ p, Some p ∈ chain_ids cur c) (cl_pc s);
  ci_values : clh_values (cl_heap s) cur c (cl_pc s);
}.

(** How far the owner is from having released the lock. *)
Definition clh_rank (pc : clh_pc) : nat :=
  match pc with
  | ClFirst _ _ | ClSpin _ _ => 6
  | ClFree _ _ => 5
  | ClSet _ => 4
  | ClHeld => 3
  | ClChecked => 2
  | ClStore _ => 1
  | _ => 0
  end.

Section clh_proofs.
Context (s : clh_state) (cur : ptr) (c : list (entry ptr)) (h : bool) (t : tid).
Hypothesis Hinv : clh_inv s cur c h.

(** What a step of thread [t] to [s'] has to establish. *)
Let sim (s' : clh_state) : Prop :=
  ∃ cur' c' h', qlock_step t (chain_tids c) h (chain_tids c') h' ∧ clh_inv s' cur' c' h'.

Lemma clh_queued_iff : queued (clh_phase (cl_pc s t)) = true ↔ t ∈ chain_tids c.
Proof.
  eapply (chain_rel_queued _ _ _ clh_phase); [..|apply Hinv].
  - by intros ?? (?&?&_&_&[->| ->]).
  - by intros ?? (?&_&[(?&_&->)|[_ [->|[_ [->|[->| ->]]]]]]).
  - by intros ?? [->|[? ->]].
Qed.

Lemma clh_owns_iff :
  owns (clh_phase (cl_pc s t)) = true ↔ h = true ∧ head (chain_tids c) = Some t.
Proof.
  eapply (chain_rel_owns _ _ _ clh_phase); [..|apply Hinv].
  - by intros ?? (?&?&_&_&[->| ->]).
  - by intros ?? (?&_&[(?&_&->)|[_ [->|[_ [->|[->| ->]]]]]]).
  - by intros ?? [->|[? ->]].
Qed.

Lemma clh_not_queued : queued (clh_phase (cl_pc s t)) = false → t ∉ chain_tids c.
Proof. intros Hq Hin%clh_queued_iff. congruence. Qed.

(** A node of the chain is allocated, and clear only if it is the current one. *)
Lemma clh_chain_node p :
  Some p ∈ chain_ids cur c → ∃ b, cl_heap s !! p = Some (ClhNode b) ∧ (b = false → cur = Some p).
Proof.
  destruct Hinv as [_ _ _ [Hc Hm _]].
  intros [Hp|(e & He & Hin)%list_elem_of_fmap]%elem_of_cons; [by eauto|].
  exists true. split; [by eapply Hm|done].
Qed.

(** [malloc] and the store to the new node. *)
Lemma clh_sim_create p :
  cl_pc s t = ClIdle → cl_heap s !! p = None →
  sim (ClhState (<[p := ClhNode true]> (cl_heap s)) (cl_mutex s) (<[t := ClExch p]> (cl_pc s)) false).
Proof.
  intros Hpc Hp. destruct Hinv as [_ Hcr How [Hc Hm Hpr]].
  exists cur, c, h. split; [constructor|]. split; simpl; [done|..].
  - apply chain_rel_out; [done| |by right; eauto]. apply clh_not_queued. by rewrite Hpc.
  - rewrite dom_insert_L. apply owned_alloc; [done|by apply not_elem_of_dom|by rewrite Hpc|done].
  - split; intros *.
    + intros Hq%Hc. rewrite lookup_insert_ne; [done|congruence].
    + intros He Hq. specialize (Hm _ _ He Hq). rewrite lookup_insert_ne; [done|congruence].
    + same_tid t t0; intros Hq; simplify_eq/=; [by rewrite lookup_insert_eq|].
      specialize (Hpr _ _ Hq). rewrite lookup_insert_ne; [done|congruence].
Qed.

(** The exchange on [tail]. *)
Lemma clh_sim_exch p :
  cl_pc s t = ClExch p →
  sim (ClhState (cl_heap s) (ClhMutexT (cl_mynode (cl_mutex s)) p)
         (<[t := ClFirst p (cl_tail (cl_mutex s))]> (cl_pc s)) false).
Proof.
  intros Hpc. destruct Hinv as [_ Hcr How [Hc Hm Hpr]].
  assert (t ∉ chain_tids c) as Hn by (apply clh_not_queued; by rewrite Hpc).
  destruct (ow_priv _ _ _ _ How t p) as [_ Hfresh]; [by rewrite Hpc|].
  set (e := Entry t (Some (cl_tail (cl_mutex s))) (Some p)).
  exists cur, (c ++ [e]), h.
  unfold chain_tids at 2. rewrite map_app. split; [by constructor|]. split; simpl; [done|..].
  - apply chain_rel_arrive; [done..|]. exists p, (cl_tail (cl_mutex s)). auto.
  - apply (owned_publish _ _ (λ p, Some p ∈ chain_ids cur c)) with (p := p); [done|by rewrite Hpc|done|].
    intros q. unfold chain_ids. rewrite map_app. set_solver.
  - split; [done|..].
    + intros e' m [He|He%list_elem_of_singleton]%elem_of_app; [by eauto|].
      intros Hq. simplify_eq/=. apply (Hpr t). by rewrite Hpc.
    + intros t' q. same_tid t t'; [done|by eauto].
Qed.

(** A load of [prev->succ_must_wait]. *)
Lemma clh_sim_load m p :
  cl_pc s t = ClFirst m p ∨ cl_pc s t = ClSpin m p →
  ∃ b, cl_heap s !! p = Some (ClhNode b) ∧
  sim (ClhState (cl_heap s) (cl_mutex s)
         (<[t := if b then ClSpin m p else ClFree m p]> (cl_pc s)) false).
Proof.
  intros Hpc. destruct Hinv as [_ Hcr How [Hc Hm Hpr]].
  assert (clh_priv (cl_pc s t) = None) as Hnp by (by destruct Hpc as [->| ->]).
  assert (∃ e, e ∈ c ∧ en_tid e = t ∧ clh_W e (cl_pc s t) ∧ ¬ (h = true ∧ head c = Some e))
    as (e & He & Ht & HW & Hnh).
  { destruct Hpc as [Hpc|Hpc]; (eapply chain_rel_waiter; [done|pc_absurd Hpc..]). }
  assert (en_my e = Some m ∧ en_prev e = Some p) as [Hmy Hprev].
  { destruct HW as (m' & p' & ? & ? & HW), Hpc as [Hpc|Hpc], HW as [HW|HW];
      rewrite Hpc in HW; by simplify_eq. }
  destruct (clh_chain_node p) as (b & Hb & Hcur).
  { rewrite <-Hprev. eapply chain_prev_in; [apply Hcr|done]. }
  exists b. split; [done|].
  assert (∀ pc, clh_priv pc = None →
    owned clh_priv (dom (cl_heap s)) (λ p, Some p ∈ chain_ids cur c) (<[t:=pc]> (cl_pc s)) ∧
    clh_values (cl_heap s) cur c (<[t:=pc]> (cl_pc s))) as Hrest.
  { intros pc Hpc'. split; [by apply (owned_keep _ _ _ _ _ _ _ How); [by rewrite Hnp|]|].
    split; [done..|]. intros t' q. same_tid t t'; [congruence|eauto]. }
  subst t. destruct b.
  - exists cur, c, h. split; [constructor|]. split; simpl; [done| |by apply Hrest..].
    apply chain_rel_wait; [done..|]. exists m, p. auto.
  - destruct (chain_rel_admit _ _ _ _ _ _ _ _ e (ClFree m p) Hcr) as (-> & [c' ->] & Hcr');
      [done|by rewrite Hprev, Hcur|done|by exists m; eauto|].
    exists cur, (e :: c'), true. split; [constructor|]. split; simpl; [done..|by apply Hrest|by apply Hrest].
Qed.

(** The owner of the lock and its node. *)
Lemma clh_owner :
  owns (clh_phase (cl_pc s t)) = true →
  ∃ e c', c = e :: c' ∧ h = true ∧ en_tid e = t ∧ en_prev e = cur ∧
    clh_O (cl_mynode (cl_mutex s)) e (cl_pc s t) ∧ clh_priv (cl_pc s t) = None.
Proof.
  intros Ho. destruct Hinv as [_ Hcr _ _].
  destruct (cl_pc s t) as [| | | | | | | |] eqn:Hpc; try done;
    (destruct (chain_rel_owner _ _ _ _ _ _ _ _ _ Hcr ltac:(pc_absurd Hpc) ltac:(pc_absurd Hpc))
      as (e & c' & ? & ? & ? & ? & HO); rewrite Hpc in HO; by exists e, c').
Qed.

(** [free(prev)]. *)
Lemma clh_sim_free m p :
  cl_pc s t = ClFree m p →
  (∃ v, cl_heap s !! p = Some v) ∧
  sim (ClhState (delete p (cl_heap s)) (cl_mutex s) (<[t := ClSet m]> (cl_pc s)) false).
Proof.
  intros Hpc. destruct clh_owner as (e & c' & -> & -> & <- & Hp & HO & Hnp); [by rewrite Hpc|].
  destruct Hinv as [_ Hcr How [Hc Hm Hpr]]. rewrite Hpc in HO.
  destruct HO as (m' & Hmy & [(? & Hprev & [= <- <-])|[_ [?|[_ [?|[?|?]]]]]]); [|done..].
  rewrite Hp in Hprev. rewrite Hprev in *. split; [by eauto|].
  assert (Some p ∉ map en_my (e :: c')) as Hfresh by apply NoDup_cons, Hcr.
  exists None, (Entry (en_tid e) None (en_my e) :: c'), true.
  split; [constructor|]. split; simpl; [done|..].
  - eapply chain_rel_recur; [done|simpl in *; rewrite Hmy in *|].
    + intros [?|(e' & He' & Hin)%list_elem_of_fmap]%elem_of_cons; [done|].
      destruct (cr_pos _ _ _ _ _ _ _ _ Hcr) as [_ HW]. destruct (HW e' Hin) as (?&?&?&_). congruence.
    + exists m. auto 10.
  - rewrite dom_delete_L. eapply owned_drop; [done|by left|by rewrite Hnp|].
    intros q. unfold chain_ids. simpl in *. set_solver.
  - split; [done|..].
    + intros e' q He' Hq. rewrite lookup_delete_ne; [apply elem_of_cons in He' as [->|He']|].
      * by apply (Hm e); [left|].
      * by apply (Hm e'); [right|].
      * intros <-. apply Hfresh. apply elem_of_cons in He' as [->|He']; simpl in *.
        -- rewrite <-Hq. by left.
        -- rewrite <-Hq. right. by apply list_elem_of_fmap_2.
    + intros t' q. same_tid (en_tid e) t'; [done|]. intros Hq.
      destruct (ow_priv _ _ _ _ How t' q Hq) as [_ Hnq].
      rewrite lookup_delete_ne; [by eauto|]. intros <-. apply Hnq. by left.
Qed.

(** The owner moves on without touching the heap. *)
Lemma clh_sim_own m' pc e c' :
  c = e :: c' → h = true → en_tid e = t → clh_priv (cl_pc s t) = None → clh_priv pc = None →
  cl_tail m' = cl_tail (cl_mutex s) → clh_O (cl_mynode m') e pc →
  sim (ClhState (cl_heap s) m' (<[t := pc]> (cl_pc s)) false).
Proof.
  intros -> -> <- Hnp Hpc Htl HO. destruct Hinv as [_ Hcr How [Hc Hm Hpr]].
  exists cur, (e :: c'), true. split; [constructor|]. split; simpl; [done|..].
  - rewrite Htl. eapply chain_rel_own; [done|]. done.
  - apply (owned_keep _ _ _ _ _ _ _ How); [by rewrite Hnp|done].
  - split; [done..|]. intros t' q. same_tid (en_tid e) t'; [congruence|eauto].
Qed.

(** The store that releases the lock. *)
Lemma clh_sim_store m :
  cl_pc s t = ClStore m →
  (∃ v, cl_heap s !! m = Some v) ∧
  sim (ClhState (<[m := ClhNode false]> (cl_heap s)) (cl_mutex s) (<[t := ClIdle]> (cl_pc s)) false).
Proof.
  intros Hpc. destruct clh_owner as (e & c' & -> & -> & <- & Hp & HO & Hnp); [by rewrite Hpc|].
  destruct Hinv as [_ Hcr How [Hc Hm Hpr]]. rewrite Hpc in HO.
  destruct HO as (m' & Hmy & [(? & _ & ?)|[Hnone [?|[_ [?|[?|[= <-]]]]]]]); [done..|].
  rewrite Hp in Hnone. subst cur. assert (cl_heap s !! m = Some (ClhNode true)) as Hlk by (by apply (Hm e); [left|]).
  split; [by eauto|]. exists (en_my e), c', false. split; [constructor|].
  split; simpl; [done|..].
  - eapply chain_rel_leave; [done|by left|done].
  - rewrite dom_insert_lookup_L by eauto. apply (owned_keep _ _ _ _ _ _ _ How); [by rewrite Hnp|].
    intros q. unfold chain_ids. simpl. rewrite Hnone. set_solver.
  - split.
    + intros p Hp. rewrite Hmy in Hp. simplify_eq. by rewrite lookup_insert_eq.
    + intros e' q He' Hq. rewrite lookup_insert_ne; [by apply (Hm e'); [right|]|].
      intros ->. pose proof (cr_ids _ _ _ _ _ _ _ _ Hcr) as [_ [Hn _]%NoDup_cons]%NoDup_cons.
      apply Hn. rewrite Hmy, <-Hq. by apply list_elem_of_fmap_2.
    + intros t' q. same_tid (en_tid e) t'; [done|]. intros Hq.
      destruct (ow_priv _ _ _ _ How t' q Hq) as [_ Hnq].
      rewrite lookup_insert_ne; [by eauto|]. intros <-. apply Hnq. unfold chain_ids. simpl. set_solver.
Qed.
End clh_proofs.

(** Where the owner stands, and what [self->mynode] then holds. *)
Lemma clh_owner_step t new_node s cur c h :
  clh_inv s cur c h → owns (clh_phase (cl_pc s t)) = true →
  ∃ s' cur' c' h', clh_step t new_node s = Some s' ∧
    qlock_step t (chain_tids c) h (chain_tids c') h' ∧ clh_inv s' cur' c' h' ∧
    S (clh_rank (cl_pc s' t)) = clh_rank (cl_pc s t).
Proof.
  intros Hinv Ho.
  destruct (clh_owner _ _ _ _ t Hinv Ho) as (e & c' & Hc & Hh & Ht & Hp & HO & Hnp).
  unfold clh_step. rewrite (ci_fault _ _ _ _ Hinv).
  destruct HO as (m & Hmy & [(p & Hprev & Hpc)|[Hprev [Hpc|[Heq [Hpc|[Hpc|Hpc]]]]]]);
    rewrite Hpc; simpl.
  - destruct (clh_sim_free _ _ _ _ t Hinv m p) as ([v Hv] & Hsim); [done|]. rewrite Hv.
    destruct Hsim as (cur' & c1 & h' & ? & ?). do 4 eexists. split_and!; [done..|].
    simpl. by simpl_fn.
  - destruct (clh_sim_own _ _ _ _ t Hinv (ClhMutexT (Some m) (cl_tail (cl_mutex s))) ClHeld e c')
      as (cur' & c1 & h' & ? & ?); [done..|exists m; auto 10|].
    do 4 eexists. split_and!; [done..|]. simpl. by simpl_fn.
  - destruct (clh_sim_own _ _ _ _ t Hinv (cl_mutex s) ClChecked e c')
      as (cur' & c1 & h' & ? & ?); [done..|exists m; auto 10|].
    rewrite Heq. do 4 eexists. split_and!; [done..|]. simpl. by simpl_fn.
  - destruct (clh_sim_own _ _ _ _ t Hinv (cl_mutex s) (ClStore m) e c')
      as (cur' & c1 & h' & ? & ?); [done..|exists m; auto 10|].
    rewrite Heq. do 4 eexists. split_and!; [done..|]. simpl. by simpl_fn.
  - destruct (clh_sim_store _ _ _ _ t Hinv m) as ([v Hv] & Hsim); [done|]. rewrite Hv.
    destruct Hsim as (cur' & c1 & h' & ? & ?). do 4 eexists. split_and!; [done..|].
    simpl. by simpl_fn.
Qed.

Lemma clh_sim t new_node s s' cur c h :
  clh_inv s cur c h → clh_step t new_node s = Some s' →
  ∃ cur' c' h', qlock_step t (chain_tids c) h (chain_tids c') h' ∧ clh_inv s' cur' c' h'.
Proof.
  intros Hinv Hstep. destruct (owns (clh_phase (cl_pc s t))) eqn:Ho.
  { destruct (clh_owner_step t new_node s cur c h Hinv Ho) as (s1 & cur' & c' & h' & Hs1 & ? & ? & _).
    rewrite Hs1 in Hstep. simplify_eq. eauto. }
  unfold clh_step in Hstep. rewrite (ci_fault _ _ _ _ Hinv) in Hstep.
  destruct (cl_pc s t) as [|p|m p|m p|m p|m| | |m] eqn:Hpc; try done; simpl in Hstep.
  - unfold clh_mutex_create_node in Hstep. destruct (_ !! new_node) eqn:Hlk; simplify_eq.
    by eapply clh_sim_create.
  - simplify_eq. by eapply clh_sim_exch.
  - destruct (clh_sim_load _ _ _ _ t Hinv m p) as (b & Hb & Hsim); [by auto|].
    rewrite Hb in Hstep. by destruct b; simplify_eq.
  - destruct (clh_sim_load _ _ _ _ t Hinv m p) as (b & Hb & Hsim); [by auto|].
    rewrite Hb in Hstep. by destruct b; simplify_eq.
Qed.

(** The owner, running alone, gets to any later point. *)
Lemma clh_owner_solo t s cur c h k :
  clh_inv s cur c h → owns (clh_phase (cl_pc s t)) = true ∨ clh_rank (cl_pc s t) = k →
  k ≤ clh_rank (cl_pc s t) →
  solo t s (λ s', clh_rank (cl_pc s' t) = k).
Proof.
  remember (clh_rank (cl_pc s t)) as r eqn:Hr. revert s cur c h Hr.
  induction r as [r IH] using lt_wf_ind. intros s cur c h Hr Hinv Ho Hle.
  destruct (decide (r = k)) as [->|Hne]; [by apply solo_done|].
  destruct Ho as [Ho|]; [|done]. assert (r < 6) by (by subst r; destruct (cl_pc s t); simpl in *; try lia).
  destruct (clh_owner_step t 1%positive s cur c h Hinv Ho) as (s' & cur' & c' & h' & Hs & _ & Hinv' & Hrk).
  eapply solo_step; [done|]. eapply IH; [|done|done| |lia]; [lia|].
  destruct (decide (clh_rank (cl_pc s' t) = k)) as [|Hk]; [by right|left].
  destruct (cl_pc s' t); simpl in *; try done; lia.
Qed.

Lemma clh_inv_start s : clh_init s → clh_inv s (Some (cl_tail (cl_mutex s))) [] false.
Proof.
  intros (node & h & m & Hi & ->). unfold clh_mutex_init, clh_mutex_create_node in Hi.
  rewrite lookup_empty in Hi. simplify_eq/=. split; simpl; [done|..].
  - split; simpl; try done; [apply NoDup_singleton|apply NoDup_nil_2|by left].
  - rewrite dom_insert_L, dom_empty_L. split; simpl; set_solver.
  - split; simpl; [|set_solver|done]. intros p [= <-]. by rewrite lookup_insert_eq.
Qed.

Lemma clh_enters s cur x c :
  clh_inv s cur (x :: c) false →
  solo (en_tid x) s (λ s', clh_phase (cl_pc s' (en_tid x)) = Holding).
Proof.
  intros Hinv. pose proof (ci_chain _ _ _ _ Hinv) as [[Hp _] _ _ [HW _] _].
  destruct HW as (m & p & _ & Hprev & Hpc).
  destruct (clh_sim_load _ _ _ _ (en_tid x) Hinv m p Hpc) as (b & Hb & cur' & c' & h' & _ & Hinv').
  assert (b = false) as ->.
  { rewrite Hp in Hprev. apply (cv_cur _ _ _ _ (ci_values _ _ _ _ Hinv)) in Hprev. congruence. }
  assert (clh_step (en_tid x) 1%positive s = Some (ClhState (cl_heap s) (cl_mutex s)
    (<[en_tid x := ClFree m p]> (cl_pc s)) false)) as Hs.
  { unfold clh_step. rewrite (ci_fault _ _ _ _ Hinv).
    destruct Hpc as [->| ->]; simpl; by rewrite Hb. }
  eapply solo_step; [done|].
  destruct (clh_owner_solo (en_tid x) _ _ _ _ 3 Hinv') as (ls & s' & Hrun & Hrk).
  - left. simpl. by simpl_fn.
  - simpl. simpl_fn. simpl. lia.
  - exists ls, s'. split; [done|]. by destruct (cl_pc s' (en_tid x)).
Qed.

#[export] Instance clh_queue_lock : QueueLock loc clh_state.
Proof.
  refine {| ql_rel s q h := ∃ cur c, q = chain_tids c ∧ clh_inv s cur c h |}.
  - intros s Hi. do 2 eexists. split; [|by apply clh_inv_start]. done.
  - intros t l s s' q h (cur & c & -> & Hinv) Hstep.
    destruct (clh_sim t l s s' cur c h Hinv Hstep) as (cur' & c' & h' & ? & ?). eauto 10.
  - intros s q h t (cur & c & -> & Hinv). by eapply clh_queued_iff.
  - intros s q h t (cur & c & -> & Hinv). by eapply clh_owns_iff.
  - by intros s t (? & ? & ? & _ & ->).
  - intros t t' l s s' Hstep Hne. simpl in *. unfold clh_step in Hstep.
    step_inv Hstep; simpl; by simpl_fn.
  - intros t l s s' Hstep. simpl in *. unfold clh_step in Hstep.
    destruct (cl_fault s); [done|].
    destruct (cl_pc s t) eqn:Hpc; simpl in Hstep; step_inv Hstep; simpl; simpl_fn; by rewrite ?Hpc.
  - intros s t q (cur & [|x c] & Heq & Hinv); [done|injection Heq as -> ->].
    by eapply clh_enters.
  - intros s q h t (cur & c & -> & Hinv) Ho.
    destruct (clh_owner_solo t s cur c h 0 Hinv) as (ls & s' & Hrun & Hrk); [by left|lia|].
    exists ls, s'. split; [done|]. simpl. by destruct (cl_pc s' t).
Defined.

Lemma clh_reachable_inv s : reachable s → ∃ cur c h, clh_inv s cur c h.
Proof.
  intros Hr. destruct (qlock_reachable s Hr) as (q & h & (cur & c & _ & Hinv) & _). eauto.
Qed.

(** ** Theorems *)

(** The CLH lock never touches freed memory and never frees twice, and it
    does not leak: when no thread is in the lock exactly one node is left, the
    one that [clh_mutex_destroy] frees. *)
Lemma clh_memory_safe (s : clh_state) :
  reachable s → cl_fault s = false ∧
  ((∀ t, cl_pc s t = ClIdle) →
   dom (cl_heap s) = {[cl_tail (cl_mutex s)]} ∧
   clh_mutex_destroy (cl_heap s) (cl_mutex s) = Done ∅).
Proof.
  intros (cur & c & h & Hinv)%clh_reachable_inv. destruct Hinv as [Hf Hcr How Hv].
  split; [done|]. intros Hidle.
  assert (c = []) as ->.
  { destruct c as [|e c]; [done|]. destruct Hcr as [_ _ _ [Hpos _] _].
    rewrite Hidle in Hpos. destruct h; unfold clh_O, clh_W in Hpos; naive_solver. }
  assert (dom (cl_heap s) = {[cl_tail (cl_mutex s)]}) as Hdom.
  { pose proof (cr_chain _ _ _ _ _ _ _ _ Hcr) as Hl. simpl in Hl.
    apply set_eq. intros p. rewrite elem_of_singleton. split.
    - intros [Hin%list_elem_of_singleton|[t Ht]]%(ow_all _ _ _ _ How); [congruence|].
      by rewrite Hidle in Ht.
    - intros ->. apply (ow_shared _ _ _ _ How). rewrite Hl. by left. }
  split; [done|]. unfold clh_mutex_destroy.
  destruct (cl_heap s !! cl_tail (cl_mutex s)) eqn:Hlk.
  - f_equal. apply dom_empty_inv_L. rewrite dom_delete_L, Hdom. set_solver.
  - apply not_elem_of_dom in Hlk. rewrite Hdom in Hlk. set_solver.
Qed.

(** C15: the CLH lock is a correct queue lock: it excludes, it admits threads in
    the order of their exchanges on [tail], and when it is free a waiting
    thread can take it.  This holds although node addresses are reused.  It
    never touches freed memory and never frees twice, and it does not leak:
    when no thread is in the lock exactly one node is left, which
    [clh_mutex_destroy] frees. *)
Theorem clh_correct :
  (lock_exclusive clh_mutex ∧ lock_fifo clh_mutex ∧ lock_progress clh_mutex) ∧
  ∀ s, reachable s → cl_fault s = false ∧
    ((∀ t, cl_pc s t = ClIdle) → clh_mutex_destroy (cl_heap s) (cl_mutex s) = Done ∅).
Proof.
  split; [apply qlock_correct|]. intros s [Hf Hidle]%clh_memory_safe. split; [done|]. intros Ht. by apply Hidle.
Qed.

Definition clh_example_start : clh_state :=
  ClhState {[1%positive := ClhNode false]} (ClhMutexT (Some 1%positive) 1%positive) (λ _, ClIdle) false.

(** Thread 1 allocates the very address thread 0 has just freed. *)
Definition clh_example_run : option clh_state :=
  run (replicate 4 (0, 2%positive) ++ replicate 2 (1, 1%positive) ++ replicate 4 (0, 9%positive) ++
       replicate 6 (1, 9%positive)) clh_example_start.

Example clh_memory_safe_run :
  ∃ s, clh_example_run = Some s ∧ (∀ t, cl_pc s t = ClIdle) ∧
    dom (cl_heap s) = {[cl_tail (cl_mutex s)]}.
Proof.
  eexists. split; [vm_compute; reflexivity|].
  match goal with |- (∀ t, cl_pc ?s t = _) ∧ _ =>
    assert (∀ t, cl_pc s t = ClIdle) as Hidle;
      [intros [|[|t]]; reflexivity|split; [exact Hidle|]];
    refine (proj1 (proj2 (clh_memory_safe s _) Hidle));
    apply (run_reachable (replicate 4 (0, 2%positive) ++ replicate 2 (1, 1%positive) ++
      replicate 4 (0, 9%positive) ++ replicate 6 (1, 9%positive)) clh_example_start)
  end.
  - apply reachable_init. do 3 eexists. split; [|reflexivity]. reflexivity.
  - vm_compute. reflexivity.
Defined.
