(* ===== verification/RwLock.v ===== *)
(** * The reader-writer CLH lock

    [ConcurrencyFreaks/C11/locks/clh_rwlock.c].  Readers and writers queue up
    in one chain of nodes, as in the CLH lock.  A reader at the head counts itself in
    [readers_counter] and lets the next thread come to the head at once; a writer at the head
    waits until the counter is zero and keeps the next thread waiting until it
    unlocks.  Memory is explicit as in [ClhMutex]: [malloc] returns any address
    that is not allocated, and a step that touches memory which is not
    allocated sets [rw_fault]. *)

From S2P Require Import Prelude Lts Mutex Nodes Chain.

(** ** Data *)

Record clh_rwlock_node_t := RwNode { rw_succ_must_wait : bool }.

Abbreviation rw_heap_t := (gmap loc clh_rwlock_node_t).

Record clh_rwlock_t := ClhRwlockT {
  rw_mynode : ptr;
  rw_tail : loc;
  rw_readers_counter : Z;
}.

Inductive rw_mode := Read | Write.

(** Program points, with the local variables that are alive. *)
Inductive rw_pc :=
  | RwIdle
  | RwExch (mode : rw_mode) (mynode : loc)        (** node created, about to exchange [tail] *)
  | RwFirst (mode : rw_mode) (mynode prev : loc)  (** the relaxed load before the loop *)
  | RwSpin (mode : rw_mode) (mynode prev : loc)   (** the loop *)
  | RdCount (mynode prev : loc)                   (** [readlock], about to increment [readers_counter] *)
  | RdClear (mynode prev : loc)                   (** about to clear [mynode->succ_must_wait] *)
  | RdFree (prev : loc)                           (** about to free [prev] *)
  | RdHeld
  | WrFirst (mynode prev : loc)                   (** [writelock], the relaxed load of [readers_counter] *)
  | WrSpin (mynode prev : loc)                    (** the loop on [readers_counter] *)
  | WrSet (mynode prev : loc)                     (** about to store [self->mynode] *)
  | WrFree (prev : loc)                           (** about to free [prev] *)
  | WrHeld
  | WrStore (node : loc)                          (** [writeunlock], about to clear [succ_must_wait] *).

(** ** Operations *)

(** [new_node] is the address [malloc] returns. *)
Definition clh_rwlock_create_node (new_node : loc) (h : rw_heap_t) (succ_must_wait : bool) : option rw_heap_t :=
  match h !! new_node with
  | Some _ => None
  | None => Some (<[new_node := RwNode succ_must_wait]> h)
  end.

Definition clh_rwlockx_init (new_node : loc) (h : rw_heap_t) : option (rw_heap_t * clh_rwlock_t) :=
  h' ← clh_rwlock_create_node new_node h false; Some (h', ClhRwlockT (Some new_node) new_node 0).

Definition clh_rwlock_destroy (h : rw_heap_t) (self : clh_rwlock_t) : res (rw_heap_t * clh_rwlock_t) :=
  match h !! rw_tail self with
  | Some _ => Done (delete (rw_tail self) h, ClhRwlockT (rw_mynode self) (rw_tail self) 0)
  | None => Fault
  end.

Definition clh_rwlock_readlock (new_node : loc) (h : rw_heap_t) (self : clh_rwlock_t) (pc : rw_pc)
    : option (res (rw_heap_t * clh_rwlock_t * rw_pc)) :=
  match pc with
  | RwIdle => h' ← clh_rwlock_create_node new_node h true; Some (Done (h', self, RwExch Read new_node))
  | RwExch Read mynode =>
      (* prev = atomic_exchange(&self->tail, mynode) *)
      Some (Done (h, ClhRwlockT (rw_mynode self) mynode (rw_readers_counter self), RwFirst Read mynode (rw_tail self)))
  | RwFirst Read mynode prev | RwSpin Read mynode prev =>
      (* prev_islocked = atomic_load(&prev->succ_must_wait) *)
      Some match h !! prev with
           | Some (RwNode b) => Done (h, self, if b then RwSpin Read mynode prev else RdCount mynode prev)
           | None => Fault
           end
  | RdCount mynode prev =>
      (* atomic_fetch_add(&self->readers_counter, 1) *)
      Some (Done (h, ClhRwlockT (rw_mynode self) (rw_tail self) (s64 (rw_readers_counter self + 1)), RdClear mynode prev))
  | RdClear mynode prev =>
      (* atomic_store(&mynode->succ_must_wait, 0) *)
      Some match h !! mynode with
           | Some _ => Done (<[mynode := RwNode false]> h, self, RdFree prev)
           | None => Fault
           end
  | RdFree prev =>
      (* free(prev) *)
      Some match h !! prev with
           | Some _ => Done (delete prev h, self, RdHeld)
           | None => Fault
           end
  | _ => None
  end.

(** The call returns whatever [prev_counter] is. *)
Definition clh_rwlock_readunlock (self : clh_rwlock_t) (pc : rw_pc) : option (clh_rwlock_t * rw_pc) :=
  match pc with
  | RdHeld => Some (ClhRwlockT (rw_mynode self) (rw_tail self) (s64 (rw_readers_counter self - 1)), RwIdle)
  | _ => None
  end.

Definition clh_rwlock_writelock (new_node : loc) (h : rw_heap_t) (self : clh_rwlock_t) (pc : rw_pc)
    : option (res (rw_heap_t * clh_rwlock_t * rw_pc)) :=
  match pc with
  | RwIdle => h' ← clh_rwlock_create_node new_node h true; Some (Done (h', self, RwExch Write new_node))
  | RwExch Write mynode =>
      Some (Done (h, ClhRwlockT (rw_mynode self) mynode (rw_readers_counter self), RwFirst Write mynode (rw_tail self)))
  | RwFirst Write mynode prev | RwSpin Write mynode prev =>
      Some match h !! prev with
           | Some (RwNode b) => Done (h, self, if b then RwSpin Write mynode prev else WrFirst mynode prev)
           | None => Fault
           end
  | WrFirst mynode prev | WrSpin mynode prev =>
      (* readers_counter = atomic_load(&self->readers_counter) *)
      Some (Done (h, self, if bool_decide (rw_readers_counter self = 0%Z) then WrSet mynode prev else WrSpin mynode prev))
  | WrSet mynode prev =>
      (* self->mynode = mynode *)
      Some (Done (h, ClhRwlockT (Some mynode) (rw_tail self) (rw_readers_counter self), WrFree prev))
  | WrFree prev =>
      (* free(prev) *)
      Some match h !! prev with
           | Some _ => Done (delete prev h, self, WrHeld)
           | None => Fault
           end
  | _ => None
  end.

Definition clh_rwlock_writeunlock (h : rw_heap_t) (self : clh_rwlock_t) (pc : rw_pc)
    : option (res (rw_heap_t * clh_rwlock_t * rw_pc)) :=
  match pc with
  | WrHeld =>
      Some match rw_mynode self with
           | Some node => Done (h, self, WrStore node)
           | None => Fault
           end
  | WrStore node =>
      (* atomic_store(&self->mynode->succ_must_wait, 0) *)
      Some match h !! node with
           | Some _ => Done (<[node := RwNode false]> h, self, RwIdle)
           | None => Fault
           end
  | _ => None
  end.

(** ** The lock as a transition system *)

Record rw_state := RwState {
  rw_heap : rw_heap_t;
  rw_lock : clh_rwlock_t;
  rw_pcs : tid → rw_pc;
  rw_fault : bool;
}.

(** The function a thread is in; an idle thread calls that of its [mode]. *)
Definition rw_thread (mode : rw_mode) (new_node : loc) (h : rw_heap_t) (self : clh_rwlock_t) (pc : rw_pc)
    : option (res (rw_heap_t * clh_rwlock_t * rw_pc)) :=
  match pc with
  | RwIdle => match mode with
              | Read => clh_rwlock_readlock new_node h self pc
              | Write => clh_rwlock_writelock new_node h self pc
              end
  | RwExch Read _ | RwFirst Read _ _ | RwSpin Read _ _ | RdCount _ _ | RdClear _ _ | RdFree _ =>
      clh_rwlock_readlock new_node h self pc
  | RdHeld => '(self', pc') ← clh_rwlock_readunlock self pc; Some (Done (h, self', pc'))
  | WrHeld | WrStore _ => clh_rwlock_writeunlock h self pc
  | _ => clh_rwlock_writelock new_node h self pc
  end.

(** A fault leaves the memory undefined: nothing happens afterwards. *)
Definition rw_step (nthreads : nat) (t : tid) (l : rw_mode * loc) (s : rw_state) : option rw_state :=
  if rw_fault s || negb (bool_decide (t < nthreads)) then None else
  match rw_thread l.1 l.2 (rw_heap s) (rw_lock s) (rw_pcs s t) with
  | Some (Done (h, m, pc)) => Some (RwState h m (<[t := pc]> (rw_pcs s)) false)
  | Some Fault => Some (RwState (rw_heap s) (rw_lock s) (rw_pcs s) true)
  | None => None
  end.

Definition rw_init (s : rw_state) : Prop :=
  ∃ node h m, clh_rwlockx_init node ∅ = Some (h, m) ∧ s = RwState h m (λ _, RwIdle) false.

Definition clh_rwlock (nthreads : nat) : Lts (tid * (rw_mode * loc)) rw_state := {|
  lts_init := rw_init;
  lts_step := λ '(t, l) s, rw_step nthreads t l s;
|}.

(** ** What a reader-writer lock is

    Threads queue up; the head of the queue may join the readers when nobody
    writes and may write when nobody reads or writes. *)

Record rw_abs := RwAbs {
  ra_queue : list (tid * rw_mode);
  ra_readers : gset tid;
  ra_writer : option tid;
}.

Inductive rw_spec (t : tid) : rw_abs → rw_abs → Prop :=
  | rs_stutter a : rw_spec t a a
  | rs_arrive q R w m :
      (∀ m', (t, m') ∉ q) → t ∉ R → w ≠ Some t → rw_spec t (RwAbs q R w) (RwAbs (q ++ [(t, m)]) R w)
  | rs_read q R : t ∉ R → rw_spec t (RwAbs ((t, Read) :: q) R None) (RwAbs q ({[t]} ∪ R) None)
  | rs_write q : rw_spec t (RwAbs ((t, Write) :: q) ∅ None) (RwAbs q ∅ (Some t))
  | rs_readunlock q R w : t ∈ R → rw_spec t (RwAbs q R w) (RwAbs q (R ∖ {[t]}) w)
  | rs_writeunlock q R : rw_spec t (RwAbs q R (Some t)) (RwAbs q R None).

Definition rw_empty : rw_abs := RwAbs [] ∅ None.

(** What a client sees of a thread. *)
Inductive rw_view := VOut | VWait (mode : rw_mode) | VRead | VWrite.

Definition rw_view_of (pc : rw_pc) : rw_view :=
  match pc with
  | RwIdle | RwExch _ _ => VOut
  | RwFirst m _ _ | RwSpin m _ _ => VWait m
  | RdCount _ _ => VWait Read
  | WrFirst _ _ | WrSpin _ _ => VWait Write
  | RdClear _ _ | RdFree _ | RdHeld => VRead
  | WrSet _ _ | WrFree _ | WrHeld | WrStore _ => VWrite
  end.

Definition rw_agrees (a : rw_abs) (pcs : tid → rw_pc) : Prop :=
  ∀ t, match rw_view_of (pcs t) with
       | VOut => (∀ m, (t, m) ∉ ra_queue a) ∧ t ∉ ra_readers a ∧ ra_writer a ≠ Some t
       | VWait m => (t, m) ∈ ra_queue a ∧ t ∉ ra_readers a ∧ ra_writer a ≠ Some t
       | VRead => t ∈ ra_readers a ∧ ra_writer a = None
       | VWrite => ra_writer a = Some t ∧ ra_readers a = ∅
       end.

(** ** Events of a schedule

    A thread queues up when it exchanges [tail], and is admitted when it counts itself as a
    reader, or as a writer finds the counter at zero. *)

Inductive rw_event := RwQueued (t : tid) (mode : rw_mode) | RwAdmitted (t : tid) (mode : rw_mode).

Definition rw_step_events (t : tid) (v v' : rw_view) : list rw_event :=
  match v, v' with
  | VOut, VWait m => [RwQueued t m]
  | VOut, VRead | VWait _, VRead => [RwAdmitted t Read]
  | VOut, VWrite | VWait _, VWrite => [RwAdmitted t Write]
  | _, _ => []
  end.

Fixpoint rw_trace (n : nat) (ls : list (tid * (rw_mode * loc))) (s : rw_state) : list rw_event :=
  match ls with
  | [] => []
  | (t, l) :: ls =>
      match rw_step n t l s with
      | Some s' => rw_step_events t (rw_view_of (rw_pcs s t)) (rw_view_of (rw_pcs s' t)) ++ rw_trace n ls s'
      | None => []
      end
  end.

Definition rw_arrivals (es : list rw_event) : list (tid * rw_mode) :=
  omap (λ e, match e with RwQueued t m => Some (t, m) | _ => None end) es.

Definition rw_entries (es : list rw_event) : list (tid * rw_mode) :=
  omap (λ e, match e with RwAdmitted t m => Some (t, m) | _ => None end) es.

(** ** Invariant *)

(** A thread that waits for the node of its predecessor, the thread at the head
    whose turn it is, and a thread outside the chain. *)
Definition rw_W (e : entry ptr) (pc : rw_pc) : Prop :=
  ∃ mode m p, en_my e = Some m ∧ en_prev e = Some p ∧ (pc = RwFirst mode m p ∨ pc = RwSpin mode m p).

Definition rw_O (mynode : ptr) (e : entry ptr) (pc : rw_pc) : Prop :=
  ∃ m, en_my e = Some m ∧
    ((∃ p, en_prev e = Some p ∧
        (pc = RdCount m p ∨ pc = RdClear m p ∨ pc = WrFirst m p ∨ pc = WrSpin m p ∨ pc = WrSet m p ∨
         mynode = Some m ∧ pc = WrFree p)) ∨
     (en_prev e = None ∧ mynode = Some m ∧ (pc = WrHeld ∨ pc = WrStore m))).

Definition rw_N (t : tid) (pc : rw_pc) : Prop :=
  pc = RwIdle ∨ (∃ mode p, pc = RwExch mode p) ∨ (∃ p, pc = RdFree p) ∨ pc = RdHeld.

(** The node that only its creator knows, or only who is about to free it. *)
Definition rw_priv (pc : rw_pc) : ptr :=
  match pc with RwExch _ p | RdFree p => Some p | _ => None end.

Record rw_values (h : rw_heap_t) (cur : ptr) (c : list (entry ptr)) (pcs : tid → rw_pc) : Prop := {
  rv_cur p : cur = Some p → h !! p = Some (RwNode false);
  rv_my e m : e ∈ c → en_my e = Some m → h !! m = Some (RwNode true);
  rv_new t mode p : pcs t = RwExch mode p → h !! p = Some (RwNode true);
}.

(** The chain of nodes. *)
Record rw_gate (s : rw_state) (cur : ptr) (c : list (entry ptr)) (h : bool) : Prop := {
  rg_fault : rw_fault s = false;
  rg_chain : chain_rel rw_W (rw_O (rw_mynode (rw_lock s))) rw_N cur (Some (rw_tail (rw_lock s))) (rw_pcs s) c h;
  rg_owned : owned rw_priv (dom (rw_heap s)) (λ p, Some p ∈ chain_ids cur c) (rw_pcs s);
  rg_values : rw_values (rw_heap s) cur c (rw_pcs s);
}.

Definition waits (pcs : tid → rw_pc) (t : tid) : option (tid * rw_mode) :=
  match rw_view_of (pcs t) with VWait m => Some (t, m) | _ => None end.

(** The counter, and how the threads of the chain stand in the specification. *)
Record rw_account (n : nat) (a : rw_abs) (pcs : tid → rw_pc) (tids : list tid) (counter : Z) : Prop := {
  ra_order : ra_queue a = omap (waits pcs) tids;
  ra_in_readers t : t ∈ ra_readers a ↔ rw_view_of (pcs t) = VRead;
  ra_is_writer t : ra_writer a = Some t ↔ rw_view_of (pcs t) = VWrite;
  ra_counter : counter = size (ra_readers a);
  ra_bound t : t ∈ ra_readers a → t < n;
  ra_alone : ra_writer a ≠ None → ra_readers a = ∅;
  (** Whoever waits or writes is in the chain. *)
  ra_chain t : (∃ m, rw_view_of (pcs t) = VWait m) ∨ rw_view_of (pcs t) = VWrite → t ∈ tids;
}.

Lemma rw_account_agrees n a pcs tids counter : NoDup tids → rw_account n a pcs tids counter → rw_agrees a pcs.
Proof.
  intros Hnd [Hq HR Hw _ _ Hal Hc] t. specialize (HR t). specialize (Hw t). specialize (Hc t).
  assert (∀ m, (t, m) ∈ ra_queue a ↔ t ∈ tids ∧ rw_view_of (pcs t) = VWait m) as Hin.
  { intros m. rewrite Hq, list_elem_of_omap. unfold waits. split.
    - intros (u & Hu & Hv). case_match; simplify_eq. naive_solver.
    - intros [? Hv]. exists t. by rewrite Hv. }
  destruct (rw_view_of (pcs t)) eqn:Hv; [naive_solver|naive_solver| |].
  - split; [by apply HR|]. destruct (ra_writer a); [|done]. specialize (Hal ltac:(done)). rewrite Hal in HR. set_solver.
  - split; [by apply Hw|]. apply Hal. by rewrite (proj2 Hw eq_refl).
Qed.

Lemma waits_ext pcs pcs' (tids : list tid) :
  (∀ u, u ∈ tids → rw_view_of (pcs' u) = rw_view_of (pcs u)) → omap (waits pcs') tids = omap (waits pcs) tids.
Proof.
  intros Heq. induction tids as [|u l IH]; [done|]. csimpl. rewrite IH by (intros v Hv; apply Heq; by right).
  unfold waits. by rewrite Heq by left.
Qed.

Lemma waits_frame pcs (tids : list tid) t pc : t ∉ tids → omap (waits (<[t := pc]> pcs)) tids = omap (waits pcs) tids.
Proof. intros Hn. apply waits_ext. intros u Hu. by rewrite fn_lookup_insert_ne by (intros <-; done). Qed.

Section account.
Context (n : nat) (a : rw_abs) (pcs : tid → rw_pc) (tids : list tid) (counter : Z).
Hypothesis Hac : rw_account n a pcs tids counter.
Context (t : tid) (pc : rw_pc).

Lemma rw_account_keep : rw_view_of pc = rw_view_of (pcs t) → rw_account n a (<[t := pc]> pcs) tids counter.
Proof.
  intros Hv. assert (∀ u, rw_view_of ((<[t := pc]> pcs) u) = rw_view_of (pcs u)) as Hsame by (intros u; by same_tid t u).
  destruct Hac. split; try done.
  - rewrite ra_order0. symmetry. by apply waits_ext.
  - intros u. by rewrite Hsame.
  - intros u. by rewrite Hsame.
  - intros u. rewrite Hsame. auto.
Qed.

Lemma rw_account_arrive m :
  rw_view_of (pcs t) = VOut → rw_view_of pc = VWait m → t ∉ tids →
  ∃ a', rw_spec t a a' ∧ rw_account n a' (<[t := pc]> pcs) (tids ++ [t]) counter.
Proof.
  intros Hout Hpc Hn. destruct Hac. destruct a as [q R w]. simpl in *.
  exists (RwAbs (q ++ [(t, m)]) R w). split.
  - apply rs_arrive.
    + intros m'. rewrite ra_order0, list_elem_of_omap. intros (u & Hu & Hv). unfold waits in Hv. case_match; simplify_eq. congruence.
    + rewrite ra_in_readers0. congruence.
    + rewrite ra_is_writer0. congruence.
  - split; simpl; try done.
    + rewrite omap_app, waits_frame by done. simpl. unfold waits at 2. rewrite fn_lookup_insert, Hpc. by f_equal.
    + intros u. same_tid t u; [|done]. rewrite ra_in_readers0. split; congruence.
    + intros u. same_tid t u; [|done]. rewrite ra_is_writer0. split; congruence.
    + intros u. rewrite elem_of_app. same_tid t u; [set_solver|]. auto.
Qed.

Hypothesis n_small : (Z.of_nat n < 2 ^ 63)%Z.

(** The counter does not overflow. *)
Lemma rw_counter_bound : (0 ≤ counter ≤ n)%Z ∧ (t ∉ ra_readers a → t < n → (counter < n)%Z).
Proof.
  destruct Hac. subst counter. split.
  - assert (size (ra_readers a) ≤ size (set_seq 0 n : gset nat)) as Hle.
    { apply subseteq_size. intros u Hu%ra_bound0. apply elem_of_set_seq. lia. }
    rewrite size_set_seq in Hle. lia.
  - intros Hn Ht. assert (size ({[t]} ∪ ra_readers a) ≤ size (set_seq 0 n : gset nat)) as Hle.
    { apply subseteq_size. intros u [->%elem_of_singleton|Hu%ra_bound0]%elem_of_union; apply elem_of_set_seq; lia. }
    rewrite size_set_seq, size_union, size_singleton in Hle by set_solver. lia.
Qed.

Lemma s64_counter z : (-1 ≤ z ≤ n)%Z → s64 z = z.
Proof. intros Hz. apply wrap_s_small; lia. Qed.

(** The head of the chain joins the readers. *)
Lemma rw_account_read l :
  tids = t :: l → NoDup tids → t < n → rw_view_of (pcs t) = VWait Read → rw_view_of pc = VRead → ra_writer a = None →
  ∃ a', rw_spec t a a' ∧ rw_account n a' (<[t := pc]> pcs) tids (s64 (counter + 1)).
Proof.
  intros Ht Hnd Hlt Hv Hpc Hw. rewrite Ht in Hnd. apply NoDup_cons in Hnd as [Hn Hnd]. pose proof rw_counter_bound as [Hb Hb'].
  destruct Hac. assert (t ∉ ra_readers a) as HR by (rewrite ra_in_readers0; congruence).
  rewrite s64_counter by (specialize (Hb' HR Hlt); lia). subst tids. destruct a as [q R w]. simpl in *. subst w.
  exists (RwAbs (omap (waits pcs) l) ({[t]} ∪ R) None). split.
  - rewrite ra_order0. unfold waits at 1. rewrite Hv. by apply rs_read.
  - split; simpl; try done.
    + unfold waits at 2. rewrite fn_lookup_insert, Hpc. by rewrite waits_frame.
    + intros u. same_tid t u; [set_solver|]. rewrite <-ra_in_readers0. set_solver.
    + intros u. same_tid t u; [split; congruence|]. apply ra_is_writer0.
    + rewrite size_union, size_singleton by set_solver. lia.
    + intros u [->%elem_of_singleton|?]%elem_of_union; auto.
    + intros u. same_tid t u; [intros _; by left|auto].
Qed.

(** The head of the chain writes. *)
Lemma rw_account_write l :
  tids = t :: l → NoDup tids → rw_view_of (pcs t) = VWait Write → rw_view_of pc = VWrite → ra_writer a = None → counter = 0%Z →
  ∃ a', rw_spec t a a' ∧ rw_account n a' (<[t := pc]> pcs) tids counter.
Proof.
  intros Ht Hnd Hv Hpc Hw H0. rewrite Ht in Hnd. apply NoDup_cons in Hnd as [Hn Hnd].
  destruct Hac. assert (ra_readers a = ∅) as HR by (apply leibniz_equiv, size_empty_inv; lia). subst tids.
  destruct a as [q R w]. simpl in *. subst w R.
  exists (RwAbs (omap (waits pcs) l) ∅ (Some t)). split.
  - rewrite ra_order0. unfold waits at 1. rewrite Hv. apply rs_write.
  - split; simpl; try done.
    + unfold waits at 2. rewrite fn_lookup_insert, Hpc. by rewrite waits_frame.
    + intros u. same_tid t u; [split; [by intros ?%elem_of_empty|congruence]|]. apply ra_in_readers0.
    + intros u. same_tid t u; [done|]. rewrite <-ra_is_writer0. split; congruence.
    + intros u. same_tid t u; [intros _; by left|auto].
Qed.

(** A reader lets the next thread come to the head. *)
Lemma rw_account_pass l :
  tids = t :: l → NoDup tids → rw_view_of (pcs t) = VRead → rw_view_of pc = VRead →
  rw_account n a (<[t := pc]> pcs) l counter.
Proof.
  intros Ht Hnd Hv Hpc. rewrite Ht in Hnd. apply NoDup_cons in Hnd as [Hn Hnd].
  destruct rw_account_keep; [congruence|]. subst tids. split; try done.
  - rewrite ra_order0. simpl. unfold waits at 1. by rewrite fn_lookup_insert, Hpc.
  - intros u Hu. destruct (decide (u = t)) as [->|]; [|by destruct (proj1 (elem_of_cons _ _ _) (ra_chain0 u Hu))].
    rewrite fn_lookup_insert in Hu. destruct Hu as [[? ?]|?]; congruence.
Qed.

Lemma rw_account_readunlock :
  t ∉ tids → rw_view_of (pcs t) = VRead → rw_view_of pc = VOut →
  ∃ a', rw_spec t a a' ∧ rw_account n a' (<[t := pc]> pcs) tids (s64 (counter - 1)).
Proof.
  intros Hn Hv Hpc. pose proof rw_counter_bound as [Hb _]. destruct Hac. destruct a as [q R w]. simpl in *.
  assert (t ∈ R) as HR by (by apply ra_in_readers0). rewrite s64_counter by lia.
  assert (size R = S (size (R ∖ {[t]}))) as Hsz.
  { rewrite size_difference, size_singleton by set_solver. assert (size R ≠ 0) by (intros Hz%size_empty_inv; clear -HR Hz; set_solver). lia. }
  exists (RwAbs q (R ∖ {[t]}) w). split; [by constructor|]. split; simpl; try done.
  - by rewrite waits_frame.
  - intros u. rewrite elem_of_difference, elem_of_singleton. same_tid t u; [split; [by intros [_ []]|congruence]|].
    rewrite <-ra_in_readers0. naive_solver.
  - intros u. same_tid t u; [|done]. rewrite ra_is_writer0. split; congruence.
  - lia.
  - intros u [Hu _]%elem_of_difference. auto.
  - intros Hw. rewrite (ra_alone0 Hw) in HR. by apply elem_of_empty in HR.
  - intros u. same_tid t u; [intros [[? ?]|?]; congruence|auto].
Qed.

Lemma rw_account_writeunlock l :
  tids = t :: l → NoDup tids → rw_view_of (pcs t) = VWrite → rw_view_of pc = VOut →
  ∃ a', rw_spec t a a' ∧ rw_account n a' (<[t := pc]> pcs) l counter.
Proof.
  intros Ht Hnd Hv Hpc. rewrite Ht in Hnd. apply NoDup_cons in Hnd as [Hn Hnd]. destruct Hac. subst tids.
  assert (ra_writer a = Some t) as Hw by (by apply ra_is_writer0). destruct a as [q R w]. simpl in *. subst w.
  exists (RwAbs q R None). split; [constructor|]. split; simpl; try done.
  - rewrite ra_order0. unfold waits at 1. rewrite Hv. by rewrite waits_frame.
  - intros u. same_tid t u; [|done]. rewrite ra_in_readers0. split; congruence.
  - intros u. same_tid t u; [split; congruence|]. rewrite <-ra_is_writer0. split; congruence.
  - intros u. same_tid t u; [intros [[? ?]|?]; congruence|]. intros Hu. destruct (proj1 (elem_of_cons _ _ _) (ra_chain0 u Hu)); congruence.
Qed.
End account.

(** ** Steps of the chain *)

Definition rw_in_chain (pc : rw_pc) : bool :=
  match pc with RwIdle | RwExch _ _ | RdFree _ | RdHeld => false | _ => true end.

Definition rw_at_head (pc : rw_pc) : bool :=
  match pc with RwFirst _ _ _ | RwSpin _ _ _ => false | _ => rw_in_chain pc end.

Lemma rw_O_head mynode e pc : rw_O mynode e pc → rw_at_head pc = true.
Proof.
  intros (m & _ & [(p & _ & Hpc)|(_ & _ & Hpc)]); [|by destruct Hpc as [-> | ->]].
  by destruct Hpc as [->|[->|[->|[->|[->|[_ ->]]]]]].
Qed.

Section gate.
Context (s : rw_state) (cur : ptr) (c : list (entry ptr)) (h : bool) (t : tid).
Hypothesis Hgate : rw_gate s cur c h.

Lemma rw_not_queued : rw_in_chain (rw_pcs s t) = false → t ∉ chain_tids c.
Proof.
  intros Hpc (e & He & <-)%chain_tids_in. destruct (rg_chain _ _ _ _ Hgate) as [_ _ _ Hpos _].
  destruct c as [|e0 c']; [by apply not_elem_of_nil in He|]. destruct Hpos as [H0 H1].
  assert (rw_W e (rw_pcs s (en_tid e)) ∨ rw_O (rw_mynode (rw_lock s)) e (rw_pcs s (en_tid e))) as [HW|HO].
  { apply elem_of_cons in He as [->|He]; [destruct h; auto|left; auto]. }
  - destruct HW as (?&?&?&_&_&[Hw|Hw]); by rewrite Hw in Hpc.
  - apply rw_O_head in HO. by destruct (rw_pcs s (en_tid e)).
Qed.

(** A node of the chain is allocated, and clear only if it is the current one. *)
Lemma rw_chain_node p : Some p ∈ chain_ids cur c → ∃ b, rw_heap s !! p = Some (RwNode b) ∧ (b = false → cur = Some p).
Proof.
  destruct Hgate as [_ _ _ [Hc Hm _]].
  intros [Hp|(e & He & Hin)%list_elem_of_fmap]%elem_of_cons; [by eauto|]. exists true. split; [by eapply Hm|done].
Qed.

(** [malloc] and the store to the new node. *)
Lemma rw_gate_create mode p :
  rw_pcs s t = RwIdle → rw_heap s !! p = None →
  rw_gate (RwState (<[p := RwNode true]> (rw_heap s)) (rw_lock s) (<[t := RwExch mode p]> (rw_pcs s)) false) cur c h.
Proof.
  intros Hpc Hp. destruct Hgate as [_ Hcr How [Hc Hm Hnew]]. split; simpl; [done|..].
  - apply chain_rel_out; [done| |by right; left; eauto]. apply rw_not_queued. by rewrite Hpc.
  - rewrite dom_insert_L. apply owned_alloc; [done|by apply not_elem_of_dom|by rewrite Hpc|done].
  - split; intros *.
    + intros Hq%Hc. rewrite lookup_insert_ne; [done|congruence].
    + intros He Hq. specialize (Hm _ _ He Hq). rewrite lookup_insert_ne; [done|congruence].
    + same_tid t t0; intros Hq; simplify_eq/=; [by rewrite lookup_insert_eq|].
      specialize (Hnew _ _ _ Hq). rewrite lookup_insert_ne; [done|congruence].
Qed.

(** The exchange on [tail]. *)
Lemma rw_gate_exch mode p :
  rw_pcs s t = RwExch mode p → let tail := rw_tail (rw_lock s) in
  rw_gate (RwState (rw_heap s) (ClhRwlockT (rw_mynode (rw_lock s)) p (rw_readers_counter (rw_lock s)))
             (<[t := RwFirst mode p tail]> (rw_pcs s)) false)
    cur (c ++ [Entry t (Some tail) (Some p)]) h.
Proof.
  intros Hpc tail. destruct Hgate as [_ Hcr How [Hc Hm Hnew]].
  assert (t ∉ chain_tids c) as Hn by (apply rw_not_queued; by rewrite Hpc).
  destruct (ow_priv _ _ _ _ How t p) as [_ Hfresh]; [by rewrite Hpc|]. split; simpl; [done|..].
  - apply chain_rel_arrive; [done..|]. exists mode, p, tail. auto.
  - apply (owned_publish _ _ (λ p, Some p ∈ chain_ids cur c)) with (p := p); [done|by rewrite Hpc|done|].
    intros q. unfold chain_ids. rewrite map_app. set_solver.
  - split; [done|..].
    + intros e' m [He|He%list_elem_of_singleton]%elem_of_app; [by eauto|].
      intros Hq. simplify_eq/=. by eapply Hnew.
    + intros t' mode' q. same_tid t t'; [done|by eauto].
Qed.

(** A step that touches neither the heap nor the private nodes of the thread. *)
Lemma rw_values_keep pc :
  (∀ mode p, pc ≠ RwExch mode p) → rw_values (rw_heap s) cur c (<[t := pc]> (rw_pcs s)).
Proof.
  intros Hpc. destruct (rg_values _ _ _ _ Hgate) as [Hc Hm Hnew]. split; [done..|].
  intros t' mode q. same_tid t t'; [by intros ?%Hpc|eauto].
Qed.

(** A load of [prev->succ_must_wait]. *)
Lemma rw_gate_load mode m p :
  rw_pcs s t = RwFirst mode m p ∨ rw_pcs s t = RwSpin mode m p →
  ∃ b, rw_heap s !! p = Some (RwNode b) ∧ ∀ pc,
    pc = (if b then RwSpin mode m p else match mode with Read => RdCount m p | Write => WrFirst m p end) →
    rw_gate (RwState (rw_heap s) (rw_lock s) (<[t := pc]> (rw_pcs s)) false) cur c (if b then h else true).
Proof.
  intros Hpc. pose proof Hgate as [_ Hcr How _].
  assert (∃ e, e ∈ c ∧ en_tid e = t ∧ rw_W e (rw_pcs s t) ∧ ¬ (h = true ∧ head c = Some e)) as (e & He & Ht & HW & Hnh).
  { eapply chain_rel_waiter; [done|..]; unfold rw_N, rw_O; destruct Hpc as [-> | ->]; naive_solver. }
  assert (en_my e = Some m ∧ en_prev e = Some p) as [Hmy Hprev].
  { destruct HW as (md & m' & p' & ? & ? & HW), Hpc as [Hpc|Hpc], HW as [HW|HW]; rewrite Hpc in HW; by simplify_eq. }
  destruct (rw_chain_node p) as (b & Hb & Hcur). { rewrite <-Hprev. eapply chain_prev_in; [apply Hcr|done]. }
  exists b. split; [done|]. intros pc Hpc'.
  assert (rw_priv pc = None ∧ ∀ mode p, pc ≠ RwExch mode p) as [Hnp Hnx] by (destruct b, mode; subst pc; done).
  split; simpl; [done| |apply owned_keep with (P := λ p, Some p ∈ chain_ids cur c); [done|rewrite Hnp; by destruct Hpc as [-> | ->]|done]
    |by apply rw_values_keep].
  subst t. destruct b; subst pc.
  - apply chain_rel_wait; [done..|]. exists mode, m, p. auto.
  - eapply (chain_rel_admit _ _ _ _ _ _ _ _ e); [done..|by rewrite Hprev, Hcur|done|]. exists m. split; [done|]. left. exists p. split; [done|].
    destruct mode; auto.
Qed.

(** The thread at the head of the chain. *)
Lemma rw_owner :
  rw_at_head (rw_pcs s t) = true →
  ∃ e c', c = e :: c' ∧ h = true ∧ en_tid e = t ∧ en_prev e = cur ∧ rw_O (rw_mynode (rw_lock s)) e (rw_pcs s t) ∧
    rw_priv (rw_pcs s t) = None.
Proof.
  intros Hpc. destruct (chain_rel_owner _ _ _ _ _ _ _ _ t (rg_chain _ _ _ _ Hgate)) as (e & c' & ? & ? & ? & ? & HO).
  - unfold rw_N. intros [Hn|[(?&?&Hn)|[[? Hn]|Hn]]]; by rewrite Hn in Hpc.
  - intros e (?&?&?&_&_&[Hw|Hw]); by rewrite Hw in Hpc.
  - exists e, c'. split_and!; [done..|]. by destruct (rw_pcs s t).
Qed.

(** The thread at the head moves on without touching the heap. *)
Lemma rw_gate_own lock' pc e c' :
  c = e :: c' → h = true → en_tid e = t → rw_priv (rw_pcs s t) = None → rw_priv pc = None →
  rw_tail lock' = rw_tail (rw_lock s) → rw_O (rw_mynode lock') e pc →
  rw_gate (RwState (rw_heap s) lock' (<[t := pc]> (rw_pcs s)) false) cur c h.
Proof.
  intros -> -> <- Hnp Hpc Htl HO. destruct Hgate as [_ Hcr How Hv]. split; simpl; [done|..].
  - rewrite Htl. by eapply chain_rel_own.
  - apply (owned_keep _ _ _ _ _ _ _ How); [by rewrite Hnp|done].
  - destruct Hv as [Hc Hm Hnew]. split; [done..|]. intros t' mode q. same_tid (en_tid e) t'; [by intros ->|eauto].
Qed.

(** The store that clears the node at the head, which becomes the current one. *)
Lemma rw_values_store e c' m pc :
  c = e :: c' → en_my e = Some m → (∀ mode p, pc ≠ RwExch mode p) →
  rw_heap s !! m = Some (RwNode true) ∧
  rw_values (<[m := RwNode false]> (rw_heap s)) (Some m) c' (<[t := pc]> (rw_pcs s)).
Proof.
  intros -> Hmy Hpc. destruct Hgate as [_ Hcr How [Hc Hm Hnew]]. split; [by eapply Hm; [left|]|]. split.
  - intros p [= ->]. by rewrite lookup_insert_eq.
  - intros e' q He' Hq. rewrite lookup_insert_ne; [by apply (Hm e'); [right|]|].
    intros ->. pose proof (cr_ids _ _ _ _ _ _ _ _ Hcr) as [_ [Hn _]%NoDup_cons]%NoDup_cons.
    apply Hn. rewrite Hmy, <-Hq. by apply list_elem_of_fmap_2.
  - intros t' mode q. same_tid t t'; [by intros ?%Hpc|]. intros Hq.
    destruct (ow_priv _ _ _ _ How t' q) as [_ Hnq]; [by rewrite Hq|].
    rewrite lookup_insert_ne; [by eauto|]. intros <-. apply Hnq. unfold chain_ids. simpl. rewrite <-Hmy. right. by left.
Qed.

(** A reader at the head clears its node and keeps that of its predecessor. *)
Lemma rw_gate_pass m p :
  rw_pcs s t = RdClear m p →
  ∃ e c', c = e :: c' ∧ en_tid e = t ∧ rw_heap s !! m = Some (RwNode true) ∧
    rw_gate (RwState (<[m := RwNode false]> (rw_heap s)) (rw_lock s) (<[t := RdFree p]> (rw_pcs s)) false) (Some m) c' false.
Proof.
  intros Hpc. destruct rw_owner as (e & c' & Hc & Hh & Ht & Hp & HO & Hnp); [by rewrite Hpc|]. exists e, c'.
  assert (en_my e = Some m ∧ cur = Some p) as [Hmy Hcur].
  { rewrite <-Hp. rewrite Hpc in HO. unfold rw_O in HO. naive_solver. }
  destruct (rw_values_store e c' m (RdFree p) Hc Hmy ltac:(done)) as [Hm Hv]. split_and!; [done..|].
  destruct Hgate as [_ Hcr How _]. rewrite Hcur in Hcr, How. subst c h t. split; simpl; [done|..|done].
  - rewrite <-Hmy. eapply chain_rel_leave; [done|by right; right; left; eauto|done].
  - rewrite dom_insert_lookup_L by eauto. apply (owned_retire _ _ _ _ _ _ _ p How); [by left|done|done|].
    intros q. pose proof (cr_ids _ _ _ _ _ _ _ _ Hcr) as [Hn _]%NoDup_cons. unfold chain_ids in *. simpl in *.
    rewrite Hmy in *. rewrite !elem_of_cons in *. split; [|naive_solver]. intros Hq. split; [|naive_solver]. intros ->. naive_solver.
Qed.

(** A private node is freed. *)
Lemma rw_gate_free_private p :
  rw_pcs s t = RdFree p →
  (∃ v, rw_heap s !! p = Some v) ∧
  rw_gate (RwState (delete p (rw_heap s)) (rw_lock s) (<[t := RdHeld]> (rw_pcs s)) false) cur c h.
Proof.
  intros Hpc. destruct Hgate as [_ Hcr How [Hc Hm Hnew]].
  destruct (ow_priv _ _ _ _ How t p) as [Hp Hn]; [by rewrite Hpc|]. split; [by apply elem_of_dom|].
  assert (∀ q, Some q ∈ chain_ids cur c → p ≠ q) as Hne by (intros q Hq ->; done). split; simpl; [done|..].
  - apply chain_rel_out; [done|apply rw_not_queued; by rewrite Hpc|]. by right; right; right.
  - rewrite dom_delete_L. apply owned_free; [done|by rewrite Hpc|done].
  - split.
    + intros q Hq. rewrite lookup_delete_ne; [by apply Hc|]. apply Hne. subst cur. by left.
    + intros e q He Hq. rewrite lookup_delete_ne; [by eapply Hm|]. apply Hne. right. rewrite <-Hq. by apply list_elem_of_fmap_2.
    + intros t' mode q. same_tid t t'; [done|]. intros Hq. rewrite lookup_delete_ne; [by eapply Hnew|].
      intros ->. assert (t = t') by (eapply (ow_sep _ _ _ _ How); [by rewrite Hpc|by rewrite Hq]). done.
Qed.

(** A writer frees the node of its predecessor. *)
Lemma rw_gate_free p :
  rw_pcs s t = WrFree p →
  (∃ v, rw_heap s !! p = Some v) ∧ ∃ e c', c = e :: c' ∧ en_tid e = t ∧
  rw_gate (RwState (delete p (rw_heap s)) (rw_lock s) (<[t := WrHeld]> (rw_pcs s)) false)
    None (Entry t None (en_my e) :: c') true.
Proof.
  intros Hpc. destruct rw_owner as (e & c' & -> & -> & <- & Hp & HO & Hnp); [by rewrite Hpc|].
  assert (∃ m, en_my e = Some m ∧ cur = Some p ∧ rw_mynode (rw_lock s) = Some m) as (m & Hmy & -> & Hmn).
  { rewrite <-Hp. rewrite Hpc in HO. unfold rw_O in HO. naive_solver. }
  destruct Hgate as [_ Hcr How [Hc Hm Hnew]]. split; [by eauto|]. exists e, c'. split_and!; [done..|].
  assert (Some p ∉ map en_my (e :: c')) as Hfresh by apply NoDup_cons, Hcr. split; simpl; [done|..].
  - eapply chain_rel_recur; [done|simpl in *; rewrite Hmy in *|].
    + intros [?|(e' & He' & Hin)%list_elem_of_fmap]%elem_of_cons; [done|].
      destruct (cr_pos _ _ _ _ _ _ _ _ Hcr) as [_ HW]. destruct (HW e' Hin) as (?&?&?&?&_). congruence.
    + exists m. auto 10.
  - rewrite dom_delete_L. eapply owned_drop; [done|by left|by rewrite Hnp|].
    intros q. unfold chain_ids. simpl in *. rewrite !elem_of_cons in *. naive_solver.
  - split; [done|..].
    + intros e' q He' Hq. assert (∃ e0, e0 ∈ e :: c' ∧ en_my e0 = Some q) as (e0 & He0 & Hq0).
      { apply elem_of_cons in He' as [->|He']; [exists e; split; [by left|done]|exists e'; split; [by right|done]]. }
      rewrite lookup_delete_ne; [by eapply Hm|]. intros <-. apply Hfresh. rewrite <-Hq0. by apply list_elem_of_fmap_2.
    + intros t' mode q. same_tid (en_tid e) t'; [done|]. intros Hq.
      destruct (ow_priv _ _ _ _ How t' q) as [_ Hnq]; [by rewrite Hq|].
      rewrite lookup_delete_ne; [by eauto|]. intros <-. apply Hnq. by left.
Qed.

(** A writer clears its node. *)
Lemma rw_gate_store m :
  rw_pcs s t = WrStore m →
  ∃ e c', c = e :: c' ∧ en_tid e = t ∧ rw_heap s !! m = Some (RwNode true) ∧
    rw_gate (RwState (<[m := RwNode false]> (rw_heap s)) (rw_lock s) (<[t := RwIdle]> (rw_pcs s)) false) (Some m) c' false.
Proof.
  intros Hpc. destruct rw_owner as (e & c' & Hc & Hh & Ht & Hp & HO & Hnp); [by rewrite Hpc|]. exists e, c'.
  assert (en_my e = Some m ∧ cur = None) as [Hmy Hcur].
  { rewrite <-Hp. rewrite Hpc in HO. unfold rw_O in HO. naive_solver. }
  destruct (rw_values_store e c' m RwIdle Hc Hmy ltac:(done)) as [Hm Hv]. split_and!; [done..|].
  destruct Hgate as [_ Hcr How _]. rewrite Hcur in Hcr, How. subst c h t. split; simpl; [done|..|done].
  - rewrite <-Hmy. eapply chain_rel_leave; [done|by left|done].
  - rewrite dom_insert_lookup_L by eauto. apply (owned_keep _ _ _ _ _ _ _ How); [by rewrite Hnp|].
    intros q. unfold chain_ids. simpl. rewrite Hmy, !elem_of_cons. naive_solver.
Qed.

(** A reader leaves. *)
Lemma rw_gate_out lock' :
  rw_pcs s t = RdHeld → rw_mynode lock' = rw_mynode (rw_lock s) → rw_tail lock' = rw_tail (rw_lock s) →
  rw_gate (RwState (rw_heap s) lock' (<[t := RwIdle]> (rw_pcs s)) false) cur c h.
Proof.
  intros Hpc Hmn Htl. pose proof Hgate as [_ Hcr How _]. split; simpl; [done|..].
  - rewrite Hmn, Htl. apply chain_rel_out; [done|apply rw_not_queued; by rewrite Hpc|by left].
  - apply (owned_keep _ _ _ _ _ _ _ How); [by rewrite Hpc|done].
  - by apply rw_values_keep.
Qed.
End gate.

(** ** Refinement *)

Section refine.
Context (n : nat).
Hypothesis n_small : (Z.of_nat n < 2 ^ 63)%Z.

Definition rw_inv (s : rw_state) (a : rw_abs) : Prop :=
  ∃ cur c h, rw_gate s cur c h ∧ rw_account n a (rw_pcs s) (chain_tids c) (rw_readers_counter (rw_lock s)).

Section step.
Context (s : rw_state) (a : rw_abs) (cur : ptr) (c : list (entry ptr)) (h : bool) (t : tid).
Hypothesis Hgate : rw_gate s cur c h.
Hypothesis Hac : rw_account n a (rw_pcs s) (chain_tids c) (rw_readers_counter (rw_lock s)).

Local Notation sim s' := (∃ a', rw_spec t a a' ∧ rw_inv s' a').

Lemma rw_nodup : NoDup (chain_tids c).
Proof. apply (rg_chain _ _ _ _ Hgate). Qed.

(** At most one thread is at the head, so nobody writes while another thread is there. *)
Lemma rw_no_writer : rw_at_head (rw_pcs s t) = true → rw_view_of (rw_pcs s t) ≠ VWrite → ra_writer a = None.
Proof.
  intros Hpc Hv. destruct (ra_writer a) as [u|] eqn:Hw; [|done]. apply (ra_is_writer _ _ _ _ _ Hac) in Hw.
  destruct (rw_owner _ _ _ _ t Hgate Hpc) as (e & c' & Hc & _ & Ht & _).
  destruct (rw_owner _ _ _ _ u Hgate) as (e' & c'' & Hc' & _ & Hu & _); [by destruct (rw_pcs s u)|]. congruence.
Qed.

Lemma rw_sim_keep hp lk pc cur' c' h' :
  rw_gate (RwState hp lk (<[t := pc]> (rw_pcs s)) false) cur' c' h' → chain_tids c' = chain_tids c →
  rw_readers_counter lk = rw_readers_counter (rw_lock s) → rw_view_of pc = rw_view_of (rw_pcs s t) →
  sim (RwState hp lk (<[t := pc]> (rw_pcs s)) false).
Proof.
  intros Hg Htids Hcnt Hv. exists a. split; [constructor|]. exists cur', c', h'. split; [done|].
  simpl. rewrite Htids, Hcnt. by apply rw_account_keep.
Qed.

Lemma rw_sim_create mode p :
  rw_pcs s t = RwIdle → rw_heap s !! p = None →
  sim (RwState (<[p := RwNode true]> (rw_heap s)) (rw_lock s) (<[t := RwExch mode p]> (rw_pcs s)) false).
Proof. intros Hpc Hp. eapply rw_sim_keep; [by apply rw_gate_create|done|done|by rewrite Hpc]. Qed.

Lemma rw_sim_exch mode p :
  rw_pcs s t = RwExch mode p →
  sim (RwState (rw_heap s) (ClhRwlockT (rw_mynode (rw_lock s)) p (rw_readers_counter (rw_lock s)))
         (<[t := RwFirst mode p (rw_tail (rw_lock s))]> (rw_pcs s)) false).
Proof.
  intros Hpc. destruct (rw_account_arrive n a _ _ _ Hac t (RwFirst mode p (rw_tail (rw_lock s))) mode) as (a' & Hs & Ha').
  { by rewrite Hpc. } { done. } { eapply rw_not_queued; [done|by rewrite Hpc]. }
  exists a'. split; [done|]. eexists _, _, _. split; [by apply rw_gate_exch|]. unfold chain_tids. by rewrite map_app.
Qed.

Lemma rw_sim_load mode m p :
  rw_pcs s t = RwFirst mode m p ∨ rw_pcs s t = RwSpin mode m p →
  ∃ b, rw_heap s !! p = Some (RwNode b) ∧ ∀ pc,
    pc = (if b then RwSpin mode m p else match mode with Read => RdCount m p | Write => WrFirst m p end) →
    sim (RwState (rw_heap s) (rw_lock s) (<[t := pc]> (rw_pcs s)) false).
Proof.
  intros Hpc. destruct (rw_gate_load _ _ _ _ t Hgate mode m p Hpc) as (b & Hb & Hg). exists b. split; [done|]. intros pc Hpc'.
  eapply rw_sim_keep; [by apply Hg|done|done|]. subst pc. by destruct b, mode, Hpc as [-> | ->].
Qed.

(** The thread at the head moves within the chain and keeps what it is seen to do. *)
Lemma rw_sim_own lk pc :
  rw_at_head (rw_pcs s t) = true → rw_priv pc = None → rw_tail lk = rw_tail (rw_lock s) →
  rw_readers_counter lk = rw_readers_counter (rw_lock s) → rw_view_of pc = rw_view_of (rw_pcs s t) →
  (∀ e, rw_O (rw_mynode (rw_lock s)) e (rw_pcs s t) → rw_O (rw_mynode lk) e pc) →
  sim (RwState (rw_heap s) lk (<[t := pc]> (rw_pcs s)) false).
Proof.
  intros Hpc Hp Htl Hcnt Hv HO. destruct (rw_owner _ _ _ _ t Hgate Hpc) as (e & c' & ? & ? & ? & ? & HO' & ?).
  eapply rw_sim_keep; [|done..]. eapply rw_gate_own; eauto.
Qed.

Lemma rw_sim_count m p :
  rw_pcs s t = RdCount m p → t < n →
  sim (RwState (rw_heap s) (ClhRwlockT (rw_mynode (rw_lock s)) (rw_tail (rw_lock s)) (s64 (rw_readers_counter (rw_lock s) + 1)))
         (<[t := RdClear m p]> (rw_pcs s)) false).
Proof.
  intros Hpc Ht. destruct (rw_owner _ _ _ _ t Hgate) as (e & c' & Hc & Hh & Hte & Hp & HO & Hnp); [by rewrite Hpc|].
  destruct (rw_account_read n a _ _ _ Hac t (RdClear m p) n_small (chain_tids c')) as (a' & Hs & Ha').
  { subst. done. } { apply rw_nodup. } { done. } { by rewrite Hpc. } { done. } { by apply rw_no_writer; rewrite Hpc. }
  exists a'. split; [done|]. exists cur, c, h. split; [|done]. eapply rw_gate_own; try done.
  rewrite Hpc in HO. unfold rw_O in *. naive_solver.
Qed.

Lemma rw_sim_readers m p pc :
  rw_pcs s t = WrFirst m p ∨ rw_pcs s t = WrSpin m p →
  pc = (if bool_decide (rw_readers_counter (rw_lock s) = 0%Z) then WrSet m p else WrSpin m p) →
  sim (RwState (rw_heap s) (rw_lock s) (<[t := pc]> (rw_pcs s)) false).
Proof.
  intros Hpc Hpc'. assert (rw_at_head (rw_pcs s t) = true) as Hat by (by destruct Hpc as [-> | ->]).
  destruct (rw_owner _ _ _ _ t Hgate Hat) as (e & c' & Hc & Hh & Hte & Hp & HO & Hnp).
  assert (rw_O (rw_mynode (rw_lock s)) e pc) as HO'.
  { unfold rw_O in HO. destruct HO as (m' & Hm & HO). exists m'. split; [done|]. subst pc.
    destruct Hpc as [Hpc|Hpc]; rewrite Hpc in HO; case_bool_decide; naive_solver. }
  assert (rw_priv pc = None) as Hnp' by (subst pc; by case_bool_decide).
  pose proof (rw_gate_own _ _ _ _ t Hgate (rw_lock s) pc e c' Hc Hh Hte Hnp Hnp' eq_refl HO') as Hg.
  case_bool_decide as H0; [|eapply rw_sim_keep; [done..|subst pc; by destruct Hpc as [-> | ->]]].
  destruct (rw_account_write n a _ _ _ Hac t pc (chain_tids c')) as (a' & Hs & Ha'); try done.
  { by subst. } { apply rw_nodup. } { by destruct Hpc as [-> | ->]. } { by subst pc. }
  { apply rw_no_writer; [done|]. by destruct Hpc as [-> | ->]. }
  exists a'. split; [done|]. by exists cur, c, h.
Qed.

Lemma rw_sim_pass m p :
  rw_pcs s t = RdClear m p →
  (∃ v, rw_heap s !! m = Some v) ∧
  sim (RwState (<[m := RwNode false]> (rw_heap s)) (rw_lock s) (<[t := RdFree p]> (rw_pcs s)) false).
Proof.
  intros Hpc. destruct (rw_gate_pass _ _ _ _ t Hgate m p Hpc) as (e & c' & Hc & Ht & Hm & Hg). split; [by eauto|].
  exists a. split; [constructor|]. eexists _, c', _. split; [done|].
  eapply (rw_account_pass n a _ _ _ Hac); [by subst|apply rw_nodup|by rewrite Hpc|done].
Qed.

Lemma rw_sim_readunlock :
  rw_pcs s t = RdHeld →
  sim (RwState (rw_heap s) (ClhRwlockT (rw_mynode (rw_lock s)) (rw_tail (rw_lock s)) (s64 (rw_readers_counter (rw_lock s) - 1)))
         (<[t := RwIdle]> (rw_pcs s)) false).
Proof.
  intros Hpc. destruct (rw_account_readunlock n a _ _ _ Hac t RwIdle n_small) as (a' & Hs & Ha').
  { eapply rw_not_queued; [done|by rewrite Hpc]. } { by rewrite Hpc. } { done. }
  exists a'. split; [done|]. exists cur, c, h. split; [|done]. by apply rw_gate_out.
Qed.

Lemma rw_sim_writeunlock m :
  rw_pcs s t = WrStore m →
  (∃ v, rw_heap s !! m = Some v) ∧
  sim (RwState (<[m := RwNode false]> (rw_heap s)) (rw_lock s) (<[t := RwIdle]> (rw_pcs s)) false).
Proof.
  intros Hpc. destruct (rw_gate_store _ _ _ _ t Hgate m Hpc) as (e & c' & Hc & Ht & Hm & Hg). split; [by eauto|].
  destruct (rw_account_writeunlock n a _ _ _ Hac t RwIdle (chain_tids c')) as (a' & Hs & Ha').
  { by subst. } { apply rw_nodup. } { by rewrite Hpc. } { done. }
  exists a'. split; [done|]. by eexists _, c', _.
Qed.
End step.

Lemma rw_sim s a t l s' : rw_inv s a → rw_step n t l s = Some s' → ∃ a', rw_spec t a a' ∧ rw_inv s' a'.
Proof.
  intros (cur & c & h & Hg & Ha) Hstep. unfold rw_step in Hstep. rewrite (rg_fault _ _ _ _ Hg) in Hstep.
  case_bool_decide as Ht; [|done]. simpl in Hstep. destruct l as [mode p]. simpl in Hstep. unfold rw_thread in Hstep.
  destruct (rw_pcs s t) as [|md m|md m p0|md m p0|m p0|m p0|p0| |m p0|m p0|m p0|p0| |m] eqn:Hpc.
  - destruct mode; simpl in Hstep; unfold clh_rwlock_create_node in Hstep; destruct (_ !! p) eqn:Hlk; simplify_eq/=; by eapply rw_sim_create.
  - destruct md; simplify_eq/=; by eapply rw_sim_exch.
  - destruct (rw_sim_load _ _ _ _ _ t Hg Ha md m p0) as (b & Hb & Hsim); [by left|].
    destruct md; simpl in Hstep; rewrite Hb in Hstep; simplify_eq/=; by apply Hsim.
  - destruct (rw_sim_load _ _ _ _ _ t Hg Ha md m p0) as (b & Hb & Hsim); [by right|].
    destruct md; simpl in Hstep; rewrite Hb in Hstep; simplify_eq/=; by apply Hsim.
  - simplify_eq/=. by eapply rw_sim_count.
  - destruct (rw_sim_pass _ _ _ _ _ t Hg Ha m p0 Hpc) as ([v Hv] & Hsim). simpl in Hstep. rewrite Hv in Hstep. by simplify_eq.
  - destruct (rw_gate_free_private _ _ _ _ t Hg p0 Hpc) as ([v Hv] & Hg'). simpl in Hstep. rewrite Hv in Hstep. simplify_eq.
    eapply rw_sim_keep; [done..|by rewrite Hpc].
  - simplify_eq/=. by eapply rw_sim_readunlock.
  - simplify_eq/=. eapply rw_sim_readers; eauto.
  - simplify_eq/=. eapply rw_sim_readers; eauto.
  - simplify_eq/=. eapply rw_sim_own; rewrite ?Hpc; try done. intros e. unfold rw_O. simpl. naive_solver.
  - destruct (rw_gate_free _ _ _ _ t Hg p0 Hpc) as ([v Hv] & e & c' & -> & <- & Hg'). simpl in Hstep. rewrite Hv in Hstep. simplify_eq.
    eapply rw_sim_keep; [done..|by rewrite Hpc].
  - destruct (rw_owner _ _ _ _ t Hg) as (e & c' & _ & _ & _ & _ & HO & _); [by rewrite Hpc|]. rewrite Hpc in HO.
    assert (∃ m, rw_mynode (rw_lock s) = Some m) as [m Hm] by (unfold rw_O in HO; naive_solver).
    simpl in Hstep. rewrite Hm in Hstep. simplify_eq. eapply rw_sim_own; rewrite ?Hpc; try done. intros e'. unfold rw_O. naive_solver.
  - destruct (rw_sim_writeunlock _ _ _ _ _ t Hg Ha m Hpc) as ([v Hv] & Hsim). simpl in Hstep. rewrite Hv in Hstep. by simplify_eq.
Qed.

Lemma rw_inv_start s : rw_init s → rw_inv s rw_empty.
Proof.
  intros (node & h & m & Hi & ->). unfold clh_rwlockx_init, clh_rwlock_create_node in Hi.
  rewrite lookup_empty in Hi. simplify_eq/=. exists (Some node), [], false. split; [split; simpl; [done|..]|].
  - split; simpl; try done; [apply NoDup_singleton|apply NoDup_nil_2|by left].
  - rewrite dom_insert_L, dom_empty_L. split; simpl; set_solver.
  - split; simpl; [|set_solver|done]. intros p [= <-]. by rewrite lookup_insert_eq.
  - split; simpl; try done; try set_solver.
Qed.

#[local] Instance rw_lts : Lts (tid * (rw_mode * loc)) rw_state := clh_rwlock n.

Lemma rw_reachable_inv s :
  reachable s → ∃ a, areachable (λ a, a = rw_empty) (λ a a', ∃ t, rw_spec t a a') a ∧ rw_inv s a.
Proof.
  apply simulation_reachable. split.
  - intros s0 Hi. exists rw_empty. split; [done|]. by apply rw_inv_start.
  - intros [t l] s0 s1 a Hinv Hstep. destruct (rw_sim s0 a t l s1 Hinv Hstep) as (a' & Hs & Hinv'). eauto.
Qed.

(** Only the threads of the program do anything. *)
Lemma rw_reachable_tid s t : reachable s → rw_pcs s t ≠ RwIdle → t < n.
Proof.
  intros Hr. refine (invariant_reachable (λ s, ∀ t, rw_pcs s t ≠ RwIdle → t < n) s _ Hr t). split.
  - intros s0 (node & h & m & _ & ->). done.
  - intros [u l] s0 s1 Hinv Hstep. simpl in Hstep. unfold rw_step in Hstep. destruct (rw_fault s0); [done|].
    case_bool_decide as Hu; [|done]. simpl in Hstep. step_inv Hstep; intros t0; simpl; [|by auto]. same_tid u t0; auto.
Qed.

(** ** Progress *)

Definition rw_inside (pc : rw_pc) : bool := match rw_view_of pc with VRead | VWrite => true | _ => false end.
Definition rw_waiting (pc : rw_pc) : bool := match rw_view_of pc with VWait _ => true | _ => false end.

Lemma rw_step_done t l s h m pc :
  rw_fault s = false → t < n → rw_thread l.1 l.2 (rw_heap s) (rw_lock s) (rw_pcs s t) = Some (Done (h, m, pc)) →
  rw_step n t l s = Some (RwState h m (<[t := pc]> (rw_pcs s)) false).
Proof. intros Hf Ht Hth. unfold rw_step. rewrite Hf, bool_decide_true by done. simpl. by rewrite Hth. Qed.

(** The head of the chain gets in when nobody is. *)
Lemma rw_head_enters s a t l :
  rw_inv s a → t < n → (∀ u, rw_inside (rw_pcs s u) = false) → rw_at_head (rw_pcs s t) = true →
  ∃ s', rw_step n t l s = Some s' ∧ rw_inside (rw_pcs s' t) = true.
Proof.
  intros (cur & c & h & Hg & Ha) Ht Hin Hpc. pose proof (rg_fault _ _ _ _ Hg) as Hf.
  assert (rw_readers_counter (rw_lock s) = 0%Z) as H0.
  { rewrite (ra_counter _ _ _ _ _ Ha). assert (ra_readers a = ∅) as ->; [|done]. apply set_eq. intros u. split; [|set_solver].
    intros Hu%(ra_in_readers _ _ _ _ _ Ha). specialize (Hin u). unfold rw_inside in Hin. by rewrite Hu in Hin. }
  specialize (Hin t). unfold rw_inside in Hin.
  destruct (rw_pcs s t) as [|md m|md m p0|md m p0|m p0|m p0|p0| |m p0|m p0|m p0|p0| |m] eqn:Hp; try done.
  all: eexists; split; [apply rw_step_done; [done|done|rewrite Hp; simpl; rewrite ?H0; done]|].
  all: simpl; by rewrite fn_lookup_insert.
Qed.

Lemma rw_first_steps s a t l mode m p :
  rw_inv s a → t < n → (∀ u, rw_inside (rw_pcs s u) = false) → rw_pcs s t = RwFirst mode m p ∨ rw_pcs s t = RwSpin mode m p →
  rw_heap s !! p = Some (RwNode false) →
  ∃ s', rw_step n t l s = Some s' ∧ (∀ u, rw_inside (rw_pcs s' u) = false) ∧ rw_at_head (rw_pcs s' t) = true.
Proof.
  intros (cur & c & h & Hg & Ha) Ht Hin Hpc Hlk. pose proof (rg_fault _ _ _ _ Hg) as Hf.
  eexists. split.
  - apply (rw_step_done t l s (rw_heap s) (rw_lock s) (match mode with Read => RdCount m p | Write => WrFirst m p end)); [done|done|].
    destruct Hpc as [-> | ->], mode; simpl; by rewrite Hlk.
  - simpl. split; [|rewrite fn_lookup_insert; by destruct mode]. intros u. same_tid t u; [by destruct mode|done].
Qed.

Lemma rw_progress s t l :
  reachable s → rw_waiting (rw_pcs s t) = true → (∀ u, rw_inside (rw_pcs s u) = false) →
  ∃ u ls s', rw_waiting (rw_pcs s u) = true ∧ run (replicate ls (u, l)) s = Some s' ∧ rw_inside (rw_pcs s' u) = true.
Proof.
  intros Hr Hw Hin. destruct (rw_reachable_inv s Hr) as (a & _ & Hinv). pose proof Hinv as (cur & c & h & Hg & Ha).
  destruct c as [|e c].
  { assert (t ∈ chain_tids (I := ptr) []) as Ht%not_elem_of_nil; [|done]. apply (ra_chain _ _ _ _ _ Ha). left.
    unfold rw_waiting in Hw. destruct (rw_view_of (rw_pcs s t)); try done. eauto. }
  pose proof (rg_chain _ _ _ _ Hg) as [[Hp _] _ _ [Hpos _] _]. set (u := en_tid e) in *.
  assert (rw_pcs s u ≠ RwIdle) as Hu.
  { intros Hid. rewrite Hid in Hpos. destruct h; [by apply rw_O_head in Hpos|]. destruct Hpos as (?&?&?&_&_&[?|?]); done. }
  apply (rw_reachable_tid s u Hr) in Hu. destruct h.
  - pose proof (rw_O_head _ _ _ Hpos) as Hat. destruct (rw_head_enters s a u l Hinv Hu Hin Hat) as (s' & Hs & Hi).
    exists u, 1, s'. split_and!; [|simpl; by rewrite Hs|done]. specialize (Hin u). unfold rw_waiting, rw_inside in *.
    by destruct (rw_pcs s u).
  - destruct Hpos as (mode & m & p & _ & Hprev & Hpc). rewrite Hp in Hprev.
    pose proof (rv_cur _ _ _ _ (rg_values _ _ _ _ Hg) p Hprev) as Hlk.
    destruct (rw_first_steps s a u l mode m p Hinv Hu Hin Hpc Hlk) as (s1 & Hs1 & Hin1 & Hat1).
    destruct (rw_sim s a u l s1 Hinv Hs1) as (a1 & _ & Hinv1).
    destruct (rw_head_enters s1 a1 u l Hinv1 Hu Hin1 Hat1) as (s' & Hs & Hi).
    exists u, 2, s'. split_and!; [|simpl; by rewrite Hs1, Hs|done]. unfold rw_waiting. by destruct Hpc as [-> | ->], mode.
Qed.
End refine.

(** ** Order of admission *)

(** The queue of the specification holds those that have queued up and have not
    been admitted. *)
Lemma rw_account_views n a pcs tids counter t :
  rw_account n a pcs tids counter →
  (∀ m, (t, m) ∈ ra_queue a ↔ rw_view_of (pcs t) = VWait m) ∧
  (t ∈ ra_readers a ↔ rw_view_of (pcs t) = VRead) ∧ (ra_writer a = Some t ↔ rw_view_of (pcs t) = VWrite).
Proof.
  intros [Hq HR Hw _ _ _ Hc]. split_and!; [|apply HR|apply Hw]. intros m. rewrite Hq, list_elem_of_omap. unfold waits. split.
  - intros (u & _ & Hv). case_match; by simplify_eq.
  - intros Hv. exists t. split; [apply Hc; eauto|]. by rewrite Hv.
Qed.

Lemma rw_spec_events n t a a' pcs pcs' tids tids' counter counter' :
  rw_account n a pcs tids counter → rw_account n a' pcs' tids' counter' → rw_spec t a a' →
  let es := rw_step_events t (rw_view_of (pcs t)) (rw_view_of (pcs' t)) in
  ra_queue a ++ rw_arrivals es = rw_entries es ++ ra_queue a'.
Proof.
  intros (Hq & HR & Hw)%(rw_account_views _ _ _ _ _ t) (Hq' & HR' & Hw')%(rw_account_views _ _ _ _ _ t) Hs.
  destruct Hs as [a|q R w m Hq0 HR0 Hw0|q R HR0|q|q R w HR0|q R]; simpl in *.
  - assert (rw_view_of (pcs' t) = rw_view_of (pcs t)) as ->.
    { destruct (rw_view_of (pcs t)) eqn:Hv; [destruct (rw_view_of (pcs' t)) eqn:Hv'|..]; naive_solver. }
    destruct (rw_view_of (pcs t)); by rewrite app_nil_r.
  - assert (rw_view_of (pcs' t) = VWait m) as -> by (apply Hq'; set_solver).
    assert (rw_view_of (pcs t) = VOut) as -> by (destruct (rw_view_of (pcs t)) eqn:Hv; naive_solver). done.
  - assert (rw_view_of (pcs t) = VWait Read) as -> by (apply Hq; set_solver).
    assert (rw_view_of (pcs' t) = VRead) as -> by (apply HR'; set_solver). by rewrite app_nil_r.
  - assert (rw_view_of (pcs t) = VWait Write) as -> by (apply Hq; set_solver).
    assert (rw_view_of (pcs' t) = VWrite) as -> by (by apply Hw'). by rewrite app_nil_r.
  - assert (rw_view_of (pcs t) = VRead) as -> by (by apply HR). by rewrite app_nil_r.
  - assert (rw_view_of (pcs t) = VWrite) as -> by (by apply Hw). by rewrite app_nil_r.
Qed.

Lemma rw_trace_queue n ls s s' a :
  (Z.of_nat n < 2 ^ 63)%Z → rw_inv n s a → run (sys := clh_rwlock n) ls s = Some s' →
  ∃ a', ra_queue a ++ rw_arrivals (rw_trace n ls s) = rw_entries (rw_trace n ls s) ++ ra_queue a'.
Proof.
  intros Hn. revert s a. induction ls as [|[t l] ls IH]; intros s a Hinv Hrun; simpl in *; [exists a; by rewrite app_nil_r|].
  destruct (rw_step n t l s) as [s1|] eqn:Hstep; [|done]. destruct (rw_sim n Hn s a t l s1 Hinv Hstep) as (a1 & Hs & Hinv1).
  destruct (IH s1 a1 Hinv1 Hrun) as (a' & Ha'). exists a'. destruct Hinv as (? & ? & ? & _ & Ha), Hinv1 as (? & ? & ? & _ & Ha1).
  pose proof (rw_spec_events _ _ _ _ _ _ _ _ _ _ Ha Ha1 Hs) as Hes. unfold rw_arrivals, rw_entries in *. simpl in Hes.
  rewrite !omap_app, (assoc_L (++)), Hes, <-!(assoc_L (++)). by rewrite Ha'.
Qed.

(** ** Theorem *)

Lemma rw_agrees_exclusive a pcs t u :
  rw_agrees a pcs → rw_view_of (pcs t) = VWrite → rw_inside (pcs u) = true → u = t.
Proof.
  intros Hag Ht Hu. pose proof (Hag t) as Hwt. pose proof (Hag u) as Hwu. rewrite Ht in Hwt. destruct Hwt as [Hwt HR].
  unfold rw_inside in Hu. destruct (rw_view_of (pcs u)); try done; [|destruct Hwu; congruence]. destruct Hwu. congruence.
Qed.

Lemma rw_no_leak n s a :
  rw_inv n s a → (∀ t, rw_pcs s t = RwIdle) →
  clh_rwlock_destroy (rw_heap s) (rw_lock s) = Done (∅, ClhRwlockT (rw_mynode (rw_lock s)) (rw_tail (rw_lock s)) 0).
Proof.
  intros (cur & c & h & [_ Hcr How _] & _) Hidle.
  assert (c = []) as ->.
  { destruct c as [|e c]; [done|]. destruct Hcr as [_ _ _ [Hpos _] _]. rewrite Hidle in Hpos.
    destruct h; [by apply rw_O_head in Hpos|]. destruct Hpos as (?&?&?&_&_&[?|?]); done. }
  pose proof (cr_chain _ _ _ _ _ _ _ _ Hcr) as Hl. simpl in Hl.
  assert (dom (rw_heap s) = {[rw_tail (rw_lock s)]}) as Hdom.
  { apply set_eq. intros p. rewrite elem_of_singleton. split.
    - intros [Hin%list_elem_of_singleton|[t Ht]]%(ow_all _ _ _ _ How); [congruence|]. by rewrite Hidle in Ht.
    - intros ->. apply (ow_shared _ _ _ _ How). rewrite Hl. by left. }
  unfold clh_rwlock_destroy. destruct (rw_heap s !! rw_tail (rw_lock s)) eqn:Hlk.
  - do 2 f_equal. apply dom_empty_inv_L. rewrite dom_delete_L, Hdom. set_solver.
  - apply not_elem_of_dom in Hlk. rewrite Hdom in Hlk. set_solver.
Qed.

(** C11: the reader-writer lock implements its specification step by step.
    Threads are admitted in the order in which they exchanged [tail], with the mode
    they asked for; readers go in together and a writer excludes every other
    thread.  When nobody is in, a waiting thread gets in by itself.  No freed
    memory is touched, and when all threads are done [destroy] frees the last node. *)
Theorem rwlock_correct (n : nat) :
  (Z.of_nat n < 2 ^ 63)%Z →
  (∃ R : rw_state → rw_abs → Prop,
    (∀ s, rw_init s → R s rw_empty) ∧
    (∀ t l s s' a, R s a → rw_step n t l s = Some s' → ∃ a', rw_spec t a a' ∧ R s' a') ∧
    (∀ s a, R s a → rw_agrees a (rw_pcs s))) ∧
  (∀ ls s s', rw_init s → run (sys := clh_rwlock n) ls s = Some s' →
    rw_entries (rw_trace n ls s) `prefix_of` rw_arrivals (rw_trace n ls s)) ∧
  ∀ s, reachable (sys := clh_rwlock n) s →
    rw_fault s = false ∧
    (∀ t u, rw_view_of (rw_pcs s t) = VWrite → rw_inside (rw_pcs s u) = true → u = t) ∧
    (∀ t l, rw_waiting (rw_pcs s t) = true → (∀ u, rw_inside (rw_pcs s u) = false) →
       ∃ u k s', rw_waiting (rw_pcs s u) = true ∧
         run (sys := clh_rwlock n) (replicate k (u, l)) s = Some s' ∧ rw_inside (rw_pcs s' u) = true) ∧
    ((∀ t, rw_pcs s t = RwIdle) →
       clh_rwlock_destroy (rw_heap s) (rw_lock s) = Done (∅, ClhRwlockT (rw_mynode (rw_lock s)) (rw_tail (rw_lock s)) 0)).
Proof.
  intros Hn. assert (∀ s a, rw_inv n s a → rw_agrees a (rw_pcs s)) as Hag.
  { intros s a (cur & c & h & Hg & Ha). eapply rw_account_agrees; [apply (rg_chain _ _ _ _ Hg)|done]. }
  split_and!.
  - exists (rw_inv n). split_and!; [intros s; by apply rw_inv_start|intros t l s s' a; by apply rw_sim|done].
  - intros ls s s' Hi Hrun. destruct (rw_trace_queue n ls s s' rw_empty Hn (rw_inv_start n Hn s Hi) Hrun) as (a' & Ha'). by exists (ra_queue a').
  - intros s Hr. destruct (rw_reachable_inv n Hn s Hr) as (a & _ & Hinv). pose proof Hinv as (cur & c & h & Hg & _). split_and!.
    + apply Hg.
    + intros t u. by eapply rw_agrees_exclusive, Hag.
    + intros t l Hw Hin. by eapply rw_progress.
    + by eapply rw_no_leak.
Qed.

(** A reader is in while a writer waits and another reader waits behind it; the
    writer goes in when the reader has left. *)
Definition rw_start : rw_state :=
  RwState {[1%positive := RwNode false]} (ClhRwlockT (Some 1%positive) 1%positive 0) (λ _, RwIdle) false.

Definition rw_schedule1 : list (tid * (rw_mode * loc)) :=
  replicate 6 (0, (Read, 2%positive)) ++ replicate 3 (2, (Write, 3%positive)) ++ replicate 2 (1, (Read, 4%positive)) ++
  replicate 2 (2, (Write, 3%positive)).

Definition rw_schedule2 : list (tid * (rw_mode * loc)) :=
  rw_schedule1 ++ [(0, (Read, 5%positive))] ++ replicate 3 (2, (Write, 5%positive)).

Lemma rwlock_correct_witness :
  (λ s, (rw_pcs s <$> [0; 1; 2], rw_readers_counter (rw_lock s))) <$> run (sys := clh_rwlock 3) rw_schedule1 rw_start =
    Some ([RdHeld; RwFirst Read 4 3; WrSpin 3 2]%positive, 1%Z) ∧
  rw_entries (rw_trace 3 rw_schedule2 rw_start) = [(0, Read); (2, Write)] ∧
  rw_arrivals (rw_trace 3 rw_schedule2 rw_start) = [(0, Read); (2, Write); (1, Read)] ∧
  (∃ s, run (sys := clh_rwlock 3) rw_schedule2 rw_start = Some s ∧
    rw_pcs s 2 = WrHeld ∧ rw_fault s = false ∧ (∀ u, rw_inside (rw_pcs s u) = true → u = 2)).
Proof.
  split; [vm_compute; reflexivity|]. split; [vm_compute; reflexivity|]. split; [vm_compute; reflexivity|].
  eexists. split; [vm_compute; reflexivity|]. split; [reflexivity|]. split; [reflexivity|]. intros u Hu.
  refine (proj1 (proj2 (proj2 (proj2 (rwlock_correct 3 _)) _ _)) 2 u _ Hu); [lia| |reflexivity].
  apply (run_reachable (sys := clh_rwlock 3) rw_schedule2 rw_start).
  - apply reachable_init. do 3 eexists. split; [|reflexivity]. reflexivity.
  - vm_compute. reflexivity.
Defined.
