(* ===== verification/MpscMutex.v ===== *)
(** * The MPSC-queue lock

    [ConcurrencyFreaks/C11/locks/mpsc_mutex.h], selected by
    [LOCK_METHOD=MPSC_LOCK] in [src/lockrate.c].  A thread appends a node to a
    linked queue by an exchange on [tail], links it to its predecessor and
    waits until [head] reaches that predecessor; [unlock] moves [head] to the
    next node and frees the old one.  Memory is explicit as in the CLH lock.
    [mpsc_mutex_create_node] does not initialise [next], so [malloc] also
    chooses what the field holds at first. *)

From S2P Require Import Prelude Lts Mutex Nodes Chain.

(** ** Data *)

Record mpsc_mutex_node_t := MpscNode { mp_next : ptr }.

Abbreviation mpsc_heap := (gmap loc mpsc_mutex_node_t).

Record mpsc_mutex_t := MpscMutexT {
  mp_head : loc;
  mp_tail : loc;
}.

Inductive mpsc_pc :=
  | MpIdle
  | MpExch (mynode : loc)          (** about to exchange [tail] *)
  | MpLink (mynode prev : loc)     (** about to store [prev->next] *)
  | MpSpin (mynode prev : loc)     (** about to load [head] *)
  | MpHeld
  | MpNext (prev : loc)            (** [unlock], [head] loaded *)
  | MpSetHead (prev mynode : loc)  (** [unlock], [prev->next] loaded, not NULL *)
  | MpFree (prev : loc)            (** [unlock], about to free [prev] *).

(** ** Operations *)

(** [malloc] returns [new_node], whose [next] holds [garbage]. *)
Definition mpsc_mutex_create_node (new_node : loc) (garbage : ptr) (h : mpsc_heap)
    : option mpsc_heap :=
  match h !! new_node with
  | Some _ => None
  | None => Some (<[new_node := MpscNode garbage]> h)
  end.

Definition mpsc_mutex_init (new_node : loc) (garbage : ptr) (h : mpsc_heap)
    : option (mpsc_heap * mpsc_mutex_t) :=
  match mpsc_mutex_create_node new_node garbage h with
  | Some h' => Some (h', MpscMutexT new_node new_node)
  | None => None
  end.

Definition mpsc_mutex_destroy (h : mpsc_heap) (self : mpsc_mutex_t) : res mpsc_heap :=
  match h !! mp_head self with
  | Some _ => Done (delete (mp_head self) h)
  | None => Fault
  end.

Definition mpsc_mutex_lock (new_node : loc) (garbage : ptr)
    (h : mpsc_heap) (self : mpsc_mutex_t) (pc : mpsc_pc)
    : option (res (mpsc_heap * mpsc_mutex_t * mpsc_pc)) :=
  match pc with
  | MpIdle =>
      match mpsc_mutex_create_node new_node garbage h with
      | Some h' => Some (Done (h', self, MpExch new_node))
      | None => None
      end
  | MpExch mynode =>
      (* prev = atomic_exchange(&self->tail, mynode) *)
      Some (Done (h, MpscMutexT (mp_head self) mynode, MpLink mynode (mp_tail self)))
  | MpLink mynode prev =>
      (* atomic_store(&prev->next, mynode) *)
      match h !! prev with
      | Some _ => Some (Done (<[prev := MpscNode (Some mynode)]> h, self, MpSpin mynode prev))
      | None => Some Fault
      end
  | MpSpin mynode prev =>
      (* lhead = atomic_load(&self->head); while (lhead != prev) ... *)
      if bool_decide (mp_head self = prev) then Some (Done (h, self, MpHeld))
      else Some (Done (h, self, MpSpin mynode prev))
  | _ => None
  end.

Definition mpsc_mutex_unlock (h : mpsc_heap) (self : mpsc_mutex_t) (pc : mpsc_pc)
    : option (res (mpsc_heap * mpsc_mutex_t * mpsc_pc)) :=
  match pc with
  | MpHeld => Some (Done (h, self, MpNext (mp_head self)))
  | MpNext prev =>
      (* mynode = atomic_load(&prev->next); if (mynode == NULL) return; *)
      match h !! prev with
      | Some (MpscNode (Some mynode)) => Some (Done (h, self, MpSetHead prev mynode))
      | Some (MpscNode None) => Some (Done (h, self, MpIdle))
      | None => Some Fault
      end
  | MpSetHead prev mynode =>
      (* atomic_store(&self->head, mynode) *)
      Some (Done (h, MpscMutexT mynode (mp_tail self), MpFree prev))
  | MpFree prev =>
      (* free(prev) *)
      match h !! prev with
      | Some _ => Some (Done (delete prev h, self, MpIdle))
      | None => Some Fault
      end
  | _ => None
  end.

Definition mpsc_phase (pc : mpsc_pc) : phase :=
  match pc with
  | MpIdle => Idle
  | MpExch _ => Entering
  | MpLink _ _ | MpSpin _ _ => Waiting
  | MpHeld => Holding
  | MpNext _ | MpSetHead _ _ => Unlocking
  | MpFree _ => Leaving
  end.

Record mpsc_state := MpscState {
  mp_heap : mpsc_heap;
  mp_mutex : mpsc_mutex_t;
  mp_pc : tid → mpsc_pc;
  mp_fault : bool;
}.

Definition mpsc_step (t : tid) (l : loc * ptr) (s : mpsc_state) : option mpsc_state :=
  if mp_fault s then None else
  match
    match mp_pc s t with
    | MpHeld | MpNext _ | MpSetHead _ _ | MpFree _ =>
        mpsc_mutex_unlock (mp_heap s) (mp_mutex s) (mp_pc s t)
    | pc => mpsc_mutex_lock l.1 l.2 (mp_heap s) (mp_mutex s) pc
    end
  with
  | Some (Done (h, m, pc)) => Some (MpscState h m (<[t := pc]> (mp_pc s)) false)
  | Some Fault => Some (MpscState (mp_heap s) (mp_mutex s) (mp_pc s) true)
  | None => None
  end.

Definition mpsc_init (s : mpsc_state) : Prop :=
  ∃ node garbage h m, mpsc_mutex_init node garbage ∅ = Some (h, m) ∧
    s = MpscState h m (λ _, MpIdle) false.

#[export] Instance mpsc_mutex : Mutex (loc * ptr) mpsc_state := {|
  mtx_init := mpsc_init;
  mtx_step := mpsc_step;
  mtx_phase := λ s t, mpsc_phase (mp_pc s t);
|}.

(** ** The chain of nodes *)

Definition linked (h : mpsc_heap) (e : entry loc) : Prop :=
  h !! en_prev e = Some (MpscNode (Some (en_my e))).

Definition mpsc_W (h : mpsc_heap) (e : entry loc) (pc : mpsc_pc) : Prop :=
  pc = MpLink (en_my e) (en_prev e) ∨ pc = MpSpin (en_my e) (en_prev e) ∧ linked h e.

Definition mpsc_O (h : mpsc_heap) (e : entry loc) (pc : mpsc_pc) : Prop :=
  linked h e ∧ (pc = MpHeld ∨ pc = MpNext (en_prev e) ∨ pc = MpSetHead (en_prev e) (en_my e)).

Definition mpsc_N (t : tid) (pc : mpsc_pc) : Prop :=
  pc = MpIdle ∨ (∃ p, pc = MpExch p) ∨ ∃ p, pc = MpFree p.

Definition mpsc_priv (pc : mpsc_pc) : ptr :=
  match pc with MpExch p | MpFree p => Some p | _ => None end.

Definition mpsc_rank (pc : mpsc_pc) : nat :=
  match pc with
  | MpLink _ _ | MpSpin _ _ => 4
  | MpHeld => 3
  | MpNext _ => 2
  | MpSetHead _ _ => 1
  | _ => 0
  end.

Abbreviation mpsc_chain s c h :=
  (chain_rel (mpsc_W (mp_heap s)) (mpsc_O (mp_heap s)) mpsc_N
     (mp_head (mp_mutex s)) (mp_tail (mp_mutex s)) (mp_pc s) c h).

Record mpsc_inv (s : mpsc_state) (c : list (entry loc)) (h : bool) : Prop := {
  mi_fault : mp_fault s = false;
  mi_chain : mpsc_chain s c h;
  mi_owned : owned mpsc_priv (dom (mp_heap s)) (λ p, p ∈ chain_ids (mp_head (mp_mutex s)) c) (mp_pc s);
}.

(** Memory changes that no entry notices. *)
Lemma mpsc_weaken hp hp' cur last pcs c h :
  (∀ e, e ∈ c → pcs (en_tid e) = MpLink (en_my e) (en_prev e) ∨ hp' !! en_prev e = hp !! en_prev e) →
  chain_rel (mpsc_W hp) (mpsc_O hp) mpsc_N cur last pcs c h →
  chain_rel (mpsc_W hp') (mpsc_O hp') mpsc_N cur last pcs c h.
Proof.
  intros Hext. apply chain_rel_weaken; [| |done].
  - intros e He HW. destruct (Hext e He) as [|Heq]; [by left|].
    unfold mpsc_W, linked. by rewrite Heq.
  - intros e He [Hl HO]. destruct (Hext e He) as [Hpc|Heq].
    { rewrite Hpc in HO. by destruct HO as [?|[?|?]]. }
    unfold mpsc_O, linked. rewrite Heq. by split.
Qed.

Section mpsc_proofs.
Context (s : mpsc_state) (c : list (entry loc)) (h : bool) (t : tid).
Hypothesis Hinv : mpsc_inv s c h.

Let sim (s' : mpsc_state) : Prop :=
  ∃ c' h', qlock_step t (chain_tids c) h (chain_tids c') h' ∧ mpsc_inv s' c' h'.

Lemma mpsc_queued_iff : queued (mpsc_phase (mp_pc s t)) = true ↔ t ∈ chain_tids c.
Proof.
  eapply (chain_rel_queued _ _ _ mpsc_phase); [..|apply Hinv].
  - by intros ?? [->|[-> _]].
  - by intros ?? [_ [->|[->| ->]]].
  - by intros ?? [->|[[? ->]|[? ->]]].
Qed.

Lemma mpsc_owns_iff :
  owns (mpsc_phase (mp_pc s t)) = true ↔ h = true ∧ head (chain_tids c) = Some t.
Proof.
  eapply (chain_rel_owns _ _ _ mpsc_phase); [..|apply Hinv].
  - by intros ?? [->|[-> _]].
  - by intros ?? [_ [->|[->| ->]]].
  - by intros ?? [->|[[? ->]|[? ->]]].
Qed.

Lemma mpsc_not_queued : queued (mpsc_phase (mp_pc s t)) = false → t ∉ chain_tids c.
Proof. intros Hq Hin%mpsc_queued_iff. congruence. Qed.

Lemma mpsc_prev_alloc e : e ∈ c → en_prev e ∈ dom (mp_heap s).
Proof.
  intros He. apply (ow_shared _ _ _ _ (mi_owned _ _ _ Hinv)).
  eapply chain_prev_in; [apply Hinv|done].
Qed.

Lemma mpsc_sim_create p g :
  mp_pc s t = MpIdle → mp_heap s !! p = None →
  sim (MpscState (<[p := MpscNode g]> (mp_heap s)) (mp_mutex s) (<[t := MpExch p]> (mp_pc s)) false).
Proof.
  intros Hpc Hp%not_elem_of_dom. destruct Hinv as [_ Hcr How].
  exists c, h. split; [constructor|]. split; simpl; [done|..].
  - apply chain_rel_out; [|apply mpsc_not_queued; by rewrite Hpc|right; left; eauto].
    eapply mpsc_weaken; [|done]. intros e He%mpsc_prev_alloc. right.
    apply lookup_insert_ne. by intros ->.
  - rewrite dom_insert_L. apply owned_alloc; [done..|by rewrite Hpc|done].
Qed.

Lemma mpsc_sim_exch p :
  mp_pc s t = MpExch p →
  sim (MpscState (mp_heap s) (MpscMutexT (mp_head (mp_mutex s)) p)
         (<[t := MpLink p (mp_tail (mp_mutex s))]> (mp_pc s)) false).
Proof.
  intros Hpc. destruct Hinv as [_ Hcr How].
  assert (t ∉ chain_tids c) as Hn by (apply mpsc_not_queued; by rewrite Hpc).
  destruct (ow_priv _ _ _ _ How t p) as [_ Hfresh]; [by rewrite Hpc|].
  exists (c ++ [Entry t (mp_tail (mp_mutex s)) p]), h.
  unfold chain_tids at 2. rewrite map_app. split; [by constructor|]. split; simpl; [done|..].
  - apply chain_rel_arrive; [done..|]. by left.
  - eapply owned_publish with (p := p); [done|by rewrite Hpc|done|].
    intros q. unfold chain_ids. rewrite map_app. set_solver.
Qed.

(** The entry of a waiting thread. *)
Lemma mpsc_waiter m p :
  mp_pc s t = MpLink m p ∨ mp_pc s t = MpSpin m p →
  ∃ e, e ∈ c ∧ en_tid e = t ∧ en_my e = m ∧ en_prev e = p ∧
    mpsc_W (mp_heap s) e (mp_pc s t) ∧ ¬ (h = true ∧ head c = Some e) ∧
    mpsc_priv (mp_pc s t) = None.
Proof.
  intros Hpc. destruct Hinv as [_ Hcr _].
  assert (∃ e, e ∈ c ∧ en_tid e = t ∧ mpsc_W (mp_heap s) e (mp_pc s t) ∧
    ¬ (h = true ∧ head c = Some e)) as (e & ? & ? & HW & ?).
  { destruct Hpc as [Hpc|Hpc]; (eapply chain_rel_waiter; [done|pc_absurd Hpc..]). }
  exists e. assert (en_my e = m ∧ en_prev e = p) as [??].
  { destruct Hpc as [Hpc|Hpc], HW as [HW|[HW _]]; rewrite Hpc in HW; by simplify_eq. }
  split_and!; [done..|by destruct Hpc as [->| ->]].
Qed.

Lemma mpsc_sim_link m p :
  mp_pc s t = MpLink m p →
  (∃ v, mp_heap s !! p = Some v) ∧
  sim (MpscState (<[p := MpscNode (Some m)]> (mp_heap s)) (mp_mutex s)
         (<[t := MpSpin m p]> (mp_pc s)) false).
Proof.
  intros Hpc. destruct (mpsc_waiter m p) as (e & He & <- & <- & <- & _ & Hnh & Hnp); [by auto|].
  pose proof (mpsc_prev_alloc e He) as [v Hv]%elem_of_dom. split; [by eauto|].
  destruct Hinv as [_ Hcr How]. exists c, h. split; [constructor|]. split; simpl; [done|..].
  - apply chain_rel_wait; [|done..|right; split; [done|by apply lookup_insert_eq]].
    eapply mpsc_weaken; [|done]. intros e' He'. destruct (decide (en_prev e = en_prev e')) as [Heq|].
    + rewrite <-(chain_prev_unique _ _ _ e e' (cr_chain _ _ _ _ _ _ _ _ Hcr)
        (cr_ids _ _ _ _ _ _ _ _ Hcr) He He' Heq). by left.
    + right. by apply lookup_insert_ne.
  - rewrite dom_insert_lookup_L by eauto. apply (owned_keep _ _ _ _ _ _ _ How); [by rewrite Hnp|done].
Qed.

Lemma mpsc_sim_spin m p :
  mp_pc s t = MpSpin m p →
  sim (MpscState (mp_heap s) (mp_mutex s)
    (<[t := if bool_decide (mp_head (mp_mutex s) = p) then MpHeld else MpSpin m p]> (mp_pc s)) false).
Proof.
  intros Hpc. destruct (mpsc_waiter m p) as (e & He & <- & <- & <- & HW & Hnh & Hnp); [by auto|].
  destruct Hinv as [_ Hcr How]. rewrite Hpc in HW. destruct HW as [?|[_ HW]]; [done|].
  case_bool_decide as Heq.
  - destruct (chain_rel_admit _ _ _ _ _ _ _ _ e MpHeld Hcr) as (-> & [c' ->] & Hcr');
      [done..|by split; auto|].
    exists (e :: c'), true. split; [constructor|]. split; simpl; [done..|].
    apply (owned_keep _ _ _ _ _ _ _ How); [by rewrite Hnp|done].
  - exists c, h. split; [constructor|]. split; simpl; [done|..].
    + apply chain_rel_wait; [done..|]. by right.
    + apply (owned_keep _ _ _ _ _ _ _ How); [by rewrite Hnp|done].
Qed.

Lemma mpsc_owner :
  owns (mpsc_phase (mp_pc s t)) = true →
  ∃ e c', c = e :: c' ∧ h = true ∧ en_tid e = t ∧ en_prev e = mp_head (mp_mutex s) ∧
    mpsc_O (mp_heap s) e (mp_pc s t) ∧ mpsc_priv (mp_pc s t) = None.
Proof.
  intros Ho. destruct Hinv as [_ Hcr _].
  destruct (mp_pc s t) as [| | | | | | |] eqn:Hpc; try done;
    (destruct (chain_rel_owner _ _ _ _ _ _ _ _ _ Hcr ltac:(pc_absurd Hpc) ltac:(pc_absurd Hpc))
      as (e & c' & ? & ? & ? & ? & HO); rewrite Hpc in HO; by exists e, c').
Qed.

Lemma mpsc_sim_own pc e c' :
  c = e :: c' → h = true → en_tid e = t → mpsc_priv (mp_pc s t) = None → mpsc_priv pc = None →
  mpsc_O (mp_heap s) e pc →
  sim (MpscState (mp_heap s) (mp_mutex s) (<[t := pc]> (mp_pc s)) false).
Proof.
  intros -> -> <- Hnp Hpc HO. destruct Hinv as [_ Hcr How].
  exists (e :: c'), true. split; [constructor|]. split; simpl; [done|..].
  - by eapply chain_rel_own.
  - apply (owned_keep _ _ _ _ _ _ _ How); [by rewrite Hnp|done].
Qed.

(** The store to [head] releases the lock; the old node becomes private to the
    thread that leaves. *)
Lemma mpsc_sim_release e c' :
  c = e :: c' → h = true → en_tid e = t → en_prev e = mp_head (mp_mutex s) →
  mpsc_priv (mp_pc s t) = None →
  sim (MpscState (mp_heap s) (MpscMutexT (en_my e) (mp_tail (mp_mutex s)))
         (<[t := MpFree (en_prev e)]> (mp_pc s)) false).
Proof.
  intros -> -> <- Hp Hnp. destruct Hinv as [_ Hcr How].
  exists c', false. split; [constructor|]. split; simpl; [done|..].
  - eapply chain_rel_leave; [done|right; right; eauto|done].
  - eapply owned_retire with (p := en_prev e); [done|rewrite Hp; by left|done..|].
    intros q. rewrite Hp. pose proof (cr_ids _ _ _ _ _ _ _ _ Hcr) as [Hn _]%NoDup_cons.
    unfold chain_ids in *. simpl in *. set_solver.
Qed.

Lemma mpsc_sim_free p :
  mp_pc s t = MpFree p →
  (∃ v, mp_heap s !! p = Some v) ∧
  sim (MpscState (delete p (mp_heap s)) (mp_mutex s) (<[t := MpIdle]> (mp_pc s)) false).
Proof.
  intros Hpc. destruct Hinv as [_ Hcr How].
  destruct (ow_priv _ _ _ _ How t p) as [Hin Hn]; [by rewrite Hpc|].
  split; [by apply elem_of_dom in Hin|]. exists c, h. split; [constructor|]. split; simpl; [done|..].
  - apply chain_rel_out; [|apply mpsc_not_queued; by rewrite Hpc|by left].
    eapply mpsc_weaken; [|done]. intros e He. right. apply lookup_delete_ne.
    intros ->. apply Hn. eapply chain_prev_in; [apply Hcr|done].
  - rewrite dom_delete_L. apply owned_free; [done|by rewrite Hpc|done].
Qed.
End mpsc_proofs.

Lemma mpsc_owner_step t l s c h :
  mpsc_inv s c h → owns (mpsc_phase (mp_pc s t)) = true →
  ∃ s' c' h', mpsc_step t l s = Some s' ∧
    qlock_step t (chain_tids c) h (chain_tids c') h' ∧ mpsc_inv s' c' h' ∧
    S (mpsc_rank (mp_pc s' t)) = mpsc_rank (mp_pc s t).
Proof.
  intros Hinv Ho.
  destruct (mpsc_owner _ _ _ t Hinv Ho) as (e & c' & Hc & Hh & Ht & Hp & [Hl HO] & Hnp).
  unfold mpsc_step. rewrite (mi_fault _ _ _ Hinv).
  destruct HO as [Hpc|[Hpc|Hpc]]; rewrite Hpc; simpl.
  - destruct (mpsc_sim_own _ _ _ t Hinv (MpNext (en_prev e)) e c') as (c1 & h' & ? & ?);
      [done..|by split; auto|].
    rewrite <-Hp. do 3 eexists. split_and!; [done..|]. simpl. by simpl_fn.
  - destruct (mpsc_sim_own _ _ _ t Hinv (MpSetHead (en_prev e) (en_my e)) e c') as (c1 & h' & ? & ?);
      [done..|by split; auto|].
    rewrite Hl. do 3 eexists. split_and!; [done..|]. simpl. by simpl_fn.
  - destruct (mpsc_sim_release _ _ _ t Hinv e c') as (c1 & h' & ? & ?); [done..|].
    do 3 eexists. split_and!; [done..|]. simpl. by simpl_fn.
Qed.

Lemma mpsc_sim t l s s' c h :
  mpsc_inv s c h → mpsc_step t l s = Some s' →
  ∃ c' h', qlock_step t (chain_tids c) h (chain_tids c') h' ∧ mpsc_inv s' c' h'.
Proof.
  intros Hinv Hstep. destruct (owns (mpsc_phase (mp_pc s t))) eqn:Ho.
  { destruct (mpsc_owner_step t l s c h Hinv Ho) as (s1 & c' & h' & Hs1 & ? & ? & _).
    rewrite Hs1 in Hstep. simplify_eq. eauto. }
  unfold mpsc_step in Hstep. rewrite (mi_fault _ _ _ Hinv) in Hstep.
  destruct (mp_pc s t) as [|p|m p|m p| |p|p m|p] eqn:Hpc; try done; simpl in Hstep.
  - unfold mpsc_mutex_create_node in Hstep. destruct (_ !! l.1) eqn:Hlk; simplify_eq.
    by eapply mpsc_sim_create.
  - simplify_eq. by eapply mpsc_sim_exch.
  - destruct (mpsc_sim_link _ _ _ t Hinv m p) as ([v Hv] & Hsim); [done|].
    rewrite Hv in Hstep. by simplify_eq.
  - pose proof (mpsc_sim_spin _ _ _ t Hinv m p Hpc). case_bool_decide; by simplify_eq.
  - destruct (mpsc_sim_free _ _ _ t Hinv p) as ([v Hv] & Hsim); [done|].
    rewrite Hv in Hstep. by simplify_eq.
Qed.

Lemma mpsc_exits t s c h :
  mpsc_inv s c h → owns (mpsc_phase (mp_pc s t)) = true →
  solo t s (λ s', queued (mpsc_phase (mp_pc s' t)) = false).
Proof.
  remember (mpsc_rank (mp_pc s t)) as r eqn:Hr. revert s c h Hr.
  induction r as [|r IH]; intros s c h Hr Hinv Ho; [by destruct (mp_pc s t)|].
  destruct (mpsc_owner_step t (1%positive, None) s c h Hinv Ho) as (s' & c' & h' & Hs & _ & Hinv' & Hrk).
  eapply solo_step; [done|]. destruct (owns (mpsc_phase (mp_pc s' t))) eqn:Ho'.
  - eapply IH; [lia|done..].
  - apply solo_done. destruct (mp_pc s t), (mp_pc s' t); simpl in *; congruence.
Qed.

Lemma mpsc_enters s x c :
  mpsc_inv s (x :: c) false →
  solo (en_tid x) s (λ s', mpsc_phase (mp_pc s' (en_tid x)) = Holding).
Proof.
  set (t := en_tid x).
  assert (∀ s m, mp_fault s = false → mp_pc s t = MpSpin m (mp_head (mp_mutex s)) →
    solo t s (λ s', mpsc_phase (mp_pc s' t) = Holding)) as Hspin.
  { intros s0 m Hf Hpc. eapply (solo_step _ (1%positive, None)).
    - simpl. unfold mpsc_step. rewrite Hf, Hpc. simpl. by rewrite bool_decide_eq_true_2.
    - apply solo_done. simpl. by simpl_fn. }
  intros Hinv. pose proof (mi_chain _ _ _ Hinv) as [[Hp _] _ _ [HW _] _].
  pose proof (mi_fault _ _ _ Hinv) as Hf.
  destruct HW as [Hpc|[Hpc _]]; rewrite Hp in Hpc; fold t in Hpc; [|by eapply Hspin].
  destruct (mpsc_sim_link _ _ _ t Hinv (en_my x) (en_prev x)) as ([v Hv] & _); [by rewrite Hp|].
  rewrite Hp in Hv. eapply (solo_step _ (1%positive, None)).
  - simpl. unfold mpsc_step. rewrite Hf, Hpc. simpl. by rewrite Hv.
  - eapply Hspin; [done|]. simpl. by simpl_fn.
Qed.

#[export] Instance mpsc_queue_lock : QueueLock (loc * ptr) mpsc_state.
Proof.
  refine {| ql_rel s q h := ∃ c, q = chain_tids c ∧ mpsc_inv s c h |}.
  - intros s (node & g & h & m & Hi & ->). unfold mpsc_mutex_init, mpsc_mutex_create_node in Hi.
    rewrite lookup_empty in Hi. simplify_eq/=. exists []. split; [done|]. split; simpl; [done|..].
    + split; simpl; try done; [apply NoDup_singleton|apply NoDup_nil_2|by left].
    + rewrite dom_insert_L, dom_empty_L. split; simpl; set_solver.
  - intros t l s s' q h (c & -> & Hinv) Hstep.
    destruct (mpsc_sim t l s s' c h Hinv Hstep) as (c' & h' & ? & ?). eauto 10.
  - intros s q h t (c & -> & Hinv). by eapply mpsc_queued_iff.
  - intros s q h t (c & -> & Hinv). by eapply mpsc_owns_iff.
  - by intros s t (? & ? & ? & ? & _ & ->).
  - intros t t' l s s' Hstep Hne. simpl in *. unfold mpsc_step in Hstep.
    step_inv Hstep; simpl; by simpl_fn.
  - intros t l s s' Hstep. simpl in *. unfold mpsc_step in Hstep.
    destruct (mp_fault s); [done|].
    destruct (mp_pc s t) eqn:Hpc; simpl in Hstep; step_inv Hstep; simpl; simpl_fn; by rewrite ?Hpc.
  - intros s t q ([|x c] & Heq & Hinv); [done|injection Heq as -> ->]. by eapply mpsc_enters.
  - intros s q h t (c & -> & Hinv) Ho. by eapply mpsc_exits.
Defined.

(** ** Theorems *)

(** The MPSC lock never touches freed memory and never frees twice, and it
    does not leak: when no thread is in the lock [head] and [tail] are the same
    node, the only one left, and [mpsc_mutex_destroy] frees it. *)
Lemma mpsc_memory_safe (s : mpsc_state) :
  reachable s → mp_fault s = false ∧
  ((∀ t, mp_pc s t = MpIdle) →
   mp_head (mp_mutex s) = mp_tail (mp_mutex s) ∧
   mpsc_mutex_destroy (mp_heap s) (mp_mutex s) = Done ∅).
Proof.
  intros Hr. destruct (qlock_reachable s Hr) as (q & h & (c & _ & [Hf Hcr How]) & _).
  split; [done|]. intros Hidle.
  assert (c = []) as ->.
  { destruct c as [|e c]; [done|]. destruct Hcr as [_ _ _ [Hpos _] _].
    rewrite Hidle in Hpos. destruct h; unfold mpsc_O, mpsc_W in Hpos; naive_solver. }
  split; [symmetry; apply Hcr|].
  assert (dom (mp_heap s) = {[mp_head (mp_mutex s)]}) as Hdom.
  { apply set_eq. intros p. rewrite elem_of_singleton. split.
    - intros [Hin%list_elem_of_singleton|[t Ht]]%(ow_all _ _ _ _ How); [done|].
      by rewrite Hidle in Ht.
    - intros ->. apply (ow_shared _ _ _ _ How). by left. }
  unfold mpsc_mutex_destroy. destruct (mp_heap s !! mp_head (mp_mutex s)) eqn:Hlk.
  - f_equal. apply dom_empty_inv_L. rewrite dom_delete_L, Hdom. set_solver.
  - apply not_elem_of_dom in Hlk. rewrite Hdom in Hlk. set_solver.
Qed.

(** C16: the MPSC lock is a correct queue lock: it excludes, it admits threads
    in the order of their exchanges on [tail], and when it is free a waiting
    thread can take it.  What [malloc] leaves in [next] does not matter.  It
    never touches freed memory and never frees twice, and when no thread is in
    the lock [mpsc_mutex_destroy] frees the only node that is left. *)
Theorem mpsc_correct :
  (lock_exclusive mpsc_mutex ∧ lock_fifo mpsc_mutex ∧ lock_progress mpsc_mutex) ∧
  ∀ s, reachable s → mp_fault s = false ∧
    ((∀ t, mp_pc s t = MpIdle) → mpsc_mutex_destroy (mp_heap s) (mp_mutex s) = Done ∅).
Proof.
  split; [apply qlock_correct|]. intros s [Hf Hidle]%mpsc_memory_safe. split; [done|]. intros Ht. by apply Hidle.
Qed.

Definition mpsc_example_start : mpsc_state :=
  MpscState {[1%positive := MpscNode (Some 5%positive)]} (MpscMutexT 1%positive 1%positive)
    (λ _, MpIdle) false.

(** Two acquisitions, the second of which allocates the node the first freed. *)
Definition mpsc_example_schedule : list (tid * (loc * ptr)) :=
  replicate 8 (0, (2%positive, None)) ++ replicate 8 (1, (1%positive, Some 1%positive)).

Example mpsc_memory_safe_run :
  ∃ s, run mpsc_example_schedule mpsc_example_start = Some s ∧ (∀ t, mp_pc s t = MpIdle) ∧
    mp_head (mp_mutex s) = mp_tail (mp_mutex s).
Proof.
  eexists. split; [vm_compute; reflexivity|].
  match goal with |- (∀ t, mp_pc ?s t = _) ∧ _ =>
    assert (∀ t, mp_pc s t = MpIdle) as Hidle;
      [intros [|[|t]]; reflexivity|split; [exact Hidle|]];
    refine (proj1 (proj2 (mpsc_memory_safe s _) Hidle));
    apply (run_reachable mpsc_example_schedule mpsc_example_start)
  end.
  - apply reachable_init. do 4 eexists. split; [|reflexivity]. reflexivity.
  - vm_compute. reflexivity.
Defined.
