(* ===== verification/QueueSpec.v ===== *)
(** * The queue interface

    Every benchmark queue offers [enqueue] and [try_dequeue_bulk]
    ([push]/[pop]); the harness relies on nothing else.  This file states what
    a queue promises: it refines an abstract first-in first-out queue on which
    each operation takes effect at one instant between its call and its return.
    Some queues are lax: their [pop] may return NULL on a queue that is not
    empty, provided that a [push] overlapped it.  The consequences for a whole
    run are proved here once for all queues. *)

From S2P Require Import Prelude Lts.

(** ** Where a thread stands with respect to one queue *)

Inductive qstatus :=
  | QsIdle
  | QsPush (n : loc)    (** [push(n)] called, not in the queue yet *)
  | QsPushed            (** in the queue, [push] has not returned yet *)
  | QsPop               (** [pop] called, outcome open *)
  | QsPopped (r : ptr)  (** outcome fixed, [pop] has not returned yet *).

#[export] Instance qstatus_eq_dec : EqDecision qstatus.
Proof. solve_decision. Defined.

(** A queue implementation: a transition system with a view of its threads. *)
Class Queue (L S : Type) := {
  q_init : S → Prop;
  q_step : tid → L → S → option S;
  q_status : S → tid → qstatus;
}.

#[export] Instance queue_lts {L S} `{Queue L S} : Lts (tid * L) S := {
  lts_init := q_init;
  lts_step := λ '(t, l) s, q_step t l s;
}.

(** ** The abstract queue

    [ff_exc t] says that a push has taken effect since [t] called [pop]. *)

Record fifo := Fifo {
  ff_items : list loc;
  ff_st : tid → qstatus;
  ff_exc : tid → bool;
}.

Definition fifo_empty : fifo := Fifo [] (λ _, QsIdle) (λ _, false).

Inductive fifo_step (lax : bool) (t : tid) (a : fifo) : fifo → Prop :=
  | fs_stutter : fifo_step lax t a a
  | fs_call_push n :
      ff_st a t = QsIdle →
      fifo_step lax t a (Fifo (ff_items a) (<[t := QsPush n]> (ff_st a)) (ff_exc a))
  | fs_push n :
      ff_st a t = QsPush n →
      fifo_step lax t a (Fifo (ff_items a ++ [n]) (<[t := QsPushed]> (ff_st a)) (λ _, true))
  | fs_ret_push :
      ff_st a t = QsPushed →
      fifo_step lax t a (Fifo (ff_items a) (<[t := QsIdle]> (ff_st a)) (ff_exc a))
  | fs_call_pop :
      ff_st a t = QsIdle →
      fifo_step lax t a (Fifo (ff_items a) (<[t := QsPop]> (ff_st a)) (<[t := false]> (ff_exc a)))
  | fs_excuse t' :
      ff_st a t = QsPop → t' ≠ t → ff_st a t' = QsPushed →
      fifo_step lax t a (Fifo (ff_items a) (ff_st a) (<[t := true]> (ff_exc a)))
  | fs_pop n q :
      ff_st a t = QsPop → ff_items a = n :: q →
      fifo_step lax t a (Fifo q (<[t := QsPopped (Some n)]> (ff_st a)) (ff_exc a))
  | fs_fail :
      ff_st a t = QsPop →
      ff_items a = [] ∨
        (lax = true ∧ (ff_exc a t = true ∨ ∃ t', t' ≠ t ∧ ff_st a t' = QsPushed)) →
      fifo_step lax t a (Fifo (ff_items a) (<[t := QsPopped None]> (ff_st a)) (ff_exc a))
  | fs_ret_pop r :
      ff_st a t = QsPopped r →
      fifo_step lax t a (Fifo (ff_items a) (<[t := QsIdle]> (ff_st a)) (ff_exc a)).

(** The contract of a queue: a simulation into the abstract queue. *)
Class FifoQueue (L S : Type) `{Queue L S} (lax : bool) := {
  fq_rel : S → fifo → Prop;
  fq_init s : q_init s → fq_rel s fifo_empty;
  fq_sim t l s s' a :
    fq_rel s a → q_step t l s = Some s' →
    ∃ a', fifo_step lax t a a' ∧ fq_rel s' a';
  fq_status s a t : fq_rel s a → q_status s t = ff_st a t;
}.

(** The same as a proposition about one queue. *)
Definition refines_fifo {L S} (Q : Queue L S) (lax : bool) : Prop :=
  ∃ R : S → fifo → Prop,
    (∀ s, q_init s → R s fifo_empty) ∧
    (∀ t l s s' a, R s a → q_step t l s = Some s' → ∃ a', fifo_step lax t a a' ∧ R s' a') ∧
    (∀ s a t, R s a → q_status s t = ff_st a t).

(** ** Events of a run *)

Inductive qevent := EvPushed (n : loc) | EvPopped (n : loc).

Definition step_qevents (before after : qstatus) : list qevent :=
  match before, after with
  | QsPush n, QsPushed => [EvPushed n]
  | QsPop, QsPopped (Some n) => [EvPopped n]
  | _, _ => []
  end.

Fixpoint qtrace {L S} {Q : Queue L S} (ls : list (tid * L)) (s : S) : list qevent :=
  match ls with
  | [] => []
  | (t, l) :: ls =>
      match q_step t l s with
      | Some s' => step_qevents (q_status s t) (q_status s' t) ++ qtrace ls s'
      | None => []
      end
  end.

(** Nodes in the order in which they took effect. *)
Definition pushes (tr : list qevent) : list loc :=
  omap (λ e, match e with EvPushed n => Some n | _ => None end) tr.
Definition pops (tr : list qevent) : list loc :=
  omap (λ e, match e with EvPopped n => Some n | _ => None end) tr.

(** Nothing is lost, invented, duplicated or reordered: at any moment the nodes
    pushed are the nodes popped followed by those still inside. *)
Definition queue_fifo {L S} (Q : Queue L S) : Prop :=
  ∀ ls s s', q_init s → run ls s = Some s' →
    ∃ inside, pushes (qtrace ls s) = pops (qtrace ls s) ++ inside.

(** [pop] returns NULL only when everything pushed so far has been popped. *)
Definition queue_strict {L S} (Q : Queue L S) : Prop :=
  ∀ ls t l s s1 s2, q_init s → run ls s = Some s1 → q_step t l s1 = Some s2 →
    q_status s1 t = QsPop → q_status s2 t = QsPopped None →
    pushes (qtrace ls s) = pops (qtrace ls s).

(** ** Consequences of the contract *)

Lemma pushes_app tr tr' : pushes (tr ++ tr') = pushes tr ++ pushes tr'.
Proof. apply omap_app. Qed.

Lemma pops_app tr tr' : pops (tr ++ tr') = pops tr ++ pops tr'.
Proof. apply omap_app. Qed.

Section fifo.
Context {L S : Type} {Q : Queue L S} {lax : bool} {F : FifoQueue L S lax}.

Lemma fifo_refines : refines_fifo Q lax.
Proof.
  exists fq_rel. split_and!; [apply fq_init|apply fq_sim|apply fq_status].
Qed.

Lemma fifo_step_items t s s' a a' :
  fq_rel s a → fq_rel s' a' → fifo_step lax t a a' →
  ff_items a ++ pushes (step_qevents (q_status s t) (q_status s' t)) =
  pops (step_qevents (q_status s t) (q_status s' t)) ++ ff_items a'.
Proof.
  intros HR HR' Hstep. rewrite (fq_status s a t HR), (fq_status s' a' t HR').
  destruct Hstep as [|n Hst|n Hst|Hst|Hst|t' Hst|n q Hst Hq|Hst Hq|r Hst]; simpl; simpl_fn;
    rewrite ?Hst; simpl; rewrite ?app_nil_r; try done.
  destruct (ff_st a t) as [| | | |[]]; simpl; by rewrite ?app_nil_r.
Qed.

Lemma fifo_run ls s s' a :
  fq_rel s a → run ls s = Some s' →
  ∃ a', fq_rel s' a' ∧
    ff_items a ++ pushes (qtrace ls s) = pops (qtrace ls s) ++ ff_items a'.
Proof.
  revert s a. induction ls as [|[t l] ls IH]; intros s a HR Hrun; simpl in *.
  { simplify_eq. exists a. by rewrite app_nil_r. }
  destruct (q_step t l s) as [s1|] eqn:Hstep; [|done].
  destruct (fq_sim t l s s1 a HR Hstep) as (a1 & Ha1 & HR1).
  destruct (IH s1 a1 HR1 Hrun) as (a' & HR' & Heq). exists a'. split; [done|].
  pose proof (fifo_step_items t s s1 a a1 HR HR1 Ha1) as Hit.
  rewrite pushes_app, pops_app, (assoc_L (++)), Hit, <-!(assoc_L (++)), Heq. done.
Qed.

Lemma fifo_queue_fifo : queue_fifo Q.
Proof.
  intros ls s s' Hi Hrun.
  destruct (fifo_run ls s s' fifo_empty (fq_init s Hi) Hrun) as (a' & _ & Heq). eauto.
Qed.
End fifo.

Lemma fifo_queue_strict {L S} {Q : Queue L S} {F : FifoQueue L S false} : queue_strict Q.
Proof.
  intros ls t l s s1 s2 Hi Hrun Hstep Hs1 Hs2.
  destruct (fifo_run ls s s1 fifo_empty (fq_init s Hi) Hrun) as (a1 & HR1 & Heq).
  destruct (fq_sim t l s1 s2 a1 HR1 Hstep) as (a2 & Ha2 & HR2).
  rewrite (fq_status _ _ _ HR1) in Hs1. rewrite (fq_status _ _ _ HR2) in Hs2.
  destruct Ha2 as [|n Hst|n Hst|Hst|Hst|t' Hst|n q Hst Hq|Hst Hq|r Hst]; simpl in *; simpl_fn;
    try congruence.
  destruct Hq as [Hq|[? _]]; [|done]. rewrite Hq, app_nil_r in Heq. done.
Qed.
