(* ===== verification/LockQueue.v ===== *)
(** * The lock-based queue of [src/lockrate.c]

    [q_create], [q_push] and [q_pop]: a singly linked list whose critical
    sections are protected by the [lock_t] that [LOCK_METHOD] selects.  The
    queue is modelled and proved against the interface [MutexLaws] alone, so
    the theorems hold for each of the locks; the pthread locks are library code
    and enter only through that interface.  Every statement of a critical
    section is one step, and the steps of [lock] and [unlock] are those of the
    lock. *)

From S2P Require Import Prelude Lts Mutex Nodes QueueSpec.
From S2P Require Import TicketMutex TidexMutex ClhMutex MpscMutex.

(** ** Data *)

Inductive lq_pc :=
  | LqIdle
  | LqPushLock (n : loc)   (** in [lock(&self->lock)] *)
  | LqClear (n : loc)      (** [n->next = NULL] *)
  | LqTest (n : loc)       (** [if(self->head == NULL)] *)
  | LqHead0 (n : loc)      (** [self->head = n], empty queue *)
  | LqTail0 (n : loc)      (** [self->tail = n] *)
  | LqLink (n : loc)       (** [self->head->next = n] *)
  | LqHead1 (n : loc)      (** [self->head = n] *)
  | LqPushUnlock           (** in [unlock(&self->lock)] *)
  | LqPopLock
  | LqEmpty                (** [if(self->tail == NULL)] *)
  | LqTake                 (** [rc = self->tail] *)
  | LqLast (rc : loc)      (** [if(!self->tail->next)] *)
  | LqHeadN (rc : loc)     (** [self->head = NULL] *)
  | LqTailN (rc : loc)     (** [self->tail = NULL] *)
  | LqNext (rc : loc)      (** [self->tail = self->tail->next] *)
  | LqPopUnlock (rc : ptr)
  | LqCrash                (** a NULL pointer has been dereferenced *).

(** [q_t] without its lock. *)
Record q_t := QT { qt_head : ptr; qt_tail : ptr }.

Definition q_create : q_t := QT None None.

(** One statement of the critical section of [q_push]; the [next] fields of all
    nodes are [nx]. *)
Definition q_push (self : q_t) (nx : loc → ptr) (pc : lq_pc) : option (q_t * (loc → ptr) * lq_pc) :=
  match pc with
  | LqClear n => Some (self, <[n := None]> nx, LqTest n)
  | LqTest n =>
      match qt_head self with
      | None => Some (self, nx, LqHead0 n)
      | Some _ => Some (self, nx, LqLink n)
      end
  | LqHead0 n => Some (QT (Some n) (qt_tail self), nx, LqTail0 n)
  | LqTail0 n => Some (QT (qt_head self) (Some n), nx, LqPushUnlock)
  | LqLink n =>
      match qt_head self with
      | Some h => Some (self, <[h := Some n]> nx, LqHead1 n)
      | None => Some (self, nx, LqCrash)
      end
  | LqHead1 n => Some (QT (Some n) (qt_tail self), nx, LqPushUnlock)
  | _ => None
  end.

(** One statement of the critical section of [q_pop]. *)
Definition q_pop (self : q_t) (nx : loc → ptr) (pc : lq_pc) : option (q_t * (loc → ptr) * lq_pc) :=
  match pc with
  | LqEmpty =>
      match qt_tail self with
      | None => Some (self, nx, LqPopUnlock None)
      | Some _ => Some (self, nx, LqTake)
      end
  | LqTake =>
      match qt_tail self with
      | Some rc => Some (self, nx, LqLast rc)
      | None => Some (self, nx, LqCrash)
      end
  | LqLast rc =>
      match qt_tail self with
      | Some tl =>
          match nx tl with
          | None => Some (self, nx, LqHeadN rc)
          | Some _ => Some (self, nx, LqNext rc)
          end
      | None => Some (self, nx, LqCrash)
      end
  | LqHeadN rc => Some (QT None (qt_tail self), nx, LqTailN rc)
  | LqTailN rc => Some (QT (qt_head self) None, nx, LqPopUnlock (Some rc))
  | LqNext rc =>
      match qt_tail self with
      | Some tl => Some (QT (qt_head self) (nx tl), nx, LqPopUnlock (Some rc))
      | None => Some (self, nx, LqCrash)
      end
  | _ => None
  end.

Definition lq_status (pc : lq_pc) : qstatus :=
  match pc with
  | LqIdle => QsIdle
  | LqPushLock n | LqClear n | LqTest n | LqHead0 n | LqTail0 n | LqLink n | LqHead1 n => QsPush n
  | LqPushUnlock => QsPushed
  | LqPopLock | LqEmpty | LqTake | LqLast _ | LqHeadN _ | LqTailN _ | LqNext _ => QsPop
  | LqPopUnlock rc => QsPopped rc
  | LqCrash => QsIdle
  end.

(** A client calls an operation, or the thread takes its next step; [LqRun]
    carries the label for a step of the lock. *)
Inductive lq_label (L : Type) := LqCallPush (n : loc) | LqCallPop | LqRun (l : L).
Arguments LqCallPush {L} _.
Arguments LqCallPop {L}.
Arguments LqRun {L} _.

Section system.
Context {L S : Type} (M : Mutex L S).

Record lq_state := LqState {
  lq_lock : S;
  lq_q : q_t;
  lq_next : loc → ptr;
  lq_inuse : gset loc;  (** nodes that belong to the queue or to a call *)
  lq_pcs : tid → lq_pc;
}.

(** A step of [lock] or [unlock]: the call is over when the lock's phase of the
    thread is [stop]. *)
Definition lq_lock_step (t : tid) (l : L) (s : lq_state) (stop : phase) (pc next : lq_pc)
    (inuse : gset loc) : option lq_state :=
  match mtx_step t l (lq_lock s) with
  | Some k =>
      if decide (mtx_phase k t = stop) then
        Some (LqState k (lq_q s) (lq_next s) inuse (<[t := next]> (lq_pcs s)))
      else Some (LqState k (lq_q s) (lq_next s) (lq_inuse s) (<[t := pc]> (lq_pcs s)))
  | None => None
  end.

Definition lq_step (t : tid) (l : lq_label L) (s : lq_state) : option lq_state :=
  match lq_pcs s t, l with
  | LqIdle, LqCallPush n =>
      (* clients push nodes that are not in use *)
      if decide (n ∈ lq_inuse s) then None
      else Some (LqState (lq_lock s) (lq_q s) (lq_next s) ({[n]} ∪ lq_inuse s)
                   (<[t := LqPushLock n]> (lq_pcs s)))
  | LqIdle, LqCallPop =>
      Some (LqState (lq_lock s) (lq_q s) (lq_next s) (lq_inuse s) (<[t := LqPopLock]> (lq_pcs s)))
  | LqIdle, LqRun _ => None
  | LqPushLock n, LqRun l => lq_lock_step t l s Holding (LqPushLock n) (LqClear n) (lq_inuse s)
  | LqPushUnlock, LqRun l => lq_lock_step t l s Idle LqPushUnlock LqIdle (lq_inuse s)
  | LqPopLock, LqRun l => lq_lock_step t l s Holding LqPopLock LqEmpty (lq_inuse s)
  | LqPopUnlock rc, LqRun l =>
      (* the caller owns the node that pop returns *)
      lq_lock_step t l s Idle (LqPopUnlock rc) LqIdle
        (match rc with Some n => lq_inuse s ∖ {[n]} | None => lq_inuse s end)
  | (LqClear _ | LqTest _ | LqHead0 _ | LqTail0 _ | LqLink _ | LqHead1 _) as pc, LqRun _ =>
      match q_push (lq_q s) (lq_next s) pc with
      | Some (q, nx, pc') => Some (LqState (lq_lock s) q nx (lq_inuse s) (<[t := pc']> (lq_pcs s)))
      | None => None
      end
  | (LqEmpty | LqTake | LqLast _ | LqHeadN _ | LqTailN _ | LqNext _) as pc, LqRun _ =>
      match q_pop (lq_q s) (lq_next s) pc with
      | Some (q, nx, pc') => Some (LqState (lq_lock s) q nx (lq_inuse s) (<[t := pc']> (lq_pcs s)))
      | None => None
      end
  | _, _ => None
  end.

Definition lq_init (s : lq_state) : Prop :=
  mtx_init (lq_lock s) ∧ lq_q s = q_create ∧ lq_inuse s = ∅ ∧ lq_pcs s = (λ _, LqIdle).

Definition lock_queue : Queue (lq_label L) lq_state := {|
  q_init := lq_init;
  q_step := lq_step;
  q_status := λ s t, lq_status (lq_pcs s t);
|}.
End system.

(** ** The lock that stands behind [lock_t] *)

Record some_mutex := SomeMutex {
  sm_label : Type;
  sm_state : Type;
  sm_mutex : Mutex sm_label sm_state;
}.

Inductive lock_method :=
  | PTHREAD_LOCK | PTHREAD_SPINLOCK | CLH_LOCK | MPSC_LOCK
  | TIDEX_LOCK | TICKET_LOCK | TIDEX_NPS_LOCK.

(** [lock_init], [lock] and [unlock] forward to the selected lock.  The two
    pthread locks are arguments, as is [pthread_self]; [n] bounds the number of
    threads.  This is one lock; what several locks share is in [SharedLocks]. *)
Definition lock_t (pthread_mutex pthread_spinlock : some_mutex) (pthread_self : tid → Z) (n : nat)
    (LOCK_METHOD : lock_method) : some_mutex :=
  match LOCK_METHOD with
  | PTHREAD_LOCK => pthread_mutex
  | PTHREAD_SPINLOCK => pthread_spinlock
  | CLH_LOCK => SomeMutex _ _ clh_mutex
  | MPSC_LOCK => SomeMutex _ _ mpsc_mutex
  | TIDEX_LOCK => SomeMutex _ _ (tidex_mutex pthread_self)
  | TICKET_LOCK => SomeMutex _ _ (ticket_mutex n)
  | TIDEX_NPS_LOCK => SomeMutex _ _ (tidex_nps_mutex n)
  end.

Definition mutex_laws (m : some_mutex) : Prop :=
  @MutexLaws (sm_label m) (sm_state m) (sm_mutex m).

(** ** Invariant *)

Definition lq_body (pc : lq_pc) : bool :=
  match pc with
  | LqIdle | LqPushLock _ | LqPushUnlock | LqPopLock | LqPopUnlock _ | LqCrash => false
  | _ => true
  end.

(** The node a call has for itself. *)
Definition lq_priv (pc : lq_pc) : ptr :=
  match lq_status pc with QsPush n => Some n | QsPopped r => r | _ => None end.

Definition lq_phase_ok (pc : lq_pc) (p : phase) : Prop :=
  match pc with
  | LqIdle => p = Idle
  | LqPushLock _ | LqPopLock => p = Idle ∨ p = Entering ∨ p = Waiting ∨ p = Acquired
  | LqPushUnlock | LqPopUnlock _ => p = Holding ∨ p = Unlocking ∨ p = Leaving
  | LqCrash => False
  | _ => p = Holding
  end.

(** The list is well formed: [tail] is its first node and [head] its last. *)
Definition lq_ok (q : q_t) (nx : loc → ptr) (items : list loc) : Prop :=
  lseg nx (qt_tail q) items None ∧ qt_head q = last items.

(** What the thread in the critical section knows. *)
Definition lq_mid (pc : lq_pc) (q : q_t) (nx : loc → ptr) (items : list loc) : Prop :=
  match pc with
  | LqTest n => lq_ok q nx items ∧ nx n = None
  | LqHead0 n => lq_ok q nx items ∧ nx n = None ∧ items = []
  | LqTail0 n => qt_head q = Some n ∧ nx n = None ∧ items = []
  | LqLink n => lq_ok q nx items ∧ nx n = None ∧ items ≠ []
  | LqHead1 n => lseg nx (qt_tail q) (items ++ [n]) None
  | LqTake => lq_ok q nx items ∧ items ≠ []
  | LqLast rc => lq_ok q nx items ∧ ∃ r, items = rc :: r
  | LqHeadN rc => lq_ok q nx items ∧ items = [rc]
  | LqTailN rc => items = [rc] ∧ qt_head q = None
  | LqNext rc => lq_ok q nx items ∧ ∃ x r, items = rc :: x :: r
  | _ => lq_ok q nx items
  end.

Section proofs.
Context {L S : Type} {M : Mutex L S} {ML : MutexLaws L S}.

Record lq_inv (s : lq_state) (a : fifo) : Prop := {
  li_lock : reachable (lq_lock s);
  li_phase : ∀ t, lq_phase_ok (lq_pcs s t) (mtx_phase (lq_lock s) t);
  li_owned : owned lq_priv (lq_inuse s) (λ p, p ∈ ff_items a) (lq_pcs s);
  li_nodup : NoDup (ff_items a);
  li_mid : ∀ t, lq_body (lq_pcs s t) = true →
    lq_mid (lq_pcs s t) (lq_q s) (lq_next s) (ff_items a);
  li_ok : (∀ t, lq_body (lq_pcs s t) = false) → lq_ok (lq_q s) (lq_next s) (ff_items a);
  li_status : ∀ t, lq_status (lq_pcs s t) = ff_st a t;
}.

(** The lock admits one thread to the critical section. *)
Lemma lq_alone s a t t' :
  lq_inv s a → lq_body (lq_pcs s t) = true → lq_body (lq_pcs s t') = true → t = t'.
Proof.
  intros Hinv Ht Ht'.
  assert (∀ u, lq_body (lq_pcs s u) = true → owns (mtx_phase (lq_lock s) u) = true) as Hown.
  { intros u Hu. pose proof (li_phase _ _ Hinv u) as Hp.
    destruct (lq_pcs s u); simpl in *; try done; by rewrite Hp. }
  apply (mtx_exclusion (lq_lock s)); [apply Hinv|by apply Hown..].
Qed.

(** A statement of the critical section. *)
Lemma lq_inv_body s a t q nx pc a' :
  lq_inv s a → lq_body (lq_pcs s t) = true → lq_phase_ok pc Holding →
  owned lq_priv (lq_inuse s) (λ p, p ∈ ff_items a') (<[t := pc]> (lq_pcs s)) →
  NoDup (ff_items a') → lq_mid pc q nx (ff_items a') →
  (∀ u, lq_status ((<[t := pc]> (lq_pcs s)) u) = ff_st a' u) →
  lq_inv (LqState (lq_lock s) q nx (lq_inuse s) (<[t := pc]> (lq_pcs s))) a'.
Proof.
  intros Hinv Hb Hp How Hnd Hmid Hst. split; simpl; try done; [apply Hinv|..].
  - intros u. same_tid t u; [|apply Hinv].
    pose proof (li_phase _ _ Hinv t) as Ht. destruct (lq_pcs s t); simpl in *; try done; by rewrite Ht.
  - intros u. same_tid t u; [done|]. intros Hu.
    assert (t = u) by (by eapply lq_alone). done.
  - intros Hno. specialize (Hno t). rewrite fn_lookup_insert in Hno. by destruct pc.
Qed.

(** A step of [lock] or [unlock]. *)
Lemma lq_inv_lock s a t l k pc :
  lq_inv s a → mtx_step t l (lq_lock s) = Some k → lq_phase_ok pc (mtx_phase k t) →
  reachable k ∧ ∀ u, lq_phase_ok ((<[t := pc]> (lq_pcs s)) u) (mtx_phase k u).
Proof.
  intros Hinv Hk Hp. split.
  - apply (reachable_step (t, l) (lq_lock s)); [apply Hinv|done].
  - intros u. same_tid t u; [done|]. rewrite (mtx_frame t u l _ _ Hk) by done. apply Hinv.
Qed.

(** Its effect on the rest: the thread is outside the critical section before
    and after, or enters it. *)
Lemma lq_inv_outside s a t l k pc inuse a' :
  lq_inv s a → mtx_step t l (lq_lock s) = Some k → lq_phase_ok pc (mtx_phase k t) →
  lq_body (lq_pcs s t) = false →
  owned lq_priv inuse (λ p, p ∈ ff_items a') (<[t := pc]> (lq_pcs s)) →
  ff_items a' = ff_items a →
  (lq_body pc = true → ∀ q nx items, lq_ok q nx items → lq_mid pc q nx items) →
  (∀ u, lq_status ((<[t := pc]> (lq_pcs s)) u) = ff_st a' u) →
  lq_inv (LqState k (lq_q s) (lq_next s) inuse (<[t := pc]> (lq_pcs s))) a'.
Proof.
  intros Hinv Hk Hp Hb How Hit Hmid Hst.
  destruct (lq_inv_lock s a t l k pc Hinv Hk Hp) as [Hr Hph].
  split; simpl; try done.
  - rewrite Hit. apply Hinv.
  - intros u Hu. rewrite Hit. same_tid t u; [|by apply Hinv].
    apply Hmid; [done|]. apply Hinv. intros v. destruct (decide (v = t)) as [->|Hne]; [done|].
    apply not_true_iff_false. intros Hv. apply Hne.
    apply (mtx_exclusion k); [done|..].
    + specialize (Hph v). rewrite fn_lookup_insert_ne in Hph by done.
      destruct (lq_pcs s v); simpl in *; try done; by rewrite Hph.
    + destruct pc; simpl in *; try done; by rewrite Hp.
  - intros Hno. rewrite Hit. apply Hinv. intros v. specialize (Hno v).
    by same_tid t v.
Qed.

(** A statement that does not change the abstract queue. *)
Lemma lq_sim_quiet s a t q nx pc :
  lq_inv s a → lq_body (lq_pcs s t) = true → lq_phase_ok pc Holding →
  lq_status pc = lq_status (lq_pcs s t) → lq_mid pc q nx (ff_items a) →
  ∃ a', fifo_step false t a a' ∧
    lq_inv (LqState (lq_lock s) q nx (lq_inuse s) (<[t := pc]> (lq_pcs s))) a'.
Proof.
  intros Hinv Hb Hp Hst Hmid. exists a. split; [constructor|].
  apply (lq_inv_body s a); try done; [|apply Hinv|].
  - apply (owned_keep _ _ _ _ _ _ _ (li_owned _ _ Hinv)); [|done]. unfold lq_priv. by rewrite Hst.
  - intros u. same_tid t u; [rewrite Hst|]; apply Hinv.
Qed.

(** The last statement of [q_push]. *)
Lemma lq_sim_push s a t q nx n :
  lq_inv s a → lq_body (lq_pcs s t) = true → lq_status (lq_pcs s t) = QsPush n →
  lq_ok q nx (ff_items a ++ [n]) →
  ∃ a', fifo_step false t a a' ∧
    lq_inv (LqState (lq_lock s) q nx (lq_inuse s) (<[t := LqPushUnlock]> (lq_pcs s))) a'.
Proof.
  intros Hinv Hb Hst Hok. pose proof (li_owned _ _ Hinv) as How.
  assert (lq_priv (lq_pcs s t) = Some n) as Hpr by (unfold lq_priv; by rewrite Hst).
  exists (Fifo (ff_items a ++ [n]) (<[t := QsPushed]> (ff_st a)) (λ _, true)).
  split; [constructor; by rewrite <-(li_status _ _ Hinv)|].
  apply (lq_inv_body s a); simpl; try done; [by left|..].
  - eapply owned_publish with (p := n); [done..|]. intros q'. simpl. set_solver.
  - apply NoDup_app. split_and!; [apply Hinv| |apply NoDup_singleton].
    intros x Hx ->%list_elem_of_singleton. by apply (ow_priv _ _ _ _ How t n Hpr).
  - intros u. same_tid t u; [done|apply Hinv].
Qed.

(** The last statement of [q_pop]. *)
Lemma lq_sim_pop s a t q nx n items :
  lq_inv s a → lq_body (lq_pcs s t) = true → lq_status (lq_pcs s t) = QsPop →
  ff_items a = n :: items → lq_ok q nx items →
  ∃ a', fifo_step false t a a' ∧
    lq_inv (LqState (lq_lock s) q nx (lq_inuse s) (<[t := LqPopUnlock (Some n)]> (lq_pcs s))) a'.
Proof.
  intros Hinv Hb Hst Hit Hok. pose proof (li_owned _ _ Hinv) as How.
  pose proof (li_nodup _ _ Hinv) as Hnd. rewrite Hit in Hnd. apply NoDup_cons in Hnd as [Hn Hnd].
  exists (Fifo items (<[t := QsPopped (Some n)]> (ff_st a)) (ff_exc a)).
  split; [by constructor; rewrite <-?(li_status _ _ Hinv)|].
  apply (lq_inv_body s a); simpl; try done; [by left|..].
  - eapply owned_retire with (p := n); [done|rewrite Hit; by left|unfold lq_priv; by rewrite Hst|done|].
    intros p. rewrite Hit. set_solver.
  - intros u. same_tid t u; [done|apply Hinv].
Qed.

(** [q_pop] on an empty queue. *)
Lemma lq_sim_fail s a t :
  lq_inv s a → lq_pcs s t = LqEmpty → qt_tail (lq_q s) = None →
  ∃ a', fifo_step false t a a' ∧
    lq_inv (LqState (lq_lock s) (lq_q s) (lq_next s) (lq_inuse s)
              (<[t := LqPopUnlock None]> (lq_pcs s))) a'.
Proof.
  intros Hinv Hpc Htl. pose proof (li_mid _ _ Hinv t) as Hok. rewrite Hpc in Hok.
  specialize (Hok eq_refl). simpl in Hok.
  assert (ff_items a = []) as Hit.
  { destruct (ff_items a); [done|]. destruct Hok as [[? _] _]. congruence. }
  exists (Fifo (ff_items a) (<[t := QsPopped None]> (ff_st a)) (ff_exc a)).
  split; [constructor; [by rewrite <-(li_status _ _ Hinv), Hpc|by left]|].
  apply (lq_inv_body s a); simpl; try done; [by rewrite Hpc|by left|..].
  - apply (owned_keep _ _ _ _ _ _ _ (li_owned _ _ Hinv)); [|done]. unfold lq_priv. by rewrite Hpc.
  - apply Hinv.
  - intros u. same_tid t u; [done|apply Hinv].
Qed.

Lemma lq_sim_push_body s a t q nx pc :
  lq_inv s a → q_push (lq_q s) (lq_next s) (lq_pcs s t) = Some (q, nx, pc) →
  ∃ a', fifo_step false t a a' ∧
    lq_inv (LqState (lq_lock s) q nx (lq_inuse s) (<[t := pc]> (lq_pcs s))) a'.
Proof.
  intros Hinv Hstep. pose proof (li_mid _ _ Hinv t) as Hmid.
  pose proof (li_nodup _ _ Hinv) as Hnd.
  assert (∀ n, lq_priv (lq_pcs s t) = Some n → n ∉ ff_items a) as Hfresh.
  { intros n Hn. by apply (ow_priv _ _ _ _ (li_owned _ _ Hinv) t). }
  destruct (lq_pcs s t) as [| |n|n|n|n|n|n| | | | | | | | | |] eqn:Hpc; try done;
    specialize (Hmid eq_refl); simpl in Hmid, Hstep.
  - simplify_eq. apply (lq_sim_quiet s a); rewrite ?Hpc; try done. simpl. simpl_fn.
    destruct Hmid as [Hl Hh]. split; [|done]. split; [|done]. apply lseg_insert; [by apply Hfresh|done].
  - destruct Hmid as [[Hl Hh] Hn]. destruct (qt_head (lq_q s)) as [h|] eqn:Hhd; simplify_eq;
      apply (lq_sim_quiet s a); rewrite ?Hpc; try done; simpl.
    + split_and!; [by split; congruence|done|]. intros Hit. by rewrite Hit in Hh.
    + split_and!; [by split; congruence|done|]. symmetry in Hh. by apply last_None in Hh.
  - simplify_eq. apply (lq_sim_quiet s a); rewrite ?Hpc; try done. simpl. naive_solver.
  - simplify_eq. destruct Hmid as (Hh & Hn & Hit). eapply lq_sim_push; rewrite ?Hpc; try done.
    rewrite Hit. split; simpl; [|done]. by rewrite Hn.
  - destruct Hmid as ([Hl Hh] & Hn & Hne). destruct (qt_head (lq_q s)) as [h|] eqn:Hhd; simplify_eq.
    + apply (lq_sim_quiet s a); rewrite ?Hpc; try done. simpl.
      apply lseg_snoc; try done. by apply Hfresh.
    + symmetry in Hh. by apply last_None in Hh.
  - simplify_eq. eapply lq_sim_push; rewrite ?Hpc; try done. split; [done|]. simpl. by rewrite last_snoc.
Qed.

Lemma lq_sim_pop_body s a t q nx pc :
  lq_inv s a → q_pop (lq_q s) (lq_next s) (lq_pcs s t) = Some (q, nx, pc) →
  ∃ a', fifo_step false t a a' ∧
    lq_inv (LqState (lq_lock s) q nx (lq_inuse s) (<[t := pc]> (lq_pcs s))) a'.
Proof.
  intros Hinv Hstep. pose proof (li_mid _ _ Hinv t) as Hmid.
  destruct (lq_pcs s t) as [| | | | | | | | | | | |rc|rc|rc|rc| |] eqn:Hpc; try done;
    specialize (Hmid eq_refl); simpl in Hmid, Hstep.
  - destruct (qt_tail (lq_q s)) as [tl|] eqn:Htl; simplify_eq; [|by apply lq_sim_fail].
    apply (lq_sim_quiet s a); rewrite ?Hpc; try done. simpl. split; [done|].
    intros Hit. destruct Hmid as [Hl _]. rewrite Hit, Htl in Hl. done.
  - destruct Hmid as [Hok Hne]. pose proof Hok as [Hl Hh].
    destruct (ff_items a) as [|x r] eqn:Hit; [done|]. destruct Hl as [Htl Hl]. rewrite Htl in Hstep.
    simplify_eq. apply (lq_sim_quiet s a); rewrite ?Hpc; try done. simpl. rewrite Hit. by split; eauto.
  - destruct Hmid as [Hok [r Hit]]. pose proof Hok as [Hl Hh]. rewrite Hit in Hl.
    destruct Hl as [Htl Hl]. rewrite Htl in Hstep.
    destruct (lq_next s rc) as [x|] eqn:Hn; simplify_eq;
      apply (lq_sim_quiet s a); rewrite ?Hpc; try done; simpl; (split; [done|]); rewrite Hit.
    + destruct r as [|y r]; [done|]. destruct Hl as [[= ->] _]. by eauto.
    + by destruct r as [|y r]; [|destruct Hl].
  - simplify_eq. apply (lq_sim_quiet s a); rewrite ?Hpc; try done. simpl. naive_solver.
  - simplify_eq. destruct Hmid as [Hit Hh]. eapply lq_sim_pop; rewrite ?Hpc; try done.
  - destruct Hmid as [[Hl Hh] (x & r & Hit)]. rewrite Hit in Hl, Hh.
    destruct Hl as [Htl Hl]. rewrite Htl in Hstep. simplify_eq.
    eapply lq_sim_pop; rewrite ?Hpc; try done.
Qed.

(** A client calls an operation. *)
Lemma lq_sim_call s a t pc inuse a' :
  lq_inv s a → lq_pcs s t = LqIdle → lq_body pc = false →
  lq_phase_ok pc Idle → ff_items a' = ff_items a →
  owned lq_priv inuse (λ p, p ∈ ff_items a) (<[t := pc]> (lq_pcs s)) →
  (∀ u, lq_status ((<[t := pc]> (lq_pcs s)) u) = ff_st a' u) →
  lq_inv (LqState (lq_lock s) (lq_q s) (lq_next s) inuse (<[t := pc]> (lq_pcs s))) a'.
Proof.
  intros Hinv Hpc Hb Hp Hit How Hst. pose proof (li_phase _ _ Hinv t) as Ht. rewrite Hpc in Ht.
  split; simpl; rewrite ?Hit; try done; [apply Hinv| |apply Hinv|..].
  - intros u. same_tid t u; [by rewrite Ht|apply Hinv].
  - intros u. same_tid t u; [congruence|apply Hinv].
  - intros Hno. apply Hinv. intros u. specialize (Hno u). same_tid t u; [by rewrite Hpc|done].
Qed.

(** [lock] and [unlock]. *)
Lemma lq_sim_lock s s' a t l stop pc next inuse :
  lq_inv s a → lq_lock_step M t l s stop pc next inuse = Some s' →
  lq_pcs s t = pc → lq_body pc = false →
  (stop = Holding ∧ ((∃ n, pc = LqPushLock n ∧ next = LqClear n) ∨ pc = LqPopLock ∧ next = LqEmpty) ∧
     inuse = lq_inuse s ∨
   stop = Idle ∧ next = LqIdle ∧
     (pc = LqPushUnlock ∧ inuse = lq_inuse s ∨ ∃ rc, pc = LqPopUnlock rc ∧
        inuse = match rc with Some n => lq_inuse s ∖ {[n]} | None => lq_inuse s end)) →
  ∃ a', fifo_step false t a a' ∧ lq_inv s' a'.
Proof.
  intros Hinv Hstep Hpc Hb Hcase. unfold lq_lock_step in Hstep.
  destruct (mtx_step t l (lq_lock s)) as [k|] eqn:Hk; [|done].
  pose proof (li_phase _ _ Hinv t) as Hp. pose proof (mtx_cycle t l _ _ Hk) as Hcyc.
  pose proof (li_owned _ _ Hinv) as How. pose proof (li_status _ _ Hinv) as Hst. rewrite Hpc in Hp.
  case_decide as Hstop; injection Hstep as <-; subst pc.
  - destruct Hcase as [(-> & Hn & ->)|(-> & -> & Hn)].
    + exists a. split; [constructor|].
      eapply lq_inv_outside; try done.
      * rewrite Hstop. destruct Hn as [(? & _ & ->)|[_ ->]]; done.
      * apply (owned_keep _ _ _ _ _ _ _ How); [|done].
        destruct Hn as [(? & Heq & ->)|[Heq ->]]; unfold lq_priv; by rewrite Heq.
      * destruct Hn as [(? & _ & ->)|[_ ->]]; done.
      * intros u. rewrite <-Hst. same_tid t u; [|done].
        destruct Hn as [(? & -> & ->)|[-> ->]]; done.
    + exists (Fifo (ff_items a) (<[t := QsIdle]> (ff_st a)) (ff_exc a)). split.
      { destruct Hn as [[Heq _]|(rc & Heq & _)]; [apply fs_ret_push|eapply fs_ret_pop];
          rewrite <-Hst, Heq; done. }
      eapply lq_inv_outside; try done.
      * destruct Hn as [[Heq ->]|([n|] & Heq & ->)].
        -- apply (owned_keep _ _ _ _ _ _ _ How); [|done]. unfold lq_priv. by rewrite Heq.
        -- apply owned_free; [done|unfold lq_priv; by rewrite Heq|done].
        -- apply (owned_keep _ _ _ _ _ _ _ How); [|done]. unfold lq_priv. by rewrite Heq.
      * intros u. simpl. same_tid t u; [done|apply Hst].
  - exists a. split; [constructor|]. eapply lq_inv_outside; try done.
    + destruct Hcase as [(-> & Hn & ->)|(-> & -> & Hn)].
      * destruct Hn as [(? & Heq & _)|[Heq _]]; rewrite Heq in *; simpl in *;
          destruct Hp as [Hp|[Hp|[Hp|Hp]]]; rewrite Hp in Hcyc; destruct (mtx_phase k t); naive_solver.
      * destruct Hn as [[Heq _]|(rc & Heq & _)]; rewrite Heq in *; simpl in *;
          destruct Hp as [Hp|[Hp|Hp]]; rewrite Hp in Hcyc; destruct (mtx_phase k t); naive_solver.
    + apply (owned_keep _ _ _ _ _ _ _ How); done.
    + intros Hb'. congruence.
    + intros u. rewrite <-Hst. by same_tid t u.
Qed.

Lemma lq_inv_start s : lq_init M s → lq_inv s fifo_empty.
Proof.
  destruct s as [k q nx inuse pcs]. intros (Hi & Hq & Hu & Hpcs). simpl in *. subst. split; simpl.
  - by apply reachable_init.
  - intros t. by apply mtx_init_idle.
  - split; simpl; set_solver.
  - constructor.
  - done.
  - intros _. by split.
  - done.
Qed.

Lemma lq_sim t l s s' a :
  lq_inv s a → lq_step M t l s = Some s' → ∃ a', fifo_step false t a a' ∧ lq_inv s' a'.
Proof.
  intros Hinv Hstep. unfold lq_step in Hstep.
  pose proof (lq_sim_push_body s a t) as Hpush. pose proof (lq_sim_pop_body s a t) as Hpop.
  destruct (lq_pcs s t) as [|n|n|n|n|n|n|n| | | | |rc|rc|rc|rc|rc|] eqn:Hpc, l as [m| |l]; try done;
    try (by (eapply lq_sim_lock; [done..|]; eauto 10));
    try (destruct (q_push _ _ _) as [[[q nx] pc]|]; [|done]; simplify_eq; by eapply Hpush);
    try (destruct (q_pop _ _ _) as [[[q nx] pc]|]; [|done]; simplify_eq; by eapply Hpop).
  - case_decide as Hin; simplify_eq.
    exists (Fifo (ff_items a) (<[t := QsPush m]> (ff_st a)) (ff_exc a)).
    split; [constructor; by rewrite <-(li_status _ _ Hinv), Hpc|].
    apply (lq_sim_call s a); simpl; try done; [by left|..].
    + apply owned_alloc; [apply Hinv|done|unfold lq_priv; by rewrite Hpc|done].
    + intros u. same_tid t u; [done|apply Hinv].
  - simplify_eq. exists (Fifo (ff_items a) (<[t := QsPop]> (ff_st a)) (<[t := false]> (ff_exc a))).
    split; [constructor; by rewrite <-(li_status _ _ Hinv), Hpc|].
    apply (lq_sim_call s a); simpl; try done; [by left|..].
    + apply (owned_keep _ _ _ _ _ _ _ (li_owned _ _ Hinv)); [|done]. unfold lq_priv. by rewrite Hpc.
    + intros u. same_tid t u; [done|apply Hinv].
Qed.

Definition lock_queue_fifo : @FifoQueue _ _ (lock_queue M) false := {|
  fq_rel := lq_inv : @lq_state S → fifo → Prop;
  fq_init := lq_inv_start : ∀ s, @q_init _ _ (lock_queue M) s → _;
  fq_sim := lq_sim : ∀ t l s s' a, _ → @q_step _ _ (lock_queue M) t l s = Some s' → _;
  fq_status := λ s a t Hinv, li_status s a Hinv t;
|}.
End proofs.

(** ** Theorems *)

(** Every lock of the repository meets the interface. *)
Lemma lock_t_laws pthread_mutex pthread_spinlock pthread_self (n : nat) m :
  mutex_laws pthread_mutex → mutex_laws pthread_spinlock →
  (∀ t, (0 < pthread_self t)%Z) → ids_distinct pthread_self → (n < 2 ^ 63 - 1)%Z →
  mutex_laws (lock_t pthread_mutex pthread_spinlock pthread_self n m).
Proof.
  intros Hm Hs Hpos Hd Hn. destruct m; simpl; unfold mutex_laws; simpl; try done.
  - apply queue_lock_laws.
  - apply queue_lock_laws.
  - exact (@queue_lock_laws _ _ _ (tidex_queue_lock pthread_self Hpos Hd)).
  - refine (@queue_lock_laws _ _ _ (ticket_queue_lock n _)). lia.
  - exact (@queue_lock_laws _ _ _ (nps_queue_lock n Hn)).
Qed.

(** C9: for every [LOCK_METHOD] the queue of [lockrate.c] is linearizable to a
    first-in first-out queue on which [q_pop] returns NULL only if the queue is
    empty.  The pthread locks are assumed to be mutexes. *)
Theorem lockrate_queue_refines (pthread_mutex pthread_spinlock : some_mutex)
    (pthread_self : tid → Z) (n : nat) (m : lock_method) :
  mutex_laws pthread_mutex → mutex_laws pthread_spinlock →
  (∀ t, (0 < pthread_self t)%Z) → ids_distinct pthread_self → (n < 2 ^ 63 - 1)%Z →
  refines_fifo (lock_queue (sm_mutex (lock_t pthread_mutex pthread_spinlock pthread_self n m))) false.
Proof.
  intros Hm Hs Hpos Hd Hn.
  pose proof (lock_t_laws pthread_mutex pthread_spinlock pthread_self n m Hm Hs Hpos Hd Hn) as ML.
  apply (@fifo_refines _ _ _ _ (@lock_queue_fifo _ _ _ ML)).
Qed.

Definition ticket3 : some_mutex := SomeMutex _ _ (ticket_mutex 3).

Lemma ticket3_laws : mutex_laws ticket3.
Proof. refine (@queue_lock_laws _ _ _ (ticket_queue_lock 3 _)). lia. Qed.

Lemma lockrate_queue_refines_witness :
  refines_fifo (lock_queue (sm_mutex (lock_t ticket3 ticket3 self_example 3 CLH_LOCK))) false.
Proof.
  apply (lockrate_queue_refines ticket3 ticket3 self_example 3 CLH_LOCK).
  - exact ticket3_laws.
  - exact ticket3_laws.
  - unfold self_example. lia.
  - exact self_example_distinct.
  - lia.
Defined.

(** In every run of the queue of [lockrate.c] the nodes popped are, in
    order, the first of the nodes pushed, and a [q_pop] that returns NULL does
    so at a moment when everything pushed has been popped. *)
Theorem lockrate_queue_order {L S} (M : Mutex L S) :
  MutexLaws L S → queue_fifo (lock_queue M) ∧ queue_strict (lock_queue M).
Proof.
  intros ML. split.
  - apply (@fifo_queue_fifo _ _ _ _ (@lock_queue_fifo _ _ _ ML)).
  - apply (@fifo_queue_strict _ _ _ (@lock_queue_fifo _ _ _ ML)).
Qed.

Definition lq_example_start : @lq_state ticket_state :=
  LqState ticket_start q_create (λ _, Some 9%positive) ∅ (λ _, LqIdle).

(** Two pushes by thread 0, one by thread 1 that overlaps the second, then two
    pops by thread 2. *)
Definition lq_example_schedule : list (tid * lq_label unit) :=
  [(0, LqCallPush 4%positive)] ++ replicate 8 (0, LqRun tt) ++
  [(0, LqCallPush 5%positive); (1, LqCallPush 6%positive); (1, LqRun tt)] ++
  [(0, LqRun tt)] ++ replicate 7 (1, LqRun tt) ++ replicate 7 (0, LqRun tt) ++
  [(2, LqCallPop)] ++ replicate 8 (2, LqRun tt) ++ [(2, LqCallPop)] ++ replicate 8 (2, LqRun tt).

Lemma lockrate_queue_order_witness :
  pushes (@qtrace _ _ (lock_queue (ticket_mutex 3)) lq_example_schedule lq_example_start) =
    [4; 6; 5]%positive ∧
  pops (@qtrace _ _ (lock_queue (ticket_mutex 3)) lq_example_schedule lq_example_start) =
    [4; 6]%positive ∧
  queue_fifo (lock_queue (ticket_mutex 3)) ∧ queue_strict (lock_queue (ticket_mutex 3)).
Proof.
  split; [vm_compute; reflexivity|]. split; [vm_compute; reflexivity|].
  apply (lockrate_queue_order (ticket_mutex 3)). exact ticket3_laws.
Defined.
