(* ===== verification/Validation.v ===== *)
(** * The validation program of the locks

    [ConcurrencyFreaks/C11/locks/mutex_validation.c]: for each lock in turn,
    [main] starts threads that increment all elements of an array under
    the lock and check that the elements are equal; an inequality prints ERROR.
    A round of [main] is a transition system over one lock, every access
    to the array a step of its own; the program is the sequence of the rounds.
    The theorems are proved against [MutexLaws] and so show what that interface is
    good for.  Signed overflow, which C leaves undefined, wraps. *)

From S2P Require Import Prelude Lts Mutex Tickets AwnEe AwnNe AwnSb TicketMutex TidexMutex ClhMutex MpscMutex LockQueue.
From Stdlib Require Znumtheory.

Local Open Scope Z_scope.

(** ** Data *)

Definition ARRAY_SIZE : nat := 256.
Definition NUM_THREADS : nat := 4.

(** Program points of [worker_thread]. *)
Inductive v_pc :=
  | VNew                      (** not created yet *)
  | VLoop                     (** [while (!g_quit)] *)
  | VLock                     (** in [lock] *)
  | VInc (i : nat)            (** [array1[i]++], the load *)
  | VInc2 (i : nat) (v : Z)   (** [array1[i]++], the store *)
  | VChk (i : nat)            (** the load of [array1[i]] *)
  | VChk2 (i : nat) (v : Z)   (** the load of [array1[0]] and the test *)
  | VUnlock                   (** in [unlock] *)
  | VPrint                    (** [printf("Thread ...")] *)
  | VStore                    (** [g_operCounters[*tid] = iterations] *)
  | VDone.

(** Program points of [main] in one round. *)
Inductive v_main :=
  | MClear             (** [clearOperCounters()] *)
  | MCreate (i : nat)  (** [pthread_create] *)
  | MSleep
  | MQuit              (** [g_quit = 1] *)
  | MJoin (i : nat)    (** [pthread_join] *)
  | MReset             (** [g_quit = 0] *)
  | MPrint             (** [printOperationsPerSecond()] *)
  | MEnd.

Inductive v_event := VError | VThread (t : tid) (iterations : Z) | VOps (sum : Z).

Record v_state (S : Type) := VState {
  vs_lock : S;
  vs_array : list Z;          (** [array1] *)
  vs_quit : bool;             (** [g_quit] *)
  vs_counters : list Z;       (** [g_operCounters] *)
  vs_iter : tid → Z;          (** [iterations] of each thread *)
  vs_pcs : tid → v_pc;
  vs_main : v_main;
  vs_out : list v_event;      (** what has been printed *)
}.
Arguments VState {S}.
Arguments vs_lock {S}.
Arguments vs_array {S}.
Arguments vs_quit {S}.
Arguments vs_counters {S}.
Arguments vs_iter {S}.
Arguments vs_pcs {S}.
Arguments vs_main {S}.
Arguments vs_out {S}.

Inductive v_label (L : Type) := VMain | VWorker (t : tid) (l : L).
Arguments VMain {L}.
Arguments VWorker {L}.

(** ** Operations *)

Definition clearOperCounters : list Z := replicate NUM_THREADS 0.

Definition printOperationsPerSecond (counters : list Z) : v_event :=
  VOps (foldl (λ sum c, s64 (sum + c)) 0 counters).

Section round.
Context {L S : Type} (M : Mutex L S).

Definition v_goto (s : v_state S) (t : tid) (pc : v_pc) : v_state S :=
  VState (vs_lock s) (vs_array s) (vs_quit s) (vs_counters s) (vs_iter s) (<[t := pc]> (vs_pcs s)) (vs_main s) (vs_out s).

(** A step of [lock] or [unlock]: the call is over when the lock's phase of the thread is [stop]. *)
Definition v_lock_step (s : v_state S) (t : tid) (l : L) (stop : phase) (next : v_pc) : option (v_state S) :=
  k ← mtx_step t l (vs_lock s);
  let over := bool_decide (mtx_phase k t = stop) in
  (* iterations++ follows unlock *)
  let iter := if over && bool_decide (stop = Idle) then <[t := s64 (vs_iter s t + 1)]> (vs_iter s) else vs_iter s in
  Some (VState k (vs_array s) (vs_quit s) (vs_counters s) iter
          (<[t := if over then next else vs_pcs s t]> (vs_pcs s)) (vs_main s) (vs_out s)).

Definition worker_thread (t : tid) (l : L) (s : v_state S) : option (v_state S) :=
  match vs_pcs s t with
  | VNew | VDone => None
  | VLoop => Some (v_goto s t (if vs_quit s then VPrint else VLock))
  | VLock => v_lock_step s t l Holding (VInc 0)
  | VInc i =>
      if bool_decide (i < ARRAY_SIZE)%nat then v ← vs_array s !! i; Some (v_goto s t (VInc2 i v))
      else Some (v_goto s t (VChk 1))
  | VInc2 i v =>
      Some (VState (vs_lock s) (<[i := s32 (v + 1)]> (vs_array s)) (vs_quit s) (vs_counters s) (vs_iter s)
              (<[t := VInc (Datatypes.S i)]> (vs_pcs s)) (vs_main s) (vs_out s))
  | VChk i =>
      if bool_decide (i < ARRAY_SIZE)%nat then v ← vs_array s !! i; Some (v_goto s t (VChk2 i v))
      else Some (v_goto s t VUnlock)
  | VChk2 i v =>
      v0 ← vs_array s !! 0%nat;
      Some (VState (vs_lock s) (vs_array s) (vs_quit s) (vs_counters s) (vs_iter s)
              (<[t := VChk (Datatypes.S i)]> (vs_pcs s)) (vs_main s) (vs_out s ++ if bool_decide (v = v0) then [] else [VError]))
  | VUnlock => v_lock_step s t l Idle VLoop
  | VPrint =>
      Some (VState (vs_lock s) (vs_array s) (vs_quit s) (vs_counters s) (vs_iter s) (<[t := VStore]> (vs_pcs s)) (vs_main s)
              (vs_out s ++ [VThread t (vs_iter s t)]))
  | VStore =>
      Some (VState (vs_lock s) (vs_array s) (vs_quit s) (<[t := s32 (vs_iter s t)]> (vs_counters s)) (vs_iter s)
              (<[t := VDone]> (vs_pcs s)) (vs_main s) (vs_out s))
  end.

Definition v_at (s : v_state S) (m : v_main) (quit : bool) (counters : list Z) (pcs : tid → v_pc) (out : list v_event) : v_state S :=
  VState (vs_lock s) (vs_array s) quit counters (vs_iter s) pcs m out.

(** One round of [main]; [sleep(10)] takes any time. *)
Definition main_round (s : v_state S) : option (v_state S) :=
  match vs_main s with
  | MClear => Some (v_at s (MCreate 0) (vs_quit s) clearOperCounters (vs_pcs s) (vs_out s))
  | MCreate i =>
      if bool_decide (i < NUM_THREADS)%nat then
        Some (v_at s (MCreate (Datatypes.S i)) (vs_quit s) (vs_counters s) (<[i := VLoop]> (vs_pcs s)) (vs_out s))
      else Some (v_at s MSleep (vs_quit s) (vs_counters s) (vs_pcs s) (vs_out s))
  | MSleep => Some (v_at s MQuit (vs_quit s) (vs_counters s) (vs_pcs s) (vs_out s))
  | MQuit => Some (v_at s (MJoin 0) true (vs_counters s) (vs_pcs s) (vs_out s))
  | MJoin i =>
      if bool_decide (i < NUM_THREADS)%nat then
        match vs_pcs s i with
        | VDone => Some (v_at s (MJoin (Datatypes.S i)) (vs_quit s) (vs_counters s) (vs_pcs s) (vs_out s))
        | _ => None
        end
      else Some (v_at s MReset (vs_quit s) (vs_counters s) (vs_pcs s) (vs_out s))
  | MReset => Some (v_at s MPrint false (vs_counters s) (vs_pcs s) (vs_out s))
  | MPrint => Some (v_at s MEnd (vs_quit s) (vs_counters s) (vs_pcs s) (vs_out s ++ [printOperationsPerSecond (vs_counters s)]))
  | MEnd => None
  end.

(** The lock has just been initialised, the array holds what earlier rounds left in it. *)
Definition round_init (array : list Z) (s : v_state S) : Prop :=
  mtx_init (vs_lock s) ∧ vs_array s = array ∧ vs_quit s = false ∧ vs_iter s = (λ _, 0) ∧ vs_pcs s = (λ _, VNew) ∧
  vs_main s = MClear ∧ vs_out s = [].

Definition validation_round (array : list Z) : Lts (v_label L) (v_state S) := {|
  lts_init := round_init array;
  lts_step := λ l s, match l with VMain => main_round s | VWorker t l => worker_thread t l s end;
|}.
End round.

(** ** The program *)

(** The locks in the order of their rounds; 34 is the size of the waiting arrays. *)
Definition validation_locks (pthread_mutex pthread_spinlock : some_mutex) (pthread_self : tid → Z) : list some_mutex :=
  (lock_t pthread_mutex pthread_spinlock pthread_self NUM_THREADS <$>
     [PTHREAD_LOCK; PTHREAD_SPINLOCK; MPSC_LOCK; TICKET_LOCK; CLH_LOCK; TIDEX_LOCK; TIDEX_NPS_LOCK]) ++
  [SomeMutex _ _ (awnne_mutex NUM_THREADS 34); SomeMutex _ _ (awnee_mutex NUM_THREADS 34);
   SomeMutex _ _ (awnsb_mutex NUM_THREADS 34)].

(** [main], round by round: [validation_main locks array array' out] when the rounds for
    [locks] turn [array] into [array'] and print [out]. *)
Inductive validation_main : list some_mutex → list Z → list Z → list v_event → Prop :=
  | vm_end array : validation_main [] array array []
  | vm_round m ms array s array' out :
      reachable (sys := validation_round (sm_mutex m) array) s → vs_main s = MEnd →
      validation_main ms (vs_array s) array' out →
      validation_main (m :: ms) array array' (vs_out s ++ out).

(** ** Sums over the threads *)

Definition zsum (n : nat) (f : tid → Z) : Z := foldr (λ t a, f t + a) 0 (seq 0 n).

Lemma zsum_S n f : zsum (S n) f = zsum n f + f n.
Proof.
  unfold zsum. rewrite seq_S, foldr_app. simpl. generalize (f n + 0) (f n) (Z.add_0_r (f n)). intros a b ->.
  induction (seq 0 n) as [|x l IH]; simpl; lia.
Qed.

Lemma zsum_ext n f g : (∀ t, (t < n)%nat → f t = g t) → zsum n f = zsum n g.
Proof. induction n as [|n IH]; intros Heq; [done|]. rewrite !zsum_S, IH, (Heq n) by (auto with lia). done. Qed.

(** One of the summands changes. *)
Lemma zsum_update n f g t :
  (t < n)%nat → (∀ u, u ≠ t → g u = f u) → zsum n g = zsum n f - f t + g t.
Proof.
  induction n as [|n IH]; intros Ht Heq; [lia|]. rewrite !zsum_S. destruct (decide (t = n)) as [->|].
  - rewrite (zsum_ext n g f) by (intros u Hu; apply Heq; lia). lia.
  - rewrite IH by (lia || done). rewrite (Heq n) by done. lia.
Qed.

Lemma s32_s64 a b : s32 (a + s64 b) = s32 (a + b).
Proof.
  apply wrap_s_mod; [lia|]. rewrite Zplus_mod, (Zplus_mod a b). do 2 f_equal.
  assert ((2 ^ 32 | 2 ^ 64)) as Hdiv by (by exists (2 ^ 32)).
  rewrite (Znumtheory.Zmod_div_mod (2 ^ 32) (2 ^ 64) (s64 b)), (Znumtheory.Zmod_div_mod (2 ^ 32) (2 ^ 64) b) by (done || lia).
  by rewrite wrap_s_congr.
Qed.

(** ** Invariant *)

Definition v_body (pc : v_pc) : bool :=
  match pc with VInc _ | VInc2 _ _ | VChk _ | VChk2 _ _ => true | _ => false end.

Definition v_phase_ok (pc : v_pc) (p : phase) : Prop :=
  match pc with
  | VLock => p = Idle ∨ p = Entering ∨ p = Waiting ∨ p = Acquired
  | VUnlock => p = Holding ∨ p = Unlocking ∨ p = Leaving
  | _ => if v_body pc then p = Holding else p = Idle
  end.

(** Increments that [iterations] does not count yet. *)
Definition v_extra (pc : v_pc) : Z := match pc with VChk _ | VChk2 _ _ | VUnlock => 1 | _ => 0 end.

(** The array when [x] rounds of increments are complete and the next one has got to [i]. *)
Definition v_filled (i : nat) (x : Z) : list Z :=
  replicate i (s32 (x + 1)) ++ replicate (ARRAY_SIZE - i) (s32 x).

Definition v_mid (pc : v_pc) (array : list Z) (x : Z) : Prop :=
  match pc with
  | VInc i => (i ≤ ARRAY_SIZE)%nat ∧ array = v_filled i x
  | VInc2 i v => (i < ARRAY_SIZE)%nat ∧ array = v_filled i x ∧ v = s32 x
  | VChk2 i v => array = v_filled 0 x ∧ v = s32 x
  | _ => array = v_filled 0 x
  end.

(** The points at which [main] knows that threads have not started or are done. *)
Definition v_main_ok (m : v_main) (pcs : tid → v_pc) : Prop :=
  match m with
  | MClear => ∀ t, pcs t = VNew
  | MCreate i => ∀ t, (i ≤ t)%nat → pcs t = VNew
  | MSleep | MQuit => True
  | MJoin i => ∀ t, (t < i)%nat → (t < NUM_THREADS)%nat → pcs t = VDone
  | MReset | MPrint | MEnd => ∀ t, (t < NUM_THREADS)%nat → pcs t = VDone
  end.

Lemma v_filled_length i x : (i ≤ ARRAY_SIZE)%nat → length (v_filled i x) = ARRAY_SIZE.
Proof. intros Hi. unfold v_filled. rewrite length_app, !length_replicate. lia. Qed.

Lemma v_filled_lookup i x : (i < ARRAY_SIZE)%nat → v_filled i x !! i = Some (s32 x).
Proof.
  intros Hi. unfold v_filled. rewrite lookup_app_r; rewrite length_replicate; [|done]. apply lookup_replicate. split; [done|lia].
Qed.

Lemma v_filled_insert i x : (i < ARRAY_SIZE)%nat → <[i := s32 (s32 x + 1)]> (v_filled i x) = v_filled (S i) x.
Proof.
  intros Hi. unfold v_filled. rewrite wrap_s_add by lia. replace (ARRAY_SIZE - i)%nat with (S (ARRAY_SIZE - S i)) by lia.
  rewrite (insert_app_r_alt _ _ i) by (rewrite length_replicate; lia). rewrite length_replicate, Nat.sub_diag.
  rewrite (replicate_S_end i), <-(assoc_L (++)). done.
Qed.

Lemma v_filled_full x : v_filled ARRAY_SIZE x = v_filled 0 (x + 1).
Proof. unfold v_filled. by rewrite Nat.sub_diag, app_nil_r, Nat.sub_0_r. Qed.

Lemma v_filled_all x : v_filled 0 x = replicate ARRAY_SIZE (s32 x).
Proof. done. Qed.

Lemma v_filled_congr i x y : s32 x = s32 y → v_filled i x = v_filled i y.
Proof. intros Heq. unfold v_filled. by rewrite <-(wrap_s_add 32 x), <-(wrap_s_add 32 y), Heq by lia. Qed.

Lemma v_mid_congr pc array x y : s32 x = s32 y → v_mid pc array x → v_mid pc array y.
Proof. intros Heq. destruct pc; simpl; by rewrite ?(v_filled_congr _ x y), ?Heq by done. Qed.

#[global] Opaque v_filled.

Section proofs.
Context {L S : Type} {M : Mutex L S} {ML : MutexLaws L S}.
Context (start : Z).

Definition v_counts (s : v_state S) (t : tid) : Z := vs_iter s t + v_extra (vs_pcs s t).

(** The value that the elements have between the critical sections, before wrap-around. *)
Definition v_value (s : v_state S) : Z := start + zsum NUM_THREADS (v_counts s).

Record v_inv (s : v_state S) : Prop := {
  vi_lock : reachable (vs_lock s);
  vi_phase t : v_phase_ok (vs_pcs s t) (mtx_phase (vs_lock s) t);
  vi_tids t : (NUM_THREADS ≤ t)%nat → vs_pcs s t = VNew;
  vi_mid t : v_body (vs_pcs s t) = true → v_mid (vs_pcs s t) (vs_array s) (v_value s);
  vi_free : (∀ t, v_body (vs_pcs s t) = false) → vs_array s = v_filled 0 (v_value s);
  vi_main : v_main_ok (vs_main s) (vs_pcs s);
  vi_len : vs_main s ≠ MClear → length (vs_counters s) = NUM_THREADS;
  vi_counter t : vs_pcs s t = VDone → vs_counters s !! t = Some (s32 (vs_iter s t));
  vi_noerr : VError ∉ vs_out s;
  vi_thread t : vs_pcs s t = VStore ∨ vs_pcs s t = VDone → VThread t (vs_iter s t) ∈ vs_out s;
  vi_ops : vs_main s = MEnd → last (vs_out s) = Some (printOperationsPerSecond (vs_counters s));
}.

Lemma v_body_owns s t : v_inv s → v_body (vs_pcs s t) = true → owns (mtx_phase (vs_lock s) t) = true.
Proof.
  intros Hinv Hb. pose proof (vi_phase s Hinv t) as Hp. destruct (vs_pcs s t); simpl in *; try done; by rewrite Hp.
Qed.

Lemma v_alone s t u : v_inv s → v_body (vs_pcs s t) = true → v_body (vs_pcs s u) = true → t = u.
Proof.
  intros Hinv Ht Hu. apply (mtx_exclusion (vs_lock s)); [apply Hinv|by apply v_body_owns..].
Qed.

Lemma v_running s t : v_inv s → vs_pcs s t ≠ VNew → (t < NUM_THREADS)%nat.
Proof. intros Hinv Ht. destruct (decide (t < NUM_THREADS)%nat); [done|]. destruct Ht. apply Hinv. lia. Qed.

(** How the value changes when one thread moves. *)
Lemma v_value_step s s' t :
  (t < NUM_THREADS)%nat → (∀ u, u ≠ t → vs_pcs s' u = vs_pcs s u ∧ vs_iter s' u = vs_iter s u) →
  v_value s' = v_value s - v_counts s t + v_counts s' t.
Proof.
  intros Ht Hoth. unfold v_value. rewrite (zsum_update _ (v_counts s) (v_counts s') t); [lia|done|].
  intros u Hu. unfold v_counts. by destruct (Hoth u Hu) as [-> ->].
Qed.

(** [main_ok] survives the steps of running threads. *)
Lemma v_main_ok_step m pcs t pc :
  v_main_ok m pcs → pcs t ≠ VNew → pcs t ≠ VDone → v_main_ok m (<[t := pc]> pcs).
Proof.
  intros Hm Hn Hd. destruct m; simpl in *; try done; intros u; intros; same_tid t u; auto.
  all: exfalso; eauto.
Qed.

(** A thread moves without a step of the lock. *)
Lemma v_inv_move s t pc array counters out :
  let s' := VState (vs_lock s) array (vs_quit s) counters (vs_iter s) (<[t := pc]> (vs_pcs s)) (vs_main s) out in
  v_inv s → vs_pcs s t ≠ VNew → vs_pcs s t ≠ VDone → pc ≠ VNew → v_phase_ok pc (mtx_phase (vs_lock s) t) →
  (v_body (vs_pcs s t) = true → v_mid pc array (v_value s')) →
  (v_body (vs_pcs s t) = false → array = vs_array s ∧ v_extra pc = v_extra (vs_pcs s t) ∧ v_body pc = false) →
  length counters = length (vs_counters s) → (∀ u, u ≠ t → counters !! u = vs_counters s !! u) →
  (pc = VDone → counters !! t = Some (s32 (vs_iter s t))) →
  (∃ o, out = vs_out s ++ o ∧ VError ∉ o) → (pc = VStore ∨ pc = VDone → VThread t (vs_iter s t) ∈ out) →
  v_inv s'.
Proof.
  intros s' Hinv Hnew Hdone Hpc Hph Hin Hout Hlen Hcnt Hct (o & Ho & Herr) Hth.
  pose proof (v_running s t Hinv Hnew) as Ht.
  assert (v_body (vs_pcs s t) = false → v_value s' = v_value s) as Hval.
  { intros Hb. destruct (Hout Hb) as (_ & Hex & _). rewrite (v_value_step s s' t); [|done|by intros u Hu; simpl; rewrite fn_lookup_insert_ne].
    unfold v_counts. simpl. rewrite fn_lookup_insert, Hex. lia. }
  split; simpl.
  - apply Hinv.
  - intros u. same_tid t u; [done|apply Hinv].
  - intros u Hu. rewrite fn_lookup_insert_ne by (unfold NUM_THREADS in *; lia). by apply Hinv.
  - intros u. same_tid t u.
    + intros Hb. destruct (v_body (vs_pcs s t)) eqn:Hbt; [by apply Hin|]. destruct (Hout eq_refl) as (_ & _ & ?). congruence.
    + intros Hb. destruct (v_body (vs_pcs s t)) eqn:Hbt; [by assert (t = u) by (by eapply v_alone)|].
      destruct (Hout eq_refl) as (-> & _ & _). rewrite Hval by done. by apply Hinv.
  - intros Hno. pose proof (Hno t) as Hb. rewrite fn_lookup_insert in Hb. destruct (v_body (vs_pcs s t)) eqn:Hbt.
    + specialize (Hin eq_refl). destruct pc; done.
    + destruct (Hout eq_refl) as (-> & _ & _). rewrite Hval by done. apply Hinv. intros u. specialize (Hno u). same_tid t u; done.
  - apply v_main_ok_step; [apply Hinv|done..].
  - rewrite Hlen. apply Hinv.
  - intros u. same_tid t u; [done|]. intros Hu. rewrite Hcnt by done. by apply Hinv.
  - rewrite Ho. rewrite not_elem_of_app. split; [apply Hinv|done].
  - intros u. same_tid t u; [done|]. intros Hu. rewrite Ho. apply elem_of_app. left. by apply Hinv.
  - intros Hend. pose proof (vi_main s Hinv) as Hm. rewrite Hend in Hm. by destruct Hdone; apply Hm.
Qed.

(** A step of [lock] or [unlock] that does not end the call. *)
Lemma v_inv_wait s t l k :
  v_inv s → mtx_step t l (vs_lock s) = Some k → v_body (vs_pcs s t) = false → v_phase_ok (vs_pcs s t) (mtx_phase k t) →
  v_inv (VState k (vs_array s) (vs_quit s) (vs_counters s) (vs_iter s) (<[t := vs_pcs s t]> (vs_pcs s)) (vs_main s) (vs_out s)).
Proof.
  intros Hinv Hk Hb Hp.
  assert (∀ u, (<[t := vs_pcs s t]> (vs_pcs s)) u = vs_pcs s u) as Hsame by (intros u; by same_tid t u).
  assert (∀ q, v_value (VState k (vs_array s) (vs_quit s) (vs_counters s) (vs_iter s) (<[t := vs_pcs s t]> (vs_pcs s)) (vs_main s) q)
    = v_value s) as Hval.
  { intros q. unfold v_value. f_equal. apply zsum_ext. intros u _. unfold v_counts. simpl. by rewrite Hsame. }
  destruct Hinv. split; simpl; try done.
  - by apply (reachable_step (t, l) (vs_lock s)).
  - intros u. rewrite Hsame. destruct (decide (t = u)) as [->|]; [done|]. by rewrite (mtx_frame t u l _ _ Hk).
  - intros u. rewrite Hsame. auto.
  - intros u. rewrite Hsame, Hval. auto.
  - rewrite Hval. intros Hno. apply vi_free0. intros u. by rewrite <-Hsame.
  - destruct (vs_main s); simpl in *; try done; intros u; rewrite Hsame; auto.
  - intros u. rewrite Hsame. auto.
  - intros u. rewrite Hsame. auto.
Qed.

(** The end of [lock] and of [unlock]. *)
Lemma v_inv_over s t l k pc iter :
  let s' := VState k (vs_array s) (vs_quit s) (vs_counters s) iter (<[t := pc]> (vs_pcs s)) (vs_main s) (vs_out s) in
  v_inv s → mtx_step t l (vs_lock s) = Some k → vs_pcs s t ≠ VNew → vs_pcs s t ≠ VDone →
  v_body (vs_pcs s t) = false → v_phase_ok pc (mtx_phase k t) → (pc = VInc 0 ∨ pc = VLoop) →
  (∀ u, u ≠ t → iter u = vs_iter s u) → s32 (v_value s') = s32 (v_value s) →
  v_inv s'.
Proof.
  intros s' Hinv Hk Hnew Hdone Hb Hp Hpc Hiter Hval. pose proof (v_running s t Hinv Hnew) as Ht.
  assert (reachable k) as Hr by (apply (reachable_step (t, l) (vs_lock s)); [apply Hinv|done]).
  assert (∀ u, t ≠ u → v_phase_ok (vs_pcs s u) (mtx_phase k u)) as Hoth.
  { intros u Hu. rewrite (mtx_frame t u l _ _ Hk) by done. apply Hinv. }
  split; simpl; try apply Hinv; [done|..].
  - intros u. same_tid t u; [done|by apply Hoth].
  - intros u Hu. rewrite fn_lookup_insert_ne by (unfold NUM_THREADS in *; lia). by apply Hinv.
  - intros u. same_tid t u.
    + destruct Hpc as [-> | ->]; [|done]. intros _. split; [lia|]. rewrite (v_filled_congr _ _ _ Hval). apply Hinv.
      intros v. destruct (decide (v = t)) as [->|Hne]; [done|]. apply not_true_iff_false. intros Hv. apply Hne.
      apply (mtx_exclusion k); [done| |by rewrite Hp]. specialize (Hoth v ltac:(done)).
      destruct (vs_pcs s v); simpl in *; try done; by rewrite Hoth.
    + intros Hbu. eapply v_mid_congr; [by symmetry|]. by apply Hinv.
  - intros Hno. rewrite (v_filled_congr _ _ _ Hval). apply Hinv. intros u. specialize (Hno u). by same_tid t u.
  - apply v_main_ok_step; [apply Hinv|done..].
  - intros u. same_tid t u; [by destruct Hpc as [-> | ->]|]. rewrite Hiter by done. apply Hinv.
  - intros u. same_tid t u; [by destruct Hpc as [-> | ->]; intros [|]|]. rewrite Hiter by done. apply Hinv.
Qed.

Lemma v_inv_lock s t l s' :
  v_inv s → vs_pcs s t = VLock → v_lock_step M s t l Holding (VInc 0) = Some s' → v_inv s'.
Proof.
  intros Hinv Hpc Hstep. unfold v_lock_step in Hstep. destruct (mtx_step t l (vs_lock s)) as [k|] eqn:Hk; simplify_eq/=.
  pose proof (vi_phase s Hinv t) as Hp. pose proof (mtx_cycle t l _ _ Hk) as Hcyc. rewrite Hpc in Hp. simpl in Hp.
  rewrite andb_false_r. case_bool_decide as Hover.
  - eapply (v_inv_over s t l k (VInc 0)); rewrite ?Hpc; try done; [by left|].
    f_equal. rewrite (v_value_step s _ t); [|by eapply v_running; rewrite ?Hpc|by intros u Hu; simpl; rewrite fn_lookup_insert_ne].
    unfold v_counts. simpl. rewrite fn_lookup_insert, Hpc. simpl. lia.
  - eapply v_inv_wait; rewrite ?Hpc; try done. simpl.
    destruct Hp as [Hp|[Hp|[Hp|Hp]]]; rewrite Hp in Hcyc; destruct (mtx_phase k t); naive_solver.
Qed.

Lemma v_inv_unlock s t l s' :
  v_inv s → vs_pcs s t = VUnlock → v_lock_step M s t l Idle VLoop = Some s' → v_inv s'.
Proof.
  intros Hinv Hpc Hstep. unfold v_lock_step in Hstep. destruct (mtx_step t l (vs_lock s)) as [k|] eqn:Hk; simplify_eq/=.
  pose proof (vi_phase s Hinv t) as Hp. pose proof (mtx_cycle t l _ _ Hk) as Hcyc. rewrite Hpc in Hp. simpl in Hp.
  rewrite andb_true_r. case_bool_decide as Hover.
  - eapply (v_inv_over s t l k VLoop); rewrite ?Hpc; try done; [by right|by intros u Hu; rewrite fn_lookup_insert_ne|].
    rewrite (v_value_step s _ t); [|by eapply v_running; rewrite ?Hpc|by intros u Hu; simpl; rewrite !fn_lookup_insert_ne].
    unfold v_counts. simpl. rewrite !fn_lookup_insert, Hpc. simpl. rewrite Z.add_0_r, s32_s64. f_equal. lia.
  - eapply v_inv_wait; rewrite ?Hpc; try done. simpl.
    destruct Hp as [Hp|[Hp|Hp]]; rewrite Hp in Hcyc; destruct (mtx_phase k t); naive_solver.
Qed.

(** The value after a step in the critical section. *)
Lemma v_value_move s t pc array counters out :
  (t < NUM_THREADS)%nat →
  v_value (VState (vs_lock s) array (vs_quit s) counters (vs_iter s) (<[t := pc]> (vs_pcs s)) (vs_main s) out) =
  v_value s - v_extra (vs_pcs s t) + v_extra pc.
Proof.
  intros Ht. rewrite (v_value_step s _ t); [|done|by intros u Hu; simpl; rewrite fn_lookup_insert_ne].
  unfold v_counts. simpl. rewrite fn_lookup_insert. lia.
Qed.

Lemma v_inv_worker s t l s' : v_inv s → worker_thread M t l s = Some s' → v_inv s'.
Proof.
  intros Hinv Hstep. unfold worker_thread in Hstep.
  pose proof (vi_mid s Hinv t) as Hmid. pose proof (vi_phase s Hinv t) as Hp.
  pose proof (v_running s t Hinv) as Hrun. pose proof (vi_thread s Hinv t) as Hth. pose proof (vi_main s Hinv) as Hm.
  assert (∃ o, vs_out s = vs_out s ++ o ∧ VError ∉ o) as Hout by (exists []; rewrite app_nil_r; split; [done|set_solver]).
  destruct (vs_pcs s t) as [| | |i|i v|i|i v| | | |] eqn:Hpc; try done; specialize (Hrun ltac:(done)).
  - simplify_eq. unfold v_goto. destruct (vs_quit s) eqn:Hq; rewrite <-Hq; eapply v_inv_move; rewrite ?Hpc; try done; [naive_solver|by left|naive_solver].
  - by eapply v_inv_lock.
  - destruct (Hmid eq_refl) as [Hi Harr]. case_bool_decide as Hlt.
    + rewrite Harr, v_filled_lookup in Hstep by done. simplify_eq/=. eapply v_inv_move; rewrite ?Hpc; try done; [|naive_solver].
      rewrite v_value_move by done. rewrite Hpc. simpl. replace (v_value s - 0 + 0) with (v_value s) by lia. done.
    + simplify_eq/=. assert (i = ARRAY_SIZE) as -> by lia. eapply v_inv_move; rewrite ?Hpc; try done; [|naive_solver].
      rewrite v_value_move by done. rewrite Hpc. intros _. simpl. rewrite Harr, v_filled_full. f_equal. lia.
  - destruct (Hmid eq_refl) as (Hi & Harr & ->). simplify_eq/=. eapply v_inv_move; rewrite ?Hpc; try done; [|naive_solver].
    rewrite v_value_move by done. rewrite Hpc. simpl. replace (v_value s - 0 + 0) with (v_value s) by lia. intros _. split; [lia|].
    by rewrite Harr, v_filled_insert.
  - simpl in Hmid. specialize (Hmid eq_refl). case_bool_decide as Hlt.
    + rewrite Hmid in Hstep. rewrite v_filled_all, lookup_replicate_2 in Hstep by done. simplify_eq/=. eapply v_inv_move; rewrite ?Hpc; try done; [|naive_solver].
      rewrite v_value_move by done. rewrite Hpc. simpl. by replace (v_value s - 1 + 1) with (v_value s) by lia.
    + simplify_eq/=. eapply v_inv_move; rewrite ?Hpc; try done; [by left| |naive_solver].
      rewrite v_value_move by done. rewrite Hpc. simpl. by replace (v_value s - 1 + 1) with (v_value s) by lia.
  - destruct (Hmid eq_refl) as (Harr & ->). rewrite Harr, v_filled_all, lookup_replicate_2 in Hstep by (unfold ARRAY_SIZE; lia).
    simpl in Hstep. rewrite bool_decide_true, app_nil_r in Hstep by done. simplify_eq. eapply v_inv_move; rewrite ?Hpc; try done; [|naive_solver].
    rewrite v_value_move by done. rewrite Hpc. simpl. by replace (v_value s - 1 + 1) with (v_value s) by lia.
  - by eapply v_inv_unlock.
  - simplify_eq. eapply v_inv_move; rewrite ?Hpc; try done.
    + eexists. split; [done|]. set_solver.
    + set_solver.
  - simplify_eq. eapply v_inv_move; rewrite ?Hpc; try done.
    + by rewrite length_insert.
    + intros u Hu. by rewrite list_lookup_insert_ne.
    + intros _. rewrite list_lookup_insert_eq; [done|]. rewrite (vi_len s Hinv); [done|].
      intros Hmc. rewrite Hmc in Hm. simpl in Hm. by rewrite Hm in Hpc.
    + intros _. apply Hth. by left.
Qed.

(** A step of [main] that starts no thread. *)
Lemma v_inv_main s m quit counters out :
  v_inv s → v_main_ok m (vs_pcs s) → (m ≠ MClear → length counters = NUM_THREADS) →
  (∀ t, vs_pcs s t = VDone → counters !! t = vs_counters s !! t) →
  (∃ o, out = vs_out s ++ o ∧ VError ∉ o) → (m = MEnd → last out = Some (printOperationsPerSecond counters)) →
  v_inv (v_at s m quit counters (vs_pcs s) out).
Proof.
  intros Hinv Hm Hlen Hc (o & Ho & Herr) Hend. destruct Hinv. split; simpl; try done.
  - intros t Ht. rewrite Hc by done. auto.
  - rewrite Ho. rewrite not_elem_of_app. done.
  - intros t Ht. rewrite Ho. apply elem_of_app. left. auto.
Qed.

Lemma v_inv_create s i :
  v_inv s → vs_main s = MCreate i → (i < NUM_THREADS)%nat →
  v_inv (v_at s (MCreate (Datatypes.S i)) (vs_quit s) (vs_counters s) (<[i := VLoop]> (vs_pcs s)) (vs_out s)).
Proof.
  intros Hinv Hmain Hi. pose proof (vi_main s Hinv) as Hm. rewrite Hmain in Hm. simpl in Hm.
  assert (v_value (v_at s (MCreate (Datatypes.S i)) (vs_quit s) (vs_counters s) (<[i := VLoop]> (vs_pcs s)) (vs_out s)) = v_value s) as Hval.
  { unfold v_value. f_equal. apply zsum_ext. intros u _. unfold v_counts. simpl. same_tid i u; [|done]. by rewrite Hm. }
  destruct Hinv. split; simpl; try done.
  - intros u. same_tid i u; [|done]. specialize (vi_phase0 i). by rewrite Hm in vi_phase0.
  - intros u Hu. rewrite fn_lookup_insert_ne by (unfold NUM_THREADS in *; lia). auto.
  - intros u. rewrite Hval. same_tid i u; [done|auto].
  - rewrite Hval. intros Hno. apply vi_free0. intros u. specialize (Hno u). same_tid i u; [by rewrite Hm|done].
  - intros u Hu. rewrite fn_lookup_insert_ne by lia. apply Hm. lia.
  - intros _. apply vi_len0. by rewrite Hmain.
  - intros u. same_tid i u; [done|auto].
  - intros u. same_tid i u; [by intros []|auto].
Qed.

Lemma v_inv_main_round s s' : v_inv s → main_round s = Some s' → v_inv s'.
Proof.
  intros Hinv Hstep. pose proof (vi_main s Hinv) as Hm. pose proof (vi_len s Hinv) as Hlen. unfold main_round in Hstep.
  assert (∃ o, vs_out s = vs_out s ++ o ∧ VError ∉ o) as Hout by (exists []; rewrite app_nil_r; split; [done|set_solver]).
  destruct (vs_main s) as [|i| | |i| | |] eqn:Hmain; simpl in Hm; try specialize (Hlen ltac:(done)).
  - simplify_eq. apply v_inv_main; try done; [intros t _; apply Hm|]. intros t. by rewrite Hm.
  - case_bool_decide as Hi; simplify_eq; [by apply v_inv_create|by apply v_inv_main].
  - simplify_eq. by apply v_inv_main.
  - simplify_eq. apply v_inv_main; try done. intros t; lia.
  - case_bool_decide as Hi.
    + destruct (vs_pcs s i) eqn:Hpc; simplify_eq. apply v_inv_main; try done. intros t Ht Htn.
      destruct (decide (t = i)) as [->|]; [done|]. apply Hm; lia.
    + simplify_eq. apply v_inv_main; try done. intros t Ht. apply Hm; lia.
  - simplify_eq. by apply v_inv_main.
  - simplify_eq. apply v_inv_main; try done; [eexists; split; [done|]; unfold printOperationsPerSecond; set_solver|].
    intros _. by rewrite last_snoc.
  - done.
Qed.

Lemma v_inv_start s : round_init M (replicate ARRAY_SIZE (s32 start)) s → v_inv s.
Proof.
  intros (Hi & Harr & Hq & Hit & Hpcs & Hmain & Hout).
  assert (v_value s = start) as Hval.
  { unfold v_value. rewrite (zsum_ext _ _ (λ _, 0)); [unfold zsum; simpl; lia|]. intros t _. unfold v_counts. by rewrite Hit, Hpcs. }
  split; rewrite ?Hpcs, ?Hmain, ?Hout; try done.
  - by apply reachable_init.
  - intros t. by apply mtx_init_idle.
  - intros _. by rewrite Hval, v_filled_all.
  - by apply not_elem_of_nil.
  - by intros t [].
Qed.

Lemma v_inv_reachable s :
  reachable (sys := validation_round M (replicate ARRAY_SIZE (s32 start))) s → v_inv s.
Proof.
  apply (invariant_reachable v_inv). split; [apply v_inv_start|].
  intros [|t l] s0 s1 Hinv Hstep; simpl in Hstep; [by eapply v_inv_main_round|by eapply (v_inv_worker s0 t l)].
Qed.

(** What a round has done when it is over. *)
Lemma v_round_end s :
  reachable (sys := validation_round M (replicate ARRAY_SIZE (s32 start))) s → vs_main s = MEnd →
  vs_array s = replicate ARRAY_SIZE (s32 (start + zsum NUM_THREADS (vs_iter s))) ∧
  vs_counters s = (λ t, s32 (vs_iter s t)) <$> seq 0 NUM_THREADS ∧
  last (vs_out s) = Some (printOperationsPerSecond (vs_counters s)).
Proof.
  intros Hinv%v_inv_reachable Hend. pose proof (vi_main s Hinv) as Hm. rewrite Hend in Hm. simpl in Hm.
  split_and!; [| |by apply Hinv].
  - rewrite (vi_free s Hinv).
    + rewrite v_filled_all. unfold v_value. do 3 f_equal. apply zsum_ext. intros t Ht. unfold v_counts. rewrite Hm by done. simpl. lia.
    + intros t. destruct (decide (t < NUM_THREADS)%nat) as [Ht|Ht]; [by rewrite Hm|]. by rewrite (vi_tids s Hinv) by lia.
  - apply list_eq. intros t. rewrite list_lookup_fmap. destruct (decide (t < NUM_THREADS)%nat) as [Ht|Ht].
    + rewrite lookup_seq_lt by done. rewrite (vi_counter s Hinv) by (by apply Hm). done.
    + rewrite lookup_seq_ge by lia. apply lookup_ge_None_2. rewrite (vi_len s Hinv) by (by rewrite Hend). lia.
Qed.
End proofs.

(** ** Theorem *)

Lemma validation_locks_laws pthread_mutex pthread_spinlock pthread_self m :
  mutex_laws pthread_mutex → mutex_laws pthread_spinlock → (∀ t, 0 < pthread_self t) → ids_distinct pthread_self →
  m ∈ validation_locks pthread_mutex pthread_spinlock pthread_self → mutex_laws m.
Proof.
  intros Hm Hs Hpos Hd Hin. assert (∀ lm, mutex_laws (lock_t pthread_mutex pthread_spinlock pthread_self NUM_THREADS lm)) as Hl.
  { intros lm. apply lock_t_laws; try done. }
  unfold validation_locks in Hin. apply elem_of_app in Hin as [(lm & -> & _)%list_elem_of_fmap|Hin]; [apply Hl|].
  repeat (apply elem_of_cons in Hin as [->|Hin]); [..|by apply not_elem_of_nil in Hin].
  - refine (@queue_lock_laws _ _ _ (ne_queue_lock NUM_THREADS 34 _)). lia.
  - refine (@queue_lock_laws _ _ _ (ee_queue_lock NUM_THREADS 34 _)). lia.
  - refine (@queue_lock_laws _ _ _ (sb_queue_lock NUM_THREADS 34 _)). lia.
Qed.

Lemma validation_main_ok ms start array out :
  (∀ m, m ∈ ms → mutex_laws m) → validation_main ms (replicate ARRAY_SIZE (s32 start)) array out →
  VError ∉ out ∧ ∃ v, array = replicate ARRAY_SIZE v.
Proof.
  revert start out. induction ms as [|m ms IH]; intros start out Hlaws Hrun; inversion Hrun as [|? ? ? s ? out' Hr Hend Hrest]; subst.
  { split; [by apply not_elem_of_nil|by eexists]. }
  pose proof (Hlaws m ltac:(by left)) as ML. unfold mutex_laws in ML.
  destruct (v_round_end start s Hr Hend) as (Harr & _ & _). rewrite Harr in Hrest.
  destruct (IH (start + zsum NUM_THREADS (vs_iter s)) out') as [Herr Hv]; [intros m' Hm'; apply Hlaws; by right|done|].
  split; [|done]. rewrite not_elem_of_app. split; [|done]. exact (vi_noerr start s (v_inv_reachable start s Hr)).
Qed.

(** C12: with each of the ten locks, no round of the validation program ever prints
    ERROR, and no increment is lost: when a round is over, every element of the array has
    grown by the number of iterations of all threads, which is also what the
    counters and the printed sum say.  The whole program therefore prints no
    ERROR.  The pthread locks are assumed to be mutexes. *)
Theorem validation_correct (pthread_mutex pthread_spinlock : some_mutex) (pthread_self : tid → Z) :
  mutex_laws pthread_mutex → mutex_laws pthread_spinlock → (∀ t, 0 < pthread_self t) → ids_distinct pthread_self →
  let locks := validation_locks pthread_mutex pthread_spinlock pthread_self in
  (∀ m start s, m ∈ locks →
     reachable (sys := validation_round (sm_mutex m) (replicate ARRAY_SIZE (s32 start))) s →
     VError ∉ vs_out s ∧
     (vs_main s = MEnd →
        vs_array s = replicate ARRAY_SIZE (s32 (start + zsum NUM_THREADS (vs_iter s))) ∧
        vs_counters s = (λ t, s32 (vs_iter s t)) <$> seq 0 NUM_THREADS ∧
        last (vs_out s) = Some (printOperationsPerSecond (vs_counters s)))) ∧
  (∀ array out, validation_main locks (replicate ARRAY_SIZE 0) array out →
     VError ∉ out ∧ ∃ v, array = replicate ARRAY_SIZE v).
Proof.
  intros Hm Hs Hpos Hd locks. pose proof (λ m, validation_locks_laws _ _ _ m Hm Hs Hpos Hd) as Hlaws. split.
  - intros m start s Hin Hr. pose proof (Hlaws m Hin) as ML. unfold mutex_laws in ML. split.
    + exact (vi_noerr start s (v_inv_reachable start s Hr)).
    + exact (v_round_end (ML := ML) start s Hr).
  - intros array out. apply (validation_main_ok _ 0). exact Hlaws.
Qed.

(** A round with the ticket lock in which two of the threads get around once. *)
Definition validation_start : v_state ticket_state :=
  VState ticket_start (replicate ARRAY_SIZE 0) false [] (λ _, 0) (λ _, VNew) MClear [].

Definition validation_schedule : list (v_label unit) :=
  replicate 6 VMain ++ replicate 1029 (VWorker 0 tt) ++ replicate 1029 (VWorker 1 tt) ++ replicate 2 VMain ++
  replicate 3 (VWorker 0 tt) ++ replicate 3 (VWorker 1 tt) ++ replicate 3 (VWorker 2 tt) ++ replicate 3 (VWorker 3 tt) ++
  replicate 7 VMain.

Definition ticket4 : some_mutex := SomeMutex _ _ (ticket_mutex NUM_THREADS).

Lemma ticket4_laws : mutex_laws ticket4.
Proof. refine (@queue_lock_laws _ _ _ (ticket_queue_lock NUM_THREADS _)). unfold NUM_THREADS. lia. Qed.

Lemma validation_correct_witness :
  let go := run (sys := validation_round (ticket_mutex NUM_THREADS) (replicate ARRAY_SIZE 0)) validation_schedule validation_start in
  (λ s, (bool_decide (vs_array s = replicate ARRAY_SIZE 2), vs_out s)) <$> go =
    Some (true, [VThread 0 1; VThread 1 1; VThread 2 0; VThread 3 0; VOps 2]) ∧
  (∀ s, go = Some s → VError ∉ vs_out s).
Proof.
  split; [vm_compute; reflexivity|]. intros s Hs.
  refine (proj1 (proj1 (validation_correct ticket4 ticket4 self_example _ _ _ _) ticket4 0 s _ _)).
  - exact ticket4_laws.
  - exact ticket4_laws.
  - unfold self_example. lia.
  - exact self_example_distinct.
  - by left.
  - refine (run_reachable (sys := validation_round (ticket_mutex NUM_THREADS) (replicate ARRAY_SIZE 0)) _ validation_start s _ Hs).
    apply reachable_init. split; [reflexivity|]. do 5 (split; [reflexivity|]). reflexivity.
Defined.
