(* ===== verification/VyukovQueue.v ===== *)
(** * The intrusive MPSC queue of [src/vyukov_q.h]

    [mpscq_create], [mpscq_push] and [mpscq_pop], the queue selected by
    [QUEUE_METHOD=VYUKOV_QUEUE].  Any number of threads push, one thread pops.
    [push] makes its node visible by an exchange on [head] and links it to its
    predecessor afterwards; between the two the list is broken, and [pop] may
    meet the break.  The queue is therefore lax: [pop] may return NULL although
    nodes are inside, but only if a [push] overlapped it.  The node [stub] lies
    in the queue object; the other nodes belong to the clients. *)

From S2P Require Import Prelude Lts Nodes QueueSpec.

(** ** Data *)

Record mpscq_t := MpscQ { vq_head : loc; vq_tail : loc }.

(** The three instructions of [mpscq_push]. *)
Inductive push_pc :=
  | PuClear (n : loc)      (** [n->next = 0] *)
  | PuXchg (n : loc)       (** exchange on [self->head] *)
  | PuLink (prev n : loc)  (** [prev->next = n] *)
  | PuDone.

Inductive vq_pc :=
  | VqIdle
  | VqPush (p : push_pc)             (** a client's [mpscq_push] *)
  | VqTail                           (** [pop]: [tail = self->tail] *)
  | VqNext (tail : loc)              (** [next = tail->next] *)
  | VqAdvance (next : loc)           (** [self->tail = next], past the stub *)
  | VqNext2 (tail : loc)             (** [next = next->next] *)
  | VqSetTail (tail next : loc)      (** [self->tail = next; return tail] *)
  | VqHead (tail : loc)              (** [head = self->head] *)
  | VqStub (tail : loc) (p : push_pc)  (** [mpscq_push(self, &self->stub.wn)] *)
  | VqNext3 (tail : loc)             (** [next = tail->next], last attempt *)
  | VqRet (r : ptr).

(** ** Operations

    [nx] gives the [next] field of every node, [stub] is [&self->stub]. *)

Definition mpscq_create (stub : loc) (nx : loc → ptr) : mpscq_t * (loc → ptr) :=
  (MpscQ stub stub, <[stub := None]> nx).

Definition mpscq_push (self : mpscq_t) (nx : loc → ptr) (p : push_pc)
    : option (mpscq_t * (loc → ptr) * push_pc) :=
  match p with
  | PuClear n => Some (self, <[n := None]> nx, PuXchg n)
  | PuXchg n =>
      (* prev = __sync_lock_test_and_set(&self->head, n) *)
      Some (MpscQ n (vq_tail self), nx, PuLink (vq_head self) n)
  | PuLink prev n => Some (self, <[prev := Some n]> nx, PuDone)
  | PuDone => None
  end.

Definition mpscq_pop (stub : loc) (self : mpscq_t) (nx : loc → ptr) (pc : vq_pc)
    : option (mpscq_t * (loc → ptr) * vq_pc) :=
  match pc with
  | VqTail => Some (self, nx, VqNext (vq_tail self))
  | VqNext tail =>
      if decide (tail = stub) then
        match nx tail with
        | None => Some (self, nx, VqRet None)
        | Some next => Some (self, nx, VqAdvance next)
        end
      else
        match nx tail with
        | Some next => Some (self, nx, VqSetTail tail next)
        | None => Some (self, nx, VqHead tail)
        end
  | VqAdvance next => Some (MpscQ (vq_head self) next, nx, VqNext2 next)
  | VqNext2 tail =>
      match nx tail with
      | Some next => Some (self, nx, VqSetTail tail next)
      | None => Some (self, nx, VqHead tail)
      end
  | VqSetTail tail next => Some (MpscQ (vq_head self) next, nx, VqRet (Some tail))
  | VqHead tail =>
      if decide (tail = vq_head self) then Some (self, nx, VqStub tail (PuClear stub))
      else Some (self, nx, VqRet None)
  | VqStub tail p =>
      match mpscq_push self nx p with
      | Some (self', nx', PuDone) => Some (self', nx', VqNext3 tail)
      | Some (self', nx', p') => Some (self', nx', VqStub tail p')
      | None => None
      end
  | VqNext3 tail =>
      match nx tail with
      | Some next => Some (self, nx, VqSetTail tail next)
      | None => Some (self, nx, VqRet None)
      end
  | _ => None
  end.

Definition vq_status (pc : vq_pc) : qstatus :=
  match pc with
  | VqIdle => QsIdle
  | VqPush (PuClear n | PuXchg n) => QsPush n
  | VqPush (PuLink _ _ | PuDone) => QsPushed
  | VqRet r => QsPopped r
  | _ => QsPop
  end.

Inductive vq_label := VqCallPush (n : loc) | VqCallPop | VqRun.

Record vq_state := VqState {
  vq_q : mpscq_t;
  vq_next : loc → ptr;
  vq_inuse : gset loc;  (** client nodes that belong to the queue or to a call *)
  vq_pcs : tid → vq_pc;
}.

Section system.
Context (stub : loc) (consumer : tid).

Definition vq_step (t : tid) (l : vq_label) (s : vq_state) : option vq_state :=
  match vq_pcs s t, l with
  | VqIdle, VqCallPush n =>
      (* clients push nodes of their own that are not in use *)
      if decide (n = stub ∨ n ∈ vq_inuse s) then None
      else Some (VqState (vq_q s) (vq_next s) ({[n]} ∪ vq_inuse s)
                   (<[t := VqPush (PuClear n)]> (vq_pcs s)))
  | VqIdle, VqCallPop =>
      (* one consumer *)
      if decide (t = consumer) then
        Some (VqState (vq_q s) (vq_next s) (vq_inuse s) (<[t := VqTail]> (vq_pcs s)))
      else None
  | VqPush p, VqRun =>
      match mpscq_push (vq_q s) (vq_next s) p with
      | Some (q, nx, p') =>
          Some (VqState q nx (vq_inuse s)
                  (<[t := match p' with PuDone => VqIdle | _ => VqPush p' end]> (vq_pcs s)))
      | None => None
      end
  | VqRet r, VqRun =>
      (* the caller owns the node that pop returns *)
      Some (VqState (vq_q s) (vq_next s)
              (match r with Some n => vq_inuse s ∖ {[n]} | None => vq_inuse s end)
              (<[t := VqIdle]> (vq_pcs s)))
  | pc, VqRun =>
      match mpscq_pop stub (vq_q s) (vq_next s) pc with
      | Some (q, nx, pc') => Some (VqState q nx (vq_inuse s) (<[t := pc']> (vq_pcs s)))
      | None => None
      end
  | _, _ => None
  end.

Definition vq_init (s : vq_state) : Prop :=
  (∃ nx, mpscq_create stub nx = (vq_q s, vq_next s)) ∧ vq_inuse s = ∅ ∧ vq_pcs s = (λ _, VqIdle).

Definition vyukov_queue : Queue vq_label vq_state := {|
  q_init := vq_init;
  q_step := vq_step;
  q_status := λ s t, vq_status (vq_pcs s t);
|}.
End system.

(** ** The list from [tail] to [head]

    The link from a node to the next one is either stored or about to be
    stored by the one thread that appended the next one. *)

Definition vq_linking (pc : vq_pc) : option (loc * loc) :=
  match pc with
  | VqPush (PuLink x y) | VqStub _ (PuLink x y) => Some (x, y)
  | _ => None
  end.

Record vq_list (q : mpscq_t) (nx : loc → ptr) (pcs : tid → vq_pc) (l : list loc) : Prop := {
  vl_first : head l = Some (vq_tail q);
  vl_last : last l = Some (vq_head q);
  vl_nodup : NoDup l;
  vl_end : nx (vq_head q) = None;
  vl_next : ∀ x y, consec l x y →
    nx x = Some y ∨ (nx x = None ∧ ∃ t, vq_linking (pcs t) = Some (x, y));
  vl_link : ∀ t x y, vq_linking (pcs t) = Some (x, y) → nx x = None ∧ consec l x y;
  vl_sep : ∀ t t' x y, vq_linking (pcs t) = Some (x, y) → vq_linking (pcs t') = Some (x, y) → t = t';
}.

Section list_lemmas.
Context (q : mpscq_t) (nx : loc → ptr) (pcs : tid → vq_pc) (l : list loc) (t : tid) (pc : vq_pc).
Hypothesis Hl : vq_list q nx pcs l.

Lemma vq_linking_keep u :
  vq_linking pc = vq_linking (pcs t) → vq_linking ((<[t := pc]> pcs) u) = vq_linking (pcs u).
Proof. intros Heq. by same_tid t u. Qed.

Lemma vq_list_keep :
  vq_linking pc = vq_linking (pcs t) → vq_list q nx (<[t := pc]> pcs) l.
Proof.
  intros Heq. destruct Hl as [H1 H2 H3 H4 H5 H6 H7]. split; try done.
  - intros x y Hxy. destruct (H5 x y Hxy) as [?|[? [u ?]]]; [by left|right].
    split; [done|]. exists u. by rewrite vq_linking_keep.
  - intros u x y. rewrite vq_linking_keep by done. apply H6.
  - intros u u' x y. rewrite !vq_linking_keep by done. apply H7.
Qed.

(** [n->next = 0] for a node outside. *)
Lemma vq_list_clear n : n ∉ l → vq_list q (<[n := None]> nx) pcs l.
Proof.
  intros Hn. destruct Hl as [H1 H2 H3 H4 H5 H6 H7].
  assert (∀ x, x ∈ l → (<[n := None]> nx) x = nx x) as Heq.
  { intros x Hx. apply fn_lookup_insert_ne. by intros ->. }
  split; try done.
  - rewrite Heq; [done|]. by apply last_Some_elem_of.
  - intros x y Hxy. rewrite Heq; [auto|]. by apply (consec_elem l x y).
  - intros u x y Hu. destruct (H6 u x y Hu) as [? Hxy]. rewrite Heq; [done|]. by apply (consec_elem l x y).
Qed.

(** The exchange on [head]. *)
Lemma vq_list_xchg n :
  n ∉ l → nx n = None → vq_linking (pcs t) = None → vq_linking pc = Some (vq_head q, n) →
  vq_list (MpscQ n (vq_tail q)) nx (<[t := pc]> pcs) (l ++ [n]).
Proof.
  intros Hn Hnx Ht Hpc. destruct Hl as [H1 H2 H3 H4 H5 H6 H7].
  assert (∀ u x y, vq_linking (pcs u) = Some (x, y) → y ≠ n) as Hold.
  { intros u x y Hu ->. destruct (H6 u x n Hu) as [_ Hxy%consec_elem]. naive_solver. }
  split; simpl.
  - by destruct l.
  - by rewrite last_snoc.
  - apply NoDup_app. split_and!; [done| |apply NoDup_singleton].
    intros x Hx ->%list_elem_of_singleton. done.
  - done.
  - intros x y [Hxy|[Hx ->]]%consec_snoc.
    + destruct (H5 x y Hxy) as [?|[? [u ?]]]; [by left|right]. split; [done|]. exists u.
      same_tid t u; congruence.
    + right. assert (x = vq_head q) as -> by congruence. split; [done|]. exists t. by simpl_fn.
  - intros u x y. rewrite consec_snoc. same_tid t u; intros Hu.
    + simplify_eq. naive_solver.
    + destruct (H6 u x y Hu). auto.
  - intros u u' x y. same_tid t u; same_tid t u'; intros Hu Hu'; simplify_eq; [done|..|by eauto].
    + by destruct (Hold u' (vq_head q) n).
    + by destruct (Hold u (vq_head q) n).
Qed.

(** [prev->next = n]. *)
Lemma vq_list_link x y :
  vq_linking (pcs t) = Some (x, y) → vq_linking pc = None →
  vq_list q (<[x := Some y]> nx) (<[t := pc]> pcs) l.
Proof.
  intros Ht Hpc. destruct Hl as [H1 H2 H3 H4 H5 H6 H7]. destruct (H6 t x y Ht) as [Hx Hxy].
  split; try done.
  - rewrite fn_lookup_insert_ne; [done|]. intros ->. by apply (consec_last l (vq_head q) y).
  - intros x' y' Hxy'. destruct (decide (x = x')) as [<-|Hne].
    + left. simpl_fn. f_equal. by eapply consec_unique.
    + rewrite fn_lookup_insert_ne by done.
      destruct (H5 x' y' Hxy') as [?|[? [u ?]]]; [by left|right]. split; [done|]. exists u.
      same_tid t u; congruence.
  - intros u x' y'. same_tid t u; [congruence|]. intros Hu. destruct (H6 u x' y' Hu) as [? Hxy'].
    split; [|done]. rewrite fn_lookup_insert_ne; [done|]. intros <-.
    assert (y = y') as <- by (by eapply consec_unique). by assert (t = u) by eauto.
  - intros u u' x' y'. same_tid t u; same_tid t u'; [congruence..|eauto].
Qed.

(** [self->tail = next]. *)
Lemma vq_list_drop x y :
  vq_tail q = x → nx x = Some y → consec l x y → vq_linking pc = vq_linking (pcs t) →
  ∃ r, l = x :: y :: r ∧ vq_list (MpscQ (vq_head q) y) nx (<[t := pc]> pcs) (y :: r).
Proof.
  intros Hx Hnx Hxy Heq. destruct Hl as [H1 H2 H3 H4 H5 H6 H7].
  destruct l as [|x' [|y' r]]; [done|by destruct Hxy as (? & _ & ?)|].
  simplify_eq/=. assert (y' = y) as ->.
  { apply (consec_unique (vq_tail q :: y' :: r) (vq_tail q)); [done| |done]. exists 0. done. }
  exists r. split; [done|]. apply NoDup_cons in H3 as [Hn H3]. split; simpl; try done.
  - intros x y0 Hx. destruct (H5 x y0) as [?|[? [u ?]]]; [by apply consec_cons; right|by left|right].
    split; [done|]. exists u. by rewrite vq_linking_keep.
  - intros u x y0. rewrite vq_linking_keep by done. intros Hu.
    destruct (H6 u x y0 Hu) as [? [[-> _]|?]%consec_cons]; [congruence|done].
  - intros u u' x y0. rewrite !vq_linking_keep by done. apply H7.
Qed.
End list_lemmas.

(** ** Invariant *)

Definition vq_priv (pc : vq_pc) : ptr :=
  match vq_status pc with QsPush n => Some n | QsPopped r => r | _ => None end.

Section proofs.
Context (stub : loc) (consumer : tid).

(** What the consumer knows; [e] tells whether a push has taken effect since
    the call of [pop]. *)
Definition vq_cons (pc : vq_pc) (q : mpscq_t) (nx : loc → ptr) (l : list loc) (e : bool) : Prop :=
  match pc with
  | VqIdle | VqPush _ | VqTail | VqRet _ => True
  | VqNext tail => tail = vq_tail q
  | VqAdvance x => vq_tail q = stub ∧ nx stub = Some x ∧ consec l stub x
  | VqNext2 tail => tail = vq_tail q ∧ tail ≠ stub
  | VqSetTail tail x => tail = vq_tail q ∧ tail ≠ stub ∧ nx tail = Some x ∧ consec l tail x
  | VqHead tail => tail = vq_tail q ∧ tail ≠ stub ∧ (l = [tail] ∨ e = true)
  | VqStub tail p => tail = vq_tail q ∧ tail ≠ stub ∧
      match p with
      | PuClear n => n = stub ∧ stub ∉ l
      | PuXchg n => n = stub ∧ stub ∉ l ∧ nx stub = None
      | PuLink _ n => n = stub
      | PuDone => False
      end
  | VqNext3 tail => tail = vq_tail q ∧ tail ≠ stub ∧ stub ∈ l
  end.

Record vq_inv (s : vq_state) (a : fifo) (l : list loc) : Prop := {
  vi_list : vq_list (vq_q s) (vq_next s) (vq_pcs s) l;
  vi_items : ff_items a = filter (λ x, x ≠ stub) l;
  vi_owned : owned vq_priv (vq_inuse s) (λ p, p ∈ ff_items a) (vq_pcs s);
  vi_stub : stub ∉ vq_inuse s;
  vi_ready : ∀ t n, vq_pcs s t = VqPush (PuXchg n) → vq_next s n = None;
  vi_role : ∀ t, t ≠ consumer → vq_pcs s t = VqIdle ∨ ∃ p, vq_pcs s t = VqPush p;
  vi_cons : vq_cons (vq_pcs s consumer) (vq_q s) (vq_next s) l (ff_exc a consumer);
  vi_status : ∀ t, vq_status (vq_pcs s t) = ff_st a t;
}.

(** A node that belongs to a call is not in the list. *)
Lemma vq_priv_fresh s a l t n :
  vq_inv s a l → vq_priv (vq_pcs s t) = Some n → n ∉ l ∧ n ≠ stub.
Proof.
  intros Hinv Hn. destruct (ow_priv _ _ _ _ (vi_owned _ _ _ Hinv) t n Hn) as [Hin Hni].
  assert (n ≠ stub) by (intros ->; by apply (vi_stub _ _ _ Hinv)).
  split; [|done]. rewrite (vi_items _ _ _ Hinv) in Hni. intros Hl. apply Hni.
  by apply list_elem_of_filter.
Qed.

Lemma vq_cons_push pc q nx l e n :
  n ≠ stub → vq_cons pc q nx l e → vq_cons pc (MpscQ n (vq_tail q)) nx (l ++ [n]) true.
Proof.
  intros Hn. destruct pc as [|p|tl|tl|x|tl|tl x|tl|tl p|tl|r]; simpl; try done; try naive_solver.
  - rewrite consec_snoc. naive_solver.
  - rewrite consec_snoc. naive_solver.
  - intros (-> & ? & Hp). split_and!; [done..|]. destruct p; set_solver.
  - set_solver.
Qed.

Lemma vq_cons_frame pc q nx nx' l e :
  (∀ x y, x ∈ l → nx x = Some y → nx' x = Some y) → (stub ∉ l → nx' stub = nx stub) →
  vq_cons pc q nx l e → vq_cons pc q nx' l e.
Proof.
  intros Hl Hs. destruct pc as [|p|tl|tl|x|tl|tl x|tl|tl p|tl|r]; simpl; try done.
  - intros (? & ? & Hc). split_and!; [done| |done]. apply Hl; [by apply consec_elem in Hc as [? _]|done].
  - intros (? & ? & ? & Hc). split_and!; [done..| |done].
    apply Hl; [by apply consec_elem in Hc as [? _]|done].
  - intros (? & ? & Hp). split_and!; [done..|]. destruct p; [done| |done..].
    destruct Hp as (? & Hn & ?). rewrite Hs; done.
Qed.

Section sim.
Context (s : vq_state) (a : fifo) (l : list loc) (t : tid).
Hypothesis Hinv : vq_inv s a l.

Let sim (s' : vq_state) : Prop :=
  ∃ a' l', fifo_step true t a a' ∧ vq_inv s' a' l'.

(** [n->next = 0]. *)
Lemma vq_sim_clear n :
  vq_pcs s t = VqPush (PuClear n) →
  sim (VqState (vq_q s) (<[n := None]> (vq_next s)) (vq_inuse s)
         (<[t := VqPush (PuXchg n)]> (vq_pcs s))).
Proof.
  intros Hpc. destruct (vq_priv_fresh s a l t n Hinv) as [Hn Hns]; [by rewrite Hpc|].
  destruct Hinv as [Hl Hit How Hst Hrd Hro Hco Hs]. exists a, l. split; [constructor|].
  split; simpl; try done.
  - apply vq_list_keep; [by apply vq_list_clear|by rewrite Hpc].
  - apply (owned_keep _ _ _ _ _ _ _ How); [|done]. by rewrite Hpc.
  - intros u m. same_tid t u; intros Hu; [simplify_eq; by simpl_fn|].
    destruct (decide (n = m)) as [<-|]; [by simpl_fn|]. rewrite fn_lookup_insert_ne; eauto.
  - intros u Hu. same_tid t u; [eauto|auto].
  - same_tid t consumer; [done|]. eapply vq_cons_frame; [| |done].
    + intros x y Hx Hy. by rewrite fn_lookup_insert_ne by (by intros ->).
    + intros _. by apply fn_lookup_insert_ne.
  - intros u. same_tid t u; [|done]. rewrite <-Hs, Hpc. done.
Qed.

(** The exchange puts the node into the queue. *)
Lemma vq_sim_xchg n :
  vq_pcs s t = VqPush (PuXchg n) →
  sim (VqState (MpscQ n (vq_tail (vq_q s))) (vq_next s) (vq_inuse s)
         (<[t := VqPush (PuLink (vq_head (vq_q s)) n)]> (vq_pcs s))).
Proof.
  intros Hpc. destruct (vq_priv_fresh s a l t n Hinv) as [Hn Hns]; [by rewrite Hpc|].
  destruct Hinv as [Hl Hit How Hst Hrd Hro Hco Hs].
  exists (Fifo (ff_items a ++ [n]) (<[t := QsPushed]> (ff_st a)) (λ _, true)), (l ++ [n]).
  split; [constructor; by rewrite <-Hs, Hpc|]. split; simpl; try done.
  - apply vq_list_xchg; try done; [by eauto|by rewrite Hpc].
  - by rewrite filter_app, filter_cons_True, <-Hit.
  - eapply owned_publish with (p := n); [done|by rewrite Hpc|done|]. set_solver.
  - intros u m. same_tid t u; [done|by eauto].
  - intros u Hu. same_tid t u; [eauto|auto].
  - same_tid t consumer; [done|]. by eapply vq_cons_push.
  - intros u. same_tid t u; [done|apply Hs].
Qed.

(** [prev->next = n]. *)
Lemma vq_sim_link x n :
  vq_pcs s t = VqPush (PuLink x n) →
  sim (VqState (vq_q s) (<[x := Some n]> (vq_next s)) (vq_inuse s) (<[t := VqIdle]> (vq_pcs s))).
Proof.
  intros Hpc. pose proof (vq_priv_fresh s a l) as Hfresh.
  destruct Hinv as [Hl Hit How Hst Hrd Hro Hco Hs].
  assert (vq_linking (vq_pcs s t) = Some (x, n)) as Hlk by (by rewrite Hpc).
  destruct (vl_link _ _ _ _ Hl t x n Hlk) as [Hx [Hxl _]%consec_elem].
  exists (Fifo (ff_items a) (<[t := QsIdle]> (ff_st a)) (ff_exc a)), l.
  split; [constructor; by rewrite <-Hs, Hpc|]. split; simpl; try done.
  - by apply vq_list_link.
  - apply (owned_keep _ _ _ _ _ _ _ How); [|done]. by rewrite Hpc.
  - intros u m. same_tid t u; [done|]. intros Hu. rewrite fn_lookup_insert_ne; [by eauto|].
    intros ->. by destruct (Hfresh u m Hinv) as [? _]; [rewrite Hu|].
  - intros u Hu. same_tid t u; [eauto|auto].
  - same_tid t consumer; [done|]. eapply vq_cons_frame; [| |done].
    + intros x' y _ Hy. rewrite fn_lookup_insert_ne; [done|]. intros <-. congruence.
    + intros Hns. apply fn_lookup_insert_ne. by intros ->.
  - intros u. same_tid t u; [done|apply Hs].
Qed.

(** Steps of the consumer inside [pop]. *)

Lemma vq_is_consumer : vq_status (vq_pcs s t) = QsPop ∨ (∃ r, vq_pcs s t = VqRet r) → t = consumer.
Proof.
  intros Ht. destruct (decide (t = consumer)) as [|Hne]; [done|].
  destruct (vi_role _ _ _ Hinv t Hne) as [Heq|[p Heq]]; rewrite Heq in Ht.
  - by destruct Ht as [?|[??]].
  - destruct p; by destruct Ht as [?|[??]].
Qed.

(** What a load of [tail->next] finds. *)
Lemma vq_read tl :
  vq_tail (vq_q s) = tl →
  (vq_next s tl = None ∧ l = [tl]) ∨
  (∃ y, vq_next s tl = Some y ∧ consec l tl y) ∨
  (vq_next s tl = None ∧ ∃ u y, vq_linking (vq_pcs s u) = Some (tl, y)).
Proof.
  intros Htl. destruct Hinv as [Hl _ _ _ _ _ _ _].
  pose proof (vl_first _ _ _ _ Hl) as Hf. destruct l as [|x [|y r]]; [done|..]; simplify_eq/=.
  - left. split; [|done]. pose proof (vl_last _ _ _ _ Hl) as Hla. simpl in Hla. simplify_eq.
    rewrite Hla. apply Hl.
  - right. assert (consec (vq_tail (vq_q s) :: y :: r) (vq_tail (vq_q s)) y) as Hc by (by exists 0).
    destruct (vl_next _ _ _ _ Hl _ _ Hc) as [?|[? [u ?]]]; eauto 10.
Qed.

(** A pending link belongs to a push that has not returned. *)
Lemma vq_pending u x y :
  vq_linking (vq_pcs s u) = Some (x, y) → vq_linking (vq_pcs s consumer) = None →
  u ≠ consumer ∧ ff_st a u = QsPushed.
Proof.
  intros Hu Hc. assert (u ≠ consumer) as Hne by (intros ->; congruence).
  split; [done|]. rewrite <-(vi_status _ _ _ Hinv).
  destruct (vi_role _ _ _ Hinv u Hne) as [Heq|[p Heq]]; rewrite Heq in *; [done|].
  by destruct p.
Qed.

(** The consumer moves on; [pop] is excused once it has met a push in
    progress. *)
Lemma vq_sim_quiet pc e :
  vq_status (vq_pcs s t) = QsPop → vq_status pc = QsPop →
  vq_linking pc = vq_linking (vq_pcs s t) → t = consumer →
  e = ff_exc a t ∨ (e = true ∧ ∃ u, u ≠ t ∧ ff_st a u = QsPushed) →
  vq_cons pc (vq_q s) (vq_next s) l e →
  sim (VqState (vq_q s) (vq_next s) (vq_inuse s) (<[t := pc]> (vq_pcs s))).
Proof.
  intros Ht Hpc Hlk -> He Hc. destruct Hinv as [Hl Hit How Hst Hrd Hro Hco Hs].
  assert (∃ a', fifo_step true consumer a a' ∧ ff_items a' = ff_items a ∧ ff_st a' = ff_st a ∧
    ff_exc a' consumer = e) as (a' & Ha & Hit' & Hst' & He').
  { destruct He as [->|[-> (u & Hu & Hup)]].
    - exists a. split; [constructor|done].
    - exists (Fifo (ff_items a) (ff_st a) (<[consumer := true]> (ff_exc a))).
      split; [eapply fs_excuse; [by rewrite <-Hs|done..]|]. simpl. by simpl_fn. }
  exists a', l. split; [done|]. split; simpl; rewrite ?Hit', ?Hst'; try done.
  - by apply vq_list_keep.
  - apply (owned_keep _ _ _ _ _ _ _ How); [|done]. unfold vq_priv. by rewrite Ht, Hpc.
  - intros v m. same_tid consumer v; [intros ->; done|by eauto].
  - intros v Hv. rewrite fn_lookup_insert_ne by done. auto.
  - simpl_fn. by rewrite He'.
  - intros v. rewrite <-Hs. same_tid consumer v; congruence.
Qed.

(** [return 0]. *)
Lemma vq_sim_fail :
  vq_status (vq_pcs s t) = QsPop → vq_linking (vq_pcs s t) = None → t = consumer →
  ff_items a = [] ∨ ff_exc a t = true ∨ (∃ u y, vq_linking (vq_pcs s u) = Some y) →
  sim (VqState (vq_q s) (vq_next s) (vq_inuse s) (<[t := VqRet None]> (vq_pcs s))).
Proof.
  intros Ht Hlk -> Hwhy. pose proof vq_pending as Hpend.
  destruct Hinv as [Hl Hit How Hst Hrd Hro Hco Hs].
  exists (Fifo (ff_items a) (<[consumer := QsPopped None]> (ff_st a)) (ff_exc a)), l.
  split.
  { constructor; [by rewrite <-Hs|]. destruct Hwhy as [?|[?|(u & [x y] & Hu)]]; [by auto..|].
    destruct (Hpend u x y) as [??]; eauto 10. }
  split; simpl; try done.
  - by apply vq_list_keep.
  - apply (owned_keep _ _ _ _ _ _ _ How); [|done]. unfold vq_priv. by rewrite Ht.
  - intros v m. same_tid consumer v; [done|by eauto].
  - intros v Hv. rewrite fn_lookup_insert_ne by done. auto.
  - by simpl_fn.
  - intros v. same_tid consumer v; [done|apply Hs].
Qed.

(** [self->tail = next; return tail]. *)
Lemma vq_sim_pop tl x :
  vq_pcs s t = VqSetTail tl x →
  sim (VqState (MpscQ (vq_head (vq_q s)) x) (vq_next s) (vq_inuse s)
         (<[t := VqRet (Some tl)]> (vq_pcs s))).
Proof.
  intros Hpc. assert (t = consumer) as -> by (apply vq_is_consumer; by rewrite Hpc; left).
  destruct Hinv as [Hl Hit How Hst Hrd Hro Hco Hs]. rewrite Hpc in Hco.
  destruct Hco as (-> & Hns & Hnx & Hc).
  destruct (vq_list_drop _ _ _ _ consumer (VqRet (Some (vq_tail (vq_q s)))) Hl _ x eq_refl Hnx Hc)
    as (r & -> & Hl'); [by rewrite Hpc|].
  rewrite filter_cons_True in Hit by done.
  exists (Fifo (filter (λ x, x ≠ stub) (x :: r))
    (<[consumer := QsPopped (Some (vq_tail (vq_q s)))]> (ff_st a)) (ff_exc a)), (x :: r).
  split; [constructor; [by rewrite <-Hs, Hpc|done]|]. split; simpl; try done.
  - eapply owned_retire with (p := vq_tail (vq_q s)); [done|rewrite Hit; by left|by rewrite Hpc|done|].
    pose proof (vl_nodup _ _ _ _ Hl) as [Hn _]%NoDup_cons.
    intros q. rewrite Hit, elem_of_cons, list_elem_of_filter. naive_solver.
  - intros v m. same_tid consumer v; [done|by eauto].
  - intros v Hv. rewrite fn_lookup_insert_ne by done. auto.
  - by simpl_fn.
  - intros v. same_tid consumer v; [done|apply Hs].
Qed.

(** [self->tail = next] past the stub. *)
Lemma vq_sim_advance x :
  vq_pcs s t = VqAdvance x →
  sim (VqState (MpscQ (vq_head (vq_q s)) x) (vq_next s) (vq_inuse s) (<[t := VqNext2 x]> (vq_pcs s))).
Proof.
  intros Hpc. assert (t = consumer) as -> by (apply vq_is_consumer; by rewrite Hpc; left).
  destruct Hinv as [Hl Hit How Hst Hrd Hro Hco Hs]. rewrite Hpc in Hco.
  destruct Hco as (Htl & Hnx & Hc).
  destruct (vq_list_drop _ _ _ _ consumer (VqNext2 x) Hl _ x Htl Hnx Hc) as (r & -> & Hl');
    [by rewrite Hpc|].
  assert (x ≠ stub).
  { intros ->. pose proof (vl_nodup _ _ _ _ Hl) as [Hn _]%NoDup_cons. apply Hn. by left. }
  rewrite filter_cons_False in Hit by naive_solver.
  exists a, (x :: r). split; [constructor|]. split; simpl; try done.
  - apply (owned_keep _ _ _ _ _ _ _ How); [|done]. by rewrite Hpc.
  - intros v m. same_tid consumer v; [done|by eauto].
  - intros v Hv. rewrite fn_lookup_insert_ne by done. auto.
  - by simpl_fn.
  - intros v. rewrite <-Hs. same_tid consumer v; [by rewrite Hpc|done].
Qed.

(** [mpscq_push(self, &self->stub.wn)]: the abstract queue does not change. *)
Lemma vq_sim_stub tl p q nx p' :
  vq_pcs s t = VqStub tl p → mpscq_push (vq_q s) (vq_next s) p = Some (q, nx, p') →
  sim (VqState q nx (vq_inuse s)
         (<[t := match p' with PuDone => VqNext3 tl | _ => VqStub tl p' end]> (vq_pcs s))).
Proof.
  intros Hpc Hpush. assert (t = consumer) as -> by (apply vq_is_consumer; by rewrite Hpc; left).
  pose proof (vq_priv_fresh s a l) as Hfresh.
  destruct Hinv as [Hl Hit How Hst Hrd Hro Hco Hs]. rewrite Hpc in Hco.
  destruct Hco as (Htl & Hns & Hp).
  assert (∃ l', filter (λ x, x ≠ stub) l' = filter (λ x, x ≠ stub) l ∧
    (∀ n, n ∉ l → n ≠ stub → vq_next s n = None → nx n = None) ∧
    vq_list q nx (<[consumer := match p' with PuDone => VqNext3 tl | _ => VqStub tl p' end]> (vq_pcs s)) l' ∧
    vq_cons (match p' with PuDone => VqNext3 tl | _ => VqStub tl p' end) q nx l' (ff_exc a consumer))
    as (l' & Hfil & Hnx & Hl' & Hco').
  { destruct p as [n|n|x n|]; simpl in Hpush; simplify_eq;
      [destruct Hp as [-> Hp]|destruct Hp as (-> & Hp & Hsn)|].
    - exists l. split_and!; [done|..].
      + intros n _ Hne. by rewrite fn_lookup_insert_ne.
      + apply vq_list_keep; [by apply vq_list_clear|by rewrite Hpc].
      + simpl. simpl_fn. done.
    - exists (l ++ [stub]). split_and!; [|done|..].
      + rewrite filter_app, filter_cons_False by naive_solver. by rewrite app_nil_r.
      + apply vq_list_xchg; try done. by rewrite Hpc.
      + done.
    - assert (vq_linking (vq_pcs s consumer) = Some (x, stub)) as Hlk by (by rewrite Hpc).
      destruct (vl_link _ _ _ _ Hl consumer x stub Hlk) as [Hx [Hxl Hsl]%consec_elem].
      exists l. split_and!; [done|..].
      + intros n Hn _ ?. rewrite fn_lookup_insert_ne; [done|]. by intros ->.
      + by apply vq_list_link.
      + done. }
  exists a, l'. split; [constructor|]. split; simpl; try done.
  - by rewrite Hfil.
  - apply (owned_keep _ _ _ _ _ _ _ How); [|done]. rewrite Hpc. by destruct p'.
  - intros v m. same_tid consumer v; [by destruct p'|]. intros Hv.
    destruct (Hfresh v m Hinv) as [??]; [by rewrite Hv|]. eauto.
  - intros v Hv. rewrite fn_lookup_insert_ne by done. auto.
  - by simpl_fn.
  - intros v. rewrite <-Hs. same_tid consumer v; [rewrite Hpc; by destruct p'|done].
Qed.
End sim.

(** [tail->next] is loaded at [VqNext] (not the stub) or [VqNext2]. *)
Lemma vq_sim_load s a l t tl :
  vq_inv s a l → vq_status (vq_pcs s t) = QsPop → vq_linking (vq_pcs s t) = None →
  vq_tail (vq_q s) = tl → tl ≠ stub →
  ∃ a' l', fifo_step true t a a' ∧
    vq_inv (VqState (vq_q s) (vq_next s) (vq_inuse s)
      (<[t := match vq_next s tl with Some x => VqSetTail tl x | None => VqHead tl end]> (vq_pcs s))) a' l'.
Proof.
  intros Hinv Ht Hlk Htl Hns.
  assert (t = consumer) as Hc by (eapply vq_is_consumer; [done|by left]).
  destruct (vq_read s a l Hinv tl Htl) as [[Hnx Hl]|[(y & Hnx & Hc')|(Hnx & u & y & Hu)]]; rewrite Hnx.
  - apply (vq_sim_quiet s a l t Hinv _ (ff_exc a t)); try done; [by left|..]; subst tl; simpl; auto.
  - apply (vq_sim_quiet s a l t Hinv _ (ff_exc a t)); try done; [by left|..]; subst tl; simpl; auto.
  - destruct (vq_pending s a l Hinv u tl y) as [Hne Hst]; [done|by rewrite <-Hc|].
    eapply (vq_sim_quiet s a l t Hinv _ true); try done; [right; split; [done|]; exists u; by subst|].
    simpl. subst tl. auto.
Qed.

(** Steps of [pop] that only move on. *)
Lemma vq_sim_pop_quiet s a l pc :
  vq_inv s a l → vq_status (vq_pcs s consumer) = QsPop → vq_status pc = QsPop →
  vq_linking pc = vq_linking (vq_pcs s consumer) →
  vq_cons pc (vq_q s) (vq_next s) l (ff_exc a consumer) →
  ∃ a' l', fifo_step true consumer a a' ∧
    vq_inv (VqState (vq_q s) (vq_next s) (vq_inuse s) (<[consumer := pc]> (vq_pcs s))) a' l'.
Proof. intros Hinv ????. apply (vq_sim_quiet s a l consumer Hinv pc (ff_exc a consumer)); try done. by left. Qed.

Lemma vq_sim_pop_step s a l t q nx pc' :
  vq_inv s a l → mpscq_pop stub (vq_q s) (vq_next s) (vq_pcs s t) = Some (q, nx, pc') →
  ∃ a' l', fifo_step true t a a' ∧
    vq_inv (VqState q nx (vq_inuse s) (<[t := pc']> (vq_pcs s))) a' l'.
Proof.
  intros Hinv Hstep.
  assert (t = consumer) as ->.
  { eapply vq_is_consumer; [done|left]. by destruct (vq_pcs s t). }
  pose proof (vi_cons _ _ _ Hinv) as Hco. pose proof (vl_last _ _ _ _ (vi_list _ _ _ Hinv)) as Hlast.
  assert (Hquiet := λ pc, vq_sim_pop_quiet s a l pc Hinv).
  destruct (vq_pcs s consumer) as [|p|tl|tl|x|tl|tl x|tl|tl p|tl|r] eqn:Hpc; try done; simpl in Hstep.
  - simplify_eq. by apply Hquiet.
  - simpl in Hco. case_decide as Hs.
    + subst tl. destruct (vq_read s a l Hinv stub) as [[Hnx Hl]|[(y & Hnx & Hc')|(Hnx & u & y & Hu)]];
        [done|rewrite Hnx in Hstep; injection Hstep as <- <- <-..].
      * apply (vq_sim_fail s a l); rewrite ?Hpc; try done. left.
        rewrite (vi_items _ _ _ Hinv), Hl, filter_cons_False by naive_solver. done.
      * by apply Hquiet.
      * apply (vq_sim_fail s a l); rewrite ?Hpc; try done. eauto 10.
    + assert (q = vq_q s ∧ nx = vq_next s ∧
        pc' = match vq_next s tl with Some x => VqSetTail tl x | None => VqHead tl end) as (-> & -> & ->)
        by (destruct (vq_next s tl); by simplify_eq).
      eapply vq_sim_load; rewrite ?Hpc; done.
  - simplify_eq. by eapply vq_sim_advance.
  - destruct Hco as [Htl Hs].
    assert (q = vq_q s ∧ nx = vq_next s ∧
      pc' = match vq_next s tl with Some x => VqSetTail tl x | None => VqHead tl end) as (-> & -> & ->)
      by (destruct (vq_next s tl); by simplify_eq).
    eapply vq_sim_load; rewrite ?Hpc; done.
  - simplify_eq. by eapply vq_sim_pop.
  - destruct Hco as (Htl & Hs & Hl). case_decide as Hh; injection Hstep as <- <- <-.
    + apply Hquiet; try done. simpl. split_and!; [done..|]. intros Hin.
      pose proof (vl_first _ _ _ _ (vi_list _ _ _ Hinv)) as Hf.
      pose proof (vl_nodup _ _ _ _ (vi_list _ _ _ Hinv)) as Hnd.
      rewrite <-Htl in Hf. rewrite <-Hh in Hlast.
      rewrite (NoDup_head_last l tl) in Hin by done. set_solver.
    + apply (vq_sim_fail s a l); rewrite ?Hpc; try done. right; left.
      destruct Hl as [->|Hex]; [|done]. simpl in Hlast. congruence.
  - destruct (mpscq_push (vq_q s) (vq_next s) p) as [[[q' nx'] p']|] eqn:Hp; [|done].
    pose proof (vq_sim_stub s a l consumer Hinv tl p q' nx' p' Hpc Hp) as Hsim.
    destruct p'; by simplify_eq.
  - destruct Hco as (Htl & Hs & Hin).
    destruct (vq_read s a l Hinv tl) as [[Hnx Hl]|[(y & Hnx & Hc')|(Hnx & u & y & Hu)]];
      [done|rewrite Hnx in Hstep; injection Hstep as <- <- <-..].
    + set_solver.
    + by apply Hquiet.
    + apply (vq_sim_fail s a l); rewrite ?Hpc; try done. eauto 10.
Qed.

Lemma vq_inv_start s : vq_init stub s → vq_inv s fifo_empty [stub].
Proof.
  destruct s as [q nx inuse pcs]. intros ([nx0 Hc] & Hu & Hpcs). simpl in *.
  unfold mpscq_create in Hc. simplify_eq. split; simpl; try done.
  - split; simpl; try done; [apply NoDup_singleton|by simpl_fn|].
    intros x y. rewrite consec_cons. intros [[_ ?]|(i & Hx & _)]; [done|by rewrite lookup_nil in Hx].
  - by rewrite filter_cons_False by naive_solver.
  - split; simpl; set_solver.
  - intros t _. by left.
Qed.

(** Calls and returns do not touch the queue. *)
Lemma vq_inv_call s a l t pc inuse a' :
  vq_inv s a l → vq_linking pc = vq_linking (vq_pcs s t) → ff_items a' = ff_items a →
  (t = consumer ∨ pc = VqIdle ∨ ∃ n, pc = VqPush (PuClear n)) →
  (pc = VqIdle ∨ pc = VqTail ∨ ∃ n, pc = VqPush (PuClear n)) →
  (t = consumer ∨ ff_exc a' consumer = ff_exc a consumer) → stub ∉ inuse →
  owned vq_priv inuse (λ p, p ∈ ff_items a) (<[t := pc]> (vq_pcs s)) →
  (∀ u, vq_status ((<[t := pc]> (vq_pcs s)) u) = ff_st a' u) →
  vq_inv (VqState (vq_q s) (vq_next s) inuse (<[t := pc]> (vq_pcs s))) a' l.
Proof.
  intros [Hl Hit How Hst Hrd Hro Hco Hs] Hlk Hit' Hrole Hpc Hex Hns How' Hs'.
  split; simpl; rewrite ?Hit'; try done.
  - by apply vq_list_keep.
  - intros u n. same_tid t u; [naive_solver|by eauto].
  - intros u Hu. same_tid t u; [|by auto]. destruct Hrole as [|[|[n ->]]]; [done|by left|right; eauto].
  - same_tid t consumer; [by destruct Hpc as [->|[->|[n ->]]]|]. by destruct Hex as [?| ->].
Qed.

Lemma vq_sim t lb s s' a l :
  vq_inv s a l → vq_step stub consumer t lb s = Some s' →
  ∃ a' l', fifo_step true t a a' ∧ vq_inv s' a' l'.
Proof.
  intros Hinv Hstep. unfold vq_step in Hstep. pose proof (vq_sim_pop_step s a l t) as Hpop.
  pose proof (vi_owned _ _ _ Hinv) as How. pose proof (vi_status _ _ _ Hinv) as Hs.
  pose proof (vi_stub _ _ _ Hinv) as Hns.
  destruct (vq_pcs s t) as [|p|tl|tl|x|tl|tl x|tl|tl p|tl|r] eqn:Hpc, lb as [n| |]; try done;
    try (destruct (mpscq_pop _ _ _ _) as [[[q nx] pc]|]; [|done]; simplify_eq; by eapply Hpop).
  - (* push called *)
    case_decide as Hn; simplify_eq.
    assert (n ≠ stub ∧ n ∉ vq_inuse s) as [Hn1 Hn2] by tauto.
    exists (Fifo (ff_items a) (<[t := QsPush n]> (ff_st a)) (ff_exc a)), l.
    split; [constructor; by rewrite <-Hs, Hpc|].
    apply (vq_inv_call s a l); simpl; try done; [by rewrite Hpc|by eauto..|by right|set_solver| |].
    + apply owned_alloc; [done..|by rewrite Hpc|done].
    + intros u. same_tid t u; [done|apply Hs].
  - (* pop called *)
    case_decide as Hc; simplify_eq.
    exists (Fifo (ff_items a) (<[consumer := QsPop]> (ff_st a)) (<[consumer := false]> (ff_exc a))), l.
    split; [constructor; by rewrite <-Hs, Hpc|].
    apply (vq_inv_call s a l); simpl; try done; [by rewrite Hpc|by left|by eauto|by left|..].
    + apply (owned_keep _ _ _ _ _ _ _ How); [|done]. by rewrite Hpc.
    + intros u. same_tid consumer u; [done|apply Hs].
  - (* inside push *)
    destruct p as [n|n|x n|]; simpl in Hstep; simplify_eq;
      [by eapply vq_sim_clear|by eapply vq_sim_xchg|by eapply vq_sim_link].
  - (* pop returns *)
    simplify_eq. assert (t = consumer) as -> by (eapply vq_is_consumer; [done|right; by eauto]).
    exists (Fifo (ff_items a) (<[consumer := QsIdle]> (ff_st a)) (ff_exc a)), l.
    split; [eapply fs_ret_pop; by rewrite <-Hs, Hpc|].
    apply (vq_inv_call s a l); simpl; try done; [by rewrite Hpc|by left|by left|by left|destruct r; set_solver| |].
    + destruct r as [n|].
      * apply owned_free; [done|by rewrite Hpc|done].
      * apply (owned_keep _ _ _ _ _ _ _ How); [|done]. by rewrite Hpc.
    + intros u. same_tid consumer u; [done|apply Hs].
Qed.

Definition vyukov_rel (s : vq_state) (a : fifo) : Prop := ∃ l, vq_inv s a l.

Lemma vyukov_rel_sim t lb s s' a :
  vyukov_rel s a → vq_step stub consumer t lb s = Some s' →
  ∃ a', fifo_step true t a a' ∧ vyukov_rel s' a'.
Proof.
  intros [l Hinv] Hstep. destruct (vq_sim t lb s s' a l Hinv Hstep) as (a' & l' & ? & ?).
  exists a'. split; [done|]. by exists l'.
Qed.

Lemma vyukov_rel_start s : vq_init stub s → vyukov_rel s fifo_empty.
Proof. intros Hi. exists [stub]. by apply vq_inv_start. Qed.

Lemma vyukov_rel_status s a t : vyukov_rel s a → vq_status (vq_pcs s t) = ff_st a t.
Proof. intros [l Hinv]. apply Hinv. Qed.

Definition vyukov_fifo : @FifoQueue _ _ (vyukov_queue stub consumer) true :=
  @Build_FifoQueue _ _ (vyukov_queue stub consumer) true
    vyukov_rel vyukov_rel_start vyukov_rel_sim vyukov_rel_status.
End proofs.

(** ** Progress *)

(** How many instructions an operation has left at most. *)
Definition vq_rank (pc : vq_pc) : nat :=
  match pc with
  | VqIdle => 0
  | VqPush (PuClear _) => 3
  | VqPush (PuXchg _) => 2
  | VqPush _ => 1
  | VqRet _ => 1
  | VqSetTail _ _ => 2
  | VqNext3 _ => 3
  | VqStub _ (PuLink _ _) => 4
  | VqStub _ (PuXchg _) => 5
  | VqStub _ _ => 6
  | VqHead _ => 7
  | VqNext2 _ => 8
  | VqAdvance _ => 9
  | VqNext _ => 10
  | VqTail => 11
  end.

Section progress.
Context (stub : loc) (consumer : tid).
Local Instance vq_queue : Queue vq_label vq_state := vyukov_queue stub consumer.

Definition vq_done_pc (pc : vq_pc) : bool :=
  match pc with VqPush PuDone | VqStub _ PuDone => true | _ => false end.

Lemma vq_no_done s t : reachable s → vq_done_pc (vq_pcs s t) = false.
Proof.
  intros Hr. revert t. induction Hr as [s (_ & _ & Hpcs)|[t lb] s s' _ IH Hstep]; intros u.
  { by rewrite Hpcs. }
  specialize (IH u). simpl in Hstep. unfold vq_step in Hstep.
  destruct (decide (t = u)) as [->|Hne]; [rename u into t|].
  all: destruct (vq_pcs s t) as [|p|tl|tl|x|tl|tl x|tl|tl p|tl|r] eqn:Hpc, lb as [n| |]; try done;
    simpl in Hstep; try destruct p; simpl in Hstep; step_inv Hstep; simpl; by simpl_fn.
Qed.

(** Whatever the other threads do, the next instruction of an operation is
    enabled and brings it closer to its end. *)
Lemma vq_rank_step s t :
  reachable s → vq_pcs s t ≠ VqIdle →
  ∃ s', vq_step stub consumer t VqRun s = Some s' ∧
    vq_rank (vq_pcs s' t) < vq_rank (vq_pcs s t) ∧ ∀ u, u ≠ t → vq_pcs s' u = vq_pcs s u.
Proof.
  intros Hr Hne. pose proof (vq_no_done s t Hr) as Hnd. unfold vq_step.
  destruct (vq_pcs s t) as [|p|tl|tl|x|tl|tl x|tl|tl p|tl|r] eqn:Hpc; try done; try destruct p;
    simpl in *; try done; repeat (case_match; simplify_eq);
    (eexists; split_and!; [done|simpl; simpl_fn; simpl; lia|intros u Hu; simpl; by simpl_fn]).
Qed.

(** Alone with the queue, [pop] returns the oldest node. *)
Lemma vq_solo_pop s a l :
  reachable s → vq_inv stub consumer s a l → ff_exc a consumer = false →
  (∀ u, u ≠ consumer → vq_pcs s u = VqIdle) → vq_status (vq_pcs s consumer) = QsPop →
  ∃ k s', run (replicate k (consumer, VqRun)) s = Some s' ∧
    vq_pcs s' consumer = VqRet (head (ff_items a)).
Proof.
  remember (vq_rank (vq_pcs s consumer)) as r eqn:Hr. revert s l Hr.
  induction r as [r IH] using lt_wf_ind. intros s l Hr Hreach Hinv Hex Hidle Hpop.
  destruct (vq_rank_step s consumer Hreach) as (s1 & Hs1 & Hrk & Hoth); [by intros Heq; rewrite Heq in Hpop|].
  assert (∀ t', t' ≠ consumer → ff_st a t' ≠ QsPushed) as Hnp.
  { intros t' Ht'. rewrite <-(vi_status _ _ _ _ _ Hinv), Hidle by done. done. }
  destruct (vq_sim stub consumer consumer VqRun s s1 a l Hinv Hs1) as (a1 & l1 & Ha & Hinv1).
  assert (∀ r, ff_st a1 consumer = QsPopped r → vq_pcs s1 consumer = VqRet r) as Hret.
  { intros r'. rewrite <-(vi_status _ _ _ _ _ Hinv1).
    destruct (vq_pcs s1 consumer) as [|[]| | | | | | | | |]; simpl; congruence. }
  rewrite (vi_status _ _ _ _ _ Hinv) in Hpop.
  assert (∀ r, vq_pcs s1 consumer = VqRet r → r = head (ff_items a) →
    ∃ k s', run (replicate k (consumer, VqRun)) s = Some s' ∧
      vq_pcs s' consumer = VqRet (head (ff_items a))) as Hdone.
  { intros r' Hr' ->. exists 1, s1. split; [simpl; by rewrite Hs1|done]. }
  destruct Ha as [|n Hst|n Hst|Hst|Hst|t' Hst Hne Hup|n q Hst Hq|Hst Hq|r' Hst]; try congruence.
  - destruct (IH (vq_rank (vq_pcs s1 consumer)) ltac:(lia) s1 l1) as (k & s' & Hrun & Hend); try done.
    + apply (reachable_step (consumer, VqRun) s); done.
    + intros u Hu. rewrite Hoth by done. auto.
    + by rewrite (vi_status _ _ _ _ _ Hinv1).
    + exists (S k), s'. split; [simpl; by rewrite Hs1|done].
  - by destruct (Hnp t').
  - eapply Hdone; [apply Hret; simpl; by simpl_fn|]. by rewrite Hq.
  - eapply Hdone; [apply Hret; simpl; by simpl_fn|].
    destruct Hq as [->|[_ [?|(t' & ? & ?)]]]; [done|congruence|by destruct (Hnp t')].
Qed.
End progress.

(** ** Theorems *)

(** C7: the Vyukov queue is linearizable to a first-in first-out queue whose
    [pop] may fail on a queue that is not empty only if a [push] overlapped
    it.  This includes that a node may be pushed again as soon as [pop] has
    returned it. *)
Theorem vyukov_refines (stub : loc) (consumer : tid) :
  refines_fifo (vyukov_queue stub consumer) true.
Proof. apply (@fifo_refines _ _ _ _ (vyukov_fifo stub consumer)). Qed.

(** The nodes popped from the Vyukov queue are, in order, the first of the
    nodes pushed; and when no operation is in progress a [pop] that runs
    undisturbed returns the oldest node inside, or NULL if there is none. *)
Theorem vyukov_order (stub : loc) (consumer : tid) ls s0 s :
  vq_init stub s0 →
  @run _ _ (@queue_lts _ _ (vyukov_queue stub consumer)) ls s0 = Some s →
  ∃ inside,
    pushes (@qtrace _ _ (vyukov_queue stub consumer) ls s0) =
      pops (@qtrace _ _ (vyukov_queue stub consumer) ls s0) ++ inside ∧
    ((∀ t, vq_pcs s t = VqIdle) → ∃ k s',
      @run _ _ (@queue_lts _ _ (vyukov_queue stub consumer))
        ((consumer, VqCallPop) :: replicate k (consumer, VqRun)) s = Some s' ∧
      vq_pcs s' consumer = VqRet (head inside)).
Proof.
  intros Hi Hrun.
  destruct (@fifo_run _ _ _ _ (vyukov_fifo stub consumer) ls s0 s fifo_empty) as (a & [l Hinv] & Heq);
    [by exists [stub]; apply vq_inv_start|done|].
  exists (ff_items a). split; [done|]. intros Hidle.
  assert (vq_step stub consumer consumer VqCallPop s = Some
    (VqState (vq_q s) (vq_next s) (vq_inuse s) (<[consumer := VqTail]> (vq_pcs s)))) as Hcall.
  { unfold vq_step. rewrite Hidle. by rewrite decide_True. }
  assert (reachable (sys := @queue_lts _ _ (vyukov_queue stub consumer)) s) as Hreach.
  { eapply run_reachable; [by apply reachable_init|done]. }
  destruct (vq_sim _ _ _ _ _ _ _ _ Hinv Hcall) as (a1 & l1 & Ha & Hinv1).
  assert (ff_items a1 = ff_items a ∧ ff_exc a1 consumer = false) as [Hit Hex].
  { pose proof (vi_status _ _ _ _ _ Hinv1 consumer) as Hs1. simpl in Hs1. rewrite fn_lookup_insert in Hs1.
    pose proof (vi_status _ _ _ _ _ Hinv consumer) as Hs. rewrite Hidle in Hs.
    destruct Ha; simpl in *; simpl_fn; first [done|congruence]. }
  eassert (Hsolo := λ Hr, vq_solo_pop stub consumer _ a1 l1 Hr Hinv1 Hex).
  destruct Hsolo as (k & s' & Hrun' & Hend).
  - by eapply (reachable_step (consumer, VqCallPop)).
  - intros u Hu. simpl. by simpl_fn.
  - simpl. by simpl_fn.
  - exists k, s'. rewrite <-Hit. split; [|done]. simpl. by rewrite Hcall.
Qed.

(** C21: every operation on the Vyukov queue is wait-free: in every reachable
    state the next instruction of an operation in progress is enabled and
    brings it strictly closer to its end, whatever the other threads do, so
    [mpscq_push] takes 3 instructions and [mpscq_pop] at most 11. *)
Theorem vyukov_wait_free (stub : loc) (consumer : tid) s t :
  reachable (sys := @queue_lts _ _ (vyukov_queue stub consumer)) s → vq_pcs s t ≠ VqIdle →
  ∃ s', vq_step stub consumer t VqRun s = Some s' ∧
    vq_rank (vq_pcs s' t) < vq_rank (vq_pcs s t) ≤ 11.
Proof.
  intros Hr Hne. destruct (vq_rank_step stub consumer s t Hr Hne) as (s' & Hs & Hrk & _).
  exists s'. split_and!; [done..|]. by destruct (vq_pcs s t) as [|[]| | | | | | |? []| |]; simpl; lia.
Qed.

(** Thread 1 is between exchange and link when thread 0 pops: [pop] misses
    nodes 2 and 3 although 3 has been pushed completely. *)
Definition vq_example_start : vq_state :=
  VqState (MpscQ 1%positive 1%positive) (<[1%positive := None]> (λ _, Some 7%positive)) ∅ (λ _, VqIdle).

Definition vq_example_schedule : list (tid * vq_label) :=
  [(1, VqCallPush 2%positive); (1, VqRun); (1, VqRun)] ++
  [(2, VqCallPush 3%positive); (2, VqRun); (2, VqRun); (2, VqRun)] ++
  [(0, VqCallPop); (0, VqRun); (0, VqRun); (0, VqRun)] ++ [(1, VqRun)].

Lemma vq_example_init : vq_init 1%positive vq_example_start.
Proof. split; [|done]. exists (λ _, Some 7%positive). reflexivity. Qed.

Lemma vyukov_order_witness :
  ∃ s inside, @run _ _ (@queue_lts _ _ (vyukov_queue 1%positive 0)) vq_example_schedule vq_example_start
      = Some s ∧ (∀ t, vq_pcs s t = VqIdle) ∧ inside = [2; 3]%positive ∧
    ∃ k s', @run _ _ (@queue_lts _ _ (vyukov_queue 1%positive 0))
        ((0, VqCallPop) :: replicate k (0, VqRun)) s = Some s' ∧
      vq_pcs s' 0 = VqRet (head inside).
Proof.
  eexists _, _. split; [vm_compute; reflexivity|].
  match goal with |- (∀ t, vq_pcs ?s t = _) ∧ _ =>
    assert (∀ t, vq_pcs s t = VqIdle) as Hidle by (intros [|[|[|t]]]; reflexivity);
    destruct (vyukov_order 1%positive 0 vq_example_schedule vq_example_start s vq_example_init)
      as (inside & Heq & Hpop); [vm_compute; reflexivity|]
  end.
  split; [exact Hidle|]. split; [reflexivity|].
  assert (inside = [2; 3]%positive) as -> by (vm_compute in Heq; by symmetry).
  exact (Hpop Hidle).
Defined.

Lemma vyukov_wait_free_witness :
  ∃ s s', @run _ _ (@queue_lts _ _ (vyukov_queue 1%positive 0)) [(0, VqCallPop); (0, VqRun)] vq_example_start
      = Some s ∧ vq_pcs s 0 = VqNext 1%positive ∧
    vq_step 1%positive 0 0 VqRun s = Some s' ∧ vq_rank (vq_pcs s' 0) < vq_rank (vq_pcs s 0).
Proof.
  eexists. destruct (vyukov_wait_free 1%positive 0
    (default vq_example_start (@run _ _ (@queue_lts _ _ (vyukov_queue 1%positive 0))
      [(0, VqCallPop); (0, VqRun)] vq_example_start)) 0) as (s' & Hs & Hrk & _).
  - eapply (run_reachable [(0, VqCallPop); (0, VqRun)] vq_example_start);
      [apply reachable_init; exact vq_example_init|vm_compute; reflexivity].
  - vm_compute. discriminate.
  - exists s'. split; [vm_compute; reflexivity|]. split; [reflexivity|]. split; [exact Hs|exact Hrk].
Defined.
