(* ===== verification/CloudiusQueue.v ===== *)
(** * The MPSC queue of [include/queue-mpsc.h]

    [lockfree::queue_mpsc], the queue selected by [QUEUE_METHOD=CLOUDIUS_QUEUE].
    Producers push onto a stack ([pushlist]) with compare-and-swap; the one
    consumer takes the whole stack with an exchange and reverses it into
    [poplist].  [compare_exchange_weak] may fail spuriously: the label of a step
    says whether it does.  The nodes belong to the clients. *)

From S2P Require Import Prelude Lts Nodes QueueSpec.

(** ** Data *)

Record queue_mpsc := QueueMpsc { cq_pushlist : ptr; cq_poplist : ptr }.

Inductive cq_pc :=
  | CqIdle
  | CqLoad (item : loc)              (** [old = pushlist.load()] *)
  | CqSet (item : loc) (old : ptr)   (** [item->next = old] *)
  | CqCas (item : loc) (old : ptr)   (** [compare_exchange_weak(old, item)] *)
  | CqPushRet
  | CqPop                            (** [if (poplist)] *)
  | CqPopFirst (result : loc)        (** [poplist = poplist->next; return result] *)
  | CqTake                           (** [r = pushlist.exchange(nullptr)] *)
  | CqRev (r : loc)                  (** [while (r->next)] *)
  | CqMove (r next : loc)            (** [r->next = poplist] *)
  | CqKeep (r next : loc)            (** [poplist = r; r = next] *)
  | CqPopRet (r : ptr).

(** ** Operations; [nx] gives the [next] field of every node *)

Definition queue_mpsc_new : queue_mpsc := QueueMpsc None None.

Definition push (self : queue_mpsc) (nx : loc → ptr) (spurious : bool) (pc : cq_pc)
    : option (queue_mpsc * (loc → ptr) * cq_pc) :=
  match pc with
  | CqLoad item => Some (self, nx, CqSet item (cq_pushlist self))
  | CqSet item old => Some (self, <[item := old]> nx, CqCas item old)
  | CqCas item old =>
      if decide (spurious = false ∧ cq_pushlist self = old)
      then Some (QueueMpsc (Some item) (cq_poplist self), nx, CqPushRet)
      else Some (self, nx, CqSet item (cq_pushlist self))
  | _ => None
  end.

Definition pop (self : queue_mpsc) (nx : loc → ptr) (pc : cq_pc)
    : option (queue_mpsc * (loc → ptr) * cq_pc) :=
  match pc with
  | CqPop =>
      match cq_poplist self with
      | Some result => Some (self, nx, CqPopFirst result)
      | None => Some (self, nx, CqTake)
      end
  | CqPopFirst result =>
      Some (QueueMpsc (cq_pushlist self) (nx result), nx, CqPopRet (Some result))
  | CqTake =>
      let self' := QueueMpsc None (cq_poplist self) in
      match cq_pushlist self with
      | None => Some (self', nx, CqPopRet None)
      | Some r => Some (self', nx, CqRev r)
      end
  | CqRev r =>
      match nx r with
      | Some next => Some (self, nx, CqMove r next)
      | None => Some (self, nx, CqPopRet (Some r))
      end
  | CqMove r next => Some (self, <[r := cq_poplist self]> nx, CqKeep r next)
  | CqKeep r next => Some (QueueMpsc (cq_pushlist self) (Some r), nx, CqRev next)
  | _ => None
  end.

Definition empty (self : queue_mpsc) : bool :=
  bool_decide (cq_poplist self = None) && bool_decide (cq_pushlist self = None).

Definition cq_status (pc : cq_pc) : qstatus :=
  match pc with
  | CqIdle => QsIdle
  | CqLoad n | CqSet n _ | CqCas n _ => QsPush n
  | CqPushRet => QsPushed
  | CqPopRet r => QsPopped r
  | _ => QsPop
  end.

Inductive cq_label := CqCallPush (n : loc) | CqCallPop | CqRun (spurious : bool).

Record cq_state := CqState {
  cq_q : queue_mpsc;
  cq_next : loc → ptr;
  cq_inuse : gset loc;
  cq_pcs : tid → cq_pc;
}.

Section system.
Context (consumer : tid).

Definition cq_step (t : tid) (l : cq_label) (s : cq_state) : option cq_state :=
  match cq_pcs s t, l with
  | CqIdle, CqCallPush n =>
      (* clients push nodes that are not in use *)
      if decide (n ∈ cq_inuse s) then None
      else Some (CqState (cq_q s) (cq_next s) ({[n]} ∪ cq_inuse s) (<[t := CqLoad n]> (cq_pcs s)))
  | CqIdle, CqCallPop =>
      (* one consumer *)
      if decide (t = consumer) then
        Some (CqState (cq_q s) (cq_next s) (cq_inuse s) (<[t := CqPop]> (cq_pcs s)))
      else None
  | CqIdle, CqRun _ => None
  | CqPushRet, CqRun _ =>
      Some (CqState (cq_q s) (cq_next s) (cq_inuse s) (<[t := CqIdle]> (cq_pcs s)))
  | CqPopRet r, CqRun _ =>
      (* the caller owns the node that pop returns *)
      Some (CqState (cq_q s) (cq_next s)
              (match r with Some n => cq_inuse s ∖ {[n]} | None => cq_inuse s end)
              (<[t := CqIdle]> (cq_pcs s)))
  | (CqLoad _ | CqSet _ _ | CqCas _ _) as pc, CqRun spurious =>
      match push (cq_q s) (cq_next s) spurious pc with
      | Some (q, nx, pc') => Some (CqState q nx (cq_inuse s) (<[t := pc']> (cq_pcs s)))
      | None => None
      end
  | pc, CqRun _ =>
      match pop (cq_q s) (cq_next s) pc with
      | Some (q, nx, pc') => Some (CqState q nx (cq_inuse s) (<[t := pc']> (cq_pcs s)))
      | None => None
      end
  | _, _ => None
  end.

Definition cq_init (s : cq_state) : Prop :=
  cq_q s = queue_mpsc_new ∧ cq_inuse s = ∅ ∧ cq_pcs s = (λ _, CqIdle).

Definition cloudius_queue : Queue cq_label cq_state := {|
  q_init := cq_init;
  q_step := cq_step;
  q_status := λ s t, cq_status (cq_pcs s t);
|}.
End system.

(** ** [popall] and iteration, called while no other operation runs

    [fuel] bounds the loop; the number of nodes inside is enough. *)

(** [while (r->next) ...]: the reversed list and the last node. *)
Fixpoint reverse_loop (fuel : nat) (nx : loc → ptr) (poplist : ptr) (r : loc)
    : option ((loc → ptr) * ptr * loc) :=
  match nx r with
  | None => Some (nx, poplist, r)
  | Some next =>
      match fuel with
      | 0 => None
      | S fuel' => reverse_loop fuel' (<[r := poplist]> nx) (Some r) next
      end
  end.

Definition popall (fuel : nat) (self : queue_mpsc) (nx : loc → ptr)
    : option (queue_mpsc * (loc → ptr) * ptr) :=
  match cq_poplist self with
  | Some result => Some (QueueMpsc (cq_pushlist self) None, nx, Some result)
  | None =>
      match cq_pushlist self with
      | None => Some (QueueMpsc None None, nx, None)
      | Some r0 =>
          match reverse_loop fuel nx None r0 with
          | Some (nx', poplist, r) => Some (QueueMpsc None None, <[r := poplist]> nx', Some r)
          | None => None
          end
      end
  end.

(** [iterator]: [it_cur] is what [operator->] yields, [it_next] is [operator++]. *)
Record iterator := Iterator { it_push : ptr; it_pop : ptr }.

Definition it_begin (self : queue_mpsc) : iterator := Iterator (cq_pushlist self) (cq_poplist self).
Definition it_end : iterator := Iterator None None.

Definition it_cur (it : iterator) : ptr :=
  match it_push it with Some p => Some p | None => it_pop it end.

Definition it_next (nx : loc → ptr) (it : iterator) : iterator :=
  match it_push it with
  | Some p => Iterator (nx p) (it_pop it)
  | None => match it_pop it with Some p => Iterator None (nx p) | None => it end
  end.

(** [for (it = begin(); it != end(); ++it)], collecting the nodes. *)
Fixpoint it_collect (fuel : nat) (nx : loc → ptr) (it : iterator) : option (list loc) :=
  match it_cur it with
  | None => Some []
  | Some p =>
      match fuel with
      | 0 => None
      | S fuel' => match it_collect fuel' nx (it_next nx it) with
                   | Some l => Some (p :: l)
                   | None => None
                   end
      end
  end.

(** ** Invariant

    [U] is the stack, newest first, [R] what the consumer has taken and not
    reversed yet, [P] the list it pops from. *)

Definition cq_priv (pc : cq_pc) : ptr :=
  match cq_status pc with QsPush n => Some n | QsPopped r => r | _ => None end.

Definition cq_items (R P U : list loc) : list loc := reverse R ++ P ++ reverse U.

Lemma cq_items_elem R P U p : p ∈ cq_items R P U ↔ p ∈ R ++ P ++ U.
Proof. unfold cq_items. rewrite !elem_of_app, !elem_of_reverse. done. Qed.

(** What the consumer knows. *)
Definition cq_cons (pc : cq_pc) (q : queue_mpsc) (nx : loc → ptr) (R P : list loc) : Prop :=
  match pc with
  | CqPopFirst result => R = [] ∧ ∃ P', P = result :: P'
  | CqTake => R = [] ∧ P = []
  | CqRev r => R ≠ [] ∧ lseg nx (Some r) R None
  | CqMove r next => ∃ R', R' ≠ [] ∧ R = r :: R' ∧ lseg nx (Some next) R' None
  | CqKeep r next => ∃ R', R' ≠ [] ∧ R = r :: R' ∧ lseg nx (Some next) R' None ∧ nx r = cq_poplist q
  | _ => R = []
  end.

Section proofs.
Context (consumer : tid).

Record cq_inv (s : cq_state) (a : fifo) (R P U : list loc) : Prop := {
  ci_push : lseg (cq_next s) (cq_pushlist (cq_q s)) U None;
  ci_pop : lseg (cq_next s) (cq_poplist (cq_q s)) P None;
  ci_cons : cq_cons (cq_pcs s consumer) (cq_q s) (cq_next s) R P;
  ci_nodup : NoDup (R ++ P ++ U);
  ci_items : ff_items a = cq_items R P U;
  ci_owned : owned cq_priv (cq_inuse s) (λ p, p ∈ ff_items a) (cq_pcs s);
  ci_ready : ∀ t n old, cq_pcs s t = CqCas n old → cq_next s n = old;
  ci_role : ∀ t, t ≠ consumer → cq_status (cq_pcs s t) ≠ QsPop ∧ ∀ r, cq_status (cq_pcs s t) ≠ QsPopped r;
  ci_status : ∀ t, cq_status (cq_pcs s t) = ff_st a t;
}.

Lemma cq_priv_fresh s a R P U t n :
  cq_inv s a R P U → cq_priv (cq_pcs s t) = Some n → n ∉ R ∧ n ∉ P ∧ n ∉ U.
Proof.
  intros Hinv Hn. destruct (ow_priv _ _ _ _ (ci_owned _ _ _ _ _ Hinv) t n Hn) as [_ Hni].
  rewrite (ci_items _ _ _ _ _ Hinv), cq_items_elem, !elem_of_app in Hni. tauto.
Qed.

(** The consumer's knowledge does not depend on other [next] fields. *)
Lemma cq_cons_frame pc q q' nx nx' R P :
  (∀ x, x ∈ R → nx' x = nx x) → cq_poplist q' = cq_poplist q →
  cq_cons pc q nx R P → cq_cons pc q' nx' R P.
Proof.
  intros Hx Hq. destruct pc; simpl; try done.
  - intros [??]. split; [done|]. by eapply lseg_frame.
  - intros (R' & ? & -> & ?). exists R'. split_and!; [done..|].
    eapply lseg_frame; [|done]. intros y Hy. apply Hx. by right.
  - intros (R' & ? & -> & ? & ?). exists R'. split_and!; [done..| |rewrite Hx, Hq; [done|by left]].
    eapply lseg_frame; [|done]. intros y Hy. apply Hx. by right.
Qed.

Lemma cq_cons_other pc q nx R P :
  cq_status pc ≠ QsPop → R = [] → cq_cons pc q nx R P.
Proof. by destruct pc. Qed.

Lemma cq_cons_out pc q nx R P : cq_status pc ≠ QsPop → cq_cons pc q nx R P → R = [].
Proof. by destruct pc. Qed.

Section sim.
Context (s : cq_state) (a : fifo) (R P U : list loc) (t : tid).
Hypothesis Hinv : cq_inv s a R P U.

Let sim (s' : cq_state) : Prop :=
  ∃ a' R' P' U', fifo_step false t a a' ∧ cq_inv s' a' R' P' U'.

(** What a step of a client that is not inside [pop] leaves to show. *)
Lemma cq_cons_keep pc q nx :
  cq_status (cq_pcs s t) ≠ QsPop → (cq_status pc ≠ QsPop ∨ pc = CqPop) →
  (∀ x, x ∈ R → nx x = cq_next s x) → cq_poplist q = cq_poplist (cq_q s) →
  cq_cons ((<[t := pc]> (cq_pcs s)) consumer) q nx R P.
Proof.
  intros Ht Hpc Hnx Hq. pose proof (ci_cons _ _ _ _ _ Hinv) as Hco. same_tid t consumer.
  - apply cq_cons_out in Hco; [|done]. destruct Hpc as [?| ->]; [by apply cq_cons_other|done].
  - by eapply cq_cons_frame.
Qed.

Lemma cq_role_keep pc :
  t = consumer ∨ (cq_status pc ≠ QsPop ∧ ∀ r, cq_status pc ≠ QsPopped r) →
  ∀ u, u ≠ consumer → cq_status ((<[t := pc]> (cq_pcs s)) u) ≠ QsPop ∧
    ∀ r, cq_status ((<[t := pc]> (cq_pcs s)) u) ≠ QsPopped r.
Proof.
  intros Hpc u Hu. same_tid t u; [by destruct Hpc|]. by apply Hinv.
Qed.

(** [old = pushlist.load()], or a failed compare-and-swap. *)
Lemma cq_sim_load n old :
  cq_status (cq_pcs s t) = QsPush n →
  sim (CqState (cq_q s) (cq_next s) (cq_inuse s) (<[t := CqSet n old]> (cq_pcs s))).
Proof.
  intros Hst. pose proof (cq_cons_keep (CqSet n old) (cq_q s) (cq_next s)) as Hck.
  pose proof (cq_role_keep (CqSet n old)) as Hrk.
  destruct Hinv as [H1 H2 H3 H4 H5 H6 H7 H8 H9]. exists a, R, P, U. split; [constructor|].
  split; simpl; try done.
  - apply Hck; try done; [by rewrite Hst|by left].
  - apply (owned_keep _ _ _ _ _ _ _ H6); [|done]. unfold cq_priv. by rewrite Hst.
  - intros u m o. same_tid t u; [done|by eauto].
  - apply Hrk. right. done.
  - intros u. rewrite <-H9. by same_tid t u.
Qed.

(** [item->next = old]. *)
Lemma cq_sim_set n old :
  cq_pcs s t = CqSet n old →
  sim (CqState (cq_q s) (<[n := old]> (cq_next s)) (cq_inuse s) (<[t := CqCas n old]> (cq_pcs s))).
Proof.
  intros Hpc. pose proof (cq_cons_keep (CqCas n old) (cq_q s) (<[n := old]> (cq_next s))) as Hck.
  pose proof (cq_role_keep (CqCas n old)) as Hrk.
  destruct (cq_priv_fresh s a R P U t n Hinv) as (Hn1 & Hn2 & Hn3); [by rewrite Hpc|].
  destruct Hinv as [H1 H2 H3 H4 H5 H6 H7 H8 H9]. exists a, R, P, U. split; [constructor|].
  split; simpl; try done.
  - by apply lseg_insert.
  - by apply lseg_insert.
  - apply Hck; try done; [by rewrite Hpc|by left|].
    intros x Hx. apply fn_lookup_insert_ne. by intros ->.
  - apply (owned_keep _ _ _ _ _ _ _ H6); [|done]. unfold cq_priv. by rewrite Hpc.
  - intros u m o. same_tid t u; intros Hu; [simplify_eq; by simpl_fn|].
    rewrite fn_lookup_insert_ne; [by eauto|]. intros <-.
    assert (t = u); [|done]. by apply (ow_sep _ _ _ _ H6 t u n); [rewrite Hpc|rewrite Hu].
  - apply Hrk. right. done.
  - intros u. rewrite <-H9. same_tid t u; [by rewrite Hpc|done].
Qed.

(** A successful compare-and-swap. *)
Lemma cq_sim_cas n :
  cq_pcs s t = CqCas n (cq_pushlist (cq_q s)) →
  sim (CqState (QueueMpsc (Some n) (cq_poplist (cq_q s))) (cq_next s) (cq_inuse s)
         (<[t := CqPushRet]> (cq_pcs s))).
Proof.
  intros Hpc. pose proof (cq_cons_keep CqPushRet (QueueMpsc (Some n) (cq_poplist (cq_q s))) (cq_next s)) as Hck.
  pose proof (cq_role_keep CqPushRet) as Hrk.
  destruct (cq_priv_fresh s a R P U t n Hinv) as (Hn1 & Hn2 & Hn3); [by rewrite Hpc|].
  destruct Hinv as [H1 H2 H3 H4 H5 H6 H7 H8 H9].
  exists (Fifo (ff_items a ++ [n]) (<[t := QsPushed]> (ff_st a)) (λ _, true)), R, P, (n :: U).
  split; [constructor; by rewrite <-H9, Hpc|]. split; simpl; try done.
  - by rewrite (H7 t n _ Hpc).
  - apply Hck; try done; [by rewrite Hpc|by left].
  - rewrite !app_assoc in *. apply NoDup_app in H4 as (? & ? & ?). apply NoDup_app.
    split_and!; [done|set_solver|by apply NoDup_cons].
  - rewrite H5. unfold cq_items. by rewrite reverse_cons, !(assoc_L (++)).
  - eapply owned_publish with (p := n); [done|by rewrite Hpc|done|]. set_solver.
  - intros u m o. same_tid t u; [done|by eauto].
  - apply Hrk. right. done.
  - intros u. same_tid t u; [done|apply H9].
Qed.

(** Steps of the consumer inside [pop]. *)

Lemma cq_is_consumer : cq_status (cq_pcs s t) = QsPop → t = consumer.
Proof.
  intros Ht. destruct (decide (t = consumer)) as [|Hne]; [done|].
  by destruct (ci_role _ _ _ _ _ Hinv t Hne).
Qed.

Lemma cq_inv_consumer q nx pc a' R' P' U' :
  cq_status (cq_pcs s t) = QsPop → cq_status pc = QsPop ∨ (∃ r, pc = CqPopRet r) →
  lseg nx (cq_pushlist q) U' None → lseg nx (cq_poplist q) P' None → cq_cons pc q nx R' P' →
  NoDup (R' ++ P' ++ U') → (∀ x, x ∉ R → nx x = cq_next s x) → ff_items a' = cq_items R' P' U' →
  owned cq_priv (cq_inuse s) (λ p, p ∈ ff_items a') (<[t := pc]> (cq_pcs s)) →
  (∀ u, cq_status ((<[t := pc]> (cq_pcs s)) u) = ff_st a' u) →
  cq_inv (CqState q nx (cq_inuse s) (<[t := pc]> (cq_pcs s))) a' R' P' U'.
Proof.
  intros Ht Hpc Hu Hp Hco Hnd Hnx Hit How Hst. pose proof (cq_is_consumer Ht) as Htc.
  pose proof (cq_role_keep pc (or_introl Htc)) as Hrk. pose proof (cq_priv_fresh s a R P U) as Hfr.
  split; simpl; try done.
  - rewrite <-Htc. by simpl_fn.
  - intros u n old. same_tid t u; intros Hc.
    + rewrite Hc in Hpc. by destruct Hpc as [?|[??]].
    + rewrite Hnx; [by eapply Hinv|]. by apply (Hfr u); [|rewrite Hc].
Qed.

(** A step that leaves the contents alone. *)
Lemma cq_sim_quiet q nx pc R' P' U' :
  cq_status (cq_pcs s t) = QsPop → cq_status pc = QsPop →
  lseg nx (cq_pushlist q) U' None → lseg nx (cq_poplist q) P' None → cq_cons pc q nx R' P' →
  (∀ x, x ∉ R → nx x = cq_next s x) → cq_items R' P' U' = cq_items R P U →
  R' ++ P' ++ U' ≡ₚ R ++ P ++ U →
  sim (CqState q nx (cq_inuse s) (<[t := pc]> (cq_pcs s))).
Proof.
  intros Ht Hpc Hu Hp Hco Hnx Hit Hperm. exists a, R', P', U'. split; [constructor|].
  apply cq_inv_consumer; try done; [by left|rewrite Hperm; apply Hinv|..].
  - rewrite Hit. apply Hinv.
  - apply (owned_keep _ _ _ _ _ _ _ (ci_owned _ _ _ _ _ Hinv)); [|done].
    unfold cq_priv. by rewrite Ht, Hpc.
  - intros u. rewrite <-(ci_status _ _ _ _ _ Hinv). same_tid t u; congruence.
Qed.

(** The step that fixes the result of a successful [pop]. *)
Lemma cq_sim_pop q n P' :
  cq_status (cq_pcs s t) = QsPop → cq_items R P U = n :: cq_items [] P' U →
  lseg (cq_next s) (cq_pushlist q) U None → lseg (cq_next s) (cq_poplist q) P' None →
  R ++ P ++ U ≡ₚ n :: P' ++ U →
  sim (CqState q (cq_next s) (cq_inuse s) (<[t := CqPopRet (Some n)]> (cq_pcs s))).
Proof.
  intros Ht Hit Hu Hp Hperm.
  pose proof (ci_nodup _ _ _ _ _ Hinv) as Hnd. rewrite Hperm in Hnd.
  apply NoDup_cons in Hnd as [Hn Hnd]. pose proof (ci_items _ _ _ _ _ Hinv) as Hit'. rewrite Hit in Hit'.
  exists (Fifo (cq_items [] P' U) (<[t := QsPopped (Some n)]> (ff_st a)) (ff_exc a)), [], P', U.
  split; [constructor; [by rewrite <-(ci_status _ _ _ _ _ Hinv)|done]|].
  apply cq_inv_consumer; try done; [by right; eauto|..].
  - eapply owned_retire with (p := n); [apply Hinv|rewrite Hit'; by left|unfold cq_priv; by rewrite Ht|done|].
    intros q0. rewrite Hit'. simpl. rewrite elem_of_cons, !(cq_items_elem []). naive_solver.
  - intros u. simpl. same_tid t u; [done|apply Hinv].
Qed.

(** [pop] on an empty queue. *)
Lemma cq_sim_fail :
  cq_pcs s t = CqTake → cq_pushlist (cq_q s) = None →
  sim (CqState (QueueMpsc None (cq_poplist (cq_q s))) (cq_next s) (cq_inuse s)
         (<[t := CqPopRet None]> (cq_pcs s))).
Proof.
  intros Hpc Hpl. pose proof (cq_is_consumer ltac:(by rewrite Hpc)) as Ht.
  pose proof (ci_cons _ _ _ _ _ Hinv) as Hco. rewrite <-Ht, Hpc in Hco. destruct Hco as [HR HP].
  assert (U = []) as HU.
  { pose proof (ci_push _ _ _ _ _ Hinv) as Hu. rewrite Hpl in Hu. by destruct U; [|destruct Hu]. }
  exists (Fifo (ff_items a) (<[t := QsPopped None]> (ff_st a)) (ff_exc a)), R, P, U.
  split.
  { constructor; [by rewrite <-(ci_status _ _ _ _ _ Hinv), Hpc|left].
    rewrite (ci_items _ _ _ _ _ Hinv). by subst. }
  apply cq_inv_consumer; simpl; rewrite ?Hpc; try done; [by right; eauto| |apply Hinv..| |].
  - by rewrite HU.
  - apply (owned_keep _ _ _ _ _ _ _ (ci_owned _ _ _ _ _ Hinv)); [|done]. by rewrite Hpc.
  - intros u. same_tid t u; [done|apply Hinv].
Qed.

End sim.

Lemma cq_sim_pop_step s a R P U t q nx pc :
  cq_inv s a R P U → pop (cq_q s) (cq_next s) (cq_pcs s t) = Some (q, nx, pc) →
  ∃ a' R' P' U', fifo_step false t a a' ∧
    cq_inv (CqState q nx (cq_inuse s) (<[t := pc]> (cq_pcs s))) a' R' P' U'.
Proof.
  intros Hinv Hstep. assert (cq_status (cq_pcs s t) = QsPop) as Hst by (by destruct (cq_pcs s t)).
  pose proof (ci_cons _ _ _ _ _ Hinv) as Hco. rewrite <-(cq_is_consumer _ _ _ _ _ _ Hinv Hst) in Hco.
  pose proof (ci_push _ _ _ _ _ Hinv) as Hu. pose proof (ci_pop _ _ _ _ _ Hinv) as Hp.
  pose proof (ci_nodup _ _ _ _ _ Hinv) as Hnd.
  destruct (cq_pcs s t) as [| | | | | |res| |r|r next|r next|] eqn:Hpc; try done; simpl in Hstep, Hco.
  - destruct (cq_poplist (cq_q s)) as [x|] eqn:Hpl; injection Hstep as <- <- <-;
      (eapply cq_sim_quiet; rewrite ?Hpc, ?Hpl; try done); simpl.
    + split; [done|]. destruct P as [|y P0]; [done|]. destruct Hp as [[= ->] _]. eauto.
    + split; [done|]. by destruct P as [|y P0]; [|destruct Hp].
  - destruct Hco as [-> [P' ->]]. injection Hstep as <- <- <-. destruct Hp as [Hpl Hp].
    eapply cq_sim_pop; rewrite ?Hpc; done.
  - destruct Hco as [-> ->]. destruct (cq_pushlist (cq_q s)) as [r|] eqn:Hpl; injection Hstep as <- <- <-;
      [|by eapply cq_sim_fail].
    apply (cq_sim_quiet _ _ _ _ _ _ Hinv _ _ _ U [] []); rewrite ?Hpc; simpl; try done.
    + split; [|done]. by intros ->.
    + unfold cq_items. simpl. by rewrite !app_nil_r.
    + by rewrite app_nil_r.
  - destruct Hco as [Hne Hl]. destruct R as [|r' R']; [done|]. destruct Hl as [[= <-] Hl].
    destruct (cq_next s r) as [x|] eqn:Hn; injection Hstep as <- <- <-.
    + eapply cq_sim_quiet; rewrite ?Hpc; try done. simpl. exists R'. split_and!; [|done..].
      by destruct R'.
    + destruct R' as [|? ?]; [|by destruct Hl]. eapply cq_sim_pop; rewrite ?Hpc; done.
  - destruct Hco as (R' & Hne & -> & Hl). injection Hstep as <- <- <-. simpl in Hnd.
    apply NoDup_cons in Hnd as [Hn _]. rewrite !not_elem_of_app in Hn. destruct Hn as (? & ? & ?).
    apply (cq_sim_quiet _ _ _ _ _ _ Hinv _ _ _ (r :: R') P U); rewrite ?Hpc; try done.
    + by apply lseg_insert.
    + by apply lseg_insert.
    + exists R'. split_and!; [done..|by apply lseg_insert|by simpl_fn].
    + intros x Hx. apply fn_lookup_insert_ne. intros ->. apply Hx. by left.
  - destruct Hco as (R' & Hne & -> & Hl & Hpl). injection Hstep as <- <- <-.
    apply (cq_sim_quiet _ _ _ _ _ _ Hinv _ _ _ R' (r :: P) U); rewrite ?Hpc; simpl; try done.
    + by rewrite Hpl.
    + unfold cq_items. rewrite reverse_cons, <-(assoc_L (++)). done.
    + by rewrite (Permutation_middle R').
Qed.

Lemma cq_inv_start s : cq_init s → cq_inv s fifo_empty [] [] [].
Proof.
  destruct s as [q nx inuse pcs]. intros (Hq & Hu & Hpcs). simpl in *. subst. split; simpl; try done.
  - constructor.
  - split; simpl; set_solver.
Qed.

(** Calls and returns do not touch the queue. *)
Lemma cq_inv_call s a R P U t pc inuse a' :
  cq_inv s a R P U → cq_status (cq_pcs s t) ≠ QsPop → cq_status pc ≠ QsPop ∨ pc = CqPop →
  (∀ n old, pc ≠ CqCas n old) →
  t = consumer ∨ (cq_status pc ≠ QsPop ∧ ∀ r, cq_status pc ≠ QsPopped r) →
  ff_items a' = ff_items a →
  owned cq_priv inuse (λ p, p ∈ ff_items a) (<[t := pc]> (cq_pcs s)) →
  (∀ u, cq_status ((<[t := pc]> (cq_pcs s)) u) = ff_st a' u) →
  cq_inv (CqState (cq_q s) (cq_next s) inuse (<[t := pc]> (cq_pcs s))) a' R P U.
Proof.
  intros Hinv Ht Hpc Hcas Hrole Hit How Hst.
  pose proof (cq_cons_keep s a R P U t Hinv pc (cq_q s) (cq_next s) Ht Hpc) as Hck.
  pose proof (cq_role_keep s a R P U t Hinv pc Hrole) as Hrk.
  destruct Hinv as [H1 H2 H3 H4 H5 H6 H7 H8 H9].
  split; simpl; rewrite ?Hit; try done; [by apply Hck|].
  intros u n old. same_tid t u; [by intros ->; destruct (Hcas n old)|by eauto].
Qed.

Lemma cq_sim t lb s s' a R P U :
  cq_inv s a R P U → cq_step consumer t lb s = Some s' →
  ∃ a' R' P' U', fifo_step false t a a' ∧ cq_inv s' a' R' P' U'.
Proof.
  intros Hinv Hstep. unfold cq_step in Hstep. pose proof (cq_sim_pop_step s a R P U t) as Hpop.
  pose proof (ci_owned _ _ _ _ _ Hinv) as How. pose proof (ci_status _ _ _ _ _ Hinv) as Hs.
  destruct (cq_pcs s t) as [|n|n old|n old| | |res| |r|r next|r next|r] eqn:Hpc, lb as [m| |b]; try done;
    try (destruct (pop _ _ _) as [[[q nx] pc]|]; [|done]; simplify_eq; by eapply Hpop).
  - case_decide as Hm; simplify_eq.
    exists (Fifo (ff_items a) (<[t := QsPush m]> (ff_st a)) (ff_exc a)), R, P, U.
    split; [constructor; by rewrite <-Hs, Hpc|].
    apply (cq_inv_call s a); simpl; rewrite ?Hpc; try done; [by left|by right|..].
    + apply owned_alloc; [done..|by rewrite Hpc|done].
    + intros u. same_tid t u; [done|apply Hs].
  - case_decide as Hc; simplify_eq.
    exists (Fifo (ff_items a) (<[consumer := QsPop]> (ff_st a)) (<[consumer := false]> (ff_exc a))), R, P, U.
    split; [constructor; by rewrite <-Hs, Hpc|].
    apply (cq_inv_call s a); simpl; rewrite ?Hpc; try done; [by right|by left|..].
    + apply (owned_keep _ _ _ _ _ _ _ How); [|done]. by rewrite Hpc.
    + intros u. same_tid consumer u; [done|apply Hs].
  - simpl in Hstep. simplify_eq. eapply cq_sim_load; [done|by rewrite Hpc].
  - simpl in Hstep. simplify_eq. by eapply cq_sim_set.
  - simpl in Hstep. case_decide as Hc; simplify_eq.
    + destruct Hc as [_ <-]. by eapply cq_sim_cas.
    + eapply cq_sim_load; [done|by rewrite Hpc].
  - simplify_eq. exists (Fifo (ff_items a) (<[t := QsIdle]> (ff_st a)) (ff_exc a)), R, P, U.
    split; [apply fs_ret_push; by rewrite <-Hs, Hpc|].
    apply (cq_inv_call s a); simpl; rewrite ?Hpc; try done; [by left|by right|..].
    + apply (owned_keep _ _ _ _ _ _ _ How); [|done]. by rewrite Hpc.
    + intros u. same_tid t u; [done|apply Hs].
  - simplify_eq. exists (Fifo (ff_items a) (<[t := QsIdle]> (ff_st a)) (ff_exc a)), R, P, U.
    split; [eapply fs_ret_pop; by rewrite <-Hs, Hpc|].
    apply (cq_inv_call s a); simpl; rewrite ?Hpc; try done; [by left|by right|..].
    + destruct r as [n|].
      * apply owned_free; [done|by rewrite Hpc|done].
      * apply (owned_keep _ _ _ _ _ _ _ How); [|done]. by rewrite Hpc.
    + intros u. same_tid t u; [done|apply Hs].
Qed.

Definition cloudius_rel (s : cq_state) (a : fifo) : Prop := ∃ R P U, cq_inv s a R P U.

Lemma cloudius_rel_sim t lb s s' a :
  cloudius_rel s a → cq_step consumer t lb s = Some s' →
  ∃ a', fifo_step false t a a' ∧ cloudius_rel s' a'.
Proof.
  intros (R & P & U & Hinv) Hstep.
  destruct (cq_sim t lb s s' a R P U Hinv Hstep) as (a' & R' & P' & U' & ? & ?).
  exists a'. split; [done|]. by exists R', P', U'.
Qed.

Lemma cloudius_rel_start s : cq_init s → cloudius_rel s fifo_empty.
Proof. intros Hi. exists [], [], []. by apply cq_inv_start. Qed.

Lemma cloudius_rel_status s a t : cloudius_rel s a → cq_status (cq_pcs s t) = ff_st a t.
Proof. intros (R & P & U & Hinv). apply Hinv. Qed.

Definition cloudius_fifo : @FifoQueue _ _ (cloudius_queue consumer) false :=
  @Build_FifoQueue _ _ (cloudius_queue consumer) false
    cloudius_rel cloudius_rel_start cloudius_rel_sim cloudius_rel_status.
End proofs.

(** ** Sequential operations *)

Lemma reverse_loop_spec fuel nx pl r R P :
  lseg nx (Some r) R None → lseg nx pl P None → NoDup (R ++ P) → R ≠ [] → length R ≤ S fuel →
  ∃ nx' pl' r', reverse_loop fuel nx pl r = Some (nx', pl', r') ∧
    lseg (<[r' := pl']> nx') (Some r') (reverse R ++ P) None ∧ (∀ x, x ∉ R → nx' x = nx x).
Proof.
  revert fuel nx pl r P. induction R as [|r0 R IH]; [done|].
  intros fuel nx pl r P [[= <-] HR] HP Hnd _ Hlen. simpl in Hnd.
  apply NoDup_cons in Hnd as [Hn Hnd]. rewrite not_elem_of_app in Hn. destruct Hn as [Hn1 Hn2].
  destruct R as [|r1 R].
  - exists nx, pl, r. simpl in HR. split_and!; [by destruct fuel; simpl; rewrite HR| |done].
    simpl. simpl_fn. split; [done|]. by apply lseg_insert.
  - destruct fuel as [|fuel]; [simpl in Hlen; lia|].
    pose proof HR as [Heq _]. simpl. rewrite Heq. rewrite Heq in HR.
    destruct (IH fuel (<[r := pl]> nx) (Some r) r1 (r :: P)) as (nx' & pl' & r' & Hrun & Hl & Hx).
    + by apply lseg_insert.
    + simpl. simpl_fn. split; [done|]. by apply lseg_insert.
    + rewrite <-Permutation_middle. apply NoDup_cons. split; [|done].
      rewrite not_elem_of_app. done.
    + done.
    + simpl in *. lia.
    + exists nx', pl', r'. split_and!; [done|..].
      * by rewrite (reverse_cons _ r), <-(assoc_L (++)).
      * intros x [Hne Hnx]%not_elem_of_cons. rewrite Hx by done. by apply fn_lookup_insert_ne.
Qed.

Definition iter_list (it : iterator) (nx : loc → ptr) (U P : list loc) : Prop :=
  lseg nx (it_push it) U None ∧ lseg nx (it_pop it) P None.

Lemma it_collect_spec fuel nx it U P :
  iter_list it nx U P → length U + length P ≤ fuel → it_collect fuel nx it = Some (U ++ P).
Proof.
  revert it U P. induction fuel as [|fuel IH]; intros [u p] U P [HU HP] Hlen; simpl in *.
  - destruct U, P; simpl in *; try lia. by subst.
  - destruct U as [|x U]; simpl in *; subst; [destruct P as [|x P]; simpl in *; subst; [done|]|].
    + destruct HP as [-> HP]. simpl. rewrite (IH _ [] P); [done| |simpl; lia]. by split.
    + destruct HU as [-> HU]. simpl. rewrite (IH _ U P); [done| |lia]. by split.
Qed.

(** ** Theorems *)

(** C8: the Cloudius queue is linearizable to a first-in first-out queue on
    which [pop] returns NULL only if the queue is empty, although the
    compare-and-swap may fail spuriously and nodes may be pushed again as soon
    as they have been popped. *)
Theorem cloudius_refines (consumer : tid) :
  refines_fifo (cloudius_queue consumer) false ∧
  queue_fifo (cloudius_queue consumer) ∧ queue_strict (cloudius_queue consumer).
Proof.
  split_and!.
  - apply (@fifo_refines _ _ _ _ (cloudius_fifo consumer)).
  - apply (@fifo_queue_fifo _ _ _ _ (cloudius_fifo consumer)).
  - apply (@fifo_queue_strict _ _ _ (cloudius_fifo consumer)).
Qed.

(** [popall] returns the nodes of [poplist] if there are any and otherwise
    all nodes inside, oldest first and linked through [next]; its loop ends
    after as many rounds as there are nodes. *)
Lemma popall_spec fuel self nx P U :
  lseg nx (cq_pushlist self) U None → lseg nx (cq_poplist self) P None → NoDup U →
  length U ≤ fuel →
  ∃ self' nx' r, popall fuel self nx = Some (self', nx', r) ∧ cq_poplist self' = None ∧
    if decide (P = []) then cq_pushlist self' = None ∧ lseg nx' r (reverse U) None
    else cq_pushlist self' = cq_pushlist self ∧ lseg nx' r P None.
Proof.
  intros HU HP Hnd Hlen. unfold popall. destruct P as [|p P]; simpl in HP.
  - rewrite HP. destruct U as [|u U]; simpl in HU.
    + rewrite HU. do 3 eexists. split_and!; [done..|]. by rewrite decide_True.
    + destruct HU as [Hpl HU]. rewrite Hpl.
      destruct (reverse_loop_spec fuel nx None u (u :: U) []) as (nx' & pl' & r' & Hrun & Hl & _);
        [by split|done|by rewrite app_nil_r|done|lia|].
      rewrite Hrun. rewrite app_nil_r in Hl. do 3 eexists. split_and!; [done..|]. by rewrite decide_True.
  - destruct HP as [Hpl HP]. rewrite Hpl. do 3 eexists. split_and!; [done..|].
    by rewrite decide_False.
Qed.

(** Three pushes: the stack is 3, 2, 1. *)
Definition cq_example_next : loc → ptr :=
  <[3%positive := Some 2%positive]> (<[2%positive := Some 1%positive]> (λ _, None)).

(** Iterating from [begin()] to [end()] visits every node inside exactly
    once, the stack first, and [empty()] holds exactly when there is none. *)
Lemma iteration_complete fuel self nx P U :
  lseg nx (cq_pushlist self) U None → lseg nx (cq_poplist self) P None →
  length U + length P ≤ fuel →
  it_collect fuel nx (it_begin self) = Some (U ++ P) ∧ empty self = bool_decide (U ++ P = []).
Proof.
  intros HU HP Hlen. split; [by apply it_collect_spec|]. unfold empty.
  destruct U as [|u U], P as [|p P]; simpl in *; try destruct HU as [HU _]; try destruct HP as [HP _];
    by rewrite HU, HP.
Qed.

(** C22: the operations for a single thread: [popall] returns the nodes of [poplist] if there are
    any and otherwise all nodes inside, oldest first and linked through [next],
    and its loop ends after as many rounds as there are nodes; iterating from [begin()] to
    [end()] visits every node inside exactly once, the stack first; and
    [empty()] holds exactly when there is none. *)
Theorem cloudius_sequential fuel self nx P U :
  lseg nx (cq_pushlist self) U None → lseg nx (cq_poplist self) P None → NoDup U →
  length U + length P ≤ fuel →
  (∃ self' nx' r, popall fuel self nx = Some (self', nx', r) ∧ cq_poplist self' = None ∧
     if decide (P = []) then cq_pushlist self' = None ∧ lseg nx' r (reverse U) None
     else cq_pushlist self' = cq_pushlist self ∧ lseg nx' r P None) ∧
  it_collect fuel nx (it_begin self) = Some (U ++ P) ∧ empty self = bool_decide (U ++ P = []).
Proof.
  intros HU HP Hnd Hlen. split; [apply popall_spec; try done; lia|by apply iteration_complete].
Qed.

Lemma cloudius_sequential_witness :
  (∃ self' nx' r, popall 3 (QueueMpsc (Some 3%positive) None) cq_example_next = Some (self', nx', r) ∧
    r = Some 1%positive ∧ lseg nx' r [1; 2; 3]%positive None) ∧
  it_collect 3 cq_example_next (it_begin (QueueMpsc (Some 3%positive) None)) = Some [3; 2; 1]%positive.
Proof.
  destruct (cloudius_sequential 3 (QueueMpsc (Some 3%positive) None) cq_example_next [] [3; 2; 1]%positive)
    as [(self' & nx' & r & Hrun & _ & Hl) [Hit _]].
  - repeat split; reflexivity.
  - reflexivity.
  - repeat (apply NoDup_cons; split; [set_solver|]). apply NoDup_nil_2.
  - simpl. lia.
  - split; [|exact Hit]. rewrite decide_True in Hl by done. destruct Hl as [_ Hl].
    exists self', nx', r. split; [exact Hrun|]. split; [apply Hl|exact Hl].
Defined.
