(* ===== verification/NatsysQueue.v ===== *)
(** * The ring-buffer queue of [include/natsysq.h]

    [LockFreeQueue], selected by [QUEUE_METHOD=NATSYS_QUEUE]: producers and
    consumers draw positions from two counters, announce in [thr_p_] the
    position they work on, and wait until the other side has caught up.  One
    memory access is one step; counters are 64-bit and wrap.

    The queue is correct when [Q_SIZE] is a power of two and threads of the
    same role have different identifiers.  [src/natsys_q.h] instantiates it
    with neither: [Q_SIZE] is 10000000 and [set_thr_id] is never called.  Both
    are shown to lose messages. *)

From S2P Require Import Prelude Lts.

(** ** Data *)

Definition ULONG_MAX : Z := 2 ^ 64 - 1.
Definition QUEUE_SIZE : Z := 32 * 1024.

(** [Q_SIZE] of [src/natsys_q.h]. *)
Definition NATSYS_Q_SIZE : Z := 10000000.

Record lfq := Lfq {
  head_ : Z;
  tail_ : Z;
  last_head_ : Z;
  last_tail_ : Z;
  thr_head : nat → Z;    (** [thr_p_[i].head] *)
  thr_tail : nat → Z;    (** [thr_p_[i].tail] *)
  ptr_array_ : Z → ptr;
}.

Inductive nq_pc :=
  | NqIdle
  (* push(p) *)
  | NqPLoad (p : loc)                    (** load [head_] *)
  | NqPAnn (p : loc) (h : Z)             (** [thr_pos().head = head_] *)
  | NqPDraw (p : loc)                    (** [__sync_fetch_and_add(&head_, 1)] *)
  | NqPSet (p : loc) (h : Z)             (** store it in [thr_pos().head] *)
  | NqPWhile (p : loc)                   (** [while (thr_pos().head >= last_tail_ + Q_SIZE)] *)
  | NqPMin (p : loc)                     (** [min = tail_] *)
  | NqPScan (p : loc) (min : Z) (i : nat)  (** the [for] loop over the consumers *)
  | NqPBreak (p : loc)                   (** [if (thr_pos().head < last_tail_ + Q_SIZE) break] *)
  | NqPWrite (p : loc)                   (** store into [ptr_array_] *)
  | NqPDone                              (** [thr_pos().head = ULONG_MAX] *)
  (* pop() *)
  | NqCLoad
  | NqCAnn (h : Z)
  | NqCDraw
  | NqCSet (h : Z)
  | NqCWhile                             (** [while (thr_pos().tail >= last_head_)] *)
  | NqCMin                               (** [min = head_] *)
  | NqCScan (min : Z) (i : nat)
  | NqCBreak
  | NqCRead                              (** [ret = ptr_array_[thr_pos().tail & Q_MASK]] *)
  | NqCDone (ret : ptr)                  (** [thr_pos().tail = ULONG_MAX] *)
  | NqCRet (ret : ptr).

Section queue.
Context (ThrId : tid → nat) (Q_SIZE : Z) (n_producers_ n_consumers_ : nat).

Definition Q_MASK : Z := Q_SIZE - 1.

(** What the constructor leaves behind; the slots of [ptr_array_] are not
    initialised. *)
Definition LockFreeQueue (slots : Z → ptr) : lfq :=
  Lfq 0 0 0 0 (λ _, ULONG_MAX) (λ _, ULONG_MAX) slots.

(** ** Operations *)

Definition push (t : tid) (q : lfq) (pc : nq_pc) : option (lfq * nq_pc) :=
  let thr_pos_head := thr_head q (ThrId t) in
  match pc with
  | NqPLoad p => Some (q, NqPAnn p (head_ q))
  | NqPAnn p h =>
      Some (Lfq (head_ q) (tail_ q) (last_head_ q) (last_tail_ q)
              (<[ThrId t := h]> (thr_head q)) (thr_tail q) (ptr_array_ q), NqPDraw p)
  | NqPDraw p =>
      Some (Lfq (u64 (head_ q + 1)) (tail_ q) (last_head_ q) (last_tail_ q)
              (thr_head q) (thr_tail q) (ptr_array_ q), NqPSet p (head_ q))
  | NqPSet p h =>
      Some (Lfq (head_ q) (tail_ q) (last_head_ q) (last_tail_ q)
              (<[ThrId t := h]> (thr_head q)) (thr_tail q) (ptr_array_ q), NqPWhile p)
  | NqPWhile p =>
      if bool_decide (u64 (last_tail_ q + Q_SIZE) ≤ thr_pos_head)%Z then Some (q, NqPMin p)
      else Some (q, NqPWrite p)
  | NqPMin p => Some (q, NqPScan p (tail_ q) 0)
  | NqPScan p min i =>
      if bool_decide (i < n_consumers_) then
        let tmp_t := thr_tail q i in
        Some (q, NqPScan p (if bool_decide (tmp_t < min)%Z then tmp_t else min) (S i))
      else
        Some (Lfq (head_ q) (tail_ q) (last_head_ q) min
                (thr_head q) (thr_tail q) (ptr_array_ q), NqPBreak p)
  | NqPBreak p =>
      if bool_decide (thr_pos_head < u64 (last_tail_ q + Q_SIZE))%Z then Some (q, NqPWrite p)
      else Some (q, NqPWhile p)
  | NqPWrite p =>
      Some (Lfq (head_ q) (tail_ q) (last_head_ q) (last_tail_ q) (thr_head q) (thr_tail q)
              (<[Z.land thr_pos_head Q_MASK := Some p]> (ptr_array_ q)), NqPDone)
  | NqPDone =>
      Some (Lfq (head_ q) (tail_ q) (last_head_ q) (last_tail_ q)
              (<[ThrId t := ULONG_MAX]> (thr_head q)) (thr_tail q) (ptr_array_ q), NqIdle)
  | _ => None
  end.

Definition pop (t : tid) (q : lfq) (pc : nq_pc) : option (lfq * nq_pc) :=
  let thr_pos_tail := thr_tail q (ThrId t) in
  match pc with
  | NqCLoad => Some (q, NqCAnn (tail_ q))
  | NqCAnn h =>
      Some (Lfq (head_ q) (tail_ q) (last_head_ q) (last_tail_ q)
              (thr_head q) (<[ThrId t := h]> (thr_tail q)) (ptr_array_ q), NqCDraw)
  | NqCDraw =>
      Some (Lfq (head_ q) (u64 (tail_ q + 1)) (last_head_ q) (last_tail_ q)
              (thr_head q) (thr_tail q) (ptr_array_ q), NqCSet (tail_ q))
  | NqCSet h =>
      Some (Lfq (head_ q) (tail_ q) (last_head_ q) (last_tail_ q)
              (thr_head q) (<[ThrId t := h]> (thr_tail q)) (ptr_array_ q), NqCWhile)
  | NqCWhile =>
      if bool_decide (last_head_ q ≤ thr_pos_tail)%Z then Some (q, NqCMin) else Some (q, NqCRead)
  | NqCMin => Some (q, NqCScan (head_ q) 0)
  | NqCScan min i =>
      if bool_decide (i < n_producers_) then
        let tmp_h := thr_head q i in
        Some (q, NqCScan (if bool_decide (tmp_h < min)%Z then tmp_h else min) (S i))
      else
        Some (Lfq (head_ q) (tail_ q) min (last_tail_ q)
                (thr_head q) (thr_tail q) (ptr_array_ q), NqCBreak)
  | NqCBreak =>
      if bool_decide (thr_pos_tail < last_head_ q)%Z then Some (q, NqCRead) else Some (q, NqCWhile)
  | NqCRead => Some (q, NqCDone (ptr_array_ q (Z.land thr_pos_tail Q_MASK)))
  | NqCDone ret =>
      Some (Lfq (head_ q) (tail_ q) (last_head_ q) (last_tail_ q)
              (thr_head q) (<[ThrId t := ULONG_MAX]> (thr_tail q)) (ptr_array_ q), NqCRet ret)
  | _ => None
  end.

(** ** System *)

Record nq_state := NqState { nq_q : lfq; nq_pcs : tid → nq_pc }.

Inductive nq_label := NqCallPush (p : loc) | NqCallPop | NqRun.

Context (producer consumer : tid → bool).

Definition nq_step (l : tid * nq_label) (s : nq_state) : option nq_state :=
  let '(t, lb) := l in
  match nq_pcs s t, lb with
  | NqIdle, NqCallPush p =>
      if producer t then Some (NqState (nq_q s) (<[t := NqPLoad p]> (nq_pcs s))) else None
  | NqIdle, NqCallPop =>
      if consumer t then Some (NqState (nq_q s) (<[t := NqCLoad]> (nq_pcs s))) else None
  | NqCRet _, NqRun => Some (NqState (nq_q s) (<[t := NqIdle]> (nq_pcs s)))
  | (NqPLoad _ | NqPAnn _ _ | NqPDraw _ | NqPSet _ _ | NqPWhile _ | NqPMin _ | NqPScan _ _ _
    | NqPBreak _ | NqPWrite _ | NqPDone) as pc, NqRun =>
      match push t (nq_q s) pc with
      | Some (q, pc') => Some (NqState q (<[t := pc']> (nq_pcs s)))
      | None => None
      end
  | pc, NqRun =>
      match pop t (nq_q s) pc with
      | Some (q, pc') => Some (NqState q (<[t := pc']> (nq_pcs s)))
      | None => None
      end
  | _, _ => None
  end.

#[local] Instance natsys_lts : Lts (tid * nq_label) nq_state := {|
  lts_init := λ s, ∃ slots, s = NqState (LockFreeQueue slots) (λ _, NqIdle);
  lts_step := nq_step;
|}.

(** The pointers pushed in a run, by the position drawn: the [k]-th of the list
    is the one whose [push] drew position [k]. *)
Fixpoint drawn (ls : list (tid * nq_label)) (s : nq_state) : list loc :=
  match ls with
  | [] => []
  | l :: ls =>
      match nq_step l s with
      | Some s' =>
          (match nq_pcs s l.1, l.2 with NqPDraw p, NqRun => [p] | _, _ => [] end) ++ drawn ls s'
      | None => []
      end
  end.
End queue.

(** ** One side of the protocol

    The threads of one role draw tickets from a counter [C].  [tick t] is the
    ticket [t] works on, [ann i] what slot [i] announces. *)

Record side (C : Z) (ann : nat → Z) (idf : tid → nat) (n : nat) (tick : tid → option Z) : Prop := {
  sd_count : (0 ≤ C)%Z;
  sd_ann : ∀ i, (0 ≤ ann i)%Z;
  sd_tick : ∀ t h, tick t = Some h → (0 ≤ h < C)%Z ∧ (ann (idf t) ≤ h)%Z ∧ idf t < n;
  sd_inj : ∀ t t' h, tick t = Some h → tick t' = Some h → t = t';
}.

(** Ticket [p] has been drawn and its operation is over. *)
Definition served (C : Z) (tick : tid → option Z) (p : Z) : Prop :=
  (0 ≤ p < C)%Z ∧ ∀ t, tick t ≠ Some p.

(** The scan of the other side has looked at the slots below [i]: a ticket
    below [min] that is not served belongs to a slot it has not reached. *)
Definition scan (C : Z) (idf : tid → nat) (tick : tid → option Z) (min : Z) (i : nat) : Prop :=
  (0 ≤ min)%Z ∧ ∀ p, (0 ≤ p < min)%Z → (p < C)%Z ∧ ∀ t, tick t = Some p → i ≤ idf t.

(** Tickets below [C] are not drawn again. *)
Definition evolve (C : Z) (tick : tid → option Z) (C' : Z) (tick' : tid → option Z) : Prop :=
  (C ≤ C')%Z ∧ ∀ t p, (p < C)%Z → tick' t = Some p → tick t = Some p.

Section side.
Context (C : Z) (ann : nat → Z) (idf : tid → nat) (n : nat) (tick : tid → option Z).
Hypothesis Hside : side C ann idf n tick.

Lemma scan_start : scan C idf tick C 0.
Proof. split; [apply Hside|]. intros p Hp. split; [lia|]. intros. lia. Qed.

Lemma scan_next min i :
  scan C idf tick min i →
  scan C idf tick (if bool_decide (ann i < min)%Z then ann i else min) (S i).
Proof.
  intros [Hm Hs]. pose proof (sd_ann _ _ _ _ _ Hside i). split; [by case_bool_decide|].
  intros p Hp. assert (p < min)%Z as Hlt by (case_bool_decide; lia).
  destruct (Hs p) as [HC Ht]; [lia|]. split; [done|]. intros t Hpt. specialize (Ht t Hpt).
  destruct (decide (idf t = i)) as [<-|]; [|lia].
  destruct (sd_tick _ _ _ _ _ Hside t p Hpt) as (_ & ? & _). case_bool_decide; lia.
Qed.

Lemma scan_end min i p : scan C idf tick min i → n ≤ i → (0 ≤ p < min)%Z → served C tick p.
Proof.
  intros [_ Hs] Hi Hp. destruct (Hs p Hp) as [HC Ht]. split; [lia|]. intros t Hpt.
  specialize (Ht t Hpt). destruct (sd_tick _ _ _ _ _ Hside t p Hpt) as (_ & _ & ?). lia.
Qed.

Lemma served_evolve C' tick' p : evolve C tick C' tick' → served C tick p → served C' tick' p.
Proof.
  intros [HC He] [Hp Ht]. split; [lia|]. intros t Hpt. apply (Ht t), He; [lia|done].
Qed.

Lemma scan_evolve C' tick' min i :
  evolve C tick C' tick' → scan C idf tick min i → scan C' idf tick' min i.
Proof.
  intros [HC He] [Hm Hs]. split; [done|]. intros p Hp. destruct (Hs p Hp) as [HpC Ht].
  split; [lia|]. intros t Hpt. apply Ht, He; [lia|done].
Qed.

(** The moves of a side. *)
Lemma side_ann t h :
  (∀ u, tick u ≠ None → idf u = idf t → u = t) → (0 ≤ h)%Z →
  (∀ k, tick t = Some k → (h ≤ k)%Z) →
  side C (<[idf t := h]> ann) idf n tick.
Proof.
  intros Hd Hh Ht. destruct Hside as [H1 H2 H3 H4]. split; try done.
  - intros i. destruct (decide (idf t = i)) as [<-|]; [by simpl_fn|]. by rewrite fn_lookup_insert_ne.
  - intros u k Hu. destruct (H3 u k Hu) as (? & ? & ?). split_and!; [lia..| |done].
    destruct (decide (idf t = idf u)) as [Heq|]; [|by rewrite fn_lookup_insert_ne].
    rewrite <-Heq. simpl_fn. assert (u = t) as -> by (apply Hd; congruence). auto.
Qed.

Lemma side_draw t tick' :
  (ann (idf t) ≤ C)%Z → idf t < n → tick' t = Some C → (∀ u, u ≠ t → tick' u = tick u) →
  side (C + 1) ann idf n tick' ∧ (tick t = None → evolve C tick (C + 1) tick').
Proof.
  intros Ha Hi Ht Hu. destruct Hside as [H1 H2 H3 H4]. split; [split|split].
  - lia.
  - done.
  - intros u h Hh. destruct (decide (u = t)) as [->|Hne].
    + rewrite Ht in Hh. simplify_eq. split_and!; [lia..|done].
    + rewrite Hu in Hh by done. destruct (H3 u h Hh) as (? & ? & ?). split_and!; [lia..|done].
  - assert (∀ v, v ≠ t → tick' v ≠ Some C) as Hc.
    { intros v Hv. rewrite Hu by done. intros Heq. destruct (H3 v C Heq). lia. }
    intros u u' h Hh Hh'. destruct (decide (u = t)) as [->|], (decide (u' = t)) as [->|]; [done|..].
    + rewrite Ht in Hh. simplify_eq. by destruct (Hc u').
    + rewrite Ht in Hh'. simplify_eq. by destruct (Hc u).
    + rewrite Hu in Hh, Hh' by done. eauto.
  - lia.
  - intros u p Hp Hpu. destruct (decide (u = t)) as [->|]; [|by rewrite <-Hu].
    rewrite Ht in Hpu. simplify_eq. lia.
Qed.

Lemma side_ext tick' : (∀ u, tick' u = tick u) → side C ann idf n tick'.
Proof.
  intros Hu. destruct Hside as [H1 H2 H3 H4]. split; try done.
  - intros t h. rewrite Hu. auto.
  - intros t t' h. rewrite !Hu. eauto.
Qed.

Lemma side_finish t tick' :
  tick' t = None → (∀ u, u ≠ t → tick' u = tick u) → side C ann idf n tick'.
Proof.
  intros Ht Hu. destruct Hside as [H1 H2 H3 H4].
  assert (∀ u h, tick' u = Some h → tick u = Some h) as Hsub.
  { intros u h Hh. destruct (decide (u = t)) as [->|]; [congruence|]. by rewrite <-Hu. }
  split; try done; eauto.
Qed.
End side.

(** ** Invariant *)

Section proofs.
Context (ThrId : tid → nat) (Q_SIZE : Z) (n_producers n_consumers : nat).
Context (producer consumer : tid → bool).

Definition prod_pc (pc : nq_pc) : bool :=
  match pc with
  | NqPLoad _ | NqPAnn _ _ | NqPDraw _ | NqPSet _ _ | NqPWhile _ | NqPMin _ | NqPScan _ _ _
  | NqPBreak _ | NqPWrite _ | NqPDone => true
  | _ => false
  end.

Definition cons_pc (pc : nq_pc) : bool :=
  match pc with
  | NqCLoad | NqCAnn _ | NqCDraw | NqCSet _ | NqCWhile | NqCMin | NqCScan _ _ | NqCBreak
  | NqCRead | NqCDone _ => true
  | _ => false
  end.

(** The position a thread works on: once announced it is in [thr_p_]. *)
Definition ptick (q : lfq) (pcs : tid → nq_pc) (t : tid) : option Z :=
  match pcs t with
  | NqPSet _ h => Some h
  | NqPWhile _ | NqPMin _ | NqPScan _ _ _ | NqPBreak _ | NqPWrite _ | NqPDone =>
      Some (thr_head q (ThrId t))
  | _ => None
  end.

Definition ctick (q : lfq) (pcs : tid → nq_pc) (t : tid) : option Z :=
  match pcs t with
  | NqCSet h => Some h
  | NqCWhile | NqCMin | NqCScan _ _ | NqCBreak | NqCRead | NqCDone _ =>
      Some (thr_tail q (ThrId t))
  | _ => None
  end.

Abbreviation pserved q pcs := (served (head_ q) (ptick q pcs)).
Abbreviation cserved q pcs := (served (tail_ q) (ctick q pcs)).

(** The slot of position [x] holds the pointer pushed there. *)
Definition written (q : lfq) (pcs : tid → nq_pc) (x : Z) : Prop :=
  (0 ≤ x < head_ q)%Z ∧ ∀ t, ptick q pcs t = Some x → pcs t = NqPDone.

(** What each thread knows. *)
Definition nq_thread (q : lfq) (pcs : tid → nq_pc) (hist : list loc) (t : tid) (pc : nq_pc) : Prop :=
  let h := thr_head q (ThrId t) in
  let x := thr_tail q (ThrId t) in
  match pc with
  | NqPAnn _ h0 => (0 ≤ h0 ≤ head_ q)%Z
  | NqPDraw _ => (h ≤ head_ q)%Z
  | NqPSet p h0 => hist !! Z.to_nat h0 = Some p
  | NqPWhile p | NqPMin p | NqPBreak p => hist !! Z.to_nat h = Some p
  | NqPScan p min i => hist !! Z.to_nat h = Some p ∧ scan (tail_ q) ThrId (ctick q pcs) min i
  | NqPWrite p => hist !! Z.to_nat h = Some p ∧
      ∀ y, (0 ≤ y ≤ h - Q_SIZE)%Z → cserved q pcs y
  | NqCAnn h0 => (0 ≤ h0 ≤ tail_ q)%Z
  | NqCDraw => (x ≤ tail_ q)%Z
  | NqCScan min i => scan (head_ q) ThrId (ptick q pcs) min i
  | NqCRead => pserved q pcs x
  | NqCDone ret => pserved q pcs x ∧ ret = hist !! Z.to_nat x
  | _ => True
  end.

Record nq_inv (k : Z) (hist : list loc) (s : nq_state) : Prop := {
  ni_bound : (head_ (nq_q s) ≤ k ∧ tail_ (nq_q s) ≤ k)%Z;
  ni_hist : head_ (nq_q s) = length hist;
  ni_role : ∀ t, (prod_pc (nq_pcs s t) = true → producer t = true) ∧
                 (cons_pc (nq_pcs s t) = true → consumer t = true);
  ni_prod : side (head_ (nq_q s)) (thr_head (nq_q s)) ThrId n_producers (ptick (nq_q s) (nq_pcs s));
  ni_cons : side (tail_ (nq_q s)) (thr_tail (nq_q s)) ThrId n_consumers (ctick (nq_q s) (nq_pcs s));
  ni_lasth : (0 ≤ last_head_ (nq_q s))%Z ∧
    ∀ x, (0 ≤ x < last_head_ (nq_q s))%Z → pserved (nq_q s) (nq_pcs s) x;
  ni_lastt : (0 ≤ last_tail_ (nq_q s))%Z ∧
    ∀ x, (0 ≤ x < last_tail_ (nq_q s))%Z → cserved (nq_q s) (nq_pcs s) x;
  ni_threads : ∀ t, nq_thread (nq_q s) (nq_pcs s) hist t (nq_pcs s t);
  ni_window : ∀ x y, written (nq_q s) (nq_pcs s) x → (0 ≤ y ≤ x - Q_SIZE)%Z →
    cserved (nq_q s) (nq_pcs s) y;
  ni_order : ∀ x, cserved (nq_q s) (nq_pcs s) x → pserved (nq_q s) (nq_pcs s) x;
  ni_data : ∀ x, written (nq_q s) (nq_pcs s) x → ¬ cserved (nq_q s) (nq_pcs s) x →
    ptr_array_ (nq_q s) (x mod Q_SIZE)%Z = hist !! Z.to_nat x;
}.

(** What a step may do to what the other threads know. *)
Record nq_later (q : lfq) (pcs : tid → nq_pc) (hist : list loc)
    (q' : lfq) (pcs' : tid → nq_pc) (hist' : list loc) : Prop := {
  nl_prod : evolve (head_ q) (ptick q pcs) (head_ q') (ptick q' pcs');
  nl_cons : evolve (tail_ q) (ctick q pcs) (tail_ q') (ctick q' pcs');
  nl_hist : hist `prefix_of` hist';
}.

Lemma nq_thread_later q pcs hist q' pcs' hist' t pc :
  nq_later q pcs hist q' pcs' hist' →
  (prod_pc pc = true → thr_head q' (ThrId t) = thr_head q (ThrId t)) →
  (cons_pc pc = true → thr_tail q' (ThrId t) = thr_tail q (ThrId t)) →
  (∀ x, pserved q pcs x → (x < length hist)%Z) →
  nq_thread q pcs hist t pc → nq_thread q' pcs' hist' t pc.
Proof.
  intros [Hp Hc Hh] Hph Hpt Hlen. pose proof Hp as [Hp' _]. pose proof Hc as [Hc' _].
  destruct pc; simpl in *; try done; rewrite ?Hph, ?Hpt by done.
  - lia.
  - lia.
  - eauto using prefix_lookup_Some.
  - eauto using prefix_lookup_Some.
  - eauto using prefix_lookup_Some.
  - intros [??]. split; eauto using prefix_lookup_Some, scan_evolve.
  - eauto using prefix_lookup_Some.
  - intros [? Hs]. split; [by eauto using prefix_lookup_Some|]. eauto using served_evolve.
  - lia.
  - lia.
  - eauto using scan_evolve.
  - eauto using served_evolve.
  - intros [Hs ->]. split; [by eauto using served_evolve|].
    destruct (lookup_lt_is_Some_2 hist (Z.to_nat (thr_tail q (ThrId t)))) as [v Hv].
    { pose proof (Hlen _ Hs). destruct Hs as [? _]. lia. }
    rewrite Hv. symmetry. by eapply prefix_lookup_Some.
Qed.

(** *** Updating the invariant *)

Hypothesis prod_ids : ∀ t u, producer t = true → producer u = true → ThrId t = ThrId u → t = u.
Hypothesis cons_ids : ∀ t u, consumer t = true → consumer u = true → ThrId t = ThrId u → t = u.
Hypothesis prod_bound : ∀ t, producer t = true → ThrId t < n_producers.
Hypothesis cons_bound : ∀ t, consumer t = true → ThrId t < n_consumers.

Lemma land_mask j x : (0 ≤ j)%Z → Z.land x (Q_MASK (2 ^ j)) = (x mod 2 ^ j)%Z.
Proof. intros Hj. unfold Q_MASK. by rewrite Z.sub_1_r, <-Z.ones_equiv, Z.land_ones. Qed.

Lemma ptick_prod q pcs t x : ptick q pcs t = Some x → prod_pc (pcs t) = true.
Proof. unfold ptick. by destruct (pcs t). Qed.

Lemma ctick_cons q pcs t x : ctick q pcs t = Some x → cons_pc (pcs t) = true.
Proof. unfold ctick. by destruct (pcs t). Qed.

Section update.
Context (k : Z) (hist : list loc) (s : nq_state) (t : tid).
Hypothesis Hinv : nq_inv k hist s.
Abbreviation q := (nq_q s).
Abbreviation pcs := (nq_pcs s).

(** A producer writes only its own slot, so the other producers keep their
    positions. *)
Lemma thr_head_other q' u :
  thr_head q' = thr_head q ∨ (∃ h, thr_head q' = <[ThrId t := h]> (thr_head q) ∧ producer t = true) →
  u ≠ t → prod_pc (pcs u) = true → thr_head q' (ThrId u) = thr_head q (ThrId u).
Proof.
  intros [->|(h & -> & Ht)] Hne Hu; [done|]. rewrite fn_lookup_insert_ne; [done|].
  intros Heq. apply Hne. symmetry. apply prod_ids; [done| |done]. by apply Hinv.
Qed.

Lemma thr_tail_other q' u :
  thr_tail q' = thr_tail q ∨ (∃ h, thr_tail q' = <[ThrId t := h]> (thr_tail q) ∧ consumer t = true) →
  u ≠ t → cons_pc (pcs u) = true → thr_tail q' (ThrId u) = thr_tail q (ThrId u).
Proof.
  intros [->|(h & -> & Ht)] Hne Hu; [done|]. rewrite fn_lookup_insert_ne; [done|].
  intros Heq. apply Hne. symmetry. apply cons_ids; [done| |done]. by apply Hinv.
Qed.

Lemma ptick_other q' pc u :
  thr_head q' = thr_head q ∨ (∃ h, thr_head q' = <[ThrId t := h]> (thr_head q) ∧ producer t = true) →
  u ≠ t → ptick q' (<[t := pc]> pcs) u = ptick q pcs u.
Proof.
  intros Hq Hne. pose proof (thr_head_other q' u Hq Hne) as Heq. unfold ptick.
  rewrite fn_lookup_insert_ne by done. destruct (pcs u); simpl in *; try done; by rewrite Heq.
Qed.

Lemma ctick_other q' pc u :
  thr_tail q' = thr_tail q ∨ (∃ h, thr_tail q' = <[ThrId t := h]> (thr_tail q) ∧ consumer t = true) →
  u ≠ t → ctick q' (<[t := pc]> pcs) u = ctick q pcs u.
Proof.
  intros Hq Hne. pose proof (thr_tail_other q' u Hq Hne) as Heq. unfold ctick.
  rewrite fn_lookup_insert_ne by done. destruct (pcs u); simpl in *; try done; by rewrite Heq.
Qed.

Lemma pserved_hist x : pserved q pcs x → (x < length hist)%Z.
Proof. intros [? _]. rewrite <-(ni_hist _ _ _ Hinv). lia. Qed.

(** What has to be shown of a step of thread [t]. *)
Lemma nq_update q' pc hist' :
  nq_later q pcs hist q' (<[t := pc]> pcs) hist' →
  thr_head q' = thr_head q ∨ (∃ h, thr_head q' = <[ThrId t := h]> (thr_head q) ∧ producer t = true) →
  thr_tail q' = thr_tail q ∨ (∃ h, thr_tail q' = <[ThrId t := h]> (thr_tail q) ∧ consumer t = true) →
  (head_ q' ≤ k + 1 ∧ tail_ q' ≤ k + 1)%Z → head_ q' = length hist' →
  (prod_pc pc = true → producer t = true) ∧ (cons_pc pc = true → consumer t = true) →
  side (head_ q') (thr_head q') ThrId n_producers (ptick q' (<[t := pc]> pcs)) →
  side (tail_ q') (thr_tail q') ThrId n_consumers (ctick q' (<[t := pc]> pcs)) →
  ((0 ≤ last_head_ q')%Z ∧ ∀ x, (0 ≤ x < last_head_ q')%Z → pserved q' (<[t := pc]> pcs) x) →
  ((0 ≤ last_tail_ q')%Z ∧ ∀ x, (0 ≤ x < last_tail_ q')%Z → cserved q' (<[t := pc]> pcs) x) →
  nq_thread q' (<[t := pc]> pcs) hist' t pc →
  (∀ x y, written q' (<[t := pc]> pcs) x → (0 ≤ y ≤ x - Q_SIZE)%Z → cserved q' (<[t := pc]> pcs) y) →
  (∀ x, cserved q' (<[t := pc]> pcs) x → pserved q' (<[t := pc]> pcs) x) →
  (∀ x, written q' (<[t := pc]> pcs) x → ¬ cserved q' (<[t := pc]> pcs) x →
    ptr_array_ q' (x mod Q_SIZE)%Z = hist' !! Z.to_nat x) →
  nq_inv (k + 1) hist' (NqState q' (<[t := pc]> pcs)).
Proof.
  intros Hl Hth Htt Hb Hlen Hro Hsp Hsc Hlh Hlt Ht Hw Ho Hd. split; simpl; try done.
  - intros u. same_tid t u; [done|apply Hinv].
  - intros u. same_tid t u; [done|].
    eapply nq_thread_later; [done|by intros; apply thr_head_other|by intros; apply thr_tail_other
      |apply pserved_hist|apply Hinv].
Qed.

(** Steps that draw, finish, write and publish nothing. *)
Section quiet.
Context (q' : lfq) (pc : nq_pc).
Hypothesis Hh : head_ q' = head_ q.
Hypothesis Ht : tail_ q' = tail_ q.
Hypothesis Hthr : thr_head q' = thr_head q ∨
  (∃ h, thr_head q' = <[ThrId t := h]> (thr_head q) ∧ producer t = true).
Hypothesis Ttr : thr_tail q' = thr_tail q ∨
  (∃ h, thr_tail q' = <[ThrId t := h]> (thr_tail q) ∧ consumer t = true).
Hypothesis Hpt : ptick q' (<[t := pc]> pcs) t = ptick q pcs t.
Hypothesis Hct : ctick q' (<[t := pc]> pcs) t = ctick q pcs t.

Lemma quiet_ptick u : ptick q' (<[t := pc]> pcs) u = ptick q pcs u.
Proof. destruct (decide (u = t)) as [->|]; [done|]. by apply ptick_other. Qed.

Lemma quiet_ctick u : ctick q' (<[t := pc]> pcs) u = ctick q pcs u.
Proof. destruct (decide (u = t)) as [->|]; [done|]. by apply ctick_other. Qed.

Lemma quiet_pserved x : pserved q' (<[t := pc]> pcs) x ↔ pserved q pcs x.
Proof. unfold served. rewrite Hh. by setoid_rewrite quiet_ptick. Qed.

Lemma quiet_cserved x : cserved q' (<[t := pc]> pcs) x ↔ cserved q pcs x.
Proof. unfold served. rewrite Ht. by setoid_rewrite quiet_ctick. Qed.

Lemma quiet_written x :
  (pcs t = NqPDone ↔ pc = NqPDone) → written q' (<[t := pc]> pcs) x ↔ written q pcs x.
Proof.
  intros Hd. unfold written. rewrite Hh. setoid_rewrite quiet_ptick.
  split; intros [Hx Hw]; (split; [done|]); intros u Hu; specialize (Hw u Hu);
    destruct (decide (u = t)) as [->|Hne].
  - rewrite fn_lookup_insert in Hw. naive_solver.
  - by rewrite fn_lookup_insert_ne in Hw.
  - rewrite fn_lookup_insert. naive_solver.
  - by rewrite fn_lookup_insert_ne.
Qed.

Lemma quiet_later : nq_later q pcs hist q' (<[t := pc]> pcs) hist.
Proof.
  split; [| |done]; (split; [by rewrite ?Hh, ?Ht|]); intros u x _.
  - by rewrite quiet_ptick.
  - by rewrite quiet_ctick.
Qed.

Lemma nq_quiet :
  (last_head_ q' = last_head_ q ∨ (0 ≤ last_head_ q')%Z ∧
    ∀ x, (0 ≤ x < last_head_ q')%Z → pserved q pcs x) →
  (last_tail_ q' = last_tail_ q ∨ (0 ≤ last_tail_ q')%Z ∧
    ∀ x, (0 ≤ x < last_tail_ q')%Z → cserved q pcs x) →
  ptr_array_ q' = ptr_array_ q →
  (pcs t = NqPDone ↔ pc = NqPDone) →
  (prod_pc pc = true → producer t = true) ∧ (cons_pc pc = true → consumer t = true) →
  (∀ h, thr_head q' = <[ThrId t := h]> (thr_head q) →
    (0 ≤ h)%Z ∧ ∀ x, ptick q pcs t = Some x → (h ≤ x)%Z) →
  (∀ h, thr_tail q' = <[ThrId t := h]> (thr_tail q) →
    (0 ≤ h)%Z ∧ ∀ x, ctick q pcs t = Some x → (h ≤ x)%Z) →
  nq_thread q' (<[t := pc]> pcs) hist t pc →
  nq_inv (k + 1) hist (NqState q' (<[t := pc]> pcs)).
Proof.
  intros Hlh Hlt Har Hd Hro Hha Hta Hth.
  apply nq_update; try done.
  - apply quiet_later.
  - rewrite Hh, Ht. pose proof (ni_bound _ _ _ Hinv). lia.
  - rewrite Hh. apply Hinv.
  - rewrite Hh. eapply side_ext; [|apply quiet_ptick].
    destruct Hthr as [->|(h & Heq & Hpr)]; [apply Hinv|]. destruct (Hha h Heq) as [??]. rewrite Heq.
    apply side_ann; [apply Hinv| |done..]. intros u Hu Hid.
    destruct (ptick q pcs u) eqn:Hpu; [|done]. apply ptick_prod in Hpu.
    apply prod_ids; [by apply (ni_role _ _ _ Hinv)|done..].
  - rewrite Ht. eapply side_ext; [|apply quiet_ctick].
    destruct Ttr as [->|(h & Heq & Hpr)]; [apply Hinv|]. destruct (Hta h Heq) as [??]. rewrite Heq.
    apply side_ann; [apply Hinv| |done..]. intros u Hu Hid.
    destruct (ctick q pcs u) eqn:Hpu; [|done]. apply ctick_cons in Hpu.
    apply cons_ids; [by apply (ni_role _ _ _ Hinv)|done..].
  - setoid_rewrite quiet_pserved. destruct Hlh as [->|?]; [apply (ni_lasth _ _ _ Hinv)|done].
  - setoid_rewrite quiet_cserved. destruct Hlt as [->|?]; [apply (ni_lastt _ _ _ Hinv)|done].
  - intros x y Hw%quiet_written Hy; [|done]. apply quiet_cserved.
    by eapply (ni_window _ _ _ Hinv).
  - intros x. rewrite quiet_pserved, quiet_cserved. apply (ni_order _ _ _ Hinv).
  - intros x Hw%quiet_written; [|done]. rewrite quiet_cserved, Har. by apply (ni_data _ _ _ Hinv).
Qed.

Lemma quiet_thread :
  thr_head q' = thr_head q → thr_tail q' = thr_tail q →
  nq_thread q pcs hist t pc → nq_thread q' (<[t := pc]> pcs) hist t pc.
Proof.
  intros Heq Heq'. eapply nq_thread_later; [apply quiet_later|by rewrite Heq|by rewrite Heq'|].
  apply pserved_hist.
Qed.
End quiet.

Lemma nq_quiet_same pc :
  ptick q (<[t := pc]> pcs) t = ptick q pcs t → ctick q (<[t := pc]> pcs) t = ctick q pcs t →
  pcs t ≠ NqPDone → pc ≠ NqPDone →
  (prod_pc pc = true → producer t = true) ∧ (cons_pc pc = true → consumer t = true) →
  nq_thread q pcs hist t pc → nq_inv (k + 1) hist (NqState q (<[t := pc]> pcs)).
Proof.
  intros Hp Hc Hd1 Hd2 Hro Hth.
  assert (∀ (f : nat → Z) h, f = <[ThrId t := h]> f → f (ThrId t) = h) as Hself.
  { intros f h Heq. rewrite Heq. by simpl_fn. }
  apply nq_quiet; try done; try (by left).
  - intros h Heq%Hself. subst h. pose proof (ni_prod _ _ _ Hinv) as Hs. split; [apply Hs|].
    intros x Hx. by apply (sd_tick _ _ _ _ _ Hs) in Hx as (_ & ? & _).
  - intros h Heq%Hself. subst h. pose proof (ni_cons _ _ _ Hinv) as Hs. split; [apply Hs|].
    intros x Hx. by apply (sd_tick _ _ _ _ _ Hs) in Hx as (_ & ? & _).
  - apply quiet_thread; try done; by left.
Qed.

Hypothesis Q_pos : (0 < Q_SIZE ≤ 2 ^ 62)%Z.
Hypothesis k_small : (0 ≤ k < 2 ^ 62)%Z.
Hypothesis Q_land : ∀ x, Z.land x (Q_MASK Q_SIZE) = (x mod Q_SIZE)%Z.

(** The two counters the waits compare with do not wrap. *)
Lemma nq_last_tail : (0 ≤ last_tail_ q ≤ k)%Z.
Proof.
  destruct (ni_lastt _ _ _ Hinv) as [H0 Hl]. pose proof (ni_bound _ _ _ Hinv) as [_ ?].
  pose proof (sd_count _ _ _ _ _ (ni_cons _ _ _ Hinv)).
  destruct (decide (last_tail_ q ≤ tail_ q)%Z) as [|Hgt]; [lia|].
  destruct (Hl (tail_ q)) as [? _]; lia.
Qed.

Lemma nq_window_free p y :
  pcs t = NqPWhile p ∨ pcs t = NqPBreak p →
  (thr_head q (ThrId t) < u64 (last_tail_ q + Q_SIZE))%Z →
  (0 ≤ y ≤ thr_head q (ThrId t) - Q_SIZE)%Z → cserved q pcs y.
Proof.
  intros _ Hlt Hy. pose proof nq_last_tail. rewrite wrap_u_small in Hlt by lia.
  apply (ni_lastt _ _ _ Hinv). lia.
Qed.

(** The announcements of [push] and [pop]. *)
Lemma nq_announce_head h pc :
  producer t = true → prod_pc (pcs t) = true → prod_pc pc = true → pcs t ≠ NqPDone → pc ≠ NqPDone →
  (0 ≤ h)%Z → (∀ x, ptick q pcs t = Some x → (h ≤ x)%Z) →
  let q' := Lfq (head_ q) (tail_ q) (last_head_ q) (last_tail_ q)
              (<[ThrId t := h]> (thr_head q)) (thr_tail q) (ptr_array_ q) in
  ptick q' (<[t := pc]> pcs) t = ptick q pcs t → nq_thread q' (<[t := pc]> pcs) hist t pc →
  nq_inv (k + 1) hist (NqState q' (<[t := pc]> pcs)).
Proof.
  intros Hpr Hp1 Hp2 Hd1 Hd2 Hh Hx q' Hpt Hth. pose proof (ni_cons _ _ _ Hinv) as Hsc.
  assert (ctick q pcs t = None ∧ ctick q' (<[t := pc]> pcs) t = None) as [Hc1 Hc2].
  { unfold ctick. simpl_fn. by destruct (pcs t), pc. }
  apply nq_quiet; simpl; try done; try (by left); [right; eauto|by rewrite Hc1|..].
  - split; [done|by destruct pc].
  - intros h0 Heq. assert (h0 = h) as -> by (apply (f_equal (λ f, f (ThrId t))) in Heq; by simpl_fn). done.
  - intros h0 Heq. assert (thr_tail q (ThrId t) = h0) as <- by (rewrite Heq; by simpl_fn).
    split; [apply Hsc|]. by rewrite Hc1.
Qed.

Lemma nq_announce_tail h pc :
  consumer t = true → cons_pc (pcs t) = true → cons_pc pc = true →
  (0 ≤ h)%Z → (∀ x, ctick q pcs t = Some x → (h ≤ x)%Z) →
  let q' := Lfq (head_ q) (tail_ q) (last_head_ q) (last_tail_ q)
              (thr_head q) (<[ThrId t := h]> (thr_tail q)) (ptr_array_ q) in
  ctick q' (<[t := pc]> pcs) t = ctick q pcs t → nq_thread q' (<[t := pc]> pcs) hist t pc →
  nq_inv (k + 1) hist (NqState q' (<[t := pc]> pcs)).
Proof.
  intros Hpr Hp1 Hp2 Hh Hx q' Hpt Hth. pose proof (ni_prod _ _ _ Hinv) as Hsc.
  assert (ptick q pcs t = None ∧ ptick q' (<[t := pc]> pcs) t = None) as [Hc1 Hc2].
  { unfold ptick. simpl_fn. by destruct (pcs t), pc. }
  apply nq_quiet; simpl; try done; try (by left); [right; eauto|by rewrite Hc1|..].
  - split; intros Hd; [by rewrite Hd in Hp1|by rewrite Hd in Hp2].
  - split; [by destruct pc|done].
  - intros h0 Heq. assert (thr_head q (ThrId t) = h0) as <- by (rewrite Heq; by simpl_fn).
    split; [apply Hsc|]. by rewrite Hc1.
  - intros h0 Heq. assert (h0 = h) as -> by (apply (f_equal (λ f, f (ThrId t))) in Heq; by simpl_fn). done.
Qed.

Ltac nq_same H :=
  apply nq_quiet_same; unfold ptick, ctick; simpl_fn; rewrite ?H; simpl; try done.

(** The quiet steps of [push]. *)
Lemma nq_sim_push_quiet q' pc :
  push ThrId Q_SIZE n_consumers t q (pcs t) = Some (q', pc) → prod_pc (pcs t) = true →
  match pcs t with
  | NqPDraw _ | NqPWrite _ | NqPDone => False
  | NqPScan _ _ i => i < n_consumers
  | _ => True
  end →
  nq_inv (k + 1) hist (NqState q' (<[t := pc]> pcs)).
Proof.
  intros Hstep Hpc Hq. pose proof (ni_threads _ _ _ Hinv t) as Hth.
  pose proof (ni_role _ _ _ Hinv t) as [Hpr _]. specialize (Hpr Hpc).
  pose proof (ni_prod _ _ _ Hinv) as Hsp. pose proof (ni_cons _ _ _ Hinv) as Hsc.
  pose proof (sd_count _ _ _ _ _ Hsp) as Hcount. pose proof nq_window_free as Hfree.
  destruct (pcs t) as [|p|p h|p|p h|p|p|p min i|p|p| | | | | | | | | | | |] eqn:Hpct; try done;
    simpl in Hstep, Hth.
  - simplify_eq. nq_same Hpct.
  - simplify_eq. apply nq_announce_head; rewrite ?Hpct; try done; [lia|..].
    + intros x. unfold ptick. by rewrite Hpct.
    + unfold ptick. simpl_fn. by rewrite Hpct.
    + simpl. simpl_fn. lia.
  - simplify_eq. assert (ptick q pcs t = Some h) as Hpt by (unfold ptick; by rewrite Hpct).
    destruct (sd_tick _ _ _ _ _ Hsp t h Hpt) as ([??] & _ & _).
    apply nq_announce_head; rewrite ?Hpct; try done.
    + intros x Hx. rewrite Hpt in Hx. by simplify_eq.
    + unfold ptick. simpl_fn. rewrite Hpct. simpl. by simpl_fn.
    + simpl. by simpl_fn.
  - case_bool_decide as Hw; simplify_eq; nq_same Hpct.
    split; [done|]. intros y Hy. eapply Hfree; [by left|lia|done].
  - simplify_eq. nq_same Hpct. split; [done|]. by eapply scan_start.
  - rewrite bool_decide_eq_true_2 in Hstep by done. simplify_eq. nq_same Hpct.
    destruct Hth. split; [done|]. by eapply scan_next.
  - case_bool_decide as Hw; simplify_eq; nq_same Hpct.
    split; [done|]. intros y Hy. eapply Hfree; [by right|lia|done].
Qed.

(** The quiet steps of [pop]. *)
Lemma nq_sim_pop_quiet q' pc :
  pop ThrId Q_SIZE n_producers t q (pcs t) = Some (q', pc) → cons_pc (pcs t) = true →
  match pcs t with
  | NqCDraw | NqCDone _ => False
  | NqCScan _ i => i < n_producers
  | _ => True
  end →
  nq_inv (k + 1) hist (NqState q' (<[t := pc]> pcs)).
Proof.
  intros Hstep Hpc Hq. pose proof (ni_threads _ _ _ Hinv t) as Hth.
  pose proof (ni_role _ _ _ Hinv t) as [_ Hpr]. specialize (Hpr Hpc).
  pose proof (ni_prod _ _ _ Hinv) as Hsp. pose proof (ni_cons _ _ _ Hinv) as Hsc.
  pose proof (sd_count _ _ _ _ _ Hsc) as Hcount. pose proof (ni_lasth _ _ _ Hinv) as [_ Hlast].
  assert (∀ x, ctick q pcs t = Some x → (0 ≤ x < tail_ q)%Z) as Htick.
  { intros x Hx. by apply (sd_tick _ _ _ _ _ Hsc) in Hx as [? _]. }
  destruct (pcs t) as [| | | | | | | | | | |  |h| |h| | |min i| | | |] eqn:Hpct; try done;
    simpl in Hstep, Hth.
  - simplify_eq. nq_same Hpct.
  - simplify_eq. apply nq_announce_tail; rewrite ?Hpct; try done; [lia|..].
    + intros x. unfold ctick. by rewrite Hpct.
    + unfold ctick. simpl_fn. by rewrite Hpct.
    + simpl. simpl_fn. lia.
  - simplify_eq. assert (ctick q pcs t = Some h) as Hpt by (unfold ctick; by rewrite Hpct).
    specialize (Htick h Hpt). apply nq_announce_tail; rewrite ?Hpct; try done; [lia|..].
    + intros x Hx. rewrite Hpt in Hx. by simplify_eq.
    + unfold ctick. simpl_fn. rewrite Hpct. simpl. by simpl_fn.
  - assert ((0 ≤ thr_tail q (ThrId t))%Z) by apply Hsc.
    case_bool_decide as Hw; simplify_eq; nq_same Hpct. apply Hlast. lia.
  - simplify_eq. nq_same Hpct. by eapply scan_start.
  - rewrite bool_decide_eq_true_2 in Hstep by done. simplify_eq. nq_same Hpct. by eapply scan_next.
  - assert ((0 ≤ thr_tail q (ThrId t))%Z) by apply Hsc.
    case_bool_decide as Hw; simplify_eq; nq_same Hpct. apply Hlast. lia.
  - simplify_eq. nq_same Hpct. split; [done|]. rewrite Q_land. destruct Hth as [Hx Hno]. apply (ni_data _ _ _ Hinv).
    + split; [done|]. intros u Hu. by destruct (Hno u).
    + intros [_ Hact]. apply (Hact t). unfold ctick. by rewrite Hpct.
Qed.

(** The end of a scan. *)
Lemma nq_sim_scan_end_push p min i :
  pcs t = NqPScan p min i → n_consumers ≤ i →
  nq_inv (k + 1) hist (NqState (Lfq (head_ q) (tail_ q) (last_head_ q) min
    (thr_head q) (thr_tail q) (ptr_array_ q)) (<[t := NqPBreak p]> pcs)).
Proof.
  intros Hpct Hi. pose proof (ni_threads _ _ _ Hinv t) as Hth. rewrite Hpct in Hth. destruct Hth as [Hh Hs].
  pose proof (ni_role _ _ _ Hinv t) as [Hpr _]. rewrite Hpct in Hpr.
  pose proof (ni_prod _ _ _ Hinv) as Hsp. pose proof (ni_cons _ _ _ Hinv) as Hsc.
  assert (∀ (f : nat → Z) h, f = <[ThrId t := h]> f → f (ThrId t) = h) as Hself.
  { intros f h Heq. rewrite Heq. by simpl_fn. }
  apply nq_quiet; simpl; try done; try (by left); unfold ptick, ctick; simpl_fn; rewrite ?Hpct; try done.
  - right. split; [apply Hs|]. intros x Hx. by eapply scan_end.
  - intros h Heq%Hself. subst h. split; [apply Hsp|]. intros x [= <-]. lia.
  - intros h Heq%Hself. subst h. split; [apply Hsc|done].
Qed.

Lemma nq_sim_scan_end_pop min i :
  pcs t = NqCScan min i → n_producers ≤ i →
  nq_inv (k + 1) hist (NqState (Lfq (head_ q) (tail_ q) min (last_tail_ q)
    (thr_head q) (thr_tail q) (ptr_array_ q)) (<[t := NqCBreak]> pcs)).
Proof.
  intros Hpct Hi. pose proof (ni_threads _ _ _ Hinv t) as Hs. rewrite Hpct in Hs.
  pose proof (ni_role _ _ _ Hinv t) as [_ Hpr]. rewrite Hpct in Hpr.
  pose proof (ni_prod _ _ _ Hinv) as Hsp. pose proof (ni_cons _ _ _ Hinv) as Hsc.
  assert (∀ (f : nat → Z) h, f = <[ThrId t := h]> f → f (ThrId t) = h) as Hself.
  { intros f h Heq. rewrite Heq. by simpl_fn. }
  apply nq_quiet; simpl; try done; try (by left); unfold ptick, ctick; simpl_fn; rewrite ?Hpct; try done.
  - right. split; [apply Hs|]. intros x Hx. by eapply scan_end.
  - intros h Heq%Hself. subst h. split; [apply Hsp|done].
  - intros h Heq%Hself. subst h. split; [apply Hsc|]. intros x [= <-]. lia.
Qed.

(** A producer draws a position. *)
Lemma nq_sim_draw_push p :
  pcs t = NqPDraw p →
  nq_inv (k + 1) (hist ++ [p]) (NqState (Lfq (u64 (head_ q + 1)) (tail_ q) (last_head_ q) (last_tail_ q)
    (thr_head q) (thr_tail q) (ptr_array_ q)) (<[t := NqPSet p (head_ q)]> pcs)).
Proof.
  intros Hpct. set (pc := NqPSet p (head_ q)). set (q' := Lfq _ _ _ _ _ _ _).
  pose proof (ni_threads _ _ _ Hinv t) as Hth. rewrite Hpct in Hth. simpl in Hth.
  pose proof (ni_role _ _ _ Hinv t) as [Hpr _]. rewrite Hpct in Hpr. specialize (Hpr eq_refl).
  pose proof (ni_prod _ _ _ Hinv) as Hsp. pose proof (ni_bound _ _ _ Hinv) as [Hb1 Hb2].
  pose proof (sd_count _ _ _ _ _ Hsp) as Hcount. pose proof (ni_hist _ _ _ Hinv) as Hlen.
  assert (head_ q' = (head_ q + 1)%Z) as Hhd by (simpl; rewrite wrap_u_small; lia).
  assert (∀ u, u ≠ t → ptick q' (<[t := pc]> pcs) u = ptick q pcs u) as Hpo.
  { intros u Hu. apply ptick_other; [by left|done]. }
  assert (∀ u, ctick q' (<[t := pc]> pcs) u = ctick q pcs u) as Hct.
  { intros u. destruct (decide (u = t)) as [->|]; [unfold ctick; simpl_fn; by rewrite Hpct|].
    apply ctick_other; [by left|done]. }
  destruct (side_draw _ _ _ _ _ Hsp t (ptick q' (<[t := pc]> pcs))) as [Hsp' Hev];
    [done|by apply prod_bound|unfold ptick; by simpl_fn|done|].
  specialize (Hev ltac:(unfold ptick; by rewrite Hpct)).
  assert (∀ x, cserved q' (<[t := pc]> pcs) x ↔ cserved q pcs x) as Hcs.
  { intros x. unfold served. by setoid_rewrite Hct. }
  assert (∀ x, pserved q pcs x → pserved q' (<[t := pc]> pcs) x) as Hps.
  { intros x. rewrite Hhd. by apply served_evolve. }
  assert (∀ x, written q' (<[t := pc]> pcs) x → written q pcs x) as Hwr.
  { intros x [Hx Hw]. rewrite Hhd in Hx. assert (x ≠ head_ q).
    { intros ->. specialize (Hw t). rewrite fn_lookup_insert in Hw. unfold ptick in Hw.
      rewrite fn_lookup_insert in Hw. by specialize (Hw eq_refl). }
    split; [lia|]. intros u Hu. destruct (decide (u = t)) as [->|Hne].
    - unfold ptick in Hu. by rewrite Hpct in Hu.
    - specialize (Hw u). rewrite Hpo, fn_lookup_insert_ne in Hw by done. auto. }
  apply nq_update; try done; try (by left).
  - split; [by rewrite Hhd|split; [done|]; intros u x _; by rewrite Hct|by apply prefix_app_r].
  - rewrite Hhd. change (tail_ q') with (tail_ q). lia.
  - rewrite Hhd, length_app. simpl. lia.
  - by rewrite Hhd.
  - eapply side_ext; [apply Hinv|]. apply Hct.
  - destruct (ni_lasth _ _ _ Hinv) as [? Hl]. split; [done|]. auto.
  - setoid_rewrite Hcs. apply (ni_lastt _ _ _ Hinv).
  - simpl. rewrite lookup_app_r by lia. by replace (Z.to_nat (head_ q) - length hist) with 0 by lia.
  - intros x y Hw%Hwr Hy. rewrite Hcs. by eapply (ni_window _ _ _ Hinv).
  - intros x Hx%Hcs. by apply Hps, (ni_order _ _ _ Hinv).
  - intros x Hw%Hwr. rewrite Hcs. intros Hn. rewrite lookup_app_l by (destruct Hw; lia).
    by apply (ni_data _ _ _ Hinv).
Qed.

(** A consumer draws a position. *)
Lemma nq_sim_draw_pop :
  pcs t = NqCDraw →
  nq_inv (k + 1) hist (NqState (Lfq (head_ q) (u64 (tail_ q + 1)) (last_head_ q) (last_tail_ q)
    (thr_head q) (thr_tail q) (ptr_array_ q)) (<[t := NqCSet (tail_ q)]> pcs)).
Proof.
  intros Hpct. set (pc := NqCSet (tail_ q)). set (q' := Lfq _ _ _ _ _ _ _).
  pose proof (ni_threads _ _ _ Hinv t) as Hth. rewrite Hpct in Hth. simpl in Hth.
  pose proof (ni_role _ _ _ Hinv t) as [_ Hpr]. rewrite Hpct in Hpr. specialize (Hpr eq_refl).
  pose proof (ni_cons _ _ _ Hinv) as Hsc. pose proof (ni_bound _ _ _ Hinv) as [Hb1 Hb2].
  pose proof (sd_count _ _ _ _ _ Hsc) as Hcount.
  assert (tail_ q' = (tail_ q + 1)%Z) as Htl by (simpl; rewrite wrap_u_small; lia).
  assert (∀ u, u ≠ t → ctick q' (<[t := pc]> pcs) u = ctick q pcs u) as Hco.
  { intros u Hu. apply ctick_other; [by left|done]. }
  assert (∀ u, ptick q' (<[t := pc]> pcs) u = ptick q pcs u) as Hpt.
  { intros u. destruct (decide (u = t)) as [->|]; [unfold ptick; simpl_fn; by rewrite Hpct|].
    apply ptick_other; [by left|done]. }
  destruct (side_draw _ _ _ _ _ Hsc t (ctick q' (<[t := pc]> pcs))) as [Hsc' Hev];
    [done|by apply cons_bound|unfold ctick; by simpl_fn|done|].
  specialize (Hev ltac:(unfold ctick; by rewrite Hpct)).
  assert (∀ x, pserved q' (<[t := pc]> pcs) x ↔ pserved q pcs x) as Hps.
  { intros x. unfold served. by setoid_rewrite Hpt. }
  assert (∀ x, cserved q' (<[t := pc]> pcs) x ↔ cserved q pcs x) as Hcs.
  { intros x. rewrite Htl. split; [|by apply served_evolve]. intros [Hx Hw].
    assert (x ≠ tail_ q) by (intros ->; apply (Hw t); unfold ctick; by simpl_fn).
    split; [lia|]. intros u Hu. destruct (decide (u = t)) as [->|Hne].
    - unfold ctick in Hu. by rewrite Hpct in Hu.
    - apply (Hw u). by rewrite Hco. }
  assert (∀ x, written q' (<[t := pc]> pcs) x → written q pcs x) as Hwr.
  { intros x [Hx Hw]. split; [done|]. intros u Hu. specialize (Hw u).
    rewrite Hpt in Hw. specialize (Hw Hu). by same_tid t u. }
  apply nq_update; try done; try (by left).
  - split; [split; [done|]; intros u x _; by rewrite Hpt|by rewrite Htl|done].
  - rewrite Htl. change (head_ q') with (head_ q). lia.
  - apply Hinv.
  - eapply side_ext; [apply Hinv|]. apply Hpt.
  - by rewrite Htl.
  - setoid_rewrite Hps. apply (ni_lasth _ _ _ Hinv).
  - setoid_rewrite Hcs. apply (ni_lastt _ _ _ Hinv).
  - intros x y Hw%Hwr Hy. rewrite Hcs. by eapply (ni_window _ _ _ Hinv).
  - intros x. rewrite Hps, Hcs. apply (ni_order _ _ _ Hinv).
  - intros x Hw%Hwr. rewrite Hcs. by apply (ni_data _ _ _ Hinv).
Qed.

(** Two positions share a slot only if a full turn lies between them. *)
Lemma same_slot x y : (x mod Q_SIZE = y mod Q_SIZE → x < y → x ≤ y - Q_SIZE)%Z.
Proof.
  intros Heq Hlt. pose proof (Z.div_mod x Q_SIZE ltac:(lia)). pose proof (Z.div_mod y Q_SIZE ltac:(lia)).
  assert (x / Q_SIZE < y / Q_SIZE)%Z by nia. nia.
Qed.

(** The store into the slot. *)
Lemma nq_sim_write p :
  pcs t = NqPWrite p →
  nq_inv (k + 1) hist (NqState (Lfq (head_ q) (tail_ q) (last_head_ q) (last_tail_ q) (thr_head q)
    (thr_tail q) (<[Z.land (thr_head q (ThrId t)) (Q_MASK Q_SIZE) := Some p]> (ptr_array_ q)))
    (<[t := NqPDone]> pcs)).
Proof.
  intros Hpct. rewrite Q_land. set (h := thr_head q (ThrId t)). set (q' := Lfq _ _ _ _ _ _ _).
  pose proof (ni_threads _ _ _ Hinv t) as Hth. rewrite Hpct in Hth. destruct Hth as [Hp Hfree].
  pose proof (ni_role _ _ _ Hinv t) as [Hpr _]. rewrite Hpct in Hpr. specialize (Hpr eq_refl).
  assert (ptick q pcs t = Some h) as Hpt by (unfold ptick; by rewrite Hpct).
  assert (ptick q' (<[t := NqPDone]> pcs) t = ptick q pcs t) as Hpt'.
  { rewrite Hpt. unfold ptick. by simpl_fn. }
  assert (ctick q' (<[t := NqPDone]> pcs) t = ctick q pcs t) as Hct'.
  { unfold ctick. simpl_fn. by rewrite Hpct. }
  pose proof (quiet_ptick q' NqPDone (or_introl eq_refl) Hpt') as Hpa.
  pose proof (quiet_ctick q' NqPDone (or_introl eq_refl) Hct') as Hca.
  pose proof (quiet_pserved q' NqPDone eq_refl (or_introl eq_refl) Hpt') as Hps.
  pose proof (quiet_cserved q' NqPDone eq_refl (or_introl eq_refl) Hct') as Hcs.
  destruct (sd_tick _ _ _ _ _ (ni_prod _ _ _ Hinv) t h Hpt) as ([Hh0 Hh1] & _ & _).
  assert (∀ x, written q' (<[t := NqPDone]> pcs) x → x = h ∨ x ≠ h ∧ written q pcs x) as Hwr.
  { intros x [Hx Hw]. destruct (decide (x = h)) as [|Hne]; [by left|right].
    split; [done|]. split; [done|]. intros u Hu. specialize (Hw u). rewrite Hpa in Hw.
    specialize (Hw Hu). by same_tid t u; simplify_eq. }
  assert (¬ pserved q pcs h) as Hnot by (intros [_ Hno]; by apply (Hno t)).
  apply nq_update; try done; try (by left).
  - by apply quiet_later; try (by left).
  - pose proof (ni_bound _ _ _ Hinv). simpl. lia.
  - apply Hinv.
  - eapply side_ext; [apply Hinv|]. apply Hpa.
  - eapply side_ext; [apply Hinv|]. apply Hca.
  - setoid_rewrite Hps. apply (ni_lasth _ _ _ Hinv).
  - setoid_rewrite Hcs. apply (ni_lastt _ _ _ Hinv).
  - intros x y [->|[_ Hw]]%Hwr Hy; rewrite Hcs; [by apply Hfree|]. by eapply (ni_window _ _ _ Hinv).
  - intros x. rewrite Hps, Hcs. apply (ni_order _ _ _ Hinv).
  - intros x [->|[Hne Hw]]%Hwr; rewrite Hcs; intros Hn; simpl.
    + by rewrite fn_lookup_insert.
    + rewrite fn_lookup_insert_ne; [by apply (ni_data _ _ _ Hinv)|]. intros Heq.
      destruct (decide (x < h)%Z).
      * apply Hn, Hfree. split; [apply Hw|]. by apply same_slot.
      * apply Hnot, (ni_order _ _ _ Hinv), (ni_window _ _ _ Hinv x); [done|].
        split; [done|]. apply same_slot; [done|]. lia.
Qed.

(** [thr_pos().head = ULONG_MAX]. *)
Lemma nq_sim_finish_push :
  pcs t = NqPDone →
  nq_inv (k + 1) hist (NqState (Lfq (head_ q) (tail_ q) (last_head_ q) (last_tail_ q)
    (<[ThrId t := ULONG_MAX]> (thr_head q)) (thr_tail q) (ptr_array_ q)) (<[t := NqIdle]> pcs)).
Proof.
  intros Hpct. set (q' := Lfq _ _ _ _ _ _ _).
  pose proof (ni_role _ _ _ Hinv t) as [Hpr _]. rewrite Hpct in Hpr. specialize (Hpr eq_refl).
  assert (∀ u, u ≠ t → ptick q' (<[t := NqIdle]> pcs) u = ptick q pcs u) as Hpo.
  { intros u Hu. apply ptick_other; [by right; eauto|done]. }
  assert (ptick q' (<[t := NqIdle]> pcs) t = None) as Hpt by (unfold ptick; by simpl_fn).
  assert (∀ u, ctick q' (<[t := NqIdle]> pcs) u = ctick q pcs u) as Hct.
  { intros u. destruct (decide (u = t)) as [->|]; [unfold ctick; simpl_fn; by rewrite Hpct|].
    apply ctick_other; [by left|done]. }
  assert (evolve (head_ q) (ptick q pcs) (head_ q) (ptick q' (<[t := NqIdle]> pcs))) as Hev.
  { split; [done|]. intros u x _ Hu. destruct (decide (u = t)) as [->|]; [congruence|]. by rewrite <-Hpo. }
  assert (∀ x, cserved q' (<[t := NqIdle]> pcs) x ↔ cserved q pcs x) as Hcs.
  { intros x. unfold served. by setoid_rewrite Hct. }
  assert (∀ x, pserved q pcs x → pserved q' (<[t := NqIdle]> pcs) x) as Hps.
  { intros x. by apply served_evolve. }
  assert (∀ x, written q' (<[t := NqIdle]> pcs) x → written q pcs x) as Hwr.
  { intros x [Hx Hw]. split; [done|]. intros u Hu. destruct (decide (u = t)) as [->|Hne]; [done|].
    specialize (Hw u). rewrite Hpo, fn_lookup_insert_ne in Hw by done. auto. }
  apply nq_update; try done; try (by left).
  - split; [done|split; [done|]; intros u x _; by rewrite Hct|done].
  - right; eauto.
  - pose proof (ni_bound _ _ _ Hinv). simpl. lia.
  - apply Hinv.
  - simpl. apply side_ann; [eapply side_finish; [apply Hinv|done|done]| |unfold ULONG_MAX; lia|congruence].
    intros u Hu Hid. destruct (decide (u = t)) as [|Hne]; [done|].
    rewrite Hpo in Hu by done. destruct (ptick q pcs u) eqn:Hpu; [|done]. apply ptick_prod in Hpu.
    apply prod_ids; [by apply (ni_role _ _ _ Hinv)|done..].
  - eapply side_ext; [apply Hinv|]. apply Hct.
  - destruct (ni_lasth _ _ _ Hinv) as [? Hl]. split; [done|]. auto.
  - setoid_rewrite Hcs. apply (ni_lastt _ _ _ Hinv).
  - intros x y Hw%Hwr Hy. rewrite Hcs. by eapply (ni_window _ _ _ Hinv).
  - intros x Hx%Hcs. by apply Hps, (ni_order _ _ _ Hinv).
  - intros x Hw%Hwr. rewrite Hcs. by apply (ni_data _ _ _ Hinv).
Qed.

(** [thr_pos().tail = ULONG_MAX]. *)
Lemma nq_sim_finish_pop ret :
  pcs t = NqCDone ret →
  nq_inv (k + 1) hist (NqState (Lfq (head_ q) (tail_ q) (last_head_ q) (last_tail_ q)
    (thr_head q) (<[ThrId t := ULONG_MAX]> (thr_tail q)) (ptr_array_ q)) (<[t := NqCRet ret]> pcs)).
Proof.
  intros Hpct. set (q' := Lfq _ _ _ _ _ _ _). set (pc := NqCRet ret).
  pose proof (ni_threads _ _ _ Hinv t) as Hth. rewrite Hpct in Hth. destruct Hth as [Hsv _].
  pose proof (ni_role _ _ _ Hinv t) as [_ Hpr]. rewrite Hpct in Hpr. specialize (Hpr eq_refl).
  assert (ctick q pcs t = Some (thr_tail q (ThrId t))) as Hct0 by (unfold ctick; by rewrite Hpct).
  assert (∀ u, u ≠ t → ctick q' (<[t := pc]> pcs) u = ctick q pcs u) as Hco.
  { intros u Hu. apply ctick_other; [by right; eauto|done]. }
  assert (ctick q' (<[t := pc]> pcs) t = None) as Hct by (unfold ctick; by simpl_fn).
  assert (∀ u, ptick q' (<[t := pc]> pcs) u = ptick q pcs u) as Hpt.
  { intros u. destruct (decide (u = t)) as [->|]; [unfold ptick; simpl_fn; by rewrite Hpct|].
    apply ptick_other; [by left|done]. }
  assert (evolve (tail_ q) (ctick q pcs) (tail_ q) (ctick q' (<[t := pc]> pcs))) as Hev.
  { split; [done|]. intros u x _ Hu. destruct (decide (u = t)) as [->|]; [congruence|]. by rewrite <-Hco. }
  assert (∀ x, pserved q' (<[t := pc]> pcs) x ↔ pserved q pcs x) as Hps.
  { intros x. unfold served. by setoid_rewrite Hpt. }
  assert (∀ x, cserved q pcs x → cserved q' (<[t := pc]> pcs) x) as Hcs.
  { intros x. by apply served_evolve. }
  assert (∀ x, written q' (<[t := pc]> pcs) x → written q pcs x) as Hwr.
  { intros x [Hx Hw]. split; [done|]. intros u Hu. specialize (Hw u).
    rewrite Hpt in Hw. specialize (Hw Hu). by same_tid t u. }
  apply nq_update; try done; try (by left).
  - split; [split; [done|]; intros u x _; by rewrite Hpt|done|done].
  - right; eauto.
  - pose proof (ni_bound _ _ _ Hinv). simpl. lia.
  - apply Hinv.
  - eapply side_ext; [apply Hinv|]. apply Hpt.
  - simpl. apply side_ann; [eapply side_finish; [apply Hinv|done|done]| |unfold ULONG_MAX; lia|congruence].
    intros u Hu Hid. destruct (decide (u = t)) as [|Hne]; [done|].
    rewrite Hco in Hu by done. destruct (ctick q pcs u) eqn:Hpu; [|done]. apply ctick_cons in Hpu.
    apply cons_ids; [by apply (ni_role _ _ _ Hinv)|done..].
  - setoid_rewrite Hps. apply (ni_lasth _ _ _ Hinv).
  - destruct (ni_lastt _ _ _ Hinv) as [? Hl]. split; [done|]. auto.
  - intros x y Hw%Hwr Hy. apply Hcs. by eapply (ni_window _ _ _ Hinv).
  - intros x [Hx Hno]. rewrite Hps. destruct (decide (x = thr_tail q (ThrId t))) as [->|Hne]; [done|].
    apply (ni_order _ _ _ Hinv). split; [done|]. intros u Hu.
    destruct (decide (u = t)) as [->|]; [congruence|]. apply (Hno u). by rewrite Hco.
  - intros x Hw%Hwr Hn. apply (ni_data _ _ _ Hinv); auto.
Qed.
End update.

(** *** Every step *)

Hypothesis Q_pos : (0 < Q_SIZE ≤ 2 ^ 62)%Z.
Hypothesis Q_land : ∀ x, Z.land x (Q_MASK Q_SIZE) = (x mod Q_SIZE)%Z.

Abbreviation step := (nq_step ThrId Q_SIZE n_producers n_consumers producer consumer).

Lemma nq_sim k hist l s s' :
  nq_inv k hist s → (0 ≤ k < 2 ^ 62)%Z → step l s = Some s' →
  nq_inv (k + 1)
    (hist ++ match nq_pcs s l.1, l.2 with NqPDraw p, NqRun => [p] | _, _ => [] end) s'.
Proof.
  intros Hinv Hk Hstep. destruct l as [t lb]. unfold nq_step in Hstep. simpl.
  pose proof (nq_sim_push_quiet k hist s t Hinv Q_pos Hk) as Hpush.
  pose proof (nq_sim_pop_quiet k hist s t Hinv Q_land) as Hpop.
  destruct (nq_pcs s t) as [|p|p h|p|p h|p|p|p min i|p|p| | |h| |h| | |min i| | |r|r] eqn:Hpct,
    lb as [m| |]; try done; rewrite ?app_nil_r;
    try (destruct (push _ _ _ _ _ _) as [[q' pc']|] eqn:Hp; [|done]; simplify_eq; by eapply Hpush);
    try (destruct (pop _ _ _ _ _ _) as [[q' pc']|] eqn:Hp; [|done]; simplify_eq; by eapply Hpop).
  - destruct (producer t) eqn:Hr; simplify_eq.
    apply nq_quiet_same; unfold ptick, ctick; simpl_fn; rewrite ?Hpct; done.
  - destruct (consumer t) eqn:Hr; simplify_eq.
    apply nq_quiet_same; unfold ptick, ctick; simpl_fn; rewrite ?Hpct; done.
  - simpl in Hstep. simplify_eq. by apply nq_sim_draw_push.
  - destruct (decide (i < n_consumers)) as [Hi|Hi].
    + destruct (push _ _ _ _ _ _) as [[q' pc']|] eqn:Hp; [|done]. simplify_eq. by eapply Hpush.
    + simpl in Hstep. rewrite bool_decide_eq_false_2 in Hstep by done. simplify_eq.
      eapply nq_sim_scan_end_push; [done..|lia].
  - simpl in Hstep. simplify_eq. by apply nq_sim_write.
  - simpl in Hstep. simplify_eq. by apply nq_sim_finish_push.
  - simpl in Hstep. simplify_eq. by apply nq_sim_draw_pop.
  - destruct (decide (i < n_producers)) as [Hi|Hi].
    + destruct (pop _ _ _ _ _ _) as [[q' pc']|] eqn:Hp; [|done]. simplify_eq. by eapply Hpop.
    + simpl in Hstep. rewrite bool_decide_eq_false_2 in Hstep by done. simplify_eq.
      eapply nq_sim_scan_end_pop; [done..|lia].
  - simpl in Hstep. simplify_eq. by apply nq_sim_finish_pop.
  - simplify_eq. apply nq_quiet_same; unfold ptick, ctick; simpl_fn; rewrite ?Hpct; done.
Qed.

Lemma nq_inv_start slots : nq_inv 0 [] (NqState (LockFreeQueue slots) (λ _, NqIdle)).
Proof.
  split; simpl; try done; try lia.
  - intros x y [Hx _]. simpl in Hx. lia.
  - intros x [Hx _]. simpl in Hx. lia.
Qed.

Lemma nq_run_inv ls k hist s s' :
  nq_inv k hist s → (0 ≤ k)%Z → (k + length ls ≤ 2 ^ 62)%Z →
  @run _ _ (natsys_lts ThrId Q_SIZE n_producers n_consumers producer consumer) ls s = Some s' →
  nq_inv (k + length ls)
    (hist ++ drawn ThrId Q_SIZE n_producers n_consumers producer consumer ls s) s'.
Proof.
  revert k hist s. induction ls as [|l ls IH]; intros k hist s Hinv Hk Hb Hrun; simpl in *.
  { simplify_eq. by rewrite Z.add_0_r, app_nil_r. }
  destruct (step l s) as [s1|] eqn:Hstep; [|done].
  rewrite (assoc_L (++)).
  replace (k + S (length ls))%Z with (k + 1 + length ls)%Z by lia.
  apply IH; [|lia..|done]. by apply nq_sim; [|lia|].
Qed.
End proofs.

(** ** Theorems *)

(** C14: a ring of [2^j] slots used by threads whose identifiers are distinct
    within their role delivers by position: in a run of at most [2^62] steps, a
    [pop] that is about to return hands out the pointer whose [push] drew the
    position this [pop] drew, and no two such [pop]s have the same position. *)
Theorem natsys_delivery (ThrId : tid → nat) (j : Z) (n_producers n_consumers : nat)
    (producer consumer : tid → bool) ls slots s :
  (0 ≤ j ≤ 62)%Z →
  (∀ t u, producer t = true → producer u = true → ThrId t = ThrId u → t = u) →
  (∀ t u, consumer t = true → consumer u = true → ThrId t = ThrId u → t = u) →
  (∀ t, producer t = true → ThrId t < n_producers) →
  (∀ t, consumer t = true → ThrId t < n_consumers) →
  (length ls ≤ 2 ^ 62)%Z →
  @run _ _ (natsys_lts ThrId (2 ^ j) n_producers n_consumers producer consumer) ls
    (NqState (LockFreeQueue slots) (λ _, NqIdle)) = Some s →
  ∀ t r, nq_pcs s t = NqCDone r →
    r = drawn ThrId (2 ^ j) n_producers n_consumers producer consumer ls
          (NqState (LockFreeQueue slots) (λ _, NqIdle)) !! Z.to_nat (thr_tail (nq_q s) (ThrId t)) ∧
    (∃ p, r = Some p) ∧
    ∀ u r', nq_pcs s u = NqCDone r' →
      thr_tail (nq_q s) (ThrId u) = thr_tail (nq_q s) (ThrId t) → u = t.
Proof.
  intros Hj Hp Hc Hpb Hcb Hlen Hrun t r Hpc.
  assert (0 < 2 ^ j ≤ 2 ^ 62)%Z as HQ.
  { split; [apply Z.pow_pos_nonneg; lia|apply Z.pow_le_mono_r; lia]. }
  pose proof (nq_run_inv ThrId (2 ^ j) n_producers n_consumers producer consumer Hp Hc Hpb Hcb HQ
    (λ x, land_mask j x (proj1 Hj)) ls 0 [] _ s
    (nq_inv_start ThrId (2 ^ j) n_producers n_consumers producer consumer slots)
    ltac:(lia) ltac:(lia) Hrun) as Hinv.
  pose proof (ni_threads _ _ _ _ _ _ _ _ _ Hinv t) as Hth. rewrite Hpc in Hth.
  destruct Hth as [Hsv ->]. split; [done|]. split.
  - destruct Hsv as [Hx _]. rewrite (ni_hist _ _ _ _ _ _ _ _ _ Hinv) in Hx.
    apply lookup_lt_is_Some_2. lia.
  - intros u r' Hu Heq. eapply (sd_inj _ _ _ _ _ (ni_cons _ _ _ _ _ _ _ _ _ Hinv)).
    + unfold ctick. by rewrite Hu.
    + unfold ctick. by rewrite Hpc, Heq.
Qed.

Definition nq_start : nq_state := NqState (LockFreeQueue (λ _, None)) (λ _, NqIdle).

(** A [push] and a [pop] that run alone, the latter up to its last store. *)
Definition nq_push_run (t : tid) (p : loc) : list (tid * nq_label) :=
  (t, NqCallPush p) :: replicate 7 (t, NqRun).
Definition nq_pop_run (t : tid) : list (tid * nq_label) := (t, NqCallPop) :: replicate 10 (t, NqRun).

(** Thread 0 produces, thread 1 consumes; both have identifier 0 in their
    role. *)
Definition is0 (t : tid) : bool := bool_decide (t = 0).
Definition is1 (t : tid) : bool := bool_decide (t = 1).

Definition nq_example_schedule : list (tid * nq_label) :=
  nq_push_run 0 5%positive ++ nq_push_run 0 6%positive ++ nq_pop_run 1.

Definition nq_example_end : nq_state :=
  default nq_start (@run _ _ (natsys_lts (λ _, 0) (2 ^ 1) 1 1 is0 is1) nq_example_schedule nq_start).

Lemma natsys_delivery_witness :
  nq_pcs nq_example_end 1 = NqCDone (Some 5%positive) ∧
  Some 5%positive = drawn (λ _, 0) (2 ^ 1) 1 1 is0 is1 nq_example_schedule nq_start
    !! Z.to_nat (thr_tail (nq_q nq_example_end) 0).
Proof.
  split; [vm_compute; reflexivity|].
  refine (proj1 (natsys_delivery (λ _, 0) 1 1 1 is0 is1 nq_example_schedule (λ _, None)
    nq_example_end _ _ _ _ _ _ _ 1 (Some 5%positive) _)).
  - lia.
  - unfold is0. intros t u Ht Hu _. apply bool_decide_eq_true in Ht, Hu. congruence.
  - unfold is1. intros t u Ht Hu _. apply bool_decide_eq_true in Ht, Hu. congruence.
  - intros. lia.
  - intros. lia.
  - vm_compute. discriminate.
  - vm_compute. reflexivity.
  - vm_compute. reflexivity.
Defined.

(** The schedule that shows what a mask that is not all ones does: 129 pushes,
    then a pop. *)
Definition clash_schedule : list (tid * nq_label) :=
  flat_map (λ i, nq_push_run 0 (Pos.of_nat i)) (seq 1 129) ++ nq_pop_run 1.

(** Two producers share one announcement: both write to position 1. *)
Definition shared_id_schedule : list (tid * nq_label) :=
  (0, NqCallPush 5%positive) :: replicate 4 (0, NqRun) ++
  (1, NqCallPush 6%positive) :: replicate 5 (1, NqRun) ++
  [(0, NqRun); (1, NqRun); (0, NqRun); (1, NqRun); (0, NqRun)] ++
  (2, NqCallPop) :: replicate 11 (2, NqRun).

Definition below2 (t : tid) : bool := bool_decide (t < 2).
Definition is2 (t : tid) : bool := bool_decide (t = 2).

(** C23: as [src/natsys_q.h] uses it, the queue is broken in two ways.  With
    [Q_SIZE = 10000000] one producer overwrites position 0 with its 129th
    message although the ring is almost empty, and [pop] delivers that one in
    place of the first.  With the identifier 0 that every thread has when
    [set_thr_id] is not called, two producers that have both returned leave
    position 0 unwritten, and [pop] delivers what the memory held before. *)
Theorem natsys_q_broken :
  (∃ s, @run _ _ (natsys_lts (λ _, 0) NATSYS_Q_SIZE 1 1 is0 is1) clash_schedule nq_start = Some s ∧
    drawn (λ _, 0) NATSYS_Q_SIZE 1 1 is0 is1 clash_schedule nq_start !! 0 = Some 1%positive ∧
    thr_tail (nq_q s) 0 = 0%Z ∧ nq_pcs s 1 = NqCDone (Some 129%positive)) ∧
  (∃ s, @run _ _ (natsys_lts (λ _, 0) QUEUE_SIZE 2 1 below2 is2) shared_id_schedule nq_start = Some s ∧
    drawn (λ _, 0) QUEUE_SIZE 2 1 below2 is2 shared_id_schedule nq_start = [5; 6]%positive ∧
    thr_tail (nq_q s) 0 = 0%Z ∧ nq_pcs s 0 = NqIdle ∧ nq_pcs s 1 = NqIdle ∧ nq_pcs s 2 = NqCDone None).
Proof.
  split.
  - exists (default nq_start (@run _ _ (natsys_lts (λ _, 0) NATSYS_Q_SIZE 1 1 is0 is1) clash_schedule nq_start)).
    by vm_compute.
  - exists (default nq_start (@run _ _ (natsys_lts (λ _, 0) QUEUE_SIZE 2 1 below2 is2) shared_id_schedule nq_start)).
    by vm_compute.
Qed.
