(* ===== verification/Bench.v ===== *)
(** * The benchmark harness

    [src/lockrate.c], [src/qrate.cc] and [src/alloc_rate.cc] are three
    versions of one program: [main] creates producers and consumers, bound to
    cores, that share one barrier, one counter [g_done] and one queue for each
    consumer.  This file holds what they share: the data, the effects a thread
    can have (as values of type [act]) and the interleaving semantics that
    gives those effects their meaning.  The three programs are in their own
    files; each is a function from the point a thread has reached to its next
    effect.

    The queue is a parameter: any implementation of the interface of
    [QueueSpec], taking its own steps inside a call. *)

From Stdlib Require Export Ascii.
From stdpp Require Export strings.
From S2P Require Import Prelude Lts QueueSpec.

Local Open Scope Z_scope.

(** ** Data *)

Definition PRINT_BATCH : Z := 2.
Definition BULK_DEQUEUE : Z := 524288.

(** [obj] is the logical index of the core; [extra_alloc] exists in
    [alloc_rate.cc] only. *)
Record thread_data_t := ThreadData {
  index : Z;
  obj : Z;
  nconsumers : Z;
  nproducers : Z;
  messages_per_thread : Z;
  total_messages : Z;
  randomize : Z;
  extra_alloc : Z;
}.

(** The link field belongs to the queue. *)
Record work_node_t := WorkNode {
  wn_id : Z;
  wn_data : Z;
}.

#[export] Instance work_node_eq_dec : EqDecision work_node_t.
Proof. solve_decision. Defined.

(** C arrays of [int] and of nodes. *)
Definition aget (l : list Z) (i : Z) : Z := default 0 (l !! Z.to_nat i).
Definition aset (l : list Z) (i v : Z) : list Z := <[Z.to_nat i := v]> l.

(** [nodes[i]]; [None] is out of the bounds of the block. *)
Definition node_at (l : list loc) (i : Z) : option loc :=
  if bool_decide (0 ≤ i) then l !! Z.to_nat i else None.

(** One round of the shuffling loop:
    [swapme = permute[i]; permute[i] = permute[index]; permute[index] = swapme]. *)
Definition swap (permute : list Z) (i index : Z) : list Z :=
  let swapme := aget permute i in
  aset (aset permute i (aget permute index)) index swapme.

(** ** Program points

    The constructors follow the statements of the three functions; the
    arguments are the locals that are still needed. *)

Record plocals := PLocals {
  pl_q : Z;
  pl_permute : list Z;
  pl_nodes : list loc;
  pl_tmp : option (list loc);   (** [nodes_tmp] *)
}.

Inductive prod_pc :=
  | PStage (i : Z)                                   (** staged printf barrier *)
  | PMalloc                                          (** [nodes = malloc(...)] *)
  | PPerm (i : Z) (l : plocals)                      (** the shuffle *)
  | PInit (i : Z) (l : plocals)                      (** [nodes[i].id = me; nodes[i].data = 1+i] *)
  | PBar1 (l : plocals) | PBar2 (l : plocals) | PBar3 (l : plocals)
  | PLoop (i : Z) (l : plocals)                      (** head of the message loop *)
  | PSet (i : Z) (n : option loc) (l : plocals)      (** [work_node_alloc] *)
  | PExtra (i : Z) (n : option loc) (l : plocals)    (** [n->extra_alloc_data = extra_alloc()] *)
  | PEnq (i k : Z) (n : option loc) (l : plocals)    (** inside [enqueue] on [Q[k]] *)
  | PLock (l : plocals) | PRead (l : plocals) | PWrite (v : Z) (l : plocals) | PUnlock (l : plocals)
  | PCheck (l : plocals)                             (** [if(g_done == tdata->nproducers)] *)
  | PTmp (l : plocals)                               (** [nodes_tmp = malloc(...)] *)
  | PStop (i : Z) (l : plocals)                      (** head of the stop loop *)
  | PStopSet (i : Z) (n : option loc) (l : plocals)
  | PStopEnq (i : Z) (n : option loc) (l : plocals)
  | PEnd1 (l : plocals) | PEnd2 (l : plocals)        (** end of job barriers *)
  | PFreeTmp (l : plocals) | PFree (l : plocals)
  | PExit (l : plocals).

Inductive cons_pc :=
  | CStage (i : Z)
  | CBar1 | CBar2 | CTi | CBar3
  | CWhile (done : bool) (sum calls : Z)                         (** [while(!done)] *)
  | CNodes (ns : list loc) (done : bool) (sum calls : Z)         (** loop over what was dequeued *)
  | CExtra (n : loc) (ns : list loc) (done : bool) (sum calls : Z)  (** [extra_free] *)
  | CFree (n : loc) (ns : list loc) (done : bool) (sum calls : Z)   (** [work_node_free] *)
  | CTf (sum calls : Z)
  | CEnd1 (sum calls : Z) | CEnd2 (sum calls : Z)
  | CExit (sum calls : Z).

Inductive main_pc :=
  | MProd (i j : Z)         (** loop that creates the producers *)
  | MCons (i j : Z)
  | MStage (i : Z)
  | MBar1 | MBar2 | MTi
  | MBar3 (ti : Z) | MEnd1 (ti : Z)
  | MTf (ti : Z)
  | MEnd2 (ti tf : Z)
  | MJoinP (i ti tf : Z) | MJoinC (i ti tf : Z)
  | MReturn (ti tf : Z).

(** ** Effects

    What a thread does next, and where it goes afterwards. *)

Inductive role := RProd | RCons.

Inductive act (K : Type) :=
  | AGoto (k : K)                                             (** nothing shared *)
  | ABarrier (k : K)                                          (** [pthread_barrier_wait(&g_barrier)] *)
  | ALock (k : K)                                             (** [pthread_mutex_lock(&g_mutex)] *)
  | AUnlock (k : K)
  | AReadDone (k : Z → K)                                     (** load [g_done] *)
  | AWriteDone (v : Z) (k : K)                                (** store [g_done] *)
  | AMalloc (n : Z) (k : list loc → K)                        (** [malloc(sizeof(work_node_t)*n)] *)
  | AExtra (k : K)                                            (** [malloc(8)] *)
  | AStore (n : option loc) (f : work_node_t → work_node_t) (k : K)
  | ALoad (n : loc) (k : work_node_t → K)
  | AFree (l : list loc) (off : Z) (k : K)                    (** [free] of the block [l] plus [off] bytes *)
  | AUrandom (k : Z → K)
  | ATime (k : Z → K)                                         (** [gettimeofday] *)
  | AEnqueue (q : Z) (n : option loc) (k : K)
  | ADequeue (q : Z) (k : ptr → K)
  | ACreate (r : role) (i : Z) (td : thread_data_t) (k : K)   (** [pthread_create] *)
  | AJoin (r : role) (i : Z) (k : K)
  | AExit                                                     (** [pthread_exit(NULL)] *)
  | AReturn (status : Z).                                     (** [main] returns *)

Arguments AGoto {K} _.
Arguments ABarrier {K} _.
Arguments ALock {K} _.
Arguments AUnlock {K} _.
Arguments AReadDone {K} _.
Arguments AWriteDone {K} _ _.
Arguments AMalloc {K} _ _.
Arguments AExtra {K} _.
Arguments AStore {K} _ _ _.
Arguments ALoad {K} _ _.
Arguments AFree {K} _ _ _.
Arguments AUrandom {K} _.
Arguments ATime {K} _.
Arguments AEnqueue {K} _ _ _.
Arguments ADequeue {K} _ _.
Arguments ACreate {K} _ _ _ _.
Arguments AJoin {K} _ _ _.
Arguments AExit {K}.
Arguments AReturn {K} _.

Definition act_map {K K'} (f : K → K') (a : act K) : act K' :=
  match a with
  | AGoto k => AGoto (f k)
  | ABarrier k => ABarrier (f k)
  | ALock k => ALock (f k)
  | AUnlock k => AUnlock (f k)
  | AReadDone k => AReadDone (f ∘ k)
  | AWriteDone v k => AWriteDone v (f k)
  | AMalloc n k => AMalloc n (f ∘ k)
  | AExtra k => AExtra (f k)
  | AStore n g k => AStore n g (f k)
  | ALoad n k => ALoad n (f ∘ k)
  | AFree l off k => AFree l off (f k)
  | AUrandom k => AUrandom (f ∘ k)
  | ATime k => ATime (f ∘ k)
  | AEnqueue q n k => AEnqueue q n (f k)
  | ADequeue q k => ADequeue q (f ∘ k)
  | ACreate r i td k => ACreate r i td (f k)
  | AJoin r i k => AJoin r i (f k)
  | AExit => AExit
  | AReturn z => AReturn z
  end.

(** ** Programs *)

(** The options of a run, as [main] has parsed and accepted them. *)
Record config := Config {
  cf_nproducers : Z;
  cf_nconsumers : Z;
  cf_nmessages : Z;
  cf_randomize : Z;
  cf_extra_alloc : Z;
}.

(** ** Command line

    [getopt] yields the option letters with their arguments; the [switch] that
    handles them is in the files of the programs. *)

Inductive options_result :=
  | Parsed (cf : config)
  | Returned (status : Z)    (** [main] returns *)
  | Aborted.                 (** [abort()] *)

Definition is_space (c : ascii) : bool :=
  bool_decide (c = " "%char) || ((9 <=? nat_of_ascii c)%nat && (nat_of_ascii c <=? 13)%nat).
Definition digit (c : ascii) : option Z :=
  if (48 <=? nat_of_ascii c)%nat && (nat_of_ascii c <=? 57)%nat
  then Some (Z.of_nat (nat_of_ascii c) - 48) else None.

Fixpoint atoi_digits (acc : Z) (str : string) : Z :=
  match str with
  | String c str =>
      match digit c with Some d => atoi_digits (10 * acc + d) str | None => acc end
  | EmptyString => acc
  end.

(** [atoi] on numbers that an [int] can hold. *)
Fixpoint atoi (str : string) : Z :=
  match str with
  | String c str' =>
      if is_space c then atoi str'
      else if bool_decide (c = "-"%char) then - atoi_digits 0 str'
      else if bool_decide (c = "+"%char) then atoi_digits 0 str'
      else atoi_digits 0 str
  | EmptyString => 0
  end.

Definition set_nproducers (z : Z) (cf : config) : config :=
  Config z (cf_nconsumers cf) (cf_nmessages cf) (cf_randomize cf) (cf_extra_alloc cf).
Definition set_nconsumers (z : Z) (cf : config) : config :=
  Config (cf_nproducers cf) z (cf_nmessages cf) (cf_randomize cf) (cf_extra_alloc cf).
Definition set_nmessages (z : Z) (cf : config) : config :=
  Config (cf_nproducers cf) (cf_nconsumers cf) z (cf_randomize cf) (cf_extra_alloc cf).
Definition set_randomize (z : Z) (cf : config) : config :=
  Config (cf_nproducers cf) (cf_nconsumers cf) (cf_nmessages cf) z (cf_extra_alloc cf).
Definition set_extra_alloc (z : Z) (cf : config) : config :=
  Config (cf_nproducers cf) (cf_nconsumers cf) (cf_nmessages cf) (cf_randomize cf) z.

Record program := Program {
  pr_produce : thread_data_t → prod_pc → act prod_pc;
  pr_consume : thread_data_t → cons_pc → act cons_pc;
  pr_main : config → main_pc → act main_pc;
}.

Inductive pc :=
  | NotStarted
  | Prod (p : prod_pc)
  | Cons (c : cons_pc)
  | Main (m : main_pc)
  | Crashed.    (** undefined behaviour *)

(** ** The machine *)

Inductive label (L : Type) :=
  | LRun
  | LMem (ns : list (loc * work_node_t))   (** what [malloc] returns, with its contents *)
  | LRandom (z : Z)
  | LTime (z : Z)
  | LCreate (ret : Z)
  | LQueue (l : L).
Arguments LRun {L}.
Arguments LMem {L} _.
Arguments LRandom {L} _.
Arguments LTime {L} _.
Arguments LCreate {L} _.
Arguments LQueue {L} _.

Record bench {S : Type} := Bench {
  b_q : nat → S;                       (** the array [Q] *)
  b_pc : tid → pc;
  b_td : tid → thread_data_t;          (** [producer_data], [consumer_data] *)
  b_heap : gmap loc work_node_t;
  b_done : Z;                          (** [g_done] *)
  b_mutex : option tid;                (** owner of [g_mutex] *)
  b_arrived : Z;                       (** [g_barrier]: threads waiting in this generation *)
  b_gen : Z;                           (** [g_barrier]: generations completed *)
  b_wait : tid → option Z;             (** the generation in which a thread waits *)
  b_log : tid → list work_node_t;      (** history: the nodes a consumer has looked at *)
  b_exit : option Z;                   (** exit status of the process *)
}.
Arguments bench : clear implicits.

Section machine.
Context {L S : Type} (Qs : nat → Queue L S) (prog : program) (cf : config) (ncores : Z).

Definition tid_of (r : role) (i : Z) : tid :=
  match r with
  | RProd => Z.to_nat i
  | RCons => Z.to_nat (cf_nproducers cf + i)
  end.

Definition main_tid : tid := Z.to_nat (cf_nproducers cf + cf_nconsumers cf).

Definition start_pc (r : role) : pc :=
  match r with RProd => Prod (PStage 0) | RCons => Cons (CStage 0) end.

Definition thread_act (td : thread_data_t) (p : pc) : option (act pc) :=
  match p with
  | Prod p => Some (act_map Prod (pr_produce prog td p))
  | Cons c => Some (act_map Cons (pr_consume prog td c))
  | Main m => Some (act_map Main (pr_main prog cf m))
  | NotStarted | Crashed => None
  end.

Definition exited (p : pc) : bool :=
  match p with Prod (PExit _) | Cons (CExit _ _) => true | _ => false end.

Definition set_pc (t : tid) (k : pc) (s : bench S) : bench S :=
  Bench S (b_q s) (<[t := k]> (b_pc s)) (b_td s) (b_heap s) (b_done s) (b_mutex s)
    (b_arrived s) (b_gen s) (b_wait s) (b_log s) (b_exit s).

Definition set_heap (h : gmap loc work_node_t) (s : bench S) : bench S :=
  Bench S (b_q s) (b_pc s) (b_td s) h (b_done s) (b_mutex s)
    (b_arrived s) (b_gen s) (b_wait s) (b_log s) (b_exit s).

Definition set_done (v : Z) (s : bench S) : bench S :=
  Bench S (b_q s) (b_pc s) (b_td s) (b_heap s) v (b_mutex s)
    (b_arrived s) (b_gen s) (b_wait s) (b_log s) (b_exit s).

Definition set_mutex (m : option tid) (s : bench S) : bench S :=
  Bench S (b_q s) (b_pc s) (b_td s) (b_heap s) (b_done s) m
    (b_arrived s) (b_gen s) (b_wait s) (b_log s) (b_exit s).

Definition set_q (k : nat) (q : S) (s : bench S) : bench S :=
  Bench S (<[k := q]> (b_q s)) (b_pc s) (b_td s) (b_heap s) (b_done s) (b_mutex s)
    (b_arrived s) (b_gen s) (b_wait s) (b_log s) (b_exit s).

Definition set_log (t : tid) (w : work_node_t) (s : bench S) : bench S :=
  Bench S (b_q s) (b_pc s) (b_td s) (b_heap s) (b_done s) (b_mutex s)
    (b_arrived s) (b_gen s) (b_wait s) (<[t := b_log s t ++ [w]]> (b_log s)) (b_exit s).

Definition set_td (t : tid) (td : thread_data_t) (s : bench S) : bench S :=
  Bench S (b_q s) (b_pc s) (<[t := td]> (b_td s)) (b_heap s) (b_done s) (b_mutex s)
    (b_arrived s) (b_gen s) (b_wait s) (b_log s) (b_exit s).

Definition set_exit (z : Z) (s : bench S) : bench S :=
  Bench S (b_q s) (b_pc s) (b_td s) (b_heap s) (b_done s) (b_mutex s)
    (b_arrived s) (b_gen s) (b_wait s) (b_log s) (Some z).

(** [pthread_barrier_init(&g_barrier, NULL, nproducers+nconsumers+1)]. *)
Definition barrier_count : Z := cf_nproducers cf + cf_nconsumers cf + 1.

(** The last of [barrier_count] threads releases the others and starts the
    next generation. *)
Definition barrier_arrive (t : tid) (k : pc) (s : bench S) : bench S :=
  if bool_decide (b_arrived s + 1 = barrier_count) then
    Bench S (b_q s) (<[t := k]> (b_pc s)) (b_td s) (b_heap s) (b_done s) (b_mutex s)
      0 (b_gen s + 1) (<[t := Some (b_gen s)]> (b_wait s)) (b_log s) (b_exit s)
  else
    Bench S (b_q s) (<[t := k]> (b_pc s)) (b_td s) (b_heap s) (b_done s) (b_mutex s)
      (b_arrived s + 1) (b_gen s) (<[t := Some (b_gen s)]> (b_wait s)) (b_log s) (b_exit s).

Definition barrier_leave (t : tid) (s : bench S) : bench S :=
  Bench S (b_q s) (b_pc s) (b_td s) (b_heap s) (b_done s) (b_mutex s)
    (b_arrived s) (b_gen s) (<[t := None]> (b_wait s)) (b_log s) (b_exit s).

(** [malloc] returns as many nodes as asked for, none of them allocated. *)
Definition fresh_block (n : Z) (ns : list (loc * work_node_t)) (h : gmap loc work_node_t) : bool :=
  bool_decide (Z.of_nat (length ns) = n) && bool_decide (NoDup ns.*1) &&
  bool_decide (Forall (λ p, h !! p = None) ns.*1).

(** [Q[q]] exists. *)
Definition queue_ok (q : Z) : bool := bool_decide (0 ≤ q < cf_nconsumers cf).

(** One step of the queue inside a call of [enqueue]: the call itself, an
    internal step, or the return. *)
Definition enqueue_step (t : tid) (l : L) (q : Z) (n : loc) (k : pc) (s : bench S) : option (bench S) :=
  let i := Z.to_nat q in
  match @q_step _ _ (Qs i) t l (b_q s i) with
  | Some q' =>
      match @q_status _ _ (Qs i) (b_q s i) t, @q_status _ _ (Qs i) q' t with
      | QsIdle, QsPush n' => if bool_decide (n' = n) then Some (set_q i q' s) else None
      | QsIdle, _ => None
      | _, QsIdle => Some (set_pc t k (set_q i q' s))
      | _, _ => Some (set_q i q' s)
      end
  | None => None
  end.

Definition dequeue_step (t : tid) (l : L) (q : Z) (k : ptr → pc) (s : bench S) : option (bench S) :=
  let i := Z.to_nat q in
  match @q_step _ _ (Qs i) t l (b_q s i) with
  | Some q' =>
      match @q_status _ _ (Qs i) (b_q s i) t, @q_status _ _ (Qs i) q' t with
      | QsIdle, QsPop => Some (set_q i q' s)
      | QsIdle, _ => None
      | QsPopped r, QsIdle => Some (set_pc t (k r) (set_q i q' s))
      | _, _ => Some (set_q i q' s)
      end
  | None => None
  end.

Definition act_step (t : tid) (lab : label L) (a : act pc) (s : bench S) : option (bench S) :=
  match a, lab with
  | AGoto k, LRun => Some (set_pc t k s)
  | ABarrier k, LRun => Some (barrier_arrive t k s)
  | ALock k, LRun =>
      match b_mutex s with
      | None => Some (set_pc t k (set_mutex (Some t) s))
      | Some _ => None
      end
  | AUnlock k, LRun => Some (set_pc t k (set_mutex None s))
  | AReadDone k, LRun => Some (set_pc t (k (b_done s)) s)
  | AWriteDone v k, LRun => Some (set_pc t k (set_done v s))
  | AMalloc n k, LMem ns =>
      if fresh_block n ns (b_heap s) then
        Some (set_pc t (k ns.*1) (set_heap (list_to_map ns ∪ b_heap s) s))
      else None
  | AExtra k, LRun => Some (set_pc t k s)
  | AStore n f k, LRun =>
      match n ≫= λ n, (n,.) <$> b_heap s !! n with
      | Some (n, w) => Some (set_pc t k (set_heap (<[n := f w]> (b_heap s)) s))
      | None => Some (set_pc t Crashed s)
      end
  | ALoad n k, LRun =>
      match b_heap s !! n with
      | Some w => Some (set_pc t (k w) (set_log t w s))
      | None => Some (set_pc t Crashed s)
      end
  | AFree ns off k, LRun =>
      if bool_decide (off = 0 ∧ Forall (λ n, is_Some (b_heap s !! n)) ns) then
        Some (set_pc t k (set_heap (foldr delete (b_heap s) ns) s))
      else Some (set_pc t Crashed s)
  | AUrandom k, LRandom z =>
      if bool_decide (0 ≤ z < 2 ^ 64) then Some (set_pc t (k z) s) else None
  | ATime k, LTime z => Some (set_pc t (k z) s)
  | AEnqueue q n k, LQueue l =>
      match n with
      | Some n => if queue_ok q then enqueue_step t l q n k s else None
      | None => None
      end
  | AEnqueue q n k, LRun =>
      match n with
      | Some n => if queue_ok q then None else Some (set_pc t Crashed s)
      | None => Some (set_pc t Crashed s)
      end
  | ADequeue q k, LQueue l => if queue_ok q then dequeue_step t l q k s else None
  | ADequeue q k, LRun => if queue_ok q then None else Some (set_pc t Crashed s)
  | ACreate r i td k, LCreate ret =>
      (* no such core: the object is NULL and its cpuset is read *)
      if bool_decide (0 ≤ obj td < ncores) then
        if bool_decide (ret = 0) then
          Some (set_pc t k (set_pc (tid_of r i) (start_pc r) (set_td (tid_of r i) td s)))
        else Some (set_exit 1 s)
      else Some (set_pc t Crashed s)
  | AJoin r i k, LRun =>
      if exited (b_pc s (tid_of r i)) then Some (set_pc t k s) else None
  | AReturn z, LRun => Some (set_exit z s)
  | _, _ => None
  end.

Definition b_step (t : tid) (lab : label L) (s : bench S) : option (bench S) :=
  match b_exit s with
  | Some _ => None
  | None =>
      match b_wait s t with
      | Some g =>
          match lab with
          | LRun => if bool_decide (g < b_gen s) then Some (barrier_leave t s) else None
          | _ => None
          end
      | None =>
          match thread_act (b_td s t) (b_pc s t) with
          | Some a => act_step t lab a s
          | None => None
          end
      end
  end.

(** Only the main thread runs; the queues are as [initQ] leaves them. *)
Definition b_init (s : bench S) : Prop :=
  ∃ q td0, (∀ k, @q_init _ _ (Qs k) (q k)) ∧
    s = Bench S q (<[main_tid := Main (MProd 0 1)]> (λ _, NotStarted)) td0 ∅ 0 None
          0 0 (λ _, None) (λ _, []) None.

Definition bench_lts : Lts (tid * label L) (bench S) := {|
  lts_init := b_init;
  lts_step := λ '(t, lab) s, b_step t lab s;
|}.
End machine.
