(* ===== verification/BenchSpec.v ===== *)
(** * What the three benchmark programs have in common

    One description of producer, consumer and [main] with two switches:
    [alloc] (the nodes are allocated one by one and freed by the consumer, as
    in [alloc_rate.cc]) and [count] (how [sum] is maintained).  Each of the
    three programs is shown to agree with it, so that what is proved of it
    holds of them all.  The file also defines the routing of messages, the
    cores threads are bound to, and the local invariant of every program
    point. *)

From S2P Require Import Prelude Lts QueueSpec Bench.

Local Open Scope Z_scope.

(** ** Equal effects *)

Definition act_eq {K} (a b : act K) : Prop :=
  match a, b with
  | AGoto k, AGoto k' | ABarrier k, ABarrier k' | ALock k, ALock k' | AUnlock k, AUnlock k'
  | AExtra k, AExtra k' => k = k'
  | AReadDone k, AReadDone k' | AUrandom k, AUrandom k' | ATime k, ATime k' => ∀ z, k z = k' z
  | AWriteDone v k, AWriteDone v' k' => v = v' ∧ k = k'
  | AMalloc n k, AMalloc n' k' => n = n' ∧ ∀ l, k l = k' l
  | AStore n f k, AStore n' f' k' => n = n' ∧ (∀ w, f w = f' w) ∧ k = k'
  | ALoad n k, ALoad n' k' => n = n' ∧ ∀ w, k w = k' w
  | AFree l o k, AFree l' o' k' => l = l' ∧ o = o' ∧ k = k'
  | AEnqueue q n k, AEnqueue q' n' k' => q = q' ∧ n = n' ∧ k = k'
  | ADequeue q k, ADequeue q' k' => q = q' ∧ ∀ r, k r = k' r
  | ACreate r i td k, ACreate r' i' td' k' => r = r' ∧ i = i' ∧ td = td' ∧ k = k'
  | AJoin r i k, AJoin r' i' k' => r = r' ∧ i = i' ∧ k = k'
  | AExit, AExit => True
  | AReturn z, AReturn z' => z = z'
  | _, _ => False
  end.

Record program_eq (p p' : program) : Prop := {
  pe_produce td c : act_eq (pr_produce p td c) (pr_produce p' td c);
  pe_consume td c : act_eq (pr_consume p td c) (pr_consume p' td c);
  pe_main cf c : act_eq (pr_main p cf c) (pr_main p' cf c);
}.

(** ** The common program *)

Section spec.
Context (alloc : bool) (count : ptr → Z).

(** The queue a producer turns to next, and its [q] afterwards. *)
Definition next_q (td : thread_data_t) (l : plocals) : Z :=
  if bool_decide (randomize td ≠ 0) then (pl_q l + 1) `mod` nconsumers td else pl_q l.
Definition target (td : thread_data_t) (l : plocals) : Z :=
  if bool_decide (randomize td ≠ 0) then aget (pl_permute l) (next_q td l) else pl_q l.
Definition set_plq (q : Z) (l : plocals) : plocals :=
  PLocals q (pl_permute l) (pl_nodes l) (pl_tmp l).

Definition spec_produce (td : thread_data_t) (p : prod_pc) : act prod_pc :=
  let me := index td in
  let start nodes := PLocals (me `mod` nconsumers td) (seqZ 0 (nconsumers td)) nodes None in
  let enq i n l := PEnq i (target td l) n (set_plq (next_q td l) l) in
  match p with
  | PStage i =>
      if bool_decide (i < nconsumers td + nproducers td + PRINT_BATCH)
      then ABarrier (PStage (i + PRINT_BATCH))
      else AGoto (if alloc then PPerm 0 (start []) else PMalloc)
  | PMalloc =>
      if alloc then AExit else AMalloc (messages_per_thread td) (λ nodes, PPerm 0 (start nodes))
  | PPerm i l =>
      if bool_decide (i < nconsumers td) then
        AUrandom (λ r,
          PPerm (i + 1) (PLocals (pl_q l) (swap (pl_permute l) i (r `mod` nconsumers td))
                           (pl_nodes l) (pl_tmp l)))
      else AGoto (if alloc then PBar1 l else PInit (messages_per_thread td - 1) l)
  | PInit i l =>
      if alloc then AExit
      else if bool_decide (0 ≤ i)
      then AStore (node_at (pl_nodes l) i) (λ _, WorkNode me (1 + i)) (PInit (i - 1) l)
      else AGoto (PBar1 l)
  | PBar1 l => ABarrier (PBar2 l)
  | PBar2 l => ABarrier (PBar3 l)
  | PBar3 l => ABarrier (PLoop (messages_per_thread td - 1) l)
  | PLoop i l =>
      if bool_decide (0 ≤ i) then
        if alloc then AMalloc 1 (λ ns, PSet i (head ns) l)
        else AGoto (enq i (node_at (pl_nodes l) i) l)
      else AGoto (PLock l)
  | PSet i n l => if alloc then AStore n (λ _, WorkNode me (1 + i)) (PExtra i n l) else AExit
  | PExtra i n l =>
      if alloc then
        if bool_decide (extra_alloc td ≠ 0) then AExtra (enq i n l) else AGoto (enq i n l)
      else AExit
  | PEnq i k n l => AEnqueue k n (PLoop (i - 1) l)
  | PLock l => ALock (PRead l)
  | PRead l => AReadDone (λ v, PWrite (v + 1) l)
  | PWrite v l => AWriteDone v (PUnlock l)
  | PUnlock l => AUnlock (PCheck l)
  | PCheck l =>
      AReadDone (λ v,
        if bool_decide (v = nproducers td) then if alloc then PStop 0 l else PTmp l else PEnd1 l)
  | PTmp l =>
      if alloc then AExit
      else AMalloc (messages_per_thread td) (λ nodes_tmp,
        PStop 0 (PLocals (pl_q l) (pl_permute l) (pl_nodes l) (Some nodes_tmp)))
  | PStop i l =>
      if bool_decide (i < nconsumers td) then
        if alloc then AMalloc 1 (λ ns, PStopSet i (head ns) l)
        else AGoto (PStopSet i (pl_tmp l ≫= λ ns, node_at ns i) l)
      else AGoto (PEnd1 l)
  | PStopSet i n l =>
      AStore n (λ w, WorkNode (if alloc then me else wn_id w) 0) (PStopEnq i n l)
  | PStopEnq i n l => AEnqueue i n (PStop (i + 1) l)
  | PEnd1 l => ABarrier (PEnd2 l)
  | PEnd2 l => ABarrier (if alloc then PExit l else PFreeTmp l)
  | PFreeTmp l =>
      if alloc then AExit
      else match pl_tmp l with
           | Some nodes_tmp => AFree nodes_tmp 0 (PFree l)
           | None => AGoto (PFree l)
           end
  | PFree l => if alloc then AExit else AFree (pl_nodes l) 0 (PExit l)
  | PExit l => AExit
  end.

Definition spec_consume (td : thread_data_t) (c : cons_pc) : act cons_pc :=
  match c with
  | CStage i =>
      if bool_decide (i < nconsumers td + nproducers td + PRINT_BATCH)
      then ABarrier (CStage (i + PRINT_BATCH))
      else AGoto CBar1
  | CBar1 => ABarrier CBar2
  | CBar2 => ABarrier CTi
  | CTi => ATime (λ _, CBar3)
  | CBar3 => ABarrier (CWhile false 0 0)
  | CWhile done sum calls =>
      if done then AGoto (CTf sum calls)
      else
        ADequeue (index td) (λ r,
          match r with
          | None => CWhile false (sum + count r) (calls + 1)
          | Some n => CNodes [n] false (sum + count r) (calls + 1)
          end)
  | CNodes [] done sum calls => AGoto (CWhile done sum calls)
  | CNodes (n :: ns) done sum calls =>
      ALoad n (λ w,
        let done := if bool_decide (wn_data w = 0) then true else done in
        if alloc then CExtra n ns done sum calls else CNodes ns done sum calls)
  | CExtra n ns done sum calls =>
      if alloc then
        if bool_decide (extra_alloc td ≠ 0) then AFree [n] 16 (CFree n ns done sum calls)
        else AGoto (CFree n ns done sum calls)
      else AExit
  | CFree n ns done sum calls =>
      if alloc then AFree [n] 0 (CNodes ns done sum calls) else AExit
  | CTf sum calls => ATime (λ _, CEnd1 sum calls)
  | CEnd1 sum calls => ABarrier (CEnd2 sum calls)
  | CEnd2 sum calls => ABarrier (CExit sum calls)
  | CExit _ _ => AExit
  end.

(** What [main] hands to a thread. *)
Definition data_of (cf : config) (i j : Z) : thread_data_t :=
  let mpt := cf_nmessages cf `quot` cf_nproducers cf in
  ThreadData i j (cf_nconsumers cf) (cf_nproducers cf) mpt (mpt * cf_nproducers cf) (cf_randomize cf)
    (if alloc then cf_extra_alloc cf else 0).

Definition spec_main (cf : config) (m : main_pc) : act main_pc :=
  let np := cf_nproducers cf in
  let nc := cf_nconsumers cf in
  match m with
  | MProd i j =>
      if bool_decide (i < np)
      then ACreate RProd i (data_of cf i j)
             (MProd (i + 1) (if bool_decide (i ≤ nc - 2) then j + 2 else j + 1))
      else AGoto (MCons 0 0)
  | MCons i j =>
      if bool_decide (i < nc)
      then ACreate RCons i (data_of cf i j) (MCons (i + 1) (j + 2))
      else AGoto (MStage 0)
  | MStage i =>
      if bool_decide (i < nc + np + PRINT_BATCH) then ABarrier (MStage (i + PRINT_BATCH))
      else AGoto MBar1
  | MBar1 => ABarrier MBar2
  | MBar2 => ABarrier MTi
  | MTi => ATime (λ ti, MBar3 ti)
  | MBar3 ti => ABarrier (MEnd1 ti)
  | MEnd1 ti => ABarrier (MTf ti)
  | MTf ti => ATime (λ tf, MEnd2 ti tf)
  | MEnd2 ti tf => ABarrier (MJoinP 0 ti tf)
  | MJoinP i ti tf =>
      if bool_decide (i < np) then AJoin RProd i (MJoinP (i + 1) ti tf) else AGoto (MJoinC 0 ti tf)
  | MJoinC i ti tf =>
      if bool_decide (i < nc) then AJoin RCons i (MJoinC (i + 1) ti tf) else AGoto (MReturn ti tf)
  | MReturn ti tf => AReturn 0
  end.

Definition spec_program : program := Program spec_produce spec_consume spec_main.
End spec.

(** ** Programs with equal effects behave alike *)

Lemma act_eq_map {K K'} (f : K → K') a b : act_eq a b → act_eq (act_map f a) (act_map f b).
Proof.
  destruct a, b; simpl; try done; intros; destruct_and?; subst; split_and?; try done;
    intros; simpl; f_equal; auto.
Qed.

Section equal.
Context {L S : Type} (Qs : nat → Queue L S) (cf : config) (ncores : Z) (p p' : program).
Context (Heq : program_eq p p').

Lemma act_step_eq t lab a b (s : bench S) :
  act_eq a b → act_step Qs cf ncores t lab a s = act_step Qs cf ncores t lab b s.
Proof.
  destruct a as [| | | |k|v k|n k| |n f k|n k|l o k|k|k|q n k|q k|r i td k|r i k| |z],
    b as [| | | |k'|v' k'|n' k'| |n' f' k'|n' k'|l' o' k'|k'|k'|q' n' k'|q' k'|r' i' td' k'|r' i' k'| |z'];
    simpl; try done; intros Hab; destruct_and?; subst; destruct lab; try done.
  all: repeat (case_match; simpl; try done).
  all: simplify_eq; try congruence.
  all: unfold dequeue_step; repeat case_match; congruence.
Qed.

Lemma b_step_eq t lab (s : bench S) :
  b_step Qs p cf ncores t lab s = b_step Qs p' cf ncores t lab s.
Proof.
  unfold b_step. repeat (case_match; try done).
  - destruct (b_pc s t); simplify_eq/=; apply act_step_eq, act_eq_map, Heq.
  - by destruct (b_pc s t).
  - by destruct (b_pc s t).
Qed.

Lemma bench_run_eq ls (s : bench S) :
  run (sys := bench_lts Qs p cf ncores) ls s = run (sys := bench_lts Qs p' cf ncores) ls s.
Proof.
  revert s. induction ls as [|[t lab] ls IH]; intros s; simpl; [done|].
  rewrite b_step_eq. by case_match.
Qed.

Lemma bench_reachable_eq (s : bench S) :
  reachable (sys := bench_lts Qs p cf ncores) s → reachable (sys := bench_lts Qs p' cf ncores) s.
Proof.
  induction 1 as [s Hi|[t lab] s s' _ IH Hstep]; [by apply reachable_init|].
  simpl in Hstep. rewrite b_step_eq in Hstep. by apply (reachable_step (t, lab) s).
Qed.
End equal.
