(* ===== verification/BenchCtl.v ===== *)
(** * Control flow of the benchmark programs

    What holds at every program point whatever the queue does: the local
    variables of a thread, which threads exist and on which cores, the phases
    that the barrier separates, and the counter [g_done].  All of it is proved
    of the common program of [BenchSpec]. *)

From S2P Require Import Prelude Lts QueueSpec Bench BenchSpec.

Local Open Scope Z_scope.

(** ** Effects that lead only to points satisfying [P] *)

Definition act_all {K} (P : K → Prop) (a : act K) : Prop :=
  match a with
  | AGoto k | ABarrier k | ALock k | AUnlock k | AWriteDone _ k | AExtra k | AStore _ _ k
  | AFree _ _ k | AEnqueue _ _ k | ACreate _ _ _ k | AJoin _ _ k => P k
  | AReadDone k | ATime k => ∀ z, P (k z)
  | AUrandom k => ∀ z, 0 ≤ z < 2 ^ 64 → P (k z)
  | AMalloc n k => ∀ ns, Z.of_nat (length ns) = n → P (k ns)
  | ALoad _ k => ∀ w, P (k w)
  | ADequeue _ k => ∀ r, P (k r)
  | AExit | AReturn _ => True
  end.

Lemma act_all_map {K K'} (f : K → K') (P : K → Prop) (P' : K' → Prop) a :
  (∀ k, P k → P' (f k)) → act_all P a → act_all P' (act_map f a).
Proof. intros HP. destruct a; simpl; naive_solver. Qed.

Lemma act_all_True {K} (P : K → Prop) a : (∀ k, P k) → act_all P a.
Proof. intros HP. destruct a; simpl; auto. Qed.

Section ctl.
Context (alloc : bool) (count : ptr → Z) (cf : config).

Local Notation np := (cf_nproducers cf).
Local Notation nc := (cf_nconsumers cf).
Local Notation mpt := (cf_nmessages cf `quot` cf_nproducers cf).
Local Notation rnd := (bool_decide (cf_randomize cf ≠ 0)).

(** Messages can be routed and counted. *)
Definition valid_config : Prop := 1 ≤ nc ≤ np ∧ nc ≤ cf_nmessages cf.

(** ** Routing, cores and phases *)

(** The queue of message number [j] (counting from 0) of producer [t]. *)
Definition dest (t : Z) (permute : list Z) (j : Z) : Z :=
  if rnd then aget permute ((t + j + 1) `mod` nc) else t `mod` nc.

Definition core_prod (i : Z) : Z := if bool_decide (i < nc) then 1 + 2 * i else nc + i.
Definition core_cons (i : Z) : Z := 2 * i.

(** Rounds of the staged printf barrier. *)
Definition stages : Z := (nc + np + PRINT_BATCH + 1) / 2.

(** ** Local invariants *)

Definition stage_ok (i : Z) : Prop := 0 ≤ i ≤ 2 * stages ∧ i `mod` 2 = 0.

(** The locals of producer [t] after [j] messages. *)
Definition locals_ok (t j : Z) (l : plocals) : Prop :=
  pl_permute l ≡ₚ seqZ 0 nc ∧
  pl_q l = (if rnd then t + j else t) `mod` nc ∧
  Z.of_nat (length (pl_nodes l)) = (if alloc then 0 else mpt).

Definition node_ok (n : option loc) (n' : option loc) : Prop :=
  if alloc then is_Some n else n = n'.

Definition tmp_ok (l : plocals) : Prop :=
  match pl_tmp l with
  | Some ns => alloc = false ∧ Z.of_nat (length ns) = mpt
  | None => alloc = true
  end.

Definition prod_ok (t : Z) (p : prod_pc) : Prop :=
  match p with
  | PStage i => stage_ok i
  | PMalloc => alloc = false
  | PPerm i l => 0 ≤ i ≤ nc ∧ locals_ok t 0 l ∧ pl_tmp l = None
  | PInit i l => alloc = false ∧ -1 ≤ i < mpt ∧ locals_ok t 0 l ∧ pl_tmp l = None
  | PBar1 l | PBar2 l | PBar3 l => locals_ok t 0 l ∧ pl_tmp l = None
  | PLoop i l => -1 ≤ i < mpt ∧ locals_ok t (mpt - 1 - i) l ∧ pl_tmp l = None
  | PSet i n l | PExtra i n l =>
      alloc = true ∧ is_Some n ∧ 0 ≤ i < mpt ∧ locals_ok t (mpt - 1 - i) l ∧ pl_tmp l = None
  | PEnq i k n l =>
      0 ≤ i < mpt ∧ locals_ok t (mpt - i) l ∧ pl_tmp l = None ∧
      k = dest t (pl_permute l) (mpt - 1 - i) ∧ node_ok n (node_at (pl_nodes l) i)
  | PLock l | PRead l | PWrite _ l | PUnlock l | PCheck l => locals_ok t mpt l ∧ pl_tmp l = None
  | PTmp l => alloc = false ∧ locals_ok t mpt l ∧ pl_tmp l = None
  | PStop i l => 0 ≤ i ≤ nc ∧ locals_ok t mpt l ∧ tmp_ok l
  | PStopSet i n l | PStopEnq i n l =>
      0 ≤ i < nc ∧ locals_ok t mpt l ∧ tmp_ok l ∧ node_ok n (pl_tmp l ≫= λ ns, node_at ns i)
  | PEnd1 l | PEnd2 l | PFreeTmp l | PFree l | PExit l => locals_ok t mpt l
  end.

Definition cons_ok (c : cons_pc) : Prop :=
  match c with
  | CStage i => stage_ok i
  | CNodes ns done _ _ => (ns = [] ∨ ∃ n, ns = [n] ∧ done = false)
  | CExtra n ns _ _ _ | CFree n ns _ _ _ => alloc = true ∧ ns = []
  | _ => True
  end.

Definition main_ok (m : main_pc) : Prop :=
  match m with
  | MProd i j => 0 ≤ i ≤ np ∧ j = core_prod i
  | MCons i j => 0 ≤ i ≤ nc ∧ j = core_cons i
  | MStage i => stage_ok i
  | MJoinP i _ _ => 0 ≤ i ≤ np
  | MJoinC i _ _ => 0 ≤ i ≤ nc
  | _ => True
  end.

(** ** Arithmetic facts *)

Context (Hvalid : valid_config).

Lemma mpt_nonneg : 0 ≤ mpt.
Proof. destruct Hvalid. apply Z.quot_pos; lia. Qed.

Lemma stage_next i :
  stage_ok i → i < nc + np + PRINT_BATCH → stage_ok (i + PRINT_BATCH).
Proof.
  unfold stage_ok, stages, PRINT_BATCH. intros [[H0 H1] H2] Hi. split.
  - pose proof (Z.div_mod i 2 ltac:(lia)). pose proof (Z.div_mod (nc + np + 2 + 1) 2 ltac:(lia)).
    pose proof (Z.mod_pos_bound (nc + np + 2 + 1) 2 ltac:(lia)). lia.
  - replace (i + 2) with (i + 1 * 2) by lia. rewrite Z_mod_plus_full. done.
Qed.

Lemma stage_last i : stage_ok i → ¬ i < nc + np + PRINT_BATCH → i = 2 * stages.
Proof.
  unfold stage_ok, stages, PRINT_BATCH. intros [[H0 H1] H2] Hi.
  pose proof (Z.div_mod i 2 ltac:(lia)). pose proof (Z.div_mod (nc + np + 2 + 1) 2 ltac:(lia)).
  pose proof (Z.mod_pos_bound (nc + np + 2 + 1) 2 ltac:(lia)). lia.
Qed.

Lemma stage_start : stage_ok 0.
Proof.
  destruct Hvalid. unfold stage_ok, stages, PRINT_BATCH. split; [|done].
  pose proof (Z.div_pos (nc + np + 2 + 1) 2 ltac:(lia) ltac:(lia)). lia.
Qed.

Lemma stages_pos : 2 ≤ stages.
Proof.
  destruct Hvalid. unfold stages, PRINT_BATCH. apply Z.div_le_lower_bound; lia.
Qed.

Lemma aget_lookup (l : list Z) i :
  0 ≤ i < Z.of_nat (length l) → l !! Z.to_nat i = Some (aget l i).
Proof.
  intros Hi. unfold aget. destruct (l !! Z.to_nat i) eqn:E; [done|].
  apply lookup_ge_None in E. lia.
Qed.

(** The shuffle permutes. *)
Lemma swap_permutation (l : list Z) i j :
  0 ≤ i < Z.of_nat (length l) → 0 ≤ j < Z.of_nat (length l) → swap l i j ≡ₚ l.
Proof.
  intros Hi Hj. unfold swap, aset.
  pose proof (aget_lookup l i Hi) as Ei. pose proof (aget_lookup l j Hj) as Ej.
  by apply Permutation_insert_swap.
Qed.

(** Barriers a thread has arrived at when it is at a program point. *)
Definition parr (p : prod_pc) : Z :=
  match p with
  | PStage i => i / 2
  | PMalloc | PPerm _ _ | PInit _ _ | PBar1 _ => stages
  | PBar2 _ => stages + 1
  | PBar3 _ => stages + 2
  | PEnd2 _ => stages + 4
  | PFreeTmp _ | PFree _ | PExit _ => stages + 5
  | _ => stages + 3
  end.

Definition carr (c : cons_pc) : Z :=
  match c with
  | CStage i => i / 2
  | CBar1 => stages
  | CBar2 => stages + 1
  | CTi | CBar3 => stages + 2
  | CEnd2 _ _ => stages + 4
  | CExit _ _ => stages + 5
  | _ => stages + 3
  end.

Definition marr (m : main_pc) : Z :=
  match m with
  | MProd _ _ | MCons _ _ => 0
  | MStage i => i / 2
  | MBar1 => stages
  | MBar2 => stages + 1
  | MTi | MBar3 _ => stages + 2
  | MEnd1 _ => stages + 3
  | MTf _ | MEnd2 _ _ => stages + 4
  | _ => stages + 5
  end.

Definition arr (p : pc) : Z :=
  match p with
  | NotStarted | Crashed => 0
  | Prod p => parr p
  | Cons c => carr c
  | Main m => marr m
  end.

Definition barriers {K} (a : act K) : Z := match a with ABarrier _ => 1 | _ => 0 end.

(** ** Every step keeps the local invariants *)

Lemma locals_ok_length t j l : locals_ok t j l → Z.of_nat (length (pl_permute l)) = nc.
Proof. intros [Hp _]. rewrite Hp, length_seqZ. destruct Hvalid. lia. Qed.

Lemma locals_ok_next t j td l :
  randomize td = cf_randomize cf → nconsumers td = nc → locals_ok t j l →
  locals_ok t (j + 1) (set_plq (next_q td l) l) ∧ target td l = dest t (pl_permute l) j.
Proof.
  intros Hr Hn (Hp & Hq & Hl). unfold locals_ok, target, dest, next_q. rewrite Hr, Hn. simpl.
  rewrite Hq. destruct rnd; [|done].
  rewrite Zplus_mod_idemp_l, Z.add_assoc. done.
Qed.

Lemma node_at_Some (ns : list loc) i : 0 ≤ i < Z.of_nat (length ns) → is_Some (node_at ns i).
Proof. intros Hi. unfold node_at. rewrite bool_decide_eq_true_2 by lia. apply lookup_lt_is_Some. lia. Qed.

Lemma head_is_Some (ns : list loc) : Z.of_nat (length ns) = 1 → is_Some (head ns).
Proof. destruct ns; simpl; [lia|eauto]. Qed.

(** Normalise the number of messages sent so far. *)
Local Ltac sent_eq :=
  match goal with
  | H : locals_ok ?t ?a ?l |- context [locals_ok ?t ?b ?l] =>
      first [constr_eq a b | replace b with a by lia]
  end.

Lemma produce_local_perm t i l z :
  0 ≤ i < nc → locals_ok t 0 l → 
  locals_ok t 0 (PLocals (pl_q l) (swap (pl_permute l) i (z `mod` nc)) (pl_nodes l) (pl_tmp l)).
Proof.
  intros Hi Hl. pose proof (locals_ok_length t 0 l Hl) as Hlen. destruct Hl as (Hp & Hq & Hl).
  destruct Hvalid as [Hnc _]. pose proof (Z.mod_pos_bound z nc ltac:(lia)).
  split_and!; simpl; [|done..]. rewrite swap_permutation by lia. done.
Qed.

(** Messages go to queues that exist. *)
Lemma perm_dest_range t permute i : permute ≡ₚ seqZ 0 nc → 0 ≤ dest t permute i < nc.
Proof.
  intros Hp. destruct Hvalid as [Hnc _].
  assert (Z.of_nat (length permute) = nc) as Hlen by (rewrite Hp, length_seqZ; lia).
  unfold dest. destruct rnd; [|by apply Z.mod_pos_bound; lia].
  pose proof (Z.mod_pos_bound (t + i + 1) nc ltac:(lia)) as Hm.
  pose proof (aget_lookup permute ((t + i + 1) `mod` nc) ltac:(lia)) as Hg.
  apply list_elem_of_lookup_2 in Hg. revert Hg. generalize (aget permute ((t + i + 1) `mod` nc)).
  intros x Hx. rewrite Hp, elem_of_seqZ in Hx. lia.
Qed.

Lemma dest_range t l j : locals_ok t j l → ∀ i, 0 ≤ dest t (pl_permute l) i < nc.
Proof. intros [Hp _] i. by apply perm_dest_range. Qed.

Lemma produce_local_start t nodes :
  Z.of_nat (length nodes) = (if alloc then 0 else mpt) →
  prod_ok t (PPerm 0 (PLocals (t `mod` nc) (seqZ 0 nc) nodes None)).
Proof.
  intros Hn. destruct Hvalid. split_and!; simpl; try lia; [|done]. split_and!; simpl; try done.
  rewrite Z.add_0_r. by destruct rnd.
Qed.

Lemma produce_local_enq t j i n l a :
  a = alloc → 0 ≤ i < mpt → locals_ok t (mpt - 1 - i) l → pl_tmp l = None →
  node_ok n (node_at (pl_nodes l) i) →
  prod_ok t (PEnq i (target (data_of a cf t j) l) n (set_plq (next_q (data_of a cf t j) l) l)).
Proof.
  intros -> Hi Hl Ht Hn.
  destruct (locals_ok_next t (mpt - 1 - i) (data_of alloc cf t j) l) as [Hl' Hd]; [done..|].
  simpl. split_and!; try done; try lia. by replace (mpt - i) with (mpt - 1 - i + 1) by lia.
Qed.

Lemma produce_local t j p :
  prod_ok t p → act_all (prod_ok t) (spec_produce alloc (data_of alloc cf t j) p).
Proof.
  intros Hp. pose proof mpt_nonneg as Hm. destruct Hvalid as [Hnc Hmsg].
  assert (∀ nodes, _) as Hstart by exact (produce_local_start t).
  assert (∀ n a i l, _) as Henq by exact (λ n a i l, produce_local_enq t j i n l a).
  unfold node_ok in Henq.
  destruct p as [i| |i l|i l| | | |i l|i n l|i n l|i k n l| | | | | | |i l|i n l|i n l| | | | |];
    cbn [spec_produce prod_ok] in Hp |- *; cbv zeta; destruct alloc eqn:Ha;
    repeat (case_bool_decide; simpl); simpl; destruct_and?; try done;
    try (intros ns Hns; try pose proof (head_is_Some ns Hns)).
  all: try by apply stage_next.
  all: try by apply Hstart.
  all: try by apply Henq.
  all: try by (split_and!; try sent_eq; first [lia|congruence|done]).
  1,2: simpl in *; split_and!; [lia..|by apply produce_local_perm; [lia|]|done].
  1,2: intros z; case_bool_decide; simpl; split_and?; try done; try lia; unfold tmp_ok; by case_match.
  1,2: simpl in *; split_and!; try done; try lia; unfold node_ok; by rewrite Ha.
  by case_match.
Qed.

Lemma consume_local i j c :
  cons_ok c → act_all cons_ok (spec_consume alloc count (data_of alloc cf i j) c).
Proof.
  intros Hc.
  destruct c as [k| | | | |dn sum calls|ns dn sum calls|n ns dn sum calls|n ns dn sum calls| | | |];
    cbn [spec_consume cons_ok] in Hc |- *; simpl; try done.
  - case_bool_decide; [by apply stage_next|done].
  - destruct dn; simpl; [done|]. intros [n|]; simpl; eauto.
  - destruct ns as [|n ns]; simpl; [done|]. intros w.
    destruct Hc as [|(n' & [= -> ->] & ->)]; [done|]. destruct alloc eqn:Ha; simpl; eauto.
  - destruct Hc as [Ha ->]. rewrite Ha. case_bool_decide; simpl; done.
  - destruct Hc as [Ha ->]. rewrite Ha. simpl. auto.
Qed.

Lemma main_local m : main_ok m → act_all main_ok (spec_main alloc cf m).
Proof.
  destruct Hvalid as [Hnc Hmsg]. unfold core_prod, core_cons.
  destruct m as [i j|i j|i| | | | | | | |i ti tf|i ti tf|]; cbn [spec_main main_ok]; intros Hm; simpl;
    try done; try (case_bool_decide; simpl); unfold core_prod, core_cons in *; try lia.
  - destruct Hm as [Hi ->]. split; [lia|]. repeat case_bool_decide; lia.
  - by apply stage_start.
  - by apply stage_next.
Qed.
(** ** Every step counts its barriers *)

Lemma stage_arr i : stage_ok i → (i + PRINT_BATCH) / 2 = i / 2 + 1.
Proof. intros _. unfold PRINT_BATCH. replace (i + 2) with (i + 1 * 2) by lia. by rewrite Z_div_plus. Qed.

Lemma stage_arr_last i : stage_ok i → ¬ i < nc + np + PRINT_BATCH → i / 2 = stages.
Proof. intros Hi Hl. rewrite (stage_last i Hi Hl), Z.mul_comm. by apply Z_div_mult. Qed.

Lemma produce_arr t j p :
  prod_ok t p →
  act_all (λ k, parr k = parr p + barriers (spec_produce alloc (data_of alloc cf t j) p))
    (spec_produce alloc (data_of alloc cf t j) p).
Proof.
  intros Hp. destruct p as [i| |i l|i l| | | |i l|i n l|i n l|i k n l| | | | | | |i l|i n l|i n l| | | | |];
    cbn [spec_produce]; cbv zeta; simpl in Hp;
    repeat (case_bool_decide; simpl); simpl; try lia;
    repeat (case_match; simpl); intros; repeat (case_match; simpl); try lia.
  all: rewrite ?stage_arr, ?stage_arr_last by done; lia.
Qed.

Lemma consume_arr i j c :
  cons_ok c →
  act_all (λ k, carr k = carr c + barriers (spec_consume alloc count (data_of alloc cf i j) c))
    (spec_consume alloc count (data_of alloc cf i j) c).
Proof.
  intros Hc. destruct c as [k| | | | |dn sum calls|ns dn sum calls|n ns dn sum calls|n ns dn sum calls| | | |];
    cbn [spec_consume]; simpl in Hc |- *;
    repeat (case_bool_decide; simpl); try lia;
    repeat (case_match; simpl); intros; repeat (case_match; simpl); try lia.
  all: rewrite ?stage_arr, ?stage_arr_last by done; lia.
Qed.

Lemma main_arr m :
  main_ok m →
  act_all (λ k, marr k = marr m + barriers (spec_main alloc cf m)) (spec_main alloc cf m).
Proof.
  intros Hm. destruct m as [i j|i j|i| | | | | | | |i ti tf|i ti tf|]; simpl in *;
    repeat (case_bool_decide; simpl); intros; try done; try lia.
  all: rewrite ?stage_arr, ?stage_arr_last by done; lia.
Qed.

(** ** Which threads exist *)

Section machine.
Context {L S : Type} (Qs : nat → Queue L S) (ncores : Z).
Context (Hcores : np + nc ≤ ncores).

Local Notation step := (b_step Qs (spec_program alloc count) cf ncores).

(** Threads that [main] has created when it is at [m]. *)
Definition created (m : main_pc) (t : Z) : Prop :=
  match m with
  | MProd i _ => t < i
  | MCons i _ => t < np + i
  | _ => t < np + nc
  end.

#[export] Instance created_dec m t : Decision (created m t).
Proof. destruct m; simpl; apply _. Defined.

Definition thread_ok (t : tid) (p : pc) (td : thread_data_t) : Prop :=
  (t < np ∧ td = data_of alloc cf t (core_prod t) ∧
     (p = Crashed ∨ ∃ q, p = Prod q ∧ prod_ok t q)) ∨
  (np ≤ t < np + nc ∧ td = data_of alloc cf (t - np) (core_cons (t - np)) ∧
     (p = Crashed ∨ ∃ c, p = Cons c ∧ cons_ok c)).

Record ctl_inv (s : bench S) (m : main_pc) : Prop := {
  ci_main : b_pc s (main_tid cf) = Main m;
  ci_main_ok : main_ok m;
  ci_none t : t ≠ main_tid cf → ¬ created m t → b_pc s t = NotStarted;
  ci_some t : t ≠ main_tid cf → created m t → thread_ok t (b_pc s t) (b_td s t);
}.

Lemma fresh_block_spec n ns h :
  fresh_block n ns h = true ↔
  Z.of_nat (length ns) = n ∧ NoDup ns.*1 ∧ Forall (λ p, h !! p = None) ns.*1.
Proof. unfold fresh_block. rewrite !andb_true_iff, !bool_decide_eq_true. tauto. Qed.

(** Effects that are undefined in some states. *)
Definition can_crash {K} (a : act K) : bool :=
  match a with
  | AStore _ _ _ | ALoad _ _ | AFree _ _ _ | AEnqueue _ _ _ | ADequeue _ _ => true
  | _ => false
  end.

Lemma ctl_prod s m (t : tid) p :
  ctl_inv s m → b_pc s t = Prod p → t < np ∧ b_td s t = data_of alloc cf t (core_prod t) ∧ prod_ok t p.
Proof.
  intros Hinv Hp. assert (t ≠ main_tid cf) as Ht by (intros ->; by rewrite (ci_main s m Hinv) in Hp).
  destruct (decide (created m t)) as [Hc|Hc]; [|by rewrite (ci_none s m Hinv) in Hp].
  destruct (ci_some s m Hinv t Ht Hc) as [(? & ? & [E|(? & E & ?)])|(? & ? & [E|(? & E & ?)])];
    rewrite E in Hp; simplify_eq; auto.
Qed.

Lemma ctl_cons s m (t : tid) c :
  ctl_inv s m → b_pc s t = Cons c →
  np ≤ t < np + nc ∧ b_td s t = data_of alloc cf (t - np) (core_cons (t - np)) ∧ cons_ok c.
Proof.
  intros Hinv Hp. assert (t ≠ main_tid cf) as Ht by (intros ->; by rewrite (ci_main s m Hinv) in Hp).
  destruct (decide (created m t)) as [Hc|Hc]; [|by rewrite (ci_none s m Hinv) in Hp].
  destruct (ci_some s m Hinv t Ht Hc) as [(? & ? & [E|(? & E & ?)])|(? & ? & [E|(? & E & ?)])];
    rewrite E in Hp; simplify_eq; auto.
Qed.

Lemma ctl_main s m (t : tid) m' : ctl_inv s m → b_pc s t = Main m' → t = main_tid cf ∧ m' = m.
Proof.
  intros Hinv Hp. destruct (decide (t = main_tid cf)) as [->|Ht].
  { rewrite (ci_main s m Hinv) in Hp. by simplify_eq. }
  destruct (decide (created m t)) as [Hc|Hc]; [|by rewrite (ci_none s m Hinv) in Hp].
  destruct (ci_some s m Hinv t Ht Hc) as [(? & ? & [|(? & ? & ?)])|(? & ? & [|(? & ? & ?)])]; congruence.
Qed.

(** How a step changes program points. *)
Lemma act_step_pc t lab a s s' (P : pc → Prop) :
  act_step Qs cf ncores t lab a s = Some s' → act_all P a →
  match a with
  | ACreate r i td k =>
      (b_exit s' ≠ None ∧ b_pc s' = b_pc s ∧ b_td s' = b_td s) ∨
      (¬ 0 ≤ obj td < ncores ∧ b_pc s' = <[t := Crashed]> (b_pc s) ∧ b_td s' = b_td s) ∨
      (b_pc s' = <[t := k]> (<[tid_of cf r i := start_pc r]> (b_pc s)) ∧
       b_td s' = <[tid_of cf r i := td]> (b_td s))
  | _ =>
      b_td s' = b_td s ∧
      (b_pc s' = b_pc s ∨ ∃ k, (can_crash a = true ∧ k = Crashed ∨ P k) ∧ b_pc s' = <[t := k]> (b_pc s))
  end.
Proof.
  intros Hs HP. destruct a; simpl in Hs, HP.
  all: destruct lab; try done; unfold barrier_arrive, enqueue_step, dequeue_step in Hs.
  all: repeat (case_match; simpl in *; try done); simplify_eq/=; try (by eauto 8).
  all: try (split; [done|]; right; eexists; split; [|reflexivity]; right; apply HP).
  - rewrite length_fmap. by apply fresh_block_spec in H as [? _].
  - by case_bool_decide.
  - right. left. by case_bool_decide.
Qed.

Definition creates {K} (a : act K) : bool :=
  match a with ACreate _ _ _ _ => true | _ => false end.

Lemma creates_map {K K'} (f : K → K') a : creates (act_map f a) = creates a.
Proof. by destruct a. Qed.

Lemma creates_produce td p : creates (spec_produce alloc td p) = false.
Proof. destruct p; simpl; repeat case_match; done. Qed.

Lemma creates_consume td c : creates (spec_consume alloc count td c) = false.
Proof. destruct c; simpl; repeat case_match; done. Qed.

(** A step of a created thread. *)
Lemma thread_step_ok t lab a s s' :
  t ≠ main_tid cf → thread_ok t (b_pc s t) (b_td s t) →
  thread_act (spec_program alloc count) cf (b_td s t) (b_pc s t) = Some a →
  act_step Qs cf ncores t lab a s = Some s' →
  b_td s' = b_td s ∧
  thread_ok t (b_pc s' t) (b_td s t) ∧ ∀ u, u ≠ t → b_pc s' u = b_pc s u.
Proof.
  intros Ht Hok Ha Hs.
  assert (creates a = false ∧ act_all (λ k, thread_ok t k (b_td s t)) a) as [Hc Hall].
  { destruct Hok as [(Hlt & Htd & [Hp|(p & Hp & Hok)])|(Hlt & Htd & [Hp|(p & Hp & Hok)])];
      rewrite Hp, Htd in Ha; simplify_eq/=; rewrite creates_map.
    - split; [apply creates_produce|]. eapply act_all_map; [|by apply produce_local].
      intros k Hk. left. eauto 6.
    - split; [apply creates_consume|]. eapply act_all_map; [|by apply consume_local].
      intros k Hk. right. eauto 6. }
  pose proof (act_step_pc t lab a s s' _ Hs Hall) as Hpc. 
  assert (∀ k, can_crash a = true ∧ k = Crashed ∨ thread_ok t k (b_td s t) → thread_ok t k (b_td s t)) as Hcr.
  { intros k [[_ ->]|]; [|done]. destruct Hok as [(?&?&_)|(?&?&_)]; [left|right]; auto. }
  destruct a; try done; destruct Hpc as [Htd [Hpc|(k' & Hk & Hpc)]]; (split; [done|]).
  all: rewrite Hpc; try done.
  all: rewrite fn_lookup_insert; split; [by apply Hcr|intros u Hu; by rewrite fn_lookup_insert_ne].
Qed.


Lemma ctl_inv_start s : b_init Qs cf s → ctl_inv s (MProd 0 1).
Proof.
  intros (q & td0 & _ & ->). destruct Hvalid as [Hnc _]. split; simpl.
  - by simpl_fn.
  - unfold core_prod. rewrite bool_decide_eq_true_2 by lia. lia.
  - intros t Ht _. by simpl_fn.
  - intros t Ht Hc. simpl in Hc. lia.
Qed.

Lemma main_tid_Z : Z.of_nat (main_tid cf) = np + nc.
Proof. destruct Hvalid. unfold main_tid. lia. Qed.

Lemma tid_of_Z r i : 0 ≤ i → Z.of_nat (tid_of cf r i) = match r with RProd => i | RCons => np + i end.
Proof. destruct Hvalid. unfold tid_of. destruct r; lia. Qed.

(** [main] creates the next thread. *)
Lemma ctl_inv_create s s' m m' r i j :
  ctl_inv s m → main_ok m' → 0 ≤ i →
  b_pc s' = <[main_tid cf := Main m']> (<[tid_of cf r i := start_pc r]> (b_pc s)) →
  b_td s' = <[tid_of cf r i := data_of alloc cf i j]> (b_td s) →
  (match r with RProd => i < np ∧ j = core_prod i | RCons => i < nc ∧ j = core_cons i end) →
  (∀ t, created m' t ↔ t = Z.of_nat (tid_of cf r i) ∨ created m t) →
  ctl_inv s' m'.
Proof.
  intros [H1 H2 H3 H4] Hm' Hi Hpc Htd Hr Hc. pose proof main_tid_Z as Hmt.
  pose proof (tid_of_Z r i Hi) as Hid. split; [| |intros t Ht Hn|intros t Ht Hcr].
  - rewrite Hpc. by simpl_fn.
  - done.
  - rewrite Hpc. rewrite Hc in Hn. rewrite !fn_lookup_insert_ne; auto; intros ->; auto.
  - rewrite Hpc, Htd, fn_lookup_insert_ne by auto. destruct (decide (t = tid_of cf r i)) as [->|Hne].
    + rewrite !fn_lookup_insert. destruct r; [left|right]; rewrite Hid.
      * destruct Hr as [? ->]. split_and!; try done; right; eexists; (split; [reflexivity|apply stage_start]).
      * destruct Hr as [? ->]. replace (np + i - np) with i by lia.
        split_and!; try done; try lia; right; eexists; (split; [reflexivity|apply stage_start]).
    + rewrite !fn_lookup_insert_ne by done. apply H4; [done|]. apply Hc in Hcr as [?|?]; [lia|done].
Qed.

Lemma ctl_inv_main s s' m m' :
  ctl_inv s m → main_ok m' → b_td s' = b_td s →
  b_pc s' = <[main_tid cf := Main m']> (b_pc s) → (∀ t, created m' t ↔ created m t) →
  ctl_inv s' m'.
Proof.
  intros [H1 H2 H3 H4] Hm' Htd Hpc Hc. split; [| |intros t Ht Hn|intros t Ht Hcr]; rewrite ?Hpc, ?Htd.
  - by simpl_fn.
  - done.
  - rewrite fn_lookup_insert_ne by done. apply H3; [done|]. by rewrite <-Hc.
  - rewrite fn_lookup_insert_ne by done. apply H4; [done|]. by apply Hc.
Qed.

Lemma core_range i : 0 ≤ i → (i < np → 0 ≤ core_prod i < ncores) ∧ (i < nc → 0 ≤ core_cons i < ncores).
Proof.
  destruct Hvalid as [Hnc _]. unfold core_prod, core_cons. intros Hi. case_bool_decide; lia.
Qed.

Lemma ctl_inv_same s s' m : ctl_inv s m → b_pc s' = b_pc s → b_td s' = b_td s → ctl_inv s' m.
Proof. intros [H1 H2 H3 H4] Hpc Htd. by split; rewrite ?Hpc, ?Htd. Qed.

Lemma main_local_created m :
  main_ok m → creates (spec_main alloc cf m) = false →
  act_all (λ m', main_ok m' ∧ ∀ t, created m' t ↔ created m t) (spec_main alloc cf m).
Proof.
  intros Hok Hcr. pose proof (main_local m Hok) as Hl.
  destruct m as [i j|i j|i| | | | | | | |i ti tf|i ti tf|]; simpl in *; repeat case_bool_decide; try done;
    simpl in *; try done; (split; [done|]); intros t; simpl; lia.
Qed.

(** A step of [main]. *)
Lemma ctl_inv_main_step s s' m lab :
  ctl_inv s m → act_step Qs cf ncores (main_tid cf) lab (act_map Main (spec_main alloc cf m)) s = Some s' →
  ∃ m', ctl_inv s' m'.
Proof.
  intros Hinv Hs. pose proof (ci_main_ok s m Hinv) as Hok.
  destruct (creates (spec_main alloc cf m)) eqn:Hcr.
  - pose proof (main_local m Hok) as Hok'.
    pose proof (act_step_pc _ _ _ _ _ (λ _, True) Hs ltac:(by destruct (spec_main alloc cf m))) as Hpc.
    destruct m as [i j|i j|i| | | | | | | |i ti tf|i ti tf|]; simpl in *; repeat case_bool_decide; try done.
    all: destruct Hok as [Hi ->]; destruct (core_range i) as [Hcp Hcc]; [lia|].
    all: destruct Hpc as [(_ & Hpc & Htd)|[(Hbad & _)|[Hpc Htd]]]; try (exfalso; simpl in Hbad; lia).
    all: try by (eexists; eapply ctl_inv_same).
    all: eexists; refine (ctl_inv_create _ _ _ _ _ _ _ Hinv Hok' _ Hpc Htd _ _); try lia; try done;
      intros t; rewrite tid_of_Z by lia; simpl; lia.
  - assert (act_all (λ k, ∃ m', k = Main m' ∧ main_ok m' ∧ ∀ t, created m' t ↔ created m t)
      (act_map Main (spec_main alloc cf m))) as Hall.
    { eapply act_all_map; [|by apply main_local_created]. eauto. }
    pose proof (act_step_pc _ _ _ _ _ _ Hs Hall) as Hpc.
    assert (can_crash (act_map Main (spec_main alloc cf m)) = false) as Hnc.
    { destruct m; simpl; repeat case_bool_decide; done. }
    rewrite <-(creates_map Main) in Hcr.
    destruct (act_map Main (spec_main alloc cf m)); try done.
    all: destruct Hpc as [Htd [Hpc|(k' & [[? _]|(m' & -> & Hm' & Hc)] & Hpc)]]; try done;
      try by (eexists; eapply ctl_inv_same).
    all: by (eexists; eapply ctl_inv_main).
Qed.

Lemma ctl_inv_step t lab s s' m : ctl_inv s m → step t lab s = Some s' → ∃ m', ctl_inv s' m'.
Proof.
  intros Hinv Hs. unfold b_step in Hs. destruct (b_exit s); [done|].
  destruct (b_wait s t) as [g|].
  { destruct lab; try done. case_bool_decide; [|done]. simplify_eq. exists m. by apply (ctl_inv_same s). }
  destruct (thread_act _ _ _ _) as [a|] eqn:Ha; [|done].
  destruct (decide (t = main_tid cf)) as [->|Ht].
  { rewrite (ci_main s m Hinv) in Ha. simplify_eq/=. by eapply ctl_inv_main_step. }
  destruct (decide (created m t)) as [Hc|Hc]; [|by rewrite (ci_none s m Hinv t Ht Hc) in Ha].
  destruct (thread_step_ok t lab a s s' Ht (ci_some s m Hinv t Ht Hc) Ha Hs) as (Htd & Hok & Hoth).
  exists m. destruct Hinv as [H1 H2 H3 H4]. split; [by rewrite Hoth|done| |].
  - intros u Hu Hcu. destruct (decide (u = t)) as [->|]; [done|]. rewrite Hoth; auto.
  - intros u Hu Hcu. rewrite Htd. destruct (decide (u = t)) as [->|]; [done|]. rewrite Hoth; auto.
Qed.

Lemma ctl_reachable s :
  reachable (sys := bench_lts Qs (spec_program alloc count) cf ncores) s → ∃ m, ctl_inv s m.
Proof.
  induction 1 as [s Hi|[t lab] s s' _ [m IH] Hs]; [eexists; by apply ctl_inv_start|].
  exact (ctl_inv_step t lab s s' m IH Hs).
Qed.

(** ** The barrier keeps the threads together *)

Definition no_crash (s : bench S) : Prop := ∀ t, b_pc s t ≠ Crashed.

Definition threads : list tid := seq 0 (Datatypes.S (main_tid cf)).

Lemma elem_of_threads (t : tid) : t ∈ threads ↔ (t ≤ main_tid cf)%nat.
Proof. unfold threads. rewrite elem_of_seq. lia. Qed.

Lemma length_threads : Z.of_nat (length threads) = barrier_count cf.
Proof. pose proof main_tid_Z. unfold threads, barrier_count. rewrite length_seq. lia. Qed.

(** The threads that have arrived at barrier number [g]. *)
Definition arrived (s : bench S) (g : Z) : list tid := filter (λ t, arr (b_pc s t) = g + 1) threads.

Record bar_inv (s : bench S) : Prop := {
  bi_run (t : tid) : t ∈ threads → b_wait s t = None → arr (b_pc s t) = b_gen s;
  bi_wait (t : tid) g : t ∈ threads → b_wait s t = Some g →
    arr (b_pc s t) = g + 1 ∧ (g = b_gen s ∨ g + 1 = b_gen s);
  bi_arrived : b_arrived s = Z.of_nat (length (arrived s (b_gen s)));
  bi_count : b_arrived s < barrier_count cf;
}.

Lemma bar_inv_start s : b_init Qs cf s → bar_inv s.
Proof.
  intros (q & td0 & _ & ->). pose proof main_tid_Z as Hm. destruct Hvalid.
  assert (∀ t, arr ((<[main_tid cf:=Main (MProd 0 1)]> (λ _, NotStarted)) t) = 0) as Hz.
  { intros t. by same_tid (main_tid cf) t. }
  split; simpl.
  - intros t _ _. apply Hz.
  - done.
  - unfold arrived. simpl. rewrite filter_none; [done|]. intros t _. rewrite Hz. lia.
  - unfold barrier_count. lia.
Qed.

(** Steps that are not about the barrier. *)
Lemma bar_inv_frame s s' :
  bar_inv s → b_gen s' = b_gen s → b_arrived s' = b_arrived s → b_wait s' = b_wait s →
  (∀ t, arr (b_pc s' t) = arr (b_pc s t)) → bar_inv s'.
Proof.
  intros [H1 H2 H3 H4] Hg Ha Hw Hp. split; rewrite ?Hg, ?Ha, ?Hw; intros; rewrite ?Hp; auto.
  rewrite H3. unfold arrived. f_equal. f_equal. apply list_filter_iff. intros t. by rewrite Hp.
Qed.

Lemma bar_inv_leave s t g :
  bar_inv s → b_wait s t = Some g → g < b_gen s → bar_inv (barrier_leave t s).
Proof.
  intros [H1 H2 H3 H4] Hw Hg. split; simpl; try done.
  - intros u Hu Hwu. same_tid t u; [|auto]. destruct (H2 t g Hu Hw) as [-> ?]. lia.
  - intros u g' Hu Hwu. same_tid t u; [done|auto].
Qed.

Lemma arrived_insert s s' (t : tid) :
  t ∈ threads → arr (b_pc s t) = b_gen s → arr (b_pc s' t) = b_gen s + 1 →
  (∀ u, u ≠ t → b_pc s' u = b_pc s u) →
  arrived s' (b_gen s) ≡ₚ t :: arrived s (b_gen s).
Proof.
  intros Ht Ha Ha' Hu. apply NoDup_Permutation.
  - apply NoDup_filter, NoDup_seq.
  - apply NoDup_cons. split; [|apply NoDup_filter, NoDup_seq]. intros [? _]%list_elem_of_filter. lia.
  - intros u. unfold arrived. rewrite elem_of_cons, !list_elem_of_filter.
    destruct (decide (u = t)) as [->|Hne]; [naive_solver|]. rewrite (Hu u Hne). naive_solver.
Qed.

Lemma bar_inv_arrive s (t : tid) k :
  bar_inv s → t ∈ threads → b_wait s t = None → arr k = arr (b_pc s t) + 1 →
  bar_inv (barrier_arrive cf t k s).
Proof.
  intros [H1 H2 H3 H4] Ht Hw Hk. pose proof (H1 t Ht Hw) as Hg.
  pose proof (arrived_insert s (barrier_arrive cf t k s) t Ht Hg) as Hins.
  assert (arrived (barrier_arrive cf t k s) (b_gen s) ≡ₚ t :: arrived s (b_gen s)) as Hperm.
  { apply Hins; unfold barrier_arrive; case_bool_decide; simpl; simpl_fn; try lia;
      intros u ?; by rewrite fn_lookup_insert_ne. }
  assert (∀ u g, b_wait (barrier_arrive cf t k s) u = g →
    u = t ∧ g = Some (b_gen s) ∧ arr (b_pc (barrier_arrive cf t k s) u) = b_gen s + 1 ∨
    u ≠ t ∧ b_wait s u = g ∧ b_pc (barrier_arrive cf t k s) u = b_pc s u) as Hcase.
  { intros u g. unfold barrier_arrive. case_bool_decide; simpl; intros <-; same_tid t u; auto;
      left; split_and!; try done; lia. }
  assert (∀ u, b_arrived s + 1 = barrier_count cf → u ∈ threads →
    u = t ∨ arr (b_pc s u) = b_gen s + 1) as Hall.
  { intros u Hlast Hu. assert (threads ≡ₚ t :: arrived s (b_gen s)) as Hthr.
    { symmetry. apply submseteq_length_Permutation.
      - apply NoDup_submseteq; [rewrite <-Hperm; apply NoDup_filter, NoDup_seq|].
        intros x. rewrite <-Hperm. by intros [_ ?]%list_elem_of_filter.
      - pose proof length_threads. rewrite length_cons. lia. }
    rewrite Hthr, elem_of_cons in Hu. destruct Hu as [?|[? _]%list_elem_of_filter]; auto. }
  assert (b_gen (barrier_arrive cf t k s) =
    if bool_decide (b_arrived s + 1 = barrier_count cf) then b_gen s + 1 else b_gen s) as Hgen.
  { unfold barrier_arrive. by case_bool_decide. }
  split.
  - intros u Hu Hwu. apply Hcase in Hwu as [(_ & ? & _)|(Hne & Hwu & ->)]; [done|].
    rewrite Hgen. pose proof (H1 u Hu Hwu). case_bool_decide as Hl; [|done].
    destruct (Hall u Hl Hu); [done|lia].
  - intros u g Hu Hwu. rewrite Hgen.
    apply Hcase in Hwu as [(-> & [= ->] & Harr)|(Hne & Hwu & ->)]; [case_bool_decide; lia|].
    destruct (H2 u g Hu Hwu). case_bool_decide as Hl; [|done]. destruct (Hall u Hl Hu); [done|lia].
  - rewrite Hgen. unfold barrier_arrive in Hperm |- *.
    case_bool_decide as Hl; simpl in *; [|rewrite Hperm; simpl; lia].
    unfold arrived. simpl. rewrite filter_none; [done|]. intros u Hu Harr.
    same_tid t u; [lia|]. destruct (Hall u Hl Hu); [done|lia].
  - unfold barrier_arrive. case_bool_decide; simpl; [|lia]. destruct Hvalid. unfold barrier_count. lia.
Qed.


Lemma act_step_bar t lab a s s' :
  act_step Qs cf ncores t lab a s = Some s' → barriers a = 0 →
  b_gen s' = b_gen s ∧ b_arrived s' = b_arrived s ∧ b_wait s' = b_wait s.
Proof.
  intros Hs Hb. destruct a; destruct lab; try done; simpl in Hs;
    unfold enqueue_step, dequeue_step in Hs; repeat (case_match; try done); by simplify_eq/=.
Qed.

Lemma barriers_map {K K'} (f : K → K') a : barriers (act_map f a) = barriers a.
Proof. by destruct a. Qed.

(** Who may act, and what the act does to the count of barriers. *)
Lemma ctl_act t s m a :
  ctl_inv s m → thread_act (spec_program alloc count) cf (b_td s t) (b_pc s t) = Some a →
  t ∈ threads ∧ (t = main_tid cf ∨ creates a = false) ∧
  act_all (λ k, arr k = arr (b_pc s t) + barriers a) a.
Proof.
  intros Hinv Ha. pose proof main_tid_Z as Hmt. destruct Hvalid as [Hnc _]. rewrite elem_of_threads.
  destruct (decide (t = main_tid cf)) as [->|Ht].
  { rewrite (ci_main s m Hinv) in Ha |- *. simplify_eq/=. split_and!; [lia|by left|].
    eapply act_all_map; [|by apply main_arr, (ci_main_ok s)]. intros k Hk. by rewrite barriers_map. }
  destruct (decide (created m t)) as [Hc|Hc]; [|by rewrite (ci_none s m Hinv t Ht Hc) in Ha].
  destruct (ci_some s m Hinv t Ht Hc)
    as [(Hlt & Htd & [Hp|(p & Hp & Hok)])|(Hlt & Htd & [Hp|(p & Hp & Hok)])];
    rewrite Hp, Htd in Ha; rewrite ?Hp; simplify_eq/=; rewrite creates_map.
  - split_and!; [lia|right; apply creates_produce|].
    eapply act_all_map; [|by eapply produce_arr]. intros k Hk. by rewrite barriers_map.
  - split_and!; [lia|right; apply creates_consume|].
    eapply act_all_map; [|by eapply consume_arr]. intros k Hk. by rewrite barriers_map.
Qed.

Lemma ctl_child s m r i td k :
  ctl_inv s m → act_map Main (spec_main alloc cf m) = ACreate r i td k →
  b_pc s (tid_of cf r i) = NotStarted ∧ tid_of cf r i ≠ main_tid cf.
Proof.
  intros Hinv Ha. pose proof main_tid_Z as Hmt. pose proof (ci_main_ok s m Hinv) as Hok.
  destruct Hvalid as [Hnc _].
  assert (0 ≤ i ∧ ¬ created m (tid_of cf r i) ∧ tid_of cf r i ≠ main_tid cf) as (Hi & Hc & Hne).
  { destruct m; simpl in *; repeat case_bool_decide; simplify_eq/=; split_and!; try lia.
    all: pose proof (tid_of_Z r i ltac:(lia)); simpl in *; lia. }
  split; [|done]. by apply (ci_none s m Hinv).
Qed.

Lemma bar_inv_step t lab s s' m :
  ctl_inv s m → bar_inv s → no_crash s' → step t lab s = Some s' → bar_inv s'.
Proof.
  intros Hctl Hbar Hnc Hs. unfold b_step in Hs. destruct (b_exit s); [done|].
  destruct (b_wait s t) as [g|] eqn:Hw.
  { destruct lab; try done. case_bool_decide; [|done]. simplify_eq. by eapply bar_inv_leave. }
  destruct (thread_act _ _ _ _) as [a|] eqn:Ha; [|done].
  destruct (ctl_act t s m a Hctl Ha) as (Ht & Hcr & Hall).
  destruct (decide (barriers a = 0)) as [Hb|Hb].
  - destruct (act_step_bar t lab a s s' Hs Hb) as (Hg & Harr & Hwait).
    apply (bar_inv_frame s); try done. rewrite Hb in Hall. intros u.
    pose proof (act_step_pc t lab a s s' _ Hs Hall) as Hpc. pose proof (Hnc t) as Hnt.
    destruct a; try done.
    all: try (destruct Hpc as [_ [->|(k' & [[_ ->]|Hk] & Hpc)]]; [done|rewrite Hpc, fn_lookup_insert in Hnt; done|]).
    all: try (rewrite Hpc; same_tid t u; [lia|done]).
    destruct Hcr as [->|?]; [|done]. rewrite (ci_main s m Hctl) in Ha. simplify_eq/=.
    destruct (ctl_child s m r i td k Hctl Ha) as [Hch Hne].
    destruct Hpc as [(_ & -> & _)|[(_ & Hpc & _)|[Hpc _]]]; [done| |]; rewrite Hpc in Hnt |- *; simpl_fn; [done|].
    same_tid (main_tid cf) u; [lia|]. destruct (decide (u = tid_of cf r i)) as [->|]; simpl_fn; [|done].
    rewrite Hch. by destruct r.
  - destruct a; try done. destruct lab; try done. simpl in *. simplify_eq. by apply bar_inv_arrive.
Qed.


(** ** The counter [g_done] *)

(** Producers that have incremented [g_done], that own [g_mutex], that send
    stop nodes, and the value they are about to write. *)
Definition counted (p : pc) : bool :=
  match p with
  | Prod (PUnlock _ | PCheck _ | PTmp _ | PStop _ _ | PStopSet _ _ _ | PStopEnq _ _ _
         | PEnd1 _ | PEnd2 _ | PFreeTmp _ | PFree _ | PExit _) => true
  | _ => false
  end.
Definition locked (p : pc) : bool :=
  match p with Prod (PRead _ | PWrite _ _ | PUnlock _) => true | _ => false end.
Definition stopping (p : pc) : bool :=
  match p with Prod (PTmp _ | PStop _ _ | PStopSet _ _ _ | PStopEnq _ _ _) => true | _ => false end.
Definition writes (p : pc) : option Z :=
  match p with Prod (PWrite v _) => Some v | _ => None end.

Definition producers : list tid := seq 0 (Z.to_nat np).

Definition counters (pcs : tid → pc) : list tid := filter (λ t, counted (pcs t) = true) producers.

Record done_inv (s : bench S) : Prop := {
  di_done : b_done s = Z.of_nat (length (counters (b_pc s)));
  di_mutex t : locked (b_pc s t) = true ↔ b_mutex s = Some t;
  di_write t v : writes (b_pc s t) = Some v → v = b_done s + 1;
  di_stop t : stopping (b_pc s t) = true → b_done s = np;
}.

Lemma counters_all s (t : tid) :
  done_inv s → b_done s = np → t < np → counted (b_pc s t) = true.
Proof.
  intros Hd Hnp Ht. destruct Hvalid as [Hnc _]. rewrite (di_done s Hd) in Hnp.
  assert (counters (b_pc s) ≡ₚ producers) as Hp.
  { apply submseteq_length_Permutation.
    - apply NoDup_submseteq; [apply NoDup_filter, NoDup_seq|]. by intros x [_ ?]%list_elem_of_filter.
    - unfold producers in *. rewrite length_seq. lia. }
  assert (t ∈ counters (b_pc s)) as [? _]%list_elem_of_filter; [|done].
  rewrite Hp. apply elem_of_seq. lia.
Qed.

Lemma done_inv_frame s s' :
  done_inv s → b_done s' = b_done s → b_mutex s' = b_mutex s →
  (∀ t, counted (b_pc s' t) = counted (b_pc s t) ∧ locked (b_pc s' t) = locked (b_pc s t) ∧
        writes (b_pc s' t) = writes (b_pc s t) ∧
        (stopping (b_pc s' t) = true → stopping (b_pc s t) = true ∨ b_done s = np)) →
  done_inv s'.
Proof.
  intros [H1 H2 H3 H4] Hd Hm Hp. split; rewrite ?Hd, ?Hm.
  - rewrite H1. unfold counters. f_equal. f_equal. apply list_filter_iff. intros t.
    by destruct (Hp t) as [-> _].
  - intros t. destruct (Hp t) as (_ & -> & _). apply H2.
  - intros t v. destruct (Hp t) as (_ & _ & -> & _). apply H3.
  - intros t Ht. destruct (Hp t) as (_ & _ & _ & Hs). destruct (Hs Ht); eauto.
Qed.

Lemma done_inv_start s : b_init Qs cf s → done_inv s.
Proof.
  intros (q & td0 & _ & ->).
  assert (∀ t, ∃ p, (<[main_tid cf:=Main (MProd 0 1)]> (λ _, NotStarted)) t = p ∧
    counted p = false ∧ locked p = false ∧ writes p = None ∧ stopping p = false) as Hp.
  { intros t. eexists. split; [done|]. by same_tid (main_tid cf) t. }
  split; simpl.
  - unfold counters. rewrite filter_none; [done|]. intros t _. destruct (Hp t) as (p & -> & -> & _). done.
  - intros t. destruct (Hp t) as (p & -> & _ & -> & _). done.
  - intros t v. destruct (Hp t) as (p & -> & _ & _ & -> & _). done.
  - intros t. destruct (Hp t) as (p & -> & _ & _ & _ & ->). done.
Qed.

(** Effects that involve neither [g_mutex] nor a store to [g_done]. *)
Definition unsynced {K} (a : act K) : bool :=
  match a with ALock _ | AUnlock _ | AWriteDone _ _ | AReadDone _ => false | _ => true end.

Lemma unsynced_map {K K'} (f : K → K') a : unsynced (act_map f a) = unsynced a.
Proof. by destruct a. Qed.

Lemma act_step_sync t lab a s s' :
  act_step Qs cf ncores t lab a s = Some s' → unsynced a = true →
  b_done s' = b_done s ∧ b_mutex s' = b_mutex s.
Proof.
  intros Hs Hb. destruct a; destruct lab; try done; simpl in Hs;
    unfold enqueue_step, dequeue_step, barrier_arrive in Hs; repeat (case_match; try done); by simplify_eq/=.
Qed.

(** What such an effect does to the view of the thread. *)
Definition same_sync (p k : pc) : Prop :=
  counted k = counted p ∧ locked k = locked p ∧ writes k = writes p ∧
  (stopping k = true → stopping p = true).

Lemma produce_sync td p :
  unsynced (spec_produce alloc td p) = true →
  act_all (λ k, same_sync (Prod p) (Prod k)) (spec_produce alloc td p).
Proof.
  intros Hu. destruct p; simpl in *; repeat (case_match; simpl in * ); try done.
Qed.

(** The steps that involve [g_mutex] or [g_done]. *)
Lemma done_inv_lock s t l :
  done_inv s → b_pc s t = Prod (PLock l) → b_mutex s = None →
  done_inv (set_pc t (Prod (PRead l)) (set_mutex (Some t) s)).
Proof.
  intros [H1 H2 H3 H4] Hp Hm. split; simpl.
  - rewrite H1. unfold counters. f_equal. f_equal. apply list_filter_iff. intros u.
    same_tid t u; [by rewrite Hp|done].
  - intros u. same_tid t u; [done|]. rewrite H2, Hm. naive_solver.
  - intros u v. same_tid t u; [done|]. apply H3.
  - intros u. same_tid t u; [done|]. apply H4.
Qed.

Lemma done_inv_read s t l :
  done_inv s → b_pc s t = Prod (PRead l) → done_inv (set_pc t (Prod (PWrite (b_done s + 1) l)) s).
Proof.
  intros [H1 H2 H3 H4] Hp. split; simpl.
  - rewrite H1. unfold counters. f_equal. f_equal. apply list_filter_iff. intros u.
    same_tid t u; [by rewrite Hp|done].
  - intros u. same_tid t u; [|done]. rewrite <-H2, Hp. done.
  - intros u v. same_tid t u; [naive_solver|]. apply H3.
  - intros u. same_tid t u; [done|]. apply H4.
Qed.

Lemma done_inv_write s t v l :
  done_inv s → t ∈ producers → b_pc s t = Prod (PWrite v l) →
  done_inv (set_pc t (Prod (PUnlock l)) (set_done v s)).
Proof.
  intros Hd Ht Hp. pose proof Hd as [H1 H2 H3 H4]. pose proof (H3 t v ltac:(by rewrite Hp)) as ->.
  assert (counters (<[t := Prod (PUnlock l)]> (b_pc s)) ≡ₚ t :: counters (b_pc s)) as Hc.
  { apply NoDup_Permutation.
    - apply NoDup_filter, NoDup_seq.
    - apply NoDup_cons. split; [|apply NoDup_filter, NoDup_seq].
      intros [Hx _]%list_elem_of_filter. by rewrite Hp in Hx.
    - intros u. unfold counters. rewrite elem_of_cons, !list_elem_of_filter.
      same_tid t u; [|naive_solver]. naive_solver. }
  split; simpl.
  - rewrite Hc, H1. simpl. lia.
  - intros u. same_tid t u; [|done]. rewrite <-H2, Hp. done.
  - intros u v. same_tid t u; [done|]. intros Hw.
    assert (b_mutex s = Some t) as Hm by (by apply H2; rewrite Hp).
    assert (locked (b_pc s u) = true) as Hl by (by destruct (b_pc s u) as [|[]| | |]).
    apply H2 in Hl. naive_solver.
  - intros u. same_tid t u; [done|]. intros Hst. apply elem_of_seq in Ht.
    pose proof (counters_all s t Hd (H4 u Hst) ltac:(lia)) as Hc'. by rewrite Hp in Hc'.
Qed.

Lemma done_inv_unlock s t l :
  done_inv s → b_pc s t = Prod (PUnlock l) →
  done_inv (set_pc t (Prod (PCheck l)) (set_mutex None s)).
Proof.
  intros [H1 H2 H3 H4] Hp. assert (b_mutex s = Some t) as Hm by (by apply H2; rewrite Hp).
  split; simpl.
  - rewrite H1. unfold counters. f_equal. f_equal. apply list_filter_iff. intros u.
    same_tid t u; [by rewrite Hp|done].
  - intros u. same_tid t u; [done|]. rewrite H2, Hm. naive_solver.
  - intros u v. same_tid t u; [done|]. apply H3.
  - intros u. same_tid t u; [done|]. apply H4.
Qed.

Lemma done_inv_check s t k :
  done_inv s → counted k = counted (b_pc s t) → locked k = locked (b_pc s t) →
  writes k = writes (b_pc s t) → (stopping k = true → b_done s = np) →
  done_inv (set_pc t k s).
Proof.
  intros Hd Hc Hl Hw Hs. apply (done_inv_frame s); try done. intros u. simpl.
  same_tid t u; split_and!; auto.
Qed.

(** A producer, consumer or [main] step of the other kind. *)
Lemma ctl_act_sync t s m a :
  ctl_inv s m → thread_act (spec_program alloc count) cf (b_td s t) (b_pc s t) = Some a →
  unsynced a = true → act_all (same_sync (b_pc s t)) a.
Proof.
  intros Hinv Ha Hu. destruct (b_pc s t) as [|p|c|m'|]; simplify_eq/=; rewrite unsynced_map in Hu.
  - eapply act_all_map; [|by apply produce_sync]. done.
  - apply (act_all_map _ (λ _, True)); [done|]. by apply act_all_True.
  - apply (act_all_map _ (λ _, True)); [done|]. by apply act_all_True.
Qed.

Lemma synced_producer td p a :
  thread_act (spec_program alloc count) cf td p = Some a → unsynced a = false →
  ∃ l, (p = Prod (PLock l) ∧ a = ALock (Prod (PRead l))) ∨
       (p = Prod (PRead l) ∧ a = AReadDone (Prod ∘ λ v, PWrite (v + 1) l)) ∨
       (∃ v, p = Prod (PWrite v l) ∧ a = AWriteDone v (Prod (PUnlock l))) ∨
       (p = Prod (PUnlock l) ∧ a = AUnlock (Prod (PCheck l))) ∨
       (p = Prod (PCheck l) ∧ a = act_map Prod (spec_produce alloc td (PCheck l))).
Proof.
  intros Ha Hu. destruct p as [|p|c|m'|]; simplify_eq/=; rewrite unsynced_map in Hu.
  - destruct p; simpl in Hu; repeat case_match; try done; eauto 10.
  - destruct c; simpl in Hu; repeat case_match; done.
  - destruct m'; simpl in Hu; repeat case_match; done.
Qed.

Lemma done_inv_step t lab s s' m :
  ctl_inv s m → done_inv s → no_crash s' → step t lab s = Some s' → done_inv s'.
Proof.
  intros Hctl Hd Hnc Hs. unfold b_step in Hs. destruct (b_exit s); [done|].
  destruct (b_wait s t) as [g|] eqn:Hw.
  { destruct lab; try done. case_bool_decide; [|done]. simplify_eq. apply (done_inv_frame s); auto. }
  destruct (thread_act _ _ _ _) as [a|] eqn:Ha; [|done].
  destruct (unsynced a) eqn:Hu.
  - destruct (act_step_sync t lab a s s' Hs Hu) as [Hdn Hm]. apply (done_inv_frame s); try done. intros u.
    pose proof (ctl_act_sync t s m a Hctl Ha Hu) as Hall.
    pose proof (act_step_pc t lab a s s' _ Hs Hall) as Hpc. pose proof (Hnc t) as Hnt.
    destruct (ctl_act t s m a Hctl Ha) as (_ & Hcr & _).
    destruct a; try done.
    all: try (destruct Hpc as [_ [->|(k' & [[_ ->]|(?&?&?&?)] & Hpc)]];
      [by split_and!; auto|by rewrite Hpc, fn_lookup_insert in Hnt|rewrite Hpc; same_tid t u; by split_and!; auto]).
    destruct Hcr as [->|?]; [|done]. rewrite (ci_main s m Hctl) in Ha. simplify_eq/=.
    destruct (ctl_child s m r i td k Hctl Ha) as [Hch Hne].
    destruct Hpc as [(_ & -> & _)|[(_ & Hpc & _)|[Hpc _]]]; [by split_and!; auto| |]; rewrite Hpc in Hnt |- *; simpl_fn; [done|].
    same_tid (main_tid cf) u; [destruct Hall as (?&?&?&?); by split_and!; auto|].
    destruct (decide (u = tid_of cf r i)) as [->|]; simpl_fn; [|by split_and!; auto].
    rewrite Hch. by destruct r.
  - pose proof (synced_producer _ _ _ Ha Hu) as (l & Hcase).
    destruct Hcase as [[Hp ->]|[[Hp ->]|[(v & Hp & ->)|[[Hp ->]|[Hp ->]]]]];
      destruct lab; try done; simpl in Hs; [destruct (b_mutex s) eqn:Hm; [done|]|..]; simplify_eq.
    + by apply done_inv_lock.
    + by apply done_inv_read.
    + apply (done_inv_write _ _ _ _ Hd); [|done]. destruct (ctl_prod s m t _ Hctl Hp) as (? & _).
      apply elem_of_seq. lia.
    + by apply done_inv_unlock.
    + destruct (ctl_prod s m t _ Hctl Hp) as (_ & Htd & _). rewrite Htd. simpl.
      clear Hnc Ha. destruct (bool_decide_reflect (b_done s = np)), alloc; by apply done_inv_check; rewrite ?Hp.
Qed.
End machine.
End ctl.
