(* ===== verification/BenchFlow.v ===== *)
(** * Messages and memory of the benchmark programs

    While the benchmark runs, every node belongs to one thread or to one
    queue; what a consumer has seen, followed by what it has taken out and by
    what is still in its queue, is what the producers have sent there, each in
    its own order, followed by stop nodes; and nothing is accessed that is not
    allocated.  When the barrier at the end of the job opens, every consumer
    has seen a stop node, hence all its messages. *)

From S2P Require Import Prelude Lts QueueSpec Bench BenchSpec BenchCtl.

Local Open Scope Z_scope.

(** ** Filters on what a consumer sees *)

Definition is_msg (w : work_node_t) : Prop := wn_data w ≠ 0.
Definition is_from (t : Z) (w : work_node_t) : Prop := wn_data w ≠ 0 ∧ wn_id w = t.
#[export] Instance is_msg_dec w : Decision (is_msg w).
Proof. unfold is_msg. apply _. Defined.
#[export] Instance is_from_dec t w : Decision (is_from t w).
Proof. unfold is_from. apply _. Defined.

(** The part of a list of routed messages that goes to queue [k]. *)
Definition routed_to (k : Z) (l : list (Z * work_node_t)) : list work_node_t :=
  (filter (λ m, m.1 = k) l).*2.

(** Messages first, stop nodes last. *)
Definition stops_last (l : list work_node_t) : Prop :=
  ∃ l1 l2, l = l1 ++ l2 ∧ Forall is_msg l1 ∧ Forall (λ w, wn_data w = 0) l2.

Lemma routed_to_app k l l' : routed_to k (l ++ l') = routed_to k l ++ routed_to k l'.
Proof. unfold routed_to. by rewrite filter_app, fmap_app. Qed.

Lemma stops_last_snoc_stop l w : stops_last l → wn_data w = 0 → stops_last (l ++ [w]).
Proof.
  intros (l1 & l2 & -> & H1 & H2) Hw. exists l1, (l2 ++ [w]).
  rewrite (assoc_L (++)). split_and!; try done. apply Forall_app. auto.
Qed.

Lemma stops_last_snoc_msg l w : stops_last l → Forall is_msg l → is_msg w → stops_last (l ++ [w]).
Proof. intros _ Hl Hw. exists (l ++ [w]), []. rewrite app_nil_r. split_and!; [done|apply Forall_app; auto|done]. Qed.

(** All messages and then one stop node. *)
Definition ends_stopped (l : list work_node_t) : Prop :=
  ∃ l' w, l = l' ++ [w] ∧ Forall is_msg l' ∧ wn_data w = 0.

Lemma ends_stopped_stop l : ends_stopped l → Exists (λ w, wn_data w = 0) l.
Proof. intros (l' & w & -> & _ & Hw). apply Exists_app. right. by left. Qed.

Lemma ends_stopped_length l : ends_stopped l → length l = Datatypes.S (length (filter is_msg l)).
Proof.
  intros (l' & w & -> & Hl & Hw). rewrite filter_app, length_app, length_app, filter_cons_False; [|by intros Hm].
  assert (filter is_msg l' = l') as ->; [|simpl; lia].
  induction Hl as [|x l Hx Hl IH]; [done|]. by rewrite filter_cons_True, IH.
Qed.

(** Once a stop node has been seen, the rest holds no message. *)
Lemma stops_last_seen log rest :
  stops_last (log ++ rest) → Exists (λ w, wn_data w = 0) log → Forall (λ w, wn_data w = 0) rest.
Proof.
  intros (l1 & l2 & Heq & H1 & H2) [w [Hw Hs]]%Exists_exists.
  destruct (app_eq_inv _ _ _ _ Heq) as [(k & -> & ->)|(k & -> & ->)].
  - by apply Forall_app in H2 as [_ ?].
  - apply Forall_app in H1 as [H1 _]. rewrite Forall_forall in H1. by destruct (H1 w Hw).
Qed.

Section flow.
Context (alloc : bool) (count : ptr → Z) (cf : config).

Local Notation np := (cf_nproducers cf).
Local Notation nc := (cf_nconsumers cf).
Local Notation mpt := (cf_nmessages cf `quot` cf_nproducers cf).

(** The messages of producer [t] in the order in which it sends them, each
    with the queue it goes to. *)
Definition sends (t : Z) (permute : list Z) : list (Z * work_node_t) :=
  (λ j, (dest cf t permute j, WorkNode t (mpt - j))) <$> seqZ 0 mpt.

(** ** What a thread has, as a function of its program point and of its
    status in the queues *)

(** The call a thread is in: the queue, and the node for a push. *)
Definition busy (p : pc) (me : nat) : option (nat * option loc) :=
  match p with
  | Prod (PEnq _ q (Some n) _) => Some (Z.to_nat q, Some n)
  | Prod (PStopEnq i (Some n) _) => Some (Z.to_nat i, Some n)
  | Cons (CWhile false _ _) => Some (me, None)
  | _ => None
  end.

Definition status_ok (p : pc) (me : nat) (k : nat) (st : qstatus) : Prop :=
  match busy p me with
  | Some (k', on) =>
      if bool_decide (k = k') then
        match st with
        | QsIdle => True
        | QsPush n => on = Some n
        | QsPushed => is_Some on
        | QsPop | QsPopped _ => on = None
        end
      else st = QsIdle
  | None => st = QsIdle
  end.

(** Whether the push a thread is in has taken effect. *)
Definition pushed (p : pc) (st : nat → qstatus) : bool :=
  match p with
  | Prod (PEnq _ q _ _) => bool_decide (st (Z.to_nat q) = QsPushed)
  | Prod (PStopEnq i _ _) => bool_decide (st (Z.to_nat i) = QsPushed)
  | _ => false
  end.

Definition in_push (p : pc) (st : nat → qstatus) (n : option loc) : list loc :=
  if pushed p st then [] else option_list n.

(** Nodes taken out of the queue that the consumer has not looked at yet. *)
Definition pending (p : pc) (me : nat) (st : nat → qstatus) : list loc :=
  match p with
  | Cons (CWhile false _ _) => match st me with QsPopped (Some n) => [n] | _ => [] end
  | Cons (CNodes ns _ _ _) => ns
  | _ => []
  end.

(** Nodes that belong to the thread. *)
Definition own (p : pc) (me : nat) (st : nat → qstatus) : list loc :=
  match p with
  | Prod (PPerm _ l | PInit _ l | PBar1 l | PBar2 l | PBar3 l) => pl_nodes l
  | Prod (PLoop i l) => take (Z.to_nat (i + 1)) (pl_nodes l)
  | Prod (PSet i n l | PExtra i n l) => option_list n
  | Prod (PEnq i q n l) => take (Z.to_nat i) (pl_nodes l) ++ in_push p st n
  | Prod (PStop i l) => drop (Z.to_nat i) (default [] (pl_tmp l))
  | Prod (PStopSet i n l) => drop (Z.to_nat (i + 1)) (default [] (pl_tmp l)) ++ option_list n
  | Prod (PStopEnq i n l) => drop (Z.to_nat (i + 1)) (default [] (pl_tmp l)) ++ in_push p st n
  | Cons (CExtra n ns _ _ _ | CFree n ns _ _ _) => n :: ns
  | _ => pending p me st
  end.

(** The blocks a producer has to free. *)
Definition block (p : pc) : list loc :=
  match p with
  | Prod (PPerm _ l | PInit _ l | PBar1 l | PBar2 l | PBar3 l | PLoop _ l | PSet _ _ l | PExtra _ _ l
         | PEnq _ _ _ l | PLock l | PRead l | PWrite _ l | PUnlock l | PCheck l | PTmp l | PStop _ l
         | PStopSet _ _ l | PStopEnq _ _ l | PEnd1 l | PEnd2 l | PFreeTmp l) =>
      pl_nodes l ++ default [] (pl_tmp l)
  | Prod (PFree l) => pl_nodes l
  | _ => []
  end.

(** Messages sent so far, and the permutation they are routed by. *)
Definition progress (p : pc) (st : nat → qstatus) : Z :=
  match p with
  | Prod (PStage _ | PMalloc | PPerm _ _ | PInit _ _ | PBar1 _ | PBar2 _ | PBar3 _) => 0
  | Prod (PLoop i _ | PSet i _ _ | PExtra i _ _) => mpt - 1 - i
  | Prod (PEnq i _ _ _) => mpt - 1 - i + (if pushed p st then 1 else 0)
  | Prod _ => mpt
  | _ => 0
  end.

Definition perm_of (p : pc) : list Z :=
  match p with
  | Prod (PPerm _ l | PInit _ l | PBar1 l | PBar2 l | PBar3 l | PLoop _ l | PSet _ _ l | PExtra _ _ l
         | PEnq _ _ _ l | PLock l | PRead l | PWrite _ l | PUnlock l | PCheck l | PTmp l | PStop _ l
         | PStopSet _ _ l | PStopEnq _ _ l | PEnd1 l | PEnd2 l | PFreeTmp l | PFree l | PExit l) =>
      pl_permute l
  | _ => []
  end.

(** The messages producer [t] has sent so far. *)
Definition sent (t : Z) (p : pc) (st : nat → qstatus) : list (Z * work_node_t) :=
  take (Z.to_nat (progress p st)) (sends t (perm_of p)).

(** What is stored in the nodes a producer has not sent yet. *)
Definition holds (t : Z) (p : pc) (st : nat → qstatus) (h : gmap loc work_node_t) : Prop :=
  let upto l i := ∀ j n, j ≤ i → node_at (pl_nodes l) j = Some n → h !! n = Some (WorkNode t (1 + j)) in
  match p with
  | Prod (PInit i l) =>
      ∀ j n, i < j → node_at (pl_nodes l) j = Some n → h !! n = Some (WorkNode t (1 + j))
  | Prod (PBar1 l | PBar2 l | PBar3 l) => upto l (mpt - 1)
  | Prod (PLoop i l) => upto l i
  | Prod (PExtra i (Some n) l) => h !! n = Some (WorkNode t (1 + i))
  | Prod (PEnq i q (Some n) l) =>
      upto l (i - 1) ∧ (pushed p st = false → h !! n = Some (WorkNode t (1 + i)))
  | Prod (PStopEnq i (Some n) l) => pushed p st = false → ∃ id, h !! n = Some (WorkNode id 0)
  | _ => True
  end.

(** Whether a consumer has seen a stop node. *)
Definition stopped (p : pc) : bool :=
  match p with
  | Cons (CWhile d _ _ | CNodes _ d _ _ | CExtra _ _ d _ _ | CFree _ _ d _ _) => d
  | Cons (CTf _ _ | CEnd1 _ _ | CEnd2 _ _ | CExit _ _) => true
  | _ => false
  end.

(** ** The invariant while the job runs *)

Inductive owner := Thr (t : tid) | InQ (k : nat).

Section machine.
Context {L S : Type} (Qs : nat → Queue L S) (lax : bool).
Context (F : ∀ k, @FifoQueue L S (Qs k) lax).

(** The queue of consumer thread [t], and the thread of queue [k]. *)
Definition qi (t : tid) : nat := Z.to_nat (Z.of_nat t - np).
Definition consumer_of (k : nat) : tid := (Z.to_nat np + k)%nat.

Definition st_of (A : nat → fifo) (t : tid) (k : nat) : qstatus := ff_st (A k) t.
Definition own_of (s : bench S) (A : nat → fifo) (t : tid) : list loc :=
  own (b_pc s t) (qi t) (st_of A t).
Definition pend_of (s : bench S) (A : nat → fifo) (t : tid) : list loc :=
  pending (b_pc s t) (qi t) (st_of A t).

Definition content (h : gmap loc work_node_t) (n : loc) : work_node_t :=
  default (WorkNode 0 0) (h !! n).

(** What consumer [t] has seen or holds, and all that has gone into queue [k]. *)
Definition seen (s : bench S) (A : nat → fifo) (t : tid) : list work_node_t :=
  b_log s t ++ (content (b_heap s) <$> pend_of s A t).
Definition flow (s : bench S) (A : nat → fifo) (k : nat) : list work_node_t :=
  seen s A (consumer_of k) ++ (content (b_heap s) <$> ff_items (A k)).

Definition log_ok (p : pc) (log : list work_node_t) : Prop :=
  if stopped p then ends_stopped log else Forall is_msg log.

Record run_inv (s : bench S) (A : nat → fifo) (who : loc → owner) (blk : loc → tid) : Prop := {
  ri_rel k : @fq_rel _ _ _ _ (F k) (b_q s k) (A k);
  ri_st t k : status_ok (b_pc s t) (qi t) k (ff_st (A k) t);
  ri_own t n : n ∈ own_of s A t → who n = Thr t ∧ is_Some (b_heap s !! n);
  ri_items k n : n ∈ ff_items (A k) → who n = InQ k ∧ is_Some (b_heap s !! n);
  ri_own_nodup t : NoDup (own_of s A t);
  ri_items_nodup k : NoDup (ff_items (A k));
  ri_block t n : alloc = false → n ∈ block (b_pc s t) → blk n = t ∧ is_Some (b_heap s !! n);
  ri_block_nodup t : alloc = false → NoDup (block (b_pc s t));
  ri_holds (t : tid) : t < np → holds t (b_pc s t) (st_of A t) (b_heap s);
  ri_flow (t k : nat) : t < np → k < nc →
    filter (is_from t) (flow s A k) = routed_to k (sent t (b_pc s t) (st_of A t));
  ri_ids k : Forall (λ w, is_msg w → 0 ≤ wn_id w < np) (flow s A k);
  ri_stops k : stops_last (flow s A k);
  ri_done k : Exists (λ w, wn_data w = 0) (flow s A k) → b_done s = np;
  ri_seen (t : tid) : np ≤ t < np + nc → log_ok (b_pc s t) (b_log s t);
  ri_live : alloc = true → ∀ n, is_Some (b_heap s !! n) →
    (∃ t, n ∈ own_of s A t) ∨ (∃ k : nat, k < nc ∧ n ∈ ff_items (A k));
}.

Lemma holds_frame t p me st h h' :
  (∀ n, n ∈ own p me st → h' !! n = h !! n) → holds t p st h → holds t p st h'.
Proof.
  intros Hown. unfold holds. destruct p as [|p|c|m|]; try done.
  assert (∀ ns j i n, j ≤ i → node_at ns j = Some n → n ∈ take (Z.to_nat (i + 1)) ns) as Hat.
  { intros ns j i n Hj Hn. unfold node_at in Hn. case_bool_decide; [|done].
    apply list_elem_of_lookup. exists (Z.to_nat j). rewrite lookup_take_lt by lia. done. }
  assert (∀ ns j n, node_at ns j = Some n → n ∈ ns) as Hat'.
  { intros ns j n Hn. unfold node_at in Hn. case_bool_decide; [|done]. by eapply list_elem_of_lookup_2. }
  destruct p as [i| |i l|i l| | | |i l|i n l|i n l|i k n l| | | | | | |i l|i n l|i n l| | | | |]; simpl in *; try done.
  - intros H j n Hj Hn. rewrite Hown; eauto.
  - intros H j n Hj Hn. rewrite Hown; eauto.
  - intros H j n Hj Hn. rewrite Hown; eauto.
  - intros H j n Hj Hn. rewrite Hown; eauto.
  - intros H j n Hj Hn. rewrite Hown; eauto.
  - destruct n; [|done]. rewrite Hown; [done|]. by left.
  - destruct n as [n|]; [|done]. intros [H1 H2]. split.
    + intros j n' Hj Hn'. rewrite Hown; [eauto|]. apply elem_of_app. left.
      replace i with (i - 1 + 1) by lia. eauto.
    + intros Hp. rewrite Hown; [auto|]. unfold in_push. simpl in *. rewrite Hp. set_solver.
  - destruct n as [n|]; [|done]. intros H Hp. rewrite Hown; [auto|].
    unfold in_push. simpl in *. rewrite Hp. set_solver.
Qed.

Lemma pending_own p me st n : n ∈ pending p me st → n ∈ own p me st.
Proof. destruct p as [|[]|[]| |]; simpl; try done; by intros ?%elem_of_nil. Qed.

(** Only the statuses matter, not how they are given. *)
Lemma view_ext p me (st st' : nat → qstatus) :
  (∀ k, st' k = st k) →
  pushed p st' = pushed p st ∧ own p me st' = own p me st ∧ pending p me st' = pending p me st.
Proof.
  intros Hst. assert (pushed p st' = pushed p st) as Hp.
  { destruct p as [|[]|[]| |]; simpl; rewrite ?Hst; done. }
  split_and!; [done| |]; destruct p as [|[]|[]| |]; simpl; unfold in_push; rewrite ?Hp, ?Hst; done.
Qed.

Lemma sent_ext t p (st st' : nat → qstatus) : (∀ k, st' k = st k) → sent t p st' = sent t p st.
Proof.
  intros Hst. unfold sent, progress. destruct (view_ext p 0 st st' Hst) as [Hp _].
  destruct p as [|[]|[]| |]; rewrite ?Hp; done.
Qed.

Lemma holds_ext t p (st st' : nat → qstatus) h : (∀ k, st' k = st k) → holds t p st h → holds t p st' h.
Proof.
  intros Hst. unfold holds. destruct (view_ext p 0 st st' Hst) as [Hp _].
  destruct p as [|[]|[]| |]; simpl in *; rewrite ?Hp; done.
Qed.

Lemma content_ext h h' (l : list loc) : (∀ n, n ∈ l → h' !! n = h !! n) → content h' <$> l = content h <$> l.
Proof. intros Hl. apply list_fmap_ext. intros i n Hn%list_elem_of_lookup_2. unfold content. by rewrite Hl. Qed.

(** ** Steps that leave the queues' contents alone

    Thread [t] moves; it may change the heap where it owns it or where nothing
    is allocated. *)

Record local_step (s s' : bench S) (A A' : nat → fifo) (who who' : loc → owner) (blk blk' : loc → tid)
    (t : tid) : Prop := {
  ls_pc u : u ≠ t → b_pc s' u = b_pc s u;
  ls_rel k : @fq_rel _ _ _ _ (F k) (b_q s' k) (A' k);
  ls_items k : ff_items (A' k) = ff_items (A k);
  ls_st_other k u : u ≠ t → ff_st (A' k) u = ff_st (A k) u;
  ls_st k : status_ok (b_pc s' t) (qi t) k (ff_st (A' k) t);
  ls_heap n : is_Some (b_heap s !! n) → n ∉ own_of s A t → b_heap s' !! n = b_heap s !! n;
  ls_own n : n ∈ own_of s' A' t → who' n = Thr t ∧ is_Some (b_heap s' !! n);
  ls_own_nodup : NoDup (own_of s' A' t);
  ls_who n : is_Some (b_heap s !! n) → n ∉ own_of s A t → who' n = who n;
  ls_block n : alloc = false → n ∈ block (b_pc s' t) → blk' n = t ∧ is_Some (b_heap s' !! n);
  ls_block_nodup : alloc = false → NoDup (block (b_pc s' t));
  ls_blk n : is_Some (b_heap s !! n) → blk' n = blk n;
  ls_block_other u n : alloc = false → u ≠ t → n ∈ block (b_pc s u) → is_Some (b_heap s !! n) → is_Some (b_heap s' !! n);
  ls_holds : t < np → holds t (b_pc s' t) (st_of A' t) (b_heap s');
  ls_sent : t < np → sent t (b_pc s' t) (st_of A' t) = sent t (b_pc s t) (st_of A t);
  ls_log u : u ≠ t → b_log s' u = b_log s u;
  ls_seen : seen s' A' t = seen s A t;
  ls_done : b_done s = np → b_done s' = np;
  ls_log_ok : np ≤ t < np + nc → log_ok (b_pc s' t) (b_log s' t);
  ls_live : alloc = true → ∀ n, is_Some (b_heap s' !! n) →
    n ∈ own_of s' A' t ∨ is_Some (b_heap s !! n) ∧ n ∉ own_of s A t;
}.

Section local.
Context (s s' : bench S) (A A' : nat → fifo) (who who' : loc → owner) (blk blk' : loc → tid) (t : tid).
Context (Hri : run_inv s A who blk) (Hls : local_step s s' A A' who who' blk blk' t).

Lemma local_own_other u : u ≠ t → own_of s' A' u = own_of s A u ∧ pend_of s' A' u = pend_of s A u.
Proof.
  intros Hu. unfold own_of, pend_of. rewrite (ls_pc _ _ _ _ _ _ _ _ _ Hls u Hu).
  apply view_ext. intros k. by apply (ls_st_other _ _ _ _ _ _ _ _ _ Hls).
Qed.

Lemma local_other_heap u n : u ≠ t → n ∈ own_of s A u → b_heap s' !! n = b_heap s !! n.
Proof.
  intros Hu Hn. destruct (ri_own _ _ _ _ Hri u n Hn) as [Hw Hs].
  apply (ls_heap _ _ _ _ _ _ _ _ _ Hls); [done|]. intros Ht.
  destruct (ri_own _ _ _ _ Hri t n Ht) as [? _]. congruence.
Qed.

Lemma local_items_heap k n : n ∈ ff_items (A k) → b_heap s' !! n = b_heap s !! n.
Proof.
  intros Hn. destruct (ri_items _ _ _ _ Hri k n Hn) as [Hw Hs].
  apply (ls_heap _ _ _ _ _ _ _ _ _ Hls); [done|]. intros Ht.
  destruct (ri_own _ _ _ _ Hri t n Ht) as [? _]. congruence.
Qed.

Lemma local_flow k : flow s' A' k = flow s A k.
Proof.
  unfold flow. rewrite (ls_items _ _ _ _ _ _ _ _ _ Hls).
  rewrite (content_ext (b_heap s) (b_heap s') (ff_items (A k))) by apply local_items_heap. f_equal.
  destruct (decide (consumer_of k = t)) as [->|Hne]; [apply (ls_seen _ _ _ _ _ _ _ _ _ Hls)|].
  unfold seen. rewrite (ls_log _ _ _ _ _ _ _ _ _ Hls) by done.
  destruct (local_own_other (consumer_of k) Hne) as [_ ->]. f_equal.
  apply content_ext. intros n Hn. apply (local_other_heap (consumer_of k)); [done|].
  by apply pending_own.
Qed.

Lemma run_local : run_inv s' A' who' blk'.
Proof.
  pose proof Hri as [R1 R2 R3 R4 R5 R6 R7 R8 R9 R10 R11 R12 R13 R14 R15].
  pose proof Hls as [L1 L2 L3 L4 L5 L6 L7 L8 L9 L10 L11 L12 L13 L14 L15 L16 L17 L18 L19 L20].
  split.
  - done.
  - intros u k. destruct (decide (u = t)) as [->|Hu]; [done|]. rewrite L1, L4; done.
  - intros u n. destruct (decide (u = t)) as [->|Hu]; [auto|].
    destruct (local_own_other u Hu) as [-> _]. intros Hn.
    rewrite (local_other_heap u n Hu Hn). destruct (R3 u n Hn) as [Hw Hs].
    split; [|done]. rewrite L9; [done..|]. intros Ht. destruct (R3 t n Ht). congruence.
  - intros k n. rewrite L3. intros Hn. rewrite (local_items_heap k n Hn). destruct (R4 k n Hn) as [Hw Hs].
    split; [|done]. rewrite L9; [done..|]. intros Ht. destruct (R3 t n Ht). congruence.
  - intros u. destruct (decide (u = t)) as [->|Hu]; [done|].
    destruct (local_own_other u Hu) as [-> _]. done.
  - intros k. by rewrite L3.
  - intros u n Ha. destruct (decide (u = t)) as [->|Hu]; [auto|]. rewrite L1 by done. intros Hn.
    destruct (R7 u n Ha Hn) as [<- Hs]. split; [auto|]. eauto.
  - intros u Ha. destruct (decide (u = t)) as [->|Hu]; [auto|]. rewrite L1 by done. auto.
  - intros u Hlt. destruct (decide (u = t)) as [->|Hu]; [auto|].
    rewrite L1 by done. apply (holds_ext _ _ (st_of A u)); [by intros k; apply L4|].
    apply (holds_frame _ _ (qi u) _ (b_heap s)); [|auto]. intros n. by apply local_other_heap.
  - intros u k Hu Hk. rewrite local_flow, R10 by done. f_equal.
    destruct (decide (u = t)) as [->|Hne]; [symmetry; auto|]. rewrite L1 by done.
    symmetry. apply sent_ext. intros j. by apply L4.
  - intros k. by rewrite local_flow.
  - intros k. by rewrite local_flow.
  - intros k. rewrite local_flow. eauto.
  - intros u Hu. destruct (decide (u = t)) as [->|Hne]; [auto|]. rewrite L1, L16 by done. auto.
  - intros Ha n Hn. destruct (L20 Ha n Hn) as [?|[Hs Ht]]; [eauto|].
    destruct (R15 Ha n Hs) as [[u Hu]|(k & Hlt & Hk)]; [|right; exists k; by rewrite L3].
    left. exists u. destruct (decide (u = t)) as [->|Hne]; [done|].
    by destruct (local_own_other u Hne) as [-> _].
Qed.
End local.

(** ** A node enters a queue *)

Lemma sends_lookup t perm j :
  0 ≤ j < mpt → sends t perm !! Z.to_nat j = Some (dest cf t perm j, WorkNode t (mpt - j)).
Proof.
  intros Hj. unfold sends. rewrite list_lookup_fmap, lookup_seqZ_lt by lia. simpl.
  by rewrite Z2Nat.id by lia.
Qed.

Lemma no_stop_all_msg l : ¬ Exists (λ w, wn_data w = 0) l → Forall is_msg l.
Proof. intros Hn. apply Forall_forall. intros w Hw Hd. apply Hn, Exists_exists. eauto. Qed.

Section push.
Context (s : bench S) (A : nat → fifo) (who : loc → owner) (blk : loc → tid) (t : tid) (k : nat) (n : loc).
Context (q' : S) (Hri : run_inv s A who blk).
Context (Hst : ff_st (A k) t = QsPush n).

Local Notation a' := (Fifo (ff_items (A k) ++ [n]) (<[t := QsPushed]> (ff_st (A k))) (λ _, true)).
Local Notation A' := (<[k := a']> A).
Local Notation s' := (set_q k q' s).

Lemma push_st u j : st_of A' u j = if bool_decide (u = t ∧ j = k) then QsPushed else st_of A u j.
Proof.
  unfold st_of. destruct (decide (j = k)) as [->|Hj]; simpl_fn; simpl.
  - same_tid t u; case_bool_decide; naive_solver.
  - case_bool_decide; naive_solver.
Qed.

Lemma push_other u : u ≠ t → own_of s' A' u = own_of s A u ∧ pend_of s' A' u = pend_of s A u.
Proof.
  intros Hu. apply view_ext. intros j. rewrite push_st. case_bool_decide; naive_solver.
Qed.

(** What the invariant says about the pushing thread. *)
Lemma push_busy : busy (b_pc s t) (qi t) = Some (k, Some n).
Proof.
  pose proof (ri_st _ _ _ _ Hri t k) as H. unfold status_ok in H. rewrite Hst in H.
  destruct (busy _ _) as [[k' on]|]; [|done]. case_bool_decide; [|done]. by subst.
Qed.

Lemma push_own : ∃ X, own_of s A t = X ++ [n] ∧ own_of s' A' t = X ∧ pend_of s' A' t = pend_of s A t ∧
  pend_of s A t = [].
Proof.
  pose proof push_busy as Hb. unfold own_of, pend_of. simpl.
  destruct (b_pc s t) as [|p|c|m|] eqn:Hp; try done; [|by destruct c as [| | | | |[]| | | | | | |]].
  destruct p as [i| |i l|i l| | | |i l|i n' l|i n' l|i q n' l| | | | | | |i l|i n' l|i n' l| | | | |]; try done;
    destruct n' as [n'|]; try done; simpl in Hb; injection Hb as Hk Hn; simpl; unfold in_push; simpl; rewrite Hk, Hn, !push_st;
    unfold st_of; rewrite !(bool_decide_eq_true_2 (t = t ∧ _)) by done; rewrite Hst; simpl;
    eexists; rewrite ?app_nil_r; done.
Qed.

Lemma push_fresh : n ∉ own_of s' A' t ∧ NoDup (own_of s' A' t) ∧ who n = Thr t ∧ is_Some (b_heap s !! n).
Proof.
  destruct push_own as (X & Ho & -> & _). pose proof (ri_own_nodup _ _ _ _ Hri t) as Hnd.
  rewrite Ho in Hnd. apply NoDup_app in Hnd as (HX & Hn & _).
  destruct (ri_own _ _ _ _ Hri t n) as [Hw Hs]; [rewrite Ho; set_solver|].
  split_and!; try done. intros Hx. apply (Hn n Hx). by left.
Qed.

Lemma push_flow j :
  flow s' A' j = if bool_decide (j = k) then flow s A j ++ [content (b_heap s) n] else flow s A j.
Proof.
  unfold flow. assert (seen s' A' (consumer_of j) = seen s A (consumer_of j)) as ->.
  { unfold seen. simpl. f_equal. f_equal. destruct (decide (consumer_of j = t)) as [->|Hne].
    - by destruct push_own as (X & _ & _ & -> & _).
    - by destruct (push_other _ Hne) as [_ ->]. }
  case_bool_decide as Hj; [subst j|]; simpl_fn; simpl; [|done].
  by rewrite fmap_app, (assoc_L (++)).
Qed.

Lemma push_kind :
  (∃ i q l, b_pc s t = Prod (PEnq i q (Some n) l) ∧ k = Z.to_nat q) ∨
  (∃ i l, b_pc s t = Prod (PStopEnq i (Some n) l) ∧ k = Z.to_nat i).
Proof.
  pose proof push_busy as Hb.
  destruct (b_pc s t) as [|p|c|m|] eqn:Hp; try done; [|by destruct c as [| | | | |[]| | | | | | |]].
  destruct p as [i| |i l|i l| | | |i l|i n' l|i n' l|i q n' l| | | | | | |i l|i n' l|i n' l| | | | |]; try done;
    destruct n' as [n'|]; try done; simpl in Hb; injection Hb as Hk Hn; rewrite Hn; [left|right]; eauto.
Qed.

Context (Hvalid : valid_config cf) (m : main_pc).
Context (Hctl : ctl_inv alloc cf s m) (Hdone : done_inv cf s).

Lemma push_range : k < nc.
Proof.
  destruct push_kind as [(i & q & l & Hp & Hk)|(i & l & Hp & Hk)];
    destruct (ctl_prod alloc cf s m t _ Hctl Hp) as (_ & _ & Hok); simpl in Hok; [|lia].
  destruct Hok as (_ & Hloc & _ & -> & _). pose proof (dest_range alloc cf Hvalid t l _ Hloc (mpt - 1 - i)). lia.
Qed.

(** A message: its place in the sequence of the producer, and its queue. *)
Lemma push_msg i q l :
  b_pc s t = Prod (PEnq i q (Some n) l) → k = Z.to_nat q →
  t < np ∧ content (b_heap s) n = WorkNode t (1 + i) ∧ 0 ≤ i ∧ b_done s ≠ np ∧
  sent t (b_pc s t) (st_of A' t) = sent t (b_pc s t) (st_of A t) ++ [(Z.of_nat k, WorkNode t (1 + i))].
Proof.
  intros Hp Hk. destruct (ctl_prod alloc cf s m t _ Hctl Hp) as (Hlt & _ & Hi & Hloc & _ & Hq & _).
  pose proof (ri_holds _ _ _ _ Hri t Hlt) as Hh. rewrite Hp in Hh.
  assert (pushed (Prod (PEnq i q (Some n) l)) (st_of A t) = false) as Hnp.
  { simpl. unfold st_of. rewrite <-Hk, Hst. done. }
  assert (pushed (Prod (PEnq i q (Some n) l)) (st_of A' t) = true) as Hyp.
  { simpl. rewrite push_st, <-Hk. by rewrite (bool_decide_eq_true_2 (t = t ∧ _)). }
  destruct Hh as [_ Hc]. specialize (Hc Hnp). split_and!; try done; try lia.
  - unfold content. by rewrite Hc.
  - intros Hd. pose proof (counters_all cf Hvalid s t Hdone Hd Hlt) as Hx. by rewrite Hp in Hx.
  - rewrite Hp. unfold sent. cbn [progress perm_of]. rewrite Hnp, Hyp.
    replace (Z.to_nat (mpt - 1 - i + 1)) with (Datatypes.S (Z.to_nat (mpt - 1 - i + 0))) by lia.
    rewrite (take_S_r _ _ (dest cf t (pl_permute l) (mpt - 1 - i), WorkNode t (mpt - (mpt - 1 - i)))).
    + f_equal. f_equal. f_equal; [|f_equal; lia]. pose proof (dest_range alloc cf Hvalid t l _ Hloc (mpt - 1 - i)). lia.
    + rewrite Z.add_0_r. apply sends_lookup. lia.
Qed.

(** A stop node. *)
Lemma push_stop i l :
  b_pc s t = Prod (PStopEnq i (Some n) l) → k = Z.to_nat i →
  t < np ∧ wn_data (content (b_heap s) n) = 0 ∧ b_done s = np ∧
  sent t (b_pc s t) (st_of A' t) = sent t (b_pc s t) (st_of A t).
Proof.
  intros Hp Hk. destruct (ctl_prod alloc cf s m t _ Hctl Hp) as (Hlt & _ & _).
  pose proof (ri_holds _ _ _ _ Hri t Hlt) as Hh. rewrite Hp in Hh.
  assert (pushed (Prod (PStopEnq i (Some n) l)) (st_of A t) = false) as Hnp.
  { simpl. unfold st_of. by rewrite <-Hk, Hst. }
  destruct (Hh Hnp) as [id Hc]. split_and!.
  - done.
  - unfold content. by rewrite Hc.
  - apply (di_stop cf s Hdone t). by rewrite Hp.
  - by rewrite Hp.
Qed.

(** What the push adds to the flow of its queue. *)
Lemma push_flow_inv :
  (∀ (u j : nat), u < np → j < nc →
     filter (is_from u) (flow s' A' j) = routed_to j (sent u (b_pc s u) (st_of A' u))) ∧
  (∀ j, Forall (λ w, is_msg w → 0 ≤ wn_id w < np) (flow s' A' j)) ∧
  (∀ j, stops_last (flow s' A' j)) ∧
  (∀ j, Exists (λ w, wn_data w = 0) (flow s' A' j) → b_done s = np).
Proof.
  pose proof (ri_flow _ _ _ _ Hri) as R10. pose proof (ri_ids _ _ _ _ Hri) as R11.
  pose proof (ri_stops _ _ _ _ Hri) as R12. pose proof (ri_done _ _ _ _ Hri) as R13.
  assert (∀ u, u ≠ t → sent u (b_pc s u) (st_of A' u) = sent u (b_pc s u) (st_of A u)) as Hoth.
  { intros u Hu. apply sent_ext. intros j. rewrite push_st. case_bool_decide; naive_solver. }
  destruct push_kind as [(i & q & l & Hp & Hk)|(i & l & Hp & Hk)].
  - destruct (push_msg i q l Hp Hk) as (Hlt & Hc & Hi & Hd & Hsent).
    assert (is_msg (content (b_heap s) n)) as Hmsg by (rewrite Hc; unfold is_msg; simpl; lia).
    split_and!.
    + intros u j Hu Hj. rewrite push_flow. destruct (decide (u = t)) as [Hut|Hut].
      * rewrite Hut, Hsent, routed_to_app, <-(R10 t j) by done.
        case_bool_decide as Hjk; [rewrite filter_app|]; unfold routed_to.
        -- rewrite Hjk, !filter_cons_True; [|done|by rewrite Hc; split; simpl; lia].
           simpl. by rewrite Hc.
        -- rewrite filter_cons_False by (simpl; lia). simpl. by rewrite app_nil_r.
      * rewrite Hoth, <-R10 by done. case_bool_decide; [|done].
        rewrite filter_app, filter_cons_False; [by rewrite app_nil_r|]. rewrite Hc. intros [_ Hx]. simpl in Hx. lia.
    + intros j. rewrite push_flow. case_bool_decide; [|done].
      apply Forall_app. split; [done|]. apply Forall_singleton. rewrite Hc. simpl. lia.
    + intros j. rewrite push_flow. case_bool_decide; [|done]. apply stops_last_snoc_msg; [done| |done].
      apply no_stop_all_msg. intros Hx. by apply Hd, (R13 j).
    + intros j. rewrite push_flow. case_bool_decide; [|eauto].
      intros [?|[w [->%list_elem_of_singleton Hz]]%Exists_exists]%Exists_app; [eauto|done].
  - destruct (push_stop i l Hp Hk) as (Hlt & Hc & Hd & Hsent). split_and!.
    + intros u j Hu Hj. rewrite push_flow.
      assert (sent u (b_pc s u) (st_of A' u) = sent u (b_pc s u) (st_of A u)) as ->.
      { destruct (decide (u = t)) as [Hut|Hut]; [by rewrite Hut|auto]. }
      rewrite <-R10 by done. case_bool_decide; [|done].
      rewrite filter_app, filter_cons_False; [by rewrite app_nil_r|]. by intros [? _].
    + intros j. rewrite push_flow. case_bool_decide; [|done].
      apply Forall_app. split; [done|]. by apply Forall_singleton.
    + intros j. rewrite push_flow. case_bool_decide; [|done]. by apply stops_last_snoc_stop.
    + done.
Qed.

Lemma push_status u j : status_ok (b_pc s u) (qi u) j (ff_st (A' j) u).
Proof.
  pose proof (ri_st _ _ _ _ Hri u j) as H. change (ff_st (A' j) u) with (st_of A' u j). rewrite push_st.
  case_bool_decide as Hut; [|done]. destruct Hut as [Hu Hj]. rewrite Hu, Hj in *. unfold status_ok.
  rewrite push_busy, bool_decide_eq_true_2 by done. eauto.
Qed.

Lemma push_holds (u : tid) : u < np → holds u (b_pc s u) (st_of A' u) (b_heap s).
Proof.
  intros Hu. pose proof (ri_holds _ _ _ _ Hri u Hu) as Hh.
  destruct (decide (u = t)) as [Hut|Hut].
  - rewrite Hut in *. destruct push_kind as [(i & q & l & Hp & Hk)|(i & l & Hp & Hk)]; rewrite Hp in *.
    + destruct Hh as [Hh _]. split; [done|]. simpl. rewrite push_st, <-Hk.
      by rewrite (bool_decide_eq_true_2 (t = t ∧ _)).
    + simpl. rewrite push_st, <-Hk. by rewrite (bool_decide_eq_true_2 (t = t ∧ _)).
  - apply (holds_ext _ _ (st_of A u)); [|done]. intros j. rewrite push_st. case_bool_decide; naive_solver.
Qed.

Lemma run_push : @fq_rel _ _ _ _ (F k) q' a' → run_inv s' A' (<[n := InQ k]> who) blk.
Proof.
  intros Hrel. pose proof push_fresh as (Hn & Hnd & Hwn & Hsn). pose proof push_flow_inv as (P1 & P2 & P3 & P4).
  pose proof Hri as [R1 R2 R3 R4 R5 R6 R7 R8 R9 R10 R11 R12 R13 R14 R15].
  assert (∀ u x, x ∈ own_of s' A' u → x ∈ own_of s A u ∧ x ≠ n) as Hown.
  { intros u x. destruct (decide (u = t)) as [Hut|Hut].
    - rewrite Hut. intros Hx. destruct push_own as (X & Ho & Ho' & _). rewrite Ho. split; [set_solver|].
      intros ->. done.
    - destruct (push_other u Hut) as [-> _]. intros Hx. split; [done|]. intros ->.
      destruct (R3 u n Hx). congruence. }
  assert (∀ j x, x ∈ ff_items (A j) → x ≠ n) as Hit.
  { intros j x Hx ->. destruct (R4 j n Hx). congruence. }
  split; simpl; try done.
  - intros j. destruct (decide (j = k)) as [->|]; by simpl_fn.
  - apply push_status.
  - intros u x Hx. destruct (Hown u x Hx) as [Hx' Hne]. simpl_fn. auto.
  - intros j x. destruct (decide (j = k)) as [->|]; simpl_fn; simpl.
    + intros [Hx| ->%list_elem_of_singleton]%elem_of_app; simpl_fn; [|done].
      pose proof (Hit k x Hx). simpl_fn. auto.
    + intros Hx. pose proof (Hit j x Hx). simpl_fn. auto.
  - intros u. destruct (decide (u = t)) as [->|Hut]; [done|].
    destruct (push_other u Hut) as [-> _]. done.
  - intros j. destruct (decide (j = k)) as [->|]; simpl_fn; simpl; [|done].
    apply NoDup_app. split_and!; [done| |apply NoDup_singleton].
    intros x Hx ->%list_elem_of_singleton. by apply (Hit k n Hx).
  - intros u Hu. by apply push_holds.
  - intros Ha x Hx. pose proof push_range as Hk. destruct (R15 Ha x Hx) as [[u Hu]|(j & Hlt & Hj)].
    + destruct (decide (x = n)) as [->|Hne]; [right; exists k; split; [done|]; simpl_fn; simpl; set_solver|].
      left. exists u. destruct (decide (u = t)) as [->|Hut].
      * destruct push_own as (X & Ho & -> & _). rewrite Ho in Hu. set_solver.
      * by destruct (push_other u Hut) as [-> _].
    + right. exists j. split; [done|]. destruct (decide (j = k)) as [->|]; simpl_fn; simpl; set_solver.
Qed.
End push.

(** ** A node leaves a queue *)

Section pop.
Context (s : bench S) (A : nat → fifo) (who : loc → owner) (blk : loc → tid) (t : tid) (k : nat).
Context (n : loc) (rest : list loc) (q' : S) (Hri : run_inv s A who blk).
Context (Hst : ff_st (A k) t = QsPop) (Hitems : ff_items (A k) = n :: rest).

Local Notation a' := (Fifo rest (<[t := QsPopped (Some n)]> (ff_st (A k))) (ff_exc (A k))).
Local Notation A' := (<[k := a']> A).
Local Notation s' := (set_q k q' s).

Lemma pop_st u j : st_of A' u j = if bool_decide (u = t ∧ j = k) then QsPopped (Some n) else st_of A u j.
Proof.
  unfold st_of. destruct (decide (j = k)) as [->|Hj]; simpl_fn; simpl.
  - same_tid t u; case_bool_decide; naive_solver.
  - case_bool_decide; naive_solver.
Qed.

Lemma pop_other u : u ≠ t → own_of s' A' u = own_of s A u ∧ pend_of s' A' u = pend_of s A u.
Proof. intros Hu. apply view_ext. intros j. rewrite pop_st. case_bool_decide; naive_solver. Qed.

Lemma pop_busy : ∃ sum calls, b_pc s t = Cons (CWhile false sum calls) ∧ k = qi t.
Proof.
  pose proof (ri_st _ _ _ _ Hri t k) as H. unfold status_ok in H. rewrite Hst in H.
  destruct (b_pc s t) as [|p|c|m|] eqn:Hp; try done.
  - destruct p as [| | | | | | | | | |i q [|] l| | | | | | | | |i [|] l| | | | |]; simpl in H; try done;
      by case_bool_decide.
  - destruct c as [| | | | |[]| | | | | | |]; simpl in H; try done. case_bool_decide; [eauto|done].
Qed.

Lemma pop_own : own_of s A t = [] ∧ pend_of s A t = [] ∧ own_of s' A' t = [n] ∧ pend_of s' A' t = [n].
Proof.
  destruct pop_busy as (sum & calls & Hp & Hk). unfold own_of, pend_of. simpl. rewrite Hp. simpl.
  rewrite !pop_st, <-Hk. rewrite !(bool_decide_eq_true_2 (t = t ∧ _)) by done. unfold st_of.
  by rewrite Hst.
Qed.

Lemma consumer_of_qi (u : tid) j : np ≤ u → 0 ≤ np → qi u = j ↔ u = consumer_of j.
Proof. unfold qi, consumer_of. lia. Qed.

Context (Hvalid : valid_config cf) (m : main_pc) (Hctl : ctl_inv alloc cf s m).

Lemma pop_flow j : flow s' A' j = flow s A j.
Proof.
  destruct pop_busy as (sum & calls & Hp & Hk). destruct (ctl_cons alloc cf s m t _ Hctl Hp) as [Ht _].
  destruct Hvalid as [Hnc _]. unfold flow, seen. simpl. destruct (decide (j = k)) as [->|Hj]; simpl_fn; simpl.
  - symmetry in Hk. apply consumer_of_qi in Hk; [|lia..]. rewrite <-Hk.
    destruct pop_own as (_ & -> & _ & ->). rewrite Hitems. simpl. by rewrite app_nil_r, <-(assoc_L (++)).
  - assert (consumer_of j ≠ t) as Hne.
    { intros Hx. apply Hj. rewrite Hk. symmetry. by apply consumer_of_qi; [lia..|]. }
    by destruct (pop_other _ Hne) as [_ ->].
Qed.

Lemma pop_status u j : status_ok (b_pc s u) (qi u) j (ff_st (A' j) u).
Proof.
  pose proof (ri_st _ _ _ _ Hri u j) as H. change (ff_st (A' j) u) with (st_of A' u j). rewrite pop_st.
  case_bool_decide as Hut; [|done]. destruct Hut as [Hu Hj]. rewrite Hu, Hj in *. unfold status_ok in *.
  rewrite Hst in H. destruct (busy _ _) as [[k' on]|]; [case_bool_decide|]; done.
Qed.

Lemma run_pop : @fq_rel _ _ _ _ (F k) q' a' → run_inv s' A' (<[n := Thr t]> who) blk.
Proof.
  intros Hrel. pose proof Hri as [R1 R2 R3 R4 R5 R6 R7 R8 R9 R10 R11 R12 R13 R14 R15].
  destruct pop_busy as (sum & calls & Hp & Hk). destruct (ctl_cons alloc cf s m t _ Hctl Hp) as [Ht _].
  destruct pop_own as (Ho & _ & Ho' & _).
  destruct (R4 k n) as [Hwn Hsn]; [rewrite Hitems; by left|].
  pose proof (R6 k) as Hnd. rewrite Hitems in Hnd. apply NoDup_cons in Hnd as [Hnr Hnd].
  assert (∀ u x, u ≠ t → x ∈ own_of s' A' u → x ∈ own_of s A u ∧ x ≠ n) as Hown.
  { intros u x Hut. destruct (pop_other u Hut) as [-> _]. intros Hx. split; [done|]. intros ->.
    destruct (R3 u n Hx). congruence. }
  assert (∀ j x, x ∈ ff_items (A' j) → x ∈ ff_items (A j) ∧ x ≠ n) as Hit.
  { intros j x. destruct (decide (j = k)) as [->|Hj]; simpl_fn; simpl.
    - intros Hx. rewrite Hitems. split; [by right|]. by intros ->.
    - intros Hx. split; [done|]. intros ->. destruct (R4 j n Hx). congruence. }
  split; simpl; try done.
  - intros j. destruct (decide (j = k)) as [->|]; by simpl_fn.
  - apply pop_status.
  - intros u x. destruct (decide (u = t)) as [->|Hut].
    + rewrite Ho'. intros ->%list_elem_of_singleton. by simpl_fn.
    + intros Hx. destruct (Hown u x Hut Hx) as [Hx' Hne]. simpl_fn. auto.
  - intros j x Hx. destruct (Hit j x Hx) as [Hx' Hne]. simpl_fn. auto.
  - intros u. destruct (decide (u = t)) as [->|Hut]; [rewrite Ho'; apply NoDup_singleton|].
    destruct (pop_other u Hut) as [-> _]. done.
  - intros j. destruct (decide (j = k)) as [->|]; by simpl_fn.
  - intros u Hu. apply (holds_ext _ _ (st_of A u)); [|auto]. intros j. rewrite pop_st.
    case_bool_decide as Hut; [|done]. destruct Hut as [Hut _]. rewrite Hut in Hu. lia.
  - intros u j Hu Hj. rewrite pop_flow, R10 by done. f_equal. symmetry. apply sent_ext.
    intros i. rewrite pop_st. case_bool_decide as Hut; [|done]. destruct Hut as [Hut _]. rewrite Hut in Hu. lia.
  - intros j. by rewrite pop_flow.
  - intros j. by rewrite pop_flow.
  - intros j. rewrite pop_flow. eauto.
  - intros Ha x Hx. destruct (decide (x = n)) as [->|Hne]; [left; exists t; rewrite Ho'; by left|].
    destruct (R15 Ha x Hx) as [[u Hu]|(j & Hlt & Hj)].
    + left. exists u. destruct (decide (u = t)) as [->|Hut]; [by rewrite Ho in Hu; apply elem_of_nil in Hu|].
      by destruct (pop_other u Hut) as [-> _].
    + right. exists j. split; [done|]. destruct (decide (j = k)) as [->|]; simpl_fn; simpl; [|done].
      rewrite Hitems in Hj. set_solver.
Qed.
End pop.

(** ** Steps that touch neither the heap nor the contents of a queue *)

(** The view of thread [t] changes from [p], [st] to [p'], [st']. *)
Record view_step (t : tid) (p p' : pc) (st st' : nat → qstatus) (h : gmap loc work_node_t) : Prop := {
  vs_own : own p' (qi t) st' ⊆+ own p (qi t) st;
  vs_own_alloc : alloc = true → own p (qi t) st ⊆+ own p' (qi t) st';
  vs_block : block p' ⊆+ block p;
  vs_holds : t < np → holds t p st h → holds t p' st' h;
  vs_sent : t < np → sent t p' st' = sent t p st;
  vs_pending : pending p' (qi t) st' = pending p (qi t) st;
  vs_stopped : np ≤ t < np + nc → stopped p' = stopped p;
}.

Lemma run_move s s' A A' who blk t :
  run_inv s A who blk →
  (∀ u, u ≠ t → b_pc s' u = b_pc s u) → b_heap s' = b_heap s → b_log s' = b_log s →
  (b_done s = np → b_done s' = np) →
  (∀ k, @fq_rel _ _ _ _ (F k) (b_q s' k) (A' k)) →
  (∀ k, ff_items (A' k) = ff_items (A k)) →
  (∀ k u, u ≠ t → ff_st (A' k) u = ff_st (A k) u) →
  (∀ k, status_ok (b_pc s' t) (qi t) k (ff_st (A' k) t)) →
  view_step t (b_pc s t) (b_pc s' t) (st_of A t) (st_of A' t) (b_heap s) →
  run_inv s' A' who blk.
Proof.
  intros Hri Hpc Hh Hlog Hdone Hrel Hit Hst Hok [V1 V2 V3 V4 V5 V6 V7].
  pose proof Hri as [R1 R2 R3 R4 R5 R6 R7 R8 R9 R10 R11 R12 R13 R14 R15].
  apply (run_local s s' A A' who who blk blk t Hri). split; rewrite ?Hh, ?Hlog; try done.
  - intros n Hn. apply R3. by eapply elem_of_submseteq.
  - exact (submseteq_NoDup _ _ V1 (R5 t)).
  - intros n Ha Hn. apply R7; [done|]. by eapply elem_of_submseteq.
  - intros Ha. exact (submseteq_NoDup _ _ V3 (R8 t Ha)).
  - auto.
  - unfold seen, pend_of. by rewrite Hh, Hlog, V6.
  - intros Ht. unfold log_ok. rewrite V7 by done. by apply R14.
  - intros Ha n Hn. destruct (decide (n ∈ own_of s A t)) as [Hin|]; [|auto].
    left. eapply elem_of_submseteq; [done|]. by apply V2.
Qed.

(** ** Steps of a queue *)

Lemma view_step_status t p st st' h :
  pushed p st' = pushed p st → pending p (qi t) st' = pending p (qi t) st → view_step t p p st st' h.
Proof.
  intros Hp Hn. assert (own p (qi t) st' = own p (qi t) st) as Ho.
  { destruct p as [|[]|[]| |]; simpl in *; unfold in_push; simpl; rewrite ?Hp; done. }
  split; rewrite ?Ho; try done.
  - intros _. unfold holds. destruct p as [|[]|[]| |]; simpl in *; rewrite ?Hp; done.
  - intros _. unfold sent, progress. destruct p as [|[]|[]| |]; simpl in *; rewrite ?Hp; done.
Qed.

(** Only the moving thread changes its status. *)
Lemma fifo_step_other t u a a' : fifo_step lax t a a' → u ≠ t → ff_st a' u = ff_st a u.
Proof. intros Hstep Hu. destruct Hstep; simpl; by simpl_fn. Qed.

(** How its status may change. *)
Lemma fifo_step_status t a a' :
  fifo_step lax t a a' →
  ff_st a' t = ff_st a t ∨
  match ff_st a t with
  | QsIdle => (∃ n, ff_st a' t = QsPush n) ∨ ff_st a' t = QsPop
  | QsPush _ => ff_st a' t = QsPushed
  | QsPushed | QsPopped _ => ff_st a' t = QsIdle
  | QsPop => ∃ r, ff_st a' t = QsPopped r
  end.
Proof.
  intros Hstep. destruct Hstep as [|n Hx|n Hx|Hx|Hx|t' Hx|n r Hx|Hx|r Hx]; simpl; simpl_fn;
    rewrite ?Hx; eauto.
Qed.

Lemma queue_st A t i a' j :
  st_of (<[i := a']> A) t j = if bool_decide (j = i) then ff_st a' t else st_of A t j.
Proof. unfold st_of. case_bool_decide as H; [subst j|]; by simpl_fn. Qed.

Lemma queue_move s s2 A who blk t i q' a' k :
  run_inv s A who blk → fifo_step lax t (A i) a' → @fq_rel _ _ _ _ (F i) q' a' →
  ff_items a' = ff_items (A i) → s2 = set_pc t k (set_q i q' s) ∨ s2 = set_q i q' s ∧ k = b_pc s t →
  (∀ j, status_ok k (qi t) j (st_of (<[i := a']> A) t j)) →
  view_step t (b_pc s t) k (st_of A t) (st_of (<[i := a']> A) t) (b_heap s) →
  run_inv s2 (<[i := a']> A) who blk.
Proof.
  intros Hri Hstep Hrel Hit Hs2 Hok Hv.
  assert (b_pc s2 t = k ∧ (∀ u, u ≠ t → b_pc s2 u = b_pc s u) ∧ b_heap s2 = b_heap s ∧
    b_log s2 = b_log s ∧ b_done s2 = b_done s ∧ b_q s2 = <[i := q']> (b_q s)) as (H1 & H2 & H3 & H4 & H5 & H6).
  { destruct Hs2 as [->|[-> ->]]; simpl; split_and!; try done; [by simpl_fn|].
    intros u Hu. by simpl_fn. }
  apply (run_move s _ A _ who blk t Hri); rewrite ?H1; try done; [congruence|..].
  - intros j. rewrite H6. destruct (decide (j = i)) as [->|]; simpl_fn; [done|]. apply Hri.
  - intros j. destruct (decide (j = i)) as [->|]; by simpl_fn.
  - intros j u Hu. destruct (decide (j = i)) as [->|]; simpl_fn; [by eapply fifo_step_other|done].
Qed.

Lemma queue_status s A who blk t i a' j :
  run_inv s A who blk → status_ok (b_pc s t) (qi t) i (ff_st a' t) →
  status_ok (b_pc s t) (qi t) j (st_of (<[i := a']> A) t j).
Proof. intros Hri Hok. rewrite queue_st. case_bool_decide as H; [by rewrite H|]. apply Hri. Qed.

(** A step inside a call that moves no node. *)
Lemma run_queue_quiet s A who blk t i q' a' :
  run_inv s A who blk → fifo_step lax t (A i) a' → @fq_rel _ _ _ _ (F i) q' a' →
  status_ok (b_pc s t) (qi t) i (ff_st a' t) → ff_items a' = ff_items (A i) →
  (ff_st a' t = QsPushed ↔ ff_st (A i) t = QsPushed) →
  (∀ n, ff_st a' t = QsPopped (Some n) ↔ ff_st (A i) t = QsPopped (Some n)) →
  run_inv (set_q i q' s) (<[i := a']> A) who blk.
Proof.
  intros Hri Hstep Hrel Hok Hit Hp Hpop.
  apply (queue_move s _ A who blk t i q' a' (b_pc s t)); try done; [by right| |].
  { intros j. by eapply queue_status. }
  apply view_step_status.
  - destruct (b_pc s t) as [|[]|[]| |]; simpl; try done; apply bool_decide_ext; rewrite queue_st;
      case_bool_decide as Hj; try done; unfold st_of; by rewrite Hj.
  - destruct (b_pc s t) as [|[]|[| | | | |[]| | | | | | |]| |]; simpl; try done. rewrite queue_st.
    case_bool_decide as Hj; [|done]. unfold st_of. rewrite Hj.
    destruct (ff_st a' t) as [| | | |[]], (ff_st (A i) t) as [| | | |[]]; naive_solver.
Qed.

(** A step inside a call. *)
Lemma run_queue_internal s A who blk t i q' a' m :
  valid_config cf → run_inv s A who blk → ctl_inv alloc cf s m → done_inv cf s →
  fifo_step lax t (A i) a' → @fq_rel _ _ _ _ (F i) q' a' →
  status_ok (b_pc s t) (qi t) i (ff_st a' t) →
  (ff_st a' t = QsIdle → ff_st (A i) t = QsIdle) →
  ∃ A' who', run_inv (set_q i q' s) A' who' blk.
Proof.
  intros Hvalid Hri Hctl Hdone Hstep Hrel Hok Hidle. pose proof Hstep as Hstep'.
  pose proof (run_queue_quiet s A who blk t i q' a' Hri Hstep Hrel Hok) as Hquiet.
  destruct Hstep' as [|n Hst|n Hst|Hst|Hst|t' Hst|n q Hst Hq|Hst Hq|r Hst]; simpl in *; simpl_fn.
  - eauto.
  - eexists _, _. apply Hquiet; rewrite ?Hst; done.
  - eexists _, _. by eapply run_push.
  - rewrite Hst in Hidle. by specialize (Hidle eq_refl).
  - eexists _, _. apply Hquiet; rewrite ?Hst; done.
  - eexists _, _. apply Hquiet; done.
  - eexists _, _. by eapply run_pop.
  - eexists _, _. apply Hquiet; rewrite ?Hst; done.
  - rewrite Hst in Hidle. by specialize (Hidle eq_refl).
Qed.

Lemma status_ok_idle p me k : status_ok p me k QsIdle.
Proof. unfold status_ok. destruct (busy p me) as [[]|]; [case_bool_decide|]; done. Qed.

(** Outside its call a thread is idle. *)
Lemma busy_other s A who blk t i on j :
  run_inv s A who blk → busy (b_pc s t) (qi t) = Some (i, on) → j ≠ i → ff_st (A j) t = QsIdle.
Proof.
  intros Hri Hb Hj. pose proof (ri_st _ _ _ _ Hri t j) as H. unfold status_ok in H.
  rewrite Hb, bool_decide_eq_false_2 in H; done.
Qed.

Lemma idle_all s A who blk t j :
  run_inv s A who blk → busy (b_pc s t) (qi t) = None → ff_st (A j) t = QsIdle.
Proof. intros Hri Hb. pose proof (ri_st _ _ _ _ Hri t j) as H. unfold status_ok in H. by rewrite Hb in H. Qed.

(** The return from a call. *)
Lemma run_return s A who blk t i on q' a' k :
  run_inv s A who blk → busy (b_pc s t) (qi t) = Some (i, on) →
  fifo_step lax t (A i) a' → @fq_rel _ _ _ _ (F i) q' a' →
  ff_st (A i) t ≠ QsIdle → ff_st a' t = QsIdle →
  (∀ st, (∀ j, st j = QsIdle) → view_step t (b_pc s t) k (st_of A t) st (b_heap s)) →
  ∃ A' who', run_inv (set_pc t k (set_q i q' s)) A' who' blk.
Proof.
  intros Hri Hb Hstep Hrel Hne Hidle Hv. exists (<[i := a']> A), who.
  assert (∀ j, st_of (<[i := a']> A) t j = QsIdle) as Hall.
  { intros j. rewrite queue_st. case_bool_decide; [done|]. by eapply busy_other. }
  eapply queue_move; [done..| |by left| |by apply Hv].
  - destruct Hstep; simpl in *; simpl_fn; try done; congruence.
  - intros j. rewrite Hall. apply status_ok_idle.
Qed.

Lemma run_enqueue s s' A who blk t lab q n k m :
  valid_config cf → run_inv s A who blk → ctl_inv alloc cf s m → done_inv cf s →
  busy (b_pc s t) (qi t) = Some (Z.to_nat q, Some n) →
  (∀ st, (∀ j, st j = QsIdle) → st_of A t (Z.to_nat q) = QsPushed →
     view_step t (b_pc s t) k (st_of A t) st (b_heap s)) →
  enqueue_step Qs t lab q n k s = Some s' →
  ∃ A' who', run_inv s' A' who' blk.
Proof.
  intros Hvalid Hri Hctl Hdone Hb Hv Hs. unfold enqueue_step in Hs.
  set (i := Z.to_nat q) in *. pose proof (ri_rel _ _ _ _ Hri i) as Hrel.
  destruct (@q_step _ _ (Qs i) t lab (b_q s i)) as [q'|] eqn:Hq; [|done].
  destruct (@fq_sim _ _ _ _ (F i) t lab _ _ _ Hrel Hq) as (a' & Hstep & Hrel').
  rewrite (@fq_status _ _ _ _ (F i) _ _ t Hrel), (@fq_status _ _ _ _ (F i) _ _ t Hrel') in Hs.
  pose proof (ri_st _ _ _ _ Hri t i) as Hst. unfold status_ok in Hst.
  rewrite Hb, bool_decide_eq_true_2 in Hst by done.
  assert (status_ok (b_pc s t) (qi t) i (ff_st a' t) → (ff_st a' t = QsIdle → ff_st (A i) t = QsIdle) →
    ∃ A' who', run_inv (set_q i q' s) A' who' blk) as Hint by (by eapply run_queue_internal).
  unfold status_ok in Hint. rewrite Hb, bool_decide_eq_true_2 in Hint by done.
  pose proof (fifo_step_status t _ _ Hstep) as Hch.
  pose proof (λ H, run_return s A who blk t i _ q' a' k Hri Hb Hstep Hrel' H) as Hret.
  destruct (ff_st (A i) t) as [|n0| | |r] eqn:E; try done.
  - destruct (ff_st a' t) as [|n0| | |] eqn:E'; try done. case_bool_decide; [|done]. simplify_eq. by apply Hint.
  - destruct Hch as [Hch|Hch]; rewrite Hch in *; simplify_eq; apply Hint; try done; by eexists.
  - destruct Hch as [Hch|Hch]; rewrite Hch in *; simplify_eq; [by apply Hint|].
    apply Hret; [done..|]. intros st Hall. by apply Hv.
Qed.

Lemma run_dequeue s s' A who blk t lab q k m :
  valid_config cf → run_inv s A who blk → ctl_inv alloc cf s m → done_inv cf s →
  busy (b_pc s t) (qi t) = Some (Z.to_nat q, None) →
  (∀ st r, (∀ j, st j = QsIdle) → st_of A t (Z.to_nat q) = QsPopped r →
     view_step t (b_pc s t) (k r) (st_of A t) st (b_heap s)) →
  dequeue_step Qs t lab q k s = Some s' →
  ∃ A' who', run_inv s' A' who' blk.
Proof.
  intros Hvalid Hri Hctl Hdone Hb Hv Hs. unfold dequeue_step in Hs.
  set (i := Z.to_nat q) in *. pose proof (ri_rel _ _ _ _ Hri i) as Hrel.
  destruct (@q_step _ _ (Qs i) t lab (b_q s i)) as [q'|] eqn:Hq; [|done].
  destruct (@fq_sim _ _ _ _ (F i) t lab _ _ _ Hrel Hq) as (a' & Hstep & Hrel').
  rewrite (@fq_status _ _ _ _ (F i) _ _ t Hrel), (@fq_status _ _ _ _ (F i) _ _ t Hrel') in Hs.
  pose proof (ri_st _ _ _ _ Hri t i) as Hst. unfold status_ok in Hst.
  rewrite Hb, bool_decide_eq_true_2 in Hst by done.
  assert (status_ok (b_pc s t) (qi t) i (ff_st a' t) → (ff_st a' t = QsIdle → ff_st (A i) t = QsIdle) →
    ∃ A' who', run_inv (set_q i q' s) A' who' blk) as Hint by (by eapply run_queue_internal).
  unfold status_ok in Hint. rewrite Hb, bool_decide_eq_true_2 in Hint by done.
  pose proof (fifo_step_status t _ _ Hstep) as Hch.
  pose proof (λ r H, run_return s A who blk t i _ q' a' (k r) Hri Hb Hstep Hrel' H) as Hret.
  destruct (ff_st (A i) t) as [|n0| | |r] eqn:E; try done; try (by apply is_Some_None in Hst).
  - destruct (ff_st a' t) as [|n0| | |] eqn:E'; try done. simplify_eq. by apply Hint.
  - destruct Hch as [Hch|[r Hch]]; rewrite Hch in *; simplify_eq; by apply Hint.
  - destruct Hch as [Hch|Hch]; rewrite Hch in *; simplify_eq; [by apply Hint|].
    apply Hret; [done..|]. intros st Hall. by apply Hv.
Qed.

(** ** What the effects of the programs do to the view *)

Definition quiet {K} (a : act K) : bool :=
  match a with
  | AGoto _ | ABarrier _ | ALock _ | AUnlock _ | AReadDone _ | AWriteDone _ _ | AExtra _
  | AUrandom _ | ATime _ | AJoin _ _ _ => true
  | _ => false
  end.

Lemma view_step_trivial t p p' st h :
  own p' (qi t) st = own p (qi t) st → block p' = block p → (t < np → holds t p st h → holds t p' st h) →
  sent t p' st = sent t p st → pending p' (qi t) st = pending p (qi t) st → stopped p' = stopped p →
  view_step t p p' st st h.
Proof. intros Ho Hb Hh Hs Hp Hst. split; rewrite ?Ho, ?Hb; done. Qed.

Lemma node_at_lt ns j n : node_at ns j = Some n → 0 ≤ j < Z.of_nat (length ns).
Proof. unfold node_at. case_bool_decide; [|done]. intros Hn%lookup_lt_Some. lia. Qed.

Lemma node_at_inj ns i j n : NoDup ns → node_at ns i = Some n → node_at ns j = Some n → j = i.
Proof.
  unfold node_at. repeat case_bool_decide; try done. intros Hnd Hi Hj.
  pose proof (NoDup_lookup ns _ _ n Hnd Hi Hj). lia.
Qed.

Lemma take_node_at ns i n :
  node_at ns i = Some n → take (Z.to_nat (i + 1)) ns = take (Z.to_nat i) ns ++ [n].
Proof.
  intros Hn. pose proof (node_at_lt _ _ _ Hn). unfold node_at in Hn. rewrite bool_decide_eq_true_2 in Hn by lia.
  replace (Z.to_nat (i + 1)) with (Datatypes.S (Z.to_nat i)) by lia. by apply take_S_r.
Qed.

Lemma drop_node_at ns i :
  0 ≤ i → drop (Z.to_nat i) ns ≡ₚ drop (Z.to_nat (i + 1)) ns ++ option_list (node_at ns i).
Proof.
  intros Hi. unfold node_at. rewrite bool_decide_eq_true_2 by done.
  replace (Z.to_nat (i + 1)) with (Datatypes.S (Z.to_nat i)) by lia.
  destruct (ns !! Z.to_nat i) as [n|] eqn:E; simpl.
  - rewrite (drop_S _ _ _ E). by rewrite (comm (++)).
  - apply lookup_ge_None in E. by rewrite !drop_ge by lia.
Qed.

Context (Hvalid : valid_config cf).

Lemma pushed_idle p st : (∀ j, st j = QsIdle) → pushed p st = false.
Proof. intros Hst. destruct p as [|[]|[]| |]; simpl; rewrite ?Hst; done. Qed.

Lemma pending_idle c me st :
  (∀ j, st j = QsIdle) → pending (Cons c) me st = match c with CNodes ns _ _ _ => ns | _ => [] end.
Proof. intros Hst. destruct c as [| | | | |[]| | | | | | |]; simpl; rewrite ?Hst; done. Qed.

(** A producer goes to [enqueue] with the node of message [i]. *)
Lemma view_step_enq (t : tid) i q n l l' st h p :
  (∀ j, st j = QsIdle) → pl_nodes l' = pl_nodes l → pl_permute l' = pl_permute l → pl_tmp l' = pl_tmp l →
  own (Prod p) (qi t) st ≡ₚ take (Z.to_nat i) (pl_nodes l) ++ option_list n →
  block (Prod p) = pl_nodes l ++ default [] (pl_tmp l) →
  progress (Prod p) st = mpt - 1 - i → perm_of (Prod p) = pl_permute l →
  (holds t (Prod p) st h → holds t (Prod (PEnq i q n l')) st h) →
  view_step t (Prod p) (Prod (PEnq i q n l')) st st h.
Proof.
  intros Hst Hn Hp Ht Ho Hb Hpr Hpm Hh. pose proof (pushed_idle (Prod (PEnq i q n l')) st Hst) as Hpu.
  assert (own (Prod (PEnq i q n l')) (qi t) st ≡ₚ own (Prod p) (qi t) st) as Hown.
  { cbn [own]. unfold in_push. by rewrite Hpu, Ho, Hn. }
  assert (pending (Prod p) (qi t) st = []) as Hpend by done.
  split; try done.
  - by rewrite Hown.
  - by rewrite Hown.
  - rewrite Hb. simpl. by rewrite Hn, Ht.
  - intros _. unfold sent. rewrite Hpr, Hpm. cbn [progress perm_of]. rewrite Hpu, Hp. f_equal. lia.
Qed.

Lemma produce_view (t : tid) j p st h :
  prod_ok alloc cf t p → (∀ j, st j = QsIdle) → quiet (spec_produce alloc (data_of alloc cf t j) p) = true →
  act_all (λ k, view_step t (Prod p) (Prod k) st st h) (spec_produce alloc (data_of alloc cf t j) p).
Proof.
  intros Hp Hst Hq. pose proof (mpt_nonneg cf Hvalid) as Hm.
  destruct p as [i| |i l|i l|l|l|l|i l|i n l|i n l|i q n l|l|l|v l|l|l|l|i l|i n l|i n l|l|l|l|l|l];
    cbn [spec_produce] in Hq |- *; cbv zeta in Hq |- *; cbn [prod_ok] in Hp; try done.
  - (* PStage *) case_bool_decide; simpl; [by apply view_step_trivial|].
    destruct alloc; by apply view_step_trivial.
  - (* PMalloc *) by destruct alloc.
  - (* PPerm *) destruct Hp as (Hi & (Hpm & Hpq & Hl) & Ht). case_bool_decide; simpl.
    + intros z Hz. by apply view_step_trivial.
    + destruct alloc eqn:Ha; apply view_step_trivial; try done; intros _ _; simpl.
      * intros k n _ Hn%node_at_lt. lia.
      * intros k n Hk Hn%node_at_lt. lia.
  - (* PInit *) destruct Hp as (Ha & Hi & _). rewrite Ha in Hq |- *. case_bool_decide; [done|]. simpl.
    apply view_step_trivial; try done. intros _ Hh k n _ Hn. apply Hh; [|done]. apply node_at_lt in Hn. lia.
  - (* PBar3 *) destruct Hp as [(_ & _ & Hl) _]. simpl. apply view_step_trivial; try done.
    + simpl. rewrite take_ge; [done|]. destruct alloc; lia.
    + unfold sent. simpl. f_equal. lia.
  - (* PLoop *) destruct Hp as (Hi & (_ & _ & Hl) & Ht). case_bool_decide.
    + destruct alloc eqn:Ha; [done|]. destruct (node_at_Some (pl_nodes l) i) as [n Hn]; [lia|]. simpl.
      apply (view_step_enq t i _ _ l); try done.
      * rewrite Hn. simpl. by rewrite (take_node_at _ _ _ Hn).
      * rewrite Hn. simpl. intros Hh. split; [|intros _; apply Hh; [lia|done]].
        intros k n' Hk Hn'. apply Hh; [lia|done].
    + simpl. replace i with (-1) by lia. apply view_step_trivial; try done.
      unfold sent. simpl. f_equal. lia.
  - (* PSet *) by destruct alloc.
  - (* PExtra *) destruct Hp as (Ha & [n' ->] & Hi & (_ & _ & Hl) & Ht). rewrite Ha in *.
    assert (pl_nodes l = []) as Hnil by (apply nil_length_inv; lia).
    case_bool_decide; simpl; apply (view_step_enq t i _ _ l); try done; simpl; rewrite ?Hnil, ?take_nil; try done.
    all: intros Hh; split; [|done]; intros k n Hk Hn%node_at_lt; simpl in Hn; lia.
  - (* PCheck *) destruct Hp as (_ & Ht). simpl. intros z. case_bool_decide; [|by apply view_step_trivial].
    destruct alloc; apply view_step_trivial; try done. simpl. by rewrite Ht.
  - (* PTmp *) by destruct alloc.
  - (* PStop *) destruct Hp as (Hi & _ & Ht). case_bool_decide; simpl.
    + destruct alloc eqn:Ha; [done|]. simpl. unfold tmp_ok in Ht. destruct (pl_tmp l) as [ns|] eqn:E; [|by rewrite Ht in Ha].
      split; try done; simpl; rewrite E; simpl; by rewrite <-(drop_node_at ns i) by lia.
    + unfold tmp_ok in Ht. split; try done; simpl; [apply submseteq_nil_l|].
      intros Ha. destruct (pl_tmp l); [destruct Ht; congruence|]. simpl. by rewrite drop_nil.
  - (* PEnd2 *) simpl. destruct alloc eqn:Ha; split; try done. apply submseteq_nil_l.
  - (* PFreeTmp *) destruct alloc; [done|]. destruct (pl_tmp l) eqn:E; [done|]. simpl.
    split; try done. simpl. by rewrite E, app_nil_r.
  - (* PFree *) by destruct alloc.
Qed.

Lemma consume_view (t : tid) i j c st h :
  cons_ok alloc cf c → (∀ j, st j = QsIdle) → quiet (spec_consume alloc count (data_of alloc cf i j) c) = true →
  act_all (λ k, view_step t (Cons c) (Cons k) st st h) (spec_consume alloc count (data_of alloc cf i j) c).
Proof.
  intros Hc Hst Hq.
  destruct c as [k| | | | |dn sum calls|ns dn sum calls|n ns dn sum calls|n ns dn sum calls| | | |];
    cbn [spec_consume] in Hq |- *; try done.
  - case_bool_decide; by apply view_step_trivial.
  - simpl. apply view_step_trivial; try done; simpl; by rewrite Hst.
  - destruct dn; done.
  - destruct ns; [|done]. simpl. apply view_step_trivial; try done; by destruct dn; simpl; rewrite ?Hst.
  - destruct alloc; [|done]. case_bool_decide; [done|]. by apply view_step_trivial.
  - by destruct alloc.
Qed.

Lemma main_view (t : tid) m st h :
  quiet (spec_main alloc cf m) = true →
  act_all (λ k, view_step t (Main m) (Main k) st st h) (spec_main alloc cf m).
Proof. intros _. apply act_all_True. intros k. by apply view_step_trivial. Qed.

(** ** Steps on the heap *)

Section heap.
Context (s : bench S) (A : nat → fifo) (who : loc → owner) (blk : loc → tid) (t : tid) (k : pc).
Context (Hri : run_inv s A who blk) (Hidle : busy (b_pc s t) (qi t) = None).

Local Notation st := (st_of A t).

Lemma idle_st j : st j = QsIdle.
Proof. by eapply idle_all. Qed.

(** [malloc]: the block belongs to the thread. *)
Lemma run_malloc n ns :
  fresh_block n ns (b_heap s) = true →
  own (b_pc s t) (qi t) st = [] → own k (qi t) st ⊆+ ns.*1 → (alloc = true → ns.*1 ⊆+ own k (qi t) st) →
  block k ⊆+ ns.*1 ++ block (b_pc s t) → (t < np → ∀ h, holds t k st h) →
  (t < np → sent t k st = sent t (b_pc s t) st) → pending k (qi t) st = [] →
  stopped k = stopped (b_pc s t) →
  ∃ who' blk', run_inv (set_pc t k (set_heap (list_to_map ns ∪ b_heap s) s)) A who' blk'.
Proof.
  intros Hfr Ho Ho1 Ho2 Hb Hh Hs Hp Hst. apply fresh_block_spec in Hfr as (_ & Hnd & Hfr).
  rewrite Forall_forall in Hfr.
  exists (λ x, if decide (x ∈ ns.*1) then Thr t else who x), (λ x, if decide (x ∈ ns.*1) then t else blk x).
  assert (∀ x, is_Some (b_heap s !! x) → x ∉ ns.*1 ∧
    (list_to_map ns ∪ b_heap s : gmap loc work_node_t) !! x = b_heap s !! x) as Hold.
  { intros x Hx. assert (x ∉ ns.*1) as Hn by (intros Hin; rewrite (Hfr x Hin) in Hx; by apply is_Some_None in Hx).
    split; [done|]. rewrite lookup_union_r; [done|]. by apply not_elem_of_list_to_map_1. }
  assert (∀ x, x ∈ ns.*1 → is_Some ((list_to_map ns ∪ b_heap s : gmap loc work_node_t) !! x)) as Hnew.
  { intros x [[x' w] [-> Hin]]%list_elem_of_fmap. simpl. exists w. apply lookup_union_Some_l.
    by apply elem_of_list_to_map_1. }
  assert (∀ u, u ∈ block (b_pc s t) → alloc = false → blk u = t ∧ is_Some (b_heap s !! u)) as Hbl.
  { intros u Hu Ha. by apply (ri_block _ _ _ _ Hri). }
  eapply run_local; [exact Hri|]. split; simpl; simpl_fn; try done.
  - intros u Hu. by simpl_fn.
  - apply Hri.
  - intros j. pose proof (idle_st j) as Hj. unfold st_of in Hj. rewrite Hj. apply status_ok_idle.
  - intros x Hx _. by apply Hold.
  - intros x Hx. unfold own_of in Hx. simpl in Hx. simpl_fn.
    pose proof (elem_of_submseteq _ _ _ Hx Ho1) as Hin. rewrite decide_True by done. auto.
  - unfold own_of. simpl. simpl_fn. by eapply submseteq_NoDup.
  - intros x Hx _. destruct (Hold x Hx). by rewrite decide_False.
  - intros x Ha Hx. pose proof (elem_of_submseteq _ _ _ Hx Hb) as [Hin|Hin]%elem_of_app.
    + rewrite decide_True by done. auto.
    + destruct (Hbl x Hin Ha) as [Hbx Hsx]. destruct (Hold x Hsx) as [Hn ->]. by rewrite decide_False.
  - intros Ha. eapply submseteq_NoDup; [done|]. apply NoDup_app. split_and!; [done| |by apply (ri_block_nodup _ _ _ _ Hri)].
    intros x Hin Hx. destruct (Hbl x Hx Ha) as [_ Hsx]. by destruct (Hold x Hsx).
  - intros x Hx. destruct (Hold x Hx). by rewrite decide_False.
  - intros u x Ha Hu Hx Hsx. destruct (Hold x Hsx) as [_ ->]. done.
  - auto.
  - unfold seen, pend_of. simpl. simpl_fn. rewrite Hp. f_equal.
    destruct (pending (b_pc s t) (qi t) st) as [|x l] eqn:E; [done|].
    assert (x ∈ own (b_pc s t) (qi t) st) as Hx by (apply pending_own; rewrite E; by left).
    rewrite Ho in Hx. by apply elem_of_nil in Hx.
  - intros Ht. unfold log_ok. rewrite Hst. by apply (ri_seen _ _ _ _ Hri).
  - intros Ha x Hx. unfold own_of at 1. simpl. simpl_fn. destruct (decide (x ∈ ns.*1)) as [Hin|Hin].
    + left. eapply elem_of_submseteq; [done|]. auto.
    + right. unfold own_of. rewrite Ho. split; [|apply not_elem_of_nil].
      rewrite lookup_union_r in Hx; [done|]. by apply not_elem_of_list_to_map_1.
Qed.

(** A store into a node of the thread. *)
Lemma run_store n w :
  n ∈ own (b_pc s t) (qi t) st → own k (qi t) st = own (b_pc s t) (qi t) st → block k = block (b_pc s t) →
  (t < np → holds t (b_pc s t) st (b_heap s) → holds t k st (<[n := w]> (b_heap s))) →
  (t < np → sent t k st = sent t (b_pc s t) st) →
  pending (b_pc s t) (qi t) st = [] → pending k (qi t) st = [] → stopped k = stopped (b_pc s t) →
  run_inv (set_pc t k (set_heap (<[n := w]> (b_heap s)) s)) A who blk.
Proof.
  intros Hn Ho Hb Hh Hs Hp Hp' Hst.
  assert (∀ x, is_Some (b_heap s !! x) → is_Some (<[n := w]> (b_heap s) !! x)) as Hsome.
  { intros x Hx. destruct (decide (x = n)) as [->|]; [rewrite lookup_insert_eq; eauto|].
    by rewrite lookup_insert_ne. }
  assert (own_of (set_pc t k (set_heap (<[n := w]> (b_heap s)) s)) A t = own_of s A t) as Hown.
  { unfold own_of. simpl. simpl_fn. done. }
  eapply run_local; [exact Hri|]. split; rewrite ?Hown; simpl; simpl_fn; try done.
  - intros u Hu. by simpl_fn.
  - apply Hri.
  - intros j. pose proof (idle_st j) as Hj. unfold st_of in Hj. rewrite Hj. apply status_ok_idle.
  - intros x Hx Hnot. rewrite lookup_insert_ne; [done|]. intros <-. done.
  - intros x Hx. destruct (ri_own _ _ _ _ Hri t x Hx). auto.
  - apply Hri.
  - intros x Ha. rewrite Hb. intros Hx. destruct (ri_block _ _ _ _ Hri t x Ha Hx). auto.
  - rewrite Hb. apply Hri.
  - auto.
  - intros Ht. apply Hh; [done|]. by apply (ri_holds _ _ _ _ Hri).
  - unfold seen, pend_of. simpl. simpl_fn. by rewrite Hp, Hp'.
  - intros Ht. unfold log_ok. rewrite Hst. by apply (ri_seen _ _ _ _ Hri).
  - intros Ha x Hx. destruct (decide (x ∈ own_of s A t)) as [|Hx']; [by left|]. right. split; [|done].
    destruct (decide (x = n)) as [->|]; [done|]. by rewrite lookup_insert_ne in Hx.
Qed.

(** A consumer looks at its next node. *)
Lemma run_load n ns w :
  b_heap s !! n = Some w → pending (b_pc s t) (qi t) st = n :: ns → np ≤ t →
  own k (qi t) st ⊆+ own (b_pc s t) (qi t) st → (alloc = true → own (b_pc s t) (qi t) st ⊆+ own k (qi t) st) →
  block k = [] → pending k (qi t) st = ns →
  stopped (b_pc s t) = false → stopped k = bool_decide (wn_data w = 0) →
  run_inv (set_pc t k (set_log t w s)) A who blk.
Proof.
  intros Hw Hp Ht Ho Ho2 Hb Hp' Hst Hst'.
  eapply run_local; [exact Hri|]. split; simpl; simpl_fn; try done; try (intros; lia).
  - intros u Hu. by simpl_fn.
  - apply Hri.
  - intros j. pose proof (idle_st j) as Hj. unfold st_of in Hj. rewrite Hj. apply status_ok_idle.
  - intros x. unfold own_of. simpl. simpl_fn. intros Hx. apply (ri_own _ _ _ _ Hri t).
    by eapply elem_of_submseteq.
  - unfold own_of. simpl. simpl_fn. eapply submseteq_NoDup; [done|]. apply (ri_own_nodup _ _ _ _ Hri t).
  - intros x _. rewrite Hb. by intros ?%elem_of_nil.
  - intros _. rewrite Hb. apply NoDup_nil_2.
  - intros u Hu. by simpl_fn.
  - unfold seen, pend_of. simpl. simpl_fn. rewrite Hp, Hp', <-(assoc_L (++)). simpl. f_equal. f_equal.
    unfold content. by rewrite Hw.
  - intros Hr. pose proof (ri_seen _ _ _ _ Hri t Hr) as Hl. unfold log_ok in *. rewrite Hst in Hl. rewrite Hst'.
    case_bool_decide.
    + by exists (b_log s t), w.
    + apply Forall_app. split; [done|]. by apply Forall_singleton.
  - intros Ha x Hx. destruct (decide (x ∈ own_of s A t)) as [Hin|]; [|auto]. left.
    unfold own_of. simpl. simpl_fn. eapply elem_of_submseteq; [done|]. auto.
Qed.

(** A consumer frees the node it has looked at. *)
Lemma run_free n :
  alloc = true → np ≤ t → own (b_pc s t) (qi t) st = n :: own k (qi t) st →
  pending k (qi t) st = [] → pending (b_pc s t) (qi t) st = [] → stopped k = stopped (b_pc s t) →
  run_inv (set_pc t k (set_heap (delete n (b_heap s)) s)) A who blk.
Proof.
  intros Ha Ht Ho Hp Hp' Hst.
  pose proof (ri_own_nodup _ _ _ _ Hri t) as Hnd. unfold own_of in Hnd. rewrite Ho in Hnd.
  apply NoDup_cons in Hnd as [Hn Hnd].
  assert (∀ x, x ∈ own k (qi t) st → who x = Thr t ∧ is_Some (b_heap s !! x) ∧ x ≠ n) as Hk.
  { intros x Hx. destruct (ri_own _ _ _ _ Hri t x) as [? ?]; [unfold own_of; rewrite Ho; by right|].
    split_and!; [done..|]. intros ->. done. }
  eapply run_local; [exact Hri|]. split; simpl; simpl_fn; try done; try (intros; congruence); try (intros; lia).
  - intros u Hu. by simpl_fn.
  - apply Hri.
  - intros j. pose proof (idle_st j) as Hj. unfold st_of in Hj. rewrite Hj. apply status_ok_idle.
  - intros x Hx Hnot. rewrite lookup_delete_ne; [done|]. intros <-. apply Hnot. unfold own_of. rewrite Ho. by left.
  - intros x. unfold own_of. simpl. simpl_fn. intros Hx. destruct (Hk x Hx) as (? & ? & ?).
    by rewrite lookup_delete_ne.
  - unfold own_of. simpl. by simpl_fn.
  - unfold seen, pend_of. simpl. simpl_fn. by rewrite Hp, Hp'.
  - intros Hr. unfold log_ok. rewrite Hst. by apply (ri_seen _ _ _ _ Hri).
  - intros _ x Hx. destruct (decide (x = n)) as [->|Hne]; [by rewrite lookup_delete_eq in Hx; apply is_Some_None in Hx|].
    rewrite lookup_delete_ne in Hx by done. unfold own_of. simpl. simpl_fn. rewrite Ho.
    destruct (decide (x ∈ own k (qi t) st)); [by left|]. right. split; [done|]. set_solver.
Qed.
End heap.
End machine.
End flow.
