(* ===== verification/BenchSafe.v ===== *)
(** * The benchmark programs deliver every message and touch no freed memory

    The invariants of [BenchCtl] and [BenchFlow] are kept by every step of the
    common program, up to the end of job barrier and beyond it. *)

From S2P Require Import Prelude Lts QueueSpec Bench BenchSpec BenchCtl BenchFlow.

Local Open Scope Z_scope.

(** [free] of a block. *)
Lemma foldr_delete_lookup (h : gmap loc work_node_t) ns n :
  foldr delete h ns !! n = if decide (n ∈ ns) then None else h !! n.
Proof.
  induction ns as [|x ns IH]; simpl; [done|]. destruct (decide (n = x)) as [->|Hne].
  - rewrite lookup_delete_eq, decide_True; [done|by left].
  - rewrite lookup_delete_ne, IH by done. repeat case_decide; set_solver.
Qed.

Section safe.
Context (alloc : bool) (count : ptr → Z) (cf : config).
Context {L S : Type} (Qs : nat → Queue L S) (lax : bool).
Context (F : ∀ k, @FifoQueue L S (Qs k) lax) (ncores : Z).

Local Notation np := (cf_nproducers cf).
Local Notation nc := (cf_nconsumers cf).
Local Notation mpt := (cf_nmessages cf `quot` cf_nproducers cf).
Local Notation step := (b_step Qs (spec_program alloc count) cf ncores).
Local Notation run_inv := (run_inv alloc cf Qs lax F).
Local Notation ctl_inv := (ctl_inv alloc cf).

(** The options under which the programs are safe: enough cores, enough room
    for the stop nodes, no [-e]. *)
Record safe_config : Prop := {
  sc_valid : valid_config cf;
  sc_cores : np + nc ≤ ncores;
  sc_tmp : alloc = false → nc ≤ mpt;
  sc_extra : alloc = true → cf_extra_alloc cf = 0;
}.

Context (Hsafe : safe_config).

(** ** Quiet steps *)

Lemma quiet_step t lab a s s' (P : pc → Prop) :
  act_step Qs cf ncores t lab a s = Some s' → quiet a = true → act_all P a →
  ∃ k, P k ∧ b_pc s' = <[t := k]> (b_pc s) ∧ b_heap s' = b_heap s ∧ b_log s' = b_log s ∧ b_q s' = b_q s ∧
    (b_done s' = b_done s ∨ ∃ v k', a = AWriteDone v k').
Proof.
  intros Hs Hq Hall.
  destruct a; try done; destruct lab; try done; simpl in Hs, Hall; unfold barrier_arrive in Hs;
    repeat (case_match; try done); simplify_eq/=; eexists; (split; [|split_and!; (reflexivity || eauto)]);
    try done; try apply Hall; try (by case_bool_decide); auto.
Qed.

Lemma quiet_map {K K'} (f : K → K') a : quiet (act_map f a) = quiet a.
Proof. by destruct a. Qed.

Lemma run_quiet t lab a s s' A who blk p :
  run_inv s A who blk → b_pc s t = p → busy p (qi cf t) = None →
  act_step Qs cf ncores t lab a s = Some s' → quiet a = true →
  act_all (λ k, k ≠ Crashed ∧ view_step alloc cf t p k (st_of A t) (st_of A t) (b_heap s)) a →
  (∀ v k, a = AWriteDone v k → b_done s ≠ np) →
  ∃ A' who' blk', run_inv s' A' who' blk' ∧ b_pc s' t ≠ Crashed.
Proof.
  intros Hri Hp Hb Hs Hq Hall Hw.
  destruct (quiet_step t lab a s s' _ Hs Hq Hall) as (k & [Hk Hv] & Hpc & Hh & Hl & Hq' & Hd).
  exists A, who, blk. split; [|by rewrite Hpc, fn_lookup_insert].
  apply (run_move alloc cf Qs lax F s s' A A who blk t Hri); try done.
  - intros u Hu. rewrite Hpc. by simpl_fn.
  - intros Hnp. destruct Hd as [->|(v & k' & ->)]; [done|]. by destruct (Hw v k').
  - intros j. rewrite Hq'. apply Hri.
  - intros j. rewrite (idle_all alloc cf Qs lax F s A who blk t j Hri); [apply status_ok_idle|by rewrite Hp].
  - by rewrite Hpc, fn_lookup_insert, Hp.
Qed.

(** ** Producers *)

Local Notation safe_after s' t := (∃ A' who' blk', run_inv s' A' who' blk' ∧ b_pc s' t ≠ Crashed).

Section prod.
Context (s s' : bench S) (A : nat → fifo) (who : loc → owner) (blk : loc → tid) (t : tid) (m : main_pc).
Context (Hri : run_inv s A who blk) (Hctl : ctl_inv s m) (Hdone : done_inv cf s).

Lemma node_ok_Some n ns i :
  node_ok alloc n (node_at ns i) → 0 ≤ i → (alloc = false → i < Z.of_nat (length ns)) → is_Some n.
Proof.
  unfold node_ok. intros Hn Hi Hl. destruct alloc eqn:Ha; [done|]. rewrite Hn. apply node_at_Some.
  specialize (Hl eq_refl). lia.
Qed.

Lemma stop_node_Some n i l :
  0 ≤ i < nc → tmp_ok alloc cf l → node_ok alloc n (pl_tmp l ≫= λ ns, node_at ns i) → is_Some n.
Proof.
  unfold node_ok, tmp_ok. intros Hi Ht Hn. pose proof (sc_tmp Hsafe) as Hl. destruct alloc; [done|].
  rewrite Hn. destruct (pl_tmp l) as [ns|]; [|done]. apply node_at_Some. specialize (Hl eq_refl). lia.
Qed.

(** A producer inside [enqueue]. *)
Lemma run_prod_enq lab p q n k :
  b_pc s t = Prod p → busy (Prod p) (qi cf t) = Some (Z.to_nat q, Some n) → 0 ≤ q < nc →
  (∀ st, (∀ j, st j = QsIdle) → st_of A t (Z.to_nat q) = QsPushed →
     view_step alloc cf t (Prod p) (Prod k) (st_of A t) st (b_heap s)) →
  act_step Qs cf ncores t lab (AEnqueue q (Some n) (Prod k)) s = Some s' →
  safe_after s' t.
Proof.
  intros Hp Hb Hq Hv Hs. assert (queue_ok cf q = true) as Hok by (by apply bool_decide_eq_true_2).
  destruct lab as [| | | | |l]; simpl in Hs; try done; rewrite Hok in Hs; [done|].
  assert (b_pc s' t ≠ Crashed) as Hnc.
  { unfold enqueue_step in Hs. repeat (case_match; try done); simplify_eq/=; simpl_fn; congruence. }
  rewrite <-Hp in Hb, Hv.
  destruct (run_enqueue alloc cf Qs lax F s s' A who blk t l q n (Prod k) m (sc_valid Hsafe) Hri Hctl Hdone Hb Hv Hs)
    as (A' & who' & Hri'). eauto.
Qed.

Lemma view_ret_enq i q n l st :
  0 ≤ i → (∀ j, st j = QsIdle) → st_of A t (Z.to_nat q) = QsPushed →
  view_step alloc cf t (Prod (PEnq i q (Some n) l)) (Prod (PLoop (i - 1) l)) (st_of A t) st (b_heap s).
Proof.
  intros Hi Hst Hpu.
  assert (pushed (Prod (PEnq i q (Some n) l)) (st_of A t) = true) as Hp by (simpl; by rewrite Hpu).
  assert (own (Prod (PEnq i q (Some n) l)) (qi cf t) (st_of A t) = own (Prod (PLoop (i - 1) l)) (qi cf t) st) as Ho.
  { cbn [own]. unfold in_push. rewrite Hp, app_nil_r. f_equal. lia. }
  split; rewrite ?Ho; try done.
  - intros _ [Hh _]. exact Hh.
  - intros _. unfold sent. cbn [progress perm_of]. rewrite Hp. f_equal. lia.
Qed.

Lemma view_ret_stop i n l st :
  (∀ j, st j = QsIdle) → st_of A t (Z.to_nat i) = QsPushed →
  view_step alloc cf t (Prod (PStopEnq i (Some n) l)) (Prod (PStop (i + 1) l)) (st_of A t) st (b_heap s).
Proof.
  intros Hst Hpu.
  assert (pushed (Prod (PStopEnq i (Some n) l)) (st_of A t) = true) as Hp by (simpl; by rewrite Hpu).
  assert (own (Prod (PStopEnq i (Some n) l)) (qi cf t) (st_of A t) = own (Prod (PStop (i + 1) l)) (qi cf t) st) as Ho.
  { cbn [own]. unfold in_push. by rewrite Hp, app_nil_r. }
  split; rewrite ?Ho; done.
Qed.

(** A producer that writes one of its nodes. *)
Lemma run_prod_store lab p n f k :
  b_pc s t = Prod p → busy (Prod p) (qi cf t) = None → n ∈ own (Prod p) (qi cf t) (st_of A t) →
  own (Prod k) (qi cf t) (st_of A t) = own (Prod p) (qi cf t) (st_of A t) → block (Prod k) = block (Prod p) →
  (∀ w, holds cf t (Prod p) (st_of A t) (b_heap s) →
     holds cf t (Prod k) (st_of A t) (<[n := f w]> (b_heap s))) →
  sent cf t (Prod k) (st_of A t) = sent cf t (Prod p) (st_of A t) →
  act_step Qs cf ncores t lab (AStore (Some n) f (Prod k)) s = Some s' →
  safe_after s' t.
Proof.
  intros Hp Hb Hn Ho Hbl Hh Hse Hs. destruct lab; try done. simpl in Hs.
  destruct (ri_own _ _ _ _ _ _ _ _ _ Hri t n) as [_ [w Hw]]; [unfold own_of; by rewrite Hp|].
  rewrite Hw in Hs. simplify_eq/=. exists A, who, blk. split; [|by simpl_fn].
  apply run_store; rewrite ?Hp; try done. intros _. apply Hh.
Qed.

(** A producer that allocates. *)
Lemma run_prod_malloc lab p n (k : list loc → prod_pc) :
  b_pc s t = Prod p → busy (Prod p) (qi cf t) = None → own (Prod p) (qi cf t) (st_of A t) = [] →
  (∀ ns, Z.of_nat (length ns) = n →
     own (Prod (k ns)) (qi cf t) (st_of A t) ⊆+ ns ∧
     (alloc = true → ns ⊆+ own (Prod (k ns)) (qi cf t) (st_of A t)) ∧
     block (Prod (k ns)) ⊆+ ns ++ block (Prod p) ∧
     (∀ h, holds cf t (Prod (k ns)) (st_of A t) h) ∧
     sent cf t (Prod (k ns)) (st_of A t) = sent cf t (Prod p) (st_of A t)) →
  act_step Qs cf ncores t lab (AMalloc n (Prod ∘ k)) s = Some s' →
  safe_after s' t.
Proof.
  intros Hp Hb Ho Hk Hs. destruct lab as [|ns| | | |]; try done. simpl in Hs.
  destruct (fresh_block n ns (b_heap s)) eqn:Hfr; [|done]. simplify_eq/=.
  assert (Z.of_nat (length ns.*1) = n) as Hlen.
  { rewrite length_fmap. by apply fresh_block_spec in Hfr as [? _]. }
  destruct (Hk ns.*1 Hlen) as (K1 & K2 & K3 & K4 & K5).
  destruct (run_malloc alloc cf Qs lax F s A who blk t (Prod (k ns.*1)) Hri) with (n := n) (ns := ns)
    as (who' & blk' & Hri'); rewrite ?Hp; try done.
  exists A, who', blk'. split; [done|]. simpl. by simpl_fn.
Qed.

Lemma prod_busy_quiet td p me : quiet (spec_produce alloc td p) = true → busy (Prod p) me = None.
Proof. by destruct p. Qed.

Lemma own_idle : busy (b_pc s t) (qi cf t) = None → ∀ j, st_of A t j = QsIdle.
Proof. intros Hb j. by eapply idle_all. Qed.

(** Effects that involve neither the heap nor a queue. *)
Lemma run_prod_quiet lab p :
  b_pc s t = Prod p → parr cf p < stages cf + 4 →
  quiet (spec_produce alloc (b_td s t) p) = true →
  act_step Qs cf ncores t lab (act_map Prod (spec_produce alloc (b_td s t) p)) s = Some s' →
  safe_after s' t.
Proof.
  intros Hp Harr Hq Hs. destruct (ctl_prod alloc cf s m t p Hctl Hp) as (Hlt & Htd & Hok). rewrite Htd in Hs, Hq.
  pose proof (sc_valid Hsafe) as Hvalid. pose proof (prod_busy_quiet _ _ (qi cf t) Hq) as Hb.
  eapply run_quiet; [done|done|done|done|by rewrite quiet_map| |].
  - eapply act_all_map; [|apply (produce_view _ _ Hvalid t _ p (st_of A t) (b_heap s));
      try done; apply own_idle; by rewrite Hp].
    intros k Hk. by split.
  - intros v k Ha Hd. pose proof (counters_all cf Hvalid s t Hdone Hd Hlt) as Hc. rewrite Hp in Hc.
    destruct p; simpl in Ha; repeat case_match; done.
Qed.

(** The producer that sends the stop nodes. *)
Lemma run_prod_stop lab p :
  b_pc s t = Prod p → match p with PTmp _ | PStop _ _ | PStopSet _ _ _ | PStopEnq _ _ _ => True | _ => False end →
  quiet (spec_produce alloc (b_td s t) p) = false →
  act_step Qs cf ncores t lab (act_map Prod (spec_produce alloc (b_td s t) p)) s = Some s' →
  safe_after s' t.
Proof.
  intros Hp Hcase Hq Hs. destruct (ctl_prod alloc cf s m t p Hctl Hp) as (Hlt & Htd & Hok). rewrite Htd in Hs, Hq.
  pose proof (sc_valid Hsafe) as Hvalid. pose proof (mpt_nonneg cf Hvalid) as Hm.
  destruct p as [i| |i l|i l|l|l|l|i l|i n l|i n l|i q n l|l|l|v l|l|l|l|i l|i n l|i n l|l|l|l|l|l]; try done; clear Hcase;
    cbn [spec_produce] in Hq, Hs; cbv zeta in Hq, Hs; cbn [prod_ok] in Hok.
  - (* PTmp *) destruct Hok as (Ha & _ & Ht). rewrite Ha in Hs.
    refine (run_prod_malloc lab _ _ _ Hp _ _ _ Hs); try done. intros ns Hns. simpl. rewrite Ht. simpl.
    split_and!; try done. rewrite app_nil_r. by rewrite (comm (++)).
  - (* PStop *) destruct Hok as (Hi & _ & Ht). case_bool_decide; [|done].
    assert (alloc = true) as Ha by (by destruct alloc). rewrite Ha in Hs.
    unfold tmp_ok in Ht. destruct (pl_tmp l) as [|] eqn:E; [destruct Ht; congruence|].
    refine (run_prod_malloc lab _ _ _ Hp _ _ _ Hs); try done.
    + simpl. rewrite E. simpl. by rewrite drop_nil.
    + intros ns Hns. destruct ns as [|x [|]]; simpl in Hns; try lia. simpl. rewrite E. simpl. rewrite drop_nil.
      split_and!; try done. by apply submseteq_cons.
  - (* PStopSet *) destruct Hok as (Hi & _ & Ht & Hn).
    destruct (stop_node_Some n i l Hi Ht Hn) as [n' ->].
    refine (run_prod_store lab _ _ _ _ Hp _ _ _ _ _ _ Hs); try done.
    + simpl. set_solver.
    + cbn [own]. unfold in_push. by rewrite pushed_idle by (apply own_idle; by rewrite Hp).
    + intros w Hh. simpl. intros _. rewrite lookup_insert_eq. eauto.
  - (* PStopEnq *) destruct Hok as (Hi & _ & Ht & Hn).
    destruct (stop_node_Some n i l Hi Ht Hn) as [n' ->].
    refine (run_prod_enq lab _ _ _ _ Hp _ _ _ Hs); try done.
    intros st Hst Hpu. by apply view_ret_stop.
Qed.

Lemma run_prod_step lab p :
  b_pc s t = Prod p → parr cf p < stages cf + 4 →
  act_step Qs cf ncores t lab (act_map Prod (spec_produce alloc (b_td s t) p)) s = Some s' →
  safe_after s' t.
Proof.
  intros Hp Harr Hs. destruct (ctl_prod alloc cf s m t p Hctl Hp) as (Hlt & Htd & Hok). rewrite Htd in Hs.
  pose proof (sc_valid Hsafe) as Hvalid. pose proof (mpt_nonneg cf Hvalid) as Hm.
  destruct (quiet (spec_produce alloc (data_of alloc cf t (core_prod cf t)) p)) eqn:Hq.
  { eapply run_prod_quiet; rewrite ?Htd; done. }
  destruct p as [i| |i l|i l|l|l|l|i l|i n l|i n l|i q n l|l|l|v l|l|l|l|i l|i n l|i n l|l|l|l|l|l];
    cbn [spec_produce] in Hq, Hs; cbv zeta in Hq, Hs; cbn [prod_ok] in Hok; try done.
  - case_bool_decide; [done|]. by destruct alloc.
  - (* PMalloc *) rewrite Hok in Hs, Hq.
    refine (run_prod_malloc lab _ _ _ Hp _ _ _ Hs); try done.
  - case_bool_decide; [done|]. by destruct alloc.
  - (* PInit *) destruct Hok as (Ha & Hi & (Hpm & _ & Hl) & _). rewrite Ha in Hs, Hl, Hq.
    case_bool_decide as Hi0; [|done]. destruct (node_at_Some (pl_nodes l) i) as [n Hn]; [lia|]. rewrite Hn in Hs.
    refine (run_prod_store lab _ _ _ _ Hp _ _ _ _ _ _ Hs); try done.
    + simpl. unfold node_at in Hn. case_bool_decide; [|done]. by eapply list_elem_of_lookup_2.
    + intros w Hh j n' Hj Hn'. destruct (decide (j = i)) as [->|Hji].
      { rewrite Hn in Hn'. simplify_eq. by rewrite lookup_insert_eq. }
      rewrite lookup_insert_ne; [apply Hh; [lia|done]|]. intros <-.
      pose proof (ri_own_nodup _ _ _ _ _ _ _ _ _ Hri t) as Hnd. unfold own_of in Hnd. rewrite Hp in Hnd.
      apply Hji. by eapply node_at_inj.
  - (* PLoop *) destruct Hok as (Hi & (Hpm & _ & Hl) & Ht). case_bool_decide; [|done].
    assert (alloc = true) as Ha by (by destruct alloc). rewrite Ha in Hs, Hl.
    assert (pl_nodes l = []) as Hnil by (apply nil_length_inv; lia).
    refine (run_prod_malloc lab _ _ _ Hp _ _ _ Hs); try done.
    + simpl. by rewrite Hnil, take_nil.
    + intros ns Hns. destruct ns as [|x [|]]; simpl in Hns; try lia. simpl.
      split_and!; try done. by apply submseteq_cons.
  - (* PSet *) destruct Hok as (Ha & [n' ->] & Hi & (_ & _ & Hl) & Ht). rewrite Ha in Hs.
    refine (run_prod_store lab _ _ _ _ Hp _ _ _ _ _ _ Hs); try done.
    + simpl. by left.
    + intros w Hh. simpl. by rewrite lookup_insert_eq.
  - (* PExtra *) destruct alloc; repeat case_match; done.
  - (* PEnq *) destruct Hok as (Hi & Hloc & Ht & Hk & Hn).
    destruct (node_ok_Some n (pl_nodes l) i Hn) as [n' ->]; [lia| |].
    { intros Ha. destruct Hloc as (_ & _ & Hl). rewrite Ha in Hl. lia. }
    refine (run_prod_enq lab _ _ _ _ Hp _ _ _ Hs); try done.
    + rewrite Hk. by apply (dest_range alloc cf Hvalid t l (mpt - i)).
    + intros st Hst Hpu. apply view_ret_enq; [lia|done..].
  - eapply run_prod_stop; [done|done|by rewrite Htd|by rewrite Htd].
  - eapply run_prod_stop; [done|done|by rewrite Htd|by rewrite Htd].
  - eapply run_prod_stop; [done|done|by rewrite Htd|by rewrite Htd].
  - eapply run_prod_stop; [done|done|by rewrite Htd|by rewrite Htd].
  - simpl in Harr. lia.
  - simpl in Harr. lia.
Qed.

(** ** Consumers *)

Lemma cons_busy_quiet td c me : quiet (spec_consume alloc count td c) = true → busy (Cons c) me = None.
Proof. destruct c as [| | | | |[]| | | | | | |]; done. Qed.

(** A consumer inside [try_dequeue_bulk]. *)
Lemma run_cons_deq lab sum calls k :
  b_pc s t = Cons (CWhile false sum calls) → np ≤ t < np + nc →
  (∀ r, k r = match r with
              | Some n => CNodes [n] false (sum + count r) (calls + 1)
              | None => CWhile false (sum + count r) (calls + 1)
              end) →
  act_step Qs cf ncores t lab (ADequeue (Z.of_nat t - np) (Cons ∘ k)) s = Some s' →
  safe_after s' t.
Proof.
  intros Hp Ht Hk Hs.
  assert (queue_ok cf (Z.of_nat t - np) = true) as Hok by (apply bool_decide_eq_true_2; lia).
  destruct lab as [| | | | |l]; simpl in Hs; try done; rewrite Hok in Hs; [done|].
  assert (b_pc s' t ≠ Crashed) as Hnc.
  { unfold dequeue_step in Hs. repeat (case_match; try done); simplify_eq/=; simpl_fn; congruence. }
  destruct (run_dequeue alloc cf Qs lax F s s' A who blk t l (Z.of_nat t - np) (Cons ∘ k) m (sc_valid Hsafe)
    Hri Hctl Hdone) as (A' & who' & Hri'); [by rewrite Hp| |done|by eauto].
  intros st r Hst Hpop. rewrite Hp. simpl. rewrite Hk. unfold qi.
  split; simpl; try (intros; lia); destruct r as [n|]; simpl; unfold qi; rewrite ?Hpop, ?Hst; done.
Qed.

Lemma run_cons_step lab c :
  b_pc s t = Cons c →
  act_step Qs cf ncores t lab (act_map Cons (spec_consume alloc count (b_td s t) c)) s = Some s' →
  safe_after s' t.
Proof.
  intros Hp Hs. destruct (ctl_cons alloc cf s m t c Hctl Hp) as (Ht & Htd & Hok). rewrite Htd in Hs.
  pose proof (sc_valid Hsafe) as Hvalid. pose proof (sc_extra Hsafe) as Hextra.
  destruct (quiet (spec_consume alloc count (data_of alloc cf (t - np) (core_cons (t - np))) c)) eqn:Hq.
  { pose proof (cons_busy_quiet _ _ (qi cf t) Hq) as Hb.
    eapply run_quiet; [done|done|done|done|by rewrite quiet_map| |].
    - eapply act_all_map; [|apply (consume_view _ _ _ t _ _ c (st_of A t) (b_heap s));
        try done; apply own_idle; by rewrite Hp].
      intros k Hk. by split.
    - intros v k Ha. destruct c; simpl in Ha; repeat case_match; done. }
  assert (busy (Cons c) (qi cf t) = None → ∀ j, st_of A t j = QsIdle) as Hidle.
  { intros Hb. apply own_idle. by rewrite Hp. }
  destruct c as [k| | | | |dn sum calls|ns dn sum calls|n ns dn sum calls|n ns dn sum calls| | | |];
    cbn [spec_consume] in Hq, Hs; cbn [cons_ok] in Hok; try done.
  - by case_bool_decide.
  - (* CWhile *) destruct dn; [done|]. by eapply run_cons_deq.
  - (* CNodes *) destruct Hok as [->|(n & -> & ->)]; [done|]. simpl in Hs.
    destruct (ri_own _ _ _ _ _ _ _ _ _ Hri t n) as [_ [w Hw]].
    { unfold own_of. rewrite Hp. simpl. by left. }
    destruct lab; try done. rewrite Hw in Hs. simplify_eq/=. exists A, who, blk. split; [|by simpl_fn].
    apply (run_load alloc cf Qs lax F s A who blk t _ Hri) with (n := n) (ns := []); rewrite ?Hp; try done; try lia.
    all: destruct alloc; simpl; try done; try (by case_bool_decide). apply submseteq_nil_l.
  - (* CExtra *) destruct Hok as [Ha _]. rewrite Ha in Hq. simpl in Hq. by rewrite Hextra in Hq.
  - (* CFree *) destruct Hok as [Ha ->]. rewrite Ha in Hs. destruct lab; try done. simpl in Hs.
    destruct (ri_own _ _ _ _ _ _ _ _ _ Hri t n) as [_ Hn].
    { unfold own_of. rewrite Hp. simpl. by left. }
    rewrite bool_decide_eq_true_2 in Hs by (split; [done|by apply Forall_singleton]). simplify_eq/=.
    exists A, who, blk. split; [|by simpl_fn].
    apply (run_free alloc cf Qs lax F Hvalid s A who blk t _ Hri); rewrite ?Hp; try done; lia.
Qed.
End prod.

(** ** Every step while the job runs *)

Lemma view_step_refl t p st h : view_step alloc cf t p p st st h.
Proof. by apply view_step_trivial. Qed.

(** A thread that changes neither its own view nor the rest. *)
Lemma run_same s s' A who blk t k :
  run_inv s A who blk → b_q s' = b_q s → b_heap s' = b_heap s → b_log s' = b_log s → b_done s' = b_done s →
  (∀ u, u ≠ t → b_pc s' u = b_pc s u) → b_pc s' t = k → (∀ j, ff_st (A j) t = QsIdle) →
  view_step alloc cf t (b_pc s t) k (st_of A t) (st_of A t) (b_heap s) →
  run_inv s' A who blk.
Proof.
  intros Hri Hq Hh Hl Hd Hpc Hk Hidle Hv.
  apply (run_move alloc cf Qs lax F s s' A A who blk t Hri); try done; rewrite ?Hk, ?Hd, ?Hq; try done.
  - apply Hri.
  - intros j. rewrite Hidle. apply status_ok_idle.
Qed.

(** [main] binds every thread to a core that exists. *)
Lemma main_create_core m r i td k :
  main_ok cf m → act_map Main (spec_main alloc cf m) = ACreate r i td k →
  0 ≤ obj td < ncores ∧ ∃ m', k = Main m'.
Proof.
  intros Hok Ha. pose proof (core_range cf (sc_valid Hsafe) ncores (sc_cores Hsafe)) as Hc.
  destruct m; simpl in *; repeat case_bool_decide; simplify_eq/=; destruct Hok as [Hi ->];
    (split; [apply Hc; lia|eauto]).
Qed.

Lemma run_main_step s s' A who blk m lab :
  run_inv s A who blk → ctl_inv s m →
  act_step Qs cf ncores (main_tid cf) lab (act_map Main (spec_main alloc cf m)) s = Some s' →
  safe_after s' (main_tid cf).
Proof.
  intros Hri Hctl Hs. pose proof (sc_valid Hsafe) as Hvalid. pose proof (ci_main alloc cf s m Hctl) as Hp.
  destruct (quiet (spec_main alloc cf m)) eqn:Hq.
  { refine (run_quiet (main_tid cf) lab _ s s' A who blk (Main m) Hri Hp _ Hs _ _ _); [done|by rewrite quiet_map| |].
    - eapply act_all_map; [|by apply (main_view alloc cf (main_tid cf) m (st_of A (main_tid cf)) (b_heap s))].
      intros k Hk. by split.
    - intros v k Ha. destruct m; simpl in Ha; repeat case_match; done. }
  rewrite <-(quiet_map Main) in Hq.
  destruct (act_map Main (spec_main alloc cf m)) as [| | | | | | | | | | | | | | |r i td k| | |z] eqn:Ha;
    try done; try (by destruct m; simpl in Ha; repeat case_match).
  all: destruct lab; try done; simpl in Hs.
  - destruct (ctl_child alloc cf Hvalid s m r i td k Hctl Ha) as [Hch Hne].
    destruct (main_create_core m r i td k (ci_main_ok alloc cf s m Hctl) Ha) as [Hobj [m' ->]].
    rewrite bool_decide_eq_true_2 in Hs by done.
    exists A, who, blk. case_bool_decide; simplify_eq; (split; [|cbn [b_pc set_pc set_exit]; simpl_fn; by rewrite ?Hp]).
    + set (s1 := set_pc (tid_of cf r i) (start_pc r) (set_td (tid_of cf r i) td s)).
      apply (run_same s1 _ A who blk (main_tid cf) (Main m')); try done.
      * apply (run_same s _ A who blk (tid_of cf r i) (start_pc r) Hri); try done.
        -- intros u Hu. simpl. by simpl_fn.
        -- simpl. by simpl_fn.
        -- intros j. eapply (idle_all alloc cf Qs lax F); [done|]. by rewrite Hch.
        -- rewrite Hch. by destruct r; apply view_step_trivial.
      * intros u Hu. simpl. by simpl_fn.
      * simpl. by simpl_fn.
      * intros j. eapply (idle_all alloc cf Qs lax F); [done|]. by rewrite Hp.
      * simpl. simpl_fn. rewrite Hp. by apply view_step_trivial.
    + apply (run_same s _ A who blk (main_tid cf) (Main m) Hri); try done.
      * intros j. eapply (idle_all alloc cf Qs lax F); [done|]. by rewrite Hp.
      * rewrite Hp. apply view_step_refl.
  - simplify_eq. exists A, who, blk. split; [|change (b_pc s (main_tid cf) ≠ Crashed); by rewrite Hp].
    apply (run_same s _ A who blk (main_tid cf) (Main m) Hri); try done.
    + intros j. eapply (idle_all alloc cf Qs lax F); [done|]. by rewrite Hp.
    + rewrite Hp. apply view_step_refl.
Qed.

(** Only the thread that moves can crash. *)
Lemma crash_only t lab s s' : no_crash s → step t lab s = Some s' → b_pc s' t ≠ Crashed → no_crash s'.
Proof.
  intros Hnc Hs Ht u. destruct (decide (u = t)) as [->|Hu]; [done|]. unfold b_step in Hs.
  destruct (b_exit s); [done|]. destruct (b_wait s t) as [g|].
  { destruct lab; try done. case_bool_decide; [|done]. by simplify_eq/=. }
  destruct (thread_act _ _ _ _) as [a|]; [|done].
  pose proof (act_step_pc cf Qs ncores t lab a s s' (λ _, True) Hs (act_all_True _ a (λ _, I))) as Hpc.
  destruct a as [| | | | | | | | | | | | | | |r i td k| | |z];
    try (destruct Hpc as [_ [->|(k' & _ & ->)]]; [apply Hnc|simpl_fn; apply Hnc]).
  destruct Hpc as [(_ & -> & _)|[(_ & -> & _)|[-> _]]]; simpl_fn; try apply Hnc.
  destruct (decide (u = tid_of cf r i)) as [->|]; simpl_fn; [by destruct r|apply Hnc].
Qed.

Lemma run_step t lab s s' A who blk m :
  run_inv s A who blk → ctl_inv s m → done_inv cf s → bar_inv cf s → no_crash s →
  b_gen s < stages cf + 4 → step t lab s = Some s' →
  no_crash s' ∧ ∃ A' who' blk', run_inv s' A' who' blk'.
Proof.
  intros Hri Hctl Hdone Hbar Hnc Hgen Hs. pose proof Hs as Hs0. unfold b_step in Hs. destruct (b_exit s); [done|].
  destruct (b_wait s t) as [g|] eqn:Hw.
  { destruct lab; try done. case_bool_decide; [|done]. simplify_eq. split; [done|]. exists A, who, blk.
    destruct Hri. by split. }
  destruct (thread_act _ _ _ _) as [a|] eqn:Ha; [|done].
  destruct (ctl_act alloc count cf (sc_valid Hsafe) t s m a Hctl Ha) as (Ht & _ & _).
  pose proof (bi_run cf s Hbar t Ht Hw) as Harr.
  assert (safe_after s' t) as (A' & who' & blk' & Hri' & Hpc).
  { destruct (b_pc s t) as [|p|c|m'|] eqn:Hp; simplify_eq/=.
    - eapply run_prod_step; [done..| |done]. lia.
    - by eapply run_cons_step.
    - destruct (ctl_main alloc cf s m t m' Hctl Hp) as [-> ->]. by eapply run_main_step. }
  split; [|eauto]. by eapply (crash_only t).
Qed.

(** ** After the end of job barrier *)

Record end_inv (s : bench S) (blk : loc → tid) : Prop := {
  ei_block t n : alloc = false → n ∈ block (b_pc s t) → blk n = t ∧ is_Some (b_heap s !! n);
  ei_block_nodup t : alloc = false → NoDup (block (b_pc s t));
  ei_log (t k : nat) : t < np → k < nc →
    filter (is_from t) (b_log s (consumer_of cf k)) = routed_to k (sends cf t (perm_of (b_pc s t)));
  ei_ids (k : nat) : k < nc → Forall (λ w, is_msg w → 0 ≤ wn_id w < np) (b_log s (consumer_of cf k));
  ei_stops (k : nat) : k < nc → ends_stopped (b_log s (consumer_of cf k));
  ei_live n w : alloc = true → b_heap s !! n = Some w → wn_data w = 0;
}.

(** Threads that have passed a barrier. *)
Lemma bar_arr (s : bench S) (t : tid) :
  bar_inv cf s → t ∈ threads cf → b_gen s ≤ arr cf (b_pc s t) ≤ b_gen s + 1.
Proof.
  intros Hbar Ht. destruct (b_wait s t) as [g|] eqn:Hw.
  - destruct (bi_wait cf s Hbar t g Ht Hw). lia.
  - rewrite (bi_run cf s Hbar t Ht Hw). lia.
Qed.

Lemma stage_arr_le i : stage_ok cf i → i / 2 ≤ stages cf.
Proof.
  intros [Hi _]. pose proof (Z.div_le_mono i (2 * stages cf) 2 ltac:(lia) ltac:(lia)) as Hd.
  by rewrite Z.mul_comm, Z_div_mult in Hd by lia.
Qed.

Lemma late_prod t p :
  prod_ok alloc cf t p → stages cf + 4 ≤ parr cf p →
  ∃ l, locals_ok alloc cf t mpt l ∧ (p = PEnd2 l ∨ p = PFreeTmp l ∨ p = PFree l ∨ p = PExit l).
Proof. destruct p as [i| | | | | | | | | | | | | | | | | | | | | | | |]; simpl; intros Hok Ha; try lia; eauto 6. pose proof (stage_arr_le i Hok). lia. Qed.

Lemma late_cons c :
  cons_ok alloc cf c → stages cf + 4 ≤ carr cf c → ∃ sum calls, c = CEnd2 sum calls ∨ c = CExit sum calls.
Proof. destruct c as [i| | | | | | | | | | | |]; simpl; intros Hok Ha; try lia; eauto. pose proof (stage_arr_le i Hok). lia. Qed.

(** Every thread has come this far. *)
Lemma late_threads (s : bench S) m (t : tid) :
  ctl_inv s m → bar_inv cf s → no_crash s → stages cf + 4 ≤ b_gen s →
  (t < np → ∃ l, locals_ok alloc cf t mpt l ∧
     (b_pc s t = Prod (PEnd2 l) ∨ b_pc s t = Prod (PFreeTmp l) ∨ b_pc s t = Prod (PFree l) ∨ b_pc s t = Prod (PExit l))) ∧
  (np ≤ t < np + nc → ∃ sum calls, b_pc s t = Cons (CEnd2 sum calls) ∨ b_pc s t = Cons (CExit sum calls)).
Proof.
  intros Hctl Hbar Hnc Hg. pose proof (sc_valid Hsafe) as Hvalid. pose proof (main_tid_Z cf Hvalid) as Hmt.
  pose proof (stages_pos cf Hvalid) as Hsp.
  destruct (decide (t < np + nc)) as [Ht|Ht]; [|destruct Hvalid; split; intros; lia].
  assert (t ≠ main_tid cf) as Hne by lia.
  assert (t ∈ threads cf) as Hin by (apply elem_of_threads; lia).
  pose proof (bar_arr s t Hbar Hin) as Harr.
  destruct (decide (created cf m t)) as [Hc|Hc]; [|rewrite (ci_none alloc cf s m Hctl t Hne Hc) in Harr; simpl in Harr; lia].
  destruct (ci_some alloc cf s m Hctl t Hne Hc) as [(H1 & _ & [E|(p & E & Hok)])|(H1 & _ & [E|(c & E & Hok)])];
    try (by destruct (Hnc t)); rewrite E in *; simpl in Harr; split; intros; try lia.
  - destruct (late_prod t p Hok) as (l & Hl & Hp); [lia|]. exists l. naive_solver.
  - destruct (late_cons c Hok) as (sum & calls & Hp); [lia|]. exists sum, calls. naive_solver.
Qed.

Lemma consumer_of_range (k : nat) : k < nc → np ≤ Z.of_nat (consumer_of cf k) < np + nc.
Proof. destruct (sc_valid Hsafe). unfold consumer_of. lia. Qed.

Lemma length_sends t perm : length (sends cf t perm) = Z.to_nat mpt.
Proof. unfold sends. by rewrite length_fmap, length_seqZ. Qed.

(** A consumer that has stopped has taken all messages out of its queue. *)
Lemma run_end_flow (s : bench S) A who blk m (k : nat) :
  run_inv s A who blk → ctl_inv s m → bar_inv cf s → no_crash s → stages cf + 4 ≤ b_gen s → k < nc →
  ∃ rest, flow cf s A k = b_log s (consumer_of cf k) ++ rest ∧ Forall (λ w, wn_data w = 0) rest ∧
    (∀ n, n ∈ ff_items (A k) → content (b_heap s) n ∈ rest).
Proof.
  intros Hri Hctl Hbar Hnc Hg Hk. pose proof (consumer_of_range k Hk) as Hr.
  destruct (late_threads s m (consumer_of cf k) Hctl Hbar Hnc Hg) as [_ Hl].
  pose proof (ri_seen _ _ _ _ _ _ _ _ _ Hri _ Hr) as Hlog. pose proof (ri_stops _ _ _ _ _ _ _ _ _ Hri k) as Hst.
  eexists. split; [unfold flow, seen; by rewrite <-(assoc_L (++))|]. split.
  - eapply stops_last_seen.
    + unfold flow, seen in Hst. by rewrite <-(assoc_L (++)) in Hst.
    + apply ends_stopped_stop. destruct Hl as (sum & calls & [Hp|Hp]); [done|..]; rewrite Hp in Hlog; exact Hlog.
  - intros n Hn. apply elem_of_app. right. by apply list_elem_of_fmap_2.
Qed.

Lemma own_late (s : bench S) m A (t : tid) :
  ctl_inv s m → bar_inv cf s → no_crash s → stages cf + 4 ≤ b_gen s → own_of cf s A t = [].
Proof.
  intros Hctl Hbar Hnc Hg. destruct (late_threads s m t Hctl Hbar Hnc Hg) as [Hp Hc]. unfold own_of.
  destruct (b_pc s t) as [|p|c|m'|] eqn:E; try done.
  - destruct (ctl_prod alloc cf s m t p Hctl E) as (Ht & _). destruct (Hp Ht) as (l & _ & Hl). naive_solver.
  - destruct (ctl_cons alloc cf s m t c Hctl E) as (Ht & _). destruct (Hc Ht) as (sum & calls & Hl). naive_solver.
Qed.

Lemma run_end (s : bench S) A who blk m :
  run_inv s A who blk → ctl_inv s m → bar_inv cf s → no_crash s → stages cf + 4 ≤ b_gen s → end_inv s blk.
Proof.
  intros Hri Hctl Hbar Hnc Hg. pose proof (λ k, run_end_flow s A who blk m k Hri Hctl Hbar Hnc Hg) as Hfl.
  split.
  - apply Hri.
  - apply Hri.
  - intros t k Ht Hk. destruct (Hfl k Hk) as (rest & Hf & Hrest & _).
    pose proof (ri_flow _ _ _ _ _ _ _ _ _ Hri t k Ht Hk) as Hflow. rewrite Hf, filter_app in Hflow.
    rewrite (filter_none (is_from t) rest), app_nil_r in Hflow.
    2: { intros w Hw [Hx _]. rewrite Forall_forall in Hrest. by apply Hx, Hrest. }
    rewrite Hflow. f_equal. unfold sent.
    destruct (late_threads s m t Hctl Hbar Hnc Hg) as [(l & _ & Hp) _]; [done|].
    rewrite take_ge; [done|]. rewrite length_sends. by destruct Hp as [->|[->|[->| ->]]].
  - intros k Hk. destruct (Hfl k Hk) as (rest & Hf & _). pose proof (ri_ids _ _ _ _ _ _ _ _ _ Hri k) as Hi.
    rewrite Hf in Hi. by apply Forall_app in Hi as [? _].
  - intros k Hk. pose proof (consumer_of_range k Hk) as Hr.
    pose proof (ri_seen _ _ _ _ _ _ _ _ _ Hri _ Hr) as Hlog.
    destruct (late_threads s m (consumer_of cf k) Hctl Hbar Hnc Hg) as [_ Hl].
    destruct Hl as (sum & calls & [Hp|Hp]); [done|..]; rewrite Hp in Hlog; exact Hlog.
  - intros n w Ha Hw. destruct (ri_live _ _ _ _ _ _ _ _ _ Hri Ha n) as [[t Ho]|(k & Hk & Hn)]; [eauto| |].
    + rewrite (own_late s m A t) in Ho by done. by apply elem_of_nil in Ho.
    + destruct (Hfl k Hk) as (rest & _ & Hrest & Hin). specialize (Hin n Hn). rewrite Forall_forall in Hrest.
      specialize (Hrest _ Hin). unfold content in Hrest. by rewrite Hw in Hrest.
Qed.

(** What a step leaves alone at the end. *)
Lemma end_frame (s s' : bench S) blk (t : tid) :
  end_inv s blk → b_heap s' = b_heap s → b_log s' = b_log s → (∀ u, u ≠ t → b_pc s' u = b_pc s u) →
  block (b_pc s' t) ⊆+ block (b_pc s t) → perm_of (b_pc s' t) = perm_of (b_pc s t) → end_inv s' blk.
Proof.
  intros [E1 E2 E3 E4 E5 E6] Hh Hl Hpc Hb Hp. split; rewrite ?Hh, ?Hl; try done.
  - intros u n Ha. destruct (decide (u = t)) as [->|Hu]; [|rewrite Hpc by done; auto].
    intros Hn. apply E1; [done|]. by eapply elem_of_submseteq.
  - intros u Ha. destruct (decide (u = t)) as [->|Hu]; [|rewrite Hpc by done; auto].
    exact (submseteq_NoDup _ _ Hb (E2 t Ha)).
  - intros u k Hu Hk. rewrite E3 by done. destruct (decide (u = t)) as [->|Hne]; [by rewrite Hp|by rewrite Hpc].
Qed.

(** A producer frees one of its blocks. *)
Lemma end_free (s : bench S) blk (t : tid) ns k :
  end_inv s blk → alloc = false → block (b_pc s t) ≡ₚ block k ++ ns → perm_of k = perm_of (b_pc s t) →
  Forall (λ n, is_Some (b_heap s !! n)) ns ∧
  end_inv (set_pc t k (set_heap (foldr delete (b_heap s) ns) s)) blk.
Proof.
  intros [E1 E2 E3 E4 E5 E6] Ha Hb Hp. pose proof (E2 t Ha) as Hnd. rewrite Hb in Hnd.
  apply NoDup_app in Hnd as (Hnd & Hdis & _).
  assert (∀ u n, n ∈ block (<[t := k]> (b_pc s) u) → n ∈ block (b_pc s u) ∧ n ∉ ns) as Hkeep.
  { intros u n. same_tid t u.
    - intros Hn. split; [rewrite Hb; set_solver|auto].
    - intros Hn. split; [done|]. intros Hin. destruct (E1 u n Ha Hn) as [Hu _].
      destruct (E1 t n Ha) as [Ht' _]; [rewrite Hb; set_solver|]. congruence. }
  split; [|split; simpl; try done].
  - apply Forall_forall. intros n Hn. apply (E1 t n Ha). rewrite Hb. set_solver.
  - intros u n _ Hn. destruct (Hkeep u n Hn) as [Hn' Hnot].
    rewrite foldr_delete_lookup, decide_False by done. by apply E1.
  - intros u _. same_tid t u; [done|auto].
  - intros u j Hu Hj. rewrite E3 by done. same_tid t u; [by rewrite Hp|done].
  - intros n w Ha'. congruence.
Qed.

(** A step that only moves the program point. *)
Lemma end_quiet t lab a (s s' : bench S) blk :
  end_inv s blk → act_step Qs cf ncores t lab a s = Some s' → quiet a = true →
  act_all (λ k, k ≠ Crashed ∧ block k ⊆+ block (b_pc s t) ∧ perm_of k = perm_of (b_pc s t)) a →
  end_inv s' blk ∧ b_pc s' t ≠ Crashed.
Proof.
  intros He Hs Hq Hall.
  destruct (quiet_step t lab a s s' _ Hs Hq Hall) as (k & (Hk & Hb & Hp) & Hpc & Hh & Hl & _).
  split; [|by rewrite Hpc, fn_lookup_insert].
  apply (end_frame s s' blk t); try done; rewrite ?Hpc, ?fn_lookup_insert; try done.
  intros u Hu. by simpl_fn.
Qed.

Lemma end_prod_step (s s' : bench S) blk (t : tid) lab p m :
  end_inv s blk → ctl_inv s m → b_pc s t = Prod p → stages cf + 4 ≤ parr cf p →
  act_step Qs cf ncores t lab (act_map Prod (spec_produce alloc (b_td s t) p)) s = Some s' →
  end_inv s' blk ∧ b_pc s' t ≠ Crashed.
Proof.
  intros He Hctl Hp Ha Hs. destruct (ctl_prod alloc cf s m t p Hctl Hp) as (Hlt & Htd & Hok).
  destruct (late_prod t p Hok Ha) as (l & _ & [->|[->|[->| ->]]]); cbn [spec_produce act_map] in Hs.
  - eapply end_quiet; [done..|]. rewrite Hp. destruct alloc; simpl; split_and!; try done. apply submseteq_nil_l.
  - destruct alloc eqn:Hal; [done|]. destruct (pl_tmp l) as [ns|] eqn:E; cbn [act_map] in Hs.
    + destruct lab; try done. cbn [act_step] in Hs. destruct (end_free s blk t ns (Prod (PFree l)) He) as [Hfa He'];
        [done|by rewrite Hp; simpl; rewrite E|by rewrite Hp|].
      rewrite bool_decide_eq_true_2 in Hs by done. simplify_eq. split; [done|]. simpl. by simpl_fn.
    + eapply end_quiet; [done..|]. rewrite Hp. simpl. rewrite E, app_nil_r. done.
  - destruct alloc eqn:Hal; [done|]. simpl in Hs. destruct lab; try done.
    destruct (end_free s blk t (pl_nodes l) (Prod (PExit l)) He) as [Hfa He'];
      [done|by rewrite Hp|by rewrite Hp|].
    rewrite bool_decide_eq_true_2 in Hs by done. simplify_eq. split; [done|]. simpl. by simpl_fn.
  - done.
Qed.

Lemma end_main_step (s s' : bench S) blk lab m :
  end_inv s blk → ctl_inv s m → stages cf + 4 ≤ marr cf m →
  act_step Qs cf ncores (main_tid cf) lab (act_map Main (spec_main alloc cf m)) s = Some s' →
  end_inv s' blk ∧ b_pc s' (main_tid cf) ≠ Crashed.
Proof.
  intros He Hctl Ha Hs. pose proof (ci_main alloc cf s m Hctl) as Hp.
  pose proof (stages_pos cf (sc_valid Hsafe)) as Hsp.
  destruct (quiet (spec_main alloc cf m)) eqn:Hq.
  { eapply end_quiet; [done..|by rewrite quiet_map|].
    eapply act_all_map; [|apply (act_all_True (λ _, True) _ (λ _, I))]. intros k _. by rewrite Hp. }
  destruct m as [i j|i j|i| | | | | | | |i ti tf|i ti tf|]; simpl in Hq, Ha; repeat case_bool_decide; try done; try lia.
  simpl in Hs. destruct lab; try done. simplify_eq.
  split; [|change (b_pc s (main_tid cf) ≠ Crashed); by rewrite Hp]. by apply (end_frame s _ blk (main_tid cf)).
Qed.

Lemma end_step t lab (s s' : bench S) blk m :
  end_inv s blk → ctl_inv s m → bar_inv cf s → no_crash s → stages cf + 4 ≤ b_gen s →
  step t lab s = Some s' → no_crash s' ∧ end_inv s' blk.
Proof.
  intros He Hctl Hbar Hnc Hgen Hs. pose proof Hs as Hs0. unfold b_step in Hs. destruct (b_exit s); [done|].
  destruct (b_wait s t) as [g|] eqn:Hw.
  { destruct lab; try done. case_bool_decide; [|done]. simplify_eq. split; [done|]. by apply (end_frame s _ blk t). }
  destruct (thread_act _ _ _ _) as [a|] eqn:Ha; [|done].
  destruct (ctl_act alloc count cf (sc_valid Hsafe) t s m a Hctl Ha) as (Ht & _ & _).
  pose proof (bi_run cf s Hbar t Ht Hw) as Harr.
  assert (end_inv s' blk ∧ b_pc s' t ≠ Crashed) as [He' Hpc]; [|split; [by eapply (crash_only t)|done]].
  destruct (b_pc s t) as [|p|c|m'|] eqn:Hp; simplify_eq/=.
  - eapply end_prod_step; [done..| |done]. lia.
  - destruct (ctl_cons alloc cf s m t c Hctl Hp) as (_ & _ & Hok).
    destruct (late_cons c Hok) as (sum & calls & [->| ->]); [lia| |done]. cbn [spec_consume act_map] in Hs.
    eapply end_quiet; [done..|]. rewrite Hp. done.
  - destruct (ctl_main alloc cf s m t m' Hctl Hp) as [-> ->]. eapply end_main_step; [done..| |done]. lia.
Qed.

(** ** Every reachable state *)

Record full_inv (s : bench S) (m : main_pc) : Prop := {
  fi_ctl : ctl_inv s m;
  fi_crash : no_crash s;
  fi_bar : bar_inv cf s;
  fi_done : done_inv cf s;
  fi_run : b_gen s < stages cf + 4 → ∃ A who blk, run_inv s A who blk;
  fi_end : stages cf + 4 ≤ b_gen s → ∃ blk, end_inv s blk;
  fi_exit : b_exit s = Some 0 → ∃ ti tf, m = MReturn ti tf;
}.

Lemma run_inv_start (s : bench S) :
  b_init Qs cf s → run_inv s (λ _, fifo_empty) (λ _, Thr 0%nat) (λ _, 0%nat).
Proof.
  intros (q & td0 & Hq & ->).
  assert (∀ t, ∃ p, (<[main_tid cf := Main (MProd 0 1)]> (λ _, NotStarted)) t = p ∧
    (p = NotStarted ∨ p = Main (MProd 0 1))) as Hpc.
  { intros t. eexists. split; [done|]. same_tid (main_tid cf) t; auto. }
  assert (∀ t, own_of cf (Bench S q (<[main_tid cf := Main (MProd 0 1)]> (λ _, NotStarted)) td0 ∅ 0 None
    0 0 (λ _, None) (λ _, []) None) (λ _, fifo_empty) t = []) as Hown.
  { intros t. unfold own_of. cbn [b_pc]. by destruct (Hpc t) as (p & -> & [->| ->]). }
  assert (∀ k, flow cf (Bench S q (<[main_tid cf := Main (MProd 0 1)]> (λ _, NotStarted)) td0 ∅ 0 None
    0 0 (λ _, None) (λ _, []) None) (λ _, fifo_empty) k = []) as Hflow.
  { intros k. unfold flow, seen, pend_of. cbn [b_pc b_log].
    by destruct (Hpc (consumer_of cf k)) as (p & -> & [->| ->]). }
  split; intros *; rewrite ?Hown, ?Hflow; cbn [b_pc b_q b_heap b_done b_log ff_items fifo_empty].
  - apply (@fq_init _ _ _ _ (F k)), Hq.
  - apply status_ok_idle.
  - by intros ?%elem_of_nil.
  - by intros ?%elem_of_nil.
  - apply NoDup_nil_2.
  - intros _. apply NoDup_nil_2.
  - intros _. destruct (Hpc t) as (p & -> & [->| ->]); by intros ?%elem_of_nil.
  - intros _. destruct (Hpc t) as (p & -> & [->| ->]); apply NoDup_nil_2.
  - intros _. by destruct (Hpc t) as (p & -> & [->| ->]).
  - intros _ _. by destruct (Hpc t) as (p & -> & [->| ->]).
  - done.
  - by exists [], [].
  - by intros ?%Exists_nil.
  - intros _. destruct (Hpc t) as (p & -> & [->| ->]); by apply Forall_nil_2.
  - intros _ n Hn. rewrite lookup_empty in Hn. by apply is_Some_None in Hn.
Qed.

(** Only [main] ends the process, and with status 0 only by returning. *)
Lemma exit_step t lab (s s' : bench S) m m' :
  ctl_inv s m → ctl_inv s' m' → step t lab s = Some s' → b_exit s' = Some 0 → ∃ ti tf, m' = MReturn ti tf.
Proof.
  intros Hctl Hctl' Hs He. unfold b_step in Hs. destruct (b_exit s) eqn:Hex; [done|].
  destruct (b_wait s t) as [g|].
  { destruct lab; try done. case_bool_decide; [|done]. by simplify_eq/=. }
  destruct (thread_act _ _ _ _) as [a|] eqn:Ha; [|done].
  assert (∃ z, a = AReturn z) as [z ->].
  { destruct a, lab; simpl in Hs; unfold barrier_arrive, enqueue_step, dequeue_step in Hs;
      repeat (case_match; try done); simplify_eq/=; try congruence; eauto. }
  destruct (b_pc s t) as [|p|c|m''|] eqn:Hp; simplify_eq/=;
    try (by destruct p; simpl in *; repeat case_match); try (by destruct c; simpl in *; repeat case_match).
  destruct (ctl_main alloc cf s m t m'' Hctl Hp) as [-> ->].
  destruct lab; try done. simplify_eq. pose proof (ci_main alloc cf _ _ Hctl') as Hp'.
  change (b_pc s (main_tid cf) = Main m') in Hp'. rewrite Hp in Hp'. simplify_eq.
  destruct m'; simpl in *; repeat case_match; simplify_eq; eauto.
Qed.

Lemma gen_mono t lab (s s' : bench S) : step t lab s = Some s' → b_gen s ≤ b_gen s'.
Proof.
  intros Hs. unfold b_step in Hs. destruct (b_exit s); [done|]. destruct (b_wait s t) as [g|].
  { destruct lab; try done. case_bool_decide; [|done]. by simplify_eq/=. }
  destruct (thread_act _ _ _ _) as [a|]; [|done]. destruct (decide (barriers a = 0)) as [Hb|Hb].
  - destruct (act_step_bar cf Qs ncores t lab a s s' Hs Hb) as [-> _]. done.
  - destruct a; try done. destruct lab; try done. simpl in Hs. unfold barrier_arrive in Hs.
    case_bool_decide; simplify_eq/=; lia.
Qed.

Lemma full_inv_start (s : bench S) : b_init Qs cf s → full_inv s (MProd 0 1).
Proof.
  intros Hi. pose proof (sc_valid Hsafe) as Hv. split.
  - by eapply ctl_inv_start.
  - destruct Hi as (q & td0 & _ & ->). intros t. simpl. by same_tid (main_tid cf) t.
  - by eapply bar_inv_start.
  - by eapply done_inv_start.
  - intros _. eexists _, _, _. by apply run_inv_start.
  - destruct Hi as (q & td0 & _ & ->). simpl. pose proof (stages_pos cf Hv). lia.
  - by destruct Hi as (q & td0 & _ & ->).
Qed.

Lemma full_inv_step t lab (s s' : bench S) m : full_inv s m → step t lab s = Some s' → ∃ m', full_inv s' m'.
Proof.
  intros [H1 H2 H3 H4 H5 H6 H7] Hs. pose proof (sc_valid Hsafe) as Hv. pose proof (sc_cores Hsafe) as Hc.
  destruct (ctl_inv_step alloc count cf Hv Qs ncores Hc t lab s s' m H1 Hs) as [m' H1'].
  assert (no_crash s' ∧ (b_gen s < stages cf + 4 → ∃ A who blk, run_inv s' A who blk) ∧
    (stages cf + 4 ≤ b_gen s → ∃ blk, end_inv s' blk)) as (Hnc & Hrun & Hend).
  { destruct (decide (b_gen s < stages cf + 4)) as [Hg|Hg].
    - destruct (H5 Hg) as (A & who & blk & Hri).
      destruct (run_step t lab s s' A who blk m Hri H1 H4 H3 H2 Hg Hs) as [? ?]. split_and!; [done..|lia].
    - destruct H6 as [blk He]; [lia|].
      destruct (end_step t lab s s' blk m He H1 H3 H2 ltac:(lia) Hs). split_and!; eauto; lia. }
  pose proof (bar_inv_step alloc count cf Hv Qs ncores t lab s s' m H1 H3 Hnc Hs) as H3'.
  exists m'. split; try done.
  - exact (done_inv_step alloc count cf Hv Qs ncores t lab s s' m H1 H4 Hnc Hs).
  - intros Hg. apply Hrun. pose proof (gen_mono t lab s s' Hs). lia.
  - intros Hg. destruct (decide (b_gen s < stages cf + 4)) as [Hlt|]; [|apply Hend; lia].
    destruct (Hrun Hlt) as (A & who & blk & Hri). exists blk. by eapply run_end.
  - intros He. exact (exit_step t lab s s' m m' H1 H1' Hs He).
Qed.
End safe.
