(* ===== verification/BenchThm.v ===== *)
(** * What the benchmark programs guarantee

    Consequences of the invariants for every program that agrees with the
    common one: it touches no memory it does not own, every message reaches
    the consumer it is routed to and in order, memory is given back, the timed
    interval contains the whole exchange, and the figures printed at the end
    count what they claim to count. *)

From S2P Require Import Prelude Lts QueueSpec Bench BenchSpec BenchCtl BenchFlow BenchSafe.

Local Open Scope Z_scope.

(** ** Statements *)

(** The messages that consumer [k] has taken out of its queue. *)
Definition received_by {S} (cf : config) (s : bench S) (k : nat) : list work_node_t :=
  filter is_msg (b_log s (consumer_of cf k)).

(** Producer [t] routes by some permutation of the queues; what consumer [k]
    got from it is what it sent there, in that order. *)
Definition delivered {S} (cf : config) (s : bench S) : Prop :=
  ∀ t : nat, t < cf_nproducers cf →
    ∃ permute, permute ≡ₚ seqZ 0 (cf_nconsumers cf) ∧
      ∀ k : nat, k < cf_nconsumers cf →
        filter (λ w, wn_id w = t) (received_by cf s k) = routed_to k (sends cf t permute).

Definition total_received {S} (cf : config) (s : bench S) : nat :=
  sum_list_with (λ k, length (received_by cf s k)) (seq 0 (Z.to_nat (cf_nconsumers cf))).

(** ** Counting *)

Lemma sum_list_with_ext {A} (f g : A → nat) l :
  (∀ x, x ∈ l → f x = g x) → sum_list_with f l = sum_list_with g l.
Proof. induction l as [|x l IH]; intros H; simpl; [done|]. rewrite H, IH; set_solver. Qed.

Lemma sum_list_with_plus {A} (f g : A → nat) l :
  sum_list_with (λ x, f x + g x)%nat l = (sum_list_with f l + sum_list_with g l)%nat.
Proof. induction l as [|x l IH]; simpl; [done|]. rewrite IH. lia. Qed.

Lemma sum_list_with_zero {A} (l : list A) : sum_list_with (λ _, 0%nat) l = 0%nat.
Proof. by induction l. Qed.

Lemma sum_list_with_swap {A B} (f : A → B → nat) l l' :
  sum_list_with (λ x, sum_list_with (f x) l') l =
  sum_list_with (λ y, sum_list_with (λ x, f x y) l) l'.
Proof.
  induction l as [|x l IH]; simpl; [by rewrite sum_list_with_zero|].
  by rewrite sum_list_with_plus, IH.
Qed.

Lemma sum_list_with_const {A} (c : nat) (l : list A) : sum_list_with (λ _, c) l = (length l * c)%nat.
Proof. induction l as [|x l IH]; simpl; [done|]. by rewrite IH. Qed.

(** A partition of a list by a number below [n]. *)
Lemma sum_list_with_single (x : Z) n :
  0 ≤ x < Z.of_nat n →
  sum_list_with (λ k : nat, if decide (x = k) then 1%nat else 0%nat) (seq 0 n) = 1%nat.
Proof.
  induction n as [|n IH]; intros Hx; [lia|].
  rewrite seq_S, sum_list_with_app. simpl. destruct (decide (x = n)) as [->|Hne].
  - rewrite (sum_list_with_ext _ (λ _, 0%nat)), sum_list_with_zero; [done|].
    intros k Hk%elem_of_seq. rewrite decide_False by lia. done.
  - rewrite IH by lia. done.
Qed.

Lemma length_partition {A} (f : A → Z) n (l : list A) :
  Forall (λ x, 0 ≤ f x < Z.of_nat n) l →
  sum_list_with (λ k : nat, length (filter (λ x, f x = k) l)) (seq 0 n) = length l.
Proof.
  induction 1 as [|x l Hx Hl IH]; simpl; [apply sum_list_with_zero|].
  rewrite (sum_list_with_ext _ (λ k : nat, (if decide (f x = k) then 1 else 0) +
    length (filter (λ x, f x = k) l))%nat).
  - by rewrite sum_list_with_plus, IH, sum_list_with_single.
  - intros k _. rewrite filter_cons. by destruct (decide (f x = k)).
Qed.

Section thm.
Context (alloc : bool) (count : ptr → Z) (cf : config).
Context {L S : Type} (Qs : nat → Queue L S) (lax : bool).
Context (F : ∀ k, @FifoQueue L S (Qs k) lax) (ncores : Z).
Context (Hsafe : safe_config alloc cf ncores).

Local Notation np := (cf_nproducers cf).
Local Notation nc := (cf_nconsumers cf).
Local Notation mpt := (cf_nmessages cf `quot` cf_nproducers cf).
Local Notation step := (b_step Qs (spec_program alloc count) cf ncores).
Local Notation full_inv := (full_inv alloc cf Qs lax F).
Local Notation reachable := (reachable (sys := bench_lts Qs (spec_program alloc count) cf ncores)).

Lemma full_reachable s : reachable s → ∃ m, full_inv s m.
Proof.
  induction 1 as [s Hi|[t lab] s s' _ [m IH] Hs].
  - exists (MProd 0 1). exact (full_inv_start alloc cf Qs lax F ncores Hsafe s Hi).
  - exact (full_inv_step alloc count cf Qs lax F ncores Hsafe t lab s s' m IH Hs).
Qed.

(** ** Delivery *)

Section end_state.
Context (s : bench S) (m : main_pc) (Hfi : full_inv s m) (Hgen : stages cf + 4 ≤ b_gen s).

Lemma end_perm (t : nat) : t < np → perm_of (b_pc s t) ≡ₚ seqZ 0 nc.
Proof.
  intros Ht. destruct (late_threads alloc cf ncores Hsafe s m t (fi_ctl _ _ _ _ _ _ _ Hfi)
    (fi_bar _ _ _ _ _ _ _ Hfi) (fi_crash _ _ _ _ _ _ _ Hfi) Hgen) as [(l & (Hp & _) & Hl) _]; [done|].
  by destruct Hl as [->|[->|[->| ->]]].
Qed.

Lemma end_received (t k : nat) :
  t < np → k < nc →
  filter (λ w, wn_id w = t) (received_by cf s k) = routed_to k (sends cf t (perm_of (b_pc s t))).
Proof.
  intros Ht Hk. destruct (fi_end _ _ _ _ _ _ _ Hfi Hgen) as [blk He].
  rewrite <-(ei_log _ _ _ _ He t k Ht Hk). unfold received_by. rewrite list_filter_filter.
  apply list_filter_iff. intros w. unfold is_from, is_msg. naive_solver.
Qed.

Lemma end_delivered : delivered cf s.
Proof.
  intros t Ht. exists (perm_of (b_pc s t)). split; [by apply end_perm|]. intros k Hk. by apply end_received.
Qed.

Lemma routed_all (t : nat) :
  t < np →
  sum_list_with (λ k : nat, length (routed_to k (sends cf t (perm_of (b_pc s t))))) (seq 0 (Z.to_nat nc)) =
  Z.to_nat mpt.
Proof.
  intros Ht. destruct (sc_valid _ _ _ Hsafe) as [Hnc _].
  rewrite <-(length_sends cf t (perm_of (b_pc s t))).
  rewrite <-(length_partition fst (Z.to_nat nc)).
  - apply sum_list_with_ext. intros k _. unfold routed_to. by rewrite length_fmap.
  - apply Forall_forall. intros x [j [-> _]]%list_elem_of_fmap. simpl.
    pose proof (perm_dest_range cf (sc_valid _ _ _ Hsafe) t (perm_of (b_pc s t)) j (end_perm t Ht)). lia.
Qed.

Lemma end_total : Z.of_nat (total_received cf s) = mpt * np.
Proof.
  destruct (sc_valid _ _ _ Hsafe) as [Hnc _]. pose proof (mpt_nonneg cf (sc_valid _ _ _ Hsafe)) as Hm.
  unfold total_received.
  rewrite (sum_list_with_ext _ (λ k : nat, sum_list_with
    (λ t : nat, length (routed_to k (sends cf t (perm_of (b_pc s t))))) (seq 0 (Z.to_nat np)))).
  - rewrite sum_list_with_swap.
    rewrite (sum_list_with_ext _ (λ _, Z.to_nat mpt)).
    + rewrite sum_list_with_const, length_seq. nia.
    + intros t Ht%elem_of_seq. apply routed_all. lia.
  - intros k Hk%elem_of_seq. destruct (fi_end _ _ _ _ _ _ _ Hfi Hgen) as [blk He].
    rewrite <-(length_partition wn_id (Z.to_nat np) (received_by cf s k)).
    + apply sum_list_with_ext. intros t Ht%elem_of_seq. f_equal. apply end_received; lia.
    + pose proof (ei_ids _ _ _ _ He k ltac:(lia)) as Hi. rewrite Forall_forall in Hi. apply Forall_forall.
      intros w [Hw1 Hw2]%list_elem_of_filter. specialize (Hi w Hw2 Hw1). lia.
Qed.
End end_state.

(** ** What a step does, in outline *)

Lemma step_inv t lab s s' :
  step t lab s = Some s' →
  b_exit s = None ∧
  ((∃ g, b_wait s t = Some g ∧ g < b_gen s ∧ s' = barrier_leave t s) ∨
   (b_wait s t = None ∧ ∃ a, thread_act (spec_program alloc count) cf (b_td s t) (b_pc s t) = Some a ∧
      act_step Qs cf ncores t lab a s = Some s')).
Proof.
  intros Hs. unfold b_step in Hs. destruct (b_exit s); [done|]. split; [done|].
  destruct (b_wait s t) as [g|].
  - destruct lab; try done. case_bool_decide; [|done]. simplify_eq. eauto.
  - destruct (thread_act _ _ _ _) as [a|] eqn:Ha; [|done]. eauto.
Qed.

(** A thread is moved only by itself or by its creation. *)
Lemma pc_other t lab s s' m u :
  full_inv s m → step t lab s = Some s' → u ≠ t →
  b_pc s' u = b_pc s u ∨ b_pc s u = NotStarted ∧ ∃ r, b_pc s' u = start_pc r.
Proof.
  intros Hfi Hs Hu. destruct (step_inv t lab s s' Hs) as [_ [(g & _ & _ & ->)|(_ & a & Ha & Hact)]]; [by left|].
  pose proof (act_step_pc cf Qs ncores t lab a s s' (λ _, True) Hact (act_all_True _ a (λ _, I))) as Hpc.
  destruct a as [| | | | | | | | | | | | | | |r i td k| | |z];
    try (left; destruct Hpc as [_ [->|(k' & _ & ->)]]; [done|by simpl_fn]).
  destruct Hpc as [(_ & -> & _)|[(_ & -> & _)|[-> _]]]; simpl_fn; auto.
  destruct (decide (u = tid_of cf r i)) as [->|]; simpl_fn; [|by left]. right. split; [|eauto].
  destruct (b_pc s t) as [|p|c|m'|] eqn:Hp; simplify_eq/=;
    try (by destruct p; simpl in *; repeat case_match); try (by destruct c; simpl in *; repeat case_match).
  destruct (ctl_main alloc cf s m t m' (fi_ctl _ _ _ _ _ _ _ Hfi) Hp) as [-> ->].
  by eapply (ctl_child alloc cf (sc_valid _ _ _ Hsafe) s m r i td k (fi_ctl _ _ _ _ _ _ _ Hfi)).
Qed.

(** ** Exit *)

(** The threads that [main] has joined. *)
Definition joined (m : main_pc) (t : Z) : Prop :=
  match m with
  | MJoinP i _ _ => t < i
  | MJoinC i _ _ => t < np + i
  | MReturn _ _ => t < np + nc
  | _ => False
  end.

Definition join_inv (s : bench S) (m : main_pc) : Prop := ∀ t : tid, joined m t → exited (b_pc s t) = true.

Lemma exited_stable t lab s s' m u :
  full_inv s m → step t lab s = Some s' → exited (b_pc s u) = true → b_pc s' u = b_pc s u.
Proof.
  intros Hfi Hs He. destruct (decide (u = t)) as [->|Hu].
  - destruct (step_inv t lab s s' Hs) as [_ [(g & _ & _ & ->)|(_ & a & Ha & Hact)]]; [done|].
    destruct (b_pc s t) as [|[]|[]| |]; simplify_eq/=; done.
  - destruct (pc_other t lab s s' m u Hfi Hs Hu) as [->|[Hn _]]; [done|]. by rewrite Hn in He.
Qed.

Lemma join_main_step lab s s' m m' :
  full_inv s m → full_inv s' m' → join_inv s m →
  act_step Qs cf ncores (main_tid cf) lab (act_map Main (spec_main alloc cf m)) s = Some s' →
  ∀ t : tid, joined m' t → exited (b_pc s t) = true.
Proof.
  intros Hfi Hfi' Hj Hs t. pose proof (ci_main _ _ _ _ (fi_ctl _ _ _ _ _ _ _ Hfi')) as Hp'.
  pose proof (ci_main_ok _ _ _ _ (fi_ctl _ _ _ _ _ _ _ Hfi)) as Hok.
  pose proof (ci_main _ _ _ _ (fi_ctl _ _ _ _ _ _ _ Hfi)) as Hp.
  pose proof (sc_valid _ _ _ Hsafe) as Hv. pose proof (tid_of_Z cf Hv) as Hid. unfold join_inv in Hj.
  destruct m as [i j|i j|i| | | | | | | |i ti tf|i ti tf|]; simpl in Hok; cbn [spec_main] in Hs;
    repeat case_bool_decide; destruct lab; try done; cbn [act_map act_step] in Hs; unfold barrier_arrive in Hs;
    repeat (case_match; try done); simplify_eq; cbn [b_pc set_pc set_exit set_td] in Hp';
    rewrite ?fn_lookup_insert, ?Hp in Hp'; simplify_eq/=; try done; try lia; intros Ht.
  - destruct (decide (t = tid_of cf RProd i)) as [->|Hne]; [done|]. apply Hj. simpl.
    assert (Z.of_nat (tid_of cf RProd i) = i) by (apply (Hid RProd); lia). lia.
  - apply Hj. simpl. lia.
  - destruct (decide (t = tid_of cf RCons i)) as [->|Hne]; [done|]. apply Hj. simpl.
    assert (Z.of_nat (tid_of cf RCons i) = np + i) by (apply (Hid RCons); lia). lia.
  - apply Hj. simpl. lia.
  - by apply Hj.
Qed.

Lemma join_step t lab s s' m m' :
  full_inv s m → full_inv s' m' → join_inv s m → step t lab s = Some s' → join_inv s' m'.
Proof.
  intros Hfi Hfi' Hj Hs u Hu. pose proof (ci_main _ _ _ _ (fi_ctl _ _ _ _ _ _ _ Hfi)) as Hp.
  pose proof (ci_main _ _ _ _ (fi_ctl _ _ _ _ _ _ _ Hfi')) as Hp'.
  assert (exited (b_pc s u) = true) as He; [|by rewrite (exited_stable t lab s s' m u)].
  assert (b_pc s' (main_tid cf) = b_pc s (main_tid cf) → exited (b_pc s u) = true) as Hsame.
  { intros Heq. rewrite Hp, Hp' in Heq. simplify_eq. by apply Hj. }
  destruct (decide (t = main_tid cf)) as [->|Hne].
  - destruct (step_inv _ lab s s' Hs) as [_ [(g & _ & _ & ->)|(_ & a & Ha & Hact)]]; [by apply Hsame|].
    rewrite Hp in Ha. simplify_eq/=. by eapply join_main_step.
  - destruct (pc_other t lab s s' m (main_tid cf) Hfi Hs) as [?|[Hn _]]; [done|by apply Hsame|]. by rewrite Hp in Hn.
Qed.

(** ** Memory is given back *)

(** Without [alloc] every live node lies in a block that its producer will free. *)
Definition live_inv (s : bench S) : Prop :=
  alloc = false → ∀ n, is_Some (b_heap s !! n) → ∃ t, n ∈ block (b_pc s t).

Definition keeps_block (p : pc) (a : act pc) : Prop :=
  match a with
  | AMalloc _ k => ∀ ns, block p ++ ns ⊆ block (k ns)
  | AFree ns _ k => block p ⊆ ns ++ block k
  | _ => act_all (λ k, block p ⊆ block k) a
  end.

Lemma produce_keeps (t : tid) j p :
  alloc = false → prod_ok alloc cf t p →
  keeps_block (Prod p) (act_map Prod (spec_produce alloc (data_of alloc cf t j) p)).
Proof.
  intros Ha Hok. rewrite Ha in *.
  destruct p as [i| |i l|i l|l|l|l|i l|i n l|i n l|i q n l|l|l|v l|l|l|l|i l|i n l|i n l|l|l|l|l|l];
    cbn [spec_produce act_map]; cbv zeta; simpl in Hok; repeat (case_bool_decide; cbn [act_map]); simpl; try done;
    try set_solver.
  - intros z. case_bool_decide; done.
  - intros ns. destruct Hok as (_ & _ & ->). simpl. rewrite app_nil_r. done.
  - destruct (pl_tmp l) as [ns|] eqn:E; simpl; rewrite E; simpl; intros x; rewrite !elem_of_app, ?elem_of_nil; tauto.
Qed.

Lemma live_act t lab a s s' :
  live_inv s → act_step Qs cf ncores t lab a s = Some s' → b_pc s' t ≠ Crashed → keeps_block (b_pc s t) a →
  (∀ u, u ≠ t → b_pc s' u = b_pc s u ∨ b_pc s u = NotStarted ∧ ∃ r, b_pc s' u = start_pc r) → live_inv s'.
Proof.
  intros Hl Hs Hnc Hk Ho Ha. specialize (Hl Ha).
  assert (∀ n, n ∈ block (b_pc s t) ∨ is_Some (b_heap s !! n) → (n ∈ block (b_pc s t) → n ∈ block (b_pc s' t)) →
    ∃ t, n ∈ block (b_pc s' t)) as Hold.
  { intros n Hn Ht. assert (∃ u, n ∈ block (b_pc s u)) as [u Hu] by (destruct Hn; eauto).
    destruct (decide (u = t)) as [->|Hne]; [eauto|]. exists u.
    destruct (Ho u Hne) as [->|[Hns _]]; [done|]. rewrite Hns in Hu. by apply elem_of_nil in Hu. }
  destruct a, lab; try done; simpl in Hs, Hk; unfold barrier_arrive, enqueue_step, dequeue_step in Hs;
    repeat (case_match; try done); simplify_eq; cbn [b_pc b_heap set_pc set_heap set_done set_mutex set_q set_log set_td set_exit] in *;
    rewrite ?fn_lookup_insert in *; try done; intros x Hx; try (apply Hold; auto; fail);
    try (apply Hold; [by right|apply Hk; lia]).
  - (* malloc *) destruct (decide (x ∈ ns.*1)) as [Hin|Hin].
    + exists t. rewrite fn_lookup_insert. apply (Hk ns.*1), elem_of_app. by right.
    + rewrite lookup_union_r in Hx by (by apply not_elem_of_list_to_map_1).
      apply Hold; [by right|]. intros Hb. apply (Hk ns.*1), elem_of_app. by left.
  - (* a store *) apply Hold; [right|auto]. destruct n as [n|]; [|done]. simpl in *.
    destruct (b_heap s !! n) eqn:E; simplify_eq/=.
    apply lookup_insert_is_Some' in Hx as [<-|Hx]; [eauto|done].
  - (* free *) rewrite foldr_delete_lookup in Hx. destruct (decide (x ∈ l)) as [|Hni]; [by destruct Hx|].
    apply Hold; [by right|]. intros Hb. apply Hk, elem_of_app in Hb. tauto.
  - (* urandom *) apply Hold; [by right|]. apply Hk. by apply bool_decide_eq_true_1 in H.
Qed.

Lemma live_step t lab s s' m m' :
  full_inv s m → full_inv s' m' → live_inv s → step t lab s = Some s' → live_inv s'.
Proof.
  intros Hfi Hfi' Hl Hs Ha. pose proof (fi_ctl _ _ _ _ _ _ _ Hfi) as Hctl.
  destruct (step_inv t lab s s' Hs) as [_ [(g & _ & _ & ->)|(_ & a & Hact & Hstep)]]; [by apply Hl|].
  refine (live_act t lab a s s' Hl Hstep (fi_crash _ _ _ _ _ _ _ Hfi' t) _ (λ u, pc_other t lab s s' m u Hfi Hs) Ha).
  destruct (b_pc s t) as [|p|c|m1|] eqn:Hp; simplify_eq/=.
  - destruct (ctl_prod alloc cf s m t p Hctl Hp) as (_ & -> & Hok). by apply produce_keeps.
  - destruct (spec_consume alloc count (b_td s t) c) as [| | | | | |n k| | | | | | | | | | | |] eqn:E; simpl; intros; try done; try apply list_subseteq_nil.
    by destruct c; simpl in E; repeat case_match.
  - destruct (spec_main alloc cf m1) as [| | | | | |n k| | | | | | | | | | | |] eqn:E; simpl; intros; try done; try apply list_subseteq_nil.
    by destruct m1; simpl in E; repeat case_match.
Qed.

(** ** Before the clock is read *)

(** Nothing has been sent or received before the third barrier. *)
Definition early_inv (s : bench S) : Prop :=
  b_gen s ≤ stages cf + 2 → (∀ k, @q_init _ _ (Qs k) (b_q s k)) ∧ ∀ t, b_log s t = [].

Definition touches {K} (a : act K) : bool :=
  match a with AEnqueue _ _ _ | ADequeue _ _ | ALoad _ _ => true | _ => false end.

Lemma touches_map {K K'} (f : K → K') a : touches (act_map f a) = touches a.
Proof. by destruct a. Qed.

Lemma act_step_touches t lab a (s s' : bench S) :
  act_step Qs cf ncores t lab a s = Some s' → touches a = false → b_q s' = b_q s ∧ b_log s' = b_log s.
Proof.
  intros Hs Ht. destruct a, lab; try done; simpl in Hs; unfold barrier_arrive in Hs;
    repeat (case_match; try done); by simplify_eq/=.
Qed.

Lemma touches_late s t m a :
  full_inv s m → thread_act (spec_program alloc count) cf (b_td s t) (b_pc s t) = Some a → touches a = true →
  arr cf (b_pc s t) = stages cf + 3.
Proof.
  intros Hfi Ha Ht. destruct (b_pc s t) as [|p|c|m'|] eqn:Hp; simplify_eq/=; rewrite touches_map in Ht;
    [destruct p|destruct c|destruct m']; simpl in *; repeat case_match; try done.
Qed.

Lemma early_step t lab s s' m :
  full_inv s m → early_inv s → step t lab s = Some s' → early_inv s'.
Proof.
  intros Hfi He Hs Hg. pose proof (gen_mono alloc count cf Qs ncores t lab s s' Hs) as Hm.
  destruct (He ltac:(lia)) as [Hq Hl].
  destruct (step_inv t lab s s' Hs) as [_ [(g & _ & _ & ->)|(Hw & a & Ha & Hstep)]]; [done|].
  destruct (touches a) eqn:Ht.
  - pose proof (touches_late s t m a Hfi Ha Ht) as Harr.
    destruct (ctl_act alloc count cf (sc_valid _ _ _ Hsafe) t s m a (fi_ctl _ _ _ _ _ _ _ Hfi) Ha) as (Hin & _).
    rewrite (bi_run cf s (fi_bar _ _ _ _ _ _ _ Hfi) t Hin Hw) in Harr. lia.
  - by destruct (act_step_touches t lab a s s' Hstep Ht) as [-> ->].
Qed.

(** ** The figures a consumer reports *)

(** [sum], [calls] and the number of nodes not looked at yet. *)
Definition tally (c : cons_pc) : option (Z * Z * Z) :=
  match c with
  | CNodes ns _ sum calls => Some (sum, calls, Z.of_nat (length ns))
  | CWhile _ sum calls | CExtra _ _ _ sum calls | CFree _ _ _ sum calls
  | CTf sum calls | CEnd1 sum calls | CEnd2 sum calls | CExit sum calls => Some (sum, calls, 0)
  | _ => None
  end.

Definition tally_ok (log : list work_node_t) (c : cons_pc) : Prop :=
  match tally c with
  | Some (sum, calls, held) =>
      ((∀ r, count r = Z.of_nat (length (option_list r))) →
         sum = Z.of_nat (length log) + held ∧ sum ≤ calls) ∧
      ((∀ r, count r = 1) → sum = calls)
  | None => log = []
  end.

Lemma consume_tally td c log :
  cons_ok alloc cf c → tally_ok log c →
  match spec_consume alloc count td c with
  | ALoad n k => ∀ w, tally_ok (log ++ [w]) (k w)
  | a => act_all (tally_ok log) a
  end.
Proof.
  destruct c as [i| | | | |dn sum calls|[|n ns] dn sum calls|n ns dn sum calls|n ns dn sum calls| | | |];
    cbn [spec_consume]; intros Hok Ht; try exact Ht; try (intros _; exact Ht); try done.
  - case_bool_decide; done.
  - unfold tally_ok in *. simpl in *. subst log. split; intros; simpl; lia.
  - destruct dn; simpl; [done|]. intros [n|]; unfold tally_ok in *; simpl in *; destruct Ht as [H1 H2];
      split; intros Hc; rewrite ?Hc; simpl; try specialize (H1 Hc); try specialize (H2 Hc); lia.
  - intros w. assert (ns = []) as -> by (destruct Hok as [|(n' & ? & _)]; by simplify_eq).
    destruct alloc; unfold tally_ok in *; simpl in *; destruct Ht as [H1 H2]; (split; [|done]); intros Hc;
      specialize (H1 Hc); rewrite length_app; simpl; lia.
  - destruct alloc; [|done]. case_bool_decide; done.
  - destruct Hok as [-> ->]. exact Ht.
Qed.

Definition tally_inv (s : bench S) : Prop := ∀ t,
  match b_pc s t with Cons c => tally_ok (b_log s t) c | NotStarted => b_log s t = [] | _ => True end.

Lemma log_other t lab a (s s' : bench S) :
  act_step Qs cf ncores t lab a s = Some s' →
  match a with
  | ALoad n k => ∃ w, b_log s' = <[t := b_log s t ++ [w]]> (b_log s) ∧ b_pc s' = <[t := k w]> (b_pc s)
  | _ => b_log s' = b_log s
  end ∨ b_pc s' t = Crashed.
Proof.
  intros Hs. destruct a, lab; try done; simpl in Hs; unfold barrier_arrive, enqueue_step, dequeue_step in Hs;
    repeat (case_match; try done); simplify_eq/=; simpl_fn; eauto.
Qed.

Lemma tally_cons_step t lab s s' m m' c :
  full_inv s m → full_inv s' m' → tally_ok (b_log s t) c → b_pc s t = Cons c →
  act_step Qs cf ncores t lab (act_map Cons (spec_consume alloc count (b_td s t) c)) s = Some s' →
  ∃ c', b_pc s' t = Cons c' ∧ tally_ok (b_log s' t) c'.
Proof.
  intros Hfi Hfi' Hc Hp Hs. pose proof (fi_crash _ _ _ _ _ _ _ Hfi' t) as Hnc.
  destruct (ctl_cons alloc cf s m t c (fi_ctl _ _ _ _ _ _ _ Hfi) Hp) as (_ & _ & Hok).
  pose proof (consume_tally (b_td s t) c (b_log s t) Hok Hc) as Ht.
  destruct (log_other t lab _ s s' Hs) as [Hlog|]; [|done].
  assert (creates (act_map Cons (spec_consume alloc count (b_td s t) c)) = false) as Hcr.
  { rewrite creates_map. apply creates_consume. }
  assert (act_all (tally_ok (b_log s t)) (spec_consume alloc count (b_td s t) c) →
    b_log s' = b_log s → ∃ c', b_pc s' t = Cons c' ∧ tally_ok (b_log s' t) c') as Hall.
  { intros Hall ->. pose proof (act_step_pc cf Qs ncores t lab _ s s' (λ k, ∃ c', k = Cons c' ∧ tally_ok (b_log s t) c')
      Hs (act_all_map Cons _ _ _ (λ c' Hc', ex_intro _ c' (conj eq_refl Hc')) Hall)) as Hpc.
    destruct (act_map Cons (spec_consume alloc count (b_td s t) c)); try done;
      destruct Hpc as [_ [Heq|(k' & [[_ ->]|Hk] & Heq)]]; rewrite Heq in Hnc |- *; rewrite ?fn_lookup_insert in Hnc |- *;
      eauto; done. }
  destruct (spec_consume alloc count (b_td s t) c) eqn:E; try (by apply Hall).
  destruct Hlog as (w & -> & ->). rewrite !fn_lookup_insert. exists (k w). auto.
Qed.

Lemma act_map_pc {K} (f : K → pc) t lab a (s s' : bench S) :
  act_step Qs cf ncores t lab (act_map f a) s = Some s' → creates a = false →
  b_pc s' t = b_pc s t ∨ b_pc s' t = Crashed ∨ ∃ k, b_pc s' t = f k.
Proof.
  intros Hs Hcr. pose proof (act_step_pc cf Qs ncores t lab _ s s' (λ k, ∃ k', k = f k') Hs
    (act_all_map f (λ _, True) _ _ (λ k _, ex_intro _ k eq_refl) (act_all_True _ _ (λ _, I)))) as Hpc.
  destruct a; try done; destruct Hpc as [_ [->|(k' & [[_ ->]|[k'' ->]] & ->)]]; simpl_fn; eauto.
Qed.

Lemma tally_step t lab s s' m m' :
  full_inv s m → full_inv s' m' → tally_inv s → step t lab s = Some s' → tally_inv s'.
Proof.
  intros Hfi Hfi' Hti Hs u. pose proof (Hti u) as Hu.
  destruct (step_inv t lab s s' Hs) as [_ [(g & _ & _ & ->)|(_ & a & Ha & Hstep)]]; [done|].
  destruct (decide (u = t)) as [->|Hne].
  - destruct (b_pc s t) as [|p|c|m0|] eqn:Hp; simplify_eq/=.
    + destruct (act_map_pc Prod t lab _ s s' Hstep (creates_produce _ _ _)) as [->|[->|[k ->]]]; [by rewrite Hp|done..].
    + by destruct (tally_cons_step t lab s s' m m' c Hfi Hfi' Hu Hp Hstep) as (c' & -> & ?).
    + destruct (ctl_main alloc cf s m t m0 (fi_ctl _ _ _ _ _ _ _ Hfi) Hp) as [-> ->].
      by rewrite (ci_main _ _ _ _ (fi_ctl _ _ _ _ _ _ _ Hfi')).
  - assert (b_log s' u = b_log s u) as ->.
    { destruct (log_other t lab a s s' Hstep) as [Hlog|Hx]; [|by destruct (fi_crash _ _ _ _ _ _ _ Hfi' t)].
      destruct a; try (by rewrite Hlog). destruct Hlog as (w & -> & _). by simpl_fn. }
    destruct (pc_other t lab s s' m u Hfi Hs Hne) as [->|[Hn [r ->]]]; [done|].
    rewrite Hn in Hu. by destruct r.
Qed.

(** ** All of it *)

Record all_inv (s : bench S) (m : main_pc) : Prop := {
  al_full : full_inv s m;
  al_join : join_inv s m;
  al_live : live_inv s;
  al_early : early_inv s;
  al_tally : tally_inv s;
}.

Lemma all_reachable s : reachable s → ∃ m, all_inv s m.
Proof.
  induction 1 as [s Hi|[t lab] s s' _ [m [H1 H2 H3 H4 H5]] Hs].
  - exists (MProd 0 1). split.
    + exact (full_inv_start alloc cf Qs lax F ncores Hsafe s Hi).
    + by intros t [].
    + destruct Hi as (q & td0 & Hq & ->). intros _ n Hn. simpl in Hn. rewrite lookup_empty in Hn.
      by apply is_Some_None in Hn.
    + by destruct Hi as (q & td0 & Hq & ->).
    + destruct Hi as (q & td0 & Hq & ->). intros t. simpl. by same_tid (main_tid cf) t.
  - change (step t lab s = Some s') in Hs.
    destruct (full_inv_step alloc count cf Qs lax F ncores Hsafe t lab s s' m H1 Hs) as [m' H1'].
    exists m'. split; [done|..].
    + exact (join_step t lab s s' m m' H1 H1' H2 Hs).
    + exact (live_step t lab s s' m m' H1 H1' H3 Hs).
    + exact (early_step t lab s s' m H1 H4 Hs).
    + exact (tally_step t lab s s' m m' H1 H1' H5 Hs).
Qed.
End thm.

(** ** Any program with the same effects *)

(** A thread that [main] has created. *)
Definition started {S} (s : bench S) (t : tid) : Prop := b_pc s t ≠ NotStarted.

Section programs.
Context (alloc : bool) (count : ptr → Z) (cf : config) (p : program).
Context {L S : Type} (Qs : nat → Queue L S) (lax : bool).
Context (F : ∀ k, @FifoQueue L S (Qs k) lax) (ncores : Z).
Context (Hsafe : safe_config alloc cf ncores) (Heq : program_eq p (spec_program alloc count)).

Local Notation np := (cf_nproducers cf).
Local Notation nc := (cf_nconsumers cf).
Local Notation mpt := (cf_nmessages cf `quot` cf_nproducers cf).

Context (s : bench S) (Hr : reachable (sys := bench_lts Qs p cf ncores) s).

Lemma program_inv : ∃ m, all_inv alloc count cf Qs lax F s m.
Proof. eapply all_reachable; [done|]. by eapply bench_reachable_eq. Qed.

Lemma program_safe : no_crash s.
Proof. destruct program_inv as [m Hi]. apply (al_full _ _ _ _ _ _ _ _ Hi). Qed.

(** At exit the end of job barrier is behind. *)
Lemma program_late m :
  all_inv alloc count cf Qs lax F s m → stages cf + 5 ≤ marr cf m → stages cf + 4 ≤ b_gen s.
Proof.
  intros [Hfi _ _ _ _] Hm. pose proof (fi_ctl _ _ _ _ _ _ _ Hfi) as Hctl.
  pose proof (bar_arr cf s (main_tid cf) (fi_bar _ _ _ _ _ _ _ Hfi)) as Ha.
  rewrite (ci_main _ _ _ _ Hctl) in Ha. simpl in Ha. assert (main_tid cf ∈ threads cf) as Hin; [|specialize (Ha Hin); lia].
  by apply elem_of_threads.
Qed.

Lemma program_exit :
  b_exit s = Some 0 →
  (∀ t : tid, t < np + nc → exited (b_pc s t) = true) ∧ delivered cf s ∧ Z.of_nat (total_received cf s) = mpt * np.
Proof.
  intros He. destruct program_inv as [m Hi]. pose proof Hi as [Hfi Hj _ _ _].
  destruct (fi_exit _ _ _ _ _ _ _ Hfi He) as (ti & tf & ->).
  pose proof (program_late _ Hi ltac:(simpl; lia)) as Hg. split_and!.
  - intros t Ht. by apply Hj.
  - by eapply end_delivered.
  - by eapply end_total.
Qed.

Lemma program_freed : alloc = false → b_exit s = Some 0 → b_heap s = ∅.
Proof.
  intros Ha He. destruct (program_exit He) as (Hex & _). destruct program_inv as [m [Hfi _ Hl _ _]].
  apply map_empty. intros n. destruct (b_heap s !! n) eqn:E; [exfalso|done].
  destruct (Hl Ha n) as [t Ht]; [eauto|]. destruct (b_pc s t) as [|q| | |] eqn:Hp; simpl in Ht; try (by apply elem_of_nil in Ht).
  destruct (ctl_prod alloc cf s m t q (fi_ctl _ _ _ _ _ _ _ Hfi) Hp) as [Hlt _].
  destruct (sc_valid _ _ _ Hsafe). specialize (Hex t ltac:(lia)). rewrite Hp in Hex.
  destruct q; try done. by apply elem_of_nil in Ht.
Qed.

Lemma program_leak n w : alloc = true → b_exit s = Some 0 → b_heap s !! n = Some w → wn_data w = 0.
Proof.
  intros Ha He Hn. destruct program_inv as [m Hi]. pose proof Hi as [Hfi _ _ _ _].
  destruct (fi_exit _ _ _ _ _ _ _ Hfi He) as (ti & tf & ->).
  destruct (fi_end _ _ _ _ _ _ _ Hfi (program_late _ Hi ltac:(simpl; lia))) as [blk [_ _ _ _ _ E6]]. eauto.
Qed.

(** The clock is read before the first message and after the last. *)
Lemma program_before :
  b_pc s (main_tid cf) = Main MTi → (∀ k, @q_init _ _ (Qs k) (b_q s k)) ∧ ∀ t, b_log s t = [].
Proof.
  intros Hp. destruct program_inv as [m [Hfi _ _ He _]]. apply He.
  pose proof (bar_arr cf s (main_tid cf) (fi_bar _ _ _ _ _ _ _ Hfi)) as Ha. rewrite Hp in Ha. simpl in Ha.
  assert (main_tid cf ∈ threads cf) as Hin; [|specialize (Ha Hin); lia]. by apply elem_of_threads.
Qed.

Lemma program_after ti :
  b_pc s (main_tid cf) = Main (MTf ti) → b_wait s (main_tid cf) = None →
  delivered cf s ∧ Z.of_nat (total_received cf s) = mpt * np.
Proof.
  intros Hp Hw. destruct program_inv as [m [Hfi _ _ _ _]].
  assert (main_tid cf ∈ threads cf) as Hin by (by apply elem_of_threads).
  pose proof (bi_run cf s (fi_bar _ _ _ _ _ _ _ Hfi) _ Hin Hw) as Hg. rewrite Hp in Hg. simpl in Hg.
  split; [eapply end_delivered|eapply end_total]; eauto; lia.
Qed.

(** The figures of consumer [k]. *)
Lemma program_tally (k : nat) :
  b_exit s = Some 0 → k < nc →
  ∃ sum calls, b_pc s (consumer_of cf k) = Cons (CExit sum calls) ∧
    ((∀ r, count r = Z.of_nat (length (option_list r))) →
       sum = Z.of_nat (length (received_by cf s k)) + 1 ∧ sum ≤ calls) ∧
    ((∀ r, count r = 1) → sum = calls).
Proof.
  intros He Hk. destruct program_inv as [m Hi]. pose proof Hi as [Hfi Hj _ _ Ht].
  destruct (fi_exit _ _ _ _ _ _ _ Hfi He) as (ti & tf & ->).
  pose proof (program_late _ Hi ltac:(simpl; lia)) as Hg.
  pose proof (consumer_of_range alloc cf ncores Hsafe k Hk) as Hrange.
  destruct (late_threads alloc cf ncores Hsafe s _ (consumer_of cf k) (fi_ctl _ _ _ _ _ _ _ Hfi)
    (fi_bar _ _ _ _ _ _ _ Hfi) (fi_crash _ _ _ _ _ _ _ Hfi) Hg) as [_ (sum & calls & [Hp|Hp])]; [done|..].
  { specialize (Hj (consumer_of cf k) ltac:(simpl; lia)). by rewrite Hp in Hj. }
  exists sum, calls. split; [done|]. specialize (Ht (consumer_of cf k)). rewrite Hp in Ht.
  destruct Ht as [T1 T2]. split; [|done]. intros Hc. destruct (T1 Hc) as [-> Hle]. split; [|done].
  destruct (fi_end _ _ _ _ _ _ _ Hfi Hg) as [blk [_ _ _ _ E5 _]].
  rewrite (ends_stopped_length _ (E5 k Hk)). unfold received_by. lia.
Qed.

(** Every thread has a core of its own. *)
Lemma program_cores (t u : tid) :
  t ≠ main_tid cf → u ≠ main_tid cf → started s t → started s u →
  0 ≤ obj (b_td s t) < np + nc ∧ (obj (b_td s t) = obj (b_td s u) → t = u).
Proof.
  intros Ht Hu Hst Hsu. destruct program_inv as [m [Hfi _ _ _ _]]. pose proof (fi_ctl _ _ _ _ _ _ _ Hfi) as Hctl.
  assert (∀ v : tid, v ≠ main_tid cf → started s v → thread_ok alloc cf v (b_pc s v) (b_td s v)) as Hok.
  { intros v Hv Hs. destruct (decide (created cf m v)) as [Hc|Hc]; [by apply (ci_some _ _ _ _ Hctl)|].
    by destruct Hs; apply (ci_none _ _ _ _ Hctl). }
  destruct (sc_valid _ _ _ Hsafe) as [Hnc _].
  destruct (Hok t Ht Hst) as [(Ht1 & -> & _)|(Ht1 & -> & _)], (Hok u Hu Hsu) as [(Hu1 & -> & _)|(Hu1 & -> & _)];
    simpl; unfold core_prod, core_cons; repeat case_bool_decide; lia.
Qed.
End programs.
