(* ===== verification/BenchRun.v ===== *)
(** * Running the benchmark programs

    A round robin scheduler that picks the environment's answers (addresses,
    random numbers, times) from the state.  Every state it produces is
    reachable; it is used to evaluate whole runs of the programs. *)

From S2P Require Import Prelude Lts QueueSpec Bench.

Local Open Scope Z_scope.

Section drive.
Context {L S : Type} (sys : Lts (tid * label L) (bench S)) (prog : program) (cf : config).
(** Labels to try inside a call: [Some n] pushes [n], [None] pops. *)
Context (qlabels : ptr → list L).

Definition fresh_nodes (n : Z) (h : gmap loc work_node_t) : list (loc * work_node_t) :=
  let top := map_fold (λ k _ m, Pos.max k m) 1%positive h in
  (λ i, (top + Pos.of_succ_nat i, WorkNode 7 9))%positive <$> seq 0 (Z.to_nat n).

Definition labels_for (s : bench S) (t : tid) : list (label L) :=
  match b_wait s t with
  | Some _ => [LRun]
  | None =>
      match thread_act prog cf (b_td s t) (b_pc s t) with
      | Some (AMalloc n _) => [LMem (fresh_nodes n (b_heap s))]
      | Some (AUrandom _) => [LRandom (3 + 5 * Z.of_nat t)]
      | Some (ATime _) => [LTime 1000]
      | Some (ACreate _ _ _ _) => [LCreate 0]
      | Some (AEnqueue _ n _) => LRun :: (LQueue <$> qlabels n)
      | Some (ADequeue _ _) => LRun :: (LQueue <$> qlabels None)
      | _ => [LRun]
      end
  end.

Fixpoint first_step (t : tid) (ls : list (label L)) (s : bench S) : option (bench S) :=
  match ls with
  | [] => None
  | l :: ls =>
      match lts_step (t, l) s with
      | Some s' => Some s'
      | None => first_step t ls s
      end
  end.

(** One step of each thread in turn, [rounds] times. *)
Fixpoint drive (rounds : nat) (s : bench S) : bench S :=
  match rounds with
  | O => s
  | Datatypes.S rounds =>
      drive rounds (foldl (λ s t, default s (first_step t (labels_for s t) s)) s
        (seq 0 (Datatypes.S (main_tid cf))))
  end.

(** The initial state with the given queues. *)
Definition start (q : nat → S) : bench S :=
  Bench S q (<[main_tid cf := Main (MProd 0 1)]> (λ _, NotStarted)) (λ _, ThreadData 0 0 0 0 0 0 0 0) ∅ 0 None
    0 0 (λ _, None) (λ _, []) None.

Lemma first_step_reachable t ls s s' : reachable s → first_step t ls s = Some s' → reachable s'.
Proof.
  intros Hr. induction ls as [|l ls IH]; simpl; [done|]. destruct (lts_step (t, l) s) as [s1|] eqn:E; [|done].
  intros ?. simplify_eq. by apply (reachable_step (t, l) s).
Qed.

Lemma drive_reachable rounds s : reachable s → reachable (drive rounds s).
Proof.
  revert s. induction rounds as [|rounds IH]; intros s Hr; cbn [drive]; [done|]. apply IH.
  generalize (seq 0 (Datatypes.S (main_tid cf))). intros ts. revert s Hr.
  induction ts as [|t ts IHt]; intros s Hr; simpl; [done|]. apply IHt.
  destruct (first_step t (labels_for s t) s) as [s'|] eqn:E; simpl; [|done]. by eapply first_step_reachable.
Qed.

Lemma start_init (Qs : nat → Queue L S) q : (∀ k, @q_init _ _ (Qs k) (q k)) → b_init Qs cf (start q).
Proof. intros Hq. by exists q, (λ _, ThreadData 0 0 0 0 0 0 0 0). Qed.
End drive.
