(* ===== verification/BenchSim.v ===== *)
(** * Changing the queues of a benchmark program

    What the threads of a benchmark do depends on the queues only through the
    results of the calls.  If each step of a queue can be matched by a step of
    another queue, then each step of the program can be matched by a step of the program
    with the other queues. *)

From S2P Require Import Prelude Lts QueueSpec Bench.

Local Open Scope Z_scope.

(** The same state with other queues. *)
Definition put_q {S S'} (Q : nat → S') (s : bench S) : bench S' :=
  Bench S' Q (b_pc s) (b_td s) (b_heap s) (b_done s) (b_mutex s)
    (b_arrived s) (b_gen s) (b_wait s) (b_log s) (b_exit s).

(** The queue a thread works on. *)
Definition queue_of {S} (prog : program) (cf : config) (s : bench S) (t : tid) : option nat :=
  match thread_act prog cf (b_td s t) (b_pc s t) with
  | Some (AEnqueue q _ _) | Some (ADequeue q _) => Some (Z.to_nat q)
  | _ => None
  end.

Section sim.
Context {L S L' S' : Type} (Qs : nat → Queue L S) (Qs' : nat → Queue L' S').
Context (prog : program) (cf : config) (ncores : Z).
Context (R : nat → S → S' → Prop) (s : bench S) (t : tid) (Q : nat → S').

Local Notation status k q := (@q_status _ _ (Qs k) q t).
Local Notation status' k q := (@q_status _ _ (Qs' k) q t).

Hypothesis same_status : ∀ k, status' k (Q k) = status k (b_q s k).
Hypothesis sim_step : ∀ k l q',
  queue_of prog cf s t = Some k → @q_step _ _ (Qs k) t l (b_q s k) = Some q' →
  ∃ l' p', @q_step _ _ (Qs' k) t l' (Q k) = Some p' ∧ status' k p' = status k q' ∧ R k q' p'.

Definition moved (lab' : label L') (s' : bench S) : Prop :=
  b_step Qs' prog cf ncores t lab' (put_q Q s) = Some (put_q Q s') ∧ b_q s' = b_q s ∨
  ∃ k l q' p', queue_of prog cf s t = Some k ∧ @q_step _ _ (Qs k) t l (b_q s k) = Some q' ∧ R k q' p' ∧
    b_q s' = <[k := q']> (b_q s) ∧ b_step Qs' prog cf ncores t lab' (put_q Q s) = Some (put_q (<[k := p']> Q) s').

(** A label of the environment, or of one of the other queues. *)
Definition other_label (lab : label L) : option (label L') :=
  match lab with
  | LRun => Some LRun
  | LMem ns => Some (LMem ns)
  | LRandom z => Some (LRandom z)
  | LTime z => Some (LTime z)
  | LCreate r => Some (LCreate r)
  | LQueue _ => None
  end.

Lemma act_sim_env lab lab' a s' :
  other_label lab = Some lab' → act_step Qs cf ncores t lab a s = Some s' →
  act_step Qs' cf ncores t lab' a (put_q Q s) = Some (put_q Q s') ∧ b_q s' = b_q s.
Proof using Type.
  intros Hlab Hs. destruct lab; simplify_eq/=; destruct a; simplify_eq/=; unfold barrier_arrive in *; simpl in *;
    repeat case_match; by simplify_eq/=.
Qed.

Lemma enqueue_sim l q n k s' :
  queue_of prog cf s t = Some (Z.to_nat q) → enqueue_step Qs t l q n k s = Some s' →
  ∃ l' q' p', @q_step _ _ (Qs (Z.to_nat q)) t l (b_q s (Z.to_nat q)) = Some q' ∧ R (Z.to_nat q) q' p' ∧
    b_q s' = <[Z.to_nat q := q']> (b_q s) ∧
    enqueue_step Qs' t l' q n k (put_q Q s) = Some (put_q (<[Z.to_nat q := p']> Q) s').
Proof using same_status sim_step.
  intros Hk Hs. unfold enqueue_step in *. destruct (q_step t l (b_q s (Z.to_nat q))) as [q'|] eqn:Hq; [|done].
  destruct (sim_step _ _ _ Hk Hq) as (l' & p' & Hp & Hst & HR). exists l', q', p'. simpl. rewrite Hp, Hst, same_status.
  repeat case_match; by simplify_eq/=.
Qed.

Lemma dequeue_sim l q k s' :
  queue_of prog cf s t = Some (Z.to_nat q) → dequeue_step Qs t l q k s = Some s' →
  ∃ l' q' p', @q_step _ _ (Qs (Z.to_nat q)) t l (b_q s (Z.to_nat q)) = Some q' ∧ R (Z.to_nat q) q' p' ∧
    b_q s' = <[Z.to_nat q := q']> (b_q s) ∧
    dequeue_step Qs' t l' q k (put_q Q s) = Some (put_q (<[Z.to_nat q := p']> Q) s').
Proof using same_status sim_step.
  intros Hk Hs. unfold dequeue_step in *. destruct (q_step t l (b_q s (Z.to_nat q))) as [q'|] eqn:Hq; [|done].
  destruct (sim_step _ _ _ Hk Hq) as (l' & p' & Hp & Hst & HR). exists l', q', p'. simpl. rewrite Hp, Hst, same_status.
  repeat case_match; by simplify_eq/=.
Qed.

Lemma bench_sim lab s' : b_step Qs prog cf ncores t lab s = Some s' → ∃ lab', moved lab' s'.
Proof using same_status sim_step.
  intros Hs. unfold moved, b_step in *. simpl. destruct (b_exit s); [done|].
  destruct (b_wait s t) as [g|].
  { destruct lab; try done. case_bool_decide; [|done]. simplify_eq/=. exists LRun. by left. }
  destruct (thread_act prog cf (b_td s t) (b_pc s t)) as [a|] eqn:Ha; [|done].
  destruct (other_label lab) as [lab'|] eqn:Hlab; [exists lab'; left; by eapply act_sim_env|].
  destruct lab as [| | | | |l]; try done.
  destruct a as [| | | | | | | | | | | | |q n k|q k| | | |]; simplify_eq/=; [destruct n as [n|]; [|done]|]; destruct (queue_ok cf q) eqn:Hok; try done.
  - assert (queue_of prog cf s t = Some (Z.to_nat q)) as Hk by (unfold queue_of; by rewrite Ha).
    destruct (enqueue_sim l q n k s' Hk Hs) as (l' & q' & p' & Hq & HR & Hb & Hp).
    exists (LQueue l'). right. by exists (Z.to_nat q), l, q', p'.
  - assert (queue_of prog cf s t = Some (Z.to_nat q)) as Hk by (unfold queue_of; by rewrite Ha).
    destruct (dequeue_sim l q k s' Hk Hs) as (l' & q' & p' & Hq & HR & Hb & Hp).
    exists (LQueue l'). right. by exists (Z.to_nat q), l, q', p'.
Qed.
End sim.
