(* ===== verification/SharedLocks.v ===== *)
(** * Benchmarks whose locks share variables

    [src/lockrate.c] has one lock for each queue.  The locks are independent of each other except
    with [TIDEX_NPS_LOCK]: all of them use one [globalThreadIndex] and one
    [tlThreadIndex] for each thread.  This file composes queues whose locks share
    variables into a benchmark, and shows that every state of the benchmark is, up to the
    state of the locks, a state of the benchmark with locks [nps_open_mutex] that
    share nothing. *)

From S2P Require Import Prelude Lts Mutex Nodes TidexMutex NpsOpen QueueSpec LockQueue Bench BenchSim.

(** ** Composition *)

(** The variables that the lock of [to] shares with the lock of [from] are as [from] has them. *)
Definition lq_share {S} (share : S → S → S) (from to : @lq_state S) : @lq_state S :=
  LqState (share (lq_lock from) (lq_lock to)) (lq_q to) (lq_next to) (lq_inuse to) (lq_pcs to).

(** What a step on queue [k] has done to the shared variables holds for all locks. *)
Definition share_all {S} (share : S → S → S) (k : nat) (s : bench (@lq_state S)) : bench (@lq_state S) :=
  put_q (λ j, lq_share share (b_q s k) (b_q s j)) s.

Section shared.
Context {L S : Type} (M : Mutex L S) (share : option (S → S → S)).
Context (prog : program) (cf : config) (ncores : Z).

Definition shared_step (t : tid) (lab : label (lq_label L)) (s : bench (@lq_state S)) : option (bench (@lq_state S)) :=
  s' ← b_step (λ _, lock_queue M) prog cf ncores t lab s;
  Some (match share, queue_of prog cf s t with
        | Some share, Some k => share_all share k s'
        | _, _ => s'
        end).

Definition shared_lts : Lts (tid * label (lq_label L)) (bench (@lq_state S)) := {|
  lts_init := b_init (λ _, lock_queue M) cf;
  lts_step := λ '(t, lab) s, shared_step t lab s;
|}.
End shared.

(** Locks that share nothing. *)
Lemma unshared_reachable {L S} (M : Mutex L S) prog cf ncores s :
  reachable (sys := shared_lts M None prog cf ncores) s ↔ reachable (sys := bench_lts (λ _, lock_queue M) prog cf ncores) s.
Proof.
  split; induction 1 as [s Hi|[t lab] s s' _ IH Hs]; try by apply (reachable_init (sys := _)).
  - apply (reachable_step (sys := bench_lts _ prog cf ncores) (t, lab) s); [done|]. simpl in *. unfold shared_step in Hs.
    destruct (b_step _ prog cf ncores t lab s); by simplify_eq/=.
  - apply (reachable_step (sys := shared_lts M None prog cf ncores) (t, lab) s); [done|]. simpl in *. unfold shared_step. by rewrite Hs.
Qed.

(** ** The indices of [TIDEX_NPS_LOCK] *)

Section nps.
Context (n : nat).
Hypothesis n_small : (n < 2 ^ 63 - 1)%Z.

(** Indices once drawn are kept. *)
Lemma nps_step_tl t q q' u : nps_step n t q = Some q' → np_tl q u ≠ INVALID_TID → np_tl q' u = np_tl q u.
Proof.
  intros [_ Hs]%nps_step_inv Hu. case_decide; [|by destruct Hs as (m & pc & tl & _ & -> & ->)].
  unfold nps_index in Hs. case_bool_decide; subst q'; simpl; same_tid t u; done.
Qed.

Lemma nps_step_ids t q q' l : nps_ids n q l → nps_step n t q = Some q' → ∃ l', nps_ids n q' l'.
Proof using n_small.
  intros Hids [Ht Hs]%nps_step_inv. case_decide as Hpc.
  - pose proof (nps_ids_draw n n_small q l t Hids Ht Hpc) as Hd. destruct (nps_index _ _) as [g tl]. subst q'. by destruct Hd.
  - destruct Hs as (m & pc & tl & _ & -> & Htl). exists l. by apply nps_ids_shared.
Qed.

(** A lock that shares the index variables, and the same lock on its own. *)
Record lock_rel (q p : nps_state) : Prop := {
  lr_mutex : np_mutex p = np_mutex q;
  lr_pc : np_pc p = np_pc q;
  lr_tl u : np_tl p u = np_tl q u ∨ np_tl p u = INVALID_TID ∧ np_pc p u = TxIdle;
}.

Lemma lock_rel_step t q p q' l :
  lock_rel q p → nps_ids n q l → nps_step n t q = Some q' →
  ∃ i p', nps_open_step n t i p = Some p' ∧ lock_rel q' p'.
Proof using n_small.
  intros [Hm Hpc Htl] Hids Hs. pose proof Hs as [Ht Hs']%nps_step_inv. case_decide as Hidle.
  - pose proof (nps_ids_draw n n_small q l t Hids Ht Hidle) as Hd. unfold nps_index in *.
    set (i := if bool_decide (np_tl q t = INVALID_TID) then np_global q else np_tl q t).
    assert ((0 < i)%Z ∧ ids_distinct (<[t := i]> (np_tl q)) ∧
      q' = NpsState (np_mutex q) (np_global q') (<[t := i]> (np_tl q)) (<[t := TxLoad i]> (np_pc q))) as (Hi & Hdis & Hq').
    { unfold i. case_bool_decide; destruct Hd as [? [l' [_ _ _ _ _ ?]]]; subst q'; done. }
    exists (Some i). unfold nps_open_step. rewrite Hpc, Hidle, decide_True.
    + eexists. split; [done|]. rewrite Hq'. split; simpl; [done|done|].
      intros u. rewrite Hpc in Htl. same_tid t u; [by left|apply Htl].
    + split_and!; [done|done| |].
      * destruct (Htl t) as [->|[-> _]]; [|by left]. unfold i. case_bool_decide; auto.
      * apply Forall_forall. intros u _ Hut Heq. assert (np_tl q u = i) as Hqu.
        { destruct (Htl u) as [Hu|[Hu _]]; [congruence|]. rewrite Hu in Heq. unfold INVALID_TID in Heq. lia. }
        apply Hut. symmetry. apply Hdis; simpl_fn; done.
  - destruct Hs' as (m & pc & tl & Hsh & -> & Htl'). destruct (nps_step_shared n t p m pc) as (tl' & Hp & Htlp); [done|congruence|].
    exists None. unfold nps_open_step. rewrite Hp. eexists. split; [rewrite Hpc; by destruct (np_pc q t)|].
    split; simpl; [done|congruence|]. intros u. rewrite Htl', Htlp. destruct (Htl u) as [->|[-> Hu]]; [by left|right].
    split; [done|]. same_tid t u; congruence.
Qed.

Record queue_rel (q p : @lq_state nps_state) : Prop := {
  qr_q : lq_q p = lq_q q;
  qr_next : lq_next p = lq_next q;
  qr_inuse : lq_inuse p = lq_inuse q;
  qr_pcs : lq_pcs p = lq_pcs q;
  qr_lock : lock_rel (lq_lock q) (lq_lock p);
}.

Local Abbreviation closed := (tidex_nps_mutex n).
Local Abbreviation opened := (nps_open_mutex n).

Definition lock_moves (t : tid) (q q' : @lq_state nps_state) : Prop :=
  lq_lock q' = lq_lock q ∨ nps_step n t (lq_lock q) = Some (lq_lock q').

Lemma lock_call_sim t l q p q' ids stop pc next inuse :
  queue_rel q p → nps_ids n (lq_lock q) ids → lq_lock_step closed t l q stop pc next inuse = Some q' →
  ∃ i p', lq_lock_step opened t i p stop pc next inuse = Some p' ∧ queue_rel q' p' ∧ lock_moves t q q'.
Proof using n_small.
  intros [Hq Hnx Hu Hp Hl] Hids Hs. unfold lq_lock_step in *. destruct (mtx_step t l (lq_lock q)) as [k|] eqn:Hk; [|done].
  destruct (lock_rel_step t _ _ k ids Hl Hids Hk) as (i & k' & Hk' & Hl'). exists i. simpl in *. rewrite Hk', (lr_pc _ _ Hl').
  case_decide; simplify_eq/=; (eexists; split; [done|]); (split; [split; simpl; congruence || done|by right]).
Qed.

Lemma queue_rel_step t l q p q' ids :
  queue_rel q p → nps_ids n (lq_lock q) ids → lq_step closed t l q = Some q' →
  ∃ l' p', lq_step opened t l' p = Some p' ∧ queue_rel q' p' ∧ lock_moves t q q'.
Proof using n_small.
  intros Hrel Hids Hs. pose proof Hrel as [Hq Hnx Hu Hp Hl]. unfold lq_step in Hs.
  assert (∀ stop pc next inuse, (∀ i, lq_step opened t (LqRun i) p = lq_lock_step opened t i p stop pc next inuse) →
    ∀ l, lq_lock_step closed t l q stop pc next inuse = Some q' →
    ∃ l' p', lq_step opened t l' p = Some p' ∧ queue_rel q' p' ∧ lock_moves t q q') as Hcall.
  { intros stop pc next inuse Heq l0 H0. destruct (lock_call_sim t l0 q p q' ids stop pc next inuse Hrel Hids H0) as (i & p' & Hp' & ?).
    exists (LqRun i), p'. by rewrite Heq. }
  assert (∀ l' q1 nx inuse pc, q' = LqState (lq_lock q) q1 nx inuse (<[t := pc]> (lq_pcs q)) →
    lq_step opened t l' p = Some (LqState (lq_lock p) q1 nx inuse (<[t := pc]> (lq_pcs p))) →
    ∃ l' p', lq_step opened t l' p = Some p' ∧ queue_rel q' p' ∧ lock_moves t q q') as Hbody.
  { intros l' q1 nx inuse pc -> Hstep. exists l'. eexists. split; [exact Hstep|]. split; [split; simpl; congruence || done|by left]. }
  destruct (lq_pcs q t) eqn:Hpc; destruct l as [x| |l0]; try done;
    try (eapply Hcall; [|exact Hs]; intros i; unfold lq_step; by rewrite ?Hp, ?Hpc, ?Hu).
  1: { case_decide as Hx; simplify_eq/=. apply (Hbody (LqCallPush x) (lq_q q) (lq_next q) ({[x]} ∪ lq_inuse q) (LqPushLock x)); [done|].
    unfold lq_step. rewrite Hp, Hpc, Hu, decide_False by done. by rewrite Hq, Hnx. }
  1: { simplify_eq/=. apply (Hbody LqCallPop (lq_q q) (lq_next q) (lq_inuse q) LqPopLock); [done|].
    unfold lq_step. by rewrite Hp, Hpc, Hu, Hq, Hnx. }
  all: match type of Hs with match ?e with _ => _ end = _ => destruct e as [[[q1 nx] pc]|] eqn:He; [|done] end; injection Hs as <-;
    apply (Hbody (LqRun None) q1 nx (lq_inuse q) pc); [done|]; unfold lq_step; by rewrite Hp, Hpc, Hq, Hnx, Hu, He.
Qed.

(** ** The benchmark *)

Context (prog : program) (cf : config) (ncores : Z).
Local Abbreviation lock k s := (lq_lock (b_q s k)).

Definition share_inv (s : bench (@lq_state nps_state)) (Q : nat → @lq_state nps_state) : Prop :=
  ∃ ids, (∀ k, nps_ids n (lock k s) ids) ∧ (∀ j k u, np_tl (lock j s) u = np_tl (lock k s) u) ∧
    ∀ k, queue_rel (b_q s k) (Q k).

Lemma nps_ids_in q ids u : nps_ids n q ids → u ∈ ids ↔ np_tl q u ≠ INVALID_TID.
Proof.
  intros Hids. split; [intros Hu Heq; pose proof (ni_some n q ids Hids u Hu); unfold INVALID_TID in *; lia|].
  intros Hu. destruct (decide (u ∈ ids)) as [|Hn]; [done|]. by destruct (ni_none n q ids Hids u Hn).
Qed.

(** The other locks follow the one on which a thread has taken a step. *)
Lemma lock_rel_share q1 q p ids ids1 :
  nps_ids n q1 ids1 → nps_ids n q ids → (∀ u, np_tl q u ≠ INVALID_TID → np_tl q1 u = np_tl q u) → lock_rel q p →
  nps_ids n (nps_share q1 q) ids1 ∧ lock_rel (nps_share q1 q) p.
Proof.
  intros H1 Hq Hkeep [Hm Hpc Htl]. split.
  - destruct H1 as [Hnd Hb Hg Hnone Hsome Hd]. split; simpl; try done. intros u Hu. split; [by apply Hnone|].
    apply (ni_none n q ids Hq). rewrite (nps_ids_in q ids u Hq). intros Hne. apply Hne, dec_stable. intros Hne'.
    destruct (Hnone u Hu) as [H0 _]. rewrite Hkeep in H0; done.
  - split; simpl; [done..|]. intros u. destruct (Htl u) as [Hu|?]; [|by right].
    destruct (decide (np_tl q u = INVALID_TID)) as [H0|Hne]; [|left; rewrite Hkeep by done; done]. right. split; [congruence|].
    rewrite Hpc. apply (ni_none n q ids Hq). rewrite (nps_ids_in q ids u Hq). congruence.
Qed.

(** A step on queue [k], after which the variables are shared. *)
Lemma share_inv_step s s' Q t k q' p' :
  share_inv s Q → lock_moves t (b_q s k) q' → queue_rel q' p' → (∀ j, b_q s' j = (<[k := q']> (b_q s)) j) →
  share_inv (share_all nps_share k s') (<[k := p']> Q).
Proof using n_small.
  intros (ids & Hids & Hsame & HQ) Hmv Hrel Hq.
  assert (∃ ids1, nps_ids n (lq_lock q') ids1) as [ids1 H1].
  { destruct Hmv as [->|Hs]; [exists ids; apply Hids|]. by eapply nps_step_ids. }
  assert (∀ u, np_tl (lock k s) u ≠ INVALID_TID → np_tl (lq_lock q') u = np_tl (lock k s) u) as Hkeep.
  { intros u Hu. destruct Hmv as [->|Hs]; [done|]. by eapply nps_step_tl. }
  assert (∀ j, nps_ids n (lock j (share_all nps_share k s')) ids1 ∧ queue_rel (b_q (share_all nps_share k s') j) (<[k := p']> Q j)) as Hall.
  { intros j. simpl. rewrite !Hq, fn_lookup_insert. destruct (decide (j = k)) as [->|Hj].
    - rewrite !fn_lookup_insert. destruct (lock_rel_share (lq_lock q') (lq_lock q') (lq_lock p') ids1 ids1) as [Hi Hl]; [done..|apply Hrel|].
      split; [done|]. destruct Hrel. by split.
    - rewrite !fn_lookup_insert_ne by done.
      destruct (lock_rel_share (lq_lock q') (lock j s) (lq_lock (Q j)) ids ids1) as [Hi Hl]; [done|apply Hids| |apply HQ|].
      + intros u. rewrite (Hsame j k). apply Hkeep.
      + split; [done|]. destruct (HQ j). by split. }
  exists ids1. split_and!; [apply Hall| |apply Hall]. done.
Qed.

Local Abbreviation shared := (shared_lts closed (Some nps_share) prog cf ncores).
Local Abbreviation apart := (bench_lts (λ _, lock_queue opened) prog cf ncores).

Lemma nps_shared_init s : b_init (λ _, lock_queue closed) cf s → ∃ Q, reachable (sys := apart) (put_q Q s) ∧ share_inv s Q.
Proof.
  intros (q & td0 & Hq & ->). exists q. split.
  - apply (reachable_init (sys := apart)). exists q, td0. split; [|done]. intros k. apply Hq.
  - assert (∀ k, lq_lock (q k) = nps_start) as Hl by (intros k; apply Hq). exists []. split_and!; simpl.
    + intros k. rewrite Hl. split; try done; [constructor|set_solver].
    + intros j k u. by rewrite !Hl.
    + intros k. split; try done. split; auto.
Qed.

(** Every state of the benchmark in which the locks share the variables is one in which each lock is on its own. *)
Lemma nps_shared_reachable s : reachable (sys := shared) s → ∃ Q, reachable (sys := apart) (put_q Q s) ∧ share_inv s Q.
Proof using n_small.
  induction 1 as [s Hi|[t lab] s s1 _ (Q & Hr & Hinv) Hs]; [by apply nps_shared_init|].
  simpl in Hs. unfold shared_step in Hs. destruct (b_step _ prog cf ncores t lab s) as [s'|] eqn:Hb; [|done]. simpl in Hs.
  pose proof Hinv as (ids & Hids & Hsame & HQ).
  destruct (bench_sim (λ _, lock_queue closed) (λ _, lock_queue opened) prog cf ncores
    (λ k q' p', queue_rel q' p' ∧ lock_moves t (b_q s k) q') s t Q) with (lab := lab) (s' := s') as (lab' & Hmoved).
  { intros k. simpl. by rewrite (qr_pcs _ _ (HQ k)). }
  { intros k l q' _ Hstep. destruct (queue_rel_step t l _ _ q' ids (HQ k) (Hids k) Hstep) as (l' & p' & Hp & Hrel & Hmv).
    exists l', p'. split_and!; [done| |done..]. simpl. by rewrite (qr_pcs _ _ Hrel). }
  { done. }
  destruct Hmoved as [[Hstep Hq]|(k & l & q' & p' & Hk & _ & [Hrel Hmv] & Hq & Hstep)].
  - exists Q. assert (reachable (sys := apart) (put_q Q s')) as Hr' by (by apply (reachable_step (sys := apart) (t, lab') (put_q Q s))).
    destruct (queue_of prog cf s t) as [k|]; simplify_eq; (split; [done|]).
    + assert (share_inv (share_all nps_share k s') (<[k := Q k]> Q)) as (ids' & H1 & H2 & H3).
      { apply (share_inv_step s s' Q t k (b_q s k)); [done|by left|apply HQ|].
        intros j. rewrite Hq. destruct (decide (j = k)) as [->|]; by simpl_fn. }
      exists ids'. split_and!; [done..|]. intros j. specialize (H3 j). destruct (decide (j = k)) as [->|]; by simpl_fn.
    + exists ids. by rewrite Hq.
  - exists (<[k := p']> Q). rewrite Hk in Hs. simplify_eq. split.
    + by apply (reachable_step (sys := apart) (t, lab') (put_q Q s)).
    + eapply share_inv_step; [done..|]. intros j. by rewrite Hq.
Qed.
End nps.
