(* ===== verification/Qrate.v ===== *)
(** * [src/qrate.cc]: the queue benchmark

    The producer, the consumer and [main] of [qrate.cc], as functions from the
    point a thread has reached to its next effect. *)

From S2P Require Import Prelude Lts QueueSpec Nodes CloudiusQueue.
From S2P Require Import Bench BenchSpec BenchCtl BenchFlow BenchSafe BenchThm BenchRun.

Local Open Scope Z_scope.

Module Qrate.

(** ** The options *)

(** The [while] over [getopt(argc, argv, "rp:c:m:")] and the test that follows. *)
Fixpoint options (opts : list (ascii * string)) (cf : config) : options_result :=
  match opts with
  | (c, optarg) :: opts =>
      if bool_decide (c = "r"%char) then options opts (set_randomize 1 cf)
      else if bool_decide (c = "p"%char) then options opts (set_nproducers (atoi optarg) cf)
      else if bool_decide (c = "c"%char) then options opts (set_nconsumers (atoi optarg) cf)
      else if bool_decide (c = "m"%char) then options opts (set_nmessages (atoi optarg) cf)
      else if bool_decide (c = "?"%char) then Returned 1
      else Aborted
  | [] =>
      if bool_decide (cf_nproducers cf < 1 ∨ cf_nconsumers cf < 1 ∨ cf_nproducers cf < cf_nconsumers cf ∨
                      cf_nmessages cf < cf_nconsumers cf)
      then Returned 1 else Parsed cf
  end.

Definition parse (opts : list (ascii * string)) : options_result := options opts (Config 0 0 0 0 0).

(** ** The threads *)

Definition do_produce (tdata : thread_data_t) (p : prod_pc) : act prod_pc :=
  let me := index tdata in
  match p with
  | PStage i =>
      if bool_decide (i < nconsumers tdata + nproducers tdata + PRINT_BATCH)
      then ABarrier (PStage (i + PRINT_BATCH))
      else AGoto PMalloc
  | PMalloc =>
      AMalloc (messages_per_thread tdata) (λ nodes,
        PPerm 0 (PLocals (me `mod` nconsumers tdata) (seqZ 0 (nconsumers tdata)) nodes None))
  | PPerm i l =>
      if bool_decide (i < nconsumers tdata) then
        AUrandom (λ r,
          let index := r `mod` nconsumers tdata in
          PPerm (i + 1) (PLocals (pl_q l) (swap (pl_permute l) i index) (pl_nodes l) (pl_tmp l)))
      else AGoto (PInit (messages_per_thread tdata - 1) l)
  | PInit i l =>
      if bool_decide (0 ≤ i)
      then AStore (node_at (pl_nodes l) i) (λ _, WorkNode me (1 + i)) (PInit (i - 1) l)
      else AGoto (PBar1 l)
  | PBar1 l => ABarrier (PBar2 l)
  | PBar2 l => ABarrier (PBar3 l)
  | PBar3 l => ABarrier (PLoop (messages_per_thread tdata - 1) l)
  | PLoop i l =>
      if bool_decide (0 ≤ i) then
        if bool_decide (randomize tdata ≠ 0) then
          let q := (pl_q l + 1) `mod` nconsumers tdata in
          AGoto (PEnq i (aget (pl_permute l) q) (node_at (pl_nodes l) i)
                   (PLocals q (pl_permute l) (pl_nodes l) (pl_tmp l)))
        else AGoto (PEnq i (pl_q l) (node_at (pl_nodes l) i) l)
      else AGoto (PLock l)
  | PEnq i k n l => AEnqueue k n (PLoop (i - 1) l)
  | PLock l => ALock (PRead l)
  | PRead l => AReadDone (λ v, PWrite (v + 1) l)
  | PWrite v l => AWriteDone v (PUnlock l)
  | PUnlock l => AUnlock (PCheck l)
  | PCheck l => AReadDone (λ v, if bool_decide (v = nproducers tdata) then PTmp l else PEnd1 l)
  | PTmp l =>
      AMalloc (messages_per_thread tdata) (λ nodes_tmp,
        PStop 0 (PLocals (pl_q l) (pl_permute l) (pl_nodes l) (Some nodes_tmp)))
  | PStop i l =>
      if bool_decide (i < nconsumers tdata)
      then AGoto (PStopSet i (pl_tmp l ≫= λ ns, node_at ns i) l)
      else AGoto (PEnd1 l)
  | PStopSet i n l => AStore n (λ w, WorkNode (wn_id w) 0) (PStopEnq i n l)
  | PStopEnq i n l => AEnqueue i n (PStop (i + 1) l)
  | PEnd1 l => ABarrier (PEnd2 l)
  | PEnd2 l => ABarrier (PFreeTmp l)
  | PFreeTmp l =>
      match pl_tmp l with
      | Some nodes_tmp => AFree nodes_tmp 0 (PFree l)
      | None => AGoto (PFree l)
      end
  | PFree l => AFree (pl_nodes l) 0 (PExit l)
  | PExit l => AExit
  (* not in this program *)
  | PSet _ _ _ | PExtra _ _ _ => AExit
  end.

(** [try_dequeue_bulk] of the wrappers in [cloudius_q.h], [vyukov_q.h],
    [boost_q.h] and [tbb_q.h]: at most one node.  ([folly_q.h] has the same function, but its
    [enqueue] drops a node when the bounded queue is full, so that it is no FIFO queue.) *)
Definition try_dequeue_bulk (head : ptr) : list loc :=
  match head with Some n => [n] | None => [] end.

Definition do_consume (tdata : thread_data_t) (c : cons_pc) : act cons_pc :=
  let me := index tdata in
  match c with
  | CStage i =>
      if bool_decide (i < nconsumers tdata + nproducers tdata + PRINT_BATCH)
      then ABarrier (CStage (i + PRINT_BATCH))
      else AGoto CBar1
  | CBar1 => ABarrier CBar2
  | CBar2 => ABarrier CTi
  | CTi => ATime (λ _, CBar3)
  | CBar3 => ABarrier (CWhile false 0 0)
  | CWhile done sum calls =>
      if done then AGoto (CTf sum calls)
      else
        ADequeue me (λ head,
          let node := try_dequeue_bulk head in
          let result := Z.of_nat (length node) in
          if bool_decide (result = 0) then CWhile done (sum + result) (calls + 1)
          else CNodes node done (sum + result) (calls + 1))
  | CNodes [] done sum calls => AGoto (CWhile done sum calls)
  | CNodes (n :: ns) done sum calls =>
      ALoad n (λ w, CNodes ns (if bool_decide (wn_data w = 0) then true else done) sum calls)
  | CTf sum calls => ATime (λ _, CEnd1 sum calls)
  | CEnd1 sum calls => ABarrier (CEnd2 sum calls)
  | CEnd2 sum calls => ABarrier (CExit sum calls)
  | CExit _ _ => AExit
  (* not in this program *)
  | CExtra _ _ _ _ _ | CFree _ _ _ _ _ => AExit
  end.

(** The creation loops, the barriers, the timing and the joins of [main]. *)
Definition main (cf : config) (m : main_pc) : act main_pc :=
  let nproducers := cf_nproducers cf in
  let nconsumers := cf_nconsumers cf in
  let messages_per_thread := cf_nmessages cf `quot` nproducers in
  let total_messages := messages_per_thread * nproducers in
  match m with
  | MProd i j =>
      if bool_decide (i < nproducers) then
        ACreate RProd i
          (ThreadData i j nconsumers nproducers messages_per_thread total_messages (cf_randomize cf) 0)
          (MProd (i + 1) (if bool_decide (i ≤ nconsumers - 2) then j + 2 else j + 1))
      else AGoto (MCons 0 0)
  | MCons i j =>
      if bool_decide (i < nconsumers) then
        ACreate RCons i
          (ThreadData i j nconsumers nproducers messages_per_thread total_messages (cf_randomize cf) 0)
          (MCons (i + 1) (j + 2))
      else AGoto (MStage 0)
  | MStage i =>
      if bool_decide (i < nconsumers + nproducers + PRINT_BATCH)
      then ABarrier (MStage (i + PRINT_BATCH))
      else AGoto MBar1
  | MBar1 => ABarrier MBar2
  | MBar2 => ABarrier MTi
  | MTi => ATime (λ ti, MBar3 ti)
  | MBar3 ti => ABarrier (MEnd1 ti)
  | MEnd1 ti => ABarrier (MTf ti)
  | MTf ti => ATime (λ tf, MEnd2 ti tf)
  | MEnd2 ti tf => ABarrier (MJoinP 0 ti tf)
  | MJoinP i ti tf =>
      if bool_decide (i < nproducers) then AJoin RProd i (MJoinP (i + 1) ti tf)
      else AGoto (MJoinC 0 ti tf)
  | MJoinC i ti tf =>
      if bool_decide (i < nconsumers) then AJoin RCons i (MJoinC (i + 1) ti tf)
      else AGoto (MReturn ti tf)
  | MReturn ti tf => AReturn 0
  end.

Definition qrate : program := Program do_produce do_consume main.

(** ** The program is the common one *)

Definition count (r : ptr) : Z := Z.of_nat (length (option_list r)).

Lemma qrate_eq : program_eq qrate (spec_program false count).
Proof.
  split.
  - intros td p. destruct p; simpl; unfold target, next_q, set_plq; repeat case_bool_decide; simpl; try done.
    + by destruct l.
    + by destruct (pl_tmp l).
  - intros td c. destruct c as [| | | | |[]|[]| | | | | |]; simpl; try done; try (by repeat case_bool_decide).
    split; [done|]. by intros [].
  - intros cf m. destruct m; simpl; repeat case_bool_decide; done.
Qed.

Lemma qrate_options_valid opts cf cf' : options opts cf = Parsed cf' → valid_config cf'.
Proof.
  revert cf. induction opts as [|[c arg] opts IH]; intros cf; simpl.
  - case_bool_decide as H; [done|]. intros ?. simplify_eq. unfold valid_config. lia.
  - repeat case_bool_decide; eauto; done.
Qed.

(** What the program needs beyond what it checks: a core for every thread, and
    room in [nodes_tmp] for one stop node per consumer. *)
Lemma qrate_safe_config opts cf ncores :
  parse opts = Parsed cf → cf_nproducers cf + cf_nconsumers cf ≤ ncores →
  cf_nconsumers cf ≤ cf_nmessages cf `quot` cf_nproducers cf → safe_config false cf ncores.
Proof. intros Hp Hc Ht. split; try done. by eapply qrate_options_valid. Qed.

End Qrate.

(** ** A complete run: two producers, two consumers, eight messages, random
    routing, the queue of [queue-mpsc.h] *)

Definition qrate_example_opts : list (ascii * string) :=
  [("p"%char, "2"); ("c"%char, "2"); ("m"%char, "8"); ("r"%char, "")]%string.
Definition qrate_example_cf : config := Config 2 2 8 1 0.
Definition qrate_example_queues (k : nat) : Queue cq_label cq_state := cloudius_queue (consumer_of qrate_example_cf k).
Definition qrate_example_fifo (k : nat) : @FifoQueue _ _ (qrate_example_queues k) false := cloudius_fifo (consumer_of qrate_example_cf k).
Definition cloudius_start : cq_state := CqState queue_mpsc_new (λ _, None) ∅ (λ _, CqIdle).
Definition cloudius_labels (n : ptr) : list cq_label :=
  [match n with Some n => CqCallPush n | None => CqCallPop end; CqRun false].

(** The state after [rounds] rounds of the scheduler. *)
Definition qrate_example_state (rounds : nat) : bench cq_state :=
  drive (bench_lts qrate_example_queues Qrate.qrate qrate_example_cf 4) Qrate.qrate qrate_example_cf cloudius_labels rounds (start qrate_example_cf (λ _, cloudius_start)).

Lemma qrate_example_reachable rounds :
  reachable (sys := bench_lts qrate_example_queues Qrate.qrate qrate_example_cf 4) (qrate_example_state rounds).
Proof. by apply drive_reachable, reachable_init, start_init. Qed.

(** As many messages as consumers, more than one of them. *)
Definition short_opts : list (ascii * string) := [("p"%char, "2"); ("c"%char, "2"); ("m"%char, "2")]%string.
Definition short_cf : config := Config 2 2 2 0 0.
Definition short_queues (k : nat) : Queue cq_label cq_state := cloudius_queue (consumer_of short_cf k).
Definition short_state : bench cq_state :=
  drive (bench_lts short_queues Qrate.qrate short_cf 4) Qrate.qrate short_cf cloudius_labels 80 (start short_cf (λ _, cloudius_start)).

(** ** Theorems *)

Section theorems.
Context {L S : Type} (Qs : nat → Queue L S) (lax : bool) (F : ∀ k, @FifoQueue L S (Qs k) lax).
Context (opts : list (ascii * string)) (cf : config) (ncores : Z) (s : bench S).

Local Notation np := (cf_nproducers cf).
Local Notation nc := (cf_nconsumers cf).
Local Notation mpt := (cf_nmessages cf `quot` cf_nproducers cf).

(** C1: when [qrate] exits with status 0, every thread has exited and every
    consumer has received, from every producer, exactly the messages that the
    producer has routed to it, in the order in which they were sent; nothing
    else has been received, [total_messages] in all.  The queues are FIFO
    queues, there is a core for every thread and a message for every consumer. *)
Theorem qrate_delivery :
  Qrate.parse opts = Parsed cf → np + nc ≤ ncores → nc ≤ mpt →
  reachable (sys := bench_lts Qs Qrate.qrate cf ncores) s → b_exit s = Some 0 →
  (∀ t : tid, t < np + nc → exited (b_pc s t) = true) ∧ delivered cf s ∧
  Z.of_nat (total_received cf s) = mpt * np.
Proof.
  intros Hp Hc Hm Hr. eapply program_exit; [exact F|by eapply Qrate.qrate_safe_config|exact Qrate.qrate_eq|exact Hr].
Qed.

(** C6: with FIFO queues, a core for every thread and at least as many messages
    per producer as there are consumers, [qrate] never touches memory that it has
    not allocated or has already freed, whatever the interleaving: no thread dereferences a
    bad node, frees twice or indexes past the array of queues. *)
Theorem qrate_memory_safe :
  Qrate.parse opts = Parsed cf → np + nc ≤ ncores → nc ≤ mpt →
  reachable (sys := bench_lts Qs Qrate.qrate cf ncores) s → ∀ t, b_pc s t ≠ Crashed.
Proof.
  intros Hp Hc Hm Hr. eapply program_safe; [exact F|by eapply Qrate.qrate_safe_config|exact Qrate.qrate_eq|exact Hr].
Qed.

(** C24: under the same conditions, when [qrate] exits with status 0 no node is
    left allocated. *)
Theorem qrate_no_leak :
  Qrate.parse opts = Parsed cf → np + nc ≤ ncores → nc ≤ mpt →
  reachable (sys := bench_lts Qs Qrate.qrate cf ncores) s → b_exit s = Some 0 → b_heap s = ∅.
Proof.
  intros Hp Hc Hm Hr. eapply program_freed; [exact F|by eapply Qrate.qrate_safe_config|exact Qrate.qrate_eq|exact Hr|done].
Qed.

(** C25: under the same conditions the time that [main] reports covers the exchange and nothing is
    exchanged outside it: when it reads the clock for [ti] no queue has been
    touched and no message received, and when it reads the clock for [tf]
    every message has been delivered. *)
Theorem qrate_timed_window :
  Qrate.parse opts = Parsed cf → np + nc ≤ ncores → nc ≤ mpt →
  reachable (sys := bench_lts Qs Qrate.qrate cf ncores) s →
  (b_pc s (main_tid cf) = Main MTi → (∀ k, @q_init _ _ (Qs k) (b_q s k)) ∧ ∀ t, b_log s t = []) ∧
  (∀ ti, b_pc s (main_tid cf) = Main (MTf ti) → b_wait s (main_tid cf) = None →
     delivered cf s ∧ Z.of_nat (total_received cf s) = mpt * np).
Proof.
  intros Hp Hc Hm Hr. pose proof (Qrate.qrate_safe_config opts cf ncores Hp Hc Hm) as Hsafe. split.
  - eapply program_before; [exact F|exact Hsafe|exact Qrate.qrate_eq|exact Hr].
  - intros ti. eapply program_after; [exact F|exact Hsafe|exact Qrate.qrate_eq|exact Hr].
Qed.

(** C26: under the same conditions the [sum] a consumer of [qrate] divides by [calls] is the number of
    messages it has received and one for the stop node, and no call of
    [try_dequeue_bulk] yields more than one node. *)
Theorem qrate_consumer_figures (k : nat) :
  Qrate.parse opts = Parsed cf → np + nc ≤ ncores → nc ≤ mpt →
  reachable (sys := bench_lts Qs Qrate.qrate cf ncores) s → b_exit s = Some 0 → k < nc →
  ∃ sum calls, b_pc s (consumer_of cf k) = Cons (CExit sum calls) ∧
    sum = Z.of_nat (length (received_by cf s k)) + 1 ∧ sum ≤ calls.
Proof.
  intros Hp Hc Hm Hr He Hk. pose proof (Qrate.qrate_safe_config opts cf ncores Hp Hc Hm) as Hsafe.
  destruct (program_tally _ _ cf _ Qs lax F ncores Hsafe Qrate.qrate_eq s Hr k He Hk) as (sum & calls & H1 & H2 & _).
  exists sum, calls. split; [done|]. by apply H2.
Qed.

(** C27: threads are bound to different cores, the first [np + nc] of the
    machine. *)
Theorem qrate_cores (t u : tid) :
  Qrate.parse opts = Parsed cf → np + nc ≤ ncores → nc ≤ mpt →
  reachable (sys := bench_lts Qs Qrate.qrate cf ncores) s →
  t ≠ main_tid cf → u ≠ main_tid cf → started s t → started s u →
  0 ≤ obj (b_td s t) < np + nc ∧ (obj (b_td s t) = obj (b_td s u) → t = u).
Proof.
  intros Hp Hc Hm Hr. pose proof (Qrate.qrate_safe_config opts cf ncores Hp Hc Hm) as Hsafe.
  eapply program_cores; [exact F|exact Hsafe|exact Qrate.qrate_eq|exact Hr].
Qed.
End theorems.

(** C28: [main] accepts [-p 2 -c 2 -m 2], and some run of [qrate] then writes
    past the end of [nodes_tmp], which has room for [messages_per_thread] nodes
    and not for one per consumer. *)
Theorem qrate_nodes_tmp_overflow :
  Qrate.parse short_opts = Parsed short_cf ∧
  cf_nmessages short_cf `quot` cf_nproducers short_cf < cf_nconsumers short_cf ∧
  reachable (sys := bench_lts short_queues Qrate.qrate short_cf 4) short_state ∧
  b_pc short_state 1%nat = Crashed.
Proof.
  split_and!; [vm_compute; reflexivity..| |vm_compute; reflexivity].
  by apply drive_reachable, reachable_init, start_init.
Qed.

(** ** Witnesses *)

Lemma qrate_example_fits :
  Qrate.parse qrate_example_opts = Parsed qrate_example_cf ∧ cf_nproducers qrate_example_cf + cf_nconsumers qrate_example_cf ≤ 4 ∧
  cf_nconsumers qrate_example_cf ≤ cf_nmessages qrate_example_cf `quot` cf_nproducers qrate_example_cf.
Proof. split_and!; [vm_compute; reflexivity|vm_compute; congruence..]. Qed.

Lemma qrate_delivery_witness :
  delivered qrate_example_cf (qrate_example_state 120) ∧ total_received qrate_example_cf (qrate_example_state 120) = 8%nat.
Proof.
  destruct qrate_example_fits as (Hp & Hc & Hm).
  destruct (qrate_delivery qrate_example_queues false qrate_example_fifo qrate_example_opts qrate_example_cf 4 (qrate_example_state 120) Hp Hc Hm
    (qrate_example_reachable 120)) as (_ & Hd & _).
  - vm_compute. reflexivity.
  - split; [exact Hd|]. vm_compute. reflexivity.
Defined.

Lemma qrate_memory_safe_witness :
  size (b_heap (qrate_example_state 60)) = 8%nat ∧ b_pc (qrate_example_state 60) 0%nat ≠ Crashed.
Proof.
  destruct qrate_example_fits as (Hp & Hc & Hm). split; [vm_compute; reflexivity|].
  apply (qrate_memory_safe qrate_example_queues false qrate_example_fifo qrate_example_opts qrate_example_cf 4
    (qrate_example_state 60) Hp Hc Hm (qrate_example_reachable 60)).
Defined.

Lemma qrate_no_leak_witness : size (b_heap (qrate_example_state 60)) = 8%nat ∧ b_heap (qrate_example_state 120) = ∅.
Proof.
  destruct qrate_example_fits as (Hp & Hc & Hm). split; [vm_compute; reflexivity|].
  apply (qrate_no_leak qrate_example_queues false qrate_example_fifo qrate_example_opts qrate_example_cf 4 (qrate_example_state 120) Hp Hc Hm
    (qrate_example_reachable 120)).
  vm_compute. reflexivity.
Defined.

Lemma qrate_timed_window_witness :
  (∀ t, b_log (qrate_example_state 25) t = []) ∧ delivered qrate_example_cf (qrate_example_state 86).
Proof.
  destruct qrate_example_fits as (Hp & Hc & Hm). split.
  - destruct (qrate_timed_window qrate_example_queues false qrate_example_fifo qrate_example_opts qrate_example_cf 4 (qrate_example_state 25) Hp Hc Hm
      (qrate_example_reachable 25)) as [Hb _]. apply Hb. vm_compute. reflexivity.
  - destruct (qrate_timed_window qrate_example_queues false qrate_example_fifo qrate_example_opts qrate_example_cf 4 (qrate_example_state 86) Hp Hc Hm
      (qrate_example_reachable 86)) as [_ Ha]. apply (Ha 1000); vm_compute; reflexivity.
Defined.

Lemma qrate_consumer_figures_witness :
  ∃ sum calls, b_pc (qrate_example_state 120) (consumer_of qrate_example_cf 1) = Cons (CExit sum calls) ∧ sum = 5 ∧ sum ≤ calls.
Proof.
  destruct qrate_example_fits as (Hp & Hc & Hm).
  destruct (qrate_consumer_figures qrate_example_queues false qrate_example_fifo qrate_example_opts qrate_example_cf 4 (qrate_example_state 120) 1%nat
    Hp Hc Hm (qrate_example_reachable 120)) as (sum & calls & H1 & H2 & H3).
  - vm_compute. reflexivity.
  - vm_compute. reflexivity.
  - exists sum, calls. split; [exact H1|]. split; [|exact H3]. rewrite H2. vm_compute. reflexivity.
Defined.

Lemma qrate_cores_witness :
  0 ≤ obj (b_td (qrate_example_state 60) 0%nat) < 4 ∧ obj (b_td (qrate_example_state 60) 0%nat) ≠ obj (b_td (qrate_example_state 60) 2%nat).
Proof.
  destruct qrate_example_fits as (Hp & Hc & Hm).
  destruct (qrate_cores qrate_example_queues false qrate_example_fifo qrate_example_opts qrate_example_cf 4 (qrate_example_state 60) 0%nat 2%nat
    Hp Hc Hm (qrate_example_reachable 60)) as [H1 H2]; [done|done|by vm_compute|by vm_compute|].
  split; [exact H1|]. intros Heq. exact (Nat.neq_0_succ 1 (H2 Heq)).
Defined.
