(* ===== verification/Lockrate.v ===== *)
(** * [src/lockrate.c]: the lock benchmark

    The producer, the consumer and [main] of [lockrate.c].  The queues are
    those of [LockQueue], over the lock that [LOCK_METHOD] selects: the theorems
    compose the three layers (lock, queue, program).  With [TIDEX_NPS_LOCK] the
    locks of all queues share the variables that hold the indices of the threads. *)

From S2P Require Import Prelude Lts Mutex TicketMutex TidexMutex NpsOpen QueueSpec LockQueue.
From S2P Require Import Bench BenchSpec BenchCtl BenchFlow BenchSafe BenchThm BenchRun BenchSim SharedLocks.

Local Open Scope Z_scope.

Module Lockrate.

(** ** The options *)

(** The [while] over [getopt(argc, argv, "rp:c:m:")] and the test that follows. *)
Fixpoint options (opts : list (ascii * string)) (cf : config) : options_result :=
  match opts with
  | (c, optarg) :: opts =>
      if bool_decide (c = "r"%char) then options opts (set_randomize 1 cf)
      else if bool_decide (c = "p"%char) then options opts (set_nproducers (atoi optarg) cf)
      else if bool_decide (c = "c"%char) then options opts (set_nconsumers (atoi optarg) cf)
      else if bool_decide (c = "m"%char) then options opts (set_nmessages (atoi optarg) cf)
      else if bool_decide (c = "?"%char) then Returned 1
      else Aborted
  | [] =>
      if bool_decide (cf_nproducers cf < 1 ∨ cf_nconsumers cf < 1 ∨ cf_nproducers cf < cf_nconsumers cf ∨
                      cf_nmessages cf < cf_nconsumers cf)
      then Returned 1 else Parsed cf
  end.

Definition parse (opts : list (ascii * string)) : options_result := options opts (Config 0 0 0 0 0).

(** ** The threads *)

Definition do_produce (tdata : thread_data_t) (p : prod_pc) : act prod_pc :=
  let me := index tdata in
  match p with
  | PStage i =>
      if bool_decide (i < nconsumers tdata + nproducers tdata + PRINT_BATCH)
      then ABarrier (PStage (i + PRINT_BATCH))
      else AGoto PMalloc
  | PMalloc =>
      AMalloc (messages_per_thread tdata) (λ nodes,
        PPerm 0 (PLocals (me `mod` nconsumers tdata) (seqZ 0 (nconsumers tdata)) nodes None))
  | PPerm i l =>
      if bool_decide (i < nconsumers tdata) then
        AUrandom (λ r,
          let index := r `mod` nconsumers tdata in
          PPerm (i + 1) (PLocals (pl_q l) (swap (pl_permute l) i index) (pl_nodes l) (pl_tmp l)))
      else AGoto (PInit (messages_per_thread tdata - 1) l)
  | PInit i l =>
      if bool_decide (0 ≤ i)
      then AStore (node_at (pl_nodes l) i) (λ _, WorkNode me (i + 1)) (PInit (i - 1) l)
      else AGoto (PBar1 l)
  | PBar1 l => ABarrier (PBar2 l)
  | PBar2 l => ABarrier (PBar3 l)
  | PBar3 l => ABarrier (PLoop (messages_per_thread tdata - 1) l)
  | PLoop i l =>
      if bool_decide (0 ≤ i) then
        if bool_decide (randomize tdata ≠ 0) then
          let q := (pl_q l + 1) `mod` nconsumers tdata in
          AGoto (PEnq i (aget (pl_permute l) q) (node_at (pl_nodes l) i)
                   (PLocals q (pl_permute l) (pl_nodes l) (pl_tmp l)))
        else AGoto (PEnq i (pl_q l) (node_at (pl_nodes l) i) l)
      else AGoto (PLock l)
  | PEnq i k n l => AEnqueue k n (PLoop (i - 1) l)
  | PLock l => ALock (PRead l)
  | PRead l => AReadDone (λ v, PWrite (v + 1) l)
  | PWrite v l => AWriteDone v (PUnlock l)
  | PUnlock l => AUnlock (PCheck l)
  | PCheck l => AReadDone (λ v, if bool_decide (v = nproducers tdata) then PTmp l else PEnd1 l)
  | PTmp l =>
      AMalloc (messages_per_thread tdata) (λ nodes_tmp,
        PStop 0 (PLocals (pl_q l) (pl_permute l) (pl_nodes l) (Some nodes_tmp)))
  | PStop i l =>
      if bool_decide (i < nconsumers tdata)
      then AGoto (PStopSet i (pl_tmp l ≫= λ ns, node_at ns i) l)
      else AGoto (PEnd1 l)
  | PStopSet i n l => AStore n (λ w, WorkNode (wn_id w) 0) (PStopEnq i n l)
  | PStopEnq i n l => AEnqueue i n (PStop (i + 1) l)
  | PEnd1 l => ABarrier (PEnd2 l)
  | PEnd2 l => ABarrier (PFreeTmp l)
  | PFreeTmp l =>
      match pl_tmp l with
      | Some nodes_tmp => AFree nodes_tmp 0 (PFree l)
      | None => AGoto (PFree l)
      end
  | PFree l => AFree (pl_nodes l) 0 (PExit l)
  | PExit l => AExit
  (* not in this program *)
  | PSet _ _ _ | PExtra _ _ _ => AExit
  end.

Definition do_consume (tdata : thread_data_t) (c : cons_pc) : act cons_pc :=
  let me := index tdata in
  match c with
  | CStage i =>
      if bool_decide (i < nconsumers tdata + nproducers tdata + PRINT_BATCH)
      then ABarrier (CStage (i + PRINT_BATCH))
      else AGoto CBar1
  | CBar1 => ABarrier CBar2
  | CBar2 => ABarrier CTi
  | CTi => ATime (λ _, CBar3)
  | CBar3 => ABarrier (CWhile false 0 0)
  | CWhile done sum calls =>
      if done then AGoto (CTf sum calls)
      else
        ADequeue me (λ node,
          match node with
          | None => CWhile done (sum + 1) (calls + 1)     (* continue *)
          | Some node => CNodes [node] done (sum + 1) (calls + 1)
          end)
  | CNodes [] done sum calls => AGoto (CWhile done sum calls)
  | CNodes (node :: ns) done sum calls =>
      ALoad node (λ w, CNodes ns (if bool_decide (wn_data w = 0) then true else done) sum calls)
  | CTf sum calls => ATime (λ _, CEnd1 sum calls)
  | CEnd1 sum calls => ABarrier (CEnd2 sum calls)
  | CEnd2 sum calls => ABarrier (CExit sum calls)
  | CExit _ _ => AExit
  (* not in this program *)
  | CExtra _ _ _ _ _ | CFree _ _ _ _ _ => AExit
  end.

(** The creation loops, the barriers, the timing and the joins of [main]. *)
Definition main (cf : config) (m : main_pc) : act main_pc :=
  let nproducers := cf_nproducers cf in
  let nconsumers := cf_nconsumers cf in
  let messages_per_thread := cf_nmessages cf `quot` nproducers in
  let total_messages := messages_per_thread * nproducers in
  match m with
  | MProd i j =>
      if bool_decide (i < nproducers) then
        ACreate RProd i
          (ThreadData i j nconsumers nproducers messages_per_thread total_messages (cf_randomize cf) 0)
          (MProd (i + 1) (if bool_decide (i ≤ nconsumers - 2) then j + 2 else j + 1))
      else AGoto (MCons 0 0)
  | MCons i j =>
      if bool_decide (i < nconsumers) then
        ACreate RCons i
          (ThreadData i j nconsumers nproducers messages_per_thread total_messages (cf_randomize cf) 0)
          (MCons (i + 1) (j + 2))
      else AGoto (MStage 0)
  | MStage i =>
      if bool_decide (i < nconsumers + nproducers + PRINT_BATCH)
      then ABarrier (MStage (i + PRINT_BATCH))
      else AGoto MBar1
  | MBar1 => ABarrier MBar2
  | MBar2 => ABarrier MTi
  | MTi => ATime (λ ti, MBar3 ti)
  | MBar3 ti => ABarrier (MEnd1 ti)
  | MEnd1 ti => ABarrier (MTf ti)
  | MTf ti => ATime (λ tf, MEnd2 ti tf)
  | MEnd2 ti tf => ABarrier (MJoinP 0 ti tf)
  | MJoinP i ti tf =>
      if bool_decide (i < nproducers) then AJoin RProd i (MJoinP (i + 1) ti tf)
      else AGoto (MJoinC 0 ti tf)
  | MJoinC i ti tf =>
      if bool_decide (i < nconsumers) then AJoin RCons i (MJoinC (i + 1) ti tf)
      else AGoto (MReturn ti tf)
  | MReturn ti tf => AReturn 0
  end.

Definition lockrate : program := Program do_produce do_consume main.

(** ** The program with its locks *)

Section system.
Context (pthread_mutex pthread_spinlock : some_mutex) (pthread_self : tid → Z) (LOCK_METHOD : lock_method).
Context (cf : config) (ncores : Z).

(** The [lock_t] that the queues have. *)
Definition queue_lock : some_mutex := lock_t pthread_mutex pthread_spinlock pthread_self (main_tid cf) LOCK_METHOD.

(** What the locks of different queues share: [globalThreadIndex] and [tlThreadIndex]. *)
Definition lock_share : option (sm_state queue_lock → sm_state queue_lock → sm_state queue_lock) :=
  match LOCK_METHOD as m
    return option (sm_state (lock_t pthread_mutex pthread_spinlock pthread_self (main_tid cf) m) →
                   sm_state (lock_t pthread_mutex pthread_spinlock pthread_self (main_tid cf) m) →
                   sm_state (lock_t pthread_mutex pthread_spinlock pthread_self (main_tid cf) m)) with
  | TIDEX_NPS_LOCK => Some nps_share
  | _ => None
  end.

Definition lockrate_lts : Lts (tid * label (lq_label (sm_label queue_lock))) (bench (@lq_state (sm_state queue_lock))) :=
  shared_lts (sm_mutex queue_lock) lock_share lockrate cf ncores.

End system.

(** Up to the state of the locks, a state of the program is one in which the locks share
    nothing. *)
Lemma lockrate_apart pthread_mutex pthread_spinlock pthread_self LOCK_METHOD cf ncores s :
  mutex_laws pthread_mutex → mutex_laws pthread_spinlock →
  (∀ t, 0 < pthread_self t) → ids_distinct pthread_self → main_tid cf < 2 ^ 63 - 1 →
  reachable (sys := lockrate_lts pthread_mutex pthread_spinlock pthread_self LOCK_METHOD cf ncores) s →
  ∃ L' S' (M : Mutex L' S') Q, MutexLaws L' S' ∧ reachable (sys := bench_lts (λ _, lock_queue M) lockrate cf ncores) (put_q Q s).
Proof.
  intros H1 H2 H3 H4 H5 Hr. pose proof (lock_t_laws _ _ _ _ LOCK_METHOD H1 H2 H3 H4 H5) as ML.
  unfold lockrate_lts in Hr. destruct LOCK_METHOD; cbn [lock_share] in Hr;
    try (apply unshared_reachable in Hr; eexists _, _, _, (b_q s); split; [exact ML|by destruct s]).
  destruct (nps_shared_reachable (main_tid cf) H5 lockrate cf ncores s Hr) as (Q & HQ & _).
  exists _, _, (nps_open_mutex (main_tid cf)), Q. split; [apply nps_open_laws|done].
Qed.

(** ** The program is the common one *)

Definition count (r : ptr) : Z := 1.

Lemma lockrate_eq : program_eq lockrate (spec_program false count).
Proof.
  split.
  - intros td p. destruct p; simpl; unfold target, next_q, set_plq; repeat case_bool_decide; simpl; try done.
    + split_and!; try done. intros _. f_equal. lia.
    + by destruct l.
    + by destruct (pl_tmp l).
  - intros td c. destruct c as [| | | | |[]|[]| | | | | |]; simpl; try done; try (by repeat case_bool_decide).
  - intros cf m. destruct m; simpl; repeat case_bool_decide; done.
Qed.

Lemma lockrate_options_valid opts cf cf' : options opts cf = Parsed cf' → valid_config cf'.
Proof.
  revert cf. induction opts as [|[c arg] opts IH]; intros cf; simpl.
  - case_bool_decide as H; [done|]. intros ?. simplify_eq. unfold valid_config. lia.
  - repeat case_bool_decide; eauto; done.
Qed.

Lemma lockrate_safe_config opts cf ncores :
  parse opts = Parsed cf → cf_nproducers cf + cf_nconsumers cf ≤ ncores →
  cf_nconsumers cf ≤ cf_nmessages cf `quot` cf_nproducers cf → safe_config false cf ncores.
Proof. intros Hp Hc Ht. split; try done. by eapply lockrate_options_valid. Qed.

End Lockrate.

(** ** Complete runs: two producers, two consumers, four messages *)

Definition lockrate_example_opts : list (ascii * string) := [("p"%char, "2"); ("c"%char, "2"); ("m"%char, "4")]%string.
Definition lockrate_example_cf : config := Config 2 2 4 0 0.
Definition lockrate_example_labels (n : ptr) : list (lq_label unit) :=
  [match n with Some n => LqCallPush n | None => LqCallPop end; LqRun tt].

(** Queues with a ticket lock. *)
Definition lockrate_example_lts := Lockrate.lockrate_lts ticket3 ticket3 self_example TICKET_LOCK lockrate_example_cf 4.
Definition lockrate_example_state (rounds : nat) : bench (@lq_state ticket_state) :=
  drive lockrate_example_lts Lockrate.lockrate lockrate_example_cf lockrate_example_labels rounds
    (start lockrate_example_cf (λ _, lq_example_start)).

Lemma lockrate_example_reachable rounds : reachable (sys := lockrate_example_lts) (lockrate_example_state rounds).
Proof. by apply drive_reachable, reachable_init, start_init. Qed.

(** Queues with a lock that shares the indices of the threads. *)
Definition lockrate_nps_lts := Lockrate.lockrate_lts ticket3 ticket3 self_example TIDEX_NPS_LOCK lockrate_example_cf 4.
Definition lockrate_nps_state (rounds : nat) : bench (@lq_state nps_state) :=
  drive lockrate_nps_lts Lockrate.lockrate lockrate_example_cf lockrate_example_labels rounds
    (start lockrate_example_cf (λ _, LqState nps_start q_create (λ _, None) ∅ (λ _, LqIdle))).

Lemma lockrate_nps_reachable rounds : reachable (sys := lockrate_nps_lts) (lockrate_nps_state rounds).
Proof. by apply drive_reachable, reachable_init, start_init. Qed.

(** ** Theorems *)

Section theorems.
Context (pthread_mutex pthread_spinlock : some_mutex) (pthread_self : tid → Z) (LOCK_METHOD : lock_method).
Context (opts : list (ascii * string)) (cf : config) (ncores : Z).

Local Notation np := (cf_nproducers cf).
Local Notation nc := (cf_nconsumers cf).
Local Notation mpt := (cf_nmessages cf `quot` cf_nproducers cf).
Local Notation lockrate_lts := (Lockrate.lockrate_lts pthread_mutex pthread_spinlock pthread_self LOCK_METHOD cf ncores).

Context (s : bench (@lq_state (sm_state (Lockrate.queue_lock pthread_mutex pthread_spinlock pthread_self LOCK_METHOD cf)))).

(** C2: when there is a core for each thread and each producer sends at least as many
    messages as there are consumers, [lockrate], with any [LOCK_METHOD], never touches
    memory it does not own, and when it exits with status 0 every consumer has received from every
    producer exactly what was routed to it, in order, [total_messages] in all,
    and no node is left allocated.  The pthread locks are assumed to be
    mutexes and thread identifiers to be distinct and positive. *)
Theorem lockrate_delivery :
  mutex_laws pthread_mutex → mutex_laws pthread_spinlock →
  (∀ t, 0 < pthread_self t) → ids_distinct pthread_self → main_tid cf < 2 ^ 63 - 1 →
  Lockrate.parse opts = Parsed cf → np + nc ≤ ncores → nc ≤ mpt →
  reachable (sys := lockrate_lts) s →
  (∀ t, b_pc s t ≠ Crashed) ∧
  (b_exit s = Some 0 → delivered cf s ∧ Z.of_nat (total_received cf s) = mpt * np ∧ b_heap s = ∅).
Proof.
  intros H1 H2 H3 H4 H5 Hp Hc Hm Hr.
  destruct (Lockrate.lockrate_apart _ _ _ _ _ _ s H1 H2 H3 H4 H5 Hr) as (L' & S' & M & Q & ML & Hr').
  pose proof (Lockrate.lockrate_safe_config opts cf ncores Hp Hc Hm) as Hsafe.
  pose proof (λ _ : nat, @lock_queue_fifo _ _ _ ML) as F. split.
  - exact (program_safe _ _ _ _ _ _ F _ Hsafe Lockrate.lockrate_eq _ Hr').
  - intros He. split_and!.
    + exact (proj1 (proj2 (program_exit _ _ _ _ _ _ F _ Hsafe Lockrate.lockrate_eq _ Hr' He))).
    + exact (proj2 (proj2 (program_exit _ _ _ _ _ _ F _ Hsafe Lockrate.lockrate_eq _ Hr' He))).
    + exact (program_freed _ _ _ _ _ _ F _ Hsafe Lockrate.lockrate_eq _ Hr' eq_refl He).
Qed.

(** C29: the ratio "mmsg/call" that a consumer of [lockrate] prints is always 1:
    [sum] counts calls and not messages. *)
Theorem lockrate_sum_counts_calls (k : nat) :
  mutex_laws pthread_mutex → mutex_laws pthread_spinlock →
  (∀ t, 0 < pthread_self t) → ids_distinct pthread_self → main_tid cf < 2 ^ 63 - 1 →
  Lockrate.parse opts = Parsed cf → np + nc ≤ ncores → nc ≤ mpt →
  reachable (sys := lockrate_lts) s → b_exit s = Some 0 → k < nc →
  ∃ calls, b_pc s (consumer_of cf k) = Cons (CExit calls calls).
Proof.
  intros H1 H2 H3 H4 H5 Hp Hc Hm Hr He Hk.
  destruct (Lockrate.lockrate_apart _ _ _ _ _ _ s H1 H2 H3 H4 H5 Hr) as (L' & S' & M & Q & ML & Hr').
  pose proof (Lockrate.lockrate_safe_config opts cf ncores Hp Hc Hm) as Hsafe.
  destruct (program_tally _ _ cf _ _ false (λ _, @lock_queue_fifo _ _ _ ML) ncores Hsafe Lockrate.lockrate_eq
    _ Hr' k He Hk) as (sum & calls & Hpc & _ & Hs).
  exists calls. simpl in Hpc. by rewrite Hpc, Hs.
Qed.
End theorems.

(** ** Witnesses *)

Lemma lockrate_example_fits :
  Lockrate.parse lockrate_example_opts = Parsed lockrate_example_cf ∧ cf_nproducers lockrate_example_cf + cf_nconsumers lockrate_example_cf ≤ 4 ∧
  cf_nconsumers lockrate_example_cf ≤ cf_nmessages lockrate_example_cf `quot` cf_nproducers lockrate_example_cf ∧
  (∀ t, 0 < self_example t) ∧ main_tid lockrate_example_cf < 2 ^ 63 - 1.
Proof. split_and!; [vm_compute; reflexivity|vm_compute; congruence..| |by vm_compute]. unfold self_example. lia. Qed.

(** With a ticket lock, and with a lock that shares indices: there each of the four threads has
    drawn one index, whichever lock it first used, and both locks know all of them. *)
Lemma lockrate_delivery_witness :
  (delivered lockrate_example_cf (lockrate_example_state 200) ∧
   total_received lockrate_example_cf (lockrate_example_state 200) = 4%nat) ∧
  (delivered lockrate_example_cf (lockrate_nps_state 300) ∧
   (λ k, (np_global (lq_lock (b_q (lockrate_nps_state 300) k)), np_tl (lq_lock (b_q (lockrate_nps_state 300) k)) <$> seq 0 4)) <$> [0; 1]%nat =
     replicate 2 (5, [3; 4; 1; 2])).
Proof.
  destruct lockrate_example_fits as (Hp & Hc & Hm & Hpos & Hn). split.
  - destruct (lockrate_delivery ticket3 ticket3 self_example TICKET_LOCK lockrate_example_opts lockrate_example_cf 4 (lockrate_example_state 200)
      ticket3_laws ticket3_laws Hpos self_example_distinct Hn Hp Hc Hm (lockrate_example_reachable 200)) as [_ He].
    destruct He as (Hd & _); [vm_compute; reflexivity|].
    split; [exact Hd|]. vm_compute. reflexivity.
  - destruct (lockrate_delivery ticket3 ticket3 self_example TIDEX_NPS_LOCK lockrate_example_opts lockrate_example_cf 4 (lockrate_nps_state 300)
      ticket3_laws ticket3_laws Hpos self_example_distinct Hn Hp Hc Hm (lockrate_nps_reachable 300)) as [_ He].
    destruct He as (Hd & _); [vm_compute; reflexivity|].
    split; [exact Hd|]. vm_compute. reflexivity.
Defined.

Lemma lockrate_sum_counts_calls_witness :
  length (received_by lockrate_example_cf (lockrate_example_state 200) 0%nat) = 2%nat ∧
  ∃ calls, b_pc (lockrate_example_state 200) (consumer_of lockrate_example_cf 0) = Cons (CExit calls calls).
Proof.
  destruct lockrate_example_fits as (Hp & Hc & Hm & Hpos & Hn). split; [vm_compute; reflexivity|].
  apply (lockrate_sum_counts_calls ticket3 ticket3 self_example TICKET_LOCK lockrate_example_opts lockrate_example_cf 4 (lockrate_example_state 200)
    0%nat ticket3_laws ticket3_laws Hpos self_example_distinct Hn Hp Hc Hm (lockrate_example_reachable 200));
    vm_compute; reflexivity.
Defined.
