(* ===== verification/AllocRate.v ===== *)
(** * [src/alloc_rate.cc]: the allocator benchmark

    The producer, the consumer and [main] of [alloc_rate.cc] with
    [ALLOC_METHOD=MALLOC_ALLOC]: every message is allocated by its producer and
    freed by its consumer.  The option [-e], which adds a second allocation per
    message, frees an interior pointer. *)

From S2P Require Import Prelude Lts QueueSpec Nodes CloudiusQueue.
From S2P Require Import Bench BenchSpec BenchCtl BenchFlow BenchSafe BenchThm BenchRun.

Local Open Scope Z_scope.

Module AllocRate.

(** ** The options *)

(** The [while] over [getopt(argc, argv, "erp:c:m:")] and the test that follows. *)
Fixpoint options (opts : list (ascii * string)) (cf : config) : options_result :=
  match opts with
  | (c, optarg) :: opts =>
      if bool_decide (c = "e"%char) then options opts (set_extra_alloc 1 cf)
      else if bool_decide (c = "r"%char) then options opts (set_randomize 1 cf)
      else if bool_decide (c = "p"%char) then options opts (set_nproducers (atoi optarg) cf)
      else if bool_decide (c = "c"%char) then options opts (set_nconsumers (atoi optarg) cf)
      else if bool_decide (c = "m"%char) then options opts (set_nmessages (atoi optarg) cf)
      else if bool_decide (c = "?"%char) then Returned 1
      else Aborted
  | [] =>
      if bool_decide (cf_nproducers cf < 1 ∨ cf_nconsumers cf < 1 ∨ cf_nproducers cf < cf_nconsumers cf ∨
                      cf_nmessages cf < cf_nconsumers cf)
      then Returned 1 else Parsed cf
  end.

Definition parse (opts : list (ascii * string)) : options_result := options opts (Config 0 0 0 0 0).

(** ** The allocation functions

    [work_node_alloc] is two effects: [malloc] and the stores into the node.
    [extra_alloc_data] lies 16 bytes into a node. *)

Definition work_node_malloc (k : option loc → prod_pc) : act prod_pc := AMalloc 1 (λ ns, k (head ns)).
Definition work_node_set (node : option loc) (id data : Z) (k : prod_pc) : act prod_pc :=
  AStore node (λ _, WorkNode id data) k.
Definition work_node_free (wn : loc) (k : cons_pc) : act cons_pc := AFree [wn] 0 k.
Definition extra_malloc (k : prod_pc) : act prod_pc := AExtra k.
Definition extra_alloc_data_offset : Z := 16.
(** [extra_free(&node->extra_alloc_data)]. *)
Definition extra_free (node : loc) (k : cons_pc) : act cons_pc := AFree [node] extra_alloc_data_offset k.

(** ** The threads *)

Definition do_produce (tdata : thread_data_t) (p : prod_pc) : act prod_pc :=
  let me := index tdata in
  match p with
  | PStage i =>
      if bool_decide (i < nconsumers tdata + nproducers tdata + PRINT_BATCH)
      then ABarrier (PStage (i + PRINT_BATCH))
      else AGoto (PPerm 0 (PLocals (me `mod` nconsumers tdata) (seqZ 0 (nconsumers tdata)) [] None))
  | PPerm i l =>
      if bool_decide (i < nconsumers tdata) then
        AUrandom (λ r,
          let index := r `mod` nconsumers tdata in
          PPerm (i + 1) (PLocals (pl_q l) (swap (pl_permute l) i index) (pl_nodes l) (pl_tmp l)))
      else AGoto (PBar1 l)
  | PBar1 l => ABarrier (PBar2 l)
  | PBar2 l => ABarrier (PBar3 l)
  | PBar3 l => ABarrier (PLoop (messages_per_thread tdata - 1) l)
  | PLoop i l =>
      if bool_decide (0 ≤ i) then work_node_malloc (λ n, PSet i n l) else AGoto (PLock l)
  | PSet i n l => work_node_set n me (i + 1) (PExtra i n l)
  | PExtra i n l =>
      let next :=
        if bool_decide (randomize tdata ≠ 0) then
          let q := (pl_q l + 1) `mod` nconsumers tdata in
          PEnq i (aget (pl_permute l) q) n (PLocals q (pl_permute l) (pl_nodes l) (pl_tmp l))
        else PEnq i (pl_q l) n l in
      if bool_decide (extra_alloc tdata ≠ 0) then extra_malloc next else AGoto next
  | PEnq i k n l => AEnqueue k n (PLoop (i - 1) l)
  | PLock l => ALock (PRead l)
  | PRead l => AReadDone (λ v, PWrite (v + 1) l)
  | PWrite v l => AWriteDone v (PUnlock l)
  | PUnlock l => AUnlock (PCheck l)
  | PCheck l => AReadDone (λ v, if bool_decide (v = nproducers tdata) then PStop 0 l else PEnd1 l)
  | PStop i l =>
      if bool_decide (i < nconsumers tdata) then work_node_malloc (λ n, PStopSet i n l) else AGoto (PEnd1 l)
  | PStopSet i n l => work_node_set n me 0 (PStopEnq i n l)
  | PStopEnq i n l => AEnqueue i n (PStop (i + 1) l)
  | PEnd1 l => ABarrier (PEnd2 l)
  | PEnd2 l => ABarrier (PExit l)
  | PExit l => AExit
  (* not in this program *)
  | PMalloc | PInit _ _ | PTmp _ | PFreeTmp _ | PFree _ => AExit
  end.

(** [try_dequeue_bulk] of the wrappers: at most one node. *)
Definition try_dequeue_bulk (head : ptr) : list loc :=
  match head with Some n => [n] | None => [] end.

Definition do_consume (tdata : thread_data_t) (c : cons_pc) : act cons_pc :=
  let me := index tdata in
  match c with
  | CStage i =>
      if bool_decide (i < nconsumers tdata + nproducers tdata + PRINT_BATCH)
      then ABarrier (CStage (i + PRINT_BATCH))
      else AGoto CBar1
  | CBar1 => ABarrier CBar2
  | CBar2 => ABarrier CTi
  | CTi => ATime (λ _, CBar3)
  | CBar3 => ABarrier (CWhile false 0 0)
  | CWhile done sum calls =>
      if done then AGoto (CTf sum calls)
      else
        ADequeue me (λ head,
          let node := try_dequeue_bulk head in
          let result := Z.of_nat (length node) in
          if bool_decide (result = 0) then CWhile done (sum + result) (calls + 1)
          else CNodes node done (sum + result) (calls + 1))
  | CNodes [] done sum calls => AGoto (CWhile done sum calls)
  | CNodes (n :: ns) done sum calls =>
      ALoad n (λ w, CExtra n ns (if bool_decide (wn_data w = 0) then true else done) sum calls)
  | CExtra n ns done sum calls =>
      if bool_decide (extra_alloc tdata ≠ 0) then extra_free n (CFree n ns done sum calls)
      else AGoto (CFree n ns done sum calls)
  | CFree n ns done sum calls => work_node_free n (CNodes ns done sum calls)
  | CTf sum calls => ATime (λ _, CEnd1 sum calls)
  | CEnd1 sum calls => ABarrier (CEnd2 sum calls)
  | CEnd2 sum calls => ABarrier (CExit sum calls)
  | CExit _ _ => AExit
  end.

(** The creation loops, the barriers, the timing and the joins of [main]. *)
Definition main (cf : config) (m : main_pc) : act main_pc :=
  let nproducers := cf_nproducers cf in
  let nconsumers := cf_nconsumers cf in
  let messages_per_thread := cf_nmessages cf `quot` nproducers in
  let total_messages := messages_per_thread * nproducers in
  match m with
  | MProd i j =>
      if bool_decide (i < nproducers) then
        ACreate RProd i
          (ThreadData i j nconsumers nproducers messages_per_thread total_messages (cf_randomize cf)
             (cf_extra_alloc cf))
          (MProd (i + 1) (if bool_decide (i ≤ nconsumers - 2) then j + 2 else j + 1))
      else AGoto (MCons 0 0)
  | MCons i j =>
      if bool_decide (i < nconsumers) then
        ACreate RCons i
          (ThreadData i j nconsumers nproducers messages_per_thread total_messages (cf_randomize cf)
             (cf_extra_alloc cf))
          (MCons (i + 1) (j + 2))
      else AGoto (MStage 0)
  | MStage i =>
      if bool_decide (i < nconsumers + nproducers + PRINT_BATCH)
      then ABarrier (MStage (i + PRINT_BATCH))
      else AGoto MBar1
  | MBar1 => ABarrier MBar2
  | MBar2 => ABarrier MTi
  | MTi => ATime (λ ti, MBar3 ti)
  | MBar3 ti => ABarrier (MEnd1 ti)
  | MEnd1 ti => ABarrier (MTf ti)
  | MTf ti => ATime (λ tf, MEnd2 ti tf)
  | MEnd2 ti tf => ABarrier (MJoinP 0 ti tf)
  | MJoinP i ti tf =>
      if bool_decide (i < nproducers) then AJoin RProd i (MJoinP (i + 1) ti tf)
      else AGoto (MJoinC 0 ti tf)
  | MJoinC i ti tf =>
      if bool_decide (i < nconsumers) then AJoin RCons i (MJoinC (i + 1) ti tf)
      else AGoto (MReturn ti tf)
  | MReturn ti tf => AReturn 0
  end.

Definition alloc_rate : program := Program do_produce do_consume main.

(** ** The program is the common one *)

Definition count (r : ptr) : Z := Z.of_nat (length (option_list r)).

Lemma alloc_rate_eq : program_eq alloc_rate (spec_program true count).
Proof.
  split.
  - intros td p. destruct p; simpl; unfold target, next_q, set_plq; repeat case_bool_decide; simpl; try done.
    + split_and!; try done. intros _. f_equal. lia.
    + by destruct l.
    + by destruct l.
  - intros td c. destruct c as [| | | | |[]|[]| | | | | |]; simpl; try done; try (by repeat case_bool_decide).
    split; [done|]. by intros [].
  - intros cf m. destruct m; simpl; repeat case_bool_decide; done.
Qed.

Lemma alloc_options_valid opts cf cf' : options opts cf = Parsed cf' → valid_config cf'.
Proof.
  revert cf. induction opts as [|[c arg] opts IH]; intros cf; simpl.
  - case_bool_decide as H; [done|]. intros ?. simplify_eq. unfold valid_config. lia.
  - repeat case_bool_decide; eauto; done.
Qed.

(** The option [-e] is what sets [extra_alloc]. *)
Lemma no_extra opts cf cf' :
  options opts cf = Parsed cf' → "e"%char ∉ opts.*1 → cf_extra_alloc cf' = cf_extra_alloc cf.
Proof.
  revert cf. induction opts as [|[c arg] opts IH]; intros cf; simpl.
  - case_bool_decide; [done|]. intros ? _. by simplify_eq.
  - intros Ho [Hc Hn]%not_elem_of_cons. rewrite bool_decide_eq_false_2 in Ho by congruence.
    repeat case_bool_decide; try done; by rewrite (IH _ Ho Hn).
Qed.

Lemma alloc_safe_config opts cf ncores :
  parse opts = Parsed cf → "e"%char ∉ opts.*1 → cf_nproducers cf + cf_nconsumers cf ≤ ncores →
  safe_config true cf ncores.
Proof.
  intros Hp He Hc. split; try done; [by eapply alloc_options_valid|]. intros _. by apply (no_extra opts (Config 0 0 0 0 0)).
Qed.

End AllocRate.

(** ** Complete runs: two producers, one consumer, four messages, the queue of
    [queue-mpsc.h]; without and with [-e] *)

Definition alloc_opts : list (ascii * string) := [("p"%char, "2"); ("c"%char, "1"); ("m"%char, "4")]%string.
Definition alloc_cf : config := Config 2 1 4 0 0.
Definition extra_cf : config := Config 2 1 4 0 1.
Definition alloc_queues (k : nat) : Queue cq_label cq_state := cloudius_queue (consumer_of alloc_cf k).
Definition alloc_fifo (k : nat) : @FifoQueue _ _ (alloc_queues k) false := cloudius_fifo (consumer_of alloc_cf k).
Definition alloc_queue_start : cq_state := CqState queue_mpsc_new (λ _, None) ∅ (λ _, CqIdle).
Definition alloc_labels (n : ptr) : list cq_label :=
  [match n with Some n => CqCallPush n | None => CqCallPop end; CqRun false].
Definition alloc_state (cf : config) (rounds : nat) : bench cq_state :=
  drive (bench_lts alloc_queues AllocRate.alloc_rate cf 3) AllocRate.alloc_rate cf alloc_labels rounds (start cf (λ _, alloc_queue_start)).

Lemma alloc_reachable cf rounds :
  reachable (sys := bench_lts alloc_queues AllocRate.alloc_rate cf 3) (alloc_state cf rounds).
Proof. by apply drive_reachable, reachable_init, start_init. Qed.

(** ** Theorems *)

(** C3: without [-e], with FIFO queues and a core for every thread, [alloc_rate] never uses a node after its consumer has
    freed it and never frees one twice; when it exits with status 0 every
    consumer has received from every producer exactly what was routed to it, in
    order, [total_messages] in all, and the only nodes still allocated are stop
    nodes. *)
Theorem alloc_rate_delivery {L S} (Qs : nat → Queue L S) (lax : bool) (F : ∀ k, @FifoQueue L S (Qs k) lax)
    (opts : list (ascii * string)) (cf : config) (ncores : Z) (s : bench S) :
  AllocRate.parse opts = Parsed cf → "e"%char ∉ opts.*1 → cf_nproducers cf + cf_nconsumers cf ≤ ncores →
  reachable (sys := bench_lts Qs AllocRate.alloc_rate cf ncores) s →
  (∀ t, b_pc s t ≠ Crashed) ∧
  (b_exit s = Some 0 →
     delivered cf s ∧
     Z.of_nat (total_received cf s) = cf_nmessages cf `quot` cf_nproducers cf * cf_nproducers cf ∧
     ∀ n w, b_heap s !! n = Some w → wn_data w = 0).
Proof.
  intros Hp He Hc Hr. pose proof (AllocRate.alloc_safe_config opts cf ncores Hp He Hc) as Hsafe. split.
  - eapply program_safe; [exact F|exact Hsafe|exact AllocRate.alloc_rate_eq|exact Hr].
  - intros Hx. split_and!.
    + eapply program_exit; [exact F|exact Hsafe|exact AllocRate.alloc_rate_eq|exact Hr|exact Hx].
    + eapply program_exit; [exact F|exact Hsafe|exact AllocRate.alloc_rate_eq|exact Hr|exact Hx].
    + intros n w. eapply program_leak; [exact F|exact Hsafe|exact AllocRate.alloc_rate_eq|exact Hr|done|exact Hx].
Qed.

(** C30: with [-e], [alloc_rate] passes to [free] the address of the field
    [extra_alloc_data] of the first node it receives, which [malloc] has not
    returned. *)
Theorem alloc_rate_extra_crash :
  AllocRate.parse (("e"%char, ""%string) :: alloc_opts) = Parsed extra_cf ∧
  reachable (sys := bench_lts alloc_queues AllocRate.alloc_rate extra_cf 3) (alloc_state extra_cf 60) ∧
  b_pc (alloc_state extra_cf 60) (consumer_of extra_cf 0) = Crashed.
Proof.
  split; [vm_compute; reflexivity|]. split; [apply alloc_reachable|vm_compute; reflexivity].
Qed.

(** ** Witness *)

Lemma alloc_rate_delivery_witness :
  delivered alloc_cf (alloc_state alloc_cf 100) ∧ total_received alloc_cf (alloc_state alloc_cf 100) = 4%nat ∧
  size (b_heap (alloc_state alloc_cf 100)) = 0%nat.
Proof.
  destruct (alloc_rate_delivery alloc_queues false alloc_fifo alloc_opts alloc_cf 3 (alloc_state alloc_cf 100)) as [_ He].
  - vm_compute. reflexivity.
  - set_solver.
  - vm_compute. congruence.
  - apply alloc_reachable.
  - destruct He as (Hd & _); [vm_compute; reflexivity|].
    split; [exact Hd|]. split; vm_compute; reflexivity.
Defined.
