(* ===== verification/SsQueue.v ===== *)
(** * The lock-free stacks of SSMalloc ([include-x86_64/queue.h], [atomic.h])

    The "queues" of the allocator are stacks linked through the first word of
    their elements.  A head is a 64-bit word that holds a 48-bit address and,
    in the multi-consumer and counted variants, a 16-bit count.  This file
    models every operation one access to shared memory at a time, relates it
    to the effect of an operation that runs without interference, and proves
    the multi-consumer stack linearizable as long as no operation is overtaken
    by 2^16 others. *)

From S2P Require Import Prelude Lts Nodes QueueSpec.

Local Open Scope Z_scope.

(** ** [atomic.h] *)

(** What is returned, and the new contents of the address. *)
Definition compare_and_swap64 (cur old_value new_value : Z) : bool * Z :=
  if bool_decide (cur = old_value) then (true, new_value) else (false, cur).

Definition compare_and_swap64_value (cur old_value new_value : Z) : Z * Z :=
  (cur, if bool_decide (cur = old_value) then new_value else cur).

(** [int prev = value; xaddq; return prev + value]: the new value, not the old. *)
Definition atmc_fetch_and_add64 (cur value : Z) : Z * Z :=
  let prev := s32 value in
  (s64 (prev + s64 cur), u64 (cur + value)).

(** The same on 32 bits. *)
Definition atmc_fetch_and_add (cur value : Z) : Z * Z :=
  (s32 (value + s32 cur), wrap_u 32 (cur + value)).

Definition atmc_add32 (cur value : Z) : Z := wrap_u 32 (cur + value).
Definition atmc_add64 (cur value : Z) : Z := u64 (cur + value).

Definition fetch_and_store (cur value : Z) : Z * Z := (cur, value).

Definition compare_and_swap32 (cur old_value new_value : Z) : bool * Z :=
  if bool_decide (cur = old_value) then (true, new_value) else (false, cur).

Definition compare_and_swap32_value (cur old_value new_value : Z) : Z * Z :=
  (cur, if bool_decide (cur = old_value) then new_value else cur).

Definition compare_and_swap_ptr := compare_and_swap64.

(** ** Head words *)

Definition ABA_ADDR_BIT : Z := 48.
Definition ABA_ADDR_MASK : Z := Z.shiftl 1 ABA_ADDR_BIT - 1.
Definition ABA_COUNT_MASK : Z := u64 (Z.lnot ABA_ADDR_MASK).
Definition ABA_COUNT_ONE : Z := Z.shiftl 1 ABA_ADDR_BIT.
Definition ABA_ADDR (e : Z) : Z := Z.land e ABA_ADDR_MASK.
Definition ABA_COUNT (e : Z) : Z := Z.land e ABA_COUNT_MASK.

(** ** Operations, one memory access per step

    [head] is [queue->head]; [nx a] is [NEXT_NODE(a, 0)], the word at [a]. *)

Inductive stack_pc :=
  | SpIdle
  | SpPutLoad (element : loc)
  | SpPutLink (element : loc) (old_head : Z)
  | SpPutCas (element : loc) (old_head : Z)
  | SpPutRet
  | SpGetLoad
  | SpGetNext (old_head : Z)
  | SpGetCas (old_head new_head : Z)
  | SpGetRet (r : Z).

#[export] Instance stack_pc_eq_dec : EqDecision stack_pc.
Proof. solve_decision. Defined.

Definition mc_queue_init : Z := 0.

Definition mc_enqueue (head : Z) (nx : Z → Z) (pc : stack_pc) : option (Z * (Z → Z) * stack_pc) :=
  match pc with
  | SpPutLoad element => Some (head, nx, SpPutLink element head)
  | SpPutLink element old_head =>
      Some (head, <[Zpos element := ABA_ADDR old_head]> nx, SpPutCas element old_head)
  | SpPutCas element old_head =>
      let new_head := Z.lor (Zpos element) (u64 (ABA_COUNT old_head + ABA_COUNT_ONE)) in
      let '(ok, head') := compare_and_swap64 head old_head new_head in
      Some (head', nx, if ok then SpPutRet else SpPutLoad element)
  | _ => None
  end.

Definition mc_dequeue (head : Z) (nx : Z → Z) (pc : stack_pc) : option (Z * (Z → Z) * stack_pc) :=
  match pc with
  | SpGetLoad =>
      if bool_decide (ABA_ADDR head = 0) then Some (head, nx, SpGetRet 0)
      else Some (head, nx, SpGetNext head)
  | SpGetNext old_head =>
      let new_head := Z.lor (nx (ABA_ADDR old_head)) (u64 (ABA_COUNT old_head + ABA_COUNT_ONE)) in
      Some (head, nx, SpGetCas old_head new_head)
  | SpGetCas old_head new_head =>
      let '(ok, head') := compare_and_swap64 head old_head new_head in
      Some (head', nx, if ok then SpGetRet (ABA_ADDR old_head) else SpGetLoad)
  | _ => None
  end.

(** The single-consumer stack has no count in its head. *)
Definition sc_queue_init : Z := 0.

Definition sc_enqueue (head : Z) (nx : Z → Z) (pc : stack_pc) : option (Z * (Z → Z) * stack_pc) :=
  match pc with
  | SpPutLoad element => Some (head, nx, SpPutLink element head)
  | SpPutLink element old_head => Some (head, <[Zpos element := old_head]> nx, SpPutCas element old_head)
  | SpPutCas element old_head =>
      let '(ok, head') := compare_and_swap64 head old_head (Zpos element) in
      Some (head', nx, if ok then SpPutRet else SpPutLoad element)
  | _ => None
  end.

Definition sc_dequeue (head : Z) (nx : Z → Z) (pc : stack_pc) : option (Z * (Z → Z) * stack_pc) :=
  match pc with
  | SpGetLoad =>
      if bool_decide (head = 0) then Some (head, nx, SpGetRet 0) else Some (head, nx, SpGetNext head)
  | SpGetNext old_head => Some (head, nx, SpGetCas old_head (nx old_head))
  | SpGetCas old_head new_head =>
      let '(ok, head') := compare_and_swap64 head old_head new_head in
      Some (head', nx, if ok then SpGetRet old_head else SpGetLoad)
  | _ => None
  end.

(** Operations on chains: [CpPut] puts the chain from [elems] to [tail] with
    [cnt] elements, [CpTake] takes everything; the last component of
    [CpTakeRet] is what is written to [*count], if anything. *)
Inductive chain_pc :=
  | CpPutLoad (elems tail cnt : Z)
  | CpPutLink (elems tail cnt old_head : Z)
  | CpPutCas (elems tail cnt old_head : Z)
  | CpPutRet (prev : Z)
  | CpTakeLoad
  | CpTakeCas (old_head : Z)
  | CpTakeRet (r : Z) (count : option Z).

Definition sc_chain_dequeue (head : Z) (nx : Z → Z) (pc : chain_pc) : option (Z * (Z → Z) * chain_pc) :=
  match pc with
  | CpTakeLoad =>
      if bool_decide (head = 0) then Some (head, nx, CpTakeRet 0 None) else Some (head, nx, CpTakeCas head)
  | CpTakeCas old_head =>
      let '(ok, head') := compare_and_swap64 head old_head 0 in
      Some (head', nx, if ok then CpTakeRet old_head None else CpTakeLoad)
  | _ => None
  end.

Definition counted_chain_enqueue (head : Z) (nx : Z → Z) (pc : chain_pc) : option (Z * (Z → Z) * chain_pc) :=
  match pc with
  | CpPutLoad elems tail cnt => Some (head, nx, CpPutLink elems tail cnt head)
  | CpPutLink elems tail cnt old_head =>
      Some (head, <[tail := ABA_ADDR old_head]> nx, CpPutCas elems tail cnt old_head)
  | CpPutCas elems tail cnt old_head =>
      let new_head := Z.lor elems (u64 (ABA_COUNT old_head + ABA_COUNT_ONE * cnt)) in
      let '(prev, head') := compare_and_swap64_value head old_head new_head in
      Some (head', nx, if bool_decide (prev = old_head) then CpPutRet prev else CpPutLoad elems tail cnt)
  | _ => None
  end.

(** The same loop for one element. *)
Definition counted_enqueue (head : Z) (nx : Z → Z) (pc : chain_pc) : option (Z * (Z → Z) * chain_pc) :=
  match pc with
  | CpPutLoad elem _ _ => Some (head, nx, CpPutLink elem elem 1 head)
  | CpPutLink elem _ _ old_head =>
      Some (head, <[elem := ABA_ADDR old_head]> nx, CpPutCas elem elem 1 old_head)
  | CpPutCas elem _ _ old_head =>
      let new_head := Z.lor elem (u64 (ABA_COUNT old_head + ABA_COUNT_ONE)) in
      let '(prev, head') := compare_and_swap64_value head old_head new_head in
      Some (head', nx, if bool_decide (prev = old_head) then CpPutRet prev else CpPutLoad elem elem 1)
  | _ => None
  end.

Definition counted_chain_dequeue (head : Z) (nx : Z → Z) (pc : chain_pc) : option (Z * (Z → Z) * chain_pc) :=
  match pc with
  | CpTakeLoad =>
      if bool_decide (head = 0) then Some (head, nx, CpTakeRet 0 None) else Some (head, nx, CpTakeCas head)
  | CpTakeCas old_head =>
      let '(ok, head') := compare_and_swap64 head old_head 0 in
      Some (head', nx,
        if ok then CpTakeRet (ABA_ADDR old_head) (Some (Z.shiftr (ABA_COUNT old_head) ABA_ADDR_BIT))
        else CpTakeLoad)
  | _ => None
  end.

(** ** Sequential stack *)

Definition seq_queue_init : Z := 0.

Definition seq_enqueue (queue : Z) (nx : Z → Z) (element : Z) : Z * (Z → Z) :=
  (element, <[element := queue]> nx).

Definition seq_dequeue (queue : Z) (nx : Z → Z) : Z * Z :=
  if bool_decide (queue = 0) then (0, queue) else (queue, nx queue).

(** ** Effect of an operation that is not interrupted

    The loops then succeed in their first round; section "Without
    interference" proves that the step functions compute these. *)

Definition mc_put (head : Z) (nx : Z → Z) (element : Z) : Z * (Z → Z) :=
  (Z.lor element (u64 (ABA_COUNT head + ABA_COUNT_ONE)), <[element := ABA_ADDR head]> nx).

Definition mc_fetch (head : Z) (nx : Z → Z) : Z * Z :=
  let old_addr := ABA_ADDR head in
  if bool_decide (old_addr = 0) then (0, head)
  else (old_addr, Z.lor (nx old_addr) (u64 (ABA_COUNT head + ABA_COUNT_ONE))).

Definition sc_put (head : Z) (nx : Z → Z) (element : Z) : Z * (Z → Z) :=
  (element, <[element := head]> nx).

Definition sc_fetch (head : Z) (nx : Z → Z) : Z * Z :=
  if bool_decide (head = 0) then (0, head) else (head, nx head).

(** The old head word, the new one, and the links. *)
Definition counted_chain_put (head : Z) (nx : Z → Z) (elems tail cnt : Z) : Z * Z * (Z → Z) :=
  (head, Z.lor elems (u64 (ABA_COUNT head + ABA_COUNT_ONE * cnt)), <[tail := ABA_ADDR head]> nx).

(** The address, the new head and the count. *)
Definition counted_chain_fetch (head : Z) : Z * Z * option Z :=
  if bool_decide (head = 0) then (0, head, None)
  else (ABA_ADDR head, 0, Some (Z.shiftr (ABA_COUNT head) ABA_ADDR_BIT)).

(** ** The multi-consumer stack as a concurrent system *)

Definition ptr_of (a : Z) : ptr := match a with Zpos p => Some p | _ => None end.

Definition stack_status (pc : stack_pc) : qstatus :=
  match pc with
  | SpIdle => QsIdle
  | SpPutLoad n | SpPutLink n _ | SpPutCas n _ => QsPush n
  | SpPutRet => QsPushed
  | SpGetRet r => QsPopped (ptr_of r)
  | _ => QsPop
  end.

(** The head word that a thread holds between its load and its
    compare-and-swap. *)
Definition held_head (pc : stack_pc) : option Z :=
  match pc with
  | SpPutLink _ old | SpPutCas _ old | SpGetNext old | SpGetCas old _ => Some old
  | _ => None
  end.

Inductive stack_label := SlCallPut (n : loc) | SlCallGet | SlRun | SlWrite (n : loc) (v : Z).

Record stack_state := StackState {
  sk_head : Z;
  sk_next : Z → Z;
  sk_inuse : gset loc;       (** elements inside the stack or in a call *)
  sk_pcs : tid → stack_pc;
  sk_ops : Z;                (** successful compare-and-swaps so far *)
  sk_ver : tid → Z;          (** [sk_ops] when the thread last loaded the head *)
}.

Section system.
Context (nthreads : nat).

(** One more success leaves every pending operation overtaken by fewer than
    2^16 others. *)
Definition window_ok (s : stack_state) (t : tid) : bool :=
  forallb (λ u, bool_decide (u = t) || bool_decide (held_head (sk_pcs s u) = None) ||
                bool_decide (sk_ops s + 1 < sk_ver s u + 2 ^ 16)) (seq 0 nthreads).

(** A step of [mc_enqueue] or [mc_dequeue]: bookkeeping around [run]. *)
Definition stack_run (t : tid) (s : stack_state) : option stack_state :=
  let pc := sk_pcs s t in
  match (match pc with
         | SpPutLoad _ | SpPutLink _ _ | SpPutCas _ _ => mc_enqueue (sk_head s) (sk_next s) pc
         | _ => mc_dequeue (sk_head s) (sk_next s) pc
         end) with
  | Some (h, nx, pc') =>
      let s' := StackState h nx (sk_inuse s) (<[t := pc']> (sk_pcs s)) in
      match pc, pc' with
      | (SpPutCas _ _ | SpGetCas _ _), (SpPutRet | SpGetRet _) =>
          if window_ok s t then Some (s' (sk_ops s + 1) (sk_ver s)) else None
      | (SpPutLoad _ | SpGetLoad), _ => Some (s' (sk_ops s) (<[t := sk_ops s]> (sk_ver s)))
      | _, _ => Some (s' (sk_ops s) (sk_ver s))
      end
  | None => None
  end.

Definition stack_step (t : tid) (l : stack_label) (s : stack_state) : option stack_state :=
  let ret pc inuse := Some (StackState (sk_head s) (sk_next s) inuse (<[t := pc]> (sk_pcs s)) (sk_ops s) (sk_ver s)) in
  match sk_pcs s t, l with
  | SpIdle, SlCallPut n =>
      (* clients push addresses of their own, of at most 48 bits *)
      if decide (n ∈ sk_inuse s ∨ ¬ Zpos n < 2 ^ 48 ∨ ¬ (t < nthreads)%nat) then None
      else ret (SpPutLoad n) ({[n]} ∪ sk_inuse s)
  | SpIdle, SlCallGet => if decide (t < nthreads)%nat then ret SpGetLoad (sk_inuse s) else None
  | SpIdle, SlWrite n v =>
      (* clients write to memory that is not in the stack *)
      if decide (n ∈ sk_inuse s) then None
      else Some (StackState (sk_head s) (<[Zpos n := v]> (sk_next s)) (sk_inuse s) (sk_pcs s) (sk_ops s) (sk_ver s))
  | SpPutRet, SlRun => ret SpIdle (sk_inuse s)
  | SpGetRet r, SlRun =>
      (* the caller owns the element *)
      ret SpIdle (match ptr_of r with Some n => sk_inuse s ∖ {[n]} | None => sk_inuse s end)
  | _, SlRun => stack_run t s
  | _, _ => None
  end.

Definition stack_init (s : stack_state) : Prop :=
  sk_head s = mc_queue_init ∧ sk_inuse s = ∅ ∧ sk_pcs s = (λ _, SpIdle) ∧ sk_ops s = 0.

Definition mc_stack : Queue stack_label stack_state := {|
  q_init := stack_init;
  q_step := stack_step;
  q_status := λ s t, stack_status (sk_pcs s t);
|}.
End system.

(** ** The abstract stack *)

Inductive lifo_step (t : tid) (a : fifo) : fifo → Prop :=
  | ls_stutter : lifo_step t a a
  | ls_call_push n :
      ff_st a t = QsIdle → lifo_step t a (Fifo (ff_items a) (<[t := QsPush n]> (ff_st a)) (ff_exc a))
  | ls_push n :
      ff_st a t = QsPush n → lifo_step t a (Fifo (n :: ff_items a) (<[t := QsPushed]> (ff_st a)) (ff_exc a))
  | ls_ret_push :
      ff_st a t = QsPushed → lifo_step t a (Fifo (ff_items a) (<[t := QsIdle]> (ff_st a)) (ff_exc a))
  | ls_call_pop :
      ff_st a t = QsIdle → lifo_step t a (Fifo (ff_items a) (<[t := QsPop]> (ff_st a)) (ff_exc a))
  | ls_pop n q :
      ff_st a t = QsPop → ff_items a = n :: q →
      lifo_step t a (Fifo q (<[t := QsPopped (Some n)]> (ff_st a)) (ff_exc a))
  | ls_fail :
      ff_st a t = QsPop → ff_items a = [] →
      lifo_step t a (Fifo (ff_items a) (<[t := QsPopped None]> (ff_st a)) (ff_exc a))
  | ls_ret_pop r :
      ff_st a t = QsPopped r → lifo_step t a (Fifo (ff_items a) (<[t := QsIdle]> (ff_st a)) (ff_exc a)).

Definition refines_lifo {L S} (Q : Queue L S) : Prop :=
  ∃ R : S → fifo → Prop,
    (∀ s, q_init s → R s fifo_empty) ∧
    (∀ t l s s' a, R s a → q_step t l s = Some s' → ∃ a', lifo_step t a a' ∧ R s' a') ∧
    (∀ s a t, R s a → q_status s t = ff_st a t).

(** A list of addresses linked through [nx]. *)
Fixpoint zlist (nx : Z → Z) (h : Z) (l : list Z) : Prop :=
  match l with
  | [] => h = 0
  | x :: l => h = x ∧ 0 < x ∧ zlist nx (nx x) l
  end.

(** ** Words *)

Lemma testbit_above a n w : 0 ≤ a < 2 ^ w → 0 ≤ w ≤ n → Z.testbit a n = false.
Proof.
  intros Ha Hn. destruct (decide (a = 0)) as [->|Hne]; [apply Z.bits_0|].
  apply Z.bits_above_log2; [lia|]. apply Z.log2_lt_pow2; [lia|].
  apply Z.lt_le_trans with (2 ^ w); [lia|apply Z.pow_le_mono_r; lia].
Qed.

Lemma aba_word a c : 0 ≤ a < 2 ^ 48 → 0 ≤ c → Z.lor a (c * 2 ^ 48) = a + c * 2 ^ 48.
Proof.
  intros Ha Hc. symmetry. rewrite <-Z.lxor_lor, <-Z.add_nocarry_lxor; try done.
  all: rewrite <-Z.shiftl_mul_pow2 by lia; apply Z.bits_inj'; intros n Hn;
    rewrite Z.land_spec, Z.shiftl_spec, Z.bits_0 by done.
  all: destruct (decide (n < 48)) as [Hlt|Hge];
    [rewrite (Z.testbit_neg_r c) by lia; apply andb_false_r|by rewrite (testbit_above a n 48) by lia].
Qed.

Lemma aba_addr_word a c : 0 ≤ a < 2 ^ 48 → ABA_ADDR (a + c * 2 ^ 48) = a.
Proof.
  intros Ha. unfold ABA_ADDR, ABA_ADDR_MASK, ABA_ADDR_BIT.
  replace (Z.shiftl 1 48 - 1) with (Z.ones 48) by done. rewrite Z.land_ones by lia.
  rewrite Z_mod_plus_full. by apply Z.mod_small.
Qed.

Lemma aba_count_word a c : 0 ≤ a < 2 ^ 48 → 0 ≤ c < 2 ^ 16 → ABA_COUNT (a + c * 2 ^ 48) = c * 2 ^ 48.
Proof.
  intros Ha Hc. unfold ABA_COUNT. assert (ABA_COUNT_MASK = Z.shiftl (Z.ones 16) 48) as -> by done.
  rewrite <-aba_word by lia. rewrite <-Z.shiftl_mul_pow2 by lia. apply Z.bits_inj'. intros n Hn.
  rewrite Z.land_spec, Z.lor_spec, !Z.shiftl_spec by done.
  destruct (decide (n < 48)) as [Hlt|Hge].
  - rewrite (Z.testbit_neg_r c), (Z.testbit_neg_r (Z.ones 16)) by lia. apply andb_false_r.
  - rewrite (testbit_above a n 48), Z.testbit_ones_nonneg by lia. simpl. destruct (decide (n - 48 < 16)).
    + rewrite (proj2 (Z.ltb_lt _ _)) by lia. by rewrite andb_true_r.
    + rewrite (testbit_above c (n - 48) 16) by lia. done.
Qed.

(** The word that an operation installs. *)
Lemma aba_next a b c k :
  0 ≤ a < 2 ^ 48 → 0 ≤ b < 2 ^ 48 → 0 ≤ c < 2 ^ 16 → 0 ≤ k →
  Z.lor a (u64 (ABA_COUNT (b + c * 2 ^ 48) + ABA_COUNT_ONE * k)) = a + (c + k) `mod` 2 ^ 16 * 2 ^ 48.
Proof.
  intros Ha Hb Hc Hk. rewrite aba_count_word by done.
  replace (c * 2 ^ 48 + ABA_COUNT_ONE * k) with ((c + k) * 2 ^ 48) by (change ABA_COUNT_ONE with (2 ^ 48); ring).
  unfold wrap_u. replace (2 ^ 64) with (2 ^ 16 * 2 ^ 48) by done. rewrite Zmult_mod_distr_r.
  apply aba_word; [done|]. apply Z.mod_pos_bound. lia.
Qed.

(** ** Linked lists *)

Lemma zlist_frame nx nx' h l : (∀ x, x ∈ l → nx' x = nx x) → zlist nx h l → zlist nx' h l.
Proof.
  revert h. induction l as [|x l IH]; intros h Hx; simpl; [done|]. intros (-> & Hp & Hl).
  split_and!; [done..|]. rewrite Hx by (by left). apply IH; [|done]. intros y Hy. apply Hx. by right.
Qed.

Lemma zlist_insert nx h l n v : n ∉ l → zlist nx h l → zlist (<[n := v]> nx) h l.
Proof. intros Hn. apply zlist_frame. intros x Hx. apply fn_lookup_insert_ne. by intros ->. Qed.

Lemma zlist_nil nx l : zlist nx 0 l → l = [].
Proof. destruct l; [done|]. simpl. lia. Qed.

Lemma zlist_det nx h l l' : zlist nx h l → zlist nx h l' → l = l'.
Proof.
  revert h l'. induction l as [|x l IH]; intros h l' Hl Hl'.
  - simpl in Hl. subst. symmetry. by eapply zlist_nil.
  - destruct l' as [|y l']; simpl in *; [lia|]. destruct Hl as (-> & _ & Hl), Hl' as (-> & _ & Hl').
    f_equal. by eapply IH.
Qed.

(** ** Invariant of the multi-consumer stack *)

Definition stack_priv (pc : stack_pc) : ptr :=
  match stack_status pc with QsPush n => Some n | QsPopped r => r | _ => None end.

(** A head word: an address and the low bits of a version. *)
Definition word_of (x v : Z) : Z := x + v `mod` 2 ^ 16 * 2 ^ 48.

(** [old] was the head at version [v]. *)
Definition held (v ops head old : Z) : Prop :=
  0 ≤ v ≤ ops ∧ ops < v + 2 ^ 16 ∧ (∃ x, 0 ≤ x < 2 ^ 48 ∧ old = word_of x v) ∧ (v = ops → old = head).

Definition stack_next (nx : Z → Z) (old : Z) : Z :=
  Z.lor (nx (ABA_ADDR old)) (u64 (ABA_COUNT old + ABA_COUNT_ONE)).

Definition thread_ok (head : Z) (nx : Z → Z) (ops v : Z) (pc : stack_pc) : Prop :=
  match pc with
  | SpPutLink n old => held v ops head old
  | SpPutCas n old => held v ops head old ∧ nx (Zpos n) = ABA_ADDR old
  | SpGetNext old => held v ops head old ∧ ABA_ADDR old ≠ 0
  | SpGetCas old new => held v ops head old ∧ ABA_ADDR old ≠ 0 ∧ (v = ops → new = stack_next nx old)
  | _ => True
  end.

Lemma word_range v : 0 ≤ v `mod` 2 ^ 16 < 2 ^ 16.
Proof. by apply Z.mod_pos_bound. Qed.

Lemma word_addr x v : 0 ≤ x < 2 ^ 48 → ABA_ADDR (word_of x v) = x.
Proof. apply aba_addr_word. Qed.

(** What an operation installs. *)
Lemma word_next x y v : 0 ≤ x < 2 ^ 48 → 0 ≤ y < 2 ^ 48 →
  Z.lor x (u64 (ABA_COUNT (word_of y v) + ABA_COUNT_ONE)) = word_of x (v + 1).
Proof.
  intros Hx Hy. unfold word_of. rewrite <-(Z.mul_1_r ABA_COUNT_ONE).
  rewrite aba_next by (done || lia || apply word_range). by rewrite Zplus_mod_idemp_l.
Qed.

(** A word that is still the head is of the current version. *)
Lemma held_current v ops x old : 0 ≤ x < 2 ^ 48 → held v ops (word_of x ops) old → old = word_of x ops → v = ops.
Proof.
  intros Hx (Hv & Hw & (y & Hy & ->) & _) Heq. unfold word_of in Heq.
  pose proof (word_range v). pose proof (word_range ops).
  assert (v `mod` 2 ^ 16 = ops `mod` 2 ^ 16) as Hm by lia.
  pose proof (Z.div_mod v (2 ^ 16) ltac:(lia)). pose proof (Z.div_mod ops (2 ^ 16) ltac:(lia)). nia.
Qed.

Lemma thread_frame head nx nx' ops v pc :
  thread_ok head nx ops v pc → (∀ n, stack_priv pc = Some n → nx' (Zpos n) = nx (Zpos n)) →
  nx' (ABA_ADDR head) = nx (ABA_ADDR head) →
  thread_ok head nx' ops v pc.
Proof.
  intros Ht Hp Hh. destruct pc; simpl in *; try done.
  - destruct Ht as [? <-]. split; [done|]. by apply Hp.
  - destruct Ht as (Hd & ? & Hn). split_and!; [done..|]. intros Hv. rewrite Hn by done.
    destruct Hd as (_ & _ & _ & Ho). rewrite Ho by done. unfold stack_next. by rewrite Hh.
Qed.

(** Another operation has succeeded. *)
Lemma thread_overtaken head nx head' nx' ops v pc :
  thread_ok head nx ops v pc → (held_head pc = None ∨ ops + 1 < v + 2 ^ 16) →
  (∀ n, stack_priv pc = Some n → nx' (Zpos n) = nx (Zpos n)) →
  thread_ok head' nx' (ops + 1) v pc.
Proof.
  intros Ht Hw Hp.
  assert (∀ old, held_head pc = Some old → held v ops head old → held v (ops + 1) head' old) as Hheld.
  { intros old Ho (Hv & _ & Hx & _). destruct Hw as [Hw|Hw]; [congruence|].
    split_and!; done || lia. }
  destruct pc; simpl in *; try done.
  - auto.
  - destruct Ht as [? <-]. split; [auto|]. by apply Hp.
  - destruct Ht. auto.
  - destruct Ht as (Hd & ? & _). split_and!; [auto|done|]. destruct Hd. lia.
Qed.

Section inv.
Context (nthreads : nat).

Record stack_inv (s : stack_state) (a : fifo) : Prop := {
  kv_head : ∃ x, 0 ≤ x < 2 ^ 48 ∧ sk_head s = word_of x (sk_ops s) ∧
    zlist (sk_next s) x (Zpos <$> ff_items a);
  kv_nodup : NoDup (ff_items a);
  kv_owned : owned stack_priv (sk_inuse s) (λ p, p ∈ ff_items a) (sk_pcs s);
  kv_addr n : n ∈ sk_inuse s → Zpos n < 2 ^ 48;
  kv_thread u : thread_ok (sk_head s) (sk_next s) (sk_ops s) (sk_ver s u) (sk_pcs s u);
  kv_active u : sk_pcs s u ≠ SpIdle → (u < nthreads)%nat;
  kv_ops : 0 ≤ sk_ops s;
  kv_status u : stack_status (sk_pcs s u) = ff_st a u;
}.

Section sim.
Context (s : stack_state) (a : fifo) (t : tid) (Hinv : stack_inv s a).

Local Notation sim s' := (∃ a', lifo_step t a a' ∧ stack_inv s' a').

(** The first element and its address. *)
Lemma head_item : 
  (ABA_ADDR (sk_head s) = 0 ∧ ff_items a = []) ∨
  (∃ n q, ff_items a = n :: q ∧ ABA_ADDR (sk_head s) = Zpos n ∧ zlist (sk_next s) (sk_next s (Zpos n)) (Zpos <$> q)).
Proof.
  destruct (kv_head s a Hinv) as (x & Hx & -> & Hl). rewrite word_addr by done.
  destruct (ff_items a) as [|n q]; [by left|right]. destruct Hl as (-> & _ & Hl). eauto 6.
Qed.

Lemma priv_fresh u n : stack_priv (sk_pcs s u) = Some n → n ∉ ff_items a ∧ n ∈ sk_inuse s.
Proof. intros Hn. by destruct (ow_priv _ _ _ _ (kv_owned s a Hinv) u n Hn). Qed.

(** Writing a word outside the stack that belongs to no other thread. *)
Lemma write_other n v u :
  n ∉ ff_items a → (∀ m, stack_priv (sk_pcs s u) = Some m → m ≠ n) →
  thread_ok (sk_head s) (<[Zpos n := v]> (sk_next s)) (sk_ops s) (sk_ver s u) (sk_pcs s u).
Proof.
  intros Hn Hu. apply (thread_frame _ (sk_next s)); [apply Hinv|..].
  - intros m Hm. apply fn_lookup_insert_ne. specialize (Hu m Hm). congruence.
  - apply fn_lookup_insert_ne. destruct head_item as [[-> _]|(m & q & Hi & -> & _)]; [done|].
    intros [= ->]. apply Hn. rewrite Hi. by left.
Qed.

Lemma zlist_write n v x l :
  n ∉ l → zlist (sk_next s) x (Zpos <$> l) → zlist (<[Zpos n := v]> (sk_next s)) x (Zpos <$> l).
Proof. intros Hn. apply zlist_insert. intros (m & [= ->] & Hm)%list_elem_of_fmap. done. Qed.

(** A step inside the operation that leaves the abstract state alone. *)
Lemma sim_stutter nx pc ver :
  stack_status pc = stack_status (sk_pcs s t) → (sk_pcs s t ≠ SpIdle) →
  (∀ x, zlist (sk_next s) x (Zpos <$> ff_items a) → zlist nx x (Zpos <$> ff_items a)) →
  (∀ u, u ≠ t → thread_ok (sk_head s) nx (sk_ops s) (ver u) (sk_pcs s u)) →
  thread_ok (sk_head s) nx (sk_ops s) (ver t) pc →
  sim (StackState (sk_head s) nx (sk_inuse s) (<[t := pc]> (sk_pcs s)) (sk_ops s) ver).
Proof.
  intros Hst Hact Hz Hu Ht. exists a. split; [constructor|]. destruct Hinv. split; simpl; try done.
  - destruct kv_head0 as (x & ? & ? & ?). eauto.
  - apply (owned_keep _ _ _ _ _ _ _ kv_owned0); [|done]. unfold stack_priv. by rewrite Hst.
  - intros u. same_tid t u; auto.
  - intros u. same_tid t u; auto.
  - intros u. same_tid t u; [by rewrite Hst|]; auto.
Qed.

(** An operation starts or ends. *)
Lemma sim_boundary pc inuse a' :
  lifo_step t a a' → a' = Fifo (ff_items a) (<[t := stack_status pc]> (ff_st a)) (ff_exc a) →
  held_head pc = None → (pc ≠ SpIdle → (t < nthreads)%nat) →
  owned stack_priv inuse (λ p, p ∈ ff_items a) (<[t := pc]> (sk_pcs s)) →
  (∀ n, n ∈ inuse → Zpos n < 2 ^ 48) →
  sim (StackState (sk_head s) (sk_next s) inuse (<[t := pc]> (sk_pcs s)) (sk_ops s) (sk_ver s)).
Proof.
  intros Hl Ha' Hh Hact Hown Haddr. exists a'. split; [done|]. subst a'. destruct Hinv. split; simpl; try done.
  - intros u. same_tid t u; [by destruct pc|auto].
  - intros u. same_tid t u; auto.
  - intros u. same_tid t u; auto.
Qed.

Lemma load_held : held (sk_ops s) (sk_ops s) (sk_head s) (sk_head s).
Proof.
  destruct (kv_head s a Hinv) as (x & ? & -> & ?). pose proof (kv_ops s a Hinv).
  split_and!; try lia; eauto.
Qed.

(** A successful compare-and-swap. *)
Lemma sim_success y items pc a' :
  window_ok nthreads s t = true → (t < nthreads)%nat →
  lifo_step t a a' → a' = Fifo items (<[t := stack_status pc]> (ff_st a)) (ff_exc a) →
  held_head pc = None → (pc ≠ SpIdle) →
  0 ≤ y < 2 ^ 48 → zlist (sk_next s) y (Zpos <$> items) → NoDup items →
  owned stack_priv (sk_inuse s) (λ p, p ∈ items) (<[t := pc]> (sk_pcs s)) →
  sim (StackState (word_of y (sk_ops s + 1)) (sk_next s) (sk_inuse s) (<[t := pc]> (sk_pcs s))
         (sk_ops s + 1) (sk_ver s)).
Proof.
  intros Hw Htn Hl Ha' Hh Hact Hy Hz Hnd Hown. exists a'. split; [done|]. subst a'.
  destruct Hinv. split; simpl; try done.
  - eauto.
  - intros u. same_tid t u; [by destruct pc|].
    apply (thread_overtaken (sk_head s) (sk_next s)); [auto| |done].
    destruct (decide (sk_pcs s u = SpIdle)) as [->|Hne]; [by left|].
    unfold window_ok in Hw. rewrite forallb_forall in Hw. specialize (Hw u).
    rewrite in_seq in Hw. specialize (Hw ltac:(specialize (kv_active0 u Hne); lia)).
    rewrite !orb_true_iff, !bool_decide_eq_true in Hw. naive_solver.
  - intros u. same_tid t u; auto.
  - lia.
  - intros u. same_tid t u; auto.
Qed.

(** ** Steps *)

Context (s' : stack_state).

Lemma sim_put_load n : sk_pcs s t = SpPutLoad n → stack_run nthreads t s = Some s' → sim s'.
Proof.
  intros Hpc Hs. unfold stack_run in Hs. rewrite Hpc in Hs. injection Hs as <-.
  apply sim_stutter; rewrite ?Hpc; try done.
  - intros u Hu. rewrite fn_lookup_insert_ne by done. apply Hinv.
  - simpl_fn. apply load_held.
Qed.

Lemma sim_put_link n old : sk_pcs s t = SpPutLink n old → stack_run nthreads t s = Some s' → sim s'.
Proof.
  intros Hpc Hs. unfold stack_run in Hs. rewrite Hpc in Hs. injection Hs as <-.
  assert (stack_priv (sk_pcs s t) = Some n) as Hpriv by by rewrite Hpc.
  destruct (priv_fresh t n Hpriv) as [Hfresh _].
  apply sim_stutter; rewrite ?Hpc; try done.
  - intros x. by apply zlist_write.
  - intros u Hu. apply write_other; [done|]. intros m Hm ->. apply Hu.
    apply (ow_sep _ _ _ _ (kv_owned s a Hinv) u t n Hm Hpriv).
  - simpl. pose proof (kv_thread s a Hinv t) as Ht. rewrite Hpc in Ht. by rewrite fn_lookup_insert.
Qed.

Lemma sim_put_cas n old : sk_pcs s t = SpPutCas n old → stack_run nthreads t s = Some s' → sim s'.
Proof.
  intros Hpc Hs. unfold stack_run in Hs. rewrite Hpc in Hs. simpl in Hs. unfold compare_and_swap64 in Hs.
  pose proof (kv_thread s a Hinv t) as Ht. rewrite Hpc in Ht. destruct Ht as [Hheld Hnext].
  assert (stack_priv (sk_pcs s t) = Some n) as Hpriv by by rewrite Hpc.
  destruct (priv_fresh t n Hpriv) as [Hfresh Hin].
  case_bool_decide as Heq.
  - destruct (window_ok nthreads s t) eqn:Hw; [|done]. injection Hs as <-.
    destruct (kv_head s a Hinv) as (x & Hx & Hhd & Hl).
    pose proof (kv_addr s a Hinv n Hin). rewrite <-Heq, Hhd, word_next by lia.
    rewrite <-Heq, Hhd, word_addr in Hnext by done.
    eapply (sim_success _ (n :: ff_items a)); try done.
    + apply (kv_active s a Hinv). by rewrite Hpc.
    + apply (ls_push t a n). rewrite <-(kv_status s a Hinv). by rewrite Hpc.
    + simpl. by rewrite Hnext.
    + constructor; [done|apply Hinv].
    + eapply owned_publish; [apply Hinv|done..|]. intros q. apply elem_of_cons.
  - injection Hs as <-. apply sim_stutter; rewrite ?Hpc; try done. intros u Hu. apply Hinv.
Qed.

Lemma sim_get_load : sk_pcs s t = SpGetLoad → stack_run nthreads t s = Some s' → sim s'.
Proof.
  intros Hpc Hs. unfold stack_run in Hs. rewrite Hpc in Hs. simpl in Hs.
  assert (∀ u, u ≠ t → thread_ok (sk_head s) (sk_next s) (sk_ops s) ((<[t := sk_ops s]> (sk_ver s)) u) (sk_pcs s u)) as Hoth.
  { intros u Hu. rewrite fn_lookup_insert_ne by done. apply Hinv. }
  assert (ff_st a t = QsPop) as Hst by (rewrite <-(kv_status s a Hinv), Hpc; done).
  case_bool_decide as Heq; injection Hs as <-.
  - destruct head_item as [[_ Hnil]|(? & ? & ? & ? & ?)]; [|congruence].
    eexists. split; [by apply ls_fail|]. destruct Hinv. split; simpl; try done.
    + apply (owned_keep _ _ _ _ _ _ _ kv_owned0); [|done]. by rewrite Hpc.
    + intros u. same_tid t u; [done|]. specialize (Hoth u). rewrite fn_lookup_insert_ne in Hoth by done. auto.
    + intros u. same_tid t u; [|auto]. intros _. apply kv_active0. by rewrite Hpc.
    + intros u. same_tid t u; auto.
  - apply sim_stutter; rewrite ?Hpc; try done. simpl_fn. split; [apply load_held|done].
Qed.

Lemma sim_get_next old : sk_pcs s t = SpGetNext old → stack_run nthreads t s = Some s' → sim s'.
Proof.
  intros Hpc Hs. unfold stack_run in Hs. rewrite Hpc in Hs. injection Hs as <-.
  pose proof (kv_thread s a Hinv t) as Ht. rewrite Hpc in Ht. destruct Ht as [Hheld Hne].
  apply sim_stutter; rewrite ?Hpc; try done. intros u Hu. apply Hinv.
Qed.

Lemma sim_get_cas old new : sk_pcs s t = SpGetCas old new → stack_run nthreads t s = Some s' → sim s'.
Proof.
  intros Hpc Hs. unfold stack_run in Hs. rewrite Hpc in Hs. simpl in Hs. unfold compare_and_swap64 in Hs.
  pose proof (kv_thread s a Hinv t) as Ht. rewrite Hpc in Ht. destruct Ht as (Hheld & Hne & Hnew).
  case_bool_decide as Heq.
  - destruct (window_ok nthreads s t) eqn:Hw; [|done]. injection Hs as <-.
    destruct (kv_head s a Hinv) as (x & Hx & Hhd & Hl).
    assert (sk_ver s t = sk_ops s) as Hver.
    { apply (held_current _ _ x old); [done| |]; [by rewrite <-Hhd|congruence]. }
    destruct head_item as [[? _]|(n & q & Hi & Hn & Hq)]; [congruence|].
    assert (n ∉ q ∧ NoDup q) as [Hnq Hndq] by (pose proof (kv_nodup s a Hinv) as Hd; rewrite Hi in Hd; by apply NoDup_cons).
    assert (0 ≤ sk_next s (Zpos n) < 2 ^ 48) as Hy.
    { destruct q as [|m q]; simpl in Hq; [lia|]. destruct Hq as (-> & _ & _). split; [lia|].
      apply (kv_addr s a Hinv), (ow_shared _ _ _ _ (kv_owned s a Hinv)). rewrite Hi. right. by left. }
    rewrite (Hnew Hver). unfold stack_next. rewrite <-Heq, Hn. rewrite Hhd, word_next by lia.
    eapply (sim_success _ q); try done.
    + apply (kv_active s a Hinv). by rewrite Hpc.
    + apply (ls_pop t a n q); [|done]. rewrite <-(kv_status s a Hinv). by rewrite Hpc.
    + eapply (owned_retire _ _ _ _ _ _ _ n); [apply Hinv|rewrite Hi; by left|by rewrite Hpc|done|].
      intros m. rewrite Hi, elem_of_cons. naive_solver.
  - injection Hs as <-. apply sim_stutter; rewrite ?Hpc; try done. intros u Hu. apply Hinv.
Qed.
End sim.
End inv.

(** ** Refinement *)

Lemma stack_sim_call nthreads s a t l s' :
  stack_inv nthreads s a → sk_pcs s t = SpIdle → stack_step nthreads t l s = Some s' →
  ∃ a', lifo_step t a a' ∧ stack_inv nthreads s' a'.
Proof.
  intros Hinv Hpc Hs. assert (ff_st a t = QsIdle) as Hst by (rewrite <-(kv_status _ s a Hinv), Hpc; done).
  unfold stack_step in Hs. rewrite Hpc in Hs. destruct l as [n| | |n v]; try done.
  - destruct (decide _) as [|Hn]; [done|]. injection Hs as <-.
    eapply (sim_boundary _ _ _ _ Hinv); [by apply (ls_call_push _ _ n)|done|done| | |].
    + intros _. destruct (decide (t < nthreads)%nat); naive_solver.
    + apply owned_alloc; [apply Hinv|naive_solver|by rewrite Hpc|done].
    + intros m [->%elem_of_singleton|Hm]%elem_of_union; [|by apply (kv_addr _ s a Hinv)].
      destruct (decide (Zpos n < 2 ^ 48)); naive_solver.
  - destruct (decide _) as [Ht|]; [|done]. injection Hs as <-.
    eapply (sim_boundary _ _ _ _ Hinv); [by apply ls_call_pop|done|done|done| |apply Hinv].
    eapply owned_keep; [apply Hinv|by rewrite Hpc|done].
  - unfold stack_run in Hs. by rewrite Hpc in Hs.
  - destruct (decide _) as [|Hn]; [done|]. injection Hs as <-.
    exists a. split; [constructor|].
    assert (n ∉ ff_items a) as Hni.
    { intros Hin. apply Hn. apply (ow_shared _ _ _ _ (kv_owned _ s a Hinv) n Hin). }
    split; simpl; try apply Hinv.
    + destruct (kv_head _ s a Hinv) as (x & ? & ? & ?). exists x. do 2 (split; [done|]). by apply zlist_write.
    + intros u. apply (write_other nthreads s a Hinv); [done|]. intros m Hm ->. apply Hn.
      apply (ow_priv _ _ _ _ (kv_owned _ s a Hinv) u n Hm).
Qed.

Lemma stack_sim_return nthreads s a t pc s' :
  stack_inv nthreads s a → sk_pcs s t = pc → (pc = SpPutRet ∨ ∃ r, pc = SpGetRet r) →
  stack_step nthreads t SlRun s = Some s' →
  ∃ a', lifo_step t a a' ∧ stack_inv nthreads s' a'.
Proof.
  intros Hinv Hpc Hret Hs. assert (ff_st a t = stack_status pc) as Hst by (rewrite <-(kv_status _ s a Hinv), Hpc; done).
  unfold stack_step in Hs. rewrite Hpc in Hs. destruct Hret as [->|[r ->]]; injection Hs as <-.
  - eapply (sim_boundary _ _ _ _ Hinv); [by apply ls_ret_push|done|done|done| |apply Hinv].
    eapply owned_keep; [apply Hinv|by rewrite Hpc|done].
  - eapply (sim_boundary _ _ _ _ Hinv); [by eapply ls_ret_pop|done|done|done| |].
    + destruct (ptr_of r) as [n|] eqn:Hr.
      * apply owned_free; [apply Hinv|by rewrite Hpc|done].
      * eapply owned_keep; [apply Hinv|by rewrite Hpc|done].
    + intros m Hm. apply (kv_addr _ s a Hinv). destruct (ptr_of r); set_solver.
Qed.

Lemma stack_sim nthreads s a t l s' :
  stack_inv nthreads s a → stack_step nthreads t l s = Some s' →
  ∃ a', lifo_step t a a' ∧ stack_inv nthreads s' a'.
Proof.
  intros Hinv Hs. destruct (decide (sk_pcs s t = SpIdle)) as [Hpc|Hne].
  { by apply (stack_sim_call nthreads s a t l). }
  assert (l = SlRun) as -> by (unfold stack_step in Hs; destruct (sk_pcs s t), l; done).
  destruct (sk_pcs s t) as [| n| n old| n old | | | old | old new | r] eqn:Hpc; [done|..];
    try (eapply stack_sim_return; by eauto);
    unfold stack_step in Hs; rewrite Hpc in Hs.
  - exact (sim_put_load nthreads s a t Hinv s' n Hpc Hs).
  - exact (sim_put_link nthreads s a t Hinv s' n old Hpc Hs).
  - exact (sim_put_cas nthreads s a t Hinv s' n old Hpc Hs).
  - exact (sim_get_load nthreads s a t Hinv s' Hpc Hs).
  - exact (sim_get_next nthreads s a t Hinv s' old Hpc Hs).
  - exact (sim_get_cas nthreads s a t Hinv s' old new Hpc Hs).
Qed.

Lemma stack_inv_init nthreads s : stack_init s → stack_inv nthreads s fifo_empty.
Proof.
  intros (Hh & Hu & Hp & Ho). split; rewrite ?Hh, ?Hu, ?Hp, ?Ho; simpl; try done.
  - by exists 0.
  - constructor.
  - split; set_solver.
Qed.

(** C31: SSMalloc's multi-consumer queue is a linearizable LIFO stack: while a
    thread is inside an operation fewer than 2^16 operations of others
    succeed, and then no element is lost, duplicated or handed out twice. *)
Theorem mc_stack_lifo nthreads : refines_lifo (mc_stack nthreads).
Proof.
  exists (stack_inv nthreads). split_and!.
  - apply stack_inv_init.
  - intros t l s s' a. apply stack_sim.
  - intros s a t Hinv. apply Hinv.
Qed.

(** ** Without interference *)

Fixpoint run_alone {PC} (step : Z → (Z → Z) → PC → option (Z * (Z → Z) * PC))
    (n : nat) (head : Z) (nx : Z → Z) (pc : PC) : Z * (Z → Z) * PC :=
  match n with
  | O => (head, nx, pc)
  | S n =>
      match step head nx pc with
      | Some (head, nx, pc) => run_alone step n head nx pc
      | None => (head, nx, pc)
      end
  end.

Ltac alone :=
  intros; cbv beta iota zeta delta [run_alone mc_enqueue mc_dequeue sc_enqueue sc_dequeue counted_enqueue counted_chain_enqueue
    counted_chain_dequeue compare_and_swap64 compare_and_swap64_value mc_put sc_put counted_chain_put];
  repeat first [rewrite !bool_decide_true by done | case_bool_decide]; try done.

Lemma mc_put_alone head nx n :
  run_alone mc_enqueue 3 head nx (SpPutLoad n) = (mc_put head nx (Zpos n), SpPutRet).
Proof. alone. Qed.

Lemma mc_fetch_alone head nx :
  run_alone mc_dequeue 3 head nx SpGetLoad = ((mc_fetch head nx).2, nx, SpGetRet (mc_fetch head nx).1).
Proof. unfold mc_fetch. alone. Qed.

Lemma sc_put_alone head nx n :
  run_alone sc_enqueue 3 head nx (SpPutLoad n) = (sc_put head nx (Zpos n), SpPutRet).
Proof. alone. Qed.

Lemma sc_fetch_alone head nx :
  run_alone sc_dequeue 3 head nx SpGetLoad = ((sc_fetch head nx).2, nx, SpGetRet (sc_fetch head nx).1).
Proof. unfold sc_fetch. alone. Qed.

Lemma counted_chain_put_alone head nx elems tail cnt :
  run_alone counted_chain_enqueue 3 head nx (CpPutLoad elems tail cnt) =
    let '(prev, head', nx') := counted_chain_put head nx elems tail cnt in (head', nx', CpPutRet prev).
Proof. alone. Qed.

Lemma counted_enqueue_alone head nx elem t c :
  run_alone counted_enqueue 3 head nx (CpPutLoad elem t c) =
  run_alone counted_chain_enqueue 3 head nx (CpPutLoad elem elem 1).
Proof. alone. Qed.

Lemma counted_chain_fetch_alone head nx :
  run_alone counted_chain_dequeue 2 head nx CpTakeLoad =
    let '(r, head', count) := counted_chain_fetch head in (head', nx, CpTakeRet r count).
Proof. unfold counted_chain_fetch. alone. Qed.

(** ** The window is needed

    The version has 16 bits.  The stack holds 64, 128 and 192; a thread has
    loaded the head and the successor 128 of 64.  Another thread takes the
    three elements, keeps two of them, and puts and takes the first one until
    2^16 operations have succeeded.  The compare-and-swap of the first thread
    then succeeds, and the element 128 that the other thread owns is back in
    the stack. *)

Definition aba_next0 : Z → Z := <[64 := 128]> (<[128 := 192]> (λ _, 0)).

Fixpoint aba_churn (k : nat) (h : Z * (Z → Z)) : Z * (Z → Z) :=
  match k with
  | O => h
  | S k => aba_churn k (let '(r, h') := mc_fetch h.1 h.2 in mc_put h' h.2 r)
  end.

Definition aba_others : list Z * (Z * (Z → Z)) :=
  let '(r1, h1) := mc_fetch 64 aba_next0 in
  let '(r2, h2) := mc_fetch h1 aba_next0 in
  let '(r3, h3) := mc_fetch h2 aba_next0 in
  ([r2; r3], aba_churn (Z.to_nat (2 ^ 15 - 2)) (mc_put h3 aba_next0 r1)).

Lemma mc_dequeue_wraps :
  let '(kept, (head, nx)) := aba_others in
  let '(h, _, pc) := run_alone mc_dequeue 2 64 aba_next0 SpGetLoad in
  let '(head', _, pc') := run_alone mc_dequeue 1 head nx pc in
  kept = [128; 192] ∧ (ABA_ADDR head = 64 ∧ nx 64 = 0) ∧ pc' = SpGetRet 64 ∧ ABA_ADDR head' = 128.
Proof. vm_compute. done. Qed.
