(* ===== verification/SsStacks.v ===== *)
(** * The single-consumer and the counted stack of SSMalloc ([include-x86_64/queue.h])

    The stacks between a heap and the threads that free its blocks.  Chunks
    with remotely freed blocks wait in a single-consumer stack: many threads
    put, the owner takes.  The blocks themselves wait in a counted stack: a
    thread puts a whole chain at once, the owner takes everything together
    with the number of blocks.  Both are linearizable without any bound on how
    often an operation is overtaken, unlike the multi-consumer stack of
    [SsQueue]. *)

From S2P Require Import Prelude Lts Nodes QueueSpec SsQueue.

Local Open Scope Z_scope.

(** ** The single-consumer stack *)

Record sc_state := ScState {
  sc_head : Z;
  sc_next : Z → Z;
  sc_inuse : gset loc;       (** elements inside the stack or in a call *)
  sc_pcs : tid → stack_pc;
}.

Section sc.
Context (consumer : tid).

Definition sc_run (t : tid) (s : sc_state) : option sc_state :=
  let pc := sc_pcs s t in
  '(h, nx, pc') ← match pc with
    | SpPutLoad _ | SpPutLink _ _ | SpPutCas _ _ => sc_enqueue (sc_head s) (sc_next s) pc
    | _ => sc_dequeue (sc_head s) (sc_next s) pc
    end;
  Some (ScState h nx (sc_inuse s) (<[t := pc']> (sc_pcs s))).

Definition sc_step (t : tid) (l : stack_label) (s : sc_state) : option sc_state :=
  let ret pc inuse := Some (ScState (sc_head s) (sc_next s) inuse (<[t := pc]> (sc_pcs s))) in
  match sc_pcs s t, l with
  | SpIdle, SlCallPut n =>
      if decide (n ∈ sc_inuse s) then None else ret (SpPutLoad n) ({[n]} ∪ sc_inuse s)
  | SpIdle, SlCallGet => if decide (t = consumer) then ret SpGetLoad (sc_inuse s) else None
  | SpIdle, SlWrite n v =>
      if decide (n ∈ sc_inuse s) then None
      else Some (ScState (sc_head s) (<[Zpos n := v]> (sc_next s)) (sc_inuse s) (sc_pcs s))
  | SpPutRet, SlRun => ret SpIdle (sc_inuse s)
  | SpGetRet r, SlRun =>
      ret SpIdle (match ptr_of r with Some n => sc_inuse s ∖ {[n]} | None => sc_inuse s end)
  | _, SlRun => sc_run t s
  | _, _ => None
  end.

Definition sc_init (s : sc_state) : Prop :=
  sc_head s = sc_queue_init ∧ sc_inuse s = ∅ ∧ sc_pcs s = (λ _, SpIdle).

Definition sc_stack : Queue stack_label sc_state := {|
  q_init := sc_init;
  q_step := sc_step;
  q_status := λ s t, stack_status (sc_pcs s t);
|}.

(** What a thread inside an operation relies on.  An element that the consumer
    has seen at the head stays in the stack until the consumer takes it. *)
Definition sc_thread_ok (nx : Z → Z) (items : list loc) (pc : stack_pc) : Prop :=
  match pc with
  | SpPutCas n old => nx (Zpos n) = old
  | SpGetNext old => old ∈ Zpos <$> items
  | SpGetCas old new => old ∈ Zpos <$> items ∧ new = nx old
  | _ => True
  end.

Definition sc_getting (pc : stack_pc) : bool :=
  match pc with SpGetLoad | SpGetNext _ | SpGetCas _ _ | SpGetRet _ => true | _ => false end.

Record sc_inv (s : sc_state) (a : fifo) : Prop := {
  sv_head : zlist (sc_next s) (sc_head s) (Zpos <$> ff_items a);
  sv_nodup : NoDup (ff_items a);
  sv_owned : owned stack_priv (sc_inuse s) (λ p, p ∈ ff_items a) (sc_pcs s);
  sv_thread u : sc_thread_ok (sc_next s) (ff_items a) (sc_pcs s u);
  sv_consumer u : sc_getting (sc_pcs s u) = true → u = consumer;
  sv_status u : stack_status (sc_pcs s u) = ff_st a u;
}.

(** Writes to elements outside the stack. *)
Lemma sc_write s a n v u :
  sc_inv s a → n ∉ ff_items a → (∀ m, stack_priv (sc_pcs s u) = Some m → m ≠ n) →
  sc_thread_ok (<[Zpos n := v]> (sc_next s)) (ff_items a) (sc_pcs s u).
Proof.
  intros Hinv Hn Hu. pose proof (sv_thread s a Hinv u) as Ht. destruct (sc_pcs s u) eqn:Hpc; simpl in *; try done.
  - rewrite fn_lookup_insert_ne; [done|]. specialize (Hu element eq_refl). congruence.
  - destruct Ht as [Hin ->]. split; [done|]. rewrite fn_lookup_insert_ne; [done|].
    intros <-. apply list_elem_of_fmap in Hin as (m & [= ->] & Hm). done.
Qed.

Lemma sc_zlist_write s l n v x :
  n ∉ l → zlist (sc_next s) x (Zpos <$> l) → zlist (<[Zpos n := v]> (sc_next s)) x (Zpos <$> l).
Proof. intros Hn. apply zlist_insert. intros (m & [= ->] & Hm)%list_elem_of_fmap. done. Qed.

Section sim.
Context (s : sc_state) (a : fifo) (t : tid) (Hinv : sc_inv s a).

Local Notation sim s' := (∃ a', lifo_step t a a' ∧ sc_inv s' a').

(** What is left to show of a step that ends in [pc] and [a']. *)
Lemma sc_move h nx inuse pc a' :
  lifo_step t a a' → (ff_st a' = ff_st a ∧ stack_status pc = stack_status (sc_pcs s t) ∨ ff_st a' = <[t := stack_status pc]> (ff_st a)) →
  (sc_getting pc = true → t = consumer) →
  zlist nx h (Zpos <$> ff_items a') → NoDup (ff_items a') →
  owned stack_priv inuse (λ p, p ∈ ff_items a') (<[t := pc]> (sc_pcs s)) →
  (∀ u, u ≠ t → sc_thread_ok nx (ff_items a') (sc_pcs s u)) → sc_thread_ok nx (ff_items a') pc →
  sim (ScState h nx inuse (<[t := pc]> (sc_pcs s))).
Proof.
  intros Hl Hst Hc Hz Hnd Hown Hu Ht. exists a'. split; [done|]. split; simpl; try done.
  - intros u. same_tid t u; auto.
  - intros u. same_tid t u; [done|]. apply Hinv.
  - intros u. same_tid t u.
    + destruct Hst as [[-> ->]| ->]; [apply Hinv|by rewrite fn_lookup_insert].
    + destruct Hst as [[-> _]| ->]; [|rewrite fn_lookup_insert_ne by done]; apply Hinv.
Qed.

(** A step inside an operation that changes neither the stack nor the links. *)
Lemma sc_quiet pc :
  stack_status pc = stack_status (sc_pcs s t) → (sc_getting pc = true → t = consumer) →
  sc_thread_ok (sc_next s) (ff_items a) pc →
  sim (ScState (sc_head s) (sc_next s) (sc_inuse s) (<[t := pc]> (sc_pcs s))).
Proof.
  intros Hst Hc Ht. apply (sc_move _ _ _ _ a); [apply ls_stutter|by left|done|apply Hinv|apply Hinv| | |done].
  - eapply owned_keep; [apply Hinv| |done]. unfold stack_priv. by rewrite Hst.
  - intros u _. apply Hinv.
Qed.

(** The elements other threads have seen stay when one is put ... *)
Lemma sc_ok_put nx n u : sc_thread_ok nx (ff_items a) (sc_pcs s u) → sc_thread_ok nx (n :: ff_items a) (sc_pcs s u).
Proof.
  destruct (sc_pcs s u); simpl; try done.
  - intros Hin. by right.
  - intros [Hin ->]. split; [by right|done].
Qed.

(** ... and only the consumer has seen any. *)
Lemma sc_ok_take nx q u :
  t = consumer → u ≠ t → sc_thread_ok nx (ff_items a) (sc_pcs s u) → sc_thread_ok nx q (sc_pcs s u).
Proof.
  intros -> Hu. pose proof (sv_consumer s a Hinv u) as Hc. destruct (sc_pcs s u); simpl in *; try done; by destruct Hu, Hc.
Qed.

Lemma sc_sim_put n old :
  sc_pcs s t = SpPutCas n old → sc_head s = old →
  sim (ScState (Zpos n) (sc_next s) (sc_inuse s) (<[t := SpPutRet]> (sc_pcs s))).
Proof.
  intros Hpc Hh. pose proof (sv_thread s a Hinv t) as Ht. rewrite Hpc in Ht. simpl in Ht.
  assert (stack_priv (sc_pcs s t) = Some n) as Hpriv by by rewrite Hpc.
  destruct (ow_priv _ _ _ _ (sv_owned s a Hinv) t n Hpriv) as [_ Hn].
  apply (sc_move _ _ _ _ (Fifo (n :: ff_items a) (<[t := QsPushed]> (ff_st a)) (ff_exc a))); simpl; try done.
  - apply ls_push. rewrite <-(sv_status s a Hinv). by rewrite Hpc.
  - by right.
  - split_and!; [done..|]. rewrite Ht, <-Hh. apply Hinv.
  - constructor; [done|apply Hinv].
  - eapply owned_publish; [apply Hinv|done..|]. intros q. apply elem_of_cons.
  - intros u Hu. apply sc_ok_put, Hinv.
Qed.

Lemma sc_sim_take old new :
  sc_pcs s t = SpGetCas old new → sc_head s = old →
  sim (ScState new (sc_next s) (sc_inuse s) (<[t := SpGetRet old]> (sc_pcs s))).
Proof.
  intros Hpc Hh. pose proof (sv_thread s a Hinv t) as Ht. rewrite Hpc in Ht. destruct Ht as [Hin ->].
  pose proof (sv_consumer s a Hinv t ltac:(by rewrite Hpc)) as Hc.
  pose proof (sv_head s a Hinv) as Hz. pose proof (sv_nodup s a Hinv) as Hnd.
  destruct (ff_items a) as [|n q] eqn:Hi; [by apply not_elem_of_nil in Hin|]. destruct Hz as (Hn & _ & Hz).
  assert (old = Zpos n) as -> by congruence. apply NoDup_cons in Hnd as [Hnq Hnd].
  apply (sc_move _ _ _ _ (Fifo q (<[t := QsPopped (Some n)]> (ff_st a)) (ff_exc a))); simpl; try done.
  - apply (ls_pop t a n q); [|done]. rewrite <-(sv_status s a Hinv). by rewrite Hpc.
  - by right.
  - eapply (owned_retire _ _ _ _ _ _ _ n); [apply Hinv|rewrite Hi; by left|by rewrite Hpc|done|].
    intros m. rewrite Hi, elem_of_cons. naive_solver.
  - intros u Hu. apply sc_ok_take; [done..|]. apply Hinv.
Qed.

Lemma sc_sim_run s' : sc_run t s = Some s' → sim s'.
Proof.
  intros Hs. unfold sc_run in Hs. pose proof (sv_thread s a Hinv t) as Ht. pose proof (sv_consumer s a Hinv t) as Hc.
  pose proof (sv_status s a Hinv t) as Hst. pose proof (sv_head s a Hinv) as Hz.
  destruct (sc_pcs s t) as [|n|n old|n old| | |old|old new|r] eqn:Hpc; simpl in *; simplify_eq; try done.
  - apply sc_quiet; by rewrite ?Hpc.
  - assert (stack_priv (sc_pcs s t) = Some n) as Hpriv by by rewrite Hpc.
    destruct (ow_priv _ _ _ _ (sv_owned s a Hinv) t n Hpriv) as [_ Hn].
    apply (sc_move _ _ _ _ a); [apply ls_stutter|left; by rewrite Hpc|done|by apply sc_zlist_write|apply Hinv| | |].
    + eapply owned_keep; [apply Hinv|by rewrite Hpc|done].
    + intros u Hu. apply sc_write; [done..|]. intros m Hm ->. apply Hu.
      apply (ow_sep _ _ _ _ (sv_owned s a Hinv) u t n Hm Hpriv).
    + simpl. by rewrite fn_lookup_insert.
  - unfold compare_and_swap64 in Hs. case_bool_decide as Heq; simplify_eq/=; [by eapply sc_sim_put|].
    apply sc_quiet; by rewrite ?Hpc.
  - case_bool_decide as Heq; simplify_eq/=.
    + assert (ff_items a = []) as Hnil.
      { rewrite Heq in Hz. by apply zlist_nil, fmap_nil_inv in Hz. }
      apply (sc_move _ _ _ _ (Fifo (ff_items a) (<[t := QsPopped None]> (ff_st a)) (ff_exc a))); simpl; try done.
      * apply ls_fail; congruence.
      * by right.
      * apply Hinv.
      * eapply owned_keep; [apply Hinv|by rewrite Hpc|done].
      * intros u _. apply Hinv.
    + apply sc_quiet; rewrite ?Hpc; try done. simpl. destruct (ff_items a) as [|n q]; [done|]. destruct Hz as (-> & _). by left.
  - apply sc_quiet; by rewrite ?Hpc.
  - unfold compare_and_swap64 in Hs. case_bool_decide as Heq; simplify_eq/=; [by eapply sc_sim_take|].
    apply sc_quiet; by rewrite ?Hpc.
Qed.

Lemma sc_sim l s' : sc_step t l s = Some s' → sim s'.
Proof.
  intros Hs. unfold sc_step in Hs. pose proof (sv_status s a Hinv t) as Hst.
  destruct (sc_pcs s t) as [|n|n old|n old| | |old|old new|r] eqn:Hpc, l as [m| | |m v]; try done; try (by apply sc_sim_run).
  - (* a call of enqueue *) case_decide as Hm; [done|]. simplify_eq.
    apply (sc_move _ _ _ _ (Fifo (ff_items a) (<[t := QsPush m]> (ff_st a)) (ff_exc a))); simpl; try done; try apply Hinv.
    + by apply ls_call_push.
    + by right.
    + apply owned_alloc; [apply Hinv|done|by rewrite Hpc|done].
    + intros u _. apply Hinv.
  - (* a call of dequeue *) case_decide as Hm; [|done]. injection Hs as <-.
    apply (sc_move _ _ _ _ (Fifo (ff_items a) (<[t := QsPop]> (ff_st a)) (ff_exc a))); simpl; try done; try apply Hinv.
    + by apply ls_call_pop.
    + by right.
    + eapply owned_keep; [apply Hinv|by rewrite Hpc|done].
    + intros u _. apply Hinv.
  - (* a client writes *) case_decide as Hm; [done|]. simplify_eq. exists a. split; [constructor|].
    assert (m ∉ ff_items a) as Hn.
    { intros Hin. apply Hm, (ow_shared _ _ _ _ (sv_owned s a Hinv)), Hin. }
    split; simpl; try apply Hinv; [by apply sc_zlist_write; [|apply Hinv]|].
    intros u. apply sc_write; [done..|]. intros k Hk ->. by apply Hm, (ow_priv _ _ _ _ (sv_owned s a Hinv) u m).
  - (* enqueue returns *) simplify_eq.
    apply (sc_move _ _ _ _ (Fifo (ff_items a) (<[t := QsIdle]> (ff_st a)) (ff_exc a))); simpl; try done; try apply Hinv.
    + by apply ls_ret_push.
    + by right.
    + eapply owned_keep; [apply Hinv|by rewrite Hpc|done].
    + intros u _. apply Hinv.
  - (* dequeue returns *) simplify_eq.
    apply (sc_move _ _ _ _ (Fifo (ff_items a) (<[t := QsIdle]> (ff_st a)) (ff_exc a))); simpl; try done; try apply Hinv.
    + by eapply ls_ret_pop.
    + by right.
    + destruct (ptr_of r) as [n|] eqn:Hr; [by apply owned_free; [apply Hinv|rewrite Hpc|]|].
      eapply owned_keep; [apply Hinv|by rewrite Hpc|done].
    + intros u _. apply Hinv.
Qed.
End sim.
End sc.

(** ** The counted stack *)

Record ck_state := CkState {
  ck_head : Z;
  ck_next : Z → Z;
  ck_inuse : gset loc;                  (** elements inside the stack or in a call *)
  ck_pcs : tid → option chain_pc;       (** [None]: not in a call *)
}.

(** A caller puts the chain of the given elements; one that has taken a chain
    walks it. *)
Inductive ck_label :=
  | CkCallPut (l : list loc)
  | CkCallTake
  | CkRun
  | CkReturn (l : list loc)
  | CkWrite (n : loc) (v : Z).

(** Each element of the chain points to the next one. *)
Fixpoint chained (nx : Z → Z) (l : list loc) : Prop :=
  match l with
  | [] => True
  | x :: l => match l with [] => True | y :: _ => nx (Zpos x) = Zpos y end ∧ chained nx l
  end.

#[export] Instance chained_dec nx l : Decision (chained nx l).
Proof. induction l as [|x [|y l] IH]; simpl; apply _. Defined.

#[export] Instance zlist_dec nx h l : Decision (zlist nx h l).
Proof. revert h. induction l as [|x l IH]; simpl; apply _. Defined.

Definition first_of (l : list loc) : Z := match l with x :: _ => Zpos x | [] => 0 end.
Definition last_of (l : list loc) : Z := match last l with Some x => Zpos x | None => 0 end.

Definition ck_run (s : ck_state) (pc : chain_pc) : option (Z * (Z → Z) * chain_pc) :=
  match pc with
  | CpTakeLoad | CpTakeCas _ => counted_chain_dequeue (ck_head s) (ck_next s) pc
  | _ => counted_chain_enqueue (ck_head s) (ck_next s) pc
  end.

Definition ck_step (t : tid) (l : ck_label) (s : ck_state) : option ck_state :=
  let ret pc inuse := Some (CkState (ck_head s) (ck_next s) inuse (<[t := pc]> (ck_pcs s))) in
  match ck_pcs s t, l with
  | None, CkCallPut l =>
      (* a chain of elements of the caller, with addresses of at most 48 bits *)
      if decide (l ≠ [] ∧ Z.of_nat (length l) < 2 ^ 31 ∧ NoDup l ∧ chained (ck_next s) l ∧ Forall (λ x, x ∉ ck_inuse s ∧ Zpos x < 2 ^ 48) l) then
        ret (Some (CpPutLoad (first_of l) (last_of l) (length l))) (list_to_set l ∪ ck_inuse s)
      else None
  | None, CkCallTake => ret (Some CpTakeLoad) (ck_inuse s)
  | None, CkWrite n v =>
      if decide (n ∈ ck_inuse s) then None
      else Some (CkState (ck_head s) (<[Zpos n := v]> (ck_next s)) (ck_inuse s) (ck_pcs s))
  | Some (CpPutRet _), CkRun => ret None (ck_inuse s)
  | Some (CpTakeRet r _), CkReturn l =>
      if decide (zlist (ck_next s) r (Zpos <$> l)) then ret None (ck_inuse s ∖ list_to_set l) else None
  | Some pc, CkRun =>
      '(h, nx, pc') ← ck_run s pc;
      Some (CkState h nx (ck_inuse s) (<[t := Some pc']> (ck_pcs s)))
  | _, _ => None
  end.

Definition ck_init (s : ck_state) : Prop :=
  ck_head s = 0 ∧ ck_inuse s = ∅ ∧ ck_pcs s = (λ _, None).

#[export] Instance counted_stack : Lts (tid * ck_label) ck_state := {
  lts_init := ck_init;
  lts_step := λ '(t, l) s, ck_step t l s;
}.

(** ** The abstract counted stack

    A chain is put on top in one step, which tells whether the stack was
    empty; everything is taken in one step. *)

Inductive ck_status :=
  | CsIdle | CsPut (l : list loc) | CsPutDone (was_empty : bool) | CsTake | CsTaken (l : list loc).

Record counted := Counted { ct_items : list loc; ct_st : tid → ck_status }.

(** The label of a step decides what it may do: a call enters the very chain
    that the caller passes, a caller walks the very chain it has taken, and a
    write of the client changes nothing. *)
Inductive counted_step (t : tid) (a : counted) : ck_label → counted → Prop :=
  | cs_stutter : counted_step t a CkRun a
  | cs_write n v : counted_step t a (CkWrite n v) a
  | cs_call_put l :
      ct_st a t = CsIdle → counted_step t a (CkCallPut l) (Counted (ct_items a) (<[t := CsPut l]> (ct_st a)))
  | cs_put l :
      ct_st a t = CsPut l →
      counted_step t a CkRun
        (Counted (l ++ ct_items a) (<[t := CsPutDone (bool_decide (ct_items a = []))]> (ct_st a)))
  | cs_ret_put b : ct_st a t = CsPutDone b → counted_step t a CkRun (Counted (ct_items a) (<[t := CsIdle]> (ct_st a)))
  | cs_call_take : ct_st a t = CsIdle → counted_step t a CkCallTake (Counted (ct_items a) (<[t := CsTake]> (ct_st a)))
  | cs_take : ct_st a t = CsTake → counted_step t a CkRun (Counted [] (<[t := CsTaken (ct_items a)]> (ct_st a)))
  | cs_ret_take l :
      ct_st a t = CsTaken l → counted_step t a (CkReturn l) (Counted (ct_items a) (<[t := CsIdle]> (ct_st a))).

(** Where a thread stands in the code is where it stands in the abstract stack,
    with the arguments of the call and with what the caller is told. *)
Definition ck_agrees (s : ck_state) (a : counted) (t : tid) : Prop :=
  match ck_pcs s t with
  | None => ct_st a t = CsIdle
  | Some (CpPutLoad elems tail cnt) | Some (CpPutLink elems tail cnt _) | Some (CpPutCas elems tail cnt _) =>
      ∃ l, ct_st a t = CsPut l ∧ elems = first_of l ∧ tail = last_of l ∧ cnt = length l ∧ chained (ck_next s) l
  | Some (CpPutRet prev) => ct_st a t = CsPutDone (bool_decide (prev = 0))
  | Some CpTakeLoad | Some (CpTakeCas _) => ct_st a t = CsTake
  | Some (CpTakeRet r count) =>
      ∃ l, ct_st a t = CsTaken l ∧ zlist (ck_next s) r (Zpos <$> l) ∧
        count = if decide (l = []) then None else Some (Z.of_nat (length l) `mod` 2 ^ 16)
  end.

(** ** Invariant *)

Definition mine (st : ck_status) : list loc :=
  match st with CsPut l | CsTaken l => l | _ => [] end.

Definition ck_word (l : list loc) : Z := first_of l + Z.of_nat (length l) `mod` 2 ^ 16 * 2 ^ 48.

Definition wordlike (w : Z) : Prop := ∃ x k, 0 ≤ x < 2 ^ 48 ∧ 0 ≤ k < 2 ^ 16 ∧ w = x + k * 2 ^ 48.

Record chain_ok (nx : Z → Z) (l : list loc) (elems tail cnt : Z) : Prop := {
  co_ne : l ≠ [];
  co_nodup : NoDup l;
  co_elems : elems = first_of l;
  co_tail : tail = last_of l;
  co_cnt : cnt = length l;
  co_links : chained nx l;
}.

Definition ck_ok (nx : Z → Z) (pc : option chain_pc) (st : ck_status) : Prop :=
  match pc, st with
  | None, CsIdle | Some CpTakeLoad, CsTake => True
  | Some (CpTakeCas old), CsTake => old ≠ 0
  | Some (CpPutLoad e t c), CsPut l => chain_ok nx l e t c
  | Some (CpPutLink e t c old), CsPut l => chain_ok nx l e t c ∧ wordlike old
  | Some (CpPutCas e t c old), CsPut l => chain_ok nx l e t c ∧ wordlike old ∧ nx t = ABA_ADDR old
  | Some (CpPutRet prev), CsPutDone b => b = bool_decide (prev = 0)
  | Some (CpTakeRet r count), CsTaken l =>
      zlist nx r (Zpos <$> l) ∧ count = if decide (l = []) then None else Some (Z.of_nat (length l) `mod` 2 ^ 16)
  | _, _ => False
  end.

Record ck_inv (s : ck_state) (a : counted) : Prop := {
  cv_head : ck_head s = ck_word (ct_items a);
  cv_list : zlist (ck_next s) (first_of (ct_items a)) (Zpos <$> ct_items a);
  cv_nodup : NoDup (ct_items a);
  cv_addr x : x ∈ ck_inuse s → Zpos x < 2 ^ 48;
  cv_items x : x ∈ ct_items a → x ∈ ck_inuse s;
  cv_mine u x : x ∈ mine (ct_st a u) → x ∈ ck_inuse s ∧ x ∉ ct_items a;
  cv_sep u v x : x ∈ mine (ct_st a u) → x ∈ mine (ct_st a v) → u = v;
  cv_thread u : ck_ok (ck_next s) (ck_pcs s u) (ct_st a u);
}.

(** ** Chains and lists *)

Lemma chained_frame nx nx' l : (∀ x, x ∈ l → nx' (Zpos x) = nx (Zpos x)) → chained nx l → chained nx' l.
Proof.
  induction l as [|x l IH]; simpl; [done|]. intros Hx [Hn Hl]. split; [|apply IH; [|done]; intros y Hy; apply Hx; by right].
  destruct l; [done|]. rewrite Hx; [done|by left].
Qed.

(** The word of the last element is free. *)
Lemma chained_last nx l v : NoDup l → chained nx l → chained (<[last_of l := v]> nx) l.
Proof.
  induction l as [|x l IH]; simpl; [done|]. intros [Hx Hnd]%NoDup_cons [Hn Hl]. destruct l as [|y l]; [done|].
  assert (last_of (x :: y :: l) = last_of (y :: l)) as -> by done. split; [|by apply IH].
  rewrite fn_lookup_insert_ne; [done|]. unfold last_of. destruct (last (y :: l)) as [z|] eqn:Hz; [|by destruct l].
  intros [= ->]. by apply Hx, last_Some_elem_of.
Qed.

(** A chain in front of a list. *)
Lemma chained_zlist nx l h l' :
  chained nx l → l ≠ [] → nx (last_of l) = h → zlist nx h l' → zlist nx (first_of l) ((Zpos <$> l) ++ l').
Proof.
  induction l as [|x l IH]; [done|]. simpl. intros [Hn Hl] _ Hlast Hz. split_and!; [done..|].
  destruct l as [|y l]; [by rewrite <-Hlast in Hz|]. rewrite Hn. by apply IH.
Qed.

Lemma first_of_range l : (∀ x, x ∈ l → Zpos x < 2 ^ 48) → 0 ≤ first_of l < 2 ^ 48.
Proof. destruct l as [|x l]; simpl; [done|]. intros Hx. specialize (Hx x ltac:(by left)). lia. Qed.

Lemma ck_word_like l : (∀ x, x ∈ l → Zpos x < 2 ^ 48) → wordlike (ck_word l).
Proof.
  intros Hl. exists (first_of l), (Z.of_nat (length l) `mod` 2 ^ 16).
  split_and!; [by apply first_of_range..|apply word_range|apply word_range|done].
Qed.

Lemma ck_word_addr l : (∀ x, x ∈ l → Zpos x < 2 ^ 48) → ABA_ADDR (ck_word l) = first_of l.
Proof. intros Hl. by apply aba_addr_word, first_of_range. Qed.

Lemma ck_word_0 l : (∀ x, x ∈ l → Zpos x < 2 ^ 48) → ck_word l = 0 ↔ l = [].
Proof.
  intros Hl. split; [|by intros ->]. destruct l as [|x l]; [done|]. intros Hw.
  pose proof (ck_word_addr _ Hl) as Ha. by rewrite Hw in Ha.
Qed.

Lemma ck_word_count l :
  (∀ x, x ∈ l → Zpos x < 2 ^ 48) → Z.shiftr (ABA_COUNT (ck_word l)) ABA_ADDR_BIT = Z.of_nat (length l) `mod` 2 ^ 16.
Proof.
  intros Hl. unfold ck_word. rewrite aba_count_word by (by apply first_of_range || apply word_range).
  rewrite Z.shiftr_div_pow2 by done. by apply Z.div_mul.
Qed.

(** The word after a chain has been put. *)
Lemma ck_word_put l items :
  l ≠ [] → (∀ x, x ∈ l ++ items → Zpos x < 2 ^ 48) →
  Z.lor (first_of l) (u64 (ABA_COUNT (ck_word items) + ABA_COUNT_ONE * Z.of_nat (length l))) = ck_word (l ++ items).
Proof.
  intros Hne Hl. unfold ck_word. rewrite aba_next; [|apply first_of_range; set_solver|apply first_of_range; set_solver|apply word_range|lia].
  rewrite length_app, Zplus_mod_idemp_l. f_equal; [by destruct l|]. f_equal. f_equal. lia.
Qed.

(** ** Simulation *)

Lemma last_of_elem l : l ≠ [] → ∃ x, last_of l = Zpos x ∧ x ∈ l.
Proof.
  intros Hne. unfold last_of. destruct (last l) as [x|] eqn:Hx; [|by apply last_None in Hx].
  exists x. split; [done|]. by apply last_Some_elem_of.
Qed.

(** A thread relies on the words of its own elements only. *)
Lemma ck_ok_frame nx nx' pc st :
  ck_ok nx pc st → (∀ x, x ∈ mine st → nx' (Zpos x) = nx (Zpos x)) → ck_ok nx' pc st.
Proof.
  intros Hok Hx. assert (∀ l e t c, chain_ok nx l e t c → st = CsPut l → chain_ok nx' l e t c) as Hch.
  { intros l e t c [] ->. split; try done. by apply (chained_frame nx). }
  destruct pc as [[]|], st; simpl in *; try done.
  - by eapply Hch.
  - destruct Hok. split; [by eapply Hch|done].
  - destruct Hok as (Hc & Hw & <-). split_and!; [by eapply Hch|done|].
    rewrite (co_tail _ _ _ _ _ Hc). destruct (last_of_elem l) as (x & -> & Hl); [apply Hc|]. by apply Hx.
  - destruct Hok as [Hz ->]. split; [|done]. apply (zlist_frame nx); [|done].
    intros y (x & -> & Hl)%list_elem_of_fmap. by apply Hx.
Qed.

Section ck_sim.
Context (s : ck_state) (a : counted) (t : tid) (Hinv : ck_inv s a).

Local Notation sim lab s' := (∃ a', counted_step t a lab a' ∧ ck_inv s' a').

Lemma ck_move lab h nx inuse pc st a' :
  counted_step t a lab a' → (∀ u, ct_st a' u = (<[t := st]> (ct_st a)) u) →
  h = ck_word (ct_items a') → zlist nx (first_of (ct_items a')) (Zpos <$> ct_items a') → NoDup (ct_items a') →
  (∀ x, x ∈ inuse → Zpos x < 2 ^ 48) → (∀ x, x ∈ ct_items a' → x ∈ inuse) →
  (∀ x, x ∈ mine st → x ∈ inuse ∧ x ∉ ct_items a' ∧ ∀ u, u ≠ t → x ∉ mine (ct_st a u)) →
  (∀ u x, u ≠ t → x ∈ mine (ct_st a u) → x ∈ inuse ∧ x ∉ ct_items a') →
  (∀ u, u ≠ t → ck_ok nx (ck_pcs s u) (ct_st a u)) → ck_ok nx pc st →
  sim lab (CkState h nx inuse (<[t := pc]> (ck_pcs s))).
Proof.
  intros Hstep Hst -> Hz Hnd Haddr Hitems Hmine Hoth Hu Ht. exists a'. split; [done|]. split; simpl; try done.
  - intros u x. rewrite Hst. same_tid t u; [|by apply Hoth]. intros Hx. by destruct (Hmine x Hx) as (? & ? & _).
  - intros u v x. rewrite !Hst. same_tid t u; same_tid t v; [done|..|apply Hinv].
    + intros Hx Hx'. destruct (Hmine x Hx) as (_ & _ & Hn). by destruct (Hn v).
    + intros Hx Hx'. destruct (Hmine x Hx') as (_ & _ & Hn). by destruct (Hn u).
  - intros u. rewrite Hst. same_tid t u; auto.
Qed.

(** Elements of a thread are its own. *)
Lemma mine_own u x : x ∈ mine (ct_st a t) → u ≠ t → x ∉ mine (ct_st a u).
Proof. intros Hx Hu Hx'. apply Hu. by eapply cv_sep. Qed.

Lemma items_addr x : x ∈ ct_items a → Zpos x < 2 ^ 48.
Proof. intros Hx. by eapply cv_addr, cv_items. Qed.

(** A step that changes nothing but the thread. *)
Lemma ck_quiet pc :
  ck_ok (ck_next s) pc (ct_st a t) → sim CkRun (CkState (ck_head s) (ck_next s) (ck_inuse s) (<[t := pc]> (ck_pcs s))).
Proof.
  intros Hok. apply (ck_move _ _ _ _ _ (ct_st a t) a); try apply Hinv; [apply cs_stutter| | | | |done].
  - intros u. by same_tid t u.
  - intros x Hx. destruct (cv_mine s a Hinv t x Hx). split_and!; [done..|]. intros u. by apply mine_own.
  - intros u x _. apply Hinv.
  - intros u _. apply Hinv.
Qed.

(** A call or a return. *)
Lemma ck_boundary lab pc st inuse :
  counted_step t a lab (Counted (ct_items a) (<[t := st]> (ct_st a))) →
  (∀ x, x ∈ inuse → Zpos x < 2 ^ 48) → (∀ x, x ∈ ct_items a → x ∈ inuse) →
  (∀ x, x ∈ mine st → x ∈ inuse ∧ x ∉ ct_items a ∧ ∀ u, u ≠ t → x ∉ mine (ct_st a u)) →
  (∀ u x, u ≠ t → x ∈ mine (ct_st a u) → x ∈ inuse) → ck_ok (ck_next s) pc st →
  sim lab (CkState (ck_head s) (ck_next s) inuse (<[t := pc]> (ck_pcs s))).
Proof.
  intros Hstep Haddr Hitems Hmine Hoth Hok.
  apply (ck_move _ _ _ _ _ st (Counted (ct_items a) (<[t := st]> (ct_st a)))); simpl; try done; try apply Hinv.
  - intros u x Hu Hx. split; [by eapply Hoth|]. by eapply cv_mine.
  - intros u _. apply Hinv.
Qed.

(** The tail of the chain is linked to what was read. *)
Lemma ck_sim_link e tl c old :
  ck_pcs s t = Some (CpPutLink e tl c old) →
  sim CkRun (CkState (ck_head s) (<[tl := ABA_ADDR old]> (ck_next s)) (ck_inuse s) (<[t := Some (CpPutCas e tl c old)]> (ck_pcs s))).
Proof.
  intros Hpc. pose proof (cv_thread s a Hinv t) as Hok. rewrite Hpc in Hok.
  destruct (ct_st a t) as [|l| | |] eqn:Hst; try done. destruct Hok as [Hc Hw]. pose proof Hc as [Hne Hnd He Htl Hcnt Hl].
  destruct (last_of_elem l Hne) as (x & Hx & Hxl). rewrite Hx in Htl. subst tl.
  destruct (cv_mine s a Hinv t x ltac:(by rewrite Hst)) as [Hxu Hxi].
  apply (ck_move _ _ _ _ _ (CsPut l) a); try apply Hinv; [apply cs_stutter|..].
  - intros u. same_tid t u; done.
  - apply zlist_insert; [|apply Hinv]. by intros (y & [= ->] & Hy)%list_elem_of_fmap.
  - intros y Hy. destruct (cv_mine s a Hinv t y ltac:(by rewrite Hst)). split_and!; [done..|]. intros u. apply mine_own. by rewrite Hst.
  - intros u y _. apply Hinv.
  - intros u Hu. apply (ck_ok_frame (ck_next s)); [apply Hinv|]. intros y Hy. apply fn_lookup_insert_ne. intros [= ->].
    apply Hu. symmetry. by apply (cv_sep s a Hinv t u y); [rewrite Hst|].
  - simpl. rewrite fn_lookup_insert. split_and!; [|done..]. split; try done. rewrite <-Hx. by apply chained_last.
Qed.

(** The chain is put. *)
Lemma ck_sim_put e tl c :
  ck_pcs s t = Some (CpPutCas e tl c (ck_head s)) →
  sim CkRun (CkState (Z.lor e (u64 (ABA_COUNT (ck_head s) + ABA_COUNT_ONE * c))) (ck_next s) (ck_inuse s)
         (<[t := Some (CpPutRet (ck_head s))]> (ck_pcs s))).
Proof.
  intros Hpc. pose proof (cv_thread s a Hinv t) as Hok. rewrite Hpc in Hok.
  destruct (ct_st a t) as [|l| | |] eqn:Hst; try done. destruct Hok as (Hc & Hw & Hnx). destruct Hc as [Hne Hnd -> -> -> Hl].
  assert (∀ x, x ∈ l → x ∈ ck_inuse s ∧ x ∉ ct_items a) as Hmine.
  { intros x Hx. apply (cv_mine s a Hinv t). by rewrite Hst. }
  assert (∀ x, x ∈ l ++ ct_items a → x ∈ ck_inuse s) as Hin.
  { intros x [Hx|Hx]%elem_of_app; [by apply Hmine|by apply (cv_items s a Hinv)]. }
  rewrite (cv_head s a Hinv) in *. rewrite ck_word_addr in Hnx by apply items_addr.
  apply (ck_move _ _ _ _ _ (CsPutDone (bool_decide (ct_items a = [])))
    (Counted (l ++ ct_items a) (<[t := CsPutDone (bool_decide (ct_items a = []))]> (ct_st a)))); simpl; try done.
  - by apply cs_put.
  - apply ck_word_put; [done|]. intros x Hx. by eapply cv_addr, Hin.
  - rewrite fmap_app. assert (first_of (l ++ ct_items a) = first_of l) as -> by by destruct l.
    eapply chained_zlist; [done..|]. apply Hinv.
  - apply NoDup_app. split_and!; [done| |apply Hinv]. intros x Hx. by apply Hmine.
  - apply Hinv.
  - intros x Hx. by apply not_elem_of_nil in Hx.
  - intros u x Hu Hx. split; [by eapply cv_mine|]. rewrite not_elem_of_app. split; [|by eapply cv_mine].
    intros Hx'. apply Hu. apply (cv_sep s a Hinv u t x); [done|by rewrite Hst].
  - intros u _. apply Hinv.
  - apply bool_decide_ext. symmetry. apply ck_word_0, items_addr.
Qed.

(** Everything is taken. *)
Lemma ck_sim_take pc h :
  ct_st a t = CsTake → h = 0 → ck_ok (ck_next s) pc (CsTaken (ct_items a)) →
  sim CkRun (CkState h (ck_next s) (ck_inuse s) (<[t := pc]> (ck_pcs s))).
Proof.
  intros Hst -> Hok.
  apply (ck_move _ _ _ _ _ (CsTaken (ct_items a)) (Counted [] (<[t := CsTaken (ct_items a)]> (ct_st a)))); simpl; try done.
  - by apply cs_take.
  - constructor.
  - apply Hinv.
  - intros x Hx. by apply not_elem_of_nil in Hx.
  - intros x Hx. split_and!; [by eapply cv_items|apply not_elem_of_nil|]. intros u Hu Hx'. by destruct (cv_mine s a Hinv u x Hx').
  - intros u x Hu Hx. split; [by eapply cv_mine|apply not_elem_of_nil].
  - intros u _. apply Hinv.
Qed.
End ck_sim.

Lemma ck_sim_run s a t pc h nx pc' :
  ck_inv s a → ck_pcs s t = Some pc → ck_run s pc = Some (h, nx, pc') →
  ∃ a', counted_step t a CkRun a' ∧ ck_inv (CkState h nx (ck_inuse s) (<[t := Some pc']> (ck_pcs s))) a'.
Proof.
  intros Hinv Hpc Hrun. pose proof (cv_thread s a Hinv t) as Hok. rewrite Hpc in Hok.
  pose proof (cv_head s a Hinv) as Hh. pose proof (items_addr s a Hinv) as Haddr.
  destruct pc as [e tl c|e tl c old|e tl c old|prev| |old|r count]; simpl in Hrun; try done.
  - (* load *) simplify_eq. destruct (ct_st a t) eqn:Hst; try done. apply ck_quiet; [done|]. rewrite Hst. split; [done|].
    rewrite Hh. by apply ck_word_like.
  - (* link *) simplify_eq. by apply ck_sim_link.
  - (* compare-and-swap *) unfold compare_and_swap64_value in Hrun. case_bool_decide as Heq; simplify_eq/=.
    + by eapply ck_sim_put.
    + destruct (ct_st a t) eqn:Hst; try done. apply ck_quiet; [done|]. rewrite Hst. apply Hok.
  - (* load of a take *) destruct (ct_st a t) eqn:Hst; try done. case_bool_decide as Heq; simplify_eq/=.
    + assert (ct_items a = []) as Hnil by (apply ck_word_0; [done|congruence]).
      apply ck_sim_take; [done..|]. simpl. by rewrite Hnil.
    + apply ck_quiet; [done|]. by rewrite Hst.
  - (* take *) destruct (ct_st a t) eqn:Hst; try done. unfold compare_and_swap64 in Hrun. case_bool_decide as Heq; simplify_eq/=.
    + rewrite Hh, ck_word_addr, ck_word_count by done. apply ck_sim_take; [done..|]. simpl. split; [apply Hinv|].
      rewrite decide_False; [done|]. intros Hnil. apply Hok. rewrite Hh. by apply ck_word_0.
    + apply ck_quiet; [done|]. by rewrite Hst.
Qed.

Lemma ck_sim_call s a t l s' :
  ck_inv s a → ck_pcs s t = None → ck_step t l s = Some s' → ∃ a', counted_step t a l a' ∧ ck_inv s' a'.
Proof.
  intros Hinv Hpc Hs. pose proof (cv_thread s a Hinv t) as Hok. unfold ck_step in Hs. rewrite Hpc in Hs, Hok.
  destruct (ct_st a t) eqn:Hst; try done. destruct l as [l| | | |n v]; try done.
  - case_decide as Hl; [|done]. destruct Hl as (Hne & _ & Hnd & Hch & Hfree). rewrite Forall_forall in Hfree. simplify_eq.
    apply (ck_boundary s a t Hinv _ _ (CsPut l)).
    + by apply cs_call_put.
    + intros x [Hx%elem_of_list_to_set|Hx]%elem_of_union; [by apply Hfree|by apply (cv_addr s a Hinv)].
    + intros x Hx. apply elem_of_union_r. by apply (cv_items s a Hinv).
    + intros x Hx. destruct (Hfree x Hx) as [Hn _]. split_and!; [set_solver| |].
      * intros Hi. by apply Hn, (cv_items s a Hinv).
      * intros u _ Hu. by apply Hn, (cv_mine s a Hinv u).
    + intros u x _ Hx. apply elem_of_union_r. by apply (cv_mine s a Hinv u).
    + by split.
  - simplify_eq. apply (ck_boundary s a t Hinv _ _ CsTake); try apply Hinv; try done.
    + by apply cs_call_take.
    + intros x Hx. by apply not_elem_of_nil in Hx.
    + intros u x _. apply Hinv.
  - case_decide as Hn; [done|]. simplify_eq. exists a. split; [apply cs_write|]. split; simpl; try apply Hinv.
    + apply zlist_insert; [|apply Hinv]. intros (y & [= ->] & Hy)%list_elem_of_fmap. by apply Hn, (cv_items s a Hinv).
    + intros u. apply (ck_ok_frame (ck_next s)); [apply Hinv|]. intros y Hy. apply fn_lookup_insert_ne. intros [= ->].
      by apply Hn, (cv_mine s a Hinv u).
Qed.

Lemma ck_sim s a t l s' :
  ck_inv s a → ck_step t l s = Some s' → ∃ a', counted_step t a l a' ∧ ck_inv s' a'.
Proof.
  intros Hinv Hs. destruct (ck_pcs s t) as [pc|] eqn:Hpc; [|by eapply ck_sim_call].
  assert ((∃ h nx pc', l = CkRun ∧ ck_run s pc = Some (h, nx, pc') ∧ s' = CkState h nx (ck_inuse s) (<[t := Some pc']> (ck_pcs s))) ∨
    (∃ prev, l = CkRun ∧ pc = CpPutRet prev ∧ s' = CkState (ck_head s) (ck_next s) (ck_inuse s) (<[t := None]> (ck_pcs s))) ∨
    (∃ r count l', l = CkReturn l' ∧ pc = CpTakeRet r count ∧ zlist (ck_next s) r (Zpos <$> l') ∧
       s' = CkState (ck_head s) (ck_next s) (ck_inuse s ∖ list_to_set l') (<[t := None]> (ck_pcs s)))) as Hcase.
  { unfold ck_step in Hs. rewrite Hpc in Hs. destruct pc, l; try done;
      try (left; destruct (ck_run s _) as [[[h nx] pc']|] eqn:Hr; [|done]; simplify_eq/=; by eauto 8).
    - simplify_eq. eauto 8.
    - case_decide; [|done]. simplify_eq. eauto 10. }
  pose proof (cv_thread s a Hinv t) as Hok. rewrite Hpc in Hok.
  destruct Hcase as [(h & nx & pc' & -> & Hr & ->)|[(prev & -> & -> & ->)|(r & count & l' & -> & -> & Hl' & ->)]].
  - by eapply ck_sim_run.
  - destruct (ct_st a t) eqn:Hst; try done. apply (ck_boundary s a t Hinv _ _ CsIdle); try apply Hinv; try done.
    + by eapply cs_ret_put.
    + intros x Hx. by apply not_elem_of_nil in Hx.
    + intros u x _. apply Hinv.
  - destruct (ct_st a t) as [| | | |l0] eqn:Hst; try done. destruct Hok as [Hl0 _].
    assert (l' = l0) as -> by (apply (inj (fmap Zpos)); by eapply zlist_det).
    apply (ck_boundary s a t Hinv _ _ CsIdle); try done.
    + by eapply cs_ret_take.
    + intros x [Hx _]%elem_of_difference. by apply (cv_addr s a Hinv).
    + intros x Hx. apply elem_of_difference. split; [by apply (cv_items s a Hinv)|]. rewrite elem_of_list_to_set. intros Hx'.
      by destruct (cv_mine s a Hinv t x ltac:(by rewrite Hst)).
    + intros x Hx. by apply not_elem_of_nil in Hx.
    + intros u x Hu Hx. apply elem_of_difference. split; [by apply (cv_mine s a Hinv u)|]. rewrite elem_of_list_to_set. intros Hx'.
      apply Hu. apply (cv_sep s a Hinv u t x); [done|by rewrite Hst].
Qed.

Definition counted_empty : counted := Counted [] (λ _, CsIdle).

Lemma ck_inv_init s : ck_init s → ck_inv s counted_empty.
Proof.
  intros (Hh & Hu & Hp). split; rewrite ?Hh, ?Hu, ?Hp; simpl; try done.
  all: intros; try constructor; set_solver.
Qed.

Lemma sc_inv_init consumer s : sc_init s → sc_inv consumer s fifo_empty.
Proof.
  intros (Hh & Hu & Hp). split; rewrite ?Hh, ?Hu, ?Hp; simpl; try done.
  - constructor.
  - split; set_solver.
Qed.

(** ** Theorems *)

(** C13: the two stacks through which threads give back blocks of others are
    linearizable.  The single-consumer stack is a LIFO stack for any number of
    producers and one consumer.  The counted stack takes the chain that the caller
    passes, all of it, in one step, telling whether the stack was empty; whoever
    takes from it gets all elements, linked in order, with their number modulo 2^16.  No bound on how often an
    operation is overtaken is needed. *)
Theorem remote_stacks_linearizable :
  (∀ consumer, refines_lifo (sc_stack consumer)) ∧
  ∃ R : ck_state → counted → Prop,
    (∀ s, ck_init s → R s counted_empty) ∧
    (∀ t l s s' a, R s a → ck_step t l s = Some s' → ∃ a', counted_step t a l a' ∧ R s' a') ∧
    (∀ s a t, R s a → ck_agrees s a t).
Proof.
  split.
  - intros consumer. exists (sc_inv consumer). split_and!.
    + apply sc_inv_init.
    + intros t l s s' a Hinv. by apply sc_sim.
    + intros s a t Hinv. apply Hinv.
  - exists ck_inv. split_and!.
    + apply ck_inv_init.
    + intros t l s s' a. apply ck_sim.
    + intros s a t Hinv. pose proof (cv_thread s a Hinv t) as Hok. unfold ck_agrees.
      destruct (ck_pcs s t) as [[]|], (ct_st a t); simpl in *; try done; [..|by f_equal|by destruct Hok; eauto].
      all: destruct_and?; match goal with H : chain_ok _ _ _ _ _ |- _ => destruct H end; eauto 10.
Qed.

(** Thread 1 puts the chain 64, 128 while thread 2, which has loaded the empty
    head, is about to put 192; thread 0 takes all three. *)
Example counted_run :
  let s0 := CkState 0 (λ _, 0) ∅ (λ _, None) in
  ∃ s, run [(1%nat, CkWrite 64 128); (2%nat, CkCallPut [192%positive]); (2%nat, CkRun); (2%nat, CkRun);
            (1%nat, CkCallPut [64%positive; 128%positive]); (1%nat, CkRun); (1%nat, CkRun); (1%nat, CkRun);
            (2%nat, CkRun); (2%nat, CkRun); (2%nat, CkRun); (2%nat, CkRun);
            (0%nat, CkCallTake); (0%nat, CkRun); (0%nat, CkRun)] s0 = Some s ∧
    ck_pcs s 0%nat = Some (CpTakeRet 192 (Some 3)) ∧ zlist (ck_next s) 192 [192; 64; 128] ∧
    ck_pcs s 1%nat = Some (CpPutRet 0).
Proof. eexists. split; [vm_compute; reflexivity|]. vm_compute. repeat split. Qed.
