(* ===== verification/SsSize.v ===== *)
(** * Constants and size classes of SSMalloc ([ssmalloc.h], [ssmalloc.c])

    Small requests are served from 39 size classes.  [maps_init] fills the
    tables that translate a size to its class and back; this file models the
    loops, [size2cls] and the address arithmetic on chunks and large blocks,
    and proves that a class is the smallest one that fits. *)

From S2P Require Import Prelude.

Local Open Scope Z_scope.

(** ** Configuration *)

Definition PAGE_SIZE : Z := 4096.
Definition CACHE_LINE_SIZE : Z := 64.
Definition DEFAULT_BLOCK_CLASS : Z := 100.
Definition get_core_id : Z := 0.

(** [sizeof(dchunk_t)]: four cache lines. *)
Definition DCH : Z := 256.
Definition CHUNK_DATA_SIZE : Z := 16 * PAGE_SIZE.
Definition CHUNK_SIZE : Z := CHUNK_DATA_SIZE + DCH.
Definition ALLOC_UNIT : Z := 4 * 1024 * 1024.
Definition MAX_FREE_CHUNK : Z := 4 * 1024 * 1024 / CHUNK_SIZE.
Definition RAW_POOL_START : Z := (0x600000000000 / CHUNK_SIZE + 1) * CHUNK_SIZE.
Definition BLOCK_BUF_CNT : Z := 16.
Definition LARGE_CLASS : Z := 100.
Definition DUMMY_CLASS : Z := 101.
Definition LARGE_OWNER : Z := 0xDEAD.

(** [sizeof(large_header_t)]: two cache lines. *)
Definition sizeof_large_header : Z := 128.

(** [offsetof(lheap_t, dummy_chunk)] *)
Definition dummy_offset : Z := 2496.

Definition ROUNDUP (x n : Z) : Z := Z.land (u64 (x + n - 1)) (u64 (Z.lnot (n - 1))).
Definition PAGE_ROUNDUP (x : Z) : Z := ROUNDUP x PAGE_SIZE.

Definition dchunk_extract (p : Z) : Z := p - p `mod` CHUNK_SIZE.

(** ** Tables *)

Record maps := Maps {
  cls2size : Z → Z;
  sizemap : Z → Z;
  sizemap2 : Z → Z;
}.

Definition maps0 : maps := Maps (λ _, 0) (λ _, 0) (λ _, 0).

(** [for (i = i; cond; i = next) body]; [None] when [n] rounds are too few. *)
Fixpoint for_loop {A} (n : nat) (cond : Z → bool) (next : Z → Z) (body : Z → A → A) (i : Z) (a : A) : option A :=
  match n with
  | O => None
  | S n => if cond i then for_loop n cond next body (next i) (body i a) else Some a
  end.

(** The rounds of the longest loop, and one more. *)
Definition maps_rounds : nat := 257.

Definition maps_init (m : maps) : option maps :=
  let store size '(c2s, class) := (<[class := size]> c2s, class + 1) in
  a ← for_loop maps_rounds (λ size, size <=? 64) (λ size, size + 4) store 8 (cls2size m, 0);
  a ← for_loop maps_rounds (λ size, size <=? 128) (λ size, size + 16) store (64 + 16) a;
  a ← for_loop maps_rounds (λ size, size <=? 256) (λ size, size + 32) store (128 + 32) a;
  a ← for_loop maps_rounds (λ size, size <? 65536) (λ size, Z.shiftl size 1)
        (λ size a, store (Z.shiftl size 1) (store (size + Z.shiftr size 1) a)) 256 a;
  let c2s := a.1 in
  let fill shift cur_size '(map, cur_class) :=
    let cur_class := if c2s cur_class <? cur_size then cur_class + 1 else cur_class in
    (<[Z.shiftr (cur_size - 1) shift := cur_class]> map, cur_class) in
  b ← for_loop maps_rounds (λ cur_size, cur_size <=? 1024) (λ cur_size, cur_size + 4) (fill 2) 4 (sizemap m, 0);
  c ← for_loop maps_rounds (λ cur_size, cur_size <=? 65536) (λ cur_size, cur_size + 512) (fill 9) 1024 (sizemap2 m, b.2);
  Some (Maps c2s b.1 c.1).

Definition size2cls (m : maps) (size : Z) : Z :=
  if size <=? 1024 then sizemap m (Z.shiftr (u64 (size - 1)) 2)
  else if size <=? 65536 then sizemap2 m (Z.shiftr (size - 1) 9)
  else LARGE_CLASS.

Definition max (a b : Z) : Z := if b <? a then a else b.

(** The tables after [maps_init], sealed to keep them from being unfolded. *)
Definition tables_aux : seal (default maps0 (maps_init maps0)).
Proof. by eexists. Qed.

Definition tables : maps := unseal tables_aux.

Lemma tables_eq : tables = default maps0 (maps_init maps0).
Proof. apply seal_eq. Qed.

(** The loops end by their conditions. *)
Lemma maps_init_tables : maps_init maps0 = Some tables.
Proof.
  assert ((if maps_init maps0 then true else false) = true) as Ht by (vm_compute; reflexivity).
  rewrite tables_eq. by destruct (maps_init maps0).
Qed.

Definition NCLS : Z := 39.

(** ** Classes *)

(** Class [c] is the smallest one for the sizes above [lo] up to [hi]. *)
Definition cls_fits (m : maps) (c lo hi : Z) : bool :=
  (0 <=? c) && (c <? NCLS) && (hi <=? cls2size m c) && ((c =? 0) || (cls2size m (c - 1) <=? lo)).

(** The entries of the two maps. *)
Definition fits1 (m : maps) (i : Z) : bool := cls_fits m (sizemap m i) (i * 4) (i * 4 + 4).
Definition fits2 (m : maps) (i : Z) : bool := cls_fits m (sizemap2 m i) (i * 512) (i * 512 + 512).

Definition cls_sane (m : maps) (c : Z) : bool :=
  (8 <=? cls2size m c) && (cls2size m c <=? CHUNK_DATA_SIZE) && (cls2size m c `mod` 4 =? 0) &&
  ((c =? 0) || (cls2size m (c - 1) <? cls2size m c)).

(** [P] holds of [n] numbers from [x]. *)
Fixpoint all_from (P : Z → bool) (n : nat) (x : Z) : bool :=
  match n with O => true | S n => P x && all_from P n (x + 1) end.

Lemma all_from_spec P n x : all_from P n x = true → ∀ y, x ≤ y < x + Z.of_nat n → P y = true.
Proof.
  revert x. induction n as [|n IH]; intros x; simpl; [lia|]. intros [Hx Hn]%andb_prop y Hy.
  destruct (decide (y = x)) as [->|]; [done|]. apply (IH (x + 1)); [done|lia].
Qed.

Lemma shiftr_range x k : 0 ≤ k → Z.shiftr x k * 2 ^ k ≤ x < Z.shiftr x k * 2 ^ k + 2 ^ k.
Proof.
  intros Hk. rewrite Z.shiftr_div_pow2 by done. pose proof (Z.pow_pos_nonneg 2 k ltac:(lia) Hk).
  pose proof (Z.div_mod x (2 ^ k) ltac:(lia)). pose proof (Z.mod_pos_bound x (2 ^ k) ltac:(lia)). nia.
Qed.

Lemma tables_fit size :
  1 ≤ size ≤ 65536 → ∃ lo hi, lo < size ≤ hi ∧ cls_fits tables (size2cls tables size) lo hi = true.
Proof.
  intros Hs. unfold size2cls. destruct (Z.leb_spec size 1024).
  - pose proof (shiftr_range (size - 1) 2 ltac:(lia)).
    rewrite wrap_u_small by lia. set (i := Z.shiftr (size - 1) 2) in *.
    exists (i * 4), (i * 4 + 4). split; [lia|].
    change (fits1 tables i = true).
    apply (all_from_spec (fits1 tables) 256 0); [|lia].
    rewrite tables_eq. vm_compute. reflexivity.
  - rewrite (proj2 (Z.leb_le size 65536)) by lia. pose proof (shiftr_range (size - 1) 9 ltac:(lia)).
    set (i := Z.shiftr (size - 1) 9) in *. exists (i * 512), (i * 512 + 512). split; [lia|].
    change (fits2 tables i = true).
    apply (all_from_spec (fits2 tables) 126 2); [|lia].
    rewrite tables_eq. vm_compute. reflexivity.
Qed.

Lemma tables_sane c : 0 ≤ c < NCLS → cls_sane tables c = true.
Proof.
  intros Hc. apply (all_from_spec (cls_sane tables) (Z.to_nat NCLS) 0); [|unfold NCLS in *; lia].
  rewrite tables_eq. vm_compute. reflexivity.
Qed.

Lemma size2cls_range size : 1 ≤ size ≤ 65536 → 0 ≤ size2cls tables size < NCLS.
Proof. intros (lo & hi & _ & Hs)%tables_fit. unfold cls_fits in Hs. rewrite !andb_true_iff in Hs. lia. Qed.

Lemma size2cls_fits size : 1 ≤ size ≤ 65536 → size ≤ cls2size tables (size2cls tables size).
Proof. intros (lo & hi & ? & Hs)%tables_fit. unfold cls_fits in Hs. rewrite !andb_true_iff in Hs. lia. Qed.

Lemma size2cls_large size : 65536 < size → size2cls tables size = LARGE_CLASS.
Proof.
  intros Hs. unfold size2cls. rewrite (proj2 (Z.leb_gt size 1024)), (proj2 (Z.leb_gt size 65536)) by lia. done.
Qed.

Lemma cls2size_bounds c : 0 ≤ c < NCLS → 8 ≤ cls2size tables c ≤ CHUNK_DATA_SIZE.
Proof. intros Hc%tables_sane. unfold cls_sane in Hc. rewrite !andb_true_iff in Hc. lia. Qed.

(** C32: Size classes. Every small request gets the smallest class whose
    blocks are large enough. *)
Theorem size2cls_smallest size :
  1 ≤ size ≤ 65536 →
  0 ≤ size2cls tables size < NCLS ∧ size ≤ cls2size tables (size2cls tables size) ∧
  ∀ c, 0 ≤ c < NCLS → size ≤ cls2size tables c → size2cls tables size ≤ c.
Proof.
  intros (lo & hi & Hlo & Hs)%tables_fit. unfold cls_fits in Hs.
  rewrite !andb_true_iff, orb_true_iff in Hs. split_and!; try lia. intros c Hc Hfit.
  destruct (decide (c < size2cls tables size)) as [Hlt|]; [|lia]. exfalso.
  assert (∀ d, 0 ≤ d → c + d < NCLS → cls2size tables c ≤ cls2size tables (c + d)) as Hmono.
  { intros d Hd. pattern d. apply natlike_ind; [|intros e He IH Hb|done].
    - intros _. by rewrite Z.add_0_r.
    - pose proof (tables_sane (c + Z.succ e) ltac:(lia)) as Hsane. unfold cls_sane in Hsane.
      replace (c + Z.succ e - 1) with (c + e) in Hsane by lia. rewrite !andb_true_iff, orb_true_iff, Z.ltb_lt, !Z.eqb_eq in Hsane.
      specialize (IH ltac:(lia)). destruct Hsane as [_ [?|?]]; [lia|]. by etrans; [|apply Z.lt_le_incl]. }
  specialize (Hmono (size2cls tables size - 1 - c) ltac:(lia) ltac:(lia)).
  replace (c + (size2cls tables size - 1 - c)) with (size2cls tables size - 1) in Hmono by lia. lia.
Qed.

Lemma size2cls_smallest_witness :
  1 ≤ 1025 ≤ 65536 ∧ 1025 ≤ cls2size tables (size2cls tables 1025).
Proof. split; [lia|]. exact (proj1 (proj2 (size2cls_smallest 1025 ltac:(lia)))). Defined.
