(* ===== verification/SsMem.v ===== *)
(** * Memory of SSMalloc and its double-ended lists ([ssmalloc.h], [double-list.h])

    The memory is a map from cells to integers.  A cell is a field of one of
    the structures, named by the address of the structure, or the first word
    of a block or chunk, through which the stacks are linked.  Structures that
    the code casts into each other share the cells of their common fields.
    Functions are state transformers that may also exit or crash; [mmap] and
    its relatives are parameters. *)

From S2P Require Import Prelude SsSize SsQueue.

Local Open Scope Z_scope.

(** ** Cells *)

Inductive cell :=
  | Word (a : Z)                       (** the word at an address *)
  | Next (x : Z) | Prev (x : Z)        (** [active_link] *)
  | NumaNode (x : Z)                   (** of a [chunk_t], [dchunk_t] or [lheap_t] *)
  | Owner (x : Z)                      (** of a [dchunk_t] or [large_header_t] *)
  | SizeCls (dc : Z) | State (dc : Z) | FreeBlkCnt (dc : Z) | BlkCnt (dc : Z) | FreeHead (dc : Z)
  | BlockSize (dc : Z) | FreeMem (dc : Z) | RemoteFreeHead (dc : Z)
  | LhFreeHead (lh : Z) | LhFreeCnt (lh : Z) | Foreground (lh cls : Z)
  | BackgroundHead (lh cls : Z) | BackgroundTail (lh cls : Z) | NeedGc (lh cls : Z)
  | BufDc (lh i : Z) | BufFirst (lh i : Z) | BufHead (lh i : Z) | BufCount (lh i : Z)
  | AllocSize (x : Z) | Mem (x : Z)    (** of a [large_header_t] *)
  | PoolStart | PoolEnd | FreeStart | LastAlloc
  | FreeDcHead (core : Z) | FreeLhHead (core : Z)
  | GlobalState | InitOnce
  | ThreadState (t : tid) | LocalHeap (t : tid) | BufCnt (t : tid).

#[export] Instance cell_eq_dec : EqDecision cell.
Proof. solve_decision. Defined.

Abbreviation mem := (cell → Z) (only parsing).

(** [init_state] *)
Definition UNINITIALIZED : Z := 0.
Definition READY : Z := 1.

(** [dchunk_state] *)
Definition FOREGROUND : Z := 0.
Definition BACKGROUND : Z := 1.
Definition FULL : Z := 2.

(** ** Effects *)

(** Pages handed out by the kernel. *)
Definition mapping : Type := Z * Z.

Record st := St {
  s_mem : mem;
  s_maps : maps;
  s_calls : nat;                 (** system calls so far *)
  s_pages : list mapping;        (** live mappings: address and size *)
}.

(** A call returns, exits the process, accesses an invalid address, or is
    still in a loop when the rounds given to it are used up. *)
Inductive out (A : Type) :=
  | Ret (a : A) (s : st)
  | Exits
  | Faults
  | Hangs.
Arguments Ret {A} _ _.
Arguments Exits {A}.
Arguments Faults {A}.
Arguments Hangs {A}.

Definition M (A : Type) : Type := st → out A.

Definition ret {A} (a : A) : M A := Ret a.

Definition bind {A B} (m : M A) (f : A → M B) : M B := λ s,
  match m s with Ret a s' => f a s' | Exits => Exits | Faults => Faults | Hangs => Hangs end.

Declare Scope ss_scope.
Delimit Scope ss_scope with ss.
Notation "x <- m ;; k" := (bind m (λ x, k)) (at level 100, m at next level, right associativity) : ss_scope.
Notation "m ;; k" := (bind m (λ _, k)) (at level 100, right associativity) : ss_scope.
Open Scope ss_scope.

Definition get (c : cell) : M Z := λ s, Ret (s_mem s c) s.

Definition set (c : cell) (v : Z) : M unit := λ s,
  Ret tt (St (<[c := v]> (s_mem s)) (s_maps s) (s_calls s) (s_pages s)).

Definition exit_process {A} : M A := λ _, Exits.
Definition fault {A} : M A := λ _, Faults.
Definition hang {A} : M A := λ _, Hangs.

(** Dereferencing [NULL] crashes. *)
Definition deref (p : Z) : M unit := if bool_decide (p = 0) then fault else ret tt.

(** ** Stacks in memory

    The operations of [queue.h] on a head that is a cell. *)

Definition words (h : mem) : Z → Z := λ a, h (Word a).

Definition queue_put (q : cell) (element : Z) : M unit := λ s,
  let '(head, nx) := mc_put (s_mem s q) (words (s_mem s)) element in
  (set (Word element) (nx element);; set q head) s.

Definition queue_fetch (q : cell) : M Z := λ s,
  let '(r, head) := mc_fetch (s_mem s q) (words (s_mem s)) in
  (if bool_decide (r = 0) then ret 0 else set q head;; ret r) s.

Definition fast_queue_put (q : cell) (element : Z) : M unit := λ s,
  let '(head, nx) := sc_put (s_mem s q) (words (s_mem s)) element in
  (set (Word element) (nx element);; set q head) s.

Definition fast_queue_fetch (q : cell) : M Z := λ s,
  let '(r, head) := sc_fetch (s_mem s q) (words (s_mem s)) in
  (if bool_decide (r = 0) then ret 0 else set q head;; ret r) s.

Definition seq_queue_put (q : cell) (element : Z) : M unit := λ s,
  let '(head, nx) := seq_enqueue (s_mem s q) (words (s_mem s)) element in
  (set (Word element) (nx element);; set q head) s.

Definition seq_queue_fetch (q : cell) : M Z := λ s,
  let '(r, head) := seq_dequeue (s_mem s q) (words (s_mem s)) in
  (if bool_decide (r = 0) then ret 0 else set q head;; ret r) s.

(** ** [double-list.h] *)

Definition double_list_insert_front (new_node : Z) (head tail : cell) : M unit :=
  old_head <- get head;;
  (if bool_decide (old_head = 0) then set tail new_node else set (Prev old_head) new_node);;
  set (Next new_node) old_head;;
  set (Prev new_node) 0;;
  set head new_node.

Definition double_list_remove (node : Z) (head tail : cell) : M unit :=
  prev <- get (Prev node);;
  next <- get (Next node);;
  (if bool_decide (prev ≠ 0) then set (Next prev) next else set head next);;
  next <- get (Next node);;
  prev <- get (Prev node);;
  (if bool_decide (next ≠ 0) then set (Prev next) prev else set tail prev);;
  h <- get head;;
  hn <- get (Next h);;
  if bool_decide (h ≠ 0 ∧ hn = 0) then set tail h
  else
    t <- get tail;;
    tp <- get (Prev t);;
    if bool_decide (t ≠ 0 ∧ tp = 0) then set head t else ret tt.

(** ** Reasoning about effects *)

(** [m] neither crashes nor hangs, and if it returns then [Q] holds. *)
Definition wp {A} (m : M A) (Q : A → st → Prop) (s : st) : Prop :=
  match m s with Ret a s' => Q a s' | Exits => True | Faults | Hangs => False end.

Definition upd (s : st) (h : mem) : st := St h (s_maps s) (s_calls s) (s_pages s).

Lemma wp_bind {A B} (m : M A) (f : A → M B) Q s : wp m (λ a, wp (f a) Q) s → wp (bind m f) Q s.
Proof. unfold wp, bind. by destruct (m s). Qed.

Lemma wp_ret {A} (a : A) Q s : Q a s → wp (ret a) Q s.
Proof. done. Qed.

Lemma wp_get c Q s : Q (s_mem s c) s → wp (get c) Q s.
Proof. done. Qed.

Lemma wp_set c v Q s : Q tt (upd s (<[c := v]> (s_mem s))) → wp (set c v) Q s.
Proof. done. Qed.

Lemma wp_mono {A} (m : M A) (P Q : A → st → Prop) s :
  wp m P s → (∀ a s', P a s' → Q a s') → wp m Q s.
Proof. unfold wp. destruct (m s); auto. Qed.

Lemma wp_eq {A} (m m' : M A) Q s : m s = m' s → wp m' Q s → wp m Q s.
Proof. unfold wp. by intros ->. Qed.

Lemma wp_ret_inv {A} (m : M A) Q s a s' : wp m Q s → m s = Ret a s' → Q a s'.
Proof. unfold wp. intros Hw Heq. by rewrite Heq in Hw. Qed.

(** Cells outside [T] keep their values. *)
Definition agree (T : cell → Prop) (h h' : mem) : Prop := ∀ c, ¬ T c → h' c = h c.

Lemma agree_refl T h : agree T h h.
Proof. done. Qed.

Lemma agree_set (T : cell → Prop) h h' c v : agree T h h' → T c → agree T h (<[c := v]> h').
Proof. intros Hag Hc c' Hc'. rewrite fn_lookup_insert_ne by (by intros ->). auto. Qed.

Lemma agree_weaken (T T' : cell → Prop) h h' : agree T h h' → (∀ c, T c → T' c) → agree T' h h'.
Proof. intros Hag HT c Hc. apply Hag. auto. Qed.

(** Reads of cells that have just been written or not. *)
Ltac msimpl :=
  repeat match goal with
  | |- context [(<[?c := ?v]> ?h) ?c] => rewrite (fn_lookup_insert h c v)
  | |- context [(<[?c := ?v]> ?h) ?c'] => rewrite (fn_lookup_insert_ne h c c' v) by (discriminate || congruence)
  end.

Ltac msimpl_in H :=
  repeat match type of H with
  | context [(<[?c := ?v]> ?h) ?c] => rewrite (fn_lookup_insert h c v) in H
  | context [(<[?c := ?v]> ?h) ?c'] => rewrite (fn_lookup_insert_ne h c c' v) in H by (discriminate || congruence)
  end.

(** Only the last memory matters. *)
Ltac uflat :=
  repeat match goal with |- context [upd (upd ?s ?h1) ?h2] => change (upd (upd s h1) h2) with (upd s h2) end.

(** One instruction. *)
Ltac wstep :=
  lazymatch goal with
  | |- wp (bind _ _) _ _ => apply wp_bind
  | |- wp (get _) _ _ => apply wp_get
  | |- wp (set _ _) _ _ => apply wp_set
  | |- wp (ret _) _ _ => apply wp_ret
  end; uflat; cbn [upd s_mem s_maps s_calls s_pages].

(** ** Stack operations *)

Section stacks.
Context (q : cell) (s : st).
Local Notation h := (s_mem s).

Lemma wp_queue_fetch Q :
  (ABA_ADDR (h q) = 0 → Q 0 s) →
  (ABA_ADDR (h q) ≠ 0 → Q (ABA_ADDR (h q))
    (upd s (<[q := Z.lor (h (Word (ABA_ADDR (h q)))) (u64 (ABA_COUNT (h q) + ABA_COUNT_ONE))]> h))) →
  wp (queue_fetch q) Q s.
Proof.
  intros H0 H1. unfold wp, queue_fetch, mc_fetch. case_bool_decide as Hc; cbn -[Z.lor]; [by apply H0|].
  rewrite bool_decide_false by done. by apply H1.
Qed.

Lemma wp_fast_queue_fetch Q :
  (h q = 0 → Q 0 s) → (h q ≠ 0 → Q (h q) (upd s (<[q := h (Word (h q))]> h))) →
  wp (fast_queue_fetch q) Q s.
Proof.
  intros H0 H1. unfold wp, fast_queue_fetch, sc_fetch. case_bool_decide as Hc; cbn; [by apply H0|].
  rewrite bool_decide_false by done. by apply H1.
Qed.

Lemma wp_seq_queue_fetch Q :
  (h q = 0 → Q 0 s) → (h q ≠ 0 → Q (h q) (upd s (<[q := h (Word (h q))]> h))) →
  wp (seq_queue_fetch q) Q s.
Proof. apply wp_fast_queue_fetch. Qed.

Lemma wp_queue_put e Q :
  Q tt (upd s (<[q := Z.lor e (u64 (ABA_COUNT (h q) + ABA_COUNT_ONE))]> (<[Word e := ABA_ADDR (h q)]> h))) →
  wp (queue_put q e) Q s.
Proof. intros HQ. unfold wp, queue_put, mc_put. cbn -[Z.lor]. by rewrite fn_lookup_insert. Qed.

Lemma wp_fast_queue_put e Q :
  Q tt (upd s (<[q := e]> (<[Word e := h q]> h))) → wp (fast_queue_put q e) Q s.
Proof. intros HQ. unfold wp, fast_queue_put, sc_put. cbn. by rewrite fn_lookup_insert. Qed.

Lemma wp_seq_queue_put e Q :
  Q tt (upd s (<[q := e]> (<[Word e := h q]> h))) → wp (seq_queue_put q e) Q s.
Proof. apply wp_fast_queue_put. Qed.
End stacks.

(** The address part of what a stack operation installs. *)
Lemma aba_addr_mod w : ABA_ADDR w = w `mod` 2 ^ 48.
Proof. unfold ABA_ADDR. change ABA_ADDR_MASK with (Z.ones 48). by rewrite Z.land_ones. Qed.

Lemma aba_addr_lor a w k :
  0 ≤ a < 2 ^ 48 → ABA_ADDR (Z.lor a (u64 (ABA_COUNT w + ABA_COUNT_ONE * k))) = a.
Proof.
  intros Ha. assert (ABA_COUNT w `mod` 2 ^ 48 = 0) as Hc.
  { rewrite <-aba_addr_mod. unfold ABA_ADDR, ABA_COUNT. rewrite <-Z.land_assoc. apply Z.land_0_r. }
  assert (ABA_ADDR (u64 (ABA_COUNT w + ABA_COUNT_ONE * k)) = 0) as Hu.
  { rewrite aba_addr_mod. unfold wrap_u. rewrite Z.mod_mod_divide by (by exists (2 ^ 16)).
    change ABA_COUNT_ONE with (2 ^ 48). rewrite Z.mul_comm, Z.mod_add by done. done. }
  unfold ABA_ADDR in *. rewrite Z.land_lor_distr_l, Hu, Z.lor_0_r.
  change (ABA_ADDR a = a). rewrite aba_addr_mod. by apply Z.mod_small.
Qed.

(** ** Double-ended lists *)

(** The elements [l] between [p] and [n]. *)
Fixpoint dseg (h : mem) (p : Z) (l : list Z) (n : Z) : Prop :=
  match l with
  | [] => True
  | x :: l => 0 < x ∧ h (Prev x) = p ∧ h (Next x) = List.hd n l ∧ dseg h x l n
  end.

Definition lastd (p : Z) (l : list Z) : Z := default p (last l).

Record dlist (h : mem) (head tail : cell) (l : list Z) : Prop := {
  dl_head : h head = List.hd 0 l;
  dl_tail : h tail = lastd 0 l;
  dl_seg : dseg h 0 l 0;
  dl_nodup : NoDup l;
}.

Lemma lastd_cons p x l : lastd p (x :: l) = lastd x l.
Proof. unfold lastd. destruct l as [|y l]; [done|]. simpl. destruct (last (y :: l)) eqn:Hl; [done|]. by apply last_None in Hl. Qed.

Lemma lastd_snoc p l x : lastd p (l ++ [x]) = x.
Proof. unfold lastd. by rewrite last_snoc. Qed.

Lemma hd_app (n : Z) l k : List.hd n (l ++ k) = List.hd (List.hd n k) l.
Proof. by destruct l. Qed.

Lemma dseg_app h p l k n : dseg h p (l ++ k) n ↔ dseg h p l (List.hd n k) ∧ dseg h (lastd p l) k n.
Proof.
  revert p. induction l as [|x l IH]; intros p; simpl; [naive_solver|].
  rewrite IH, hd_app, lastd_cons. naive_solver.
Qed.

Lemma dseg_frame h h' p l n :
  (∀ x, x ∈ l → h' (Prev x) = h (Prev x) ∧ h' (Next x) = h (Next x)) → dseg h p l n → dseg h' p l n.
Proof.
  revert p. induction l as [|x l IH]; intros p Hx; simpl; [done|]. intros (? & <- & <- & Hl).
  destruct (Hx x) as [-> ->]; [by left|]. split_and!; [done..|]. apply IH; [|done]. intros y Hy. apply Hx. by right.
Qed.

Lemma dseg_pos h p l n x : dseg h p l n → x ∈ l → 0 < x.
Proof.
  revert p. induction l as [|y l IH]; intros p; [by intros _ ?%elem_of_nil|].
  intros (? & _ & _ & Hl) [->|?]%elem_of_cons; eauto.
Qed.

(** Changing the successor of the last or the predecessor of the first element. *)
Lemma dseg_set_next h p l x n n' :
  x ∉ l → dseg h p (l ++ [x]) n → dseg (<[Next x := n']> h) p (l ++ [x]) n'.
Proof.
  intros Hx. rewrite !dseg_app. intros [Hl (? & ? & _)]. simpl in *. split.
  - eapply dseg_frame; [|done]. intros y Hy. assert (y ≠ x) by (by intros ->). by msimpl.
  - split_and!; try done; by msimpl.
Qed.

Lemma dseg_set_prev h p x l n p' :
  x ∉ l → dseg h p (x :: l) n → dseg (<[Prev x := p']> h) p' (x :: l) n.
Proof.
  intros Hx (? & ? & ? & Hl). split_and!; [done|by msimpl..|].
  eapply dseg_frame; [|done]. intros y Hy. assert (y ≠ x) by (by intros ->). by msimpl.
Qed.

(** The cells of a list. *)
Definition dcells (head tail : cell) (l : list Z) : cell → Prop := λ c,
  c = head ∨ c = tail ∨ ∃ x, x ∈ l ∧ (c = Next x ∨ c = Prev x).

Definition is_link (c : cell) : bool := match c with Next _ | Prev _ => true | _ => false end.

Section double_list.
Context (head tail : cell) (Hhl : is_link head = false) (Htl : is_link tail = false) (Hht : head ≠ tail).

Lemma insert_front_spec s l x :
  dlist (s_mem s) head tail l → x ∉ l → 0 < x →
  wp (double_list_insert_front x head tail)
    (λ _ s', ∃ h', s' = upd s h' ∧ dlist h' head tail (x :: l) ∧ agree (dcells head tail (x :: l)) (s_mem s) h') s.
Proof.
  intros [Hh Ht Hs Hnd] Hx Hpos. unfold double_list_insert_front. repeat wstep. rewrite Hh.
  assert (∀ y, Next y ≠ head ∧ Prev y ≠ head ∧ Next y ≠ tail ∧ Prev y ≠ tail) as Hne
    by (intros y; split_and!; intros <-; done).
  destruct l as [|y l].
  - rewrite bool_decide_true by done. repeat wstep. eexists. split; [done|]. split.
    + destruct (Hne x) as (? & ? & ? & ?). split; [by msimpl..| |by apply NoDup_singleton].
      simpl. split_and!; try done; by msimpl.
    + repeat apply agree_set; try apply agree_refl; unfold dcells; set_solver.
  - cbn [List.hd] in *. rewrite bool_decide_false by (destruct Hs; lia). repeat wstep. eexists. split; [done|]. split.
    + destruct (Hne x) as (? & ? & ? & ?), (Hne y) as (? & ? & ? & ?). assert (x ≠ y) by set_solver.
      split; [by msimpl| | |by constructor].
      * msimpl. by rewrite Ht, !lastd_cons.
      * split; [done|]. do 2 (split; [by msimpl|]). apply NoDup_cons in Hnd as [Hyl _].
        eapply dseg_frame; [|by apply (dseg_set_prev _ _ _ _ _ x Hyl Hs)].
        intros z Hz. destruct (Hne z) as (? & ? & ? & ?). assert (z ≠ x) by set_solver. by msimpl.
    + repeat apply agree_set; try apply agree_refl; unfold dcells; simpl; set_solver.
Qed.

(** The pointers around the removed element. *)
Lemma remove_links h p l1 x l2 :
  NoDup (l1 ++ x :: l2) → dseg h 0 (l1 ++ x :: l2) 0 → p = lastd 0 l1 →
  let n := List.hd 0 l2 in
  let h1 := if bool_decide (p ≠ 0) then <[Next p := n]> h else h in
  let h2 := if bool_decide (n ≠ 0) then <[Prev n := p]> h1 else h1 in
  dseg h2 0 (l1 ++ l2) 0.
Proof.
  intros Hnd Hs -> n. apply NoDup_app in Hnd as (Hnd1 & Hdis & [Hx2 Hnd2]%NoDup_cons).
  apply dseg_app in Hs as [Hs1 Hs2]. simpl in Hs1. destruct Hs2 as (_ & _ & _ & Hs2).
  assert (dseg (if bool_decide (lastd 0 l1 ≠ 0) then <[Next (lastd 0 l1) := n]> h else h) 0 l1 n ∧
          dseg (if bool_decide (lastd 0 l1 ≠ 0) then <[Next (lastd 0 l1) := n]> h else h) x l2 0) as [H1 H2].
  { destruct l1 as [|z l1 _] using rev_ind; [done|]. rewrite lastd_snoc.
    pose proof (dseg_pos _ _ _ _ z Hs1 ltac:(set_solver)). rewrite bool_decide_true by lia.
    apply NoDup_app in Hnd1 as (_ & Hz & _). split.
    - eapply dseg_set_next; [set_solver|done].
    - eapply dseg_frame; [|done]. intros y Hy. assert (y ≠ z) by set_solver. by msimpl. }
  set (h1 := if bool_decide (lastd 0 l1 ≠ 0) then _ else _) in *. simpl. apply dseg_app.
  destruct l2 as [|y l2]; [done|]. simpl in n. unfold n in *.
  rewrite bool_decide_true by (destruct Hs2; lia). split.
  - eapply dseg_frame; [|done]. intros z Hz. assert (z ≠ y) by set_solver. by msimpl.
  - eapply dseg_set_prev; [by apply NoDup_cons in Hnd2 as [? _]|done].
Qed.
Lemma dlist_cells h h' l :
  dlist h head tail l → h' head = h head → h' tail = h tail →
  (∀ x, x ∈ l → h' (Prev x) = h (Prev x) ∧ h' (Next x) = h (Next x)) → dlist h' head tail l.
Proof. intros [Hh Ht Hs Hnd] Heh Het Hx. split; [congruence..| |done]. by eapply dseg_frame. Qed.

(** The last two statements of [double_list_remove] change nothing. *)
Lemma remove_fixup s l :
  dlist (s_mem s) head tail l →
  wp (h <- get head;;
      hn <- get (Next h);;
      if bool_decide (h ≠ 0 ∧ hn = 0) then set tail h
      else
        t <- get tail;;
        tp <- get (Prev t);;
        if bool_decide (t ≠ 0 ∧ tp = 0) then set head t else ret tt)
    (λ _ s', ∃ h', s' = upd s h' ∧ dlist h' head tail l ∧ agree (λ _, False) (s_mem s) h') s.
Proof.
  intros Hl. destruct (Hl) as [Hh Ht Hs Hnd]. repeat wstep. case_bool_decide as Hc; repeat wstep.
  - assert (s_mem s tail = s_mem s head) as Heq.
    { unfold lastd in Ht. destruct l as [|x [|y l]]; simpl in *; [lia|congruence|]. rewrite Hh in Hc. destruct Hs as (_ & _ & Hn & Hy & _). lia. }
    eexists. split; [done|]. split.
    + eapply dlist_cells; [done|by msimpl|by msimpl|]. intros x _. by assert (tail ≠ Prev x ∧ tail ≠ Next x) as [??] by (split; intros ->; done); msimpl.
    + intros c _. destruct (decide (c = tail)) as [->|]; by msimpl.
  - case_bool_decide as Hd; repeat wstep.
    + assert (s_mem s head = s_mem s tail) as Heq.
      { destruct l as [|x l _] using rev_ind; [by destruct Hd|]. rewrite Ht, lastd_snoc in Hd |- *.
        apply dseg_app in Hs as [Hs (_ & Hp & _)]. destruct l as [|y l]; [done|].
        exfalso. assert (lastd 0 (y :: l) ∈ y :: l) as Hin.
        { rewrite lastd_cons. unfold lastd. destruct (last l) eqn:Hl'; simpl; [right; by apply last_Some_elem_of|by left]. }
        apply (dseg_pos _ _ _ _ _ Hs) in Hin. lia. }
      eexists. split; [done|]. split.
      * eapply dlist_cells; [done|by msimpl|by msimpl|]. intros x _. by assert (head ≠ Prev x ∧ head ≠ Next x) as [??] by (split; intros ->; done); msimpl.
      * intros c _. destruct (decide (c = head)) as [->|]; by msimpl.
    + exists (s_mem s). by destruct s.
Qed.

Lemma lastd_elem p l : lastd p l = p ∨ lastd p l ∈ l.
Proof. unfold lastd. destruct (last l) eqn:Hl; [right; by apply last_Some_elem_of|by left]. Qed.

Lemma lastd_nz h p l n : dseg h p l n → l ≠ [] → lastd 0 l ≠ 0 ∧ lastd 0 l ∈ l.
Proof.
  intros Hs Hne. destruct l as [|x l]; [done|]. rewrite lastd_cons.
  assert (lastd x l ∈ x :: l) as Hin by (destruct (lastd_elem x l) as [->|]; [by left|by right]).
  split; [|done]. apply (dseg_pos _ _ _ _ _ Hs) in Hin. lia.
Qed.

(** What the pointers of the neighbours become. *)
Definition unlinked (h : mem) (p n : Z) : mem :=
  let h1 := if bool_decide (p ≠ 0) then <[Next p := n]> h else <[head := n]> h in
  if bool_decide (n ≠ 0) then <[Prev n := p]> h1 else <[tail := p]> h1.

Section unlinked.
Context (h : mem) (l1 l2 : list Z) (x : Z) (Hdl : dlist h head tail (l1 ++ x :: l2)).
Local Notation p := (lastd 0 l1).
Local Notation n := (List.hd 0 l2).

Lemma unlinked_prev : p = 0 ∧ l1 = [] ∨ p ≠ 0 ∧ p ∈ l1 ∧ l1 ≠ [].
Proof.
  destruct Hdl as [_ _ [Hs _]%dseg_app _]. destruct l1 as [|y l]; [by left|right].
  destruct (lastd_nz _ _ _ _ Hs); done.
Qed.

Lemma unlinked_next : n = 0 ∧ l2 = [] ∨ n ≠ 0 ∧ n ∈ l2 ∧ l2 ≠ [].
Proof.
  destruct Hdl as [_ _ [_ (_ & _ & _ & Hs)]%dseg_app _]. destruct l2 as [|y l]; [by left|right].
  split; [destruct Hs; simpl; lia|]. split; [by left|done].
Qed.

Lemma unlinked_agree : agree (dcells head tail (l1 ++ l2)) h (unlinked h p n).
Proof.
  intros c Hc. assert (∀ y, y ∈ l1 ∨ y ∈ l2 → c ≠ Next y ∧ c ≠ Prev y) as Hy.
  { intros y Hy. split; intros ->; apply Hc; right; right; exists y; rewrite elem_of_app; auto. }
  assert (c ≠ head ∧ c ≠ tail) as [??] by (split; intros ->; apply Hc; unfold dcells; auto).
  pose proof unlinked_prev. pose proof unlinked_next. unfold unlinked.
  assert (p ≠ 0 → c ≠ Next p) by (intros; apply Hy; naive_solver).
  assert (n ≠ 0 → c ≠ Prev n) by (intros; apply Hy; naive_solver).
  repeat case_bool_decide; repeat rewrite fn_lookup_insert_ne by naive_solver; done.
Qed.

Lemma unlinked_dlist : dlist (unlinked h p n) head tail (l1 ++ l2).
Proof.
  destruct Hdl as [Hh Ht Hs Hnd]. pose proof (remove_links _ _ l1 x l2 Hnd Hs eq_refl) as Hs'. cbv zeta in Hs'.
  pose proof unlinked_prev as Hp. pose proof unlinked_next as Hn.
  assert (∀ y c, is_link c = false → Next y ≠ c ∧ Prev y ≠ c) as Hne by (intros y c Hc; split; intros <-; done).
  unfold unlinked. split.
  - destruct (Hne p head Hhl), (Hne n head Hhl).
    destruct Hp as [[Hp0 ->]|(? & _ & Hl)]; [rewrite !(bool_decide_false (lastd 0 _ ≠ 0)) by auto|rewrite !(bool_decide_true (p ≠ 0)) by done].
    + clear Hs'. case_bool_decide; by msimpl.
    + destruct l1 as [|y l]; [done|]. clear Hs'. case_bool_decide; msimpl; by rewrite Hh.
  - destruct (Hne p tail Htl), (Hne n tail Htl).
    destruct Hn as [[Hn0 ->]|(? & _ & Hl)]; [rewrite !(bool_decide_false (List.hd 0 _ ≠ 0)) by auto|rewrite !(bool_decide_true (n ≠ 0)) by done].
    + msimpl. by rewrite app_nil_r.
    + destruct l2 as [|y l]; [done|]. clear Hs'. case_bool_decide; msimpl; rewrite Ht; unfold lastd; by rewrite !last_app_cons.
  - eapply dseg_frame; [|exact Hs']. intros y _. destruct (Hne y head Hhl), (Hne y tail Htl).
    split; [destruct (decide (n = y))|destruct (decide (p = y))]; repeat case_bool_decide; subst; msimpl; done.
  - apply NoDup_app in Hnd as (? & Hd & [? ?]%NoDup_cons). apply NoDup_app. set_solver.
Qed.
End unlinked.

Lemma remove_spec s l1 x l2 :
  dlist (s_mem s) head tail (l1 ++ x :: l2) →
  wp (double_list_remove x head tail)
    (λ _ s', ∃ h', s' = upd s h' ∧ dlist h' head tail (l1 ++ l2) ∧
      agree (dcells head tail (l1 ++ l2)) (s_mem s) h') s.
Proof.
  intros Hdl. pose proof (unlinked_dlist _ _ _ _ Hdl) as Hdl'. pose proof (unlinked_agree _ _ _ _ Hdl) as Hag.
  destruct (Hdl) as [_ _ Hs Hnd]. apply dseg_app in Hs as [Hs1 (Hpos & Hp & Hn & Hs2)].
  assert (x ≠ lastd 0 l1 ∧ x ≠ List.hd 0 l2) as [Hxp Hxn].
  { pose proof (unlinked_prev _ _ _ _ Hdl). pose proof (unlinked_next _ _ _ _ Hdl).
    apply NoDup_app in Hnd as (_ & Hd & [Hx2 _]%NoDup_cons). split; intros Heq; [|naive_solver lia].
    destruct (decide (x = 0)); [lia|]. apply (Hd x); [naive_solver|by left]. }
  unfold double_list_remove. repeat wstep. rewrite Hp, Hn.
  set (p := lastd 0 l1) in *. set (n := List.hd 0 l2) in *.
  set (h1 := if bool_decide (p ≠ 0) then <[Next p := n]> (s_mem s) else <[head := n]> (s_mem s)).
  apply (wp_mono _ (λ _ s', s' = upd s h1)).
  { unfold h1. repeat case_bool_decide; repeat wstep; done. }
  intros _ ? ->. repeat wstep.
  assert (h1 (Next x) = n ∧ h1 (Prev x) = p) as [-> ->].
  { assert (head ≠ Next x ∧ head ≠ Prev x) as [??] by (split; intros ->; done).
    unfold h1. repeat case_bool_decide; split; by msimpl. }
  apply (wp_mono _ (λ _ s', s' = upd s (unlinked (s_mem s) p n))).
  { unfold unlinked. repeat case_bool_decide; repeat wstep; done. }
  intros _ ? ->. eapply wp_mono; [exact (remove_fixup (upd s _) _ Hdl')|].
  intros _ s' (h' & -> & Hd & Hag'). exists h'. split; [done|]. split; [done|].
  intros c Hc. rewrite (Hag' c) by tauto. by apply Hag.
Qed.
End double_list.
