(* ===== verification/SsMalloc.v ===== *)
(** * The SSMalloc allocator ([ssmalloc.c])

    Every function of [ssmalloc.c], over the memory of [SsMem.v].  A call of
    the interface is one transition: the private heaps of the threads are not
    shared, and the shared stacks are the linearizable ones of [SsQueue.v].
    The mutex around [gpool_grow], the thread-local destructor key and
    [pthread_once] appear as their sequential effect.  The configuration is
    the default one: neither RETURN_MEMORY nor DEBUG is defined.

    [mmap], [mremap], [memcpy] and [memset] are parameters.  [mmap] and
    [mremap] may answer differently each time; they see the number of the call
    and the live mappings. *)

From S2P Require Import Prelude SsSize SsQueue SsMem.

Local Open Scope Z_scope.

Definition MAP_FAILED : Z := 2 ^ 64 - 1.

Abbreviation u32 := (wrap_u 32).

(** [body] for [i], [i + 1], ..., [n] times. *)
Fixpoint mfor (n : nat) (i : Z) (body : Z → M unit) : M unit :=
  match n with O => ret tt | S n => body i;; mfor n (i + 1) body end.

Definition mapped (pages : list mapping) (a : Z) : bool :=
  existsb (λ '(p, n), (p <=? a) && (a <? p + n)) pages.

(** An access to an address outside every mapping crashes. *)
Definition access (a : Z) : M unit := λ s, if mapped (s_pages s) a then Ret tt s else Faults.

(** What [munmap] leaves of the mappings. *)
Definition unmap (pos size : Z) (pages : list mapping) : list mapping :=
  flat_map (λ '(p, n),
    (if p <? pos then [(p, Z.min n (pos - p))] else []) ++
    (if pos + size <? p + n then [(Z.max p (pos + size), p + n - Z.max p (pos + size))] else [])) pages.

(** Pages that [mremap] has moved keep their contents. *)
Definition move_words (old new n : Z) (h : mem) : mem := λ c,
  match c with
  | Word a => if (new <=? a) && (a <? new + n) then h (Word (a - new + old)) else h c
  | _ => h c
  end.

(** [memset(&lh->free_head, 0, sizeof(lheap_t))] in [lheap_init]: the fields of
    the heap behind [numa_node], those of its dummy chunk, and whatever was
    kept at these addresses before. *)
Definition lheap_clear (lh : Z) (h : mem) : mem := λ c,
  let dc x := if bool_decide (x = lh ∨ x = lh + dummy_offset) then 0 else h c in
  let own x := if bool_decide (x = lh) then 0 else h c in
  match c with
  | Word a => if (lh + 32 <=? a) && (a <? lh + 32 + 9664) then 0 else h c
  | Next x | Prev x | NumaNode x => if bool_decide (x = lh + dummy_offset) then 0 else h c
  | Owner x | SizeCls x | State x | FreeBlkCnt x | BlkCnt x | FreeHead x | BlockSize x | FreeMem x
  | RemoteFreeHead x => dc x
  | LhFreeHead x | LhFreeCnt x | Foreground x _ | BackgroundHead x _ | BackgroundTail x _ | NeedGc x _
  | BufDc x _ | BufFirst x _ | BufHead x _ | BufCount x _ => own x
  | _ => h c
  end.

Section code.
Context (mmap : nat → Z → Z → list mapping → Z).
Context (mremap : nat → Z → Z → Z → list mapping → Z).
Context (memcpy : Z → Z → Z → mem → mem).
Context (memset : Z → Z → Z → mem → mem).

Definition modify (f : mem → mem) : M unit := λ s,
  Ret tt (St (f (s_mem s)) (s_maps s) (s_calls s) (s_pages s)).

Definition page_alloc (pos size : Z) : M Z := λ s,
  let r := mmap (s_calls s) pos size (s_pages s) in
  Ret r (St (s_mem s) (s_maps s) (S (s_calls s))
    (if bool_decide (r = MAP_FAILED) then s_pages s else (r, size) :: s_pages s)).

Definition page_free (pos size : Z) : M unit := λ s,
  Ret tt (St (s_mem s) (s_maps s) (S (s_calls s)) (unmap pos size (s_pages s))).

(** ** Global pool *)

Definition gpool_grow : M unit :=
  last_alloc <- get LastAlloc;;
  let alloc_size := s32 (ALLOC_UNIT * last_alloc) in
  (if last_alloc <? 32 then set LastAlloc (s32 (last_alloc * 2)) else ret tt);;
  pool_end <- get PoolEnd;;
  p <- page_alloc pool_end alloc_size;;
  if bool_decide (p = MAP_FAILED) then exit_process
  else pool_end <- get PoolEnd;; set PoolEnd (u64 (pool_end + alloc_size)).

(** [while (pool_end <= target) gpool_grow();] *)
Fixpoint gpool_grow_loop (n : nat) (target : Z) : M unit :=
  pool_end <- get PoolEnd;;
  if pool_end <=? target then
    match n with O => hang | S n => gpool_grow;; gpool_grow_loop n target end
  else ret tt.

(** One round is always enough. *)
Definition gpool_check_size (target : Z) : M unit :=
  pool_end <- get PoolEnd;;
  if pool_end <=? target then gpool_grow_loop 1 target else ret tt.

Definition gpool_init : M unit :=
  set PoolStart RAW_POOL_START;;
  set PoolEnd RAW_POOL_START;;
  set FreeStart RAW_POOL_START;;
  gpool_grow.

Definition gpool_make_raw_chunk : M Z :=
  cur <- get FreeStart;;
  let '(r, new) := atmc_fetch_and_add64 cur CHUNK_SIZE in
  set FreeStart new;;
  ret (u64 r).

(** [for (; ptr < end; ptr += PAGE_SIZE) *ptr = 0;], which clears the lowest byte of a word. *)
Fixpoint touch_memory (n : nat) (p e : Z) : M unit :=
  if p <? e then
    match n with
    | O => hang
    | S n => access p;; w <- get (Word p);; set (Word p) (Z.ldiff w 255);; touch_memory n (p + PAGE_SIZE) e
    end
  else ret tt.

Definition touch_memory_range (addr len : Z) : M unit :=
  touch_memory (Z.to_nat (len / PAGE_SIZE + 1)) addr (addr + len).

Definition gpool_acquire_chunk : M Z :=
  p <- queue_fetch (FreeDcHead get_core_id);;
  if bool_decide (p ≠ 0) then ret p
  else
    p <- gpool_make_raw_chunk;;
    gpool_check_size p;;
    let p := p - CHUNK_SIZE in
    access p;;
    set (NumaNode p) get_core_id;;
    touch_memory_range p CHUNK_SIZE;;
    ret p.

Definition gpool_release_chunk (dc : Z) : M unit :=
  numa_node <- get (NumaNode dc);;
  queue_put (FreeDcHead numa_node) dc.

(** ** Data chunks *)

Definition dchunk_change_cls (dc size_cls : Z) : M unit := λ s,
  let size := cls2size (s_maps s) size_cls in
  let data_offset := DCH in
  let blk_cnt := (CHUNK_SIZE - data_offset) / size in
  (set (BlkCnt dc) blk_cnt;;
   set (FreeBlkCnt dc) blk_cnt;;
   set (BlockSize dc) size;;
   set (FreeMem dc) (dc + data_offset);;
   set (SizeCls dc) size_cls;;
   set (FreeHead dc) seq_queue_init) s.

Definition dchunk_init (dc size_cls : Z) : M unit :=
  set (Next dc) 0;;
  set (Prev dc) 0;;
  dchunk_change_cls dc size_cls.

Definition dchunk_collect_garbage (dc : Z) : M unit :=
  head <- get (RemoteFreeHead dc);;
  let '(chain, head', count) := counted_chain_fetch head in
  set (RemoteFreeHead dc) head';;
  (if count is Some n then set (FreeBlkCnt dc) (u32 n) else ret tt);;
  set (FreeHead dc) chain.

Definition dchunk_alloc_obj (dc : Z) : M Z :=
  r <- get (FreeHead dc);;
  if bool_decide (r = 0) then
    r <- get (FreeMem dc);;
    block_size <- get (BlockSize dc);;
    set (FreeMem dc) (u64 (r + block_size));;
    ret r
  else
    next <- get (Word r);;
    set (FreeHead dc) next;;
    ret r.

(** ** Local heaps *)

Definition lheap_init (lh : Z) : M unit :=
  modify (lheap_clear lh);;
  let dummy_chunk := lh + dummy_offset in
  set (SizeCls dummy_chunk) DUMMY_CLASS;;
  set (FreeBlkCnt dummy_chunk) 1;;
  mfor (Z.to_nat DEFAULT_BLOCK_CLASS) 0 (λ size_cls, set (Foreground lh size_cls) dummy_chunk).

Definition gpool_acquire_lheap : M Z :=
  lh <- queue_fetch (FreeLhHead get_core_id);;
  if bool_decide (lh = 0) then
    lh <- gpool_acquire_chunk;;
    lheap_init lh;;
    ret lh
  else ret lh.

Definition gpool_release_lheap (t : tid) (lh : Z) : M unit :=
  local_heap <- get (LocalHeap t);;
  numa_node <- get (NumaNode local_heap);;
  queue_put (FreeLhHead numa_node) lh.

Definition lheap_replace_foreground (lh size_cls : Z) : M unit :=
  dc <- (dc <- get (BackgroundHead lh size_cls);;
         if bool_decide (dc ≠ 0) then
           double_list_remove dc (BackgroundHead lh size_cls) (BackgroundTail lh size_cls);; ret dc
         else
         dc <- fast_queue_fetch (NeedGc lh size_cls);;
         if bool_decide (dc ≠ 0) then
           dchunk_collect_garbage dc;; ret dc
         else
         dc <- seq_queue_fetch (LhFreeHead lh);;
         if bool_decide (dc ≠ 0) then
           free_cnt <- get (LhFreeCnt lh);;
           set (LhFreeCnt lh) (u32 (free_cnt - 1));;
           dchunk_change_cls dc size_cls;; ret dc
         else
         dc <- gpool_acquire_chunk;;
         set (Owner dc) lh;;
         set (RemoteFreeHead dc) sc_queue_init;;
         dchunk_init dc size_cls;;
         ret dc);;
  set (Foreground lh size_cls) dc;;
  set (State dc) FOREGROUND.

(** ** Threads *)

Definition thread_init (t : tid) : M unit :=
  lh <- gpool_acquire_lheap;;
  set (LocalHeap t) lh;;
  set (ThreadState t) READY.

Definition global_init : M unit :=
  gpool_init;;
  (λ s, match maps_init (s_maps s) with
        | Some m => Ret tt (St (s_mem s) m (s_calls s) (s_pages s))
        | None => Hangs
        end);;
  set GlobalState READY.

Definition check_init (t : tid) : M unit :=
  thread_state <- get (ThreadState t);;
  if bool_decide (thread_state ≠ READY) then
    global_state <- get GlobalState;;
    (if bool_decide (global_state ≠ READY) then
       once <- get InitOnce;;
       if bool_decide (once = 0) then set InitOnce 1;; global_init else ret tt
     else ret tt);;
    thread_init t
  else ret tt.

(** The destructor. *)
Definition thread_exit (t : tid) : M unit :=
  local_heap <- get (LocalHeap t);;
  gpool_release_lheap t local_heap.

(** The thread-local variables go with the thread; a thread that gets the same
    number later finds them as they are initialised. *)
Definition thread_gone (t : tid) : M unit :=
  set (ThreadState t) UNINITIALIZED;;
  set (LocalHeap t) 0;;
  set (BufCnt t) 0.

(** ** Object buffers *)

Definition obj_buf_flush (lh0 i : Z) : M unit :=
  dc <- get (BufDc lh0 i);;
  lh <- get (Owner dc);;
  head <- get (RemoteFreeHead dc);;
  elems <- get (BufHead lh0 i);;
  first <- get (BufFirst lh0 i);;
  count <- get (BufCount lh0 i);;
  (λ s, let '(prev, head', nx) := counted_chain_put head (words (s_mem s)) elems first count in
    (set (Word first) (nx first);;
     set (RemoteFreeHead dc) head';;
     set (BufCount lh0 i) 0;;
     set (BufDc lh0 i) 0;;
     set (BufFirst lh0 i) 0;;
     set (BufHead lh0 i) 0;;
     if bool_decide (prev = 0) then
       size_cls <- get (SizeCls dc);;
       fast_queue_put (NeedGc lh size_cls) dc
     else ret tt) s).

Definition obj_buf_flush_all (lh : Z) : M unit :=
  mfor (Z.to_nat BLOCK_BUF_CNT) 0 (λ i,
    count <- get (BufCount lh i);;
    if bool_decide (count = 0) then ret tt
    else obj_buf_flush lh i;; set (BufDc lh i) 0).

Definition obj_buf_put (lh i dc p : Z) : M unit :=
  buf_dc <- get (BufDc lh i);;
  (if bool_decide (buf_dc ≠ dc) then
     (if bool_decide (buf_dc ≠ 0) then obj_buf_flush lh i else ret tt);;
     set (BufDc lh i) dc;;
     set (BufFirst lh i) p;;
     set (BufCount lh i) 0;;
     set (BufHead lh i) 0
   else ret tt);;
  seq_queue_put (BufHead lh i) p;;
  count <- get (BufCount lh i);;
  set (BufCount lh i) (s32 (count + 1)).

(** ** Large blocks *)

(** The first round succeeds; see [large_distance]. *)
Fixpoint large_malloc (n : nat) (size : Z) : M Z :=
  match n with
  | O => hang
  | S n =>
      let alloc_size := PAGE_ROUNDUP (u64 (size + CHUNK_SIZE)) in
      p <- page_alloc 0 alloc_size;;
      let mem_start := u64 (p + CHUNK_SIZE - CACHE_LINE_SIZE) in
      let header := dchunk_extract mem_start in
      let distance := mem_start - header in
      if sizeof_large_header <=? distance then
        access header;; access (header + CACHE_LINE_SIZE);;
        set (AllocSize header) alloc_size;;
        set (Mem header) p;;
        set (Owner header) LARGE_OWNER;;
        ret mem_start
      else
        r <- large_malloc n size;;
        page_free p alloc_size;;
        ret r
  end.

Definition large_free (p : Z) : M unit :=
  let header := dchunk_extract p in
  m <- get (Mem header);;
  alloc_size <- get (AllocSize header);;
  page_free m alloc_size.

Fixpoint large_memalign (n : nat) (boundary size : Z) : M Z :=
  match n with
  | O => hang
  | S n =>
      let padding := u64 (boundary + CHUNK_SIZE) in
      let alloc_size := PAGE_ROUNDUP (u64 (size + padding)) in
      p <- page_alloc 0 alloc_size;;
      let mem_start := Z.land (u64 (p + padding)) (u64 (Z.lnot (boundary - 1))) in
      let header := dchunk_extract mem_start in
      let distance := mem_start - header in
      if sizeof_large_header <=? distance then
        access header;; access (header + CACHE_LINE_SIZE);;
        set (AllocSize header) alloc_size;;
        set (Mem header) p;;
        set (Owner header) LARGE_OWNER;;
        ret mem_start
      else
        r <- (if bool_decide (boundary `mod` CHUNK_SIZE ≠ 0) then large_memalign n boundary size else ret 0);;
        page_free p alloc_size;;
        ret r
  end.

(** ** Small blocks *)

(** The second round succeeds: the first one may find the dummy chunk. *)
Fixpoint small_malloc_loop (n : nat) (lh size_cls : Z) : M Z :=
  match n with
  | O => hang
  | S n =>
      dc <- get (Foreground lh size_cls);;
      r <- dchunk_alloc_obj dc;;
      free_blk_cnt <- get (FreeBlkCnt dc);;
      let free_blk_cnt := u32 (free_blk_cnt - 1) in
      set (FreeBlkCnt dc) free_blk_cnt;;
      if bool_decide (free_blk_cnt = 0) then
        set (State dc) FULL;;
        lheap_replace_foreground lh size_cls;;
        cls <- get (SizeCls dc);;
        if bool_decide (cls = DUMMY_CLASS) then
          set (FreeBlkCnt dc) 1;;
          small_malloc_loop n lh size_cls
        else ret r
      else ret r
  end.

Definition small_malloc (t : tid) (size_cls : Z) : M Z :=
  lh <- get (LocalHeap t);;
  access lh;;
  small_malloc_loop 2 lh size_cls.

Definition local_free (lh dc p : Z) : M unit :=
  free_blk_cnt <- get (FreeBlkCnt dc);;
  let free_blk_cnt := u32 (free_blk_cnt + 1) in
  set (FreeBlkCnt dc) free_blk_cnt;;
  seq_queue_put (FreeHead dc) p;;
  state <- get (State dc);;
  size_cls <- get (SizeCls dc);;
  if bool_decide (state = FULL) then
    double_list_insert_front dc (BackgroundHead lh size_cls) (BackgroundTail lh size_cls);;
    set (State dc) BACKGROUND
  else if bool_decide (state = BACKGROUND) then
    blk_cnt <- get (BlkCnt dc);;
    if bool_decide (free_blk_cnt = blk_cnt) then
      free_cnt <- get (LhFreeCnt lh);;
      double_list_remove dc (BackgroundHead lh size_cls) (BackgroundTail lh size_cls);;
      if MAX_FREE_CHUNK <=? free_cnt then gpool_release_chunk dc
      else seq_queue_put (LhFreeHead lh) dc;; set (LhFreeCnt lh) (u32 (free_cnt + 1))
    else ret tt
  else ret tt.

Definition remote_free (t : tid) (lh dc p : Z) : M unit :=
  let tag := dc / CHUNK_SIZE `mod` BLOCK_BUF_CNT in
  obj_buf_put lh tag dc p;;
  buf_cnt <- get (BufCnt t);;
  set (BufCnt t) (s32 (buf_cnt + 1));;
  if bool_decide (Z.land buf_cnt 0xFFFF = 0) then obj_buf_flush_all lh else ret tt.

(** ** Interface *)

Definition malloc (t : tid) (size : Z) : M Z :=
  check_init t;;
  let size := if bool_decide (size = 0) then 1 else size in
  (λ s,
    let size_cls := size2cls (s_maps s) size in
    (if size_cls <? DEFAULT_BLOCK_CLASS then small_malloc t size_cls else large_malloc 1 size) s).

Definition free (t : tid) (p : Z) : M unit :=
  if bool_decide (p = 0) then ret tt
  else
    let dc := dchunk_extract p in
    lh <- get (LocalHeap t);;
    access dc;;
    target_lh <- get (Owner dc);;
    if bool_decide (target_lh = lh) then local_free lh dc p
    else if bool_decide (target_lh ≠ LARGE_OWNER) then
      check_init t;;
      lh <- get (LocalHeap t);;
      remote_free t lh dc p
    else large_free p.

Definition realloc (t : tid) (p size : Z) : M Z :=
  if bool_decide (p = 0) then malloc t size
  else
    (if bool_decide (size = 0) then free t p else ret tt);;
    let dc := dchunk_extract p in
    access dc;;
    owner <- get (Owner dc);;
    if bool_decide (owner ≠ LARGE_OWNER) then
      size_cls <- get (SizeCls dc);;
      (λ s,
        let old_size := cls2size (s_maps s) size_cls in
        (if size <=? old_size then ret p
         else
           new_ptr <- malloc t size;;
           modify (memcpy new_ptr p old_size);;
           free t p;;
           ret new_ptr) s)
    else
      alloc_size <- get (AllocSize dc);;
      m <- get (Mem dc);;
      let offset := u64 (p - m) in
      let old_size := u64 (alloc_size - offset) in
      if size <=? old_size then ret p
      else
        let new_size := s32 (PAGE_ROUNDUP (u64 (size + CHUNK_SIZE))) in
        m' <- (λ s,
          let r := mremap (s_calls s) m alloc_size (u64 new_size) (s_pages s) in
          if bool_decide (r = MAP_FAILED) then Ret r (St (s_mem s) (s_maps s) (S (s_calls s)) (s_pages s))
          else Ret r (St (move_words m r alloc_size (s_mem s)) (s_maps s) (S (s_calls s))
                         ((r, u64 new_size) :: unmap m alloc_size (s_pages s))));;
        let mem_start := u64 (m' + offset) in
        let header := dchunk_extract mem_start in
        if sizeof_large_header <=? mem_start - header then
          access header;; access (header + CACHE_LINE_SIZE);;
          set (AllocSize header) (u64 new_size);;
          set (Mem header) m';;
          set (Owner header) LARGE_OWNER;;
          ret mem_start
        else
          new_ptr <- large_malloc 1 size;;
          modify (memcpy new_ptr mem_start old_size);;
          free t m';;
          ret new_ptr.

Definition calloc (t : tid) (nmemb size : Z) : M Z :=
  p <- malloc t (u64 (nmemb * size));;
  if bool_decide (p = 0) then ret 0
  else modify (memset p 0 (u64 (nmemb * size)));; ret p.

Definition memalign (n : nat) (t : tid) (boundary size : Z) : M Z := λ s,
  let size := if bool_decide (size = 0) then 1 else size in
  (if (boundary <=? 256) && (size <=? 65536) then
     let boundary_cls := size2cls (s_maps s) boundary in
     let size_cls := size2cls (s_maps s) size in
     small_malloc t (max boundary_cls size_cls)
   else large_memalign n boundary size) s.

(** The return value and [*memptr]. *)
Definition posix_memalign (n : nat) (t : tid) (alignment size : Z) : M (Z * Z) :=
  p <- memalign n t alignment size;;
  ret (if bool_decide (p ≠ 0) then 0 else -1, p).

Definition valloc (n : nat) (t : tid) (size : Z) : M Z := memalign n t PAGE_SIZE size.

Definition pvalloc (size : Z) : M Z := exit_process.

(** The static variables before the first call. *)
Definition ss_start : st := {|
  s_mem := <[LastAlloc := 8]> (λ _, 0);
  s_maps := maps0;
  s_calls := 0;
  s_pages := [];
|}.
End code.
