(* ===== verification/SsLinks.v ===== *)
(** * The linked lists of SSMalloc

    Free blocks, buffered blocks, chunks that wait for something and idle
    heaps are all linked through their first words.  This file accounts for
    all these lists at once: which list starts at which head, that no two
    lists share an element, and what pushing, popping, concatenating and
    dropping does to the account. *)

From S2P Require Import Prelude SsSize SsQueue SsMem.

Local Open Scope Z_scope.

(** The lists. *)
Inductive lid :=
  | LFree (dc : Z)           (** free blocks of a chunk *)
  | LRemote (dc : Z)         (** blocks freed by other threads *)
  | LBuf (lh i : Z)          (** blocks in an object buffer of a heap *)
  | LNeed (lh cls : Z)       (** chunks with remotely freed blocks *)
  | LLocal (lh : Z)          (** empty chunks of a heap *)
  | LGlobal                  (** empty chunks of the pool *)
  | LHeaps.                  (** heaps without a thread *)

#[export] Instance lid_eq_dec : EqDecision lid.
Proof. solve_decision. Defined.

Definition head_of (h : mem) (l : lid) : Z :=
  match l with
  | LFree dc => h (FreeHead dc)
  | LRemote dc => ABA_ADDR (h (RemoteFreeHead dc))
  | LBuf lh i => h (BufHead lh i)
  | LNeed lh cls => h (NeedGc lh cls)
  | LLocal lh => h (LhFreeHead lh)
  | LGlobal => ABA_ADDR (h (FreeDcHead get_core_id))
  | LHeaps => ABA_ADDR (h (FreeLhHead get_core_id))
  end.

(** [V] says which lists exist. *)
Record links (nx : Z → Z) (hd : lid → Z) (V : lid → Prop) (ls : lid → list Z) : Prop := {
  lk_list l : V l → zlist nx (hd l) (ls l);
  lk_none l : ¬ V l → ls l = [];
  lk_nodup l : NoDup (ls l);
  lk_sep l l' x : x ∈ ls l → x ∈ ls l' → l = l';
}.

(** ** Lists *)

Lemma zlist_pos nx a l x : zlist nx a l → x ∈ l → 0 < x.
Proof.
  revert a. induction l as [|y l IH]; intros a; simpl; [by intros _ ?%elem_of_nil|].
  intros (_ & ? & Hl) [->|?]%elem_of_cons; eauto.
Qed.

Lemma zlist_chain nx a l y b k :
  zlist nx a l → last l = Some y → NoDup l → y ∉ k → zlist nx b k →
  zlist (<[y := b]> nx) a (l ++ k).
Proof.
  revert a. induction l as [|x l IH]; intros a Hz Hl Hnd Hy Hk; [done|].
  destruct Hz as (-> & Hx & Hz). apply NoDup_cons in Hnd as [Hxl Hnd]. simpl. split_and!; [done..|].
  destruct l as [|z l].
  - injection Hl as ->. rewrite fn_lookup_insert. by apply zlist_insert.
  - rewrite fn_lookup_insert_ne; [by apply IH|]. intros ->. apply Hxl.
    by apply last_Some_elem_of.
Qed.

Lemma zlist_last nx a l y : zlist nx a l → last l = Some y → nx y = 0.
Proof.
  revert a. induction l as [|x [|z l] IH]; intros a Hz Hl; [done| |].
  - injection Hl as ->. by destruct Hz as (_ & _ & ?).
  - destruct Hz as (_ & _ & Hz). by eapply IH.
Qed.

Section links.
Context {nx : Z → Z} {hd : lid → Z} {V : lid → Prop} {ls : lid → list Z}.
Context (Hlk : links nx hd V ls).

Lemma links_pos l x : x ∈ ls l → 0 < x.
Proof.
  intros Hx. destruct (decide (ls l = [])) as [He|Hne]; [rewrite He in Hx; by apply elem_of_nil in Hx|].
  assert (¬ ¬ V l) as HV by (intros HV; apply Hne; by apply (lk_none _ _ _ _ Hlk)).
  destruct (decide (0 < x)); [done|]. exfalso. apply HV. intros HVl.
  eapply zlist_pos in Hx; [done|]. by apply (lk_list _ _ _ _ Hlk).
Qed.

Lemma links_ext nx' hd' V' :
  (∀ l x, x ∈ ls l → nx' x = nx x) → (∀ l, V l → hd' l = hd l) → (∀ l, V' l ↔ V l) →
  links nx' hd' V' ls.
Proof.
  destruct Hlk as [H1 H2 H3 H4]. intros Hn Hh HV. split; [..|done|done].
  - intros l Hl%HV. rewrite Hh by done. eapply zlist_frame; [|by auto]. eauto.
  - intros l Hl. apply H2. by rewrite <-HV.
Qed.

Lemma links_push l x nx' hd' :
  V l → (∀ l', x ∉ ls l') → 0 < x →
  (∀ a, nx' a = (<[x := hd l]> nx) a) → (∀ l', V l' → hd' l' = (<[l := x]> hd) l') →
  links nx' hd' V (<[l := x :: ls l]> ls).
Proof.
  destruct Hlk as [H1 H2 H3 H4]. intros HV Hx Hpos Hn Hh. split.
  - intros l' HV'. rewrite Hh by done. apply (zlist_frame (<[x := hd l]> nx)); [done|].
    destruct (decide (l' = l)) as [->|].
    + rewrite !fn_lookup_insert. simpl. split_and!; [done..|]. rewrite fn_lookup_insert. apply zlist_insert; auto.
    + rewrite !fn_lookup_insert_ne by done. apply zlist_insert; auto.
  - intros l' HV'. rewrite fn_lookup_insert_ne by congruence. auto.
  - intros l'. destruct (decide (l' = l)) as [->|].
    + rewrite fn_lookup_insert. by constructor.
    + rewrite fn_lookup_insert_ne by done. auto.
  - intros l1 l2 y. destruct (decide (l1 = l)) as [->|]; destruct (decide (l2 = l)) as [->|];
      rewrite ?fn_lookup_insert, ?fn_lookup_insert_ne, ?elem_of_cons by done; [done|..|by apply H4].
    + intros [->|?] ?; [by destruct (Hx l2)|by eapply H4].
    + intros ? [->|?]; [by destruct (Hx l1)|by eapply H4].
Qed.

Lemma links_sub ls' nx' hd' V' :
  (∀ l x, x ∈ ls' l → nx' x = nx x) →
  (∀ l, V' l → zlist nx (hd' l) (ls' l)) → (∀ l, ¬ V' l → ls' l = []) → (∀ l, ls' l `sublist_of` ls l) →
  links nx' hd' V' ls'.
Proof.
  destruct Hlk as [H1 H2 H3 H4]. intros Hn Hz Hno Hsub. split.
  - intros l HV. eapply zlist_frame; [|by apply Hz]. eauto.
  - done.
  - intros l. eapply sublist_NoDup; eauto.
  - intros l l' x Hx Hx'. apply (H4 l l' x); (eapply elem_of_sublist; [|apply Hsub]; done).
Qed.

Lemma links_pop l x q nx' hd' :
  V l → ls l = x :: q →
  (∀ a, nx' a = nx a) → (∀ l', V l' → hd' l' = (<[l := nx x]> hd) l') →
  links nx' hd' V (<[l := q]> ls).
Proof.
  intros HV Hl Hn Hh. pose proof (lk_list _ _ _ _ Hlk l HV) as Hz. rewrite Hl in Hz. destruct Hz as (_ & _ & Hz).
  apply links_sub; [done|..].
  - intros l' HV'. rewrite Hh by done. destruct (decide (l' = l)) as [->|].
    + by rewrite !fn_lookup_insert.
    + rewrite !fn_lookup_insert_ne by done. by apply (lk_list _ _ _ _ Hlk).
  - intros l' HV'. rewrite fn_lookup_insert_ne by congruence. by apply (lk_none _ _ _ _ Hlk).
  - intros l'. destruct (decide (l' = l)) as [->|].
    + rewrite fn_lookup_insert, Hl. by apply sublist_cons.
    + by rewrite fn_lookup_insert_ne by done.
Qed.

(** The whole of [l] is put in front of [l']. *)
Lemma links_chain l l' y nx' hd' :
  V l → V l' → l ≠ l' → last (ls l) = Some y →
  (∀ a, nx' a = (<[y := hd l']> nx) a) →
  (∀ k, V k → hd' k = (<[l := 0]> (<[l' := hd l]> hd)) k) →
  links nx' hd' V (<[l := []]> (<[l' := ls l ++ ls l']> ls)).
Proof.
  destruct Hlk as [H1 H2 H3 H4]. intros HV HV' Hne Hlast Hn Hh.
  assert (y ∈ ls l) as Hy by by apply last_Some_elem_of.
  split.
  - intros k Hk. rewrite Hh by done. apply (zlist_frame (<[y := hd l']> nx)); [done|].
    destruct (decide (k = l)) as [->|]; [by rewrite !fn_lookup_insert|].
    rewrite !(fn_lookup_insert_ne _ l k) by done. destruct (decide (k = l')) as [->|].
    + rewrite !fn_lookup_insert. apply zlist_chain; auto. intros ?. by destruct Hne, (H4 l l' y).
    + rewrite !fn_lookup_insert_ne by done. apply zlist_insert; [|by auto]. intros ?. by destruct (H4 l k y).
  - intros k Hk. rewrite !fn_lookup_insert_ne by congruence. auto.
  - intros k. destruct (decide (k = l)) as [->|]; [rewrite fn_lookup_insert; constructor|].
    rewrite (fn_lookup_insert_ne _ l k) by done. destruct (decide (k = l')) as [->|].
    + rewrite fn_lookup_insert. apply NoDup_app. split_and!; auto. intros x ? ?. by destruct Hne, (H4 l l' x).
    + rewrite fn_lookup_insert_ne by done. auto.
  - assert (∀ k x, x ∈ (<[l := []]> (<[l' := ls l ++ ls l']> ls)) k →
      k ≠ l ∧ ((k = l' ∧ x ∈ ls l) ∨ x ∈ ls k)) as Hin.
    { intros k x. destruct (decide (k = l)) as [->|]; [rewrite fn_lookup_insert; by intros ?%elem_of_nil|].
      rewrite (fn_lookup_insert_ne _ l k) by done. destruct (decide (k = l')) as [->|].
      - rewrite fn_lookup_insert, elem_of_app. naive_solver.
      - rewrite fn_lookup_insert_ne by done. auto. }
    intros k k' x [Hk Hx]%Hin [Hk' Hx']%Hin.
    destruct Hx as [[-> Hx]|Hx], Hx' as [[-> Hx']|Hx']; [done|..|by eapply H4]; exfalso.
    + destruct Hk'. by apply (H4 k' l x).
    + destruct Hk. by apply (H4 k l x).
Qed.

(** The whole of [l] becomes the empty list [l']. *)
Lemma links_take l l' nx' hd' :
  V l → V l' → l ≠ l' → ls l' = [] → ls l ≠ [] →
  (∀ a, nx' a = nx a) → (∀ k, V k → hd' k = (<[l := 0]> (<[l' := hd l]> hd)) k) →
  links nx' hd' V (<[l := []]> (<[l' := ls l]> ls)).
Proof.
  intros HV HV' Hne Hnil Hcons Hn Hh.
  destruct (last (ls l)) as [y|] eqn:Hlast; [|by apply last_None in Hlast].
  pose proof (zlist_last _ _ _ _ (lk_list _ _ _ _ Hlk l HV) Hlast) as Hy.
  pose proof (lk_list _ _ _ _ Hlk l' HV') as Hz. rewrite Hnil in Hz. simpl in Hz.
  replace (ls l) with (ls l ++ ls l') by (by rewrite Hnil, app_nil_r).
  eapply (links_chain l l' y); try done.
  intros a. rewrite Hn, Hz. destruct (decide (a = y)) as [->|]; simpl_fn; done.
Qed.
End links.
