(* ===== verification/SsInv.v ===== *)
(** * The invariant of SSMalloc

    A ghost state records where every chunk and every block is: chunks are
    data chunks of a heap (foreground, background or full), empty and kept by
    a heap or by the pool, or heaps themselves; blocks are handed out, in a
    list of [SsLinks.v], or not yet cut off from their chunk.  The invariant
    ties the ghost state to the memory. *)

From S2P Require Import Prelude SsSize SsQueue SsMem SsMalloc SsLinks.

Local Open Scope Z_scope.

(** ** Ghost state *)

Inductive cstat :=
  | CNone                  (** not a chunk *)
  | CLimbo                 (** held by the running call *)
  | CHeap                  (** a heap *)
  | CFg (lh c : Z)
  | CBg (lh c : Z)
  | CFull (lh c : Z)
  | CIdle (lh : Z)         (** in the free list of a heap *)
  | CGlob.                 (** in the free list of the pool *)

#[export] Instance cstat_eq_dec : EqDecision cstat.
Proof. solve_decision. Defined.

(** Owner and size class of a chunk that holds blocks. *)
Definition cdata (s : cstat) : option (Z * Z) :=
  match s with CFg lh c | CBg lh c | CFull lh c => Some (lh, c) | _ => None end.

Definition cstate (s : cstat) : Z :=
  match s with CFg _ _ => FOREGROUND | CBg _ _ => BACKGROUND | _ => FULL end.

Record ghost := Ghost {
  g_ls : lid → list Z;
  g_cs : Z → cstat;
  g_bg : Z → Z → list Z;
  g_live : gset Z;                 (** small blocks handed out *)
  g_large : gmap Z mapping;        (** large blocks handed out, with their pages *)
}.

(** What may be out of place while a call runs: the foreground chunk of a
    class, and the counter of the dummy chunk. *)
Inductive hole := HNone | HFg (lh c : Z) | HDummy (lh : Z).

(** ** Definitions *)

(** The lists that exist. *)
Definition valid (cs : Z → cstat) (l : lid) : Prop :=
  match l with
  | LFree dc | LRemote dc => is_Some (cdata (cs dc))
  | LBuf lh _ | LNeed lh _ | LLocal lh => cs lh = CHeap
  | LGlobal | LHeaps => True
  end.

Definition is_blk (l : lid) : bool :=
  match l with LFree _ | LRemote _ | LBuf _ _ => true | _ => false end.

Abbreviation sz := (cls2size tables).

(** [x] is a block of [dc] that has been cut off. *)
Definition block (h : mem) (dc x : Z) : Prop :=
  ∃ i, 0 ≤ i ∧ x = dc + DCH + i * h (BlockSize dc) ∧ x < h (FreeMem dc).

Record chunk_ok (h : mem) (g : ghost) (dc lh c : Z) : Prop := {
  ck_cls : 0 ≤ c < NCLS;
  ck_heap : g_cs g lh = CHeap;
  ck_owner : h (Owner dc) = lh;
  ck_size_cls : h (SizeCls dc) = c;
  ck_bs : h (BlockSize dc) = sz c;
  ck_cnt : h (BlkCnt dc) = CHUNK_DATA_SIZE / sz c;
  ck_state : h (State dc) = cstate (g_cs g dc);
  ck_fresh : ∃ k, 0 ≤ k ≤ CHUNK_DATA_SIZE / sz c ∧ h (FreeMem dc) = dc + DCH + k * sz c ∧
    h (FreeBlkCnt dc) = length (g_ls g (LFree dc)) + (CHUNK_DATA_SIZE / sz c - k);
  ck_remote : h (RemoteFreeHead dc) =
    head_of h (LRemote dc) + length (g_ls g (LRemote dc)) * 2 ^ 48;
  ck_free : if bool_decide (g_cs g dc = CFull lh c) then h (FreeBlkCnt dc) = 0 else 1 ≤ h (FreeBlkCnt dc);
}.

Record buf_ok (h : mem) (g : ghost) (lh i : Z) : Prop := {
  bf_count : h (BufCount lh i) = length (g_ls g (LBuf lh i));
  bf_empty : g_ls g (LBuf lh i) = [] → h (BufDc lh i) = 0;
  bf_first : g_ls g (LBuf lh i) ≠ [] → last (g_ls g (LBuf lh i)) = Some (h (BufFirst lh i));
  bf_at x : x ∈ g_ls g (LBuf lh i) → dchunk_extract x = h (BufDc lh i);
}.

(** The region that the pool may grow into. *)
Definition POOL_LIMIT : Z := 0x700000000000.

(** [RAW_POOL_START] is not page-aligned: the pages of the pool begin this
    many bytes before it, and end as many bytes before [pool_end]. *)
Definition POOL_SKEW : Z := 256.

Definition disj (m m' : mapping) : Prop := m.1 + m.2 ≤ m'.1 ∨ m'.1 + m'.2 ≤ m.1.

(** Pages outside the region of the pool. *)
Definition outside (m : mapping) : Prop := m.1 + m.2 ≤ RAW_POOL_START - POOL_SKEW ∨ POOL_LIMIT ≤ m.1.

(** [gpool_grow] has been called. *)
Record pool_ready (h : mem) : Prop := {
  pr_start : RAW_POOL_START ≤ h FreeStart < h PoolEnd;
  pr_end : h PoolEnd `mod` PAGE_SIZE = POOL_SKEW;
}.

Record pool_ok (h : mem) (pages : list mapping) : Prop := {
  pl_start : 0 ≤ h FreeStart ≤ h PoolEnd;
  pl_limit : h PoolEnd ≤ POOL_LIMIT + POOL_SKEW;
  pl_align : h FreeStart `mod` CHUNK_SIZE = 0;
  pl_mapped a : RAW_POOL_START ≤ a < h PoolEnd - POOL_SKEW → mapped pages a = true;
  pl_last : h LastAlloc = 8 ∨ h LastAlloc = 16 ∨ h LastAlloc = 32;
  pl_ready : h GlobalState = READY → pool_ready h;
}.

Record pages_ok (h : mem) (pages : list mapping) : Prop := {
  pg_nodup : NoDup pages;
  pg_disj m m' : m ∈ pages → m' ∈ pages → m ≠ m' → disj m m';
  pg_pos m : m ∈ pages → 0 < m.1 ∧ 0 < m.2 ∧ m.1 + m.2 ≤ 2 ^ 47;
  pg_where m : m ∈ pages →
    outside m ∨ (RAW_POOL_START - POOL_SKEW ≤ m.1 ∧ m.1 + m.2 ≤ h PoolEnd - POOL_SKEW);
}.

Record large_ok (h : mem) (pages : list mapping) (p : Z) (m : mapping) : Prop := {
  lg_page : m ∈ pages;
  lg_out : outside m;
  lg_head : m.1 ≤ dchunk_extract p;
  lg_room : dchunk_extract p + sizeof_large_header ≤ p ≤ m.1 + m.2;
  lg_owner : h (Owner (dchunk_extract p)) = LARGE_OWNER;
  lg_size : h (AllocSize (dchunk_extract p)) = m.2;
  lg_mem : h (Mem (dchunk_extract p)) = m.1;
}.

Record threads_ok (h : mem) (g : ghost) (m : maps) : Prop := {
  th_ready t : h (ThreadState t) = READY →
    g_cs g (h (LocalHeap t)) = CHeap ∧ h (LocalHeap t) ∉ g_ls g LHeaps ∧ h GlobalState = READY;
  th_unready t : h (ThreadState t) ≠ READY → h (LocalHeap t) = 0;
  th_excl t t' : h (ThreadState t) = READY → h (ThreadState t') = READY →
    h (LocalHeap t) = h (LocalHeap t') → t = t';
  th_tables : h GlobalState = READY → m = tables;
  th_start : h GlobalState ≠ READY →
    m = maps0 ∧ h InitOnce = 0 ∧ h FreeStart = 0 ∧ h PoolEnd = 0;
}.

(** Chunks, heaps and blocks. *)
Record heap_ok (H : hole) (g : ghost) (h : mem) : Prop := {
  i_links : links (words h) (head_of h) (valid (g_cs g)) (g_ls g);
  i_blk l x : is_blk l = true → x ∈ g_ls g l →
    is_Some (cdata (g_cs g (dchunk_extract x))) ∧ block h (dchunk_extract x) x;
  i_at dc x : x ∈ g_ls g (LFree dc) ∨ x ∈ g_ls g (LRemote dc) → dchunk_extract x = dc;
  i_buf lh i : g_cs g lh = CHeap → buf_ok h g lh i;
  i_live x : x ∈ g_live g →
    is_Some (cdata (g_cs g (dchunk_extract x))) ∧ block h (dchunk_extract x) x ∧ ∀ l, x ∉ g_ls g l;
  i_chunk dc lh c : cdata (g_cs g dc) = Some (lh, c) → chunk_ok h g dc lh c;
  i_need lh c dc : dc ∈ g_ls g (LNeed lh c) ↔ cdata (g_cs g dc) = Some (lh, c) ∧ g_ls g (LRemote dc) ≠ [];
  i_local lh x : x ∈ g_ls g (LLocal lh) ↔ g_cs g x = CIdle lh;
  i_idle lh x : g_cs g x = CIdle lh → h (Owner x) = lh ∧ h (RemoteFreeHead x) = 0;
  i_global x : x ∈ g_ls g LGlobal ↔ g_cs g x = CGlob;
  i_heaps x : x ∈ g_ls g LHeaps → g_cs g x = CHeap;
  i_pos x : g_cs g x ≠ CNone →
    RAW_POOL_START ≤ x ∧ x + CHUNK_SIZE ≤ h FreeStart ∧ x `mod` CHUNK_SIZE = 0 ∧ h (NumaNode x) = 0;
  i_fg lh c : g_cs g lh = CHeap → 0 ≤ c < NCLS → H ≠ HFg lh c →
    h (Foreground lh c) = lh + dummy_offset ∨ g_cs g (h (Foreground lh c)) = CFg lh c;
  i_fg_at lh c x : g_cs g x = CFg lh c → H ≠ HFg lh c ∧ h (Foreground lh c) = x;
  i_dummy lh : g_cs g lh = CHeap →
    h (SizeCls (lh + dummy_offset)) = DUMMY_CLASS ∧ h (FreeHead (lh + dummy_offset)) = 0;
  i_dummy_cnt lh : g_cs g lh = CHeap → (∀ c, H ≠ HFg lh c) → H ≠ HDummy lh →
    h (FreeBlkCnt (lh + dummy_offset)) = 1;
  i_bg lh c : g_cs g lh = CHeap →
    dlist h (BackgroundHead lh c) (BackgroundTail lh c) (g_bg g lh c);
  i_bg_at lh c x : x ∈ g_bg g lh c ↔ g_cs g x = CBg lh c;
  i_cnt lh : g_cs g lh = CHeap →
    h (LhFreeCnt lh) = length (g_ls g (LLocal lh)) ∧ length (g_ls g (LLocal lh)) ≤ MAX_FREE_CHUNK;
}.

Record inv (H : hole) (g : ghost) (s : st) : Prop := {
  v_heap : heap_ok H g (s_mem s);
  v_pool : pool_ok (s_mem s) (s_pages s);
  v_pages : pages_ok (s_mem s) (s_pages s);
  v_large p m : g_large g !! p = Some m → large_ok (s_mem s) (s_pages s) p m;
  v_large_sep p p' m : g_large g !! p = Some m → g_large g !! p' = Some m → p = p';
  v_threads : threads_ok (s_mem s) g (s_maps s);
}.

(** ** Geometry *)

Lemma extract_at dc x : dc `mod` CHUNK_SIZE = 0 → dc ≤ x < dc + CHUNK_SIZE → dchunk_extract x = dc.
Proof.
  intros Hdc Hx. unfold dchunk_extract. pose proof (Z.div_mod dc CHUNK_SIZE ltac:(done)).
  replace x with ((x - dc) + dc / CHUNK_SIZE * CHUNK_SIZE) at 2 by lia.
  rewrite Z_mod_plus_full, Z.mod_small by lia. lia.
Qed.

Lemma extract_range x : dchunk_extract x ≤ x < dchunk_extract x + CHUNK_SIZE.
Proof. unfold dchunk_extract. pose proof (Z.mod_pos_bound x CHUNK_SIZE ltac:(done)). lia. Qed.

Lemma extract_mod x : dchunk_extract x `mod` CHUNK_SIZE = 0.
Proof. unfold dchunk_extract. by rewrite Zminus_mod_idemp_r, Z.sub_diag. Qed.

Section heap.
Context {H : hole} {g : ghost} {h : mem} (Hok : heap_ok H g h).

Lemma cs_pos x : g_cs g x ≠ CNone → 0 < x ∧ x `mod` CHUNK_SIZE = 0.
Proof. intros (? & _ & ? & _)%(i_pos _ _ _ Hok). split; [|done]. assert (0 < RAW_POOL_START) by done. lia. Qed.

Lemma cdata_pos x : is_Some (cdata (g_cs g x)) → 0 < x ∧ x `mod` CHUNK_SIZE = 0.
Proof. intros [? Hx]. apply cs_pos. intros Hn. by rewrite Hn in Hx. Qed.

Lemma dummy_not_chunk lh x : g_cs g lh = CHeap → g_cs g x ≠ CNone → x ≠ lh + dummy_offset.
Proof.
  intros Hl [_ Hx]%cs_pos ->. destruct (cs_pos lh) as [_ Hm]; [by rewrite Hl|].
  rewrite Zplus_mod, Hm in Hx. done.
Qed.

Lemma block_range dc lh c x :
  cdata (g_cs g dc) = Some (lh, c) → block h dc x →
  dc + DCH ≤ x ∧ x + sz c ≤ dc + CHUNK_SIZE ∧ dchunk_extract x = dc.
Proof.
  intros Hc (i & Hi & Hx & Hlt). destruct (i_chunk _ _ _ Hok dc lh c Hc) as [Hcls _ _ _ Hbs _ _ Hk _ _].
  destruct Hk as (k & Hk & Hfm & _). pose proof (cls2size_bounds c Hcls) as Hsz. rewrite Hbs in Hx.
  assert (i < k) by nia.
  assert (k * sz c ≤ CHUNK_DATA_SIZE) by (pose proof (Z.mul_div_le CHUNK_DATA_SIZE (sz c) ltac:(lia)); nia).
  assert (x + sz c ≤ dc + CHUNK_SIZE) by (unfold CHUNK_SIZE; nia).
  split_and!; [nia|done|]. apply extract_at; [apply cdata_pos; rewrite Hc; by eauto|].
  assert (0 < DCH) by done. nia.
Qed.

(** Two blocks of a chunk do not overlap. *)
Lemma block_apart dc lh c x y :
  cdata (g_cs g dc) = Some (lh, c) → block h dc x → block h dc y → x ≠ y → x + sz c ≤ y ∨ y + sz c ≤ x.
Proof.
  intros Hc (i & ? & Hx & _) (j & ? & Hy & _) Hne. rewrite (ck_bs _ _ _ _ _ (i_chunk _ _ _ Hok dc lh c Hc)) in Hx, Hy.
  assert (i ≠ j) by (intros ->; congruence). nia.
Qed.

(** A chunk has at most as many blocks as have been cut off. *)
Lemma block_count dc lh c l k :
  cdata (g_cs g dc) = Some (lh, c) → h (FreeMem dc) = dc + DCH + k * sz c → NoDup l →
  (∀ x, x ∈ l → block h dc x) → length l ≤ k.
Proof.
  intros Hc Hk Hnd Hl. destruct (i_chunk _ _ _ Hok dc lh c Hc) as [Hcls _ _ _ Hbs _ _ (k' & ? & ? & _) _ _].
  pose proof (cls2size_bounds c Hcls) as Hsz. assert (k = k') by nia. subst k'.
  pose (idx := λ x, Z.to_nat ((x - dc - DCH) / sz c)).
  assert (∀ x, x ∈ l → ∃ i, 0 ≤ i < k ∧ x = dc + DCH + i * sz c ∧ idx x = Z.to_nat i) as Hidx.
  { intros x (i & ? & Hx & Hlt)%Hl. rewrite Hbs in Hx. exists i. split_and!; [lia|nia|done|].
    unfold idx. replace (x - dc - DCH) with (i * sz c) by lia. by rewrite Z.div_mul by lia. }
  assert (length (idx <$> l) ≤ Z.to_nat k)%nat as Hlen.
  { apply NoDup_bounded_length.
    - apply NoDup_fmap_2_strong; [|done]. intros x y (i & ? & -> & Hi)%Hidx (j & ? & -> & Hj)%Hidx Heq.
      assert (i = j) by lia. congruence.
    - apply Forall_fmap, Forall_forall. intros x (i & ? & _ & Hi)%Hidx. simpl. lia. }
  rewrite length_fmap in Hlen. lia.
Qed.

Lemma class_count c : 0 ≤ c < NCLS → 1 ≤ CHUNK_DATA_SIZE / sz c ≤ 8192.
Proof.
  intros Hsz%cls2size_bounds. split.
  - apply Z.div_le_lower_bound; lia.
  - apply Z.div_le_upper_bound; [lia|]. assert (CHUNK_DATA_SIZE = 65536) by done. lia.
Qed.

(** The chunk of a list of its blocks. *)
Lemma chunk_blocks dc x :
  x ∈ g_ls g (LFree dc) ∨ x ∈ g_ls g (LRemote dc) → is_Some (cdata (g_cs g dc)) ∧ block h dc x.
Proof.
  intros Hx. pose proof (i_at _ _ _ Hok dc x Hx) as He.
  destruct Hx as [Hx|Hx]; [destruct (i_blk _ _ _ Hok (LFree dc) x eq_refl Hx)|destruct (i_blk _ _ _ Hok (LRemote dc) x eq_refl Hx)];
    by rewrite He in *.
Qed.

(** If all blocks of a chunk are free, none is anywhere else. *)
Lemma all_free dc lh c x :
  cdata (g_cs g dc) = Some (lh, c) → h (FreeBlkCnt dc) = CHUNK_DATA_SIZE / sz c →
  block h dc x → x ∈ g_ls g (LFree dc).
Proof.
  intros Hc Hall Hx. destruct (i_chunk _ _ _ Hok dc lh c Hc) as [Hcls _ _ _ _ _ _ (k & ? & Hfm & Hcnt) _ _].
  destruct (decide (x ∈ g_ls g (LFree dc))) as [|Hn]; [done|]. exfalso.
  assert (length (x :: g_ls g (LFree dc)) ≤ k) as Hlen.
  { apply (block_count dc lh c _ _ Hc Hfm).
    - constructor; [done|apply (lk_nodup _ _ _ _ (i_links _ _ _ Hok))].
    - intros y [->|Hy]%elem_of_cons; [done|]. apply chunk_blocks. by left. }
  simpl in Hlen. lia.
Qed.

(** Chunks in lists. *)
Lemma chunk_list l x : is_blk l = false → x ∈ g_ls g l → g_cs g x ≠ CNone.
Proof.
  destruct l; intros Hl Hx; try done.
  - apply (i_need _ _ _ Hok) in Hx as [Hx _]. by intros Heq; rewrite Heq in Hx.
  - apply (i_local _ _ _ Hok) in Hx. by rewrite Hx.
  - apply (i_global _ _ _ Hok) in Hx. by rewrite Hx.
  - apply (i_heaps _ _ _ Hok) in Hx. by rewrite Hx.
Qed.

(** A chunk is not a block, nor a block a chunk. *)
Lemma block_addr x :
  is_Some (cdata (g_cs g (dchunk_extract x))) → block h (dchunk_extract x) x → g_cs g x = CNone.
Proof.
  intros [[lh c] Hc] Hb. destruct (block_range _ _ _ _ Hc Hb) as (Hlo & Hhi & _).
  destruct (decide (g_cs g x = CNone)) as [|Hn]; [done|]. destruct (cs_pos x Hn) as [_ Hm]. exfalso.
  pose proof (cls2size_bounds c (ck_cls _ _ _ _ _ (i_chunk _ _ _ Hok _ _ _ Hc))).
  unfold dchunk_extract in *. rewrite Hm in *. unfold DCH in *. lia.
Qed.

Lemma block_not_chunk l x : is_blk l = true → x ∈ g_ls g l → g_cs g x = CNone.
Proof. intros Hl Hx. destruct (i_blk _ _ _ Hok l x Hl Hx). by apply block_addr. Qed.

Lemma live_not_chunk x : x ∈ g_live g → g_cs g x = CNone.
Proof. intros Hx. destruct (i_live _ _ _ Hok x Hx) as (? & ? & _). by apply block_addr. Qed.
End heap.

(** ** What the invariant of the heap does not depend on *)

Definition outer_cell (c : cell) : bool :=
  match c with
  | PoolStart | PoolEnd | FreeStart | LastAlloc | GlobalState | InitOnce | ThreadState _ | LocalHeap _ | BufCnt _
  | AllocSize _ | Mem _ => true
  | _ => false
  end.

Section frame.
Context {H : hole} {g : ghost} {h h' : mem} (Hok : heap_ok H g h).
Context (Hframe : agree (λ c, outer_cell c = true ∨ (∃ a, c = Word a ∧ ∀ l, a ∉ g_ls g l) ∨ (∃ x, c = Owner x ∧ g_cs g x = CNone)) h h').
Context (Hstart : h FreeStart ≤ h' FreeStart).

Lemma heap_frame : heap_ok H g h'.
Proof.
  assert (∀ c, outer_cell c = false → (∀ a, c ≠ Word a) → (∀ x, c ≠ Owner x) → h' c = h c) as Hk.
  { intros c Hc Hw Ho. apply Hframe. intros [?|[(a & -> & _)|(x & -> & _)]]; [congruence|by destruct (Hw a)|by destruct (Ho x)]. }
  assert (∀ l x, x ∈ g_ls g l → words h' x = words h x) as Hw.
  { intros l x Hx. apply Hframe. intros [?|[(a & [= <-] & Hn)|(y & ? & _)]]; try done. by apply (Hn l). }
  assert (∀ x, g_cs g x ≠ CNone → h' (Owner x) = h (Owner x)) as Ho.
  { intros x Hx. apply Hframe. intros [?|[(a & ? & _)|(y & [= <-] & ?)]]; done. }
  assert (∀ x y, block h x y → block h' x y) as Hb by (intros x y (i & ? & ? & ?); exists i; by rewrite !Hk).
  destruct Hok. split; try done; intros *; rewrite ?Hk by done; auto.
  - eapply links_ext; [done|done| |done]. intros l _. destruct l; simpl; by rewrite Hk.
  - intros Hl Hx. destruct (i_blk0 _ _ Hl Hx). auto.
  - intros Hx. destruct (i_buf0 lh i Hx). split; intros *; rewrite ?Hk by done; auto.
  - intros Hx. destruct (i_live0 _ Hx) as (? & ? & ?). auto.
  - intros Hx. assert (g_cs g dc ≠ CNone) by (by intros Hn; rewrite Hn in Hx).
    destruct (i_chunk0 _ _ _ Hx). split; simpl; rewrite ?Ho, ?Hk by done; done.
  - intros Hx. rewrite Ho, Hk by (done || by rewrite Hx). auto.
  - intros (? & ? & ? & ?)%i_pos0. rewrite (Hk (NumaNode x)) by done. split_and!; [done|lia|done..].
  - intros Hx. destruct (i_bg0 lh c Hx) as [? ? Hseg ?]. split; rewrite ?Hk by done; try done.
    eapply dseg_frame; [|done]. intros. by rewrite !Hk.
Qed.
End frame.

(** ** Preservation of the rest of the invariant *)

(** Cells that the chunk moves leave alone. *)
Definition glob_cell (c : cell) : bool :=
  match c with
  | AllocSize _ | Mem _ | PoolEnd | FreeStart | LastAlloc | GlobalState | InitOnce | ThreadState _ | LocalHeap _ => true
  | _ => false
  end.

Record keeps (g g' : ghost) (h h' : mem) : Prop := {
  kp_glob c : glob_cell c = true → h' c = h c;
  kp_owner x : g_cs g' x = CNone → x `mod` CHUNK_SIZE = 0 → h' (Owner x) = h (Owner x);
  kp_heap x : g_cs g x = CHeap → g_cs g' x = CHeap;
  kp_heaps : g_ls g' LHeaps = g_ls g LHeaps;
  kp_large : g_large g' = g_large g;
}.

Section keeps.
Context {H H' : hole} {g g' : ghost} {s : st} {h' : mem}.
Context (Hinv : inv H g s) (Hok : heap_ok H' g' h') (Hkp : keeps g g' (s_mem s) h').

(** The header of a large block is not a chunk. *)
Lemma large_header_outside p m :
  g_large g !! p = Some m → g_cs g' (dchunk_extract p) = CNone.
Proof.
  intros Hp. destruct (v_large _ _ _ Hinv p m Hp) as [_ Hout Hhead Hroom _ _ _].
  destruct (decide (g_cs g' (dchunk_extract p) = CNone)) as [|Hn]; [done|].
  apply (i_pos _ _ _ Hok) in Hn as (Hlo & Hhi & _). rewrite (kp_glob _ _ _ _ Hkp FreeStart) in Hhi by done.
  destruct (v_pool _ _ _ Hinv) as [Hst Hlim _ _ _ _].
  exfalso. unfold outside, POOL_SKEW, sizeof_large_header, CHUNK_SIZE, CHUNK_DATA_SIZE, PAGE_SIZE, DCH in *. lia.
Qed.

Lemma keeps_inv : inv H' g' (upd s h').
Proof.
  pose proof large_header_outside as Hlarge. destruct Hkp as [Hg Ho Hh Hhs Hl].
  destruct Hinv as [_ [? ? ? ? ? Hrdy] [? ? ? ?] Hlg Hsep [Hready ? ? ? ?]].
  assert (h' FreeStart = s_mem s FreeStart ∧ h' PoolEnd = s_mem s PoolEnd ∧ h' LastAlloc = s_mem s LastAlloc ∧
    h' GlobalState = s_mem s GlobalState ∧ h' InitOnce = s_mem s InitOnce) as (E1 & E2 & E3 & E4 & E5).
  { split_and!; by apply Hg. }
  assert (∀ t, h' (ThreadState t) = s_mem s (ThreadState t)) as E6 by (intros; by apply Hg).
  assert (∀ t, h' (LocalHeap t) = s_mem s (LocalHeap t)) as E7 by (intros; by apply Hg).
  split; simpl; [done|..].
  - split; rewrite ?E1, ?E2, ?E3, ?E4; try done. intros [? ?]%Hrdy. split; by rewrite ?E1, ?E2.
  - split; rewrite ?E2; done.
  - rewrite Hl. intros p m Hp. pose proof (Hlarge p m Hp). destruct (Hlg p m Hp).
    pose proof (extract_mod p). split; rewrite ?Ho, ?Hg by done; done.
  - rewrite Hl. done.
  - split; intros *; rewrite ?E4, ?E5, ?E1, ?E2, ?E6, ?E7, ?Hhs; auto. intros (? & ? & ?)%Hready. auto.
Qed.
End keeps.
