(* ===== verification/SsChunk.v ===== *)
(** * Blocks of SSMalloc: allocation and local release

    Taking a block from the foreground chunk and giving one back to a chunk
    of the own heap keep the invariant of [SsInv.v]. *)

From S2P Require Import Prelude SsSize SsQueue SsMem SsMalloc SsLinks SsInv.

Local Open Scope Z_scope.

(** The cells of a chunk that change when blocks come and go. *)
Definition chunk_cell (dc : Z) (c : cell) : Prop :=
  c = FreeHead dc ∨ c = FreeMem dc ∨ c = FreeBlkCnt dc ∨ c = State dc.

Ltac cell_ne := repeat match goal with H : chunk_cell _ _ |- _ => unfold chunk_cell in H end; unfold chunk_cell; intuition congruence.

(** ** Taking a block *)

Section take.
Context (g : ghost) (h h' : mem) (dc lh c r : Z) (ls' : lid → list Z).
Context (Hok : heap_ok HNone g h) (Hcs : g_cs g dc = CFg lh c).
Context (Hag : agree (chunk_cell dc) h h').
Context (Hcnt : h' (FreeBlkCnt dc) = h (FreeBlkCnt dc) - 1).
(** Either from the free list or from the end of the blocks. *)
Context (Htake :
  (∃ q, g_ls g (LFree dc) = r :: q ∧ ls' = <[LFree dc := q]> (g_ls g) ∧
        h' (FreeHead dc) = h (Word r) ∧ h' (FreeMem dc) = h (FreeMem dc)) ∨
  (g_ls g (LFree dc) = [] ∧ ls' = g_ls g ∧ r = h (FreeMem dc) ∧
        h' (FreeHead dc) = h (FreeHead dc) ∧ h' (FreeMem dc) = r + sz c)).

Let full := bool_decide (h' (FreeBlkCnt dc) = 0).
Context (Hstate : h' (State dc) = if full then FULL else FOREGROUND).

Definition take_cs : Z → cstat := if full then <[dc := CFull lh c]> (g_cs g) else g_cs g.
Definition take_g : ghost := Ghost ls' take_cs (g_bg g) ({[r]} ∪ g_live g) (g_large g).

Local Lemma take_ok_chunk : chunk_ok h g dc lh c.
Proof. apply (i_chunk _ _ _ Hok). by rewrite Hcs. Qed.

Lemma take_cdata x : cdata (take_cs x) = cdata (g_cs g x).
Proof.
  unfold take_cs. destruct full; [|done]. destruct (decide (x = dc)) as [->|]; simpl_fn; [by rewrite Hcs|done].
Qed.

Lemma take_heap x : take_cs x = CHeap ↔ g_cs g x = CHeap.
Proof.
  unfold take_cs. destruct full; [|done]. destruct (decide (x = dc)) as [->|]; simpl_fn; [by rewrite Hcs|done].
Qed.

Lemma take_other l : l ≠ LFree dc → ls' l = g_ls g l.
Proof. intros Hl. destruct Htake as [(q & _ & -> & _)|(_ & -> & _)]; [|done]. by rewrite fn_lookup_insert_ne. Qed.

Lemma take_sub l x : x ∈ ls' l → x ∈ g_ls g l.
Proof.
  destruct (decide (l = LFree dc)) as [->|Hl]; [|by rewrite take_other].
  destruct Htake as [(q & Hq & -> & _)|(_ & -> & _)]; [|done]. rewrite fn_lookup_insert, Hq. by right.
Qed.

(** Something is left to take. *)
Lemma take_fresh : g_ls g (LFree dc) = [] → ∃ k, 0 ≤ k < CHUNK_DATA_SIZE / sz c ∧
  h (FreeMem dc) = dc + DCH + k * sz c.
Proof.
  intros Hnil. destruct take_ok_chunk as [_ _ _ _ _ _ _ (k & Hk & Hfm & Hcn) _ Hfree].
  rewrite bool_decide_false in Hfree by by rewrite Hcs. rewrite Hnil in Hcn. simpl in Hcn. exists k. split; [|done]. lia.
Qed.

Lemma take_extract : dchunk_extract r = dc.
Proof.
  destruct take_ok_chunk as [Hcls _ _ _ Hbs _ _ _ _ _]. pose proof (cls2size_bounds c Hcls).
  destruct Htake as [(q & Hq & _)|(Hnil & _ & Hr & _ & Hm)].
  - apply (i_at _ _ _ Hok). left. rewrite Hq. by left.
  - destruct (take_fresh Hnil) as (k & Hk & Hfm). apply extract_at.
    + apply (cdata_pos Hok dc). rewrite Hcs. by eauto.
    + assert ((k + 1) * sz c ≤ CHUNK_DATA_SIZE) by (pose proof (Z.mul_div_le CHUNK_DATA_SIZE (sz c) ltac:(lia)); nia).
      unfold CHUNK_SIZE, DCH in *. nia.
Qed.

(** The block that is taken. *)
Lemma take_block : block h' dc r ∧ ∀ l, r ∉ ls' l.
Proof.
  pose proof take_extract as Hex.
  destruct take_ok_chunk as [Hcls _ _ _ Hbs _ _ _ _ _]. pose proof (cls2size_bounds c Hcls).
  destruct Htake as [(q & Hq & -> & _ & Hm)|(Hnil & -> & Hr & _ & Hm)].
  - assert (r ∈ g_ls g (LFree dc)) as Hr by (rewrite Hq; by left). split.
    + destruct (chunk_blocks Hok dc r (or_introl Hr)) as [_ (i & ? & ? & ?)]. exists i.
      rewrite Hm, (Hag (BlockSize dc)) by cell_ne. done.
    + intros l. pose proof (lk_nodup _ _ _ _ (i_links _ _ _ Hok) (LFree dc)) as Hnd. rewrite Hq in Hnd.
      apply NoDup_cons in Hnd as [Hrq _]. destruct (decide (l = LFree dc)) as [->|Hl]; [by rewrite fn_lookup_insert|].
      rewrite fn_lookup_insert_ne by done. intros Hrl. by destruct Hl, (lk_sep _ _ _ _ (i_links _ _ _ Hok) l (LFree dc) r).
  - destruct (take_fresh Hnil) as (k & Hk & Hfm).
    split.
    + exists k. rewrite Hm, (Hag (BlockSize dc)), Hbs by cell_ne. split_and!; [lia|lia|lia].
    + intros l Hl. destruct (is_blk l) eqn:Hb.
      * destruct (i_blk _ _ _ Hok l r Hb Hl) as [_ (i & _ & _ & Hlt)]. rewrite Hex in Hlt. lia.
      * destruct (cs_pos Hok r (chunk_list Hok l r Hb Hl)) as [_ Hm0]. unfold dchunk_extract in Hex. rewrite Hm0 in Hex.
        unfold DCH in *. nia.
Qed.

Lemma take_blk x y : block h (dchunk_extract x) y → block h' (dchunk_extract x) y.
Proof.
  intros (i & Hi & Hx & Hlt). exists i. rewrite (Hag (BlockSize _)) by cell_ne. split_and!; [done..|].
  destruct (decide (dchunk_extract x = dc)) as [He|]; [|rewrite Hag by cell_ne; done].
  rewrite He in *. pose proof (cls2size_bounds c (ck_cls _ _ _ _ _ take_ok_chunk)).
  destruct Htake as [(_ & _ & _ & _ & ->)|(_ & _ & -> & _ & ->)]; lia.
Qed.

Lemma take_links : links (words h') (head_of h') (valid take_cs) ls'.
Proof.
  assert (∀ a, words h' a = words h a) as Hw by (intros a; apply Hag; cell_ne).
  assert (∀ l, l ≠ LFree dc → head_of h' l = head_of h l) as Hh.
  { intros l Hl. destruct l; simpl; rewrite Hag by cell_ne; done. }
  assert (∀ l, valid take_cs l ↔ valid (g_cs g) l) as HV.
  { intros l. destruct l; simpl; rewrite ?take_cdata, ?take_heap; done. }
  pose proof (i_links _ _ _ Hok) as Hlk.
  destruct Htake as [(q & Hq & -> & Hhd & _)|(Hnil & -> & _ & Hhd & _)].
  - eapply links_ext; [eapply (links_pop Hlk (LFree dc) r q (words h) (<[LFree dc := h (Word r)]> (head_of h)))|..]; try done.
    + simpl. rewrite Hcs. by eauto.
    + intros l _. destruct (decide (l = LFree dc)) as [->|]; simpl_fn; auto.
  - eapply (links_ext Hlk); try done. intros l _. destruct (decide (l = LFree dc)) as [->|]; auto.
Qed.

Lemma take_chunk x lh' c' : cdata (g_cs g x) = Some (lh', c') → chunk_ok h' take_g x lh' c'.
Proof.
  intros Hx. pose proof (i_chunk _ _ _ Hok x lh' c' Hx) as Hck.
  destruct (decide (x = dc)) as [->|Hne].
  - rewrite Hcs in Hx. injection Hx as <- <-. destruct Hck as [? ? ? ? Hbs ? ? (k & Hk & Hfm & Hcn) Hrem Hfr].
    rewrite bool_decide_false in Hfr by by rewrite Hcs.
    assert (take_cs dc = if full then CFull lh c else CFg lh c) as Hcs'.
    { unfold take_cs. destruct full; simpl_fn; done. }
    split; simpl; rewrite ?Hcs', ?(Hag (Owner dc)), ?(Hag (SizeCls dc)), ?(Hag (BlockSize dc)), ?(Hag (BlkCnt dc)),
      ?(Hag (RemoteFreeHead dc)), ?(take_other (LRemote dc)) by cell_ne; try done.
    + by apply take_heap.
    + rewrite Hstate. by destruct full.
    + destruct Htake as [(q & Hq & -> & _ & Hm)|(Hnil & -> & Hr & _ & Hm)].
      * exists k. rewrite Hcnt, Hcn, Hm, fn_lookup_insert, Hq. simpl. split_and!; lia.
      * exists (k + 1). rewrite Hcnt, Hm, Hnil in *. simpl in *. split_and!; lia.
    + destruct full eqn:Hf; unfold full in Hf.
      * rewrite bool_decide_true by done. by apply bool_decide_eq_true in Hf.
      * rewrite bool_decide_false by done. apply bool_decide_eq_false in Hf. lia.
  - assert (take_cs x = g_cs g x) as Hcs'.
    { unfold take_cs. destruct full; simpl_fn; done. }
    destruct Hck. split; simpl; rewrite ?Hcs', ?Hag, ?take_other by cell_ne; try done. by apply take_heap.
Qed.

Lemma take_cs_other x s : s ≠ CFg lh c → s ≠ CFull lh c → take_cs x = s ↔ g_cs g x = s.
Proof.
  unfold take_cs. destruct full; [|done]. destruct (decide (x = dc)) as [->|]; simpl_fn; [rewrite Hcs; naive_solver|done].
Qed.

Lemma take_ok : heap_ok (if full then HFg lh c else HNone) take_g h'.
Proof.
  pose proof take_block as [Hrb Hrl]. assert (dchunk_extract r = dc) as Hrx by apply take_extract.
  assert (∀ x, take_cs x = CNone ↔ g_cs g x = CNone) as Hnone by (intros; by apply take_cs_other).
  assert (∀ lh', g_cs g lh' = CHeap → dc ≠ lh' + dummy_offset) as Hdum.
  { intros lh' Hlh. apply (dummy_not_chunk Hok); [done|by rewrite Hcs]. }
  destruct (Hok) as []. split; simpl.
  - apply take_links.
  - intros l x Hl Hx%take_sub. rewrite take_cdata. destruct (i_blk l x Hl Hx). eauto using take_blk.
  - intros dc' x [?%take_sub|?%take_sub]; auto.
  - intros lh' i Hlh%take_heap. destruct (i_buf lh' i Hlh). split; simpl; rewrite ?Hag, ?take_other by cell_ne; auto.
  - intros x [->%elem_of_singleton|Hx]%elem_of_union; rewrite take_cdata.
    + rewrite Hrx, Hcs. split_and!; [by eauto|done|done].
    + destruct (i_live x Hx) as (? & ? & Hno). split_and!; [done|by apply take_blk|]. intros l ?%take_sub. by destruct (Hno l).
  - intros x lh' c'. rewrite take_cdata. apply take_chunk.
  - intros lh' c' x. rewrite take_cdata, !take_other by done. auto.
  - intros lh' x. by rewrite !take_other, take_cs_other by done.
  - intros lh' x. rewrite !Hag, take_cs_other by (cell_ne || done). auto.
  - intros x. by rewrite !take_other, take_cs_other by done.
  - intros x. rewrite take_other, take_cs_other by done. auto.
  - intros x. rewrite Hnone, !Hag by cell_ne. auto.
  - intros lh' c' Hlh%take_heap Hc' HH. rewrite Hag by cell_ne.
    destruct (i_fg lh' c' Hlh Hc' ltac:(done)) as [->|Hf]; [by left|right]. unfold take_cs. destruct full; [|done].
    rewrite fn_lookup_insert_ne; [done|]. congruence.
  - intros lh' c' x. rewrite Hag by cell_ne. unfold take_cs. destruct full; [|by apply i_fg_at].
    destruct (decide (x = dc)) as [->|Hx]; simpl_fn; [done|]. intros Hx'. split; [|by apply i_fg_at].
    intros [= <- <-]. destruct (i_fg_at _ _ _ Hx') as [_ H1], (i_fg_at _ _ _ Hcs) as [_ H2]. congruence.
  - intros lh' Hlh%take_heap. pose proof (Hdum lh' Hlh). rewrite !Hag by cell_ne. auto.
  - intros lh' Hlh%take_heap _ _. pose proof (Hdum lh' Hlh). rewrite !Hag by cell_ne. by apply i_dummy_cnt.
  - intros lh' c' Hlh%take_heap. eapply dlist_cells; [by apply i_bg|..]; intros; rewrite ?Hag by cell_ne; done.
  - intros lh' c' x. by rewrite take_cs_other.
  - intros lh' Hlh%take_heap. rewrite Hag, take_other by (cell_ne || done). auto.
Qed.
End take.

(** ** Giving a block back to its chunk *)

Section give.
Context (g : ghost) (h h' : mem) (dc lh c p : Z) (s : cstat).
Context (Hok : heap_ok HNone g h) (Hcs : g_cs g dc = s) (Hdata : cdata s = Some (lh, c)).
Context (Hp : p ∈ g_live g) (Hpx : dchunk_extract p = dc).

(** A full chunk moves to the background. *)
Let full := bool_decide (s = CFull lh c).

Definition give_bg : list Z := if full then dc :: g_bg g lh c else g_bg g lh c.
Definition give_cells (x : cell) : Prop :=
  chunk_cell dc x ∨ x = Word p ∨
  (full = true ∧ dcells (BackgroundHead lh c) (BackgroundTail lh c) (dc :: g_bg g lh c) x).

Context (Hag : agree give_cells h h').
Context (Hhead : h' (FreeHead dc) = p) (Hword : h' (Word p) = h (FreeHead dc)).
Context (Hmem : h' (FreeMem dc) = h (FreeMem dc)) (Hcnt : h' (FreeBlkCnt dc) = h (FreeBlkCnt dc) + 1).
Context (Hstate : h' (State dc) = if full then BACKGROUND else cstate s).
Context (Hdl : dlist h' (BackgroundHead lh c) (BackgroundTail lh c) give_bg).

Definition give_cs : Z → cstat := if full then <[dc := CBg lh c]> (g_cs g) else g_cs g.
Definition give_g : ghost := {|
  g_ls := <[LFree dc := p :: g_ls g (LFree dc)]> (g_ls g);
  g_cs := give_cs;
  g_bg := <[lh := <[c := give_bg]> (g_bg g lh)]> (g_bg g);
  g_live := g_live g ∖ {[p]};
  g_large := g_large g;
|}.

Local Lemma give_chunk0 : chunk_ok h g dc lh c.
Proof. apply (i_chunk _ _ _ Hok). by rewrite Hcs. Qed.

Lemma give_full : full = true → s = CFull lh c.
Proof. apply bool_decide_eq_true. Qed.

Lemma give_cdata x : cdata (give_cs x) = cdata (g_cs g x).
Proof.
  unfold give_cs. destruct full; [|done]. destruct (decide (x = dc)) as [->|]; simpl_fn; [by rewrite Hcs, Hdata|done].
Qed.

Lemma give_cs_other x s' : s' ≠ CBg lh c → s' ≠ CFull lh c → give_cs x = s' ↔ g_cs g x = s'.
Proof.
  unfold give_cs. destruct full eqn:Hf; [|done]. destruct (decide (x = dc)) as [->|]; simpl_fn; [|done].
  rewrite Hcs, (give_full Hf). naive_solver.
Qed.

Lemma give_other l : l ≠ LFree dc → g_ls give_g l = g_ls g l.
Proof. intros Hl. simpl. by rewrite fn_lookup_insert_ne. Qed.

Lemma give_sub l x : x ∈ g_ls give_g l → x ∈ g_ls g l ∨ (l = LFree dc ∧ x = p).
Proof.
  destruct (decide (l = LFree dc)) as [->|Hl]; [|rewrite give_other; auto].
  simpl. rewrite fn_lookup_insert. intros [->|?]%elem_of_cons; auto.
Qed.

(** Cells that are not touched. *)
Lemma give_keep x : ¬ chunk_cell dc x → x ≠ Word p → is_link x = false →
  (∀ lh c, x ≠ BackgroundHead lh c ∧ x ≠ BackgroundTail lh c) → h' x = h x.
Proof.
  intros Hc Hw Hl Hb. apply Hag. intros [?|[?|[_ [->|[->|(y & _ & [-> | ->])]]]]]; try done; by destruct (Hb lh c).
Qed.

Lemma give_blk x y : block h (dchunk_extract x) y → block h' (dchunk_extract x) y.
Proof.
  intros (i & Hi & Hx & Hlt). exists i. rewrite (give_keep (BlockSize _)) by cell_ne. split_and!; [done..|].
  destruct (decide (dchunk_extract x = dc)) as [He|]; [|rewrite give_keep by cell_ne; done]. by rewrite He in *; rewrite Hmem.
Qed.

Lemma give_links : links (words h') (head_of h') (valid give_cs) (g_ls give_g).
Proof.
  destruct (i_live _ _ _ Hok p Hp) as ([[lh' c'] Hd] & Hb & Hno).
  assert (0 < p) as Hpos.
  { destruct (block_range Hok _ _ _ _ Hd Hb) as (Hlo & _). destruct (cdata_pos Hok (dchunk_extract p)) as [? _]; [by eauto|].
    unfold DCH in *. lia. }
  eapply links_ext; [eapply (links_push (i_links _ _ _ Hok) (LFree dc) p (<[p := h (FreeHead dc)]> (words h))
    (<[LFree dc := p]> (head_of h)))|..]; try done.
  - simpl. rewrite Hcs, Hdata. by eauto.
  - intros l x _. unfold words. destruct (decide (x = p)) as [->|]; simpl_fn; [done|]. apply give_keep; cell_ne.
  - intros l _. destruct (decide (l = LFree dc)) as [->|]; simpl_fn; [done|].
    destruct l; simpl; rewrite ?give_keep by cell_ne; done.
  - intros l. destruct l; simpl; rewrite ?give_cdata, ?give_cs_other by done; done.
Qed.

Lemma give_chunk x lh' c' : cdata (g_cs g x) = Some (lh', c') → chunk_ok h' give_g x lh' c'.
Proof.
  intros Hx. pose proof (i_chunk _ _ _ Hok x lh' c' Hx) as Hck.
  destruct (decide (x = dc)) as [->|Hne].
  - rewrite Hcs, Hdata in Hx. injection Hx as <- <-. destruct Hck as [? ? ? ? Hbs ? ? (k & Hk & Hfm & Hcn) Hrem Hfr].
    assert (give_cs dc = if full then CBg lh c else s) as Hcs'.
    { unfold give_cs. destruct full; simpl_fn; done. }
    split; simpl; rewrite ?Hcs', ?(give_keep (Owner dc)), ?(give_keep (SizeCls dc)), ?(give_keep (BlockSize dc)),
      ?(give_keep (BlkCnt dc)), ?(give_keep (RemoteFreeHead dc)), ?(fn_lookup_insert_ne _ (LFree dc) (LRemote dc)) by cell_ne; try done.
    + by apply give_cs_other.
    + rewrite Hstate. by destruct full.
    + exists k. rewrite Hcnt, Hcn, Hmem, fn_lookup_insert. simpl. split_and!; lia.
    + assert ((if full then CBg lh c else s) ≠ CFull lh c) as Hnf.
      { destruct full eqn:Hf; [done|]. unfold full in Hf. by apply bool_decide_eq_false in Hf. }
      rewrite bool_decide_false by done. rewrite Hcs in Hfr. fold full in Hfr. destruct full; lia.
  - assert (give_cs x = g_cs g x) as Hcs'.
    { unfold give_cs. destruct full; simpl_fn; done. }
    destruct Hck. split; simpl; rewrite ?Hcs', ?give_keep, ?fn_lookup_insert_ne by cell_ne; try done. by apply give_cs_other.
Qed.

Lemma give_bg_at lh' c' x :
  x ∈ (<[lh := <[c := give_bg]> (g_bg g lh)]> (g_bg g)) lh' c' ↔ give_cs x = CBg lh' c'.
Proof.
  unfold give_bg, give_cs. destruct full eqn:Hf.
  - assert (∀ l c', dc ∉ g_bg g l c') as Hdc.
    { intros l c'' Hin. apply (i_bg_at _ _ _ Hok) in Hin. rewrite Hcs, (give_full Hf) in Hin. done. }
    destruct (decide (x = dc)) as [->|Hx]; simpl_fn.
    + destruct (decide (lh' = lh)) as [->|]; simpl_fn; [destruct (decide (c' = c)) as [->|]; simpl_fn|].
      * split; [done|]. by left.
      * split; [by intros ?%Hdc|congruence].
      * split; [by intros ?%Hdc|congruence].
    + destruct (decide (lh' = lh)) as [->|]; simpl_fn; [destruct (decide (c' = c)) as [->|]; simpl_fn|]; try apply (i_bg_at _ _ _ Hok).
      rewrite elem_of_cons, (i_bg_at _ _ _ Hok). naive_solver.
  - destruct (decide (lh' = lh)) as [->|]; simpl_fn; [destruct (decide (c' = c)) as [->|]; simpl_fn|]; apply (i_bg_at _ _ _ Hok).
Qed.

(** The other background lists. *)
Lemma give_bg_ok lh' c' : g_cs g lh' = CHeap →
  dlist h' (BackgroundHead lh' c') (BackgroundTail lh' c') ((<[lh := <[c := give_bg]> (g_bg g lh)]> (g_bg g)) lh' c').
Proof.
  intros Hlh. destruct (decide (lh' = lh ∧ c' = c)) as [[-> ->]|Hne]; [by simpl_fn|].
  assert ((<[lh := <[c := give_bg]> (g_bg g lh)]> (g_bg g)) lh' c' = g_bg g lh' c') as ->.
  { destruct (decide (lh' = lh)) as [->|]; simpl_fn; [|done]. rewrite fn_lookup_insert_ne; naive_solver. }
  assert (∀ x, x ∈ g_bg g lh' c' → full = true → x ∉ dc :: g_bg g lh c) as Hsep.
  { intros x Hx%(i_bg_at _ _ _ Hok) Hf. rewrite elem_of_cons, (i_bg_at _ _ _ Hok). intros [->|Hx'].
    - rewrite Hcs, (give_full Hf) in Hx. done.
    - rewrite Hx in Hx'. naive_solver. }
  eapply dlist_cells; [by apply (i_bg _ _ _ Hok)|..].
  - apply Hag. intros [?|[?|[_ [Heq|[?|(? & _ & [? | ?])]]]]]; [cell_ne|try done..]. injection Heq as ? ?. auto.
  - apply Hag. intros [?|[?|[_ [?|[Heq|(? & _ & [? | ?])]]]]]; [cell_ne|try done..]. injection Heq as ? ?. auto.
  - intros x Hx. split; apply Hag; intros [?|[?|[Hf [?|[?|(y & Hy & [Heq | Heq])]]]]]; try done; try cell_ne.
    all: injection Heq as ->; by apply (Hsep y Hx Hf).
Qed.

Lemma give_ok : heap_ok HNone give_g h'.
Proof.
  assert (∀ lh', g_cs g lh' = CHeap → dc ≠ lh' + dummy_offset) as Hdum.
  { intros lh' Hlh. apply (dummy_not_chunk Hok); [done|]. rewrite Hcs. intros Hn. pose proof Hdata as Hd. by rewrite Hn in Hd. }
  destruct (i_live _ _ _ Hok p Hp) as (Hpd & Hpb & Hpno).
  destruct (Hok) as []. split.
  - apply give_links.
  - intros l x Hl Hx. simpl g_cs. rewrite give_cdata. apply give_sub in Hx as [Hx|[-> ->]].
    + destruct (i_blk l x Hl Hx). eauto using give_blk.
    + auto using give_blk.
  - intros dc' x [[?|[[= ->] ->]]%give_sub|[?|[? ?]]%give_sub]; auto; congruence.
  - intros lh' i Hlh%give_cs_other; [|done..]. destruct (i_buf lh' i Hlh).
    split; rewrite ?give_keep, ?give_other by cell_ne; auto.
  - intros x [Hx Hxp%not_elem_of_singleton]%elem_of_difference. simpl g_cs. rewrite give_cdata.
    destruct (i_live x Hx) as (? & ? & Hno). split_and!; [done|by apply give_blk|].
    intros l [?|[_ ?]]%give_sub; [by destruct (Hno l)|done].
  - intros x lh' c'. simpl g_cs. rewrite give_cdata. apply give_chunk.
  - intros lh' c' x. simpl g_cs. rewrite give_cdata, !give_other by done. auto.
  - intros lh' x. simpl g_cs. by rewrite !give_other, give_cs_other by done.
  - intros lh' x. simpl g_cs. rewrite !give_keep, give_cs_other by (cell_ne || done). auto.
  - intros x. simpl g_cs. by rewrite !give_other, give_cs_other by done.
  - intros x. simpl g_cs. rewrite give_other, give_cs_other by done. auto.
  - intros x. simpl g_cs. rewrite give_cs_other, !give_keep by (cell_ne || done). auto.
  - intros lh' c' Hlh%give_cs_other Hc' _; [|done..]. simpl g_cs. rewrite give_keep, give_cs_other by (cell_ne || done).
    apply i_fg; done.
  - intros lh' c' x. simpl g_cs. rewrite give_keep, give_cs_other by (cell_ne || done). apply i_fg_at.
  - intros lh' Hlh%give_cs_other; [|done..]. pose proof (Hdum lh' Hlh). rewrite !give_keep by cell_ne. auto.
  - intros lh' Hlh%give_cs_other _ _; [|done..]. pose proof (Hdum lh' Hlh). rewrite !give_keep by cell_ne. by apply i_dummy_cnt.
  - intros lh' c' Hlh%give_cs_other; [|done..]. by apply give_bg_ok.
  - apply give_bg_at.
  - intros lh' Hlh%give_cs_other; [|done..]. rewrite give_keep, give_other by (cell_ne || done). auto.
Qed.
End give.
