(* ===== verification/SsMoves.v ===== *)
(** * Chunks of SSMalloc: how they change hands

    Chunks without blocks move between a heap, the pool and the running call;
    chunks with blocks move between foreground, background and full; a chunk
    becomes a heap.  Each move keeps the invariant of [SsInv.v]. *)

From S2P Require Import Prelude SsSize SsQueue SsMem SsMalloc SsLinks SsInv SsChunk.

Local Open Scope Z_scope.

(** ** Chunks without blocks *)

Definition inert (s : cstat) : bool :=
  match s with CNone | CLimbo | CIdle _ | CGlob => true | _ => false end.

(** The cells through which such chunks are reached. *)
Definition pool_cell (c : cell) : bool :=
  match c with
  | Word _ | LhFreeHead _ | LhFreeCnt _ | FreeDcHead _ | FreeStart | PoolEnd | LastAlloc | NumaNode _ => true
  | _ => false
  end.

Definition chunk_lists (l : lid) : bool := match l with LLocal _ | LGlobal => true | _ => false end.

Section restat.
Context (H : hole) (g : ghost) (h h' : mem) (dc : Z) (s' : cstat) (ls' : lid → list Z).
Context (Hok : heap_ok H g h) (Hin : inert (g_cs g dc) = true) (Hin' : inert s' = true).
Context (Hag : agree (λ c, pool_cell c = true) h h').
Context (Hls : ∀ l, chunk_lists l = false → ls' l = g_ls g l).

Definition restat_g : ghost := Ghost ls' (<[dc := s']> (g_cs g)) (g_bg g) (g_live g) (g_large g).

Lemma restat_cs x s : inert s = false → (<[dc := s']> (g_cs g)) x = s ↔ g_cs g x = s.
Proof. intros Hs. destruct (decide (x = dc)) as [->|]; simpl_fn; [|done]. split; congruence. Qed.

Lemma restat_cdata x : cdata ((<[dc := s']> (g_cs g)) x) = cdata (g_cs g x).
Proof. destruct (decide (x = dc)) as [->|]; simpl_fn; [|done]. by destruct s', (g_cs g dc). Qed.

Lemma restat_valid l : valid (<[dc := s']> (g_cs g)) l ↔ valid (g_cs g) l.
Proof. destruct l; simpl; rewrite ?restat_cdata, ?restat_cs by done; done. Qed.

Context (Hlk : links (words h') (head_of h') (valid (g_cs g)) ls').
Context (Hlocal : ∀ lh x, x ∈ ls' (LLocal lh) ↔ (<[dc := s']> (g_cs g)) x = CIdle lh).
Context (Hglobal : ∀ x, x ∈ ls' LGlobal ↔ (<[dc := s']> (g_cs g)) x = CGlob).
Context (Hidle : ∀ lh, s' = CIdle lh → h (Owner dc) = lh ∧ h (RemoteFreeHead dc) = 0).
Context (Hpos : ∀ x, (<[dc := s']> (g_cs g)) x ≠ CNone →
  RAW_POOL_START ≤ x ∧ x + CHUNK_SIZE ≤ h' FreeStart ∧ x `mod` CHUNK_SIZE = 0 ∧ h' (NumaNode x) = 0).
Context (Hcnt : ∀ lh, g_cs g lh = CHeap →
  h' (LhFreeCnt lh) = length (ls' (LLocal lh)) ∧ length (ls' (LLocal lh)) ≤ MAX_FREE_CHUNK).

Ltac keep := rewrite ?Hls, ?Hag by done.

Lemma restat_blk x y : block h x y → block h' x y.
Proof. intros (i & ? & ? & ?). exists i. by keep. Qed.

Lemma restat_live x l : x ∈ g_live g → x ∉ ls' l.
Proof.
  intros Hx Hl. destruct (i_live _ _ _ Hok x Hx) as (Hd & Hb & Hno).
  destruct (chunk_lists l) eqn:Hc; [|rewrite Hls in Hl by done; by apply (Hno l)].
  assert ((<[dc := s']> (g_cs g)) x ≠ CNone) as Hx'.
  { destruct l; try done; [apply Hlocal in Hl|apply Hglobal in Hl]; by rewrite Hl. }
  apply Hpos in Hx' as (_ & _ & Hm & _). destruct Hd as [[lh c] Hd].
  destruct (block_range Hok _ _ _ _ Hd Hb) as (Hlo & _). unfold dchunk_extract, DCH in Hlo. rewrite Hm in Hlo. lia.
Qed.

Lemma restat_chunk x lh c : cdata (g_cs g x) = Some (lh, c) → chunk_ok h' restat_g x lh c.
Proof.
  intros Hx. assert (x ≠ dc) as Hne by (intros ->; destruct (g_cs g dc); done).
  destruct (i_chunk _ _ _ Hok x lh c Hx). split; simpl; keep; simpl_fn; try done. by apply restat_cs.
Qed.

Lemma restat_ok : heap_ok H restat_g h'.
Proof.
  destruct (Hok) as []. split; simpl.
  - eapply (links_ext Hlk); try done. apply restat_valid.
  - intros l x Hl. rewrite restat_cdata. destruct l; try done; keep; intros Hx;
      (destruct (i_blk _ x Hl Hx); auto using restat_blk).
  - intros dc' x. keep. auto.
  - intros lh i Hlh%restat_cs; [|done]. destruct (i_buf lh i Hlh). split; simpl; keep; auto.
  - intros x Hx. rewrite restat_cdata. destruct (i_live x Hx) as (? & ? & _). auto using restat_blk, restat_live.
  - intros x lh c. rewrite restat_cdata. apply restat_chunk.
  - intros lh c x. rewrite restat_cdata. keep. auto.
  - done.
  - intros lh x. keep. destruct (decide (x = dc)) as [->|]; simpl_fn; auto.
  - done.
  - intros x. rewrite restat_cs by done. keep. auto.
  - done.
  - intros lh c. rewrite !restat_cs by done. keep. auto.
  - intros lh c x. rewrite !restat_cs by done. keep. auto.
  - intros lh. rewrite !restat_cs by done. keep. auto.
  - intros lh. rewrite !restat_cs by done. keep. auto.
  - intros lh c. rewrite !restat_cs by done. intros Hlh. eapply dlist_cells; [by apply i_bg|..]; intros; by keep.
  - intros lh c x. by rewrite !restat_cs by done.
  - intros lh. rewrite restat_cs by done. auto.
Qed.
End restat.

Lemma limbo_unlisted H g h dc : heap_ok H g h → g_cs g dc = CLimbo → ∀ l, dc ∉ g_ls g l.
Proof.
  intros Hok Hdc l Hl. destruct (is_blk l) eqn:Hb; [by rewrite (block_not_chunk Hok l dc Hb Hl) in Hdc|].
  destruct l; try done.
  - apply (i_need _ _ _ Hok) in Hl as [Hl _]. by rewrite Hdc in Hl.
  - apply (i_local _ _ _ Hok) in Hl. congruence.
  - apply (i_global _ _ _ Hok) in Hl. congruence.
  - apply (i_heaps _ _ _ Hok) in Hl. congruence.
Qed.

(** Every list element lies below the end of the chunks. *)
Lemma listed_below H g h l x : heap_ok H g h → x ∈ g_ls g l → x < h FreeStart.
Proof.
  intros Hok Hx. destruct (is_blk l) eqn:Hb.
  - destruct (i_blk _ _ _ Hok l x Hb Hx) as [[[lh c] Hd] Hbl].
    destruct (block_range Hok _ _ _ _ Hd Hbl) as (_ & Hhi & _).
    pose proof (cls2size_bounds c (ck_cls _ _ _ _ _ (i_chunk _ _ _ Hok _ _ _ Hd))).
    destruct (i_pos _ _ _ Hok (dchunk_extract x)) as (_ & ? & _); [by intros Hn; rewrite Hn in Hd|]. lia.
  - destruct (i_pos _ _ _ Hok x (chunk_list Hok l x Hb Hx)) as (_ & ? & _). unfold CHUNK_SIZE, DCH, CHUNK_DATA_SIZE, PAGE_SIZE in *. lia.
Qed.

Ltac pool_agree := eapply agree_weaken; [eassumption|]; intros ?; naive_solver.

Section fetch.
Context (H : hole) (g : ghost) (h h' : mem) (dc : Z) (q : list Z) (Hok : heap_ok H g h).

(** From the free list of a heap. *)
Lemma fetch_local_ok lh :
  g_cs g lh = CHeap → g_ls g (LLocal lh) = dc :: q →
  agree (λ c, c = LhFreeHead lh ∨ c = LhFreeCnt lh) h h' →
  h' (LhFreeHead lh) = h (Word dc) → h' (LhFreeCnt lh) = h (LhFreeCnt lh) - 1 →
  heap_ok H (restat_g g dc CLimbo (<[LLocal lh := q]> (g_ls g))) h'.
Proof.
  intros Hlh Hl Hag Hhd Hct.
  assert (g_cs g dc = CIdle lh) as Hdc by (apply (i_local _ _ _ Hok); rewrite Hl; by left).
  assert (∀ l x, x ∈ (<[LLocal lh := q]> (g_ls g)) l ↔ x ∈ g_ls g l ∧ (x = dc → l ≠ LLocal lh)) as Hmem.
  { intros l x. destruct (decide (l = LLocal lh)) as [->|Hne]; simpl_fn; [|naive_solver].
    pose proof (lk_nodup _ _ _ _ (i_links _ _ _ Hok) (LLocal lh)) as Hnd. rewrite Hl in Hnd |- *.
    apply NoDup_cons in Hnd as [Hdq _]. rewrite elem_of_cons. split.
    - intros Hx. split; [by right|]. by intros ->.
    - intros [[->|?] Hx]; [by destruct Hx|done]. }
  apply (restat_ok _ _ h); try done.
  - by rewrite Hdc.
  - pool_agree.
  - intros l Hc. rewrite fn_lookup_insert_ne; [done|by intros <-].
  - eapply (links_pop (i_links _ _ _ Hok) (LLocal lh) dc q); try done.
    + intros a. apply Hag. naive_solver.
    + intros l _. destruct (decide (l = LLocal lh)) as [->|]; simpl_fn; [done|].
      destruct l; simpl; rewrite Hag by naive_solver; done.
  - intros lh' x. rewrite Hmem, (i_local _ _ _ Hok). destruct (decide (x = dc)) as [->|]; simpl_fn; [|tauto].
    split; [|done]. intros [Hx Hne]. exfalso. apply Hne; congruence.
  - intros x. rewrite Hmem, (i_global _ _ _ Hok). destruct (decide (x = dc)) as [->|]; simpl_fn; [|tauto].
    split; [|done]. intros [Hx Hne]. exfalso. apply Hne; congruence.
  - intros x. rewrite !Hag by naive_solver. intros Hx. apply (i_pos _ _ _ Hok).
    destruct (decide (x = dc)) as [->|]; simpl_fn; congruence.
  - intros lh' Hlh'. destruct (i_cnt _ _ _ Hok lh' Hlh') as [Hc1 Hc2]. destruct (decide (lh' = lh)) as [->|Hne].
    + rewrite Hct, Hc1, fn_lookup_insert, Hl in *. simpl in *. lia.
    + rewrite Hag, fn_lookup_insert_ne by naive_solver. done.
Qed.

(** From the free list of the pool. *)
Lemma fetch_global_ok :
  g_ls g LGlobal = dc :: q →
  agree (λ c, c = FreeDcHead get_core_id) h h' → ABA_ADDR (h' (FreeDcHead get_core_id)) = h (Word dc) →
  heap_ok H (restat_g g dc CLimbo (<[LGlobal := q]> (g_ls g))) h'.
Proof.
  intros Hl Hag Hhd.
  assert (g_cs g dc = CGlob) as Hdc by (apply (i_global _ _ _ Hok); rewrite Hl; by left).
  assert (∀ l x, x ∈ (<[LGlobal := q]> (g_ls g)) l ↔ x ∈ g_ls g l ∧ (x = dc → l ≠ LGlobal)) as Hmem.
  { intros l x. destruct (decide (l = LGlobal)) as [->|Hne]; simpl_fn; [|naive_solver].
    pose proof (lk_nodup _ _ _ _ (i_links _ _ _ Hok) LGlobal) as Hnd. rewrite Hl in Hnd |- *.
    apply NoDup_cons in Hnd as [Hdq _]. rewrite elem_of_cons. split.
    - intros Hx. split; [by right|]. by intros ->.
    - intros [[->|?] Hx]; [by destruct Hx|done]. }
  apply (restat_ok _ _ h); try done.
  - by rewrite Hdc.
  - pool_agree.
  - intros l Hc. rewrite fn_lookup_insert_ne; [done|by intros <-].
  - eapply (links_pop (i_links _ _ _ Hok) LGlobal dc q); try done.
    + intros a. by apply Hag.
    + intros l _. destruct (decide (l = LGlobal)) as [->|]; simpl_fn; [done|].
      destruct l; simpl; rewrite Hag by done; done.
  - intros lh' x. rewrite Hmem, (i_local _ _ _ Hok). destruct (decide (x = dc)) as [->|]; simpl_fn; [|tauto].
    split; [|done]. intros [Hx Hne]. exfalso. apply Hne; congruence.
  - intros x. rewrite Hmem, (i_global _ _ _ Hok). destruct (decide (x = dc)) as [->|]; simpl_fn; [|tauto].
    split; [|done]. intros [Hx Hne]. exfalso. apply Hne; congruence.
  - intros x. rewrite !Hag by done. intros Hx. apply (i_pos _ _ _ Hok).
    destruct (decide (x = dc)) as [->|]; simpl_fn; congruence.
  - intros lh' Hlh'. rewrite Hag, fn_lookup_insert_ne by done. by apply (i_cnt _ _ _ Hok).
Qed.

(** From the end of the pool. *)
Lemma fetch_raw_ok :
  dc = h FreeStart → RAW_POOL_START ≤ dc → dc `mod` CHUNK_SIZE = 0 →
  agree (λ c, c = FreeStart ∨ c = PoolEnd ∨ c = LastAlloc ∨ c = NumaNode dc ∨ ∃ a, c = Word a ∧ dc ≤ a) h h' →
  h' FreeStart = dc + CHUNK_SIZE → h' (NumaNode dc) = 0 →
  heap_ok H (restat_g g dc CLimbo (g_ls g)) h'.
Proof.
  intros Hfs Hraw Hmod Hag Hfs' Hnuma.
  assert (g_cs g dc = CNone) as Hdc.
  { destruct (decide (g_cs g dc = CNone)) as [|Hn]; [done|].
    apply (i_pos _ _ _ Hok) in Hn as (_ & Hn & _). unfold CHUNK_SIZE, CHUNK_DATA_SIZE, PAGE_SIZE, DCH in Hn. lia. }
  apply (restat_ok _ _ h); try done.
  - by rewrite Hdc.
  - pool_agree.
  - eapply (links_ext (i_links _ _ _ Hok)); try done.
    + intros l x Hx%(listed_below H g h l x Hok). apply Hag. intros [?|[?|[?|[?|(a & [= ->] & ?)]]]]; try done. lia.
    + intros l _. destruct l; simpl; rewrite Hag by naive_solver; done.
  - intros lh' x. rewrite (i_local _ _ _ Hok). destruct (decide (x = dc)) as [->|]; simpl_fn; [|done]. split; congruence.
  - intros x. rewrite (i_global _ _ _ Hok). destruct (decide (x = dc)) as [->|]; simpl_fn; [|done]. split; congruence.
  - intros x Hx. destruct (decide (x = dc)) as [->|]; simpl_fn; [rewrite Hfs', Hnuma; lia|].
    destruct (i_pos _ _ _ Hok x Hx) as (? & ? & ? & ?). rewrite Hfs', Hag by naive_solver.
    unfold CHUNK_SIZE, CHUNK_DATA_SIZE, PAGE_SIZE, DCH in *. lia.
  - intros lh' Hlh'. rewrite Hag by naive_solver. by apply (i_cnt _ _ _ Hok).
Qed.
End fetch.

Section put.
Context (H : hole) (g : ghost) (h h' : mem) (dc : Z) (Hok : heap_ok H g h) (Hdc : g_cs g dc = CLimbo).

Lemma limbo_pos : 0 < dc.
Proof. apply (cs_pos Hok). by rewrite Hdc. Qed.

(** To the free list of the heap that owns it. *)
Lemma put_local_ok lh :
  g_cs g lh = CHeap → h (Owner dc) = lh → h (RemoteFreeHead dc) = 0 → h (LhFreeCnt lh) < MAX_FREE_CHUNK →
  agree (λ c, c = LhFreeHead lh ∨ c = LhFreeCnt lh ∨ c = Word dc) h h' →
  h' (LhFreeHead lh) = dc → h' (Word dc) = h (LhFreeHead lh) → h' (LhFreeCnt lh) = h (LhFreeCnt lh) + 1 →
  heap_ok H (restat_g g dc (CIdle lh) (<[LLocal lh := dc :: g_ls g (LLocal lh)]> (g_ls g))) h'.
Proof.
  intros Hlh Hown Hrem Hmax Hag Hhd Hw Hct. pose proof (limbo_unlisted _ _ _ _ Hok Hdc) as Hno.
  apply (restat_ok _ _ h); try done.
  - by rewrite Hdc.
  - pool_agree.
  - intros l Hc. rewrite fn_lookup_insert_ne; [done|by intros <-].
  - eapply (links_push (i_links _ _ _ Hok) (LLocal lh) dc); try done.
    + apply limbo_pos.
    + intros a. unfold words. destruct (decide (a = dc)) as [->|]; simpl_fn; [done|]. apply Hag. naive_solver.
    + intros l _. destruct (decide (l = LLocal lh)) as [->|]; simpl_fn; [done|].
      destruct l; simpl; rewrite Hag by naive_solver; done.
  - intros lh' x. destruct (decide (lh' = lh)) as [->|Hne]; simpl_fn.
    + rewrite elem_of_cons, (i_local _ _ _ Hok). destruct (decide (x = dc)) as [->|]; simpl_fn; [tauto|].
      split; [by intros [?|?]|by right].
    + rewrite (i_local _ _ _ Hok).
      destruct (decide (x = dc)) as [->|]; simpl_fn; [|done]. split; congruence.
  - intros x. rewrite fn_lookup_insert_ne, (i_global _ _ _ Hok) by done.
    destruct (decide (x = dc)) as [->|]; simpl_fn; [|done]. split; congruence.
  - by intros lh' [= <-].
  - intros x. rewrite !Hag by naive_solver. intros Hx. apply (i_pos _ _ _ Hok).
    destruct (decide (x = dc)) as [->|]; simpl_fn; congruence.
  - intros lh' Hlh'. destruct (i_cnt _ _ _ Hok lh' Hlh') as [Hc1 Hc2]. destruct (decide (lh' = lh)) as [->|Hne].
    + rewrite Hct, Hc1, fn_lookup_insert in *. simpl. lia.
    + rewrite Hag, fn_lookup_insert_ne by naive_solver. done.
Qed.

(** To the free list of the pool. *)
Lemma put_global_ok :
  agree (λ c, c = FreeDcHead get_core_id ∨ c = Word dc) h h' →
  ABA_ADDR (h' (FreeDcHead get_core_id)) = dc → h' (Word dc) = head_of h LGlobal →
  heap_ok H (restat_g g dc CGlob (<[LGlobal := dc :: g_ls g LGlobal]> (g_ls g))) h'.
Proof.
  intros Hag Hhd Hw. pose proof (limbo_unlisted _ _ _ _ Hok Hdc) as Hno.
  apply (restat_ok _ _ h); try done.
  - by rewrite Hdc.
  - pool_agree.
  - intros l Hc. rewrite fn_lookup_insert_ne; [done|by intros <-].
  - eapply (links_push (i_links _ _ _ Hok) LGlobal dc); try done.
    + apply limbo_pos.
    + intros a. unfold words. destruct (decide (a = dc)) as [->|]; simpl_fn; [done|]. apply Hag. naive_solver.
    + intros l _. destruct (decide (l = LGlobal)) as [->|]; simpl_fn; [done|].
      destruct l; simpl; rewrite Hag by naive_solver; done.
  - intros lh' x. rewrite fn_lookup_insert_ne, (i_local _ _ _ Hok) by done.
    destruct (decide (x = dc)) as [->|]; simpl_fn; [|done]. split; congruence.
  - intros x. rewrite fn_lookup_insert, elem_of_cons, (i_global _ _ _ Hok).
    destruct (decide (x = dc)) as [->|]; simpl_fn; tauto.
  - intros x. rewrite !Hag by naive_solver. intros Hx. apply (i_pos _ _ _ Hok).
    destruct (decide (x = dc)) as [->|]; simpl_fn; congruence.
  - intros lh' Hlh'. rewrite Hag, fn_lookup_insert_ne by naive_solver. by apply (i_cnt _ _ _ Hok).
Qed.
End put.

(** ** Leaving a background list *)

Section leave_bg.
Context (H : hole) (g : ghost) (h h' : mem) (dc lh c : Z) (l1 l2 : list Z) (s' : cstat) (T : cell → Prop).
Context (Hok : heap_ok H g h) (Hcs : g_cs g dc = CBg lh c) (Hs' : ∀ lh c, s' ≠ CBg lh c).
Context (Hbg : g_bg g lh c = l1 ++ dc :: l2).

Definition leave_bg : Z → Z → list Z := <[lh := <[c := l1 ++ l2]> (g_bg g lh)]> (g_bg g).

Lemma leave_bg_other lh' c' : ¬ (lh' = lh ∧ c' = c) → leave_bg lh' c' = g_bg g lh' c'.
Proof.
  intros Hne. unfold leave_bg. destruct (decide (lh' = lh)) as [->|]; simpl_fn; [|done].
  rewrite fn_lookup_insert_ne; [done|]. intros ->. by apply Hne.
Qed.

Lemma leave_heap : g_cs g lh = CHeap.
Proof. apply (ck_heap _ _ _ _ _ (i_chunk _ _ _ Hok dc lh c ltac:(by rewrite Hcs))). Qed.

Lemma leave_bg_elem x : x ∈ l1 ++ l2 ↔ x ≠ dc ∧ g_cs g x = CBg lh c.
Proof.
  pose proof (dl_nodup _ _ _ _ (i_bg _ _ _ Hok lh c leave_heap)) as Hnd. rewrite Hbg in Hnd.
  apply NoDup_app in Hnd as (_ & Hd & [Hdc _]%NoDup_cons).
  rewrite <-(i_bg_at _ _ _ Hok), Hbg, !elem_of_app, elem_of_cons. split.
  - intros Hx. split; [|tauto]. intros ->. destruct Hx as [Hx|Hx]; [|done]. apply (Hd dc Hx). by left.
  - tauto.
Qed.

Lemma leave_bg_at lh' c' x : x ∈ leave_bg lh' c' ↔ (<[dc := s']> (g_cs g)) x = CBg lh' c'.
Proof.
  destruct (decide (lh' = lh ∧ c' = c)) as [[-> ->]|Hne].
  - unfold leave_bg. rewrite !fn_lookup_insert, leave_bg_elem.
    destruct (decide (x = dc)) as [->|]; simpl_fn; [|tauto]. split; [by intros [? _]|]. by intros ?%Hs'.
  - rewrite leave_bg_other, (i_bg_at _ _ _ Hok) by done. destruct (decide (x = dc)) as [->|]; simpl_fn; [|done].
    rewrite Hcs. split; [intros [= ? ?]; by destruct Hne|by intros ?%Hs'].
Qed.

Context (Hag : agree (λ x, dcells (BackgroundHead lh c) (BackgroundTail lh c) (l1 ++ l2) x ∨ T x) h h').
Context (HT : ∀ x, T x → is_link x = false ∧ ∀ l k, x ≠ BackgroundHead l k ∧ x ≠ BackgroundTail l k).
Context (Hdl : dlist h' (BackgroundHead lh c) (BackgroundTail lh c) (l1 ++ l2)).

Lemma leave_bg_ok lh' c' : g_cs g lh' = CHeap →
  dlist h' (BackgroundHead lh' c') (BackgroundTail lh' c') (leave_bg lh' c').
Proof.
  intros Hlh. destruct (decide (lh' = lh ∧ c' = c)) as [[-> ->]|Hne].
  { unfold leave_bg. by rewrite !fn_lookup_insert. }
  rewrite leave_bg_other by done.
  assert (∀ x, ¬ T x → ¬ dcells (BackgroundHead lh c) (BackgroundTail lh c) (l1 ++ l2) x → h' x = h x) as Hk.
  { intros x ? ?. apply Hag. tauto. }
  eapply dlist_cells; [by apply (i_bg _ _ _ Hok)|..].
  - apply Hk; [intros [_ Hx]%HT; by destruct (Hx lh' c')|]. intros [Heq|[?|(? & _ & [?|?])]]; try done.
    injection Heq as ? ?. auto.
  - apply Hk; [intros [_ Hx]%HT; by destruct (Hx lh' c')|]. intros [?|[Heq|(? & _ & [?|?])]]; try done.
    injection Heq as ? ?. auto.
  - intros x Hx%(i_bg_at _ _ _ Hok). split; (apply Hk; [by intros [? _]%HT|]);
      intros [?|[?|(y & Hy%leave_bg_elem & [Heq|Heq])]]; try done; injection Heq as ->;
      destruct Hy as [_ Hy]; rewrite Hx in Hy; injection Hy as ? ?; auto.
Qed.
End leave_bg.

(** ** A background chunk whose blocks are all free leaves its heap *)

Section detach.
Context (H : hole) (g : ghost) (h h' : mem) (dc lh c : Z) (l1 l2 : list Z).
Context (Hok : heap_ok H g h) (Hcs : g_cs g dc = CBg lh c) (Hall : h (FreeBlkCnt dc) = CHUNK_DATA_SIZE / sz c).
Context (Hbg : g_bg g lh c = l1 ++ dc :: l2).
Context (Hag : agree (dcells (BackgroundHead lh c) (BackgroundTail lh c) (l1 ++ l2)) h h').
Context (Hdl : dlist h' (BackgroundHead lh c) (BackgroundTail lh c) (l1 ++ l2)).

Definition detach_g : ghost := {|
  g_ls := <[LFree dc := []]> (g_ls g);
  g_cs := <[dc := CLimbo]> (g_cs g);
  g_bg := <[lh := <[c := l1 ++ l2]> (g_bg g lh)]> (g_bg g);
  g_live := g_live g;
  g_large := g_large g;
|}.

Local Lemma detach_data : cdata (g_cs g dc) = Some (lh, c).
Proof. by rewrite Hcs. Qed.

Lemma detach_keep x : is_link x = false → (∀ l k, x ≠ BackgroundHead l k ∧ x ≠ BackgroundTail l k) → h' x = h x.
Proof.
  intros Hl Hb. apply Hag. intros [->|[->|(y & _ & [-> | ->])]]; try done; by destruct (Hb lh c).
Qed.

Ltac keep := rewrite ?detach_keep by (done || (intros; split; done)).

(** No block of the chunk is anywhere but in its free list. *)
Lemma detach_gone l x : is_blk l = true → l ≠ LFree dc → x ∈ g_ls g l → dchunk_extract x ≠ dc.
Proof.
  intros Hl Hne Hx Hex. destruct (i_blk _ _ _ Hok l x Hl Hx) as [_ Hb]. rewrite Hex in Hb.
  apply (all_free Hok _ _ _ _ detach_data Hall) in Hb. by apply Hne, (lk_sep _ _ _ _ (i_links _ _ _ Hok) _ _ x).
Qed.

Lemma detach_live x : x ∈ g_live g → dchunk_extract x ≠ dc.
Proof.
  intros Hx Hex. destruct (i_live _ _ _ Hok x Hx) as (_ & Hb & Hno). rewrite Hex in Hb.
  apply (all_free Hok _ _ _ _ detach_data Hall) in Hb. by apply (Hno (LFree dc)).
Qed.

Lemma detach_remote : g_ls g (LRemote dc) = [] ∧ h (RemoteFreeHead dc) = 0.
Proof.
  assert (g_ls g (LRemote dc) = []) as Hnil.
  { destruct (g_ls g (LRemote dc)) as [|x q] eqn:Hq; [done|]. exfalso.
    apply (detach_gone (LRemote dc) x); [done..|rewrite Hq; by left|].
    apply (i_at _ _ _ Hok). right. rewrite Hq. by left. }
  split; [done|]. destruct (i_chunk _ _ _ Hok _ _ _ detach_data) as [_ _ _ _ _ _ _ _ Hrem _].
  rewrite Hrem, Hnil. pose proof (lk_list _ _ _ _ (i_links _ _ _ Hok) (LRemote dc)) as Hz.
  rewrite Hnil in Hz. simpl in Hz. simpl. rewrite Hz; [done|]. rewrite Hcs. by eauto.
Qed.

Lemma detach_cs x s : s ≠ CLimbo → s ≠ CBg lh c → (<[dc := CLimbo]> (g_cs g)) x = s ↔ g_cs g x = s.
Proof. intros ??. destruct (decide (x = dc)) as [->|]; simpl_fn; [|done]. split; congruence. Qed.

Lemma detach_other l : l ≠ LFree dc → g_ls detach_g l = g_ls g l.
Proof. intros. simpl. by rewrite fn_lookup_insert_ne. Qed.

Lemma detach_sub l x : x ∈ g_ls detach_g l → x ∈ g_ls g l ∧ l ≠ LFree dc.
Proof.
  destruct (decide (l = LFree dc)) as [->|]; [|by rewrite detach_other]. simpl. rewrite fn_lookup_insert.
  by intros ?%elem_of_nil.
Qed.

Lemma detach_links : links (words h') (head_of h') (valid (<[dc := CLimbo]> (g_cs g))) (g_ls detach_g).
Proof.
  destruct detach_remote as [Hrnil _]. apply (links_sub (i_links _ _ _ Hok)).
  - intros l x _. unfold words. by keep.
  - intros l HV. assert (valid (g_cs g) l ∧ l ≠ LFree dc) as [HV' Hne].
    { destruct l; simpl in *; try (by rewrite detach_cs in HV by done); try done;
      (destruct (decide (dc0 = dc)) as [->|]; simpl_fn; [by destruct HV|split; congruence]). }
    rewrite detach_other by done. replace (head_of h' l) with (head_of h l); [by apply (lk_list _ _ _ _ (i_links _ _ _ Hok))|].
    destruct l; simpl; by keep.
  - intros l HV. destruct (decide (l = LFree dc)) as [->|Hne]; [simpl; by simpl_fn|]. rewrite detach_other by done.
    destruct (decide (l = LRemote dc)) as [->|Hne']; [done|]. apply (lk_none _ _ _ _ (i_links _ _ _ Hok)).
    intros HV'. apply HV. destruct l; simpl in *; try (by rewrite detach_cs by done); try done; by simpl_fn.
  - intros l. destruct (decide (l = LFree dc)) as [->|Hne]; [simpl; simpl_fn; apply sublist_nil_l|by rewrite detach_other].
Qed.

Lemma detach_chunk x lh' c' : x ≠ dc → cdata (g_cs g x) = Some (lh', c') → chunk_ok h' detach_g x lh' c'.
Proof.
  intros Hne Hx. destruct (i_chunk _ _ _ Hok x lh' c' Hx).
  split; simpl; rewrite ?fn_lookup_insert_ne by congruence; keep; try done.
Qed.

Lemma detach_ok : heap_ok H detach_g h'.
Proof.
  assert (∀ x, x ≠ dc → cdata ((<[dc := CLimbo]> (g_cs g)) x) = cdata (g_cs g x)) as Hcd by (intros; by simpl_fn).
  assert (∀ x y, block h x y → block h' x y) as Hblk by (intros x y (i & ? & ? & ?); exists i; by keep).
  destruct detach_remote as [Hrnil _].
  destruct (Hok) as []. split.
  - apply detach_links.
  - intros l x Hl [Hx Hne]%detach_sub. simpl g_cs. rewrite Hcd by (by eapply detach_gone).
    destruct (i_blk l x Hl Hx). auto.
  - intros dc' x [[? _]%detach_sub|[? _]%detach_sub]; auto.
  - intros lh' i Hlh%detach_cs; [|done..]. destruct (i_buf lh' i Hlh). split; rewrite ?detach_other by done; keep; auto.
  - intros x Hx. simpl g_cs. rewrite Hcd by (by apply detach_live). destruct (i_live x Hx) as (? & ? & Hno).
    split_and!; [done|by auto|]. intros l [? _]%detach_sub. by apply (Hno l).
  - intros x lh' c'. simpl g_cs. destruct (decide (x = dc)) as [->|Hne]; simpl_fn; [done|]. by apply detach_chunk.
  - intros lh' c' x. rewrite !detach_other by done. rewrite i_need. simpl g_cs.
    destruct (decide (x = dc)) as [->|Hne]; simpl_fn; [|done]. rewrite Hrnil. split; intros [? ?]; done.
  - intros lh' x. rewrite detach_other by done. simpl g_cs. by rewrite detach_cs by done.
  - intros lh' x. simpl g_cs. rewrite detach_cs by done. keep. auto.
  - intros x. rewrite detach_other by done. simpl g_cs. by rewrite detach_cs by done.
  - intros x. rewrite detach_other by done. simpl g_cs. rewrite detach_cs by done. auto.
  - intros x. simpl g_cs. keep. intros Hx. apply i_pos. destruct (decide (x = dc)) as [->|]; simpl_fn; congruence.
  - intros lh' c'. simpl g_cs. rewrite !detach_cs by done. keep. auto.
  - intros lh' c' x. simpl g_cs. rewrite !detach_cs by done. keep. auto.
  - intros lh'. simpl g_cs. rewrite !detach_cs by done. keep. auto.
  - intros lh'. simpl g_cs. rewrite !detach_cs by done. keep. auto.
  - intros lh' c'. simpl g_cs. rewrite detach_cs by done.
    intros Hlh. eapply (leave_bg_ok _ _ _ _ _ _ _ _ _ (λ _, False)); try done. eapply agree_weaken; [done|]. tauto.
  - intros lh' c' x. eapply leave_bg_at; done.
  - intros lh'. simpl g_cs. rewrite detach_cs, detach_other by done. keep. auto.
Qed.
End detach.

(** ** A chunk becomes the foreground chunk of a class *)

Section foreground.
Context (g : ghost) (h h' : mem) (dc lh c : Z) (Hok : heap_ok (HFg lh c) g h).
Context (Hnf : ∀ lh c, g_cs g dc ≠ CFg lh c) (Hnh : g_cs g dc ≠ CHeap).
Context (Hfg : h' (Foreground lh c) = dc).
Context (Hoth : ∀ lh' c', ¬ (lh' = lh ∧ c' = c) → h' (Foreground lh' c') = h (Foreground lh' c')).

Local Notation cs' := (<[dc := CFg lh c]> (g_cs g)).

Lemma fill_fg lh' c' : cs' lh' = CHeap → 0 ≤ c' < NCLS →
  h' (Foreground lh' c') = lh' + dummy_offset ∨ cs' (h' (Foreground lh' c')) = CFg lh' c'.
Proof.
  intros Hlh Hc'. destruct (decide (lh' = lh ∧ c' = c)) as [[-> ->]|Hne]; [right; rewrite Hfg; by simpl_fn|].
  rewrite Hoth by done. assert (g_cs g lh' = CHeap) as Hlh'.
  { destruct (decide (lh' = dc)) as [->|]; by simpl_fn. }
  destruct (i_fg _ _ _ Hok lh' c' Hlh' Hc') as [?|Hf]; [intros [= ? ?]; by apply Hne|by left|right].
  rewrite fn_lookup_insert_ne; [done|]. intros Heq. rewrite <-Heq in Hf. by destruct (Hnf lh' c').
Qed.

Lemma fill_fg_at lh' c' x : cs' x = CFg lh' c' → h' (Foreground lh' c') = x.
Proof.
  destruct (decide (x = dc)) as [->|Hx]; simpl_fn; [by intros [= <- <-]|].
  intros Hf. destruct (i_fg_at _ _ _ Hok lh' c' x Hf) as [Hne <-]. apply Hoth. intros [-> ->]. done.
Qed.

Lemma fill_heap x : cs' x = CHeap ↔ g_cs g x = CHeap.
Proof. destruct (decide (x = dc)) as [->|]; simpl_fn; [|done]. split; [done|]. by intros ?%Hnh. Qed.

Lemma fill_cs x s : s ≠ CFg lh c → s ≠ g_cs g dc → cs' x = s ↔ g_cs g x = s.
Proof. intros ? ?. destruct (decide (x = dc)) as [->|]; simpl_fn; [|done]. split; congruence. Qed.
End foreground.

(** *** An empty chunk *)

Section activate.
Context (g : ghost) (h h' : mem) (dc lh c : Z) (Hok : heap_ok (HFg lh c) g h).
Context (Hdc : g_cs g dc = CLimbo) (Hlh : g_cs g lh = CHeap) (Hc : 0 ≤ c < NCLS).

Definition new_cells (x : cell) : Prop :=
  x = Owner dc ∨ x = SizeCls dc ∨ x = State dc ∨ x = FreeBlkCnt dc ∨ x = BlkCnt dc ∨ x = FreeHead dc ∨
  x = BlockSize dc ∨ x = FreeMem dc ∨ x = RemoteFreeHead dc ∨ x = Next dc ∨ x = Prev dc ∨ x = Foreground lh c.

Context (Hag : agree new_cells h h').
Context (Hv : h' (Owner dc) = lh ∧ h' (SizeCls dc) = c ∧ h' (State dc) = FOREGROUND ∧
  h' (FreeBlkCnt dc) = CHUNK_DATA_SIZE / sz c ∧ h' (BlkCnt dc) = CHUNK_DATA_SIZE / sz c ∧ h' (FreeHead dc) = 0 ∧
  h' (BlockSize dc) = sz c ∧ h' (FreeMem dc) = dc + DCH ∧ h' (RemoteFreeHead dc) = 0 ∧ h' (Foreground lh c) = dc).

Definition activate_g : ghost := Ghost (g_ls g) (<[dc := CFg lh c]> (g_cs g)) (g_bg g) (g_live g) (g_large g).

Ltac keep := rewrite ?Hag by (unfold new_cells; intuition congruence).

Lemma activate_cs x s : s ≠ CFg lh c → s ≠ CLimbo → (<[dc := CFg lh c]> (g_cs g)) x = s ↔ g_cs g x = s.
Proof. intros. apply fill_cs; [done|congruence]. Qed.

Lemma activate_nil : g_ls g (LFree dc) = [] ∧ g_ls g (LRemote dc) = [].
Proof. split; apply (lk_none _ _ _ _ (i_links _ _ _ Hok)); simpl; rewrite Hdc; by intros []. Qed.

Lemma activate_gone x : is_Some (cdata (g_cs g (dchunk_extract x))) → dchunk_extract x ≠ dc.
Proof. intros Hx Heq. rewrite Heq, Hdc in Hx. by destruct Hx. Qed.

Lemma activate_other lh' c' : ¬ (lh' = lh ∧ c' = c) → h' (Foreground lh' c') = h (Foreground lh' c').
Proof. intros Hne. apply Hag. unfold new_cells. intros Hx. destruct_or! Hx; try done. injection Hx as ? ?. auto. Qed.

Lemma activate_links : links (words h') (head_of h') (valid (<[dc := CFg lh c]> (g_cs g))) (g_ls g).
Proof.
  destruct activate_nil as [Hn1 Hn2]. destruct Hv as (_ & _ & _ & _ & _ & Hfh & _ & _ & Hrh & _).
  apply (links_sub (i_links _ _ _ Hok)).
  - intros l x _. unfold words. by keep.
  - intros l HV. destruct (decide (l = LFree dc)) as [->|]; [by rewrite Hn1|].
    destruct (decide (l = LRemote dc)) as [->|]; [rewrite Hn2; simpl; by rewrite Hrh|].
    assert (valid (g_cs g) l) as HV'.
    { destruct l; simpl in *; try (by rewrite activate_cs in HV by done); try done; by simpl_fn. }
    replace (head_of h' l) with (head_of h l); [by apply (lk_list _ _ _ _ (i_links _ _ _ Hok))|].
    destruct l; simpl; by keep.
  - intros l HV. apply (lk_none _ _ _ _ (i_links _ _ _ Hok)). intros HV'. apply HV.
    destruct l; simpl in *; try (by rewrite activate_cs by done); try done;
      (destruct (decide (dc0 = dc)) as [->|]; simpl_fn; by eauto).
  - done.
Qed.

Lemma activate_chunk x lh' c' :
  cdata ((<[dc := CFg lh c]> (g_cs g)) x) = Some (lh', c') → chunk_ok h' activate_g x lh' c'.
Proof.
  destruct activate_nil as [Hn1 Hn2]. destruct Hv as (? & ? & Hst & Hfb & ? & ? & ? & Hfm & Hrh & ?).
  destruct (decide (x = dc)) as [->|Hne]; simpl_fn.
  - intros [= <- <-]. split; simpl; simpl_fn; try done.
    + exists 0. rewrite Hfm, Hfb, Hn1. simpl. pose proof (class_count c Hc). lia.
    + by rewrite Hrh, Hn2.
    + rewrite Hfb, bool_decide_false by done. pose proof (class_count c Hc). lia.
  - intros Hx. destruct (i_chunk _ _ _ Hok x lh' c' Hx). split; simpl; simpl_fn; keep; try done; by apply activate_cs.
Qed.

Lemma activate_ok : heap_ok (HDummy lh) activate_g h'.
Proof.
  assert (∀ x, x ≠ dc → cdata ((<[dc := CFg lh c]> (g_cs g)) x) = cdata (g_cs g x)) as Hcd by (intros; by simpl_fn).
  assert (∀ x y, x ≠ dc → block h x y → block h' x y) as Hblk by (intros x y ? (i & ? & ? & ?); exists i; by keep).
  assert (∀ lh', g_cs g lh' = CHeap → dc ≠ lh' + dummy_offset) as Hdum.
  { intros lh' ?. apply (dummy_not_chunk Hok); [done|by rewrite Hdc]. }
  destruct activate_nil as [Hn1 Hn2].
  destruct (Hok) as []. split; simpl.
  - apply activate_links.
  - intros l x Hl Hx. destruct (i_blk l x Hl Hx) as [Hd Hb]. pose proof (activate_gone x Hd). rewrite Hcd by done. auto.
  - done.
  - intros lh' i Hlh'%activate_cs; [|done..]. destruct (i_buf lh' i Hlh'). split; simpl; keep; auto.
  - intros x Hx. destruct (i_live x Hx) as (Hd & Hb & Hno). pose proof (activate_gone x Hd). rewrite Hcd by done. auto.
  - apply activate_chunk.
  - intros lh' c' x. rewrite i_need. destruct (decide (x = dc)) as [->|]; simpl_fn; [|done].
    rewrite Hn2. split; intros [? ?]; done.
  - intros lh' x. by rewrite activate_cs by done.
  - intros lh' x. rewrite activate_cs by done. intros Hx. assert (x ≠ dc) by congruence. keep. auto.
  - intros x. by rewrite activate_cs by done.
  - intros x. rewrite activate_cs by done. auto.
  - intros x. keep. intros Hx. apply i_pos. destruct (decide (x = dc)) as [->|]; simpl_fn; congruence.
  - intros lh' c' Hlh' Hc' _. apply (fill_fg g h h' dc lh c Hok); try done; try (intros; congruence).
    + by destruct Hv as (_ & _ & _ & _ & _ & _ & _ & _ & _ & ?).
    + apply activate_other.
  - intros lh' c' x Hx. split; [done|]. apply (fill_fg_at g h h' dc lh c Hok); try done.
    + by destruct Hv as (_ & _ & _ & _ & _ & _ & _ & _ & _ & ?).
    + apply activate_other.
  - intros lh'. rewrite activate_cs by done. intros Hlh'. pose proof (Hdum lh' Hlh'). keep. auto.
  - intros lh'. rewrite activate_cs by done. intros Hlh' _ Hne. pose proof (Hdum lh' Hlh'). keep.
    apply i_dummy_cnt; [done| |done]. intros c' [= <- <-]. done.
  - intros lh' c'. rewrite activate_cs by done. intros Hlh'. eapply dlist_cells; [by apply i_bg|by keep|by keep|].
    intros x Hx%i_bg_at. assert (x ≠ dc) by congruence. by keep.
  - intros lh' c' x. by rewrite activate_cs by done.
  - intros lh'. rewrite activate_cs by done. keep. auto.
Qed.
End activate.
