(* ===== verification/SsRecall.v ===== *)
(** * Chunks of SSMalloc that return to the foreground, and new heaps

    The remaining ways in which [lheap_replace_foreground] finds a chunk, in
    the background list or among the full chunks with remotely freed blocks,
    and the initialisation of a heap. *)

From S2P Require Import Prelude SsSize SsQueue SsMem SsMalloc SsLinks SsInv SsChunk SsMoves.

Local Open Scope Z_scope.

(** ** From the background list *)

Section recall.
Context (g : ghost) (h h' : mem) (dc lh c : Z) (l2 : list Z) (Hok : heap_ok (HFg lh c) g h).
Context (Hcs : g_cs g dc = CBg lh c) (Hbg : g_bg g lh c = dc :: l2).

Definition recall_cells (x : cell) : Prop := x = State dc ∨ x = Foreground lh c.

Context (Hag : agree (λ x, dcells (BackgroundHead lh c) (BackgroundTail lh c) l2 x ∨ recall_cells x) h h').
Context (Hdl : dlist h' (BackgroundHead lh c) (BackgroundTail lh c) l2).
Context (Hst : h' (State dc) = FOREGROUND) (Hfg : h' (Foreground lh c) = dc).

Definition recall_g : ghost :=
  Ghost (g_ls g) (<[dc := CFg lh c]> (g_cs g)) (leave_bg g lh c [] l2) (g_live g) (g_large g).

Lemma recall_keep x : ¬ recall_cells x → is_link x = false →
  (∀ l k, x ≠ BackgroundHead l k ∧ x ≠ BackgroundTail l k) → h' x = h x.
Proof.
  intros Hr Hl Hb. apply Hag. intros [[->|[->|(y & _ & [-> | ->])]]|?]; try done; by destruct (Hb lh c).
Qed.

Ltac keep := rewrite ?recall_keep by (done || (unfold recall_cells; intuition congruence)).

Lemma recall_cdata x : cdata ((<[dc := CFg lh c]> (g_cs g)) x) = cdata (g_cs g x).
Proof. destruct (decide (x = dc)) as [->|]; simpl_fn; [by rewrite Hcs|done]. Qed.

Lemma recall_cs x s : s ≠ CFg lh c → s ≠ CBg lh c → (<[dc := CFg lh c]> (g_cs g)) x = s ↔ g_cs g x = s.
Proof. intros. apply fill_cs; [done|congruence]. Qed.

Lemma recall_chunk x lh' c' : cdata (g_cs g x) = Some (lh', c') → chunk_ok h' recall_g x lh' c'.
Proof.
  intros Hx. destruct (i_chunk _ _ _ Hok x lh' c' Hx) as [? Hhp ? ? ? ? Hst0 Hfresh ? Hfr].
  destruct (decide (x = dc)) as [->|Hne].
  - rewrite Hcs in Hx. injection Hx as <- <-. rewrite bool_decide_false in Hfr by by rewrite Hcs.
    split; simpl; simpl_fn; keep; try done.
  - split; simpl; simpl_fn; keep; try done; by apply recall_cs.
Qed.

Lemma recall_other lh' c' : ¬ (lh' = lh ∧ c' = c) → h' (Foreground lh' c') = h (Foreground lh' c').
Proof. intros Hne. apply recall_keep; [|done|by intros]. intros [?|[= ? ?]]; [done|auto]. Qed.

Lemma recall_ok : heap_ok (HDummy lh) recall_g h'.
Proof.
  assert (∀ x y, block h x y → block h' x y) as Hblk by (intros x y (i & ? & ? & ?); exists i; by keep).
  assert (∀ lh', g_cs g lh' = CHeap → dc ≠ lh' + dummy_offset) as Hdum.
  { intros lh' ?. apply (dummy_not_chunk Hok); [done|by rewrite Hcs]. }
  destruct (Hok) as []. split; simpl.
  - eapply (links_ext i_links).
    + intros l x _. unfold words. by keep.
    + intros l _. destruct l; simpl; by keep.
    + intros l. destruct l; simpl; rewrite ?recall_cdata, ?recall_cs by done; done.
  - intros l x Hl Hx. rewrite recall_cdata. destruct (i_blk l x Hl Hx). auto.
  - done.
  - intros lh' i Hlh'%recall_cs; [|done..]. destruct (i_buf lh' i Hlh'). split; simpl; keep; auto.
  - intros x Hx. rewrite recall_cdata. destruct (i_live x Hx) as (? & ? & ?). auto.
  - intros x lh' c'. rewrite recall_cdata. apply recall_chunk.
  - intros lh' c' x. by rewrite recall_cdata.
  - intros lh' x. by rewrite recall_cs by done.
  - intros lh' x. rewrite recall_cs by done. keep. auto.
  - intros x. by rewrite recall_cs by done.
  - intros x. rewrite recall_cs by done. auto.
  - intros x. rewrite recall_cs by done. keep. auto.
  - intros lh' c' Hlh' Hc' _. apply (fill_fg g h h' dc lh c Hok); try done; try (intros; congruence). apply recall_other.
  - intros lh' c' x Hx. split; [done|]. apply (fill_fg_at g h h' dc lh c Hok); try done. apply recall_other.
  - intros lh'. rewrite recall_cs by done. keep. auto.
  - intros lh'. rewrite recall_cs by done. intros Hlh' _ Hne. keep.
    apply i_dummy_cnt; [done| |done]. intros c' [= <- <-]. done.
  - intros lh' c'. rewrite recall_cs by done. intros Hlh'.
    eapply (leave_bg_ok _ _ _ _ _ _ _ [] l2 recall_cells); try done.
    intros x [-> | ->]; done.
  - intros lh' c' x. by eapply leave_bg_at.
  - intros lh'. rewrite recall_cs by done. keep. auto.
Qed.
End recall.

(** ** From the chunks with remotely freed blocks *)

Section collect.
Context (g : ghost) (h h' : mem) (dc lh c : Z) (q : list Z) (Hok : heap_ok (HFg lh c) g h).
Context (Hlh : g_cs g lh = CHeap) (Hq : g_ls g (LNeed lh c) = dc :: q) (Hcs : g_cs g dc = CFull lh c).

Definition collect_cells (x : cell) : Prop :=
  x = NeedGc lh c ∨ x = RemoteFreeHead dc ∨ x = FreeBlkCnt dc ∨ x = FreeHead dc ∨ x = State dc ∨ x = Foreground lh c.

Context (Hag : agree collect_cells h h').
Context (Hv : h' (NeedGc lh c) = h (Word dc) ∧ h' (RemoteFreeHead dc) = 0 ∧
  h' (FreeBlkCnt dc) = length (g_ls g (LRemote dc)) ∧ h' (FreeHead dc) = head_of h (LRemote dc) ∧
  h' (State dc) = FOREGROUND ∧ h' (Foreground lh c) = dc).

Definition collect_ls : lid → list Z :=
  <[LRemote dc := []]> (<[LFree dc := g_ls g (LRemote dc)]> (<[LNeed lh c := q]> (g_ls g))).
Definition collect_g : ghost := Ghost collect_ls (<[dc := CFg lh c]> (g_cs g)) (g_bg g) (g_live g) (g_large g).

Ltac keep := rewrite ?Hag by (unfold collect_cells; intuition congruence).

Lemma collect_cdata x : cdata ((<[dc := CFg lh c]> (g_cs g)) x) = cdata (g_cs g x).
Proof. destruct (decide (x = dc)) as [->|]; simpl_fn; [by rewrite Hcs|done]. Qed.

Lemma collect_cs x s : s ≠ CFg lh c → s ≠ CFull lh c → (<[dc := CFg lh c]> (g_cs g)) x = s ↔ g_cs g x = s.
Proof. intros. apply fill_cs; [done|congruence]. Qed.

(** The chunk has no free blocks of its own. *)
Lemma collect_free : g_ls g (LFree dc) = [] ∧ g_ls g (LRemote dc) ≠ [] ∧
  h (FreeMem dc) = dc + DCH + CHUNK_DATA_SIZE / sz c * sz c.
Proof.
  destruct (i_chunk _ _ _ Hok dc lh c) as [? ? ? ? ? ? ? (k & Hk & Hfm & Hcn) ? Hfr]; [by rewrite Hcs|].
  rewrite bool_decide_true in Hfr by done. rewrite Hfr in Hcn.
  assert (length (g_ls g (LFree dc)) = 0%nat ∧ k = CHUNK_DATA_SIZE / sz c) as [Hl ->] by lia.
  apply length_zero_iff_nil in Hl. split_and!; [done| |done].
  apply (i_need _ _ _ Hok lh c). rewrite Hq. by left.
Qed.

Lemma collect_other l : l ≠ LRemote dc → l ≠ LFree dc → l ≠ LNeed lh c → collect_ls l = g_ls g l.
Proof. intros ???. unfold collect_ls. by simpl_fn. Qed.

Lemma collect_remote : collect_ls (LRemote dc) = [].
Proof. unfold collect_ls. by simpl_fn. Qed.

Lemma collect_lfree : collect_ls (LFree dc) = g_ls g (LRemote dc).
Proof. unfold collect_ls. by simpl_fn. Qed.

Lemma collect_need : collect_ls (LNeed lh c) = q.
Proof. unfold collect_ls. by simpl_fn. Qed.

Lemma collect_sub l x : x ∈ collect_ls l → ∃ l', x ∈ g_ls g l' ∧ (l' = l ∨ (l = LFree dc ∧ l' = LRemote dc)).
Proof.
  destruct (decide (l = LRemote dc)) as [->|]; [rewrite collect_remote; by intros ?%elem_of_nil|].
  destruct (decide (l = LFree dc)) as [->|]; [rewrite collect_lfree; eauto|].
  destruct (decide (l = LNeed lh c)) as [->|]; [|rewrite collect_other; eauto].
  rewrite collect_need. intros ?. exists (LNeed lh c). split; [|by left]. rewrite Hq. by right.
Qed.

Lemma collect_links : links (words h') (head_of h') (valid (<[dc := CFg lh c]> (g_cs g))) collect_ls.
Proof.
  destruct collect_free as (Hnil & Hcons & _). destruct Hv as (Hng & Hrh & _ & Hfh & _).
  assert (is_Some (cdata (g_cs g dc))) as Hd by (rewrite Hcs; by eauto).
  pose proof (links_pop (i_links _ _ _ Hok) (LNeed lh c) dc q (words h) (<[LNeed lh c := h (Word dc)]> (head_of h))
    Hlh Hq (λ _, eq_refl) (λ _ _, eq_refl)) as Hl1.
  assert (links (words h') (head_of h') (valid (g_cs g))
    (<[LRemote dc := []]> (<[LFree dc := (<[LNeed lh c := q]> (g_ls g)) (LRemote dc)]> (<[LNeed lh c := q]> (g_ls g))))) as Hl2.
  { apply (links_take Hl1); simpl_fn; try done.
    - intros a. unfold words. by keep.
    - intros l _. destruct (decide (l = LRemote dc)) as [->|]; simpl_fn; [simpl; by rewrite Hrh|].
      destruct (decide (l = LFree dc)) as [->|]; simpl_fn; [done|].
      destruct (decide (l = LNeed lh c)) as [->|]; simpl_fn; [done|].
      destruct l; simpl; by keep. }
  rewrite fn_lookup_insert_ne in Hl2 by done. eapply (links_ext Hl2); try done.
  intros l. destruct l; simpl; rewrite ?collect_cdata, ?collect_cs by done; done.
Qed.

Lemma collect_blk x y : block h x y → block h' x y.
Proof. intros (i & ? & ? & ?). exists i. by keep. Qed.

Lemma collect_chunk x lh' c' : cdata (g_cs g x) = Some (lh', c') → chunk_ok h' collect_g x lh' c'.
Proof.
  destruct collect_free as (Hnil & Hcons & Hfm'). destruct Hv as (_ & Hrh & Hfb & _ & Hst & _). intros Hx.
  destruct (i_chunk _ _ _ Hok x lh' c' Hx) as [Hcl Hhp ? ? ? ? Hst0 Hfresh ? Hfr].
  destruct (decide (x = dc)) as [->|Hne].
  - rewrite Hcs in Hx. injection Hx as <- <-. destruct (g_ls g (LRemote dc)) as [|y r] eqn:Hr; [done|].
    split; simpl; rewrite ?collect_lfree, ?collect_remote, ?Hr; simpl_fn; keep; try done.
    + exists (CHUNK_DATA_SIZE / sz c). rewrite Hfb. pose proof (class_count c Hcl). split_and!; [lia|lia|done|]. simpl. lia.
    + simpl. by rewrite Hrh.
    + rewrite bool_decide_false by done. rewrite Hfb. simpl. lia.
  - split; simpl; rewrite ?collect_other by congruence; simpl_fn; keep; try done; by apply collect_cs.
Qed.

Lemma collect_fg lh' c' : ¬ (lh' = lh ∧ c' = c) → h' (Foreground lh' c') = h (Foreground lh' c').
Proof. intros Hne. apply Hag. unfold collect_cells. intros Hx. destruct_or! Hx; try done. injection Hx as ? ?. auto. Qed.

(** Which chunks still wait for collection. *)
Lemma collect_needs lh' c' x :
  x ∈ collect_ls (LNeed lh' c') ↔ cdata ((<[dc := CFg lh c]> (g_cs g)) x) = Some (lh', c') ∧ collect_ls (LRemote x) ≠ [].
Proof.
  rewrite collect_cdata. pose proof (lk_nodup _ _ _ _ (i_links _ _ _ Hok) (LNeed lh c)) as Hnd.
  rewrite Hq in Hnd. apply NoDup_cons in Hnd as [Hdq _].
  destruct (decide (x = dc)) as [->|Hne].
  - rewrite collect_remote. split; [|by intros []]. intros Hx. exfalso.
    destruct (decide (LNeed lh' c' = LNeed lh c)) as [[= -> ->]|Hn]; [by rewrite collect_need in Hx|].
    rewrite collect_other in Hx by done. apply (i_need _ _ _ Hok) in Hx as [Hx _]. rewrite Hcs in Hx. by injection Hx as <- <-.
  - rewrite (collect_other (LRemote x)) by congruence. rewrite <-(i_need _ _ _ Hok).
    destruct (decide (LNeed lh' c' = LNeed lh c)) as [[= -> ->]|Hn]; [|by rewrite collect_other].
    rewrite collect_need, Hq, elem_of_cons. tauto.
Qed.

Lemma collect_ok : heap_ok (HDummy lh) collect_g h'.
Proof.
  destruct collect_free as (Hnil & Hcons & _).
  assert (∀ lh', g_cs g lh' = CHeap → dc ≠ lh' + dummy_offset) as Hdum.
  { intros lh' ?. apply (dummy_not_chunk Hok); [done|by rewrite Hcs]. }
  destruct (Hok) as []. split; simpl.
  - apply collect_links.
  - intros l x Hl (l' & Hx & Hl')%collect_sub. rewrite collect_cdata.
    destruct (i_blk l' x ltac:(by destruct Hl' as [->|[_ ->]]) Hx). auto using collect_blk.
  - intros dc' x [(l' & Hx & [->|[[= ->] ->]])%collect_sub|(l' & Hx & [->|[? _]])%collect_sub]; auto; congruence.
  - intros lh' i Hlh'%collect_cs; [|done..]. destruct (i_buf lh' i Hlh'). split; simpl; keep; rewrite ?collect_other by done; auto.
  - intros x Hx. rewrite collect_cdata. destruct (i_live x Hx) as (? & ? & Hno).
    split_and!; auto using collect_blk. intros l (l' & Hl' & _)%collect_sub. by apply (Hno l').
  - intros x lh' c'. rewrite collect_cdata. apply collect_chunk.
  - apply collect_needs.
  - intros lh' x. by rewrite collect_cs, collect_other by done.
  - intros lh' x. rewrite collect_cs by done. intros Hx. assert (x ≠ dc) by congruence. keep. auto.
  - intros x. by rewrite collect_cs, collect_other by done.
  - intros x. rewrite collect_cs, collect_other by done. auto.
  - intros x. rewrite collect_cs by done. keep. auto.
  - intros lh' c' Hlh' Hc' _. apply (fill_fg g h h' dc lh c Hok); try done; try (intros; congruence); [by destruct_and! Hv|apply collect_fg].
  - intros lh' c' x Hx. split; [done|]. apply (fill_fg_at g h h' dc lh c Hok); try done; [by destruct_and! Hv|apply collect_fg].
  - intros lh'. rewrite collect_cs by done. intros Hlh'. pose proof (Hdum lh' Hlh'). keep. auto.
  - intros lh'. rewrite collect_cs by done. intros Hlh' _ Hne. pose proof (Hdum lh' Hlh'). keep.
    apply i_dummy_cnt; [done| |done]. intros c' [= <- <-]. done.
  - intros lh' c'. rewrite collect_cs by done. intros Hlh'. eapply dlist_cells; [by apply i_bg|..]; intros; by keep.
  - intros lh' c' x. by rewrite collect_cs by done.
  - intros lh'. rewrite collect_cs, collect_other by done. keep. auto.
Qed.
End collect.

(** ** A chunk becomes a heap *)

Section new_heap.
Context (H : hole) (g : ghost) (h h' : mem) (lh : Z) (Hok : heap_ok H g h) (Hcs : g_cs g lh = CLimbo).

Definition heap_cells (x : cell) : Prop :=
  match x with
  | Word a => dchunk_extract a = lh
  | Next y | Prev y | NumaNode y => y = lh + dummy_offset
  | Owner y | SizeCls y | State y | FreeBlkCnt y | BlkCnt y | FreeHead y | BlockSize y | FreeMem y
  | RemoteFreeHead y => y = lh ∨ y = lh + dummy_offset
  | LhFreeHead y | LhFreeCnt y | Foreground y _ | BackgroundHead y _ | BackgroundTail y _ | NeedGc y _
  | BufDc y _ | BufFirst y _ | BufHead y _ | BufCount y _ => y = lh
  | _ => False
  end.

Context (Hag : agree heap_cells h h').
Context (Hfree : h' (LhFreeHead lh) = 0 ∧ h' (LhFreeCnt lh) = 0).
Context (Hlists : ∀ c, h' (BackgroundHead lh c) = 0 ∧ h' (BackgroundTail lh c) = 0 ∧ h' (NeedGc lh c) = 0).
Context (Hbufs : ∀ i, h' (BufDc lh i) = 0 ∧ h' (BufHead lh i) = 0 ∧ h' (BufCount lh i) = 0).
Context (Hfg : ∀ c, 0 ≤ c < DEFAULT_BLOCK_CLASS → h' (Foreground lh c) = lh + dummy_offset).
Context (Hdummy : h' (SizeCls (lh + dummy_offset)) = DUMMY_CLASS ∧ h' (FreeHead (lh + dummy_offset)) = 0 ∧
  h' (FreeBlkCnt (lh + dummy_offset)) = 1).

Definition new_heap_g : ghost := Ghost (g_ls g) (<[lh := CHeap]> (g_cs g)) (g_bg g) (g_live g) (g_large g).

Lemma new_heap_cs x s : s ≠ CHeap → s ≠ CLimbo → (<[lh := CHeap]> (g_cs g)) x = s ↔ g_cs g x = s.
Proof. intros. destruct (decide (x = lh)) as [->|]; simpl_fn; [|done]. split; congruence. Qed.

Lemma new_heap_cdata x : cdata ((<[lh := CHeap]> (g_cs g)) x) = cdata (g_cs g x).
Proof. destruct (decide (x = lh)) as [->|]; simpl_fn; [by rewrite Hcs|done]. Qed.

Lemma new_heap_chunk_ne x : g_cs g x ≠ CNone → x ≠ lh + dummy_offset.
Proof.
  intros [_ Hx]%(cs_pos Hok) ->. destruct (cs_pos Hok lh) as [_ Hm]; [by rewrite Hcs|].
  rewrite Zplus_mod, Hm in Hx. done.
Qed.

Lemma new_heap_data x : is_Some (cdata (g_cs g x)) → x ≠ lh ∧ x ≠ lh + dummy_offset.
Proof.
  intros Hx. split; [intros ->; rewrite Hcs in Hx; by destruct Hx|].
  apply new_heap_chunk_ne. intros Hn. rewrite Hn in Hx. by destruct Hx.
Qed.

Lemma new_heap_listed l x : x ∈ g_ls g l → dchunk_extract x ≠ lh.
Proof.
  intros Hx Heq. destruct (is_blk l) eqn:Hb.
  - destruct (i_blk _ _ _ Hok l x Hb Hx) as [Hd _]. by apply new_heap_data in Hd as [? _].
  - pose proof (chunk_list Hok l x Hb Hx) as Hc. destruct (cs_pos Hok x Hc) as [_ Hm].
    unfold dchunk_extract in Heq. rewrite Hm, Z.sub_0_r in Heq. subst x.
    by apply (limbo_unlisted _ _ _ _ Hok Hcs l).
Qed.

(** The lists of the new heap did not exist. *)
Lemma new_heap_nil : (∀ i, g_ls g (LBuf lh i) = []) ∧ (∀ c, g_ls g (LNeed lh c) = []) ∧ g_ls g (LLocal lh) = [] ∧
  ∀ c, g_bg g lh c = [].
Proof.
  split_and!; intros; try (apply (lk_none _ _ _ _ (i_links _ _ _ Hok)); simpl; by rewrite Hcs).
  destruct (g_bg g lh c) as [|x l] eqn:Hbg; [done|]. exfalso.
  assert (g_cs g x = CBg lh c) as Hx by (apply (i_bg_at _ _ _ Hok); rewrite Hbg; by left).
  pose proof (ck_heap _ _ _ _ _ (i_chunk _ _ _ Hok x lh c ltac:(by rewrite Hx))). congruence.
Qed.

Ltac keep := rewrite ?Hag by (simpl; tauto || congruence).

Lemma new_heap_links : links (words h') (head_of h') (valid (<[lh := CHeap]> (g_cs g))) (g_ls g).
Proof.
  destruct new_heap_nil as (Hn1 & Hn2 & Hn3 & _). apply (links_sub (i_links _ _ _ Hok)); try done.
  - intros l x Hx%new_heap_listed. unfold words. by keep.
  - intros l HV. pose proof (lk_list _ _ _ _ (i_links _ _ _ Hok) l) as Hz.
    destruct l as [dc|dc|lh' i|lh' c|lh'| |]; simpl in *; try (rewrite new_heap_cdata in HV; destruct (new_heap_data dc HV)).
    + keep. auto.
    + keep. auto.
    + destruct (decide (lh' = lh)) as [->|]; simpl_fn; [rewrite Hn1; apply Hbufs|]. keep. auto.
    + destruct (decide (lh' = lh)) as [->|]; simpl_fn; [rewrite Hn2; apply Hlists|]. keep. auto.
    + destruct (decide (lh' = lh)) as [->|]; simpl_fn; [rewrite Hn3; apply Hfree|]. keep. auto.
    + keep. auto.
    + keep. auto.
  - intros l HV. apply (lk_none _ _ _ _ (i_links _ _ _ Hok)). intros HV'. apply HV.
    destruct l; simpl in *; rewrite ?new_heap_cdata; try done; (destruct (decide (lh0 = lh)) as [->|]; by simpl_fn).
Qed.

Lemma new_heap_chunk x lh' c' : cdata (g_cs g x) = Some (lh', c') → chunk_ok h' new_heap_g x lh' c'.
Proof.
  intros Hx. destruct (new_heap_data x ltac:(by eauto)) as [??]. destruct (i_chunk _ _ _ Hok x lh' c' Hx).
  split; simpl; simpl_fn; keep; try done.
Qed.

Lemma new_heap_dlist lh' c : (<[lh := CHeap]> (g_cs g)) lh' = CHeap →
  dlist h' (BackgroundHead lh' c) (BackgroundTail lh' c) (g_bg g lh' c).
Proof.
  destruct new_heap_nil as (_ & _ & _ & Hnbg). destruct (decide (lh' = lh)) as [->|]; simpl_fn.
  - intros _. destruct (Hlists c) as (Hh & Ht & _). rewrite Hnbg. split; [done..|constructor].
  - intros Hlh'. eapply dlist_cells; [by apply (i_bg _ _ _ Hok)|by keep|by keep|].
    intros x Hx%(i_bg_at _ _ _ Hok). pose proof (new_heap_chunk_ne x ltac:(by rewrite Hx)). by keep.
Qed.

Lemma new_heap_ok : heap_ok H new_heap_g h'.
Proof.
  destruct new_heap_nil as (Hn1 & Hn2 & Hn3 & Hnbg).
  assert (∀ x y, is_Some (cdata (g_cs g x)) → block h x y → block h' x y) as Hblk.
  { intros x y [??]%new_heap_data (i & ? & ? & ?). exists i. by keep. }
  assert (∀ x, g_cs g x = CHeap → x + dummy_offset ≠ lh ∧ x + dummy_offset ≠ lh + dummy_offset) as Hdum.
  { intros x Hx. split; [|assert (x ≠ lh) by congruence; lia]. intros Heq. symmetry in Heq. revert Heq.
    apply (dummy_not_chunk Hok); [done|by rewrite Hcs]. }
  destruct (Hok) as []. split; simpl.
  - apply new_heap_links.
  - intros l x Hl Hx. rewrite new_heap_cdata. destruct (i_blk l x Hl Hx). auto.
  - done.
  - intros lh' i. destruct (decide (lh' = lh)) as [->|]; simpl_fn.
    + intros _. destruct (Hbufs i) as (Hd & _ & Hc). split; simpl; rewrite Hn1; [done..|]. by intros x ?%elem_of_nil.
    + intros Hlh'. destruct (i_buf lh' i Hlh'). split; simpl; keep; auto.
  - intros x Hx. rewrite new_heap_cdata. destruct (i_live x Hx) as (? & ? & ?). auto.
  - intros x lh' c'. rewrite new_heap_cdata. apply new_heap_chunk.
  - intros lh' c' x. by rewrite new_heap_cdata.
  - intros lh' x. by rewrite new_heap_cs by done.
  - intros lh' x. rewrite new_heap_cs by done. intros Hx. assert (x ≠ lh) by congruence.
    pose proof (new_heap_chunk_ne x ltac:(by rewrite Hx)). keep. auto.
  - intros x. by rewrite new_heap_cs by done.
  - intros x Hx. destruct (decide (x = lh)) as [->|]; simpl_fn; auto.
  - intros x Hx. assert (g_cs g x ≠ CNone) as Hx' by (destruct (decide (x = lh)) as [->|]; simpl_fn; congruence).
    pose proof (new_heap_chunk_ne x Hx'). keep. auto.
  - intros lh' c' Hlh' Hc' Hne. destruct (decide (lh' = lh)) as [->|]; simpl_fn.
    + left. apply Hfg. unfold NCLS, DEFAULT_BLOCK_CLASS in *. lia.
    + keep. destruct (i_fg lh' c' Hlh' Hc' Hne) as [?|Hf]; [by left|right]. by apply new_heap_cs.
  - intros lh' c' x. rewrite new_heap_cs by done. intros Hx.
    assert (lh' ≠ lh) by (intros ->; pose proof (ck_heap _ _ _ _ _ (i_chunk x lh c' ltac:(by rewrite Hx))); congruence).
    keep. auto.
  - intros lh' Hlh'. destruct (decide (lh' = lh)) as [->|]; simpl_fn; [tauto|]. destruct (Hdum lh' Hlh'). keep. auto.
  - intros lh' Hlh'. destruct (decide (lh' = lh)) as [->|]; simpl_fn; [tauto|]. destruct (Hdum lh' Hlh'). keep. auto.
  - intros lh' c'. apply new_heap_dlist.
  - intros lh' c' x. by rewrite new_heap_cs by done.
  - intros lh' Hlh'. destruct (decide (lh' = lh)) as [->|]; simpl_fn; [|keep; auto].
    rewrite Hn3. destruct Hfree as [_ ->]. simpl. done.
Qed.
End new_heap.
