(* ===== verification/SsBuf.v ===== *)
(** * Remotely freed blocks of SSMalloc

    A block freed by a thread that does not own its chunk first goes to an
    object buffer of that thread and later, with others of the same chunk, to
    the chunk.  Both moves keep the invariant of [SsInv.v]. *)

From S2P Require Import Prelude SsSize SsQueue SsMem SsMalloc SsLinks SsInv SsChunk SsMoves.

Local Open Scope Z_scope.

(** ** Into a buffer *)

Section buffer.
Context (H : hole) (g : ghost) (h h' : mem) (lh i p : Z) (Hok : heap_ok H g h).
Context (Hlh : g_cs g lh = CHeap) (Hp : p ∈ g_live g).

Local Notation l := (g_ls g (LBuf lh i)).

Definition buf_cells (x : cell) : Prop :=
  x = BufHead lh i ∨ x = BufDc lh i ∨ x = BufFirst lh i ∨ x = BufCount lh i ∨ x = Word p.

Context (Hsame : l = [] ∨ h (BufDc lh i) = dchunk_extract p).
Context (Hag : agree buf_cells h h').
Context (Hv : h' (BufHead lh i) = p ∧ h' (Word p) = h (BufHead lh i) ∧ h' (BufCount lh i) = h (BufCount lh i) + 1 ∧
  h' (BufDc lh i) = dchunk_extract p ∧ h' (BufFirst lh i) = (if bool_decide (l = []) then p else h (BufFirst lh i))).

Definition buffer_g : ghost :=
  Ghost (<[LBuf lh i := p :: l]> (g_ls g)) (g_cs g) (g_bg g) (g_live g ∖ {[p]}) (g_large g).

Ltac keep := rewrite ?Hag by (unfold buf_cells; intuition congruence).

Lemma buffer_other k : k ≠ LBuf lh i → g_ls buffer_g k = g_ls g k.
Proof. intros. simpl. by rewrite fn_lookup_insert_ne. Qed.

Lemma buffer_sub k x : x ∈ g_ls buffer_g k → x ∈ g_ls g k ∨ (k = LBuf lh i ∧ x = p).
Proof.
  destruct (decide (k = LBuf lh i)) as [->|]; [|rewrite buffer_other; auto].
  simpl. rewrite fn_lookup_insert. intros [->|?]%elem_of_cons; auto.
Qed.

Lemma live_pos x : x ∈ g_live g → 0 < x.
Proof.
  intros Hx. destruct (i_live _ _ _ Hok x Hx) as ([[lh' c'] Hd] & Hb & _).
  destruct (block_range Hok _ _ _ _ Hd Hb) as (Hlo & _). destruct (cdata_pos Hok (dchunk_extract x)) as [? _]; [by eauto|].
  unfold DCH in *. lia.
Qed.

Lemma buffer_buf lh' j : g_cs g lh' = CHeap → buf_ok h' buffer_g lh' j.
Proof.
  intros Hlh'. destruct (i_buf _ _ _ Hok lh' j Hlh') as [Hc He Hf Ha]. destruct Hv as (_ & _ & Hcnt & Hdc & Hfst).
  destruct (decide (LBuf lh' j = LBuf lh i)) as [[= -> ->]|Hne].
  - split; simpl; rewrite fn_lookup_insert.
    + rewrite Hcnt, Hc. simpl. lia.
    + done.
    + intros _. rewrite Hfst. case_bool_decide as Hl; [by rewrite Hl|]. rewrite last_cons.
      by rewrite Hf.
    + rewrite Hdc. intros x [->|Hx]%elem_of_cons; [done|]. rewrite (Ha x Hx).
      destruct Hsame as [Hl| ->]; [|done]. rewrite Hl in Hx. by apply elem_of_nil in Hx.
  - split; rewrite ?buffer_other by congruence; keep; auto.
Qed.

Lemma buffer_ok : heap_ok H buffer_g h'.
Proof.
  destruct (i_live _ _ _ Hok p Hp) as (Hpd & Hpb & Hpno). pose proof (live_pos p Hp) as Hpos.
  assert (∀ x y, block h x y → block h' x y) as Hblk by (intros x y (k & ? & ? & ?); exists k; by keep).
  destruct Hv as (Hhd & Hwd & _). destruct (Hok) as []. split.
  - eapply (links_push i_links (LBuf lh i) p); try done.
    + intros a. unfold words. destruct (decide (a = p)) as [->|]; simpl_fn; [done|]. by keep.
    + intros k _. destruct (decide (k = LBuf lh i)) as [->|]; simpl_fn; [done|]. destruct k; simpl; by keep.
  - intros k x Hk [Hx|[-> ->]]%buffer_sub; [|by auto]. destruct (i_blk k x Hk Hx). auto.
  - intros dc' x [[?|[? _]]%buffer_sub|[?|[? _]]%buffer_sub]; auto; congruence.
  - intros lh' j. apply buffer_buf.
  - intros x [Hx Hxp%not_elem_of_singleton]%elem_of_difference. destruct (i_live x Hx) as (? & ? & Hno).
    split_and!; auto. intros k [?|[_ ?]]%buffer_sub; [by apply (Hno k)|done].
  - intros x lh' c' Hx. destruct (i_chunk x lh' c' Hx). split; rewrite ?buffer_other by done; simpl g_cs; simpl head_of; keep; done.
  - intros lh' c' x. rewrite !buffer_other by done. apply i_need.
  - intros lh' x. rewrite buffer_other by done. apply i_local.
  - intros lh' x Hx. keep. auto.
  - intros x. rewrite buffer_other by done. apply i_global.
  - intros x. rewrite buffer_other by done. apply i_heaps.
  - intros x Hx. keep. auto.
  - intros lh' c' ? ? ?. keep. auto.
  - intros lh' c' x ?. keep. auto.
  - intros lh' ?. keep. auto.
  - intros lh' ? ? ?. keep. auto.
  - intros lh' c' Hlh'. eapply dlist_cells; [by apply i_bg|..]; intros; by keep.
  - apply i_bg_at.
  - intros lh' Hlh'. rewrite buffer_other by done. keep. auto.
Qed.
End buffer.

(** ** From a buffer to the chunk *)

Section flush.
Context (H : hole) (g : ghost) (h h' : mem) (lh0 i dc lh c : Z) (Hok : heap_ok H g h).
Context (Hlh0 : g_cs g lh0 = CHeap) (Hdc : h (BufDc lh0 i) = dc) (Hcons : g_ls g (LBuf lh0 i) ≠ []).
Context (Hdata : cdata (g_cs g dc) = Some (lh, c)).

Local Notation l := (g_ls g (LBuf lh0 i)).
Local Notation r := (g_ls g (LRemote dc)).

(** The first blocks that come back make the chunk known to its heap. *)
Let fresh := bool_decide (r = []).

Definition flush_cells (x : cell) : Prop :=
  x = Word (h (BufFirst lh0 i)) ∨ x = RemoteFreeHead dc ∨
  x = BufCount lh0 i ∨ x = BufDc lh0 i ∨ x = BufFirst lh0 i ∨ x = BufHead lh0 i ∨
  (fresh = true ∧ (x = Word dc ∨ x = NeedGc lh c)).

Context (Hag : agree flush_cells h h').
Context (Hv : h' (Word (h (BufFirst lh0 i))) = head_of h (LRemote dc) ∧
  h' (RemoteFreeHead dc) = h (BufHead lh0 i) + (length l + length r) * 2 ^ 48 ∧
  h' (BufCount lh0 i) = 0 ∧ h' (BufDc lh0 i) = 0 ∧ h' (BufHead lh0 i) = 0).
Context (Hneed : fresh = true → h' (Word dc) = h (NeedGc lh c) ∧ h' (NeedGc lh c) = dc).
Context (Haddr : 0 ≤ h (BufHead lh0 i) < 2 ^ 48).

Definition flush_ls0 : lid → list Z := <[LBuf lh0 i := []]> (<[LRemote dc := l ++ r]> (g_ls g)).
Definition flush_ls : lid → list Z := if fresh then <[LNeed lh c := dc :: g_ls g (LNeed lh c)]> flush_ls0 else flush_ls0.
Definition flush_g : ghost := Ghost flush_ls (g_cs g) (g_bg g) (g_live g) (g_large g).

Ltac keep := rewrite ?Hag by (unfold flush_cells; intuition congruence).

Lemma flush_other k : k ≠ LBuf lh0 i → k ≠ LRemote dc → k ≠ LNeed lh c → flush_ls k = g_ls g k.
Proof. intros ???. unfold flush_ls, flush_ls0. destruct fresh; by simpl_fn. Qed.

Lemma flush_buf0 : flush_ls (LBuf lh0 i) = [].
Proof. unfold flush_ls, flush_ls0. destruct fresh; by simpl_fn. Qed.

Lemma flush_remote : flush_ls (LRemote dc) = l ++ r.
Proof. unfold flush_ls, flush_ls0. destruct fresh; by simpl_fn. Qed.

Lemma flush_need0 : flush_ls (LNeed lh c) = if fresh then dc :: g_ls g (LNeed lh c) else g_ls g (LNeed lh c).
Proof. unfold flush_ls, flush_ls0. destruct fresh; by simpl_fn. Qed.

(** A data chunk is in no list but those of chunks to be collected. *)
Lemma data_unlisted k : fresh = true → dc ∉ g_ls g k.
Proof.
  intros Hf%bool_decide_eq_true Hk. destruct (is_blk k) eqn:Hb.
  { rewrite (block_not_chunk Hok k dc Hb Hk) in Hdata. done. }
  destruct k; try done.
  - apply (i_need _ _ _ Hok) in Hk as [_ Hk]. done.
  - apply (i_local _ _ _ Hok) in Hk. rewrite Hk in Hdata. done.
  - apply (i_global _ _ _ Hok) in Hk. rewrite Hk in Hdata. done.
  - apply (i_heaps _ _ _ Hok) in Hk. rewrite Hk in Hdata. done.
Qed.

Lemma flush_heap : g_cs g lh = CHeap.
Proof. apply (ck_heap _ _ _ _ _ (i_chunk _ _ _ Hok dc lh c Hdata)). Qed.

Lemma flush_links : links (words h') (head_of h') (valid (g_cs g)) flush_ls.
Proof.
  assert (0 < dc) as Hpos by (apply (cdata_pos Hok); by eauto).
  pose proof (bf_first _ _ _ _ (i_buf _ _ _ Hok lh0 i Hlh0) Hcons) as Hlast.
  pose proof (links_chain (i_links _ _ _ Hok) (LBuf lh0 i) (LRemote dc) (h (BufFirst lh0 i))
    (<[h (BufFirst lh0 i) := head_of h (LRemote dc)]> (words h))
    (<[LBuf lh0 i := 0]> (<[LRemote dc := h (BufHead lh0 i)]> (head_of h)))
    Hlh0 (ex_intro _ _ Hdata) ltac:(done) Hlast (λ _, eq_refl) (λ _ _, eq_refl)) as Hl0.
  fold flush_ls0 in Hl0.
  destruct Hv as (Hw & Hrh & _ & _ & Hbh).
  assert (ABA_ADDR (h' (RemoteFreeHead dc)) = h (BufHead lh0 i)) as Hra by (rewrite Hrh; by apply aba_addr_word).
  assert (∀ a, (fresh = true → a ≠ dc) →
    h' (Word a) = (<[h (BufFirst lh0 i) := head_of h (LRemote dc)]> (words h)) a) as Hwords.
  { intros a Ha. destruct (decide (a = h (BufFirst lh0 i))) as [->|]; simpl_fn; [done|]. unfold words.
    apply Hag. unfold flush_cells. intros Hx. destruct_or! Hx; try congruence. destruct Hx as [Hf [[= ->]|?]]; [by apply Ha|done]. }
  assert (∀ k, k ≠ LNeed lh c ∨ fresh = false →
    head_of h' k = (<[LBuf lh0 i := 0]> (<[LRemote dc := h (BufHead lh0 i)]> (head_of h))) k) as Hheads.
  { intros k Hk. destruct (decide (k = LBuf lh0 i)) as [->|]; simpl_fn; [done|].
    destruct (decide (k = LRemote dc)) as [->|]; simpl_fn; [done|].
    destruct k; simpl; rewrite Hag; try done; unfold flush_cells; intros Hx; destruct_or! Hx; try congruence;
      destruct Hx as [Hf [Hx|Hx]]; try done; injection Hx as -> ->; destruct Hk; congruence. }
  unfold flush_ls. destruct fresh eqn:Hf.
  - destruct (Hneed eq_refl) as [Hnw Hnh].
    replace (dc :: g_ls g (LNeed lh c)) with (dc :: flush_ls0 (LNeed lh c)) by (unfold flush_ls0; by simpl_fn).
    eapply (links_push Hl0 (LNeed lh c) dc); try done.
    + apply flush_heap.
    + intros k. unfold flush_ls0. destruct (decide (k = LBuf lh0 i)) as [->|]; simpl_fn; [apply not_elem_of_nil|].
      destruct (decide (k = LRemote dc)) as [->|]; simpl_fn; [|by apply data_unlisted].
      intros [Hk|Hk]%elem_of_app; revert Hk; by apply data_unlisted.
    + intros a. destruct (decide (a = dc)) as [->|]; simpl_fn; [done|]. unfold words at 1. by apply Hwords.
    + intros k _. destruct (decide (k = LNeed lh c)) as [->|]; simpl_fn; [done|]. apply Hheads. by left.
  - eapply (links_ext Hl0); try done.
    + intros k x _. unfold words at 1. by apply Hwords.
    + intros k _. apply Hheads. by right.
Qed.

Lemma flush_sub k x : is_blk k = true → x ∈ flush_ls k →
  ∃ k', is_blk k' = true ∧ x ∈ g_ls g k' ∧ (k' = k ∨ (k = LRemote dc ∧ k' = LBuf lh0 i)).
Proof.
  intros Hk. destruct (decide (k = LBuf lh0 i)) as [->|]; [rewrite flush_buf0; by intros ?%elem_of_nil|].
  destruct (decide (k = LRemote dc)) as [->|]; [|rewrite flush_other by (done || by intros ->); by eauto].
  rewrite flush_remote. intros [?|?]%elem_of_app; [exists (LBuf lh0 i)|exists (LRemote dc)]; auto.
Qed.

(** Other lists and the lists of chunks to be collected. *)
Lemma flush_elem k x : x ∈ flush_ls k → (∃ k', x ∈ g_ls g k') ∨ x = dc.
Proof.
  destruct (is_blk k) eqn:Hk; [intros (k' & _ & ? & _)%flush_sub; eauto|].
  destruct (decide (k = LNeed lh c)) as [->|]; [|rewrite flush_other by (done || by intros ->); by eauto].
  rewrite flush_need0. destruct fresh; [intros [->|?]%elem_of_cons|]; eauto.
Qed.

Lemma flush_bufs lh' j : g_cs g lh' = CHeap → buf_ok h' flush_g lh' j.
Proof.
  intros Hlh'. destruct (i_buf _ _ _ Hok lh' j Hlh') as [Hc He Hf Ha]. destruct Hv as (_ & _ & Hbc & Hbd & _).
  destruct (decide (LBuf lh' j = LBuf lh0 i)) as [[= -> ->]|Hne].
  - split; simpl; rewrite flush_buf0; try done. by intros x ?%elem_of_nil.
  - split; simpl; rewrite ?flush_other by congruence; keep; auto.
Qed.

Lemma flush_chunk x lh' c' : cdata (g_cs g x) = Some (lh', c') → chunk_ok h' flush_g x lh' c'.
Proof.
  intros Hx. destruct (i_chunk _ _ _ Hok x lh' c' Hx). destruct Hv as (_ & Hrh & _).
  destruct (decide (x = dc)) as [->|Hne].
  - split; simpl; rewrite ?flush_remote, ?flush_other by congruence; keep; try done.
    rewrite Hrh, aba_addr_word by done. rewrite length_app. lia.
  - split; simpl; rewrite ?flush_other by congruence; keep; done.
Qed.

Lemma flush_needs lh' c' x :
  x ∈ flush_ls (LNeed lh' c') ↔ cdata (g_cs g x) = Some (lh', c') ∧ flush_ls (LRemote x) ≠ [].
Proof.
  assert (x ≠ dc → flush_ls (LRemote x) = g_ls g (LRemote x)) as Hr by (intros; apply flush_other; congruence).
  destruct (decide (LNeed lh' c' = LNeed lh c)) as [[= -> ->]|Hne].
  - rewrite flush_need0. destruct (decide (x = dc)) as [->|Hx].
    + rewrite flush_remote. split.
      * intros _. split; [done|]. by intros [? _]%app_eq_nil.
      * intros _. destruct fresh eqn:Hf; [by left|]. apply (i_need _ _ _ Hok). split; [done|].
        by apply bool_decide_eq_false in Hf.
    + rewrite Hr, <-(i_need _ _ _ Hok) by done. destruct fresh; [|done]. rewrite elem_of_cons. tauto.
  - rewrite flush_other, (i_need _ _ _ Hok) by done. destruct (decide (x = dc)) as [->|Hx]; [|by rewrite Hr].
    rewrite Hdata. split; intros [[= <- <-] _]; done.
Qed.

Lemma flush_ok : heap_ok H flush_g h'.
Proof.
  assert (∀ x y, block h x y → block h' x y) as Hblk by (intros x y (k & ? & ? & ?); exists k; by keep).
  assert (∀ lh', g_cs g lh' = CHeap → dc ≠ lh' + dummy_offset) as Hdum.
  { intros lh' ?. apply (dummy_not_chunk Hok); [done|]. intros Hn. by rewrite Hn in Hdata. }
  pose proof Hdata as Hd0. destruct (Hok) as []. split; simpl.
  - apply flush_links.
  - intros k x Hk (k' & Hk' & Hx & _)%flush_sub; [|done]. destruct (i_blk k' x Hk' Hx). auto.
  - intros dc' x [(k' & _ & Hx & [->|[? _]])%flush_sub|(k' & _ & Hx & [->|[[= ->] ->]])%flush_sub]; auto; try done.
    rewrite <-Hdc. by apply (bf_at _ _ _ _ (i_buf lh0 i Hlh0)).
  - intros lh' j. apply flush_bufs.
  - intros x Hx. destruct (i_live x Hx) as (Hd & Hb & Hno). split_and!; auto. intros k [[k' ?]| ->]%flush_elem; [by apply (Hno k')|].
    pose proof Hdata as Hd'. by rewrite (live_not_chunk Hok dc Hx) in Hd'.
  - intros x lh' c'. apply flush_chunk.
  - apply flush_needs.
  - intros lh' x. rewrite flush_other by done. apply i_local.
  - intros lh' x Hx. assert (x ≠ dc) by (intros ->; rewrite Hx in Hd0; done). keep. auto.
  - intros x. rewrite flush_other by done. apply i_global.
  - intros x. rewrite flush_other by done. apply i_heaps.
  - intros x Hx. keep. auto.
  - intros lh' c' ? ? ?. keep. auto.
  - intros lh' c' x ?. keep. auto.
  - intros lh' ?. keep. auto.
  - intros lh' ? ? ?. keep. auto.
  - intros lh' c' Hlh'. eapply dlist_cells; [by apply i_bg|..]; intros; by keep.
  - apply i_bg_at.
  - intros lh' Hlh'. rewrite flush_other by done. keep. auto.
Qed.
End flush.
