(* ===== verification/SsPool.v ===== *)
(** * The page pool of SSMalloc

    What [mmap] is assumed to do, and the specifications of the functions that
    obtain chunks from the pool. *)

From S2P Require Import Prelude SsSize SsQueue SsMem SsMalloc SsLinks SsInv SsChunk SsMoves.

Local Open Scope Z_scope.

(** [mmap] without a hint returns fresh pages away from the region of the
    pool.  With a hint it rounds the hint down to a page and uses that address
    as long as nobody else has put pages there; beyond [POOL_LIMIT] it fails. *)
Record mmap_contract (mmap : nat → Z → Z → list mapping → Z) : Prop := {
  mc_fresh n size pages : 0 < size → mmap n 0 size pages ≠ MAP_FAILED →
    let r := mmap n 0 size pages in
    r `mod` PAGE_SIZE = 0 ∧ 0 < r ∧ r + size ≤ 2 ^ 47 ∧ outside (r, size) ∧ ∀ m, m ∈ pages → disj (r, size) m;
  mc_hint n pos size pages : RAW_POOL_START ≤ pos → 0 < size →
    let r := pos - pos `mod` PAGE_SIZE in
    (∀ m, m ∈ pages → outside m ∨ m.1 + m.2 ≤ r) →
    mmap n pos size pages = MAP_FAILED ∨ (mmap n pos size pages = r ∧ r + size ≤ POOL_LIMIT);
}.

(** What callers of a chunk operation may rely on. *)
Record stays (g g' : ghost) (s s' : st) : Prop := {
  sy_heap x : g_cs g x = CHeap → g_cs g' x = CHeap;
  sy_thread t : s_mem s' (LocalHeap t) = s_mem s (LocalHeap t) ∧ s_mem s' (ThreadState t) = s_mem s (ThreadState t);
  sy_glob : s_mem s' GlobalState = s_mem s GlobalState;
  sy_maps : s_maps s' = s_maps s;
  sy_large : g_large g' = g_large g;
}.

Lemma stays_refl g s : stays g g s s.
Proof. by split. Qed.

Lemma stays_trans g1 g2 g3 s1 s2 s3 : stays g1 g2 s1 s2 → stays g2 g3 s2 s3 → stays g1 g3 s1 s3.
Proof.
  intros [? Ht1 ? ? ?] [? Ht2 ? ? ?]. split; auto; try congruence.
  intros t. destruct (Ht1 t), (Ht2 t). split; congruence.
Qed.

Lemma keeps_stays g g' s h' : keeps g g' (s_mem s) h' → stays g g' s (upd s h').
Proof. intros [Hg _ ? _ ?]. split; auto; simpl; intros; rewrite ?Hg; done. Qed.

Lemma mapped_cons m pages a : mapped pages a = true → mapped (m :: pages) a = true.
Proof. intros Ha. simpl. by rewrite Ha, orb_true_r. Qed.

Lemma mapped_here p n pages a : p ≤ a < p + n → mapped ((p, n) :: pages) a = true.
Proof. intros Ha. simpl. by rewrite (proj2 (Z.leb_le p a)), (proj2 (Z.ltb_lt a (p + n))) by lia. Qed.

Section pool.
Context (mmap : nat → Z → Z → list mapping → Z) (Hmm : mmap_contract mmap).

(** ** Growing *)

(** The pages added by [gpool_grow]. *)
Record grown (s s' : st) (e : Z) : Prop := {
  gr_pages : s_pages s' = (s_mem s PoolEnd - POOL_SKEW, e) :: s_pages s;
  gr_maps : s_maps s' = s_maps s;
  gr_size : 2 ^ 25 ≤ e ∧ e `mod` PAGE_SIZE = 0;
  gr_end : s_mem s' PoolEnd = s_mem s PoolEnd + e;
  gr_limit : s_mem s PoolEnd + e ≤ POOL_LIMIT + POOL_SKEW;
  gr_last : s_mem s' LastAlloc = 8 ∨ s_mem s' LastAlloc = 16 ∨ s_mem s' LastAlloc = 32;
  gr_rest : agree (λ c, c = PoolEnd ∨ c = LastAlloc) (s_mem s) (s_mem s');
}.

Lemma gpool_grow_spec s :
  RAW_POOL_START ≤ s_mem s PoolEnd ≤ POOL_LIMIT + POOL_SKEW → s_mem s PoolEnd `mod` PAGE_SIZE = POOL_SKEW →
  (s_mem s LastAlloc = 8 ∨ s_mem s LastAlloc = 16 ∨ s_mem s LastAlloc = 32) →
  (∀ m, m ∈ s_pages s → outside m ∨ m.1 + m.2 ≤ s_mem s PoolEnd - POOL_SKEW) →
  wp (gpool_grow mmap) (λ _ s', ∃ e, grown s s' e) s.
Proof.
  intros Hend Hmod Hlast Hpages. unfold gpool_grow. repeat wstep.
  set (e := s32 (ALLOC_UNIT * s_mem s LastAlloc)).
  assert (2 ^ 25 ≤ e ≤ 2 ^ 27 ∧ e `mod` PAGE_SIZE = 0) as [He Hem].
  { unfold e. destruct Hlast as [-> |[-> | ->]]; done. }
  set (l' := if s_mem s LastAlloc <? 32 then s32 (s_mem s LastAlloc * 2) else s_mem s LastAlloc).
  apply (wp_mono _ (λ _ s', s' = upd s (if s_mem s LastAlloc <? 32 then <[LastAlloc := l']> (s_mem s) else s_mem s))).
  { unfold l'. destruct (s_mem s LastAlloc <? 32); repeat wstep; [done|]. by destruct s. }
  intros _ ? ->. set (h1 := if s_mem s LastAlloc <? 32 then _ else _).
  assert (h1 PoolEnd = s_mem s PoolEnd) as Hpe by (unfold h1; destruct (_ <? _); by msimpl).
  repeat wstep. rewrite Hpe. unfold page_alloc, wp at 1. cbn.
  destruct (mc_hint _ Hmm (s_calls s) (s_mem s PoolEnd) e (s_pages s)) as [Hr|[Hr Hlim]]; [lia|lia| |..].
  { intros m Hm. rewrite Hmod. auto. }
  - rewrite Hr. rewrite !bool_decide_true by done. done.
  - rewrite Hmod in Hr, Hlim. assert (s_mem s PoolEnd - POOL_SKEW ≠ MAP_FAILED) as Hnf.
    { unfold POOL_SKEW, POOL_LIMIT, MAP_FAILED in *. lia. }
    rewrite Hr, !bool_decide_false by done. repeat wstep. rewrite Hpe. exists e. split; simpl.
    + done.
    + done.
    + lia.
    + msimpl. assert (0 < RAW_POOL_START) by done. apply wrap_u_small. unfold POOL_LIMIT, POOL_SKEW in *. lia.
    + lia.
    + msimpl. unfold h1, l'. destruct Hlast as [Hl|[Hl|Hl]]; rewrite Hl; simpl; msimpl; rewrite ?Hl;
        (right; left; reflexivity) || (right; right; reflexivity).
    + apply agree_set; [|by left]. unfold h1. destruct (_ <? _); [|done]. apply agree_set; [done|by right].
Qed.

Section grown.
Context (s s' : st) (e : Z) (Hgr : grown s s' e).
Context (Hpg : pages_ok (s_mem s) (s_pages s)) (Hraw : RAW_POOL_START ≤ s_mem s PoolEnd).

Lemma grown_disj m : m ∈ s_pages s → disj (s_mem s PoolEnd - POOL_SKEW, e) m.
Proof.
  intros Hm. destruct Hgr as [_ _ He _ Hlim _ _]. destruct (pg_where _ _ Hpg m Hm) as [[?|?]|[_ ?]];
    unfold disj; simpl; lia.
Qed.

Lemma grown_pages : pages_ok (s_mem s') (s_pages s').
Proof.
  pose proof grown_disj as Hdisj. destruct Hgr as [Hp _ [He _] Hend Hlim _ _]. destruct Hpg as [Hnd Hds Hpos Hwh].
  assert (0 < RAW_POOL_START - POOL_SKEW) by done.
  rewrite Hp. split.
  - constructor; [|done]. intros Hin. specialize (Hdisj _ Hin). unfold disj in Hdisj. simpl in Hdisj. lia.
  - intros m m' [->|Hm]%elem_of_cons [->|Hm']%elem_of_cons Hne; [done|by auto| |by auto].
    destruct (Hdisj m Hm) as [?|?]; [by right|by left].
  - intros m [->|Hm]%elem_of_cons; [|by auto]. simpl. unfold POOL_LIMIT, POOL_SKEW in *. lia.
  - rewrite Hend. intros m [->|Hm]%elem_of_cons; [right; simpl; lia|]. destruct (Hwh m Hm) as [?|[? ?]]; [by left|right; lia].
Qed.

Lemma grown_mapped :
  (∀ a, RAW_POOL_START ≤ a < s_mem s PoolEnd - POOL_SKEW → mapped (s_pages s) a = true) →
  ∀ a, RAW_POOL_START ≤ a < s_mem s' PoolEnd - POOL_SKEW → mapped (s_pages s') a = true.
Proof.
  destruct Hgr as [Hp _ _ Hend _ _ _]. intros Hm a Ha. rewrite Hp. rewrite Hend in Ha.
  destruct (decide (a < s_mem s PoolEnd - POOL_SKEW)).
  - apply mapped_cons, Hm. lia.
  - apply mapped_here. lia.
Qed.

Lemma grown_end : s_mem s PoolEnd `mod` PAGE_SIZE = POOL_SKEW → s_mem s' PoolEnd `mod` PAGE_SIZE = POOL_SKEW.
Proof.
  destruct Hgr as [_ _ [_ He] Hend _ _ _]. intros Hm. rewrite Hend, Zplus_mod, He, Hm. done.
Qed.
End grown.

(** ** Touching the pages of a chunk *)

Lemma touch_memory_spec n p e s :
  (∀ a, p ≤ a < e → mapped (s_pages s) a = true) → e - p ≤ Z.of_nat n * PAGE_SIZE →
  wp (touch_memory n p e)
    (λ _ s', ∃ h', s' = upd s h' ∧ agree (λ c, ∃ a, c = Word a ∧ p ≤ a) (s_mem s) h') s.
Proof.
  revert p s. induction n as [|n IH]; intros p s Hm Hlen; simpl.
  - destruct (Z.ltb_spec p e); [lia|]. repeat wstep. exists (s_mem s). by destruct s.
  - destruct (Z.ltb_spec p e); [|repeat wstep; exists (s_mem s); by destruct s].
    wstep. unfold access, wp at 1. rewrite Hm by lia. repeat wstep.
    eapply wp_mono; [apply IH; simpl|].
    + intros a Ha. apply Hm. unfold PAGE_SIZE in *. lia.
    + unfold PAGE_SIZE in *. lia.
    + intros _ s' (h' & -> & Hag). exists h'. split; [done|]. simpl in Hag.
      intros c Hc. rewrite (Hag c); [rewrite fn_lookup_insert_ne; [done|]|].
      * intros <-. apply Hc. exists p. split; [done|lia].
      * intros (a & -> & Ha). apply Hc. exists a. split; [done|]. unfold PAGE_SIZE in *. lia.
Qed.

(** ** Chunks from the pool *)

Lemma aba_addr_range w : 0 ≤ w < 2 ^ 64 → 0 ≤ ABA_ADDR w < 2 ^ 48.
Proof.
  intros Hw. unfold ABA_ADDR. change ABA_ADDR_MASK with (Z.ones 48). rewrite Z.land_ones by lia.
  apply Z.mod_pos_bound. lia.
Qed.

(** The next chunk at the end of the pool. *)
Lemma raw_inv H g s s' p :
  inv H g s → s_mem s GlobalState = READY → p = s_mem s FreeStart →
  s_maps s' = s_maps s → pages_ok (s_mem s') (s_pages s') →
  (∀ a, RAW_POOL_START ≤ a < s_mem s' PoolEnd - POOL_SKEW → mapped (s_pages s') a = true) →
  (∀ m, m ∈ s_pages s → m ∈ s_pages s') →
  agree (λ c, c = FreeStart ∨ c = PoolEnd ∨ c = LastAlloc ∨ c = NumaNode p ∨ ∃ a, c = Word a ∧ p ≤ a) (s_mem s) (s_mem s') →
  s_mem s' FreeStart = p + CHUNK_SIZE → s_mem s' (NumaNode p) = 0 →
  p + CHUNK_SIZE < s_mem s' PoolEnd ≤ POOL_LIMIT + POOL_SKEW → s_mem s' PoolEnd `mod` PAGE_SIZE = POOL_SKEW →
  (s_mem s' LastAlloc = 8 ∨ s_mem s' LastAlloc = 16 ∨ s_mem s' LastAlloc = 32) →
  inv H (restat_g g p CLimbo (g_ls g)) s' ∧ g_cs g p = CNone.
Proof.
  intros Hinv Hrdy Hp Hmaps Hpages Hmapped Hsub Hag Hfs Hnuma Hend Hmod Hlast.
  destruct (v_pool _ _ _ Hinv) as [Hst _ Hal _ _ Hpr]. destruct (Hpr Hrdy) as [Hraw _].
  assert (g_cs g p = CNone) as Hnone.
  { destruct (decide (g_cs g p = CNone)) as [|Hn]; [done|]. apply (i_pos _ _ _ (v_heap _ _ _ Hinv)) in Hn as (_ & Hn & _).
    unfold CHUNK_SIZE, CHUNK_DATA_SIZE, PAGE_SIZE, DCH in Hn. lia. }
  split; [|done]. assert (∀ c, glob_cell c = true → c ≠ FreeStart → c ≠ PoolEnd → c ≠ LastAlloc → s_mem s' c = s_mem s c) as Hg.
  { intros c Hc ? ? ?. apply Hag. intros [?|[?|[?|[->|(a & -> & _)]]]]; done. }
  destruct Hinv as [Hok _ _ Hlg Hsep [Hr1 Hr2 Hr3 Hr4 Hr5]]. split; simpl.
  - apply (fetch_raw_ok H g (s_mem s)); try done; rewrite ?Hp; [lia|done|by rewrite <-Hp..].
  - split; rewrite ?Hfs; try done.
    + assert (0 < RAW_POOL_START ∧ 0 < CHUNK_SIZE) by done. lia.
    + lia.
    + rewrite Hp, Zplus_mod, Hal. done.
    + intros _. split; rewrite ?Hfs; [|done]. assert (0 < CHUNK_SIZE) by done. lia.
  - done.
  - intros q m Hq. destruct (Hlg q m Hq). split; rewrite ?Hg by done; try done; [by auto|].
    rewrite Hag; [done|]. intros [?|[?|[?|[?|(a & ? & _)]]]]; done.
  - done.
  - split; intros *; rewrite ?Hmaps, ?(Hg GlobalState), ?(Hg (ThreadState _)), ?(Hg (LocalHeap _)), ?(Hg InitOnce) by done; auto.
    + intros Ht. destruct (Hr1 t Ht) as (Hh & ? & ?). split_and!; try done. simpl.
      rewrite fn_lookup_insert_ne; [done|]. intros Heq. rewrite <-Heq, Hnone in Hh. done.
    + intros Hn. congruence.
Qed.

(** A chunk [p] has been handed to the running call. *)
Record acquired (H : hole) (g : ghost) (s : st) (p : Z) (ls' : lid → list Z) (s' : st) : Prop := {
  aq_inv : inv H (restat_g g p CLimbo ls') s';
  aq_old : inert (g_cs g p) = true;
  aq_ls l : chunk_lists l = false → ls' l = g_ls g l;
  aq_mem : agree (λ c, pool_cell c = true) (s_mem s) (s_mem s');
  aq_stays : stays g (restat_g g p CLimbo ls') s s';
}.

Lemma restat_keeps g h h' p ls' :
  inert (g_cs g p) = true → ls' LHeaps = g_ls g LHeaps → agree (λ c, pool_cell c = true ∧ glob_cell c = false) h h' →
  keeps g (restat_g g p CLimbo ls') h h'.
Proof.
  intros Hp Hls Hag. split; simpl; try done.
  - intros c Hc. apply Hag. intros [_ ?]. congruence.
  - intros x _ _. apply Hag. by intros [? _].
  - intros x Hx. rewrite fn_lookup_insert_ne; [done|]. intros <-. by rewrite Hx in Hp.
Qed.

Lemma list_word_range H g s l x q :
  inv H g s → g_ls g l = x :: q → valid (g_cs g) l → 0 < x < 2 ^ 48 ∧ 0 ≤ s_mem s (Word x) < 2 ^ 48.
Proof.
  intros Hinv Hl Hv. pose proof (v_heap _ _ _ Hinv) as Hok. pose proof (i_links _ _ _ Hok) as Hlk.
  assert (∀ y, y ∈ g_ls g l → 0 < y < 2 ^ 48) as Hr.
  { intros y Hy. split; [by apply (links_pos Hlk l)|]. pose proof (listed_below _ _ _ _ _ Hok Hy).
    destruct (v_pool _ _ _ Hinv) as [[_ ?] ? _ _ _ _]. unfold POOL_LIMIT, POOL_SKEW in *. lia. }
  split; [apply Hr; rewrite Hl; by left|].
  pose proof (lk_list _ _ _ _ Hlk l Hv) as Hz. rewrite Hl in Hz. destruct Hz as (_ & _ & Hz). unfold words in Hz.
  destruct q as [|y q]; simpl in Hz; [by rewrite Hz|]. destruct Hz as (-> & _).
  assert (0 < y < 2 ^ 48); [|lia]. apply Hr. rewrite Hl. by right; left.
Qed.

Lemma fetch_global_spec H g s Q :
  inv H g s →
  (∀ p ls' s', 0 < p → acquired H g s p ls' s' → Q p s') → (g_ls g LGlobal = [] → Q 0 s) →
  wp (queue_fetch (FreeDcHead get_core_id)) Q s.
Proof.
  intros Hinv HQ HQ0. pose proof (v_heap _ _ _ Hinv) as Hok.
  pose proof (lk_list _ _ _ _ (i_links _ _ _ Hok) LGlobal I) as Hz. simpl in Hz.
  apply wp_queue_fetch; intros Hhd.
  - apply HQ0. destruct (g_ls g LGlobal) as [|x q]; [done|]. destruct Hz as (? & ? & _). lia.
  - destruct (g_ls g LGlobal) as [|x q] eqn:Hl; [done|]. destruct Hz as (-> & Hx & _).
    destruct (list_word_range _ _ _ _ _ _ Hinv Hl I) as [_ Hw].
    assert (g_cs g x = CGlob) as Hcs by (apply (i_global _ _ _ Hok); rewrite Hl; by left).
    set (h' := <[_ := _]> _).
    assert (agree (λ c, c = FreeDcHead get_core_id) (s_mem s) h') as Hag by (unfold h'; apply agree_set; done).
    assert (keeps g (restat_g g x CLimbo (<[LGlobal := q]> (g_ls g))) (s_mem s) h') as Hkp.
    { apply restat_keeps; [by rewrite Hcs|by simpl_fn|]. eapply agree_weaken; [done|]. by intros ? ->. }
    apply (HQ x (<[LGlobal := q]> (g_ls g))); [done|]. split.
    + eapply keeps_inv; [done| |done]. apply (fetch_global_ok H g (s_mem s)); try done.
      unfold h'. rewrite fn_lookup_insert. replace ABA_COUNT_ONE with (ABA_COUNT_ONE * 1) by lia.
      by apply aba_addr_lor.
    + by rewrite Hcs.
    + intros l Hne. rewrite fn_lookup_insert_ne; [done|by intros <-].
    + eapply agree_weaken; [done|]. by intros ? ->.
    + by apply keeps_stays.
Qed.

Lemma access_spec a s Q : mapped (s_pages s) a = true → Q tt s → wp (access a) Q s.
Proof. intros Ha HQ. unfold wp, access. by rewrite Ha. Qed.

(** The end of the pool lies behind the skew as soon as it lies behind a chunk. *)
Lemma skew_room a e : a `mod` CHUNK_SIZE = 0 → e `mod` PAGE_SIZE = POOL_SKEW → a < e → a ≤ e - POOL_SKEW.
Proof.
  intros Ha He Hlt. pose proof (Z.div_mod a CHUNK_SIZE ltac:(done)). pose proof (Z.div_mod e PAGE_SIZE ltac:(done)).
  rewrite Ha in *. rewrite He in *. change CHUNK_SIZE with (256 * 257) in *. change PAGE_SIZE with (256 * 16) in *.
  change POOL_SKEW with 256 in *. lia.
Qed.

(** What has become of the pool when the raw chunk [p] has been reserved. *)
Record reserved (s s' : st) (p : Z) : Prop := {
  rs_maps : s_maps s' = s_maps s;
  rs_pages : pages_ok (s_mem s') (s_pages s');
  rs_mapped a : RAW_POOL_START ≤ a < s_mem s' PoolEnd - POOL_SKEW → mapped (s_pages s') a = true;
  rs_sub m : m ∈ s_pages s → m ∈ s_pages s';
  rs_mem : agree (λ c, c = FreeStart ∨ c = PoolEnd ∨ c = LastAlloc) (s_mem s) (s_mem s');
  rs_start : s_mem s' FreeStart = p + CHUNK_SIZE;
  rs_end : p + CHUNK_SIZE < s_mem s' PoolEnd ≤ POOL_LIMIT + POOL_SKEW;
  rs_mod : s_mem s' PoolEnd `mod` PAGE_SIZE = POOL_SKEW;
  rs_last : s_mem s' LastAlloc = 8 ∨ s_mem s' LastAlloc = 16 ∨ s_mem s' LastAlloc = 32;
}.

Lemma reserve_spec H g s Q :
  inv H g s → s_mem s GlobalState = READY →
  (∀ s', reserved s s' (s_mem s FreeStart) → Q (s_mem s FreeStart + CHUNK_SIZE) s') →
  wp (p <- gpool_make_raw_chunk;; gpool_check_size mmap p;; ret p) Q s.
Proof.
  intros Hinv Hrdy HQ. destruct (v_pool _ _ _ Hinv) as [Hst Hlim Hal Hmap Hlast Hpr].
  destruct (Hpr Hrdy) as [Hraw Hend]. set (p := s_mem s FreeStart) in *.
  assert (0 < RAW_POOL_START ∧ CHUNK_SIZE = 65792 ∧ POOL_SKEW = 256 ∧ POOL_LIMIT = 0x700000000000) as (? & HC & HS & HL) by done.
  unfold gpool_make_raw_chunk, gpool_check_size, atmc_fetch_and_add64. change (s32 CHUNK_SIZE) with CHUNK_SIZE.
  repeat wstep. fold p. rewrite (wrap_s_small 64 p), (wrap_s_small 64 (CHUNK_SIZE + p)), !wrap_u_small by lia. msimpl.
  rewrite (Z.add_comm CHUNK_SIZE p). set (s1 := upd s _).
  assert (agree (λ c, c = FreeStart) (s_mem s) (s_mem s1)) as Hag by (apply agree_set; done).
  destruct (Z.leb_spec (s_mem s PoolEnd) (p + CHUNK_SIZE)) as [Hle|Hgt].
  - unfold gpool_grow_loop. repeat wstep. simpl. msimpl. rewrite (proj2 (Z.leb_le _ _) Hle). repeat wstep.
    assert (pages_ok (s_mem s1) (s_pages s1)) as Hpg.
    { destruct (v_pages _ _ _ Hinv). split; simpl; msimpl; done. }
    eapply wp_mono; [apply gpool_grow_spec|].
    + simpl. msimpl. lia.
    + simpl. by msimpl.
    + simpl. by msimpl.
    + intros m Hm. apply (pg_where _ _ Hpg) in Hm as [?|[? ?]]; [by left|by right].
    + intros _ s' [e Hgr]. repeat wstep. pose proof Hgr as [? ? ? He ? ? Hag']. simpl in He. msimpl_in He.
      destruct (Z.leb_spec (s_mem s' PoolEnd) (p + CHUNK_SIZE)); [lia|]. repeat wstep. apply HQ.
      assert (s_mem s1 PoolEnd = s_mem s PoolEnd) as Hpe by (simpl; by msimpl).
      split; try done.
      * apply (grown_pages s1 s' e); [done..|]. rewrite Hpe. lia.
      * apply (grown_mapped s1 s' e Hgr). simpl. msimpl. done.
      * intros m Hm. rewrite (gr_pages _ _ _ Hgr). by right.
      * intros c Hc. rewrite Hag', Hag by tauto. done.
      * rewrite Hag' by (by intros [?|?]). simpl. by msimpl.
      * rewrite Hpe in *. lia.
      * apply (grown_end s1 s' e Hgr). by rewrite Hpe.
  - repeat wstep. apply HQ. split; simpl; msimpl; try done; try lia.
    + destruct (v_pages _ _ _ Hinv). split; simpl; msimpl; done.
    + intros c Hc. apply Hag. tauto.
Qed.

Lemma gpool_acquire_chunk_spec H g s :
  inv H g s → s_mem s GlobalState = READY →
  wp (gpool_acquire_chunk mmap) (λ p s', ∃ ls', 0 < p ∧ acquired H g s p ls' s') s.
Proof.
  intros Hinv Hrdy. unfold gpool_acquire_chunk. wstep. apply (fetch_global_spec H g s); [done|..].
  { intros p ls' s' Hp Hac. rewrite bool_decide_true by lia. wstep. eauto. }
  intros _. rewrite bool_decide_false by lia.
  assert (∀ (m : M Z) (m' : Z → M unit) (k : Z → M Z) Q,
    wp (p <- m;; m' p;; ret p) (λ p, wp (k p) Q) s → wp (p <- m;; m' p;; k p) Q s) as Hassoc.
  { intros m m' k Q. unfold wp, bind, ret. destruct (m s) as [a s1| | |]; try done. by destruct (m' a s1). }
  apply Hassoc. apply (reserve_spec H g s); [done..|]. intros s1 Hrs.
  set (p := s_mem s FreeStart) in *. replace (p + CHUNK_SIZE - CHUNK_SIZE) with p by lia.
  pose proof Hrs as [Hmaps Hpages Hmapped Hsub Hag Hfs Hpe Hmod Hlast].
  destruct (v_pool _ _ _ Hinv) as [_ _ Hal _ _ Hpr]. destruct (Hpr Hrdy) as [[Hraw _] _]. fold p in Hraw, Hal.
  assert (p + CHUNK_SIZE ≤ s_mem s1 PoolEnd - POOL_SKEW) as Hroom.
  { apply skew_room; [|done|lia]. rewrite Zplus_mod, Hal. done. }
  assert (CHUNK_SIZE = 65792 ∧ 0 < RAW_POOL_START) as [HC ?] by done.
  wstep. apply access_spec; [apply Hmapped; lia|]. repeat wstep. eapply wp_mono; [apply touch_memory_spec; simpl|].
  - intros a Ha. apply Hmapped. lia.
  - change (Z.of_nat _ * PAGE_SIZE) with 69632. lia.
  - intros _ ? (h' & -> & Hag'). wstep. simpl in Hag'. exists (g_ls g).
    assert (agree (λ c, c = NumaNode p ∨ ∃ a, c = Word a ∧ p ≤ a) (s_mem s1) h') as Hag2.
    { intros c Hc. rewrite Hag' by tauto. rewrite fn_lookup_insert_ne by (intros <-; tauto). done. }
    assert (∀ c, pool_cell c = false → h' c = s_mem s c) as Hmem.
    { intros c Hc. rewrite Hag2, Hag; [done|..].
      - by intros [->|[->| ->]].
      - by intros [->|(? & -> & _)]. }
    destruct (raw_inv H g s (upd s1 h') p) as [Hinv' Hnone]; simpl; try done.
    + destruct Hpages. split; rewrite ?Hag2 by (by intros [?|(? & ? & _)]); done.
    + rewrite Hag2 by (by intros [?|(? & ? & _)]). done.
    + intros c Hc. rewrite Hag2, Hag by tauto. done.
    + rewrite Hag2 by (by intros [?|(? & ? & _)]). done.
    + rewrite Hag' by (by intros (? & ? & _)). by msimpl.
    + rewrite Hag2 by (by intros [?|(? & ? & _)]). done.
    + rewrite Hag2 by (by intros [?|(? & ? & _)]). done.
    + rewrite !Hag2 by (by intros [?|(? & ? & _)]). done.
    + split; [lia|]. split; try done.
      * by rewrite Hnone.
      * intros c Hc. simpl. apply Hmem. by apply not_true_is_false.
      * split; simpl; intros; rewrite ?Hmem by done; try done.
        rewrite fn_lookup_insert_ne; [done|]. intros <-. congruence.
Qed.
End pool.
