(* ===== verification/SsSmall.v ===== *)
(** * Small blocks of SSMalloc

    Specifications of [lheap_replace_foreground], [small_malloc] and
    [local_free]: the code makes the moves of [SsChunk.v], [SsMoves.v] and
    [SsRecall.v]. *)

From S2P Require Import Prelude SsSize SsQueue SsMem SsMalloc SsLinks SsInv SsChunk SsMoves SsRecall SsPool.

Local Open Scope Z_scope.

(** Chunks keep their owners and size classes. *)
Definition holds (g g' : ghost) : Prop := ∀ x d, cdata (g_cs g x) = Some d → cdata (g_cs g' x) = Some d.

Lemma holds_trans g1 g2 g3 : holds g1 g2 → holds g2 g3 → holds g1 g3.
Proof. unfold holds. auto. Qed.

(** ** A new foreground chunk *)

Record refilled (lh c : Z) (g : ghost) (s : st) (g' : ghost) (s' : st) : Prop := {
  rf_inv : inv (HDummy lh) g' s';
  rf_fg : g_cs g' (s_mem s' (Foreground lh c)) = CFg lh c;
  rf_stays : stays g g' s s';
  rf_holds : holds g g';
  rf_live : g_live g' = g_live g;
  rf_dummy : s_mem s' (FreeBlkCnt (lh + dummy_offset)) = s_mem s (FreeBlkCnt (lh + dummy_offset));
}.

Section refill.
Context (lh c : Z) (g : ghost) (s : st) (Hinv : inv (HFg lh c) g s).
Context (Hlh : g_cs g lh = CHeap) (Hc : 0 ≤ c < NCLS).

(** The chunk [dc] has become the foreground chunk. *)
Lemma refill dc g' h' :
  heap_ok (HDummy lh) g' h' → g_cs g' = <[dc := CFg lh c]> (g_cs g) →
  g_cs g dc ≠ CNone → g_cs g dc ≠ CHeap → (cdata (g_cs g dc) = None ∨ cdata (g_cs g dc) = Some (lh, c)) →
  g_ls g' LHeaps = g_ls g LHeaps → g_live g' = g_live g → g_large g' = g_large g →
  (∀ x, glob_cell x = true ∨ (∃ y, y ≠ dc ∧ (x = Owner y ∨ x = FreeBlkCnt y)) → h' x = s_mem s x) →
  h' (Foreground lh c) = dc →
  refilled lh c g s g' (upd s h').
Proof.
  intros Hok' Hcs' Hn Hh Hd Hls Hlive Hlarge Hmem Hfg.
  assert (keeps g g' (s_mem s) h') as Hkp.
  { split; try done; rewrite ?Hcs'.
    - auto.
    - intros x Hx _. apply Hmem. right. exists x. split; [|by left]. intros ->. rewrite fn_lookup_insert in Hx. done.
    - intros x Hx. rewrite fn_lookup_insert_ne; [done|]. congruence. }
  split; simpl; try done.
  - by eapply keeps_inv.
  - by rewrite Hfg, Hcs', fn_lookup_insert.
  - by apply keeps_stays.
  - intros x d Hx. rewrite Hcs'. destruct (decide (x = dc)) as [->|]; simpl_fn; [|done].
    destruct Hd; simpl; congruence.
  - apply Hmem. right. eexists. split; [|by right]. intros Heq. by apply (dummy_not_chunk (v_heap _ _ _ Hinv) lh dc).
Qed.

Ltac mem_other :=
  intros x [Hx|(y & ? & [-> | ->])]; simpl; msimpl; try done;
  repeat (rewrite fn_lookup_insert_ne by (intros <-; done)); try done.

(** From the background list. *)
Lemma refill_background dc l2 Q :
  g_bg g lh c = dc :: l2 → (∀ g' s', refilled lh c g s g' s' → Q tt s') →
  wp (double_list_remove dc (BackgroundHead lh c) (BackgroundTail lh c);;
      set (Foreground lh c) dc;; set (State dc) FOREGROUND) Q s.
Proof.
  intros Hl HQ. pose proof (v_heap _ _ _ Hinv) as Hok.
  assert (g_cs g dc = CBg lh c) as Hcs by (apply (i_bg_at _ _ _ Hok); rewrite Hl; by left).
  pose proof (i_bg _ _ _ Hok lh c Hlh) as Hdl. rewrite Hl in Hdl. wstep.
  eapply wp_mono; [by apply (remove_spec (BackgroundHead lh c) (BackgroundTail lh c) eq_refl eq_refl ltac:(done) s [] dc l2)|].
  intros _ ? (h1 & -> & Hdl1 & Hag). simpl in Hdl1, Hag. repeat wstep.
  set (h' := <[_ := _]> (<[_ := _]> h1)).
  assert (∀ x, is_link x = false → x ≠ BackgroundHead lh c → x ≠ BackgroundTail lh c → h1 x = s_mem s x) as Hkeep.
  { intros x ? ? ?. apply Hag. intros [->|[->|(y & _ & [-> | ->])]]; done. }
  apply (HQ (recall_g g dc lh c l2)). apply (refill dc); simpl; try done.
  - apply (recall_ok g (s_mem s)); try done; unfold h'.
    + apply agree_set; [apply agree_set|]; [|right; unfold recall_cells; tauto..]. eapply agree_weaken; [done|]. by left.
    + eapply dlist_cells; [done|by msimpl..|]. intros. by msimpl.
    + by msimpl.
    + by msimpl.
  - by rewrite Hcs.
  - by rewrite Hcs.
  - right. by rewrite Hcs.
  - unfold h'. mem_other; apply Hkeep; first [done | by destruct x].
  - unfold h'. by msimpl.
Qed.

(** The head of the remotely freed blocks. *)
Lemma remote_head dc :
  cdata (g_cs g dc) = Some (lh, c) → g_ls g (LRemote dc) ≠ [] →
  s_mem s (RemoteFreeHead dc) ≠ 0 ∧
  Z.shiftr (ABA_COUNT (s_mem s (RemoteFreeHead dc))) ABA_ADDR_BIT = length (g_ls g (LRemote dc)) ∧
  length (g_ls g (LRemote dc)) ≤ 8192.
Proof.
  intros Hd Hne. pose proof (v_heap _ _ _ Hinv) as Hok.
  destruct (i_chunk _ _ _ Hok dc lh c Hd) as [? _ _ _ _ _ _ (k & Hk & Hfm & _) Hrem _].
  assert (length (g_ls g (LRemote dc)) ≤ 8192) as Hlen.
  { transitivity k; [|pose proof (class_count c Hc); lia]. apply (block_count Hok dc lh c); [done..| |].
    - apply (lk_nodup _ _ _ _ (i_links _ _ _ Hok)).
    - intros x Hx. apply (chunk_blocks Hok). by right. }
  destruct (g_ls g (LRemote dc)) as [|x q] eqn:Hl; [done|].
  assert (valid (g_cs g) (LRemote dc)) as Hv by (simpl; rewrite Hd; by eauto).
  destruct (list_word_range _ _ _ _ _ _ Hinv Hl Hv) as [Hx _].
  pose proof (lk_list _ _ _ _ (i_links _ _ _ Hok) _ Hv) as Hz. rewrite Hl in Hz. destruct Hz as (Hhd & _).
  rewrite Hrem, Hhd. split_and!; [lia| |done].
  rewrite aba_count_word by lia. change ABA_ADDR_BIT with 48. rewrite Z.shiftr_div_pow2, Z.div_mul by lia. done.
Qed.

(** From the chunks with remotely freed blocks. *)
Lemma refill_collect dc q Q :
  g_bg g lh c = [] → g_ls g (LNeed lh c) = dc :: q → (∀ g' s', refilled lh c g s g' s' → Q tt s') →
  wp (dchunk_collect_garbage dc;; set (Foreground lh c) dc;; set (State dc) FOREGROUND) Q
    (upd s (<[NeedGc lh c := s_mem s (Word dc)]> (s_mem s))).
Proof.
  intros Hbg Hl HQ. pose proof (v_heap _ _ _ Hinv) as Hok.
  destruct (proj1 (i_need _ _ _ Hok lh c dc)) as [Hd Hne]; [rewrite Hl; by left|].
  destruct (remote_head dc Hd Hne) as (Hnz & Hcount & Hlen).
  assert (g_cs g dc = CFull lh c) as Hcs.
  { destruct (g_cs g dc) eqn:Hs; simplify_eq/=; [|..|done].
    - by destruct (i_fg_at _ _ _ Hok _ _ _ Hs).
    - apply (i_bg_at _ _ _ Hok) in Hs. rewrite Hbg in Hs. by apply elem_of_nil in Hs. }
  unfold dchunk_collect_garbage, counted_chain_fetch. repeat wstep. msimpl.
  rewrite bool_decide_false, Hcount by done. repeat wstep. rewrite wrap_u_small by lia.
  set (h' := <[State dc := _]> _).
  apply (HQ (collect_g g dc lh c q)). apply (refill dc); simpl; try done.
  - apply (collect_ok g (s_mem s)); try done.
    + unfold h'. repeat (apply agree_set; [|unfold collect_cells; tauto]). done.
    + unfold h'. by msimpl.
  - by rewrite Hcs.
  - by rewrite Hcs.
  - right. by rewrite Hcs.
  - unfold h'. mem_other.
  - unfold h'. by msimpl.
Qed.

(** A chunk without blocks, given fields for the class. *)
Lemma refill_activate dc h' :
  g_cs g dc = CLimbo → agree (new_cells dc lh c) (s_mem s) h' →
  (h' (Owner dc) = lh ∧ h' (SizeCls dc) = c ∧ h' (State dc) = FOREGROUND ∧
   h' (FreeBlkCnt dc) = CHUNK_DATA_SIZE / sz c ∧ h' (BlkCnt dc) = CHUNK_DATA_SIZE / sz c ∧ h' (FreeHead dc) = 0 ∧
   h' (BlockSize dc) = sz c ∧ h' (FreeMem dc) = dc + DCH ∧ h' (RemoteFreeHead dc) = 0 ∧ h' (Foreground lh c) = dc) →
  refilled lh c g s (activate_g g dc lh c) (upd s h').
Proof.
  intros Hdc Hag Hv. apply (refill dc); simpl; try done.
  - apply (activate_ok g (s_mem s)); try done. apply (v_heap _ _ _ Hinv).
  - by rewrite Hdc.
  - by rewrite Hdc.
  - left. by rewrite Hdc.
  - intros x Hx. apply Hag. unfold new_cells. destruct Hx as [Hx|(y & ? & [-> | ->])]; [destruct x; try discriminate Hx|..]; intuition congruence.
  - by destruct Hv as (_ & _ & _ & _ & _ & _ & _ & _ & _ & ?).
Qed.
End refill.

Lemma wp_ret_bind {A B C} (m : M A) (b : B) (k : B → M C) Q s :
  wp (m;; k b) Q s → wp (m;; ret b) (λ x, wp (k x) Q) s.
Proof. unfold wp, bind, ret. by destruct (m s). Qed.

(** The memory after [dchunk_change_cls]. *)
Definition recut (dc c : Z) (h : mem) : mem :=
  <[FreeHead dc := 0]> (<[SizeCls dc := c]> (<[FreeMem dc := dc + DCH]> (<[BlockSize dc := sz c]>
    (<[FreeBlkCnt dc := CHUNK_DATA_SIZE / sz c]> (<[BlkCnt dc := CHUNK_DATA_SIZE / sz c]> h))))).

Lemma dchunk_change_cls_spec dc c s Q :
  s_maps s = tables → Q tt (upd s (recut dc c (s_mem s))) → wp (dchunk_change_cls dc c) Q s.
Proof.
  intros Hm HQ. unfold wp, dchunk_change_cls. rewrite Hm. exact HQ.
Qed.

Lemma refilled_acquired lh c g s dc ls' s1 g' s' :
  acquired (HFg lh c) g s dc ls' s1 → refilled lh c (restat_g g dc CLimbo ls') s1 g' s' → refilled lh c g s g' s'.
Proof.
  intros [? Hold ? Hmem Hst] [? ? Hst' Hh Hl Hd]. split; try done.
  - by eapply stays_trans.
  - intros x d Hx. apply Hh. simpl. rewrite fn_lookup_insert_ne; [done|]. intros <-. by destruct (g_cs g dc).
  - rewrite Hd. by apply Hmem.
Qed.

Lemma refill_fresh lh c g s dc ls' s1 h' :
  acquired (HFg lh c) g s dc ls' s1 → g_cs g lh = CHeap → 0 ≤ c < NCLS → agree (new_cells dc lh c) (s_mem s1) h' →
  (h' (Owner dc) = lh ∧ h' (SizeCls dc) = c ∧ h' (State dc) = FOREGROUND ∧
   h' (FreeBlkCnt dc) = CHUNK_DATA_SIZE / sz c ∧ h' (BlkCnt dc) = CHUNK_DATA_SIZE / sz c ∧ h' (FreeHead dc) = 0 ∧
   h' (BlockSize dc) = sz c ∧ h' (FreeMem dc) = dc + DCH ∧ h' (RemoteFreeHead dc) = 0 ∧ h' (Foreground lh c) = dc) →
  refilled lh c g s (activate_g (restat_g g dc CLimbo ls') dc lh c) (upd s1 h').
Proof.
  intros Hac Hlh Hc Hag Hv. eapply refilled_acquired; [done|].
  apply (refill_activate lh c _ s1 (aq_inv _ _ _ _ _ _ Hac)); try done; simpl.
  - by apply restat_cs; [apply (aq_old _ _ _ _ _ _ Hac)|..].
  - by rewrite fn_lookup_insert.
Qed.

(** The empty chunk that the heap has kept. *)
Lemma fetch_local_acquired H lh g s dc q :
  inv H g s → g_cs g lh = CHeap → g_ls g (LLocal lh) = dc :: q →
  let h1 := <[LhFreeCnt lh := u32 (s_mem s (LhFreeCnt lh) - 1)]> (<[LhFreeHead lh := s_mem s (Word dc)]> (s_mem s)) in
  acquired H g s dc (<[LLocal lh := q]> (g_ls g)) (upd s h1) ∧ s_mem s (Owner dc) = lh ∧ s_mem s (RemoteFreeHead dc) = 0.
Proof.
  intros Hinv Hlh Hl h1. pose proof (v_heap _ _ _ Hinv) as Hok.
  assert (g_cs g dc = CIdle lh) as Hcs by (apply (i_local _ _ _ Hok); rewrite Hl; by left).
  destruct (i_cnt _ _ _ Hok lh Hlh) as [Hcnt Hmax]. rewrite Hl in Hcnt, Hmax. simpl in Hcnt, Hmax.
  assert (agree (λ c, c = LhFreeHead lh ∨ c = LhFreeCnt lh) (s_mem s) h1) as Hag.
  { unfold h1. repeat (apply agree_set; [|tauto]). done. }
  assert (keeps g (restat_g g dc CLimbo (<[LLocal lh := q]> (g_ls g))) (s_mem s) h1) as Hkp.
  { apply restat_keeps; [by rewrite Hcs|by rewrite fn_lookup_insert_ne|].
    eapply agree_weaken; [done|]. by intros ? [-> | ->]. }
  split; [|by apply (i_idle _ _ _ Hok)]. split.
  - eapply keeps_inv; [done| |done]. apply (fetch_local_ok H g (s_mem s) h1 dc q Hok lh); try done; unfold h1; msimpl; try done.
    apply wrap_u_small. rewrite Hcnt. change MAX_FREE_CHUNK with 63 in Hmax. lia.
  - by rewrite Hcs.
  - intros l Hne. rewrite fn_lookup_insert_ne; [done|by intros <-].
  - eapply agree_weaken; [done|]. by intros ? [-> | ->].
  - by apply keeps_stays.
Qed.

(** ** The dummy chunk *)

Section dummy.
Context (H H' : hole) (g : ghost) (h h' : mem) (lh : Z) (Hok : heap_ok H g h) (Hlh : g_cs g lh = CHeap).
Let d := lh + dummy_offset.
Context (Hag : agree (λ c, c = FreeMem d ∨ c = FreeBlkCnt d ∨ c = State d) h h').
Context (Hfg : ∀ lh c, g_cs g lh = CHeap → 0 ≤ c < NCLS → H' ≠ HFg lh c →
  h (Foreground lh c) = lh + dummy_offset ∨ g_cs g (h (Foreground lh c)) = CFg lh c).
Context (Hfg_at : ∀ lh c x, g_cs g x = CFg lh c → H' ≠ HFg lh c ∧ h (Foreground lh c) = x).
Context (Hcnt : ∀ lh, g_cs g lh = CHeap → (∀ c, H' ≠ HFg lh c) → H' ≠ HDummy lh → h' (FreeBlkCnt (lh + dummy_offset)) = 1).

Lemma dummy_chunk x lh' c : cdata (g_cs g x) = Some (lh', c) → chunk_ok h' g x lh' c ∧ h' (FreeMem x) = h (FreeMem x).
Proof.
  intros Hx. assert (x ≠ d) as Hne.
  { apply (dummy_not_chunk Hok); [done|]. by intros Hn; rewrite Hn in Hx. }
  rewrite Hag by (intuition congruence). split; [|done].
  destruct (i_chunk _ _ _ Hok x lh' c Hx). split; simpl; rewrite ?Hag by (intuition congruence); done.
Qed.

Lemma dummy_blk x y : is_Some (cdata (g_cs g x)) → block h x y → block h' x y.
Proof.
  intros [[lh' c] Hx] (i & ? & ? & ?). exists i. destruct (dummy_chunk x lh' c Hx) as [_ ->].
  by rewrite Hag by (intuition congruence).
Qed.

Lemma dummy_ok : heap_ok H' g h'.
Proof.
  destruct Hok. assert (∀ c, (∀ x, c ≠ FreeMem x ∧ c ≠ FreeBlkCnt x ∧ c ≠ State x) → h' c = h c) as Hkeep.
  { intros c Hc. apply Hag. destruct (Hc d) as (? & ? & ?). tauto. }
  split; try done; intros *; rewrite ?Hkeep by done; auto.
  - eapply links_ext; [done|..|done].
    + intros. by apply Hkeep.
    + intros l _. destruct l; simpl; by rewrite Hkeep.
  - intros Hl Hx. destruct (i_blk _ _ Hl Hx). auto using dummy_blk.
  - intros Hx. destruct (i_buf lh0 i Hx). split; intros *; rewrite ?Hkeep by done; auto.
  - intros Hx. destruct (i_live _ Hx) as (? & ? & ?). auto using dummy_blk.
  - intros Hx. by apply dummy_chunk.
  - intros Hx. eapply dlist_cells; [by apply i_bg|by apply Hkeep..|]. intros. by rewrite !Hkeep.
Qed.
End dummy.

(** The first allocation of a class. *)
Lemma dummy_taken g h h' lh c :
  heap_ok HNone g h → g_cs g lh = CHeap → h (Foreground lh c) = lh + dummy_offset →
  agree (λ c, c = FreeMem (lh + dummy_offset) ∨ c = FreeBlkCnt (lh + dummy_offset) ∨ c = State (lh + dummy_offset)) h h' →
  heap_ok (HFg lh c) g h'.
Proof.
  intros Hok Hlh Hd Hag. apply (dummy_ok HNone (HFg lh c) g h h' lh); try done.
  - intros lh' c' ? ? _. by apply (i_fg _ _ _ Hok).
  - intros lh' c' x Hx. destruct (i_fg_at _ _ _ Hok _ _ _ Hx) as [_ Hx']. split; [|done].
    intros [= <- <-]. rewrite Hx' in Hd. apply (dummy_not_chunk Hok lh x) in Hd; [done|done|]. by rewrite Hx.
  - intros lh' Hlh' Hne _. rewrite Hag; [by apply (i_dummy_cnt _ _ _ Hok)|].
    intros [?|[?|?]]; try done. apply (Hne c). f_equal. simplify_eq. lia.
Qed.

Lemma dummy_done g h h' lh :
  heap_ok (HDummy lh) g h → g_cs g lh = CHeap → agree (λ c, c = FreeBlkCnt (lh + dummy_offset)) h h' →
  h' (FreeBlkCnt (lh + dummy_offset)) = 1 → heap_ok HNone g h'.
Proof.
  intros Hok Hlh Hag Hone. apply (dummy_ok (HDummy lh) HNone g h h' lh); try done.
  - eapply agree_weaken; [done|]. tauto.
  - intros lh' c' ? ? _. by apply (i_fg _ _ _ Hok).
  - intros lh' c' x Hx. destruct (i_fg_at _ _ _ Hok _ _ _ Hx) as [_ Hx']. done.
  - intros lh' Hlh' _ _. destruct (decide (lh' = lh)) as [->|]; [done|].
    rewrite Hag; [|intros ?; simplify_eq; lia]. apply (i_dummy_cnt _ _ _ Hok); try done. congruence.
Qed.

Lemma glob_keeps g s h' : agree (λ c, ∃ x, c = FreeMem x ∨ c = FreeBlkCnt x ∨ c = State x) (s_mem s) h' → keeps g g (s_mem s) h'.
Proof.
  intros Hag. split; try done.
  - intros c Hc. apply Hag. by intros [x [->|[-> | ->]]].
  - intros x _ _. apply Hag. by intros [y [?|[?|?]]].
Qed.

Section replace.
Context (mmap : nat → Z → Z → list mapping → Z) (Hmm : mmap_contract mmap).

Lemma lheap_replace_foreground_spec lh c g s :
  inv (HFg lh c) g s → g_cs g lh = CHeap → 0 ≤ c < NCLS → s_mem s GlobalState = READY →
  wp (lheap_replace_foreground mmap lh c) (λ _ s', ∃ g', refilled lh c g s g' s') s.
Proof.
  intros Hinv Hlh Hc Hrdy. pose proof (v_heap _ _ _ Hinv) as Hok.
  assert (s_maps s = tables) as Hmaps by by apply (th_tables _ _ _ (v_threads _ _ _ Hinv)).
  unfold lheap_replace_foreground. do 3 wstep.
  pose proof (i_bg _ _ _ Hok lh c Hlh) as [Hhd _ Hseg _]. rewrite Hhd.
  destruct (g_bg g lh c) as [|dc l2] eqn:Hbg.
  2: { destruct Hseg as (? & _). rewrite bool_decide_true by (simpl; lia). apply wp_ret_bind.
       eapply (refill_background lh c g s Hinv Hlh Hc dc l2); eauto. }
  rewrite bool_decide_false by (by intros []). wstep. apply wp_fast_queue_fetch.
  2: { pose proof (lk_list _ _ _ _ (i_links _ _ _ Hok) (LNeed lh c) Hlh) as Hz. simpl in Hz. intros Hnz.
       destruct (g_ls g (LNeed lh c)) as [|dc q] eqn:Hl; [done|]. destruct Hz as (-> & ? & _).
       rewrite bool_decide_true by lia. apply wp_ret_bind.
       eapply (refill_collect lh c g s Hinv Hlh Hc dc q); eauto. }
  intros _. rewrite bool_decide_false by (by intros []). wstep. apply wp_seq_queue_fetch.
  - intros _. rewrite bool_decide_false by (by intros []). wstep.
    eapply wp_mono; [by apply (gpool_acquire_chunk_spec mmap Hmm (HFg lh c) g s)|].
    intros dc s1 (ls' & Hdc & Hac). repeat wstep. unfold dchunk_init. repeat wstep.
    apply dchunk_change_cls_spec; [by rewrite <-Hmaps; apply (sy_maps _ _ _ _ (aq_stays _ _ _ _ _ _ Hac))|].
    repeat wstep. eexists. apply (refill_fresh lh c g s dc ls' s1); try done; unfold recut.
    + repeat (apply agree_set; [|unfold new_cells; tauto]). done.
    + msimpl. done.
  - pose proof (lk_list _ _ _ _ (i_links _ _ _ Hok) (LLocal lh) Hlh) as Hz. simpl in Hz. intros Hnz.
    destruct (g_ls g (LLocal lh)) as [|dc q] eqn:Hl; [done|]. destruct Hz as (-> & ? & _).
    rewrite bool_decide_true by lia. repeat wstep. msimpl. apply dchunk_change_cls_spec; [done|]. repeat wstep.
    destruct (fetch_local_acquired _ lh g s dc q Hinv Hlh Hl) as (Hac & Ho & Hr). set (s1 := upd s _) in Hac.
    eexists. eapply (refill_fresh lh c g s dc _ s1); try done; unfold recut.
    + repeat (apply agree_set; [|unfold new_cells; tauto]). done.
    + simpl. msimpl. done.
Qed.

(** ** Allocation *)

(** The block [r] of class [c] has been taken. *)
Record allocated (lh c : Z) (g : ghost) (s : st) (r : Z) (g' : ghost) (s' : st) : Prop := {
  al_inv : inv HNone g' s';
  al_stays : stays g g' s s';
  al_holds : holds g g';
  al_new : r ∉ g_live g;
  al_live : g_live g' = {[r]} ∪ g_live g;
  al_data : cdata (g_cs g' (dchunk_extract r)) = Some (lh, c);
}.

(** What [dchunk_alloc_obj] and the counter do to the memory. *)
Lemma alloc_obj_spec lh c g s dc Q :
  inv HNone g s → g_cs g dc = CFg lh c →
  (∀ r ls' h', agree (λ x, x = FreeHead dc ∨ x = FreeMem dc) (s_mem s) h' →
    ((∃ q, g_ls g (LFree dc) = r :: q ∧ ls' = <[LFree dc := q]> (g_ls g) ∧
        h' (FreeHead dc) = s_mem s (Word r) ∧ h' (FreeMem dc) = s_mem s (FreeMem dc)) ∨
     (g_ls g (LFree dc) = [] ∧ ls' = g_ls g ∧ r = s_mem s (FreeMem dc) ∧
        h' (FreeHead dc) = s_mem s (FreeHead dc) ∧ h' (FreeMem dc) = r + sz c)) → Q r (upd s h')) →
  wp (dchunk_alloc_obj dc) Q s.
Proof.
  intros Hinv Hcs HQ. pose proof (v_heap _ _ _ Hinv) as Hok.
  assert (cdata (g_cs g dc) = Some (lh, c)) as Hd by by rewrite Hcs.
  destruct (i_chunk _ _ _ Hok dc lh c Hd) as [Hc _ _ _ Hbs _ _ (k & Hk & Hfm & Hcnt) _ Hfr].
  assert (valid (g_cs g) (LFree dc)) as Hv by (simpl; rewrite Hd; by eauto).
  pose proof (lk_list _ _ _ _ (i_links _ _ _ Hok) (LFree dc) Hv) as Hz. simpl in Hz.
  unfold dchunk_alloc_obj. repeat wstep. destruct (g_ls g (LFree dc)) as [|x q] eqn:Hl.
  - rewrite bool_decide_true by done. repeat wstep. eapply HQ.
    + repeat (apply agree_set; [|tauto]). done.
    + right. split_and!; [done..| |]; msimpl; [done|]. rewrite Hbs. apply wrap_u_small.
      pose proof (cls2size_bounds c Hc). destruct (i_pos _ _ _ Hok dc) as (? & Hhi & _); [by rewrite Hcs|].
      destruct (v_pool _ _ _ Hinv) as [? ? _ _ _ _]. pose proof (Z.mul_div_le CHUNK_DATA_SIZE (sz c) ltac:(lia)).
      assert (0 < RAW_POOL_START ∧ CHUNK_SIZE = 65792 ∧ DCH = 256 ∧ POOL_SKEW = 256 ∧ POOL_LIMIT = 0x700000000000) as (?&?&?&?&?) by done.
      assert (k * sz c ≤ CHUNK_DATA_SIZE) by nia. assert (CHUNK_DATA_SIZE = 65536) by done. nia.
  - destruct Hz as (-> & ? & _). rewrite bool_decide_false by lia. repeat wstep. eapply HQ.
    + repeat (apply agree_set; [|tauto]). done.
    + left. exists q. split_and!; [done..| |]; by msimpl.
Qed.

Lemma take_new g h dc lh c r :
  heap_ok HNone g h → cdata (g_cs g dc) = Some (lh, c) →
  ((∃ q, g_ls g (LFree dc) = r :: q) ∨ r = h (FreeMem dc)) → dchunk_extract r = dc → r ∉ g_live g.
Proof.
  intros Hok Hd Hr Hx Hin. destruct (i_live _ _ _ Hok r Hin) as (_ & Hb & Hno). rewrite Hx in Hb.
  destruct Hr as [[q Hq]|Hr].
  - apply (Hno (LFree dc)). rewrite Hq. by left.
  - destruct Hb as (i & ? & ? & ?). lia.
Qed.

(** The free blocks of a foreground chunk. *)
Lemma fg_count H g h dc lh c :
  heap_ok H g h → g_cs g dc = CFg lh c → 1 ≤ h (FreeBlkCnt dc) ≤ 8192 ∧ h (State dc) = FOREGROUND.
Proof.
  intros Hok Hcs. destruct (i_chunk _ _ _ Hok dc lh c) as [Hc _ _ _ _ _ Hst (k & Hk & Hfm & Hcnt) _ Hfr]; [by rewrite Hcs|].
  rewrite bool_decide_false in Hfr by congruence. rewrite Hcs in Hst. split; [|done].
  assert (length (g_ls g (LFree dc)) ≤ k).
  { apply (block_count Hok dc lh c); [by rewrite Hcs|done|apply (lk_nodup _ _ _ _ (i_links _ _ _ Hok))|].
    intros x Hx. apply (chunk_blocks Hok). by left. }
  pose proof (class_count c Hc). lia.
Qed.

Definition taken_from (g : ghost) (h h' : mem) (dc c r : Z) (ls' : lid → list Z) : Prop :=
  (∃ q, g_ls g (LFree dc) = r :: q ∧ ls' = <[LFree dc := q]> (g_ls g) ∧
        h' (FreeHead dc) = h (Word r) ∧ h' (FreeMem dc) = h (FreeMem dc)) ∨
  (g_ls g (LFree dc) = [] ∧ ls' = g_ls g ∧ r = h (FreeMem dc) ∧
        h' (FreeHead dc) = h (FreeHead dc) ∧ h' (FreeMem dc) = r + sz c).

Lemma taken_inv lh c g s dc r ls' h' :
  inv HNone g s → g_cs g lh = CHeap → g_cs g dc = CFg lh c → agree (chunk_cell dc) (s_mem s) h' →
  h' (FreeBlkCnt dc) = s_mem s (FreeBlkCnt dc) - 1 → taken_from g (s_mem s) h' dc c r ls' →
  h' (State dc) = (if bool_decide (h' (FreeBlkCnt dc) = 0) then FULL else FOREGROUND) →
  let g' := take_g g h' dc lh c r ls' in
  inv (if bool_decide (h' (FreeBlkCnt dc) = 0) then HFg lh c else HNone) g' (upd s h') ∧ stays g g' s (upd s h') ∧
  holds g g' ∧ r ∉ g_live g ∧ cdata (g_cs g' (dchunk_extract r)) = Some (lh, c) ∧ g_cs g' lh = CHeap.
Proof.
  intros Hinv Hlh Hcs Hag Hcnt Htake Hst g'. pose proof (v_heap _ _ _ Hinv) as Hok.
  pose proof (take_extract g (s_mem s) h' dc lh c r ls' Hok Hcs Htake) as Hx.
  assert (cdata (g_cs g dc) = Some (lh, c)) as Hd by by rewrite Hcs.
  assert (keeps g g' (s_mem s) h') as Hkp.
  { split; try done.
    - intros x Hc'. apply Hag. intros [->|[->|[-> | ->]]]; done.
    - intros x _ _. apply Hag. by intros [?|[?|[?|?]]].
    - intros x Hx'. by apply (take_heap g h' dc lh c Hcs Hst).
    - destruct Htake as [(q & _ & -> & _)|(_ & -> & _)]; simpl; by rewrite ?fn_lookup_insert_ne. }
  split_and!.
  - eapply keeps_inv; [done| |done]. by apply (take_ok g (s_mem s)).
  - by apply keeps_stays.
  - intros x d Hxd. simpl. by rewrite (take_cdata g h' dc lh c Hcs Hst).
  - apply (take_new g (s_mem s) dc lh c); try done. destruct Htake as [(q & ? & _)|(_ & _ & ? & _)]; eauto.
  - simpl. by rewrite (take_cdata g h' dc lh c Hcs Hst), Hx.
  - by apply (take_heap g h' dc lh c Hcs Hst).
Qed.

(** The counter, and the state if it was the last block. *)
Lemma taken_count lh c g s dc r ls' h1 :
  inv HNone g s → g_cs g lh = CHeap → g_cs g dc = CFg lh c →
  agree (λ x, x = FreeHead dc ∨ x = FreeMem dc) (s_mem s) h1 → taken_from g (s_mem s) h1 dc c r ls' →
  let n := s_mem s (FreeBlkCnt dc) - 1 in
  let h' := if bool_decide (n = 0) then <[State dc := FULL]> (<[FreeBlkCnt dc := n]> h1) else <[FreeBlkCnt dc := n]> h1 in
  let g' := take_g g h' dc lh c r ls' in
  inv (if bool_decide (n = 0) then HFg lh c else HNone) g' (upd s h') ∧ stays g g' s (upd s h') ∧
  holds g g' ∧ r ∉ g_live g ∧ cdata (g_cs g' (dchunk_extract r)) = Some (lh, c) ∧ g_cs g' lh = CHeap.
Proof.
  intros Hinv Hlh Hcs Hag Htake n h'. destruct (fg_count _ _ _ _ _ _ (v_heap _ _ _ Hinv) Hcs) as [_ Hst].
  assert (h' (FreeBlkCnt dc) = n ∧ h' (FreeHead dc) = h1 (FreeHead dc) ∧ h' (FreeMem dc) = h1 (FreeMem dc) ∧
    h' (State dc) = (if bool_decide (n = 0) then FULL else FOREGROUND)) as (Hv1 & Hv2 & Hv3 & Hv4).
  { unfold h'. case_bool_decide; msimpl; try done. split_and!; try done. rewrite Hag; [done|by intros [?|?]]. }
  pose proof (taken_inv lh c g s dc r ls' h' Hinv Hlh Hcs) as Ht. rewrite Hv1 in Ht. apply Ht; try done.
  - assert (agree (chunk_cell dc) (s_mem s) h1) by (eapply agree_weaken; [done|]; unfold chunk_cell; tauto).
    unfold h'. case_bool_decide; repeat (apply agree_set; [|unfold chunk_cell; tauto]); done.
  - unfold taken_from. by rewrite Hv2, Hv3.
Qed.

(** The dummy chunk is as it should be. *)
Lemma refilled_done lh c g s g' s' :
  refilled lh c g s g' s' → g_cs g' lh = CHeap → s_mem s (FreeBlkCnt (lh + dummy_offset)) = 1 → inv HNone g' s'.
Proof.
  intros [Hinv _ _ _ _ Hd] Hlh Hone. destruct s' as [h m n p]. apply (keeps_inv (s := St h m n p) Hinv (h' := h)); [|by split].
  apply (dummy_done g' h h lh); try done; [apply (v_heap _ _ _ Hinv)|]. simpl in Hd. congruence.
Qed.

Lemma small_round lh c g s n :
  inv HNone g s → g_cs g lh = CHeap → 0 ≤ c < NCLS → s_mem s GlobalState = READY →
  g_cs g (s_mem s (Foreground lh c)) = CFg lh c →
  wp (small_malloc_loop mmap (S n) lh c) (λ r s', ∃ g', allocated lh c g s r g' s') s.
Proof.
  intros Hinv Hlh Hc Hrdy Hcs. simpl. repeat wstep. set (dc := s_mem s (Foreground lh c)) in *.
  pose proof (v_heap _ _ _ Hinv) as Hok. destruct (fg_count _ _ _ _ _ _ Hok Hcs) as [Hcnt _].
  eapply (alloc_obj_spec lh c g s dc); [done..|]. intros r ls' h1 Hag Htake. repeat wstep.
  assert (h1 (FreeBlkCnt dc) = s_mem s (FreeBlkCnt dc)) as -> by (apply Hag; by intros [?|?]).
  rewrite wrap_u_small by lia.
  pose proof (taken_count lh c g s dc r ls' h1 Hinv Hlh Hcs Hag Htake) as (Hinv' & Hsy & Hho & Hnew & Hdat & Hlh').
  set (n' := s_mem s (FreeBlkCnt dc) - 1) in *. destruct (bool_decide (n' = 0)).
  - repeat wstep. eapply wp_mono; [apply (lheap_replace_foreground_spec lh c _ _ Hinv'); try done|].
    { by rewrite (sy_glob _ _ _ _ Hsy). }
    intros _ s2 [g2 Hrf]. pose proof Hrf as [Hinv2 _ Hsy2 Hho2 Hl2 _]. repeat wstep.
    assert (cdata (g_cs g2 dc) = Some (lh, c)) as Hdc2 by (apply Hho2, Hho; by rewrite Hcs).
    rewrite (ck_size_cls _ _ _ _ _ (i_chunk _ _ _ (v_heap _ _ _ Hinv2) dc lh c Hdc2)).
    rewrite bool_decide_false by (unfold DUMMY_CLASS, NCLS in *; lia). wstep. exists g2.
    split; [|by eapply stays_trans|by eapply holds_trans|done|by rewrite Hl2|by apply Hho2].
    apply (refilled_done _ _ _ _ _ _ Hrf); [by apply (sy_heap _ _ _ _ Hsy2)|]. simpl.
    assert (dc ≠ lh + dummy_offset) by (apply (dummy_not_chunk Hok); [done|by rewrite Hcs]).
    msimpl. rewrite Hag by (by intros [?|?]). by apply (i_dummy_cnt _ _ _ Hok).
  - wstep. eexists. by split.
Qed.

(** With the dummy chunk in the foreground, the first round installs a chunk. *)
Lemma small_malloc_loop_spec lh c g s :
  inv HNone g s → g_cs g lh = CHeap → 0 ≤ c < NCLS → s_mem s GlobalState = READY →
  wp (small_malloc_loop mmap 2 lh c) (λ r s', ∃ g', allocated lh c g s r g' s') s.
Proof.
  intros Hinv Hlh Hc Hrdy. pose proof (v_heap _ _ _ Hinv) as Hok.
  destruct (i_fg _ _ _ Hok lh c Hlh Hc) as [Hd|Hfg]; [done| |by apply small_round].
  remember 1%nat as n eqn:Hn. cbn [small_malloc_loop]. repeat wstep. rewrite Hd.
  destruct (i_dummy _ _ _ Hok lh Hlh) as [Hcls Hhead]. pose proof (i_dummy_cnt _ _ _ Hok lh Hlh ltac:(done) ltac:(done)) as Hone.
  unfold dchunk_alloc_obj. repeat wstep. rewrite Hhead, bool_decide_true by done. repeat wstep. msimpl. rewrite Hone.
  change (u32 (1 - 1)) with 0. rewrite bool_decide_true by done. repeat wstep. set (d := lh + dummy_offset) in *.
  set (h1 := <[State d := FULL]> _).
  assert (agree (λ c, c = FreeMem d ∨ c = FreeBlkCnt d ∨ c = State d) (s_mem s) h1) as Hag.
  { unfold h1. repeat (apply agree_set; [|tauto]). done. }
  assert (keeps g g (s_mem s) h1) as Hkp by (apply glob_keeps; eapply agree_weaken; [done|]; by exists d).
  assert (inv (HFg lh c) g (upd s h1)) as Hinv1.
  { eapply keeps_inv; [done| |done]. by apply (dummy_taken g (s_mem s)). }
  eapply wp_mono; [apply (lheap_replace_foreground_spec lh c _ _ Hinv1); try done|].
  intros _ s2 [g2 [Hinv2 Hfg2 Hsy2 Hho2 Hl2 _]]. repeat wstep.
  assert (g_cs g2 lh = CHeap) as Hlh2 by by apply (sy_heap _ _ _ _ Hsy2).
  destruct (i_dummy _ _ _ (v_heap _ _ _ Hinv2) lh Hlh2) as [Hcls2 _]. fold d in Hcls2.
  rewrite Hcls2, bool_decide_true by done. wstep. wstep.
  set (h3 := <[FreeBlkCnt d := 1]> (s_mem s2)).
  assert (agree (λ c, c = FreeBlkCnt d) (s_mem s2) h3) as Hag3 by by apply agree_set.
  assert (keeps g2 g2 (s_mem s2) h3) as Hkp3 by (apply glob_keeps; eapply agree_weaken; [done|]; intros ? ->; exists d; tauto).
  assert (stays g g2 s (upd s2 h3)) as Hsy3.
  { eapply stays_trans; [by apply (keeps_stays g g s h1)|]. eapply stays_trans; [done|by apply keeps_stays]. }
  subst n. eapply wp_mono; [apply (small_round lh c g2 (upd s2 h3) 0); try done|].
  - eapply keeps_inv; [done| |done]. apply (dummy_done g2 (s_mem s2) h3 lh); try done; [apply (v_heap _ _ _ Hinv2)|].
    unfold h3, d. by msimpl.
  - by rewrite (sy_glob _ _ _ _ Hsy3).
  - intros r s4 [g4 [? ? ? Hnew Hlive ?]]. exists g4. rewrite Hl2 in Hnew, Hlive.
    split; try done; [by eapply stays_trans|by eapply holds_trans].
Qed.
End replace.
