(* ===== verification/SsFree.v ===== *)
(** * Releasing small blocks of SSMalloc

    Specifications of [local_free], [remote_free] and the object buffers. *)

From S2P Require Import Prelude SsSize SsQueue SsMem SsMalloc SsLinks SsInv SsChunk SsMoves SsBuf SsPool SsSmall.

Local Open Scope Z_scope.

(** The small block [p] has been released. *)
Record freed (p : Z) (g : ghost) (s : st) (g' : ghost) (s' : st) : Prop := {
  fr_inv : inv HNone g' s';
  fr_stays : stays g g' s s';
  fr_live : g_live g' = g_live g ∖ {[p]};
  fr_data q : q ∈ g_live g' → cdata (g_cs g' (dchunk_extract q)) = cdata (g_cs g (dchunk_extract q));
}.

(** Cells that matter for blocks and chunks only. *)
Definition quiet (c : cell) : bool := match c with Owner _ => false | _ => negb (glob_cell c) end.

Lemma quiet_keeps (T : cell → Prop) g g' h h' :
  agree T h h' → (∀ c, T c → quiet c = true) → (∀ x, g_cs g x = CHeap → g_cs g' x = CHeap) →
  g_ls g' LHeaps = g_ls g LHeaps → g_large g' = g_large g → keeps g g' h h'.
Proof.
  intros Hag Hq Hh Hl Hg. split; try done.
  - intros c Hc. apply Hag. intros Ht%Hq. destruct c; done.
  - intros x _ _. apply Hag. by intros Ht%Hq.
Qed.

Section local.
Context (lh c : Z) (g : ghost) (s : st) (dc p : Z) (Hinv : inv HNone g s).
Context (Hp : p ∈ g_live g) (Hdc : dchunk_extract p = dc) (Hd : cdata (g_cs g dc) = Some (lh, c)).

(** The block is at the head of the free list, the counter is up to date. *)
Let n := s_mem s (FreeBlkCnt dc) + 1.
Let h1 : mem := <[FreeHead dc := p]> (<[Word p := s_mem s (FreeHead dc)]> (<[FreeBlkCnt dc := n]> (s_mem s))).

Lemma local_count : n ≤ 8192.
Proof.
  pose proof (v_heap _ _ _ Hinv) as Hok.
  destruct (i_chunk _ _ _ Hok dc lh c Hd) as [Hc _ _ _ _ _ _ (k & Hk & Hfm & Hcnt) _ _].
  destruct (i_live _ _ _ Hok p Hp) as (_ & Hb & Hno). rewrite Hdc in Hb.
  assert (length (p :: g_ls g (LFree dc)) ≤ k) as Hlen.
  { apply (block_count Hok dc lh c); [done..| |].
    - constructor; [apply Hno|apply (lk_nodup _ _ _ _ (i_links _ _ _ Hok))].
    - intros x [->|Hx]%elem_of_cons; [done|]. apply (chunk_blocks Hok). by left. }
  simpl in Hlen. pose proof (class_count c Hc). unfold n. lia.
Qed.

(** The block is given back; a full chunk is in the background now. *)
Lemma local_give h' :
  agree (give_cells g dc lh c p (g_cs g dc)) (s_mem s) h' → h' (FreeHead dc) = p → h' (Word p) = s_mem s (FreeHead dc) →
  h' (FreeMem dc) = s_mem s (FreeMem dc) → h' (FreeBlkCnt dc) = n →
  h' (State dc) = (if bool_decide (g_cs g dc = CFull lh c) then BACKGROUND else cstate (g_cs g dc)) →
  dlist h' (BackgroundHead lh c) (BackgroundTail lh c) (give_bg g dc lh c (g_cs g dc)) →
  freed p g s (give_g g dc lh c p (g_cs g dc)) (upd s h').
Proof.
  intros Hag H1 H2 H3 H4 H5 H6. pose proof (v_heap _ _ _ Hinv) as Hok.
  assert (keeps g (give_g g dc lh c p (g_cs g dc)) (s_mem s) h') as Hkp.
  { eapply quiet_keeps; [done|..]; simpl; try done.
    - intros x [[->|[->|[-> | ->]]]|[->|[_ [->|[->|(y & _ & [-> | ->])]]]]]; done.
    - intros x Hx. unfold give_cs. case_bool_decide as Hf; [|done].
      rewrite fn_lookup_insert_ne; [done|]. intros <-. congruence. }
  split; simpl.
  - eapply keeps_inv; [done| |done]. by apply (give_ok g (s_mem s)).
  - by apply keeps_stays.
  - done.
  - intros q Hq. by eapply give_cdata.
Qed.

(** Without a change of the state of the chunk. *)
Lemma local_same : g_cs g dc ≠ CFull lh c → freed p g s (give_g g dc lh c p (g_cs g dc)) (upd s h1).
Proof.
  intros Hnf. pose proof (v_heap _ _ _ Hinv) as Hok.
  destruct (i_chunk _ _ _ Hok dc lh c Hd) as [_ Hlh _ _ _ _ Hst _ _ _].
  apply local_give; unfold h1; msimpl; try done.
  - repeat (apply agree_set; [|unfold give_cells, chunk_cell; tauto]). done.
  - by rewrite bool_decide_false.
  - unfold give_bg. rewrite bool_decide_false by done.
    eapply dlist_cells; [by apply (i_bg _ _ _ Hok)|by msimpl..|]. intros. by msimpl.
Qed.

(** A full chunk moves to the background. *)
Lemma local_full Q :
  g_cs g dc = CFull lh c → (∀ s', freed p g s (give_g g dc lh c p (g_cs g dc)) s' → Q tt s') →
  wp (double_list_insert_front dc (BackgroundHead lh c) (BackgroundTail lh c);; set (State dc) BACKGROUND) Q (upd s h1).
Proof.
  intros Hf HQ. pose proof (v_heap _ _ _ Hinv) as Hok.
  destruct (i_chunk _ _ _ Hok dc lh c Hd) as [_ Hlh _ _ _ _ _ _ _ _]. wstep.
  eapply wp_mono; [apply (insert_front_spec (BackgroundHead lh c) (BackgroundTail lh c) eq_refl eq_refl ltac:(done) _ (g_bg g lh c))|].
  - unfold h1. eapply dlist_cells; [by apply (i_bg _ _ _ Hok)|simpl; by msimpl..|]. intros. simpl. by msimpl.
  - intros Hin%(i_bg_at _ _ _ Hok). congruence.
  - apply (cdata_pos Hok). by rewrite Hd.
  - intros _ ? (h2 & -> & Hdl & Hag). wstep. apply HQ. simpl in Hag.
    assert (∀ x, is_link x = false → x ≠ BackgroundHead lh c → x ≠ BackgroundTail lh c → h2 x = h1 x) as Hkeep.
    { intros x ? ? ?. apply Hag. intros [->|[->|(y & _ & [-> | ->])]]; done. }
    apply local_give; msimpl; rewrite ?Hkeep by done; unfold h1; msimpl; try done.
    + intros x Hx. unfold give_cells in Hx. rewrite bool_decide_true in Hx by done. unfold chunk_cell in Hx.
      rewrite fn_lookup_insert_ne by (intros <-; tauto). rewrite Hag by tauto. unfold h1.
      rewrite !fn_lookup_insert_ne by (intros <-; tauto). done.
    + by rewrite bool_decide_true.
    + unfold give_bg. rewrite bool_decide_true by done. eapply dlist_cells; [done|by msimpl..|]. intros. by msimpl.
Qed.
End local.

(** ** Empty chunks *)

Section release.
Context (dc lh c : Z) (g : ghost) (s : st) (Hinv : inv HNone g s) (Hcs : g_cs g dc = CBg lh c).
Context (Hall : s_mem s (FreeBlkCnt dc) = CHUNK_DATA_SIZE / sz c).

(** The chunk has been passed on. *)
Record released (g' : ghost) (s' : st) : Prop := {
  rl_inv : inv HNone g' s';
  rl_stays : stays g g' s s';
  rl_live : g_live g' = g_live g;
  rl_data x : x ≠ dc → cdata (g_cs g' x) = cdata (g_cs g x);
}.

Lemma detach_spec Q :
  (∀ g1 h1, released g1 (upd s h1) → g_cs g1 dc = CLimbo → h1 (Owner dc) = lh → h1 (RemoteFreeHead dc) = 0 →
    h1 (LhFreeCnt lh) = s_mem s (LhFreeCnt lh) → Q tt (upd s h1)) →
  wp (double_list_remove dc (BackgroundHead lh c) (BackgroundTail lh c)) Q s.
Proof.
  intros HQ. pose proof (v_heap _ _ _ Hinv) as Hok.
  assert (dc ∈ g_bg g lh c) as (l1 & l2 & Hl)%list_elem_of_split by by apply (i_bg_at _ _ _ Hok).
  destruct (i_chunk _ _ _ Hok dc lh c) as [_ Hlh Ho _ _ _ _ _ _ _]; [by rewrite Hcs|].
  pose proof (i_bg _ _ _ Hok lh c Hlh) as Hdl. rewrite Hl in Hdl.
  eapply wp_mono; [by apply (remove_spec (BackgroundHead lh c) (BackgroundTail lh c) eq_refl eq_refl ltac:(done) s l1 dc l2)|].
  intros [] ? (h1 & -> & Hdl1 & Hag).
  assert (∀ x, is_link x = false → x ≠ BackgroundHead lh c → x ≠ BackgroundTail lh c → h1 x = s_mem s x) as Hkeep.
  { intros x ? ? ?. apply Hag. intros [->|[->|(y & _ & [-> | ->])]]; done. }
  assert (keeps g (detach_g g dc lh c l1 l2) (s_mem s) h1) as Hkp.
  { eapply quiet_keeps; [done|..]; simpl; try done.
    - intros x [->|[->|(y & _ & [-> | ->])]]; done.
    - intros x Hx. rewrite fn_lookup_insert_ne; [done|]. intros <-. congruence. }
  apply (HQ (detach_g g dc lh c l1 l2)); rewrite ?Hkeep by done; try done.
  - split; simpl; try done.
    + eapply keeps_inv; [done| |done]. by apply (detach_ok HNone g (s_mem s)).
    + by apply keeps_stays.
    + intros x Hx. by rewrite fn_lookup_insert_ne.
  - simpl. by rewrite fn_lookup_insert.
  - by apply (detach_remote HNone g (s_mem s) dc lh c).
Qed.

(** From the running call to one of the lists of empty chunks. *)
Lemma put_released g1 h1 s' ls' h2 :
  released g1 (upd s h1) → g_cs g1 dc = CLimbo → inert s' = true →
  agree (λ x, pool_cell x = true ∧ glob_cell x = false) h1 h2 →
  heap_ok HNone (restat_g g1 dc s' ls') h2 → ls' LHeaps = g_ls g1 LHeaps →
  released (restat_g g1 dc s' ls') (upd s h2).
Proof.
  intros [Hi1 Hs1 Hl1 Hd1] Hcs1 Hs' Hag Hok2 Hls.
  assert (keeps g1 (restat_g g1 dc s' ls') h1 h2) as Hkp.
  { eapply quiet_keeps; [done|..]; simpl; try done.
    - intros x [Hx Hg]. destruct x; done.
    - intros x Hx. rewrite fn_lookup_insert_ne; [done|]. intros <-. congruence. }
  split; simpl.
  - by apply (keeps_inv (s := upd s h1) (g := g1) Hi1).
  - eapply stays_trans; [done|]. by apply (keeps_stays _ _ (upd s h1)).
  - done.
  - intros x Hx. rewrite fn_lookup_insert_ne by done. auto.
Qed.

Lemma release_spec :
  wp (free_cnt <- get (LhFreeCnt lh);;
      double_list_remove dc (BackgroundHead lh c) (BackgroundTail lh c);;
      if MAX_FREE_CHUNK <=? free_cnt then gpool_release_chunk dc
      else seq_queue_put (LhFreeHead lh) dc;; set (LhFreeCnt lh) (u32 (free_cnt + 1)))
    (λ _ s', ∃ g', released g' s') s.
Proof.
  assert (g_cs g lh = CHeap) as Hlh by (eapply ck_heap, (i_chunk _ _ _ (v_heap _ _ _ Hinv) dc lh c); by rewrite Hcs).
  repeat wstep. apply detach_spec. intros g1 h1 Hrl Hcs1 Ho Hr Hfc.
  pose proof (v_heap _ _ _ (rl_inv _ _ Hrl)) as Hok1. simpl in Hok1.
  destruct (i_pos _ _ _ Hok1 dc) as (Hlo & Hhi & _ & Hnuma); [by rewrite Hcs1|].
  destruct (Z.leb_spec MAX_FREE_CHUNK (s_mem s (LhFreeCnt lh))) as [Hmax|Hmax].
  - unfold gpool_release_chunk. repeat wstep. rewrite Hnuma. change 0 with get_core_id. apply wp_queue_put.
    uflat. cbn [s_mem upd]. eexists.
    apply (put_released g1 h1 CGlob (<[LGlobal := dc :: g_ls g1 LGlobal]> (g_ls g1))); try done.
    + repeat (apply agree_set; [|done]). done.
    + apply (put_global_ok HNone g1 h1); try done; msimpl; try done.
      * repeat (apply agree_set; [|tauto]). done.
      * replace ABA_COUNT_ONE with (ABA_COUNT_ONE * 1) by lia. apply aba_addr_lor.
        destruct (v_pool _ _ _ (rl_inv _ _ Hrl)) as [? ? _ _ _ _]. simpl in *.
        assert (0 < RAW_POOL_START ∧ 0 < CHUNK_SIZE ∧ POOL_SKEW = 256 ∧ POOL_LIMIT = 0x700000000000) as (?&?&?&?) by done. lia.
  - wstep. apply wp_seq_queue_put. repeat wstep. eexists.
    destruct (i_cnt _ _ _ (v_heap _ _ _ Hinv) lh Hlh) as [Hcnt _]. assert (MAX_FREE_CHUNK = 63) by done.
    apply (put_released g1 h1 (CIdle lh) (<[LLocal lh := dc :: g_ls g1 (LLocal lh)]> (g_ls g1))); try done.
    + repeat (apply agree_set; [|done]). done.
    + apply (put_local_ok HNone g1 h1 _ dc Hok1 Hcs1 lh); msimpl; try done.
      * by apply (sy_heap _ _ _ _ (rl_stays _ _ Hrl)).
      * by rewrite Hfc.
      * repeat (apply agree_set; [|tauto]). done.
      * rewrite Hfc, wrap_u_small; lia.
Qed.
End release.

Lemma local_free_spec lh c g s dc p :
  inv HNone g s → p ∈ g_live g → dchunk_extract p = dc → cdata (g_cs g dc) = Some (lh, c) →
  wp (local_free lh dc p) (λ _ s', ∃ g', freed p g s g' s') s.
Proof.
  intros Hinv Hp Hdc Hd. pose proof (v_heap _ _ _ Hinv) as Hok.
  destruct (i_chunk _ _ _ Hok dc lh c Hd) as [Hc Hlh _ Hcls _ Hblk Hst (k & Hk & _ & Hcnt) _ _].
  pose proof (local_count lh c g s dc p Hinv Hp Hdc Hd) as Hn.
  unfold local_free. do 3 wstep. wstep. wstep. apply wp_seq_queue_put. cbn [upd s_mem]. uflat. msimpl.
  rewrite wrap_u_small by lia. repeat wstep. msimpl. rewrite Hst, Hcls.
  assert (g_cs g dc = CFg lh c ∨ g_cs g dc = CFull lh c ∨ g_cs g dc = CBg lh c) as Hcs.
  { destruct (g_cs g dc); simplify_eq/=; auto. }
  destruct Hcs as [Hcs|[Hcs|Hcs]]; rewrite Hcs; simpl.
  - repeat wstep. eexists. eapply local_same; try done. by rewrite Hcs.
  - eapply local_full; try done. eauto.
  - repeat wstep. msimpl. rewrite Hblk.
    pose proof (local_same lh c g s dc p Hinv Hp Hdc Hd ltac:(by rewrite Hcs)) as Hfr.
    case_bool_decide as Hall; [|repeat wstep; eauto]. set (g1 := give_g _ _ _ _ _ _) in Hfr. set (h1 := <[FreeHead dc := p]> _) in *.
    assert (g_cs g1 dc = CBg lh c) as Hcs1.
    { unfold g1. simpl. unfold give_cs. by rewrite bool_decide_false by (by rewrite Hcs). }
    assert (h1 (FreeBlkCnt dc) = CHUNK_DATA_SIZE / sz c) as Hall1 by (unfold h1; by msimpl).
    eapply wp_mono; [apply (release_spec dc lh c g1); [apply (fr_inv _ _ _ _ _ Hfr)|done..]|].
    + intros _ s2 [g2 [Hi2 Hs2 Hl2 Hd2]]. exists g2. destruct Hfr as [Hfi Hs1 Hl1 Hd1].
      split; [done|by eapply stays_trans|congruence|]. intros q Hq. rewrite Hl2 in Hq.
      rewrite Hd2; [by apply Hd1|]. eapply (detach_live HNone g1 h1 dc lh c); try done.
      apply (v_heap _ _ _ Hfi).
Qed.

(** ** Object buffers *)

(** Blocks have moved, chunks have not. *)
Record moved (g : ghost) (s : st) (g' : ghost) (s' : st) : Prop := {
  mv_inv : inv HNone g' s';
  mv_stays : stays g g' s s';
  mv_live : g_live g' = g_live g;
  mv_cs : g_cs g' = g_cs g;
}.

Lemma moved_trans g1 s1 g2 s2 g3 s3 : moved g1 s1 g2 s2 → moved g2 s2 g3 s3 → moved g1 s1 g3 s3.
Proof. intros [] []. split; try congruence. by eapply stays_trans. Qed.

Section buffers.
Context (g : ghost) (s : st) (Hinv : inv HNone g s) (lh0 i : Z) (Hlh0 : g_cs g lh0 = CHeap).

(** The chunk whose blocks are in a buffer. *)
Lemma buf_chunk :
  g_ls g (LBuf lh0 i) ≠ [] → ∃ lh c, cdata (g_cs g (s_mem s (BufDc lh0 i))) = Some (lh, c) ∧
  0 < s_mem s (BufHead lh0 i) < 2 ^ 48 ∧ g_cs g (s_mem s (BufFirst lh0 i)) = CNone ∧
  ∀ x, x ∈ g_ls g (LBuf lh0 i) → block (s_mem s) (s_mem s (BufDc lh0 i)) x.
Proof.
  intros Hne. pose proof (v_heap _ _ _ Hinv) as Hok. destruct (i_buf _ _ _ Hok lh0 i Hlh0) as [_ _ Hfirst Hat].
  pose proof (lk_list _ _ _ _ (i_links _ _ _ Hok) (LBuf lh0 i) Hlh0) as Hz. simpl in Hz.
  assert (∀ x, x ∈ g_ls g (LBuf lh0 i) → is_Some (cdata (g_cs g (s_mem s (BufDc lh0 i)))) ∧ block (s_mem s) (s_mem s (BufDc lh0 i)) x) as Hb.
  { intros x Hx. destruct (i_blk _ _ _ Hok (LBuf lh0 i) x eq_refl Hx). by rewrite Hat in * by done. }
  destruct (g_ls g (LBuf lh0 i)) as [|x q] eqn:Hl; [done|].
  destruct (Hb x) as [[[lh c] Hd] _]; [by left|]. exists lh, c.
  destruct (list_word_range _ _ _ _ _ _ Hinv Hl Hlh0) as [Hx _]. destruct Hz as (-> & _).
  split_and!; [done|lia|lia| |by intros y Hy; apply Hb].
  apply (block_not_chunk Hok (LBuf lh0 i)); [done|]. rewrite Hl. by apply last_Some_elem_of, Hfirst.
Qed.

(** All blocks of a chunk that other threads have freed or buffered here. *)
Lemma buf_count dc lh c :
  cdata (g_cs g dc) = Some (lh, c) → (∀ x, x ∈ g_ls g (LBuf lh0 i) → block (s_mem s) dc x) →
  (length (g_ls g (LBuf lh0 i)) + length (g_ls g (LRemote dc)))%Z ≤ 8192.
Proof.
  intros Hd Hb. pose proof (v_heap _ _ _ Hinv) as Hok. pose proof (i_links _ _ _ Hok) as Hlk.
  destruct (i_chunk _ _ _ Hok dc lh c Hd) as [Hc _ _ _ _ _ _ (k & Hk & Hfm & _) _ _].
  assert (length (g_ls g (LBuf lh0 i) ++ g_ls g (LRemote dc)) ≤ k) as Hlen.
  { apply (block_count Hok dc lh c); [done..| |].
    - apply NoDup_app. split_and!; [apply Hlk| |apply Hlk]. intros x Hx Hx'. by pose proof (lk_sep _ _ _ _ Hlk _ _ x Hx Hx').
    - intros x [Hx|Hx]%elem_of_app; [by apply Hb|]. apply (chunk_blocks Hok). by right. }
  rewrite length_app in Hlen. pose proof (class_count c Hc). lia.
Qed.

Lemma flush_moved h' dc lh c :
  s_mem s (BufDc lh0 i) = dc → g_ls g (LBuf lh0 i) ≠ [] → cdata (g_cs g dc) = Some (lh, c) →
  0 < s_mem s (BufHead lh0 i) < 2 ^ 48 → agree (flush_cells g (s_mem s) lh0 i dc lh c) (s_mem s) h' →
  (h' (Word (s_mem s (BufFirst lh0 i))) = head_of (s_mem s) (LRemote dc) ∧
   h' (RemoteFreeHead dc) = s_mem s (BufHead lh0 i) + (length (g_ls g (LBuf lh0 i)) + length (g_ls g (LRemote dc))) * 2 ^ 48 ∧
   h' (BufCount lh0 i) = 0 ∧ h' (BufDc lh0 i) = 0 ∧ h' (BufHead lh0 i) = 0) →
  (g_ls g (LRemote dc) = [] → h' (Word dc) = s_mem s (NeedGc lh c) ∧ h' (NeedGc lh c) = dc) →
  moved g s (flush_g g lh0 i dc lh c) (upd s h').
Proof.
  intros Hdc Hne Hd Hrng Hag Hv Hneed.
  assert (keeps g (flush_g g lh0 i dc lh c) (s_mem s) h') as Hkp.
  { eapply quiet_keeps; [done|..]; simpl; try done.
    - intros x Hx. unfold flush_cells in Hx. destruct_or!; destruct_and?; destruct_or?; by subst.
    - unfold flush_ls, flush_ls0. case_bool_decide; by rewrite !fn_lookup_insert_ne. }
  split; simpl; try done; [|by apply keeps_stays]. eapply keeps_inv; [done| |done].
  apply (flush_ok HNone g (s_mem s)); try done; [apply (v_heap _ _ _ Hinv)| |lia].
  rewrite bool_decide_eq_true. done.
Qed.

(** What the heads look like before and after. *)
Lemma flush_heads dc lh c :
  cdata (g_cs g dc) = Some (lh, c) → 0 < s_mem s (BufHead lh0 i) < 2 ^ 48 →
  length (g_ls g (LBuf lh0 i)) + length (g_ls g (LRemote dc)) ≤ 8192 →
  Z.lor (s_mem s (BufHead lh0 i))
    (u64 (ABA_COUNT (s_mem s (RemoteFreeHead dc)) + ABA_COUNT_ONE * s_mem s (BufCount lh0 i))) =
    s_mem s (BufHead lh0 i) + (length (g_ls g (LBuf lh0 i)) + length (g_ls g (LRemote dc))) * 2 ^ 48 ∧
  (s_mem s (RemoteFreeHead dc) = 0 ↔ g_ls g (LRemote dc) = []).
Proof.
  intros Hd Hhd Hlen. pose proof (v_heap _ _ _ Hinv) as Hok.
  pose proof (lk_list _ _ _ _ (i_links _ _ _ Hok) (LRemote dc) ltac:(simpl; rewrite Hd; by eauto)) as Hz.
  pose proof (ck_remote _ _ _ _ _ (i_chunk _ _ _ Hok dc lh c Hd)) as Hrem.
  assert (0 ≤ head_of (s_mem s) (LRemote dc) < 2 ^ 48) as Hhr by (simpl; rewrite aba_addr_mod; apply Z.mod_pos_bound; lia).
  rewrite (bf_count _ _ _ _ (i_buf _ _ _ Hok lh0 i Hlh0)), Hrem. split.
  - rewrite aba_next by lia. rewrite Z.mod_small by lia. lia.
  - destruct (g_ls g (LRemote dc)) as [|x q]; simpl in Hz |- *; [by rewrite Hz|]. destruct Hz as (-> & ? & _).
    split; [|done]. lia.
Qed.

Lemma obj_buf_flush_spec Q :
  g_ls g (LBuf lh0 i) ≠ [] →
  (∀ g' h', moved g s g' (upd s h') → moved g s g' (upd s (<[BufDc lh0 i := 0]> h')) →
    g_ls g' (LBuf lh0 i) = [] → Q tt (upd s h')) →
  wp (obj_buf_flush lh0 i) Q s.
Proof.
  intros Hne HQ. pose proof (v_heap _ _ _ Hinv) as Hok. destruct (buf_chunk Hne) as (lh & c & Hd & Hhd & Hfirst & Hb).
  remember (s_mem s (BufDc lh0 i)) as dc eqn:Hdc. pose proof (buf_count dc lh c Hd Hb) as Hlen.
  destruct (flush_heads dc lh c Hd Hhd Hlen) as [Hnew Hzero].
  destruct (i_chunk _ _ _ Hok dc lh c Hd) as [_ _ Ho Hcls _ _ _ _ _ _].
  assert (∀ h', agree (flush_cells g (s_mem s) lh0 i dc lh c) (s_mem s) h' →
    h' (Word (s_mem s (BufFirst lh0 i))) = head_of (s_mem s) (LRemote dc) ∧
    h' (RemoteFreeHead dc) = s_mem s (BufHead lh0 i) + (length (g_ls g (LBuf lh0 i)) + length (g_ls g (LRemote dc))) * 2 ^ 48 ∧
    h' (BufCount lh0 i) = 0 ∧ h' (BufDc lh0 i) = 0 ∧ h' (BufHead lh0 i) = 0 →
    (g_ls g (LRemote dc) = [] → h' (Word dc) = s_mem s (NeedGc lh c) ∧ h' (NeedGc lh c) = dc) → Q tt (upd s h')) as Hfin.
  { intros h' Hag Hv Hn. apply (HQ (flush_g g lh0 i dc lh c)).
    - by apply flush_moved.
    - apply flush_moved; msimpl; try done; [|by destruct Hv as (?&?&?&?&?)].
      apply agree_set; [done|]. unfold flush_cells. tauto.
    - apply (flush_buf0 g (s_mem s) h'). by rewrite bool_decide_eq_true. }
  assert (dc ≠ s_mem s (BufFirst lh0 i)) as Hdf by (intros Heq; rewrite <-Heq in Hfirst; by rewrite Hfirst in Hd).
  unfold obj_buf_flush. repeat wstep. rewrite <-Hdc, Ho. eapply wp_eq; [reflexivity|]. rewrite fn_lookup_insert, Hnew.
  repeat wstep. case_bool_decide as Hr.
  - repeat wstep. msimpl. rewrite Hcls. apply wp_fast_queue_put. uflat. cbn [upd s_mem]. apply Hfin; msimpl; try done.
    assert (bool_decide (g_ls g (LRemote dc) = []) = true) by (apply bool_decide_eq_true; tauto).
    repeat (apply agree_set; [|unfold flush_cells; tauto]). done.
  - repeat wstep. apply Hfin; msimpl; try done; [|tauto].
    repeat (apply agree_set; [|unfold flush_cells; tauto]). done.
Qed.
End buffers.

Lemma moved_freed p g s g1 s1 g2 s2 : moved g s g1 s1 → freed p g1 s1 g2 s2 → freed p g s g2 s2.
Proof.
  intros [_ Hs1 Hl1 Hc1] [Hi2 Hs2 Hl2 Hd2]. split; [done|by eapply stays_trans|congruence|].
  intros q Hq. rewrite Hd2 by done. by rewrite Hc1.
Qed.

Lemma freed_moved p g s g1 s1 g2 s2 : freed p g s g1 s1 → moved g1 s1 g2 s2 → freed p g s g2 s2.
Proof.
  intros [_ Hs1 Hl1 Hd1] [Hi2 Hs2 Hl2 Hc2]. split; [done|by eapply stays_trans|congruence|].
  intros q Hq. rewrite Hc2. apply Hd1. by rewrite <-Hl2.
Qed.

Lemma buffer_freed g s lh i p h' :
  inv HNone g s → g_cs g lh = CHeap → p ∈ g_live g →
  g_ls g (LBuf lh i) = [] ∨ s_mem s (BufDc lh i) = dchunk_extract p → agree (buf_cells lh i p) (s_mem s) h' →
  (h' (BufHead lh i) = p ∧ h' (Word p) = s_mem s (BufHead lh i) ∧ h' (BufCount lh i) = s_mem s (BufCount lh i) + 1 ∧
   h' (BufDc lh i) = dchunk_extract p ∧
   h' (BufFirst lh i) = (if bool_decide (g_ls g (LBuf lh i) = []) then p else s_mem s (BufFirst lh i))) →
  freed p g s (buffer_g g lh i p) (upd s h').
Proof.
  intros Hinv Hlh Hp Hsame Hag Hv. assert (keeps g (buffer_g g lh i p) (s_mem s) h') as Hkp.
  { eapply quiet_keeps; [done|..]; simpl; try done. intros x [->|[->|[->|[-> | ->]]]]; done. }
  split; simpl; try done; [|by apply keeps_stays]. eapply keeps_inv; [done| |done].
  apply (buffer_ok HNone g (s_mem s)); try done. apply (v_heap _ _ _ Hinv).
Qed.

(** An empty buffer starts with [p]. *)
Lemma obj_buf_start g s lh i p :
  inv HNone g s → g_cs g lh = CHeap → p ∈ g_live g → g_ls g (LBuf lh i) = [] →
  wp (set (BufDc lh i) (dchunk_extract p);; set (BufFirst lh i) p;; set (BufCount lh i) 0;; set (BufHead lh i) 0)
    (λ _, wp (seq_queue_put (BufHead lh i) p;; count <- get (BufCount lh i);; set (BufCount lh i) (s32 (count + 1)))
      (λ _ s', ∃ g', freed p g s g' s')) s.
Proof.
  intros Hinv Hlh Hp Hnil. repeat wstep. apply wp_seq_queue_put. repeat wstep. msimpl. eexists.
  pose proof (v_heap _ _ _ Hinv) as Hok. apply buffer_freed; try done; [by left|..].
  - repeat (apply agree_set; [|unfold buf_cells; tauto]). done.
  - msimpl. rewrite bool_decide_true by done. rewrite (bf_count _ _ _ _ (i_buf _ _ _ Hok lh i Hlh)), Hnil.
    pose proof (lk_list _ _ _ _ (i_links _ _ _ Hok) (LBuf lh i) Hlh) as Hz. rewrite Hnil in Hz. simpl in Hz. by rewrite Hz.
Qed.

Lemma obj_buf_put_spec g s lh i dc p :
  inv HNone g s → g_cs g lh = CHeap → p ∈ g_live g → dchunk_extract p = dc →
  wp (obj_buf_put lh i dc p) (λ _ s', ∃ g', freed p g s g' s') s.
Proof.
  intros Hinv Hlh Hp Hdc. unfold obj_buf_put. wstep. wstep.
  assert (0 < dc) as Hpos.
  { subst dc. apply (cdata_pos (v_heap _ _ _ Hinv)). by apply (i_live _ _ _ (v_heap _ _ _ Hinv)). }
  pose proof (i_buf _ _ _ (v_heap _ _ _ Hinv) lh i Hlh) as [Hcnt Hemp _ Hat].
  wstep. case_bool_decide as Hne.
  - wstep. case_bool_decide as Hnz.
    + apply (obj_buf_flush_spec g s Hinv lh i Hlh); [by intros ?%Hemp|]. intros g1 h1 Hmv _ Hnil.
      rewrite <-Hdc. eapply wp_mono; [apply (obj_buf_start g1 (upd s h1)); try done|].
      * apply (mv_inv _ _ _ _ Hmv).
      * by rewrite (mv_cs _ _ _ _ Hmv).
      * by rewrite (mv_live _ _ _ _ Hmv).
      * intros ? s2 Hfr. eapply wp_mono; [exact Hfr|]. intros _ s3 [g3 ?]. exists g3. by eapply moved_freed.
    + wstep. rewrite <-Hdc. apply obj_buf_start; try done. destruct (g_ls g (LBuf lh i)) as [|x q] eqn:Hl; [done|]. exfalso.
      destruct (buf_chunk g s Hinv lh i Hlh) as (lh' & c & Hd & _); [by rewrite Hl|].
      rewrite Hnz in Hd. destruct (cdata_pos (v_heap _ _ _ Hinv) 0); [by rewrite Hd|lia].
  - wstep. wstep. apply wp_seq_queue_put. repeat wstep. msimpl. eexists.
    assert (g_ls g (LBuf lh i) ≠ []) as Hcons by (intros ?%Hemp; lia).
    apply buffer_freed; try done; [by right; rewrite Hne|..].
    + repeat (apply agree_set; [|unfold buf_cells; tauto]). done.
    + msimpl. rewrite bool_decide_false by done. split_and!; try done; [|by rewrite Hne].
      destruct (buf_chunk g s Hinv lh i Hlh Hcons) as (lh' & c & Hd & _ & _ & Hb).
      pose proof (buf_count g s Hinv lh i _ _ _ Hd Hb). apply wrap_s_small; lia.
Qed.

Lemma obj_buf_flush_all_spec g s lh :
  inv HNone g s → g_cs g lh = CHeap →
  wp (obj_buf_flush_all lh) (λ _ s', ∃ g', moved g s g' s') s.
Proof.
  intros Hinv Hlh. unfold obj_buf_flush_all. set (body := λ i : Z, _).
  generalize (Z.to_nat BLOCK_BUF_CNT) as n. intros n. generalize 0 as i.
  revert g s Hinv Hlh. induction n as [|n IH]; intros g s Hinv Hlh i; cbn [mfor].
  { wstep. by exists g. }
  wstep. unfold body at 1. wstep. wstep. pose proof (bf_count _ _ _ _ (i_buf _ _ _ (v_heap _ _ _ Hinv) lh i Hlh)) as Hcnt.
  case_bool_decide as Hz; [wstep; by apply IH|]. wstep.
  apply (obj_buf_flush_spec g s Hinv lh i Hlh).
  { intros Hnil. rewrite Hnil in Hcnt. done. }
  intros g1 h1 _ Hmv _. wstep. eapply wp_mono; [apply (IH g1)|].
  - apply (mv_inv _ _ _ _ Hmv).
  - by rewrite (mv_cs _ _ _ _ Hmv).
  - intros _ s2 [g2 Hmv2]. exists g2. by eapply moved_trans.
Qed.

Lemma remote_free_spec g s t lh dc p :
  inv HNone g s → g_cs g lh = CHeap → p ∈ g_live g → dchunk_extract p = dc →
  wp (remote_free t lh dc p) (λ _ s', ∃ g', freed p g s g' s') s.
Proof.
  intros Hinv Hlh Hp Hdc. unfold remote_free. wstep. eapply wp_mono; [by apply (obj_buf_put_spec g)|].
  intros _ s1 [g1 Hfr]. repeat wstep.
  set (h2 := <[BufCnt t := _]> (s_mem s1)).
  assert (keeps g1 g1 (s_mem s1) h2) as Hkp.
  { apply (quiet_keeps (λ c, c = BufCnt t)); try done; [by apply agree_set|by intros ? ->]. }
  assert (moved g1 s1 g1 (upd s1 h2)) as Hmv.
  { split; [|by apply keeps_stays|done..]. apply (keeps_inv (fr_inv _ _ _ _ _ Hfr)); [|done].
    apply (heap_frame (v_heap _ _ _ (fr_inv _ _ _ _ _ Hfr))); [apply agree_set; [done|by left]|].
    unfold h2. by msimpl. }
  pose proof (freed_moved _ _ _ _ _ _ _ Hfr Hmv) as Hfr2.
  case_bool_decide; [|wstep; eauto]. eapply wp_mono; [apply (obj_buf_flush_all_spec g1)|].
  - apply (fr_inv _ _ _ _ _ Hfr2).
  - by apply (sy_heap _ _ _ _ (fr_stays _ _ _ _ _ Hfr)).
  - intros _ s3 [g3 Hmv3]. exists g3. by eapply freed_moved.
Qed.
