(* ===== verification/SsInit.v ===== *)
(** * Threads and initialisation of SSMalloc

    Specifications of [check_init] and what it calls, and of the destructor
    [thread_exit]. *)

From S2P Require Import Prelude SsSize SsQueue SsMem SsMalloc SsLinks SsInv SsMoves SsRecall SsPool SsSmall SsFree.

Local Open Scope Z_scope.

(** ** The first call *)

Section unready.
Context {H : hole} {g : ghost} {s : st} (Hinv : inv H g s) (Hnr : s_mem s GlobalState ≠ READY).

Lemma unready_none x : g_cs g x = CNone.
Proof.
  destruct (decide (g_cs g x = CNone)) as [|Hn]; [done|]. apply (i_pos _ _ _ (v_heap _ _ _ Hinv)) in Hn as (? & Hhi & _).
  destruct (th_start _ _ _ (v_threads _ _ _ Hinv) Hnr) as (_ & _ & Hfs & _). rewrite Hfs in Hhi.
  assert (0 < RAW_POOL_START ∧ 0 < CHUNK_SIZE) by done. lia.
Qed.

Lemma unready_thread t : s_mem s (ThreadState t) ≠ READY.
Proof. intros Ht. by destruct (th_ready _ _ _ (v_threads _ _ _ Hinv) t Ht) as (_ & _ & ?). Qed.

Lemma unready_pages m : m ∈ s_pages s → outside m.
Proof.
  intros Hm. destruct (pg_where _ _ (v_pages _ _ _ Hinv) m Hm) as [|[? Hhi]]; [done|].
  destruct (pg_pos _ _ (v_pages _ _ _ Hinv) m Hm) as (? & ? & _).
  destruct (th_start _ _ _ (v_threads _ _ _ Hinv) Hnr) as (_ & _ & _ & Hpe). rewrite Hpe in Hhi. unfold POOL_SKEW in Hhi. lia.
Qed.
End unready.

(** ** Idle heaps *)

Section idle.
Context {g : ghost} {h h' : mem} (hs : list Z) (Hok : heap_ok HNone g h).
Context (Hag : agree (λ c, c = FreeLhHead get_core_id ∨ ∃ x, c = Word x ∧ g_cs g x = CHeap ∧ x ∉ g_ls g LHeaps) h h').

Definition idle_g : ghost := Ghost (<[LHeaps := hs]> (g_ls g)) (g_cs g) (g_bg g) (g_live g) (g_large g).

Context (Hlk : links (words h') (head_of h') (valid (g_cs g)) (g_ls idle_g)) (Hhs : ∀ x, x ∈ hs → g_cs g x = CHeap).

Lemma idle_ok : heap_ok HNone idle_g h'.
Proof.
  assert (∀ c, c ≠ FreeLhHead get_core_id → (∀ a, c ≠ Word a) → h' c = h c) as Hk.
  { intros c Hc Hw. apply Hag. intros [?|(x & -> & _)]; [done|by destruct (Hw x)]. }
  assert (∀ l, l ≠ LHeaps → g_ls idle_g l = g_ls g l) as Hls by (intros; simpl; by rewrite fn_lookup_insert_ne).
  assert (∀ x y, block h x y → block h' x y) as Hb by (intros x y (i & ? & ? & ?); exists i; by rewrite !Hk).
  destruct (Hok). split; try done; intros *; rewrite ?Hls, ?Hk by done; auto.
  - intros Hl. rewrite Hls by (by intros ->). intros Hx. destruct (i_blk _ _ Hl Hx). auto.
  - intros Hx. destruct (i_buf lh i Hx). split; intros *; rewrite ?Hls, ?Hk by done; auto.
  - intros Hx. destruct (i_live _ Hx) as (? & ? & Hno). split_and!; auto. intros l. destruct (decide (l = LHeaps)) as [->|].
    + simpl. rewrite fn_lookup_insert. intros Hin%Hhs. rewrite (live_not_chunk Hok x Hx) in Hin. done.
    + by rewrite Hls.
  - intros Hx. destruct (i_chunk _ _ _ Hx). split; simpl; rewrite ?fn_lookup_insert_ne, ?Hk by done; done.
  - intros Hx. destruct (i_bg lh c Hx) as [? ? Hseg ?]. split; rewrite ?Hk by done; try done.
    eapply dseg_frame; [|done]. intros. by rewrite !Hk.
Qed.
End idle.

(** Only threads and idle heaps change. *)
Definition thread_cell (c : cell) : bool :=
  match c with ThreadState _ | LocalHeap _ | BufCnt _ | FreeLhHead _ | Word _ => true | _ => false end.

Lemma threads_inv g g' s h' :
  inv HNone g s → agree (λ c, thread_cell c = true) (s_mem s) h' → heap_ok HNone g' h' →
  g_large g' = g_large g → threads_ok h' g' (s_maps s) → inv HNone g' (upd s h').
Proof.
  intros [_ Hpl Hpg Hlg Hsep _] Hag Hok Hl Hth. split; simpl; try done; rewrite ?Hl; try done.
  - destruct Hpl as [? ? ? ? ? Hr]. split; rewrite ?Hag by done; try done.
    intros Hrd. destruct (Hr Hrd). split; by rewrite ?Hag by done.
  - destruct Hpg. split; rewrite ?Hag by done; done.
  - intros p m Hp. destruct (Hlg p m Hp). split; rewrite ?Hag by done; done.
Qed.

Section init.
Context (mmap : nat → Z → Z → list mapping → Z) (Hmm : mmap_contract mmap).

(** The pool and the tables are there. *)
Record started (g : ghost) (s s' : st) : Prop := {
  sd_inv : inv HNone g s';
  sd_ready : s_mem s' GlobalState = READY;
  sd_threads t : s_mem s' (ThreadState t) = s_mem s (ThreadState t) ∧ s_mem s' (LocalHeap t) = s_mem s (LocalHeap t);
}.

Definition init_cell (c : cell) : bool :=
  match c with PoolStart | PoolEnd | FreeStart | LastAlloc | GlobalState | InitOnce => true | _ => false end.

Lemma global_init_inv g s s1 s2 e :
  inv HNone g s → s_mem s GlobalState ≠ READY →
  s1 = upd s (<[FreeStart := RAW_POOL_START]> (<[PoolEnd := RAW_POOL_START]> (<[PoolStart := RAW_POOL_START]> (<[InitOnce := 1]> (s_mem s))))) →
  grown s1 s2 e → started g s (St (<[GlobalState := READY]> (s_mem s2)) tables (s_calls s2) (s_pages s2)).
Proof.
  intros Hinv Hnr Hs1 Hgr. pose proof (unready_none Hinv Hnr) as Hnone. pose proof (unready_pages Hinv Hnr) as Hout.
  pose proof (unready_thread Hinv Hnr) as Hth. pose proof Hgr as [Hp _ [He Hem] Hend Hlim Hlast Hag].
  set (h' := <[GlobalState := READY]> (s_mem s2)).
  assert (agree (λ c, init_cell c = true) (s_mem s) h') as Hag'.
  { intros c Hc. unfold h'. rewrite fn_lookup_insert_ne by (by intros <-). rewrite Hag by (by intros [-> | ->]).
    subst s1. simpl. rewrite !fn_lookup_insert_ne by (by intros <-). done. }
  assert (h' FreeStart = RAW_POOL_START ∧ h' PoolEnd = RAW_POOL_START + e ∧ h' LastAlloc = s_mem s2 LastAlloc) as (Hfs & Hpe & Hla).
  { unfold h'. msimpl. rewrite (Hag FreeStart), Hend by (by intros [?|?]). subst s1. simpl. by msimpl. }
  assert (pages_ok (s_mem s1) (s_pages s1)) as Hpg1.
  { destruct (v_pages _ _ _ Hinv). subst s1. split; simpl; auto. }
  assert (s_mem s1 PoolEnd = RAW_POOL_START) as Hpe1 by (subst s1; simpl; by msimpl).
  assert (0 < RAW_POOL_START ∧ RAW_POOL_START `mod` PAGE_SIZE = POOL_SKEW ∧ RAW_POOL_START `mod` CHUNK_SIZE = 0) as (? & ? & ?) by done.
  assert (pool_ok h' (s_pages s2)) as Hpool.
  { rewrite Hpe1 in Hlim. split; rewrite ?Hfs, ?Hpe, ?Hla; try done; try lia.
    - intros a Ha. rewrite Hp. apply mapped_here. rewrite Hpe1. unfold POOL_SKEW in *. lia.
    - intros _. split; rewrite ?Hfs, ?Hpe; [lia|]. rewrite Zplus_mod, Hem. by rewrite H0. }
  assert (∀ t, h' (ThreadState t) = s_mem s (ThreadState t) ∧ h' (LocalHeap t) = s_mem s (LocalHeap t)) as Ht.
  { intros t. by rewrite !Hag'. }
  split; simpl; [|unfold h'; by msimpl|done]. split; simpl.
  - apply (heap_frame (v_heap _ _ _ Hinv)).
    + eapply agree_weaken; [done|]. intros c Hc. left. by destruct c.
    + rewrite Hfs. destruct (th_start _ _ _ (v_threads _ _ _ Hinv) Hnr) as (_ & _ & -> & _). lia.
  - done.
  - destruct (grown_pages s1 s2 e Hgr Hpg1 ltac:(rewrite Hpe1; lia)). split; try done.
  - intros p m Hpm. destruct (v_large _ _ _ Hinv p m Hpm). split; rewrite ?Hag' by done; try done.
    rewrite Hp. right. subst s1. done.
  - apply (v_large_sep _ _ _ Hinv).
  - split; intros *; rewrite ?(proj1 (Ht _)), ?(proj2 (Ht _)); try (by intros ?%Hth).
    + by apply (th_unready _ _ _ (v_threads _ _ _ Hinv)).
    + done.
    + intros Hn. destruct Hn. unfold h'. by msimpl.
Qed.

Lemma global_init_spec g s :
  inv HNone g s → s_mem s GlobalState ≠ READY →
  wp (set InitOnce 1;; global_init mmap) (λ _ s', started g s s') s.
Proof.
  intros Hinv Hnr. pose proof (unready_pages Hinv Hnr) as Hout. unfold global_init, gpool_init. repeat wstep.
  set (h1 := <[FreeStart := _]> _).
  assert (h1 PoolEnd = RAW_POOL_START ∧ h1 LastAlloc = s_mem s LastAlloc) as [Hpe Hla] by (unfold h1; by msimpl).
  eapply wp_mono; [apply (gpool_grow_spec mmap Hmm); cbn [upd s_mem s_pages]; rewrite ?Hpe, ?Hla; try done|].
  - apply (pl_last _ _ (v_pool _ _ _ Hinv)).
  - intros m Hm%Hout. by left.
  - intros _ s2 [e Hgr]. wstep. assert (s_maps s2 = maps0) as Hm0.
    { rewrite (gr_maps _ _ _ Hgr). by apply (th_start _ _ _ (v_threads _ _ _ Hinv)). }
    unfold wp at 1. rewrite Hm0, maps_init_tables. wstep. by apply (global_init_inv g s (upd s h1) s2 e).
Qed.

(** ** A new heap *)

Lemma foreground_loop lh d n i s :
  wp (mfor n i (λ c, set (Foreground lh c) d))
    (λ _ s', ∃ h', s' = upd s h' ∧ (∀ c, i ≤ c < i + n → h' (Foreground lh c) = d) ∧
      ∀ x, (∀ c, i ≤ c → x ≠ Foreground lh c) → h' x = s_mem s x) s.
Proof.
  revert i s. induction n as [|n IH]; intros i s; cbn [mfor].
  - wstep. exists (s_mem s). split_and!; [by destruct s|lia|done].
  - repeat wstep. eapply wp_mono; [apply IH|]. intros _ ? (h' & -> & Hin & Hout). exists h'. split_and!; [done|..].
    + intros c Hc. destruct (decide (c = i)) as [->|]; [|apply Hin; lia].
      rewrite Hout by (intros c' ? [= ?]; lia). simpl. by msimpl.
    + intros x Hx. rewrite Hout by (intros; apply Hx; lia). simpl. rewrite fn_lookup_insert_ne; [done|].
      intros Heq. by apply (Hx i); [lia|].
Qed.

Lemma lheap_clear_cells lh h : lh `mod` CHUNK_SIZE = 0 → agree (heap_cells lh) h (lheap_clear lh h).
Proof.
  intros Hm c Hc. unfold lheap_clear. destruct c; simpl in Hc; try done; try (by rewrite bool_decide_false).
  destruct (Z.leb_spec (lh + 32) a), (Z.ltb_spec a (lh + 32 + 9664)); try done.
  destruct Hc. apply extract_at; [done|]. change CHUNK_SIZE with 65792. lia.
Qed.

Lemma lheap_init_spec g s lh :
  inv HNone g s → g_cs g lh = CLimbo →
  wp (lheap_init lh) (λ _ s', inv HNone (new_heap_g g lh) s' ∧ stays g (new_heap_g g lh) s s') s.
Proof.
  intros Hinv Hcs. pose proof (v_heap _ _ _ Hinv) as Hok. destruct (i_pos _ _ _ Hok lh) as (_ & _ & Hm & _); [by rewrite Hcs|].
  unfold lheap_init. wstep. unfold modify, wp at 1. cbn [s_mem s_maps s_calls s_pages].
  set (h1 := lheap_clear lh (s_mem s)). change (St h1 _ _ _) with (upd s h1). repeat wstep.
  eapply wp_mono; [apply foreground_loop|]. intros _ ? (h' & -> & Hfg & Hrest). uflat. cbn [upd s_mem] in Hrest.
  set (d := lh + dummy_offset) in *.
  assert (∀ x, (∀ c, x ≠ Foreground lh c) → x ≠ SizeCls d → x ≠ FreeBlkCnt d → h' x = h1 x) as Hk.
  { intros x H1 H2 H3. rewrite Hrest by auto. by rewrite !fn_lookup_insert_ne by congruence. }
  assert (agree (heap_cells lh) (s_mem s) h') as Hag.
  { intros x Hx. rewrite Hk; [by apply lheap_clear_cells|..]; try (intros ->; apply Hx; simpl; tauto). intros c ->. by apply Hx. }
  assert (keeps g (new_heap_g g lh) (s_mem s) h') as Hkp.
  { split; simpl; try done.
    - intros x Hg. apply Hag. intros Hc. by destruct x.
    - intros x Hx Hxm. apply Hag. simpl. intros [-> | ->]; [by rewrite fn_lookup_insert in Hx|].
      rewrite Zplus_mod, Hm in Hxm. done.
    - intros x Hx. rewrite fn_lookup_insert_ne; [done|]. intros <-. congruence. }
  split; [|by apply keeps_stays]. eapply keeps_inv; [done| |done].
  apply (new_heap_ok HNone g (s_mem s)); try done; intros; rewrite ?Hk by done; unfold h1; simpl; rewrite ?bool_decide_true by auto; try done.
  fold d. rewrite (Hk (FreeHead d)), !Hrest by done. msimpl. split_and!; try done.
  unfold h1. simpl. by rewrite bool_decide_true by auto.
Qed.

(** The heap [lh] belongs to nobody else. *)
Record own_heap (g : ghost) (s : st) (lh : Z) (g' : ghost) (s' : st) : Prop := {
  oh_inv : inv HNone g' s';
  oh_stays : stays g g' s s';
  oh_holds : holds g g';
  oh_live : g_live g' = g_live g;
  oh_heap : g_cs g' lh = CHeap;
  oh_idle : lh ∉ g_ls g' LHeaps;
  oh_excl t : s_mem s (ThreadState t) = READY → s_mem s (LocalHeap t) ≠ lh;
}.

Lemma reuse_heap g s lh hs :
  inv HNone g s → g_ls g LHeaps = lh :: hs →
  own_heap g s lh (idle_g (g := g) hs)
    (upd s (<[FreeLhHead get_core_id := Z.lor (s_mem s (Word lh)) (u64 (ABA_COUNT (s_mem s (FreeLhHead get_core_id)) + ABA_COUNT_ONE))]> (s_mem s))).
Proof.
  intros Hinv Hl. pose proof (v_heap _ _ _ Hinv) as Hok. set (h' := <[_ := _]> (s_mem s)).
  assert (lh ∈ g_ls g LHeaps) as Hin by (rewrite Hl; by left).
  destruct (list_word_range _ _ _ _ _ _ Hinv Hl I) as [_ Hw].
  assert (ABA_ADDR (h' (FreeLhHead get_core_id)) = s_mem s (Word lh)) as Hhd.
  { unfold h'. msimpl. replace ABA_COUNT_ONE with (ABA_COUNT_ONE * 1) by lia. by apply aba_addr_lor. }
  assert (links (words h') (head_of h') (valid (g_cs g)) (g_ls (idle_g (g := g) hs))) as Hlk.
  { apply (links_pop (i_links _ _ _ Hok) LHeaps lh hs); try done.
    intros l _. destruct (decide (l = LHeaps)) as [->|Hne]; [by rewrite fn_lookup_insert|].
    rewrite fn_lookup_insert_ne by done. unfold h'. destruct l; simpl; by msimpl. }
  assert (NoDup (lh :: hs)) as [Hnd _]%NoDup_cons by (rewrite <-Hl; apply (i_links _ _ _ Hok)).
  split; simpl; try done.
  - apply (threads_inv g); try done.
    + by apply agree_set.
    + apply (idle_ok hs Hok); [by apply agree_set; [|left]|done|].
      intros x Hx. apply (i_heaps _ _ _ Hok). rewrite Hl. by right.
    + destruct (v_threads _ _ _ Hinv) as [Hr ? ? ? ?]. split; intros *; unfold h'; msimpl; auto. simpl.
      intros (? & Hn & ?)%Hr. rewrite fn_lookup_insert. split_and!; try done. rewrite Hl in Hn. set_solver.
  - by intros x d Hx.
  - by apply (i_heaps _ _ _ Hok).
  - intros t Ht <-. by destruct (th_ready _ _ _ (v_threads _ _ _ Hinv) t Ht) as (_ & ? & _).
Qed.

Lemma gpool_acquire_lheap_spec g s :
  inv HNone g s → s_mem s GlobalState = READY →
  wp (gpool_acquire_lheap mmap) (λ lh s', ∃ g', own_heap g s lh g' s') s.
Proof.
  intros Hinv Hrdy. pose proof (v_heap _ _ _ Hinv) as Hok. unfold gpool_acquire_lheap. wstep.
  pose proof (lk_list _ _ _ _ (i_links _ _ _ Hok) LHeaps I) as Hz. simpl in Hz.
  apply wp_queue_fetch; intros Hhd.
  - rewrite bool_decide_true by done. wstep.
    eapply wp_mono; [by apply (gpool_acquire_chunk_spec mmap Hmm HNone g s)|].
    intros lh s1 (ls' & Hpos & [Hinv1 Hold Hls Hmem Hsy]). wstep.
    eapply wp_mono; [apply (lheap_init_spec _ s1 lh Hinv1); simpl; by rewrite fn_lookup_insert|].
    intros _ s2 [Hinv2 Hsy2]. wstep. eexists. split; simpl; try done.
    + by eapply stays_trans.
    + intros x d Hx. simpl. destruct (decide (x = lh)) as [->|]; [|by rewrite !fn_lookup_insert_ne].
      destruct (g_cs g lh); done.
    + simpl. by rewrite fn_lookup_insert.
    + simpl. rewrite Hls by done. intros Hin%(i_heaps _ _ _ Hok). by rewrite Hin in Hold.
    + intros t Ht <-. destruct (th_ready _ _ _ (v_threads _ _ _ Hinv) t Ht) as (Hh & _). by rewrite Hh in Hold.
  - destruct (g_ls g LHeaps) as [|lh hs] eqn:Hl; [done|]. destruct Hz as (-> & Hpos & _).
    rewrite bool_decide_false by lia. wstep. eexists. by apply reuse_heap.
Qed.

(** ** Threads *)

(** The thread [t] has a heap. *)
Record inited (t : tid) (g : ghost) (s : st) (g' : ghost) (s' : st) : Prop := {
  in_inv : inv HNone g' s';
  in_ready : s_mem s' (ThreadState t) = READY;
  in_holds : holds g g';
  in_live : g_live g' = g_live g;
  in_large : g_large g' = g_large g;
}.

Lemma thread_init_spec g s t :
  inv HNone g s → s_mem s GlobalState = READY → s_mem s (ThreadState t) ≠ READY →
  wp (thread_init mmap t) (λ _ s', ∃ g', inited t g s g' s') s.
Proof.
  intros Hinv Hrdy Hnt. unfold thread_init. wstep. eapply wp_mono; [by apply gpool_acquire_lheap_spec|].
  intros lh s1 [g1 [Hinv1 Hsy Hho Hli Hhp Hid Hex]]. repeat wstep. exists g1.
  set (h' := <[ThreadState t := READY]> _). split; simpl; try done.
  - apply (threads_inv g1); try done.
    + repeat (apply agree_set; [|done]). done.
    + apply (heap_frame (v_heap _ _ _ Hinv1)); [|unfold h'; by msimpl]. repeat (apply agree_set; [|by left]). done.
    + assert (∀ t', t' ≠ t → h' (ThreadState t') = s_mem s1 (ThreadState t') ∧ h' (LocalHeap t') = s_mem s1 (LocalHeap t')) as Ht.
      { intros t' Hne. unfold h'. by msimpl. }
      assert (h' (ThreadState t) = READY ∧ h' (LocalHeap t) = lh ∧ h' GlobalState = READY) as (Ht1 & Ht2 & Hg).
      { unfold h'. msimpl. split_and!; try done. by rewrite (sy_glob _ _ _ _ Hsy). }
      assert (∀ t', s_mem s1 (ThreadState t') = READY → s_mem s1 (LocalHeap t') ≠ lh) as Hex1.
      { intros t'. destruct (sy_thread _ _ _ _ Hsy t') as [-> ->]. apply Hex. }
      destruct (v_threads _ _ _ Hinv1) as [Hr1 Hr2 Hr3 Hr4 _]. rewrite (sy_glob _ _ _ _ Hsy) in Hr4. split.
      * intros t'. destruct (decide (t' = t)) as [->|Hne]; [by rewrite Ht1, Ht2, Hg|].
        destruct (Ht t' Hne) as [-> ->]. rewrite Hg. intros Hr. by destruct (Hr1 t' Hr) as (? & ? & _).
      * intros t'. destruct (decide (t' = t)) as [->|Hne]; [by rewrite Ht1|]. destruct (Ht t' Hne) as [-> ->]. auto.
      * intros t1 t2. destruct (decide (t1 = t)) as [->|Hne1], (decide (t2 = t)) as [->|Hne2]; [done|..];
          rewrite ?Ht1, ?Ht2, ?(proj1 (Ht _ Hne1)), ?(proj2 (Ht _ Hne1)), ?(proj1 (Ht _ Hne2)), ?(proj2 (Ht _ Hne2)).
        -- intros _ Hr Heq. by destruct (Hex1 t2 Hr).
        -- intros Hr _ Heq. by destruct (Hex1 t1 Hr).
        -- apply Hr3.
      * rewrite Hg. auto.
      * by rewrite Hg.
  - unfold h'. by msimpl.
  - apply (sy_large _ _ _ _ Hsy).
Qed.

Lemma check_init_spec g s t :
  inv HNone g s → wp (check_init mmap t) (λ _ s', ∃ g', inited t g s g' s') s.
Proof.
  intros Hinv. unfold check_init. repeat wstep. case_bool_decide as Ht.
  2: { repeat wstep. exists g. split; try done. by intros x d Hx. }
  repeat wstep. case_bool_decide as Hg.
  - destruct (th_start _ _ _ (v_threads _ _ _ Hinv) Hg) as (_ & Honce & _). repeat wstep. rewrite Honce, bool_decide_true by done.
    eapply wp_mono; [by apply global_init_spec|]. intros _ s1 [Hinv1 Hr1 Ht1].
    eapply wp_mono; [apply (thread_init_spec g s1 t); try done; by rewrite (proj1 (Ht1 t))|].
    intros _ s2 [g2 [? ? ? ? ?]]. exists g2. by split.
  - wstep. by apply thread_init_spec.
Qed.
End init.

(** A heap with a thread is in no list. *)
Lemma heap_unlisted H g h lh l : heap_ok H g h → g_cs g lh = CHeap → lh ∉ g_ls g LHeaps → lh ∉ g_ls g l.
Proof.
  intros Hok Hlh Hn Hin. destruct (is_blk l) eqn:Hb.
  { apply (block_not_chunk Hok) in Hin; [congruence|done]. }
  destruct l; try done.
  - apply (i_need _ _ _ Hok) in Hin as [Hin _]. by rewrite Hlh in Hin.
  - apply (i_local _ _ _ Hok) in Hin. congruence.
  - apply (i_global _ _ _ Hok) in Hin. congruence.
Qed.

Lemma idle_push g h h' lh :
  heap_ok HNone g h → g_cs g lh = CHeap → lh ∉ g_ls g LHeaps →
  agree (λ c, c = FreeLhHead get_core_id ∨ c = Word lh) h h' →
  h' (Word lh) = head_of h LHeaps → head_of h' LHeaps = lh →
  heap_ok HNone (idle_g (g := g) (lh :: g_ls g LHeaps)) h'.
Proof.
  intros Hok Hlh Hn Hag Hw Hhd. apply (idle_ok (lh :: g_ls g LHeaps) Hok).
  - eapply agree_weaken; [done|]. intros c [->| ->]; [by left|right]. by exists lh.
  - apply (links_push (i_links _ _ _ Hok)).
    + done.
    + intros l. by apply (heap_unlisted HNone g h).
    + apply (cs_pos Hok). by rewrite Hlh.
    + intros a. destruct (decide (a = lh)) as [->|]; [by rewrite fn_lookup_insert|].
      rewrite fn_lookup_insert_ne by done. apply Hag. by intros [?|[= ->]].
    + intros l _. destruct (decide (l = LHeaps)) as [->|]; [by rewrite fn_lookup_insert|].
      rewrite fn_lookup_insert_ne by done. destruct l; simpl; try rewrite Hag by (by intros [?|?]); done.
  - intros x [->|Hx]%elem_of_cons; [done|]. by apply (i_heaps _ _ _ Hok).
Qed.

(** The thread [t] gives its heap away. *)
Lemma exit_threads g h h' m t :
  threads_ok h g m → h (ThreadState t) = READY → h' (ThreadState t) ≠ READY → h' (LocalHeap t) = 0 →
  (∀ t', t' ≠ t → h' (ThreadState t') = h (ThreadState t') ∧ h' (LocalHeap t') = h (LocalHeap t')) →
  h' GlobalState = h GlobalState →
  threads_ok h' (idle_g (g := g) (h (LocalHeap t) :: g_ls g LHeaps)) m.
Proof.
  intros [Hr1 Hr2 Hr3 Hr4 Hr5] Ht Hv1 Hv2 Hoth Hg. destruct (Hr1 t Ht) as (_ & _ & Hrdy).
  assert (∀ t', h' (ThreadState t') = READY → t' ≠ t) as Hne by (intros t' ? ->; done).
  split; rewrite ?Hg; try done; simpl.
  - intros t' Ht'. destruct (Hoth t' (Hne t' Ht')) as [Ho1 ->]. rewrite Ho1 in Ht'. destruct (Hr1 t' Ht') as (? & ? & ?).
    rewrite fn_lookup_insert. split_and!; try done. rewrite not_elem_of_cons. split; [|done].
    intros Heq. destruct (Hne t'); [congruence|]. by apply Hr3.
  - intros t'. destruct (decide (t' = t)) as [->|Hn]; [done|]. destruct (Hoth t' Hn) as [-> ->]. auto.
  - intros t1 t2 H1 H2. destruct (Hoth t1 (Hne _ H1)) as [Ho1 ->], (Hoth t2 (Hne _ H2)) as [Ho2 ->]. apply Hr3; congruence.
Qed.

Lemma thread_exit_spec g s t :
  inv HNone g s → s_mem s (ThreadState t) = READY →
  wp (thread_exit t;; thread_gone t) (λ _ s', ∃ g', inv HNone g' s' ∧ g_live g' = g_live g ∧ g_large g' = g_large g ∧ g_cs g' = g_cs g) s.
Proof.
  intros Hinv Ht. pose proof (v_heap _ _ _ Hinv) as Hok. set (lh := s_mem s (LocalHeap t)).
  destruct (th_ready _ _ _ (v_threads _ _ _ Hinv) t Ht) as (Hlh & Hidle & Hg). fold lh in Hlh, Hidle.
  destruct (i_pos _ _ _ Hok lh) as (Hlo & Hhi & _ & Hnuma); [by rewrite Hlh|].
  assert (0 < lh < 2 ^ 48) as Hrange.
  { destruct (v_pool _ _ _ Hinv) as [? ? _ _ _ _].
    assert (0 < RAW_POOL_START ∧ 0 < CHUNK_SIZE ∧ POOL_SKEW = 256 ∧ POOL_LIMIT = 0x700000000000) as (?&?&?&?) by done. lia. }
  unfold thread_exit, thread_gone, gpool_release_lheap. repeat wstep. fold lh. rewrite Hnuma. change 0 with get_core_id at 1.
  apply wp_queue_put. set (h1 := <[FreeLhHead _ := _]> _).
  assert (heap_ok HNone (idle_g (g := g) (lh :: g_ls g LHeaps)) h1) as Hok1.
  { apply (idle_push g (s_mem s)); try done; unfold h1; simpl; msimpl; try done.
    - repeat (apply agree_set; [|tauto]). done.
    - replace ABA_COUNT_ONE with (ABA_COUNT_ONE * 1) by lia. apply aba_addr_lor. lia. }
  repeat wstep. set (h' := <[BufCnt t := 0]> _). exists (idle_g (g := g) (lh :: g_ls g LHeaps)).
  split_and!; try done. apply (threads_inv g); try done.
  - unfold h', h1. repeat (apply agree_set; [|done]). done.
  - apply (heap_frame Hok1); [|unfold h'; by msimpl]. unfold h'. repeat (apply agree_set; [|by left]). done.
  - apply (exit_threads g (s_mem s)); [apply (v_threads _ _ _ Hinv)|done|..]; unfold h', h1; try (intros t' Hne); by msimpl.
Qed.
