(* ===== verification/SsLarge.v ===== *)
(** * Large blocks of SSMalloc

    Specifications of [large_malloc] and [large_free]: a large block lies in
    pages of its own, behind a header that the address of the block leads to. *)

From S2P Require Import Prelude SsSize SsQueue SsMem SsMalloc SsLinks SsInv SsMoves SsPool.

Local Open Scope Z_scope.

(** ** Arithmetic *)

Lemma page_roundup x : 0 ≤ x ≤ 2 ^ 64 - PAGE_SIZE → x ≤ PAGE_ROUNDUP x < x + PAGE_SIZE.
Proof.
  intros Hx. unfold PAGE_ROUNDUP, ROUNDUP. change PAGE_SIZE with 4096 in *. rewrite wrap_u_small by lia.
  set (y := x + 4096 - 1). assert (0 ≤ y < 2 ^ 64) as Hy by lia.
  assert (u64 (Z.lnot (4096 - 1)) = Z.land (Z.lnot (Z.ones 12)) (Z.ones 64)) as -> by done.
  rewrite (Z.land_comm _ (Z.ones 64)), Z.land_assoc, (Z.land_ones y), Z.mod_small by lia.
  rewrite <-Z.ldiff_land, Z.ldiff_ones_r by lia. rewrite Z.shiftl_mul_pow2, Z.shiftr_div_pow2 by lia.
  pose proof (Z.div_mod y (2 ^ 12) ltac:(lia)). pose proof (Z.mod_pos_bound y (2 ^ 12) ltac:(lia)). lia.
Qed.

(** Where the header of a large block is: [large_malloc] never needs a second
    round. *)
Lemma large_distance mem :
  mem `mod` PAGE_SIZE = 0 →
  let mem_start := mem + CHUNK_SIZE - CACHE_LINE_SIZE in
  mem ≤ dchunk_extract mem_start ∧ sizeof_large_header ≤ mem_start - dchunk_extract mem_start.
Proof.
  intros Hm mem_start. unfold dchunk_extract. pose proof (Z.div_mod mem PAGE_SIZE ltac:(done)) as Hd. rewrite Hm in Hd.
  assert (mem_start `mod` CHUNK_SIZE = (mem - 64) `mod` CHUNK_SIZE) as ->.
  { unfold mem_start. change CACHE_LINE_SIZE with 64. replace (mem + CHUNK_SIZE - 64) with (mem - 64 + 1 * CHUNK_SIZE) by lia.
    by rewrite Z_mod_plus_full. }
  pose proof (Z.div_mod (mem - 64) CHUNK_SIZE ltac:(done)). pose proof (Z.mod_pos_bound (mem - 64) CHUNK_SIZE ltac:(done)).
  unfold mem_start. change CHUNK_SIZE with (256 * 257) in *. change PAGE_SIZE with (256 * 16) in *.
  change CACHE_LINE_SIZE with 64. change sizeof_large_header with 128.
  set (q := (mem - 64) / (256 * 257)) in *. set (r := (mem - 64) `mod` (256 * 257)) in *. lia.
Qed.

Lemma mapped_spec pages a : mapped pages a = true ↔ ∃ m : mapping, m ∈ pages ∧ m.1 ≤ a < m.1 + m.2.
Proof.
  unfold mapped. rewrite List.existsb_exists. split.
  - intros ([p n] & Hin & [? ?]%andb_prop). exists (p, n). split; [by apply list_elem_of_In|]. simpl. lia.
  - intros ([p n] & Hin & Ha). exists (p, n). split; [by apply list_elem_of_In|]. simpl in Ha. lia.
Qed.

(** ** Allocation *)

Definition large_g (g : ghost) (large : gmap Z mapping) : ghost :=
  Ghost (g_ls g) (g_cs g) (g_bg g) (g_live g) large.

(** The invariant of the chunks does not see large blocks. *)
Lemma large_heap H g h h' large :
  heap_ok H g h → agree (λ c, outer_cell c = true ∨ ∃ x, c = Owner x ∧ g_cs g x = CNone) h h' →
  h FreeStart ≤ h' FreeStart → heap_ok H (large_g g large) h'.
Proof.
  intros Hok Hag Hfs. assert (heap_ok H g h') as [] by (apply (heap_frame Hok); [eapply agree_weaken; [done|]; intros c [?|?]; auto|done]).
  split; try done.
  - intros lh i Hl. by destruct (i_buf lh i Hl).
  - intros dc lh c Hd. by destruct (i_chunk dc lh c Hd).
Qed.

(** A large block in fresh pages. *)
Record new_large (s : st) (size p : Z) (m : mapping) : Prop := {
  nl_head : m.1 ≤ dchunk_extract p;
  nl_room : dchunk_extract p + sizeof_large_header ≤ p;
  nl_size : p + size ≤ m.1 + m.2;
  nl_pos : 0 < m.1 ∧ 0 < m.2 ∧ m.1 + m.2 ≤ 2 ^ 47;
  nl_out : outside m;
  nl_disj m' : m' ∈ s_pages s → disj m m';
}.

Lemma header_disj s size p m p' m' :
  new_large s size p m → 0 ≤ size → large_ok (s_mem s) (s_pages s) p' m' → dchunk_extract p' ≠ dchunk_extract p.
Proof.
  intros [Hh Hr Hs Hp Ho Hd] Hsz [Hin _ Hh' Hr' _ _ _] Heq. specialize (Hd m' Hin).
  unfold disj, sizeof_large_header in *. lia.
Qed.

Lemma large_inv g s size p m :
  inv HNone g s → 0 ≤ size → new_large s size p m →
  let hd := dchunk_extract p in
  let h' := <[Owner hd := LARGE_OWNER]> (<[Mem hd := m.1]> (<[AllocSize hd := m.2]> (s_mem s))) in
  inv HNone (large_g g (<[p := m]> (g_large g))) (St h' (s_maps s) (S (s_calls s)) (m :: s_pages s)) ∧ g_large g !! p = None.
Proof.
  intros Hinv Hsz Hnl hd h'. pose proof Hnl as [Hh Hr Hs Hp Ho Hd].
  assert (g_large g !! p = None) as Hnew.
  { destruct (g_large g !! p) as [m'|] eqn:Hm; [|done]. by destruct (header_disj s size p m p m' Hnl Hsz (v_large _ _ _ Hinv p m' Hm)). }
  assert (m ∉ s_pages s) as Hmn by (intros Hm%Hd; unfold disj in Hm; lia).
  assert (g_cs g hd = CNone) as Hcn.
  { destruct (decide (g_cs g hd = CNone)) as [|Hn]; [done|]. apply (i_pos _ _ _ (v_heap _ _ _ Hinv)) in Hn as (Hlo & Hhi & _).
    destruct (v_pool _ _ _ Hinv) as [? ? _ _ _ _]. unfold outside, POOL_SKEW, sizeof_large_header, hd in *.
    assert (CHUNK_SIZE = 65792) by done. lia. }
  assert (∀ c, glob_cell c = true → c ≠ AllocSize hd → c ≠ Mem hd → h' c = s_mem s c) as Hg.
  { intros c ? ? ?. unfold h'. by rewrite !fn_lookup_insert_ne by (intros <-; done). }
  split; [|done]. split; simpl.
  - apply (large_heap HNone g (s_mem s)); [apply (v_heap _ _ _ Hinv)| |by rewrite Hg].
    unfold h'. apply agree_set; [|by right; exists hd]. repeat (apply agree_set; [|by left]). done.
  - destruct (v_pool _ _ _ Hinv) as [? ? ? Hmap ? Hrd]. split; rewrite ?Hg by done; try done.
    + intros a Ha. by apply mapped_cons, Hmap.
    + intros Hr'. destruct (Hrd Hr'). split; by rewrite ?Hg by done.
  - destruct (v_pages _ _ _ Hinv) as [? Hds ? ?]. split; rewrite ?Hg by done.
    + by constructor.
    + intros m1 m2 [->|H1]%elem_of_cons [->|H2]%elem_of_cons Hne; [done|by auto| |by auto]. destruct (Hd m1 H1); [by right|by left].
    + intros m1 [->|H1]%elem_of_cons; [done|auto].
    + intros m1 [->|H1]%elem_of_cons; [by left|auto].
  - intros p' m' [[<- <-]|[Hne Hm']]%lookup_insert_Some.
    + split; fold hd; try done; [by left|fold hd in Hr; lia|..]; unfold h'; msimpl; done.
    + pose proof (v_large _ _ _ Hinv p' m' Hm') as Hl'. pose proof (header_disj s size p m p' m' Hnl Hsz Hl') as Hne'. fold hd in Hne'.
      destruct Hl'. split; try done; [by right|..]; unfold h'; msimpl; done.
  - intros p1 p2 m' [[<- <-]|[Hn1 Hm1]]%lookup_insert_Some [[<- Heq]|[Hn2 Hm2]]%lookup_insert_Some; try done.
    + destruct Hmn. apply (lg_page _ _ _ _ (v_large _ _ _ Hinv p2 m Hm2)).
    + subst m'. destruct Hmn. apply (lg_page _ _ _ _ (v_large _ _ _ Hinv p1 m Hm1)).
    + by apply (v_large_sep _ _ _ Hinv p1 p2 m').
  - destruct (v_threads _ _ _ Hinv) as [Hr1 ? ? ? ?]. split; intros *; rewrite ?Hg by done; auto. apply Hr1.
Qed.

Section large.
Context (mmap : nat → Z → Z → list mapping → Z) (Hmm : mmap_contract mmap).

Definition large_alloc_size (size : Z) : Z := PAGE_ROUNDUP (u64 (size + CHUNK_SIZE)).

(** The largest size for which [alloc_size] does not wrap around. *)
Definition LARGE_MAX : Z := 2 ^ 64 - PAGE_SIZE - CHUNK_SIZE.

(** What a large allocation gives. *)
Record large_got (size : Z) (g : ghost) (p : Z) (lt_m : mapping) (s' : st) : Prop := {
  lt_inv : inv HNone (large_g g (<[p := lt_m]> (g_large g))) s';
  lt_new : g_large g !! p = None;
  lt_pos : lt_m.1 ≤ p;
  lt_size : p + size ≤ lt_m.1 + lt_m.2;
}.

Lemma large_malloc_spec g s size :
  inv HNone g s → 0 ≤ size ≤ LARGE_MAX → mmap (s_calls s) 0 (large_alloc_size size) (s_pages s) ≠ MAP_FAILED →
  wp (large_malloc mmap 1 size) (λ p s', ∃ m, large_got size g p m s') s.
Proof.
  intros Hinv Hsz Hok. cbn [large_malloc]. fold (large_alloc_size size).
  assert (CHUNK_SIZE = 65792 ∧ PAGE_SIZE = 4096 ∧ CACHE_LINE_SIZE = 64 ∧ sizeof_large_header = 128) as (HC & HP & HL & HS) by done.
  assert (size + CHUNK_SIZE ≤ large_alloc_size size) as Ha.
  { unfold large_alloc_size, LARGE_MAX in *. rewrite wrap_u_small by lia. apply page_roundup. lia. }
  set (n := large_alloc_size size) in *.
  destruct (mc_fresh _ Hmm (s_calls s) n (s_pages s) ltac:(lia) Hok) as (Hal & Hpos & Hend & Hout & Hdj).
  set (r := mmap (s_calls s) 0 n (s_pages s)) in *. wstep. unfold page_alloc, wp at 1. fold r. rewrite bool_decide_false by done.
  pose proof (large_distance r Hal) as [Hd1 Hd2]. cbv zeta in Hd1, Hd2.
  rewrite wrap_u_small by lia. set (p := r + CHUNK_SIZE - CACHE_LINE_SIZE) in *.
  rewrite (proj2 (Z.leb_le _ _) Hd2). wstep. apply access_spec; [apply mapped_here; lia|].
  wstep. apply access_spec; [apply mapped_here; lia|]. repeat wstep. exists (r, n).
  assert (new_large s size p (r, n)) as Hnl by (split; simpl; try done; lia).
  destruct (large_inv g s size p (r, n) Hinv ltac:(lia) Hnl) as [Hinv' Hnew].
  split; simpl; try done; lia.
Qed.

(** When [mmap] fails, its error value is used as an address. *)
Lemma large_malloc_fails g s size :
  inv HNone g s → mmap (s_calls s) 0 (large_alloc_size size) (s_pages s) = MAP_FAILED →
  large_malloc mmap 1 size s = Faults.
Proof.
  intros Hinv Hf. cbn [large_malloc]. fold (large_alloc_size size). unfold bind, page_alloc. rewrite Hf, bool_decide_true by done.
  change (u64 (MAP_FAILED + CHUNK_SIZE - CACHE_LINE_SIZE)) with 65727. change (dchunk_extract 65727) with 0.
  change (sizeof_large_header <=? 65727 - 0) with true. unfold access. cbn [s_pages].
  replace (mapped (s_pages s) 0) with false; [done|]. symmetry. apply not_true_is_false.
  intros (m & Hin & Hp)%mapped_spec. destruct (pg_pos _ _ (v_pages _ _ _ Hinv) _ Hin) as (? & _). lia.
Qed.
End large.

(** ** Release *)

(** Unmapping exactly one mapping removes it. *)
Lemma unmap_exact m pages :
  0 < m.2 → (∀ m', m' ∈ pages → 0 < m'.2 ∧ (m' ≠ m → disj m' m)) →
  unmap m.1 m.2 pages = filter (λ m', m' ≠ m) pages.
Proof.
  intros Hpos. induction pages as [|m' pages IH]; intros Hp; [done|].
  destruct (Hp m') as [Hp' Hdj]; [by left|]. rewrite filter_cons. unfold unmap in *. cbn [flat_map].
  rewrite IH by (intros x Hx; apply Hp; by right). destruct m' as [p n]. simpl in *.
  destruct (decide ((p, n) ≠ m)) as [Hne|Heq%dec_stable].
  - destruct (Hdj Hne) as [Hb|Ha]; simpl in *.
    + rewrite (proj2 (Z.ltb_lt p m.1)), (proj2 (Z.ltb_ge (m.1 + m.2) (p + n))), Z.min_l by lia. done.
    + rewrite (proj2 (Z.ltb_ge p m.1)), (proj2 (Z.ltb_lt (m.1 + m.2) (p + n))), Z.max_l by lia.
      simpl. by replace (p + n - p) with n by lia.
  - subst m. simpl. rewrite (proj2 (Z.ltb_ge p p)), (proj2 (Z.ltb_ge (p + n) (p + n))) by lia. done.
Qed.

Lemma large_free_inv g s p m :
  inv HNone g s → g_large g !! p = Some m →
  inv HNone (large_g g (delete p (g_large g))) (St (s_mem s) (s_maps s) (S (s_calls s)) (unmap m.1 m.2 (s_pages s))).
Proof.
  intros Hinv Hp. destruct (v_large _ _ _ Hinv p m Hp) as [Hin Hout _ _ _ _ _]. destruct (v_pages _ _ _ Hinv) as [Hnd Hds Hps Hwh].
  destruct (Hps m Hin) as (_ & Hm2 & _).
  rewrite unmap_exact; [|done|intros m' Hm'; split; [by apply Hps|by intros; apply Hds]]. split; simpl.
  - by apply (large_heap HNone g (s_mem s)); [apply (v_heap _ _ _ Hinv)|..].
  - destruct (v_pool _ _ _ Hinv) as [? ? ? Hmap ? ?]. split; try done. intros a Ha.
    apply Hmap in Ha as Hma. apply mapped_spec in Hma as (m' & Hm' & Ha'). apply mapped_spec. exists m'. split; [|done].
    apply list_elem_of_filter. split; [|done]. intros ->. unfold outside, POOL_SKEW, POOL_LIMIT in *. lia.
  - split; [by apply NoDup_filter|..]; intros *; rewrite !list_elem_of_filter; [naive_solver..|].
    intros [_ Hm']. by apply Hwh.
  - intros p' m' [Hne Hp']%lookup_delete_Some. destruct (v_large _ _ _ Hinv p' m' Hp'). split; try done.
    apply list_elem_of_filter. split; [|done]. intros ->. by destruct Hne, (v_large_sep _ _ _ Hinv p p' m).
  - intros p1 p2 m' [_ H1]%lookup_delete_Some [_ H2]%lookup_delete_Some. by apply (v_large_sep _ _ _ Hinv p1 p2 m').
  - destruct (v_threads _ _ _ Hinv) as [Hr1 ? ? ? ?]. split; auto.
Qed.

Lemma large_free_spec g s p m :
  inv HNone g s → g_large g !! p = Some m →
  wp (large_free p) (λ _ s', inv HNone (large_g g (delete p (g_large g))) s') s.
Proof.
  intros Hinv Hp. unfold large_free. repeat wstep. destruct (v_large _ _ _ Hinv p m Hp) as [_ _ _ _ _ -> ->].
  unfold page_free, wp. by apply large_free_inv.
Qed.
