(* ===== verification/SsThm.v ===== *)
(** * SSMalloc is an allocator

    Threads call the interface in any order, write to the blocks they have,
    and exit.  Blocks that are in use never overlap and never lose their
    pages, calls neither crash nor hang, and a heap serves one thread. *)

From S2P Require Import Prelude Lts SsSize SsQueue SsMem SsMalloc SsLinks SsInv SsChunk SsMoves SsPool SsSmall SsFree SsInit SsLarge.

Local Open Scope Z_scope.

(** ** Blocks in use *)

(** The addresses and sizes of the blocks the client has. *)
Abbreviation blocks := (gmap Z Z).

Definition live_ok (g : ghost) (live : blocks) : Prop := ∀ p n, live !! p = Some n →
  1 ≤ n ∧
  ((p ∈ g_live g ∧ ∃ lh c, cdata (g_cs g (dchunk_extract p)) = Some (lh, c) ∧ n ≤ sz c) ∨
   (∃ m : mapping, g_large g !! p = Some m ∧ p + n ≤ m.1 + m.2)).

(** A client with the blocks [live] and an allocator in state [s]. *)
Definition sim (live : blocks) (s : st) : Prop := ∃ g, inv HNone g s ∧ live_ok g live.

(** ** Geometry *)

Section geometry.
Context {H : hole} {g : ghost} {s : st} (Hinv : inv H g s).

(** Everything in the pool lies between these addresses. *)
Lemma pool_range x : g_cs g x ≠ CNone → RAW_POOL_START ≤ x ∧ x + CHUNK_SIZE ≤ s_mem s PoolEnd - POOL_SKEW ∧ s_mem s PoolEnd - POOL_SKEW ≤ POOL_LIMIT.
Proof.
  intros Hx. destruct (i_pos _ _ _ (v_heap _ _ _ Hinv) x Hx) as (Hlo & Hhi & Hm & _).
  destruct (v_pool _ _ _ Hinv) as [Hst Hlim Hal _ _ Hrd].
  assert (0 < RAW_POOL_START ∧ 0 < CHUNK_SIZE) as [? ?] by done.
  destruct (decide (s_mem s GlobalState = READY)) as [Hr|Hn].
  - destruct (Hrd Hr) as [[_ Hlt] Hmod]. pose proof (skew_room _ _ Hal Hmod Hlt). lia.
  - destruct (th_start _ _ _ (v_threads _ _ _ Hinv) Hn) as (_ & _ & Hfs & _). lia.
Qed.

(** A small block lies in its chunk. *)
Lemma small_range p lh c :
  p ∈ g_live g → cdata (g_cs g (dchunk_extract p)) = Some (lh, c) →
  dchunk_extract p + DCH ≤ p ∧ p + sz c ≤ dchunk_extract p + CHUNK_SIZE ∧ g_cs g (dchunk_extract p) ≠ CNone.
Proof.
  intros Hp Hd. destruct (i_live _ _ _ (v_heap _ _ _ Hinv) p Hp) as (_ & Hb & _).
  destruct (block_range (v_heap _ _ _ Hinv) _ _ _ _ Hd Hb) as (? & ? & _). split_and!; try done. by intros Hn; rewrite Hn in Hd.
Qed.

(** A large block lies outside the pool. *)
Lemma large_range p m :
  g_large g !! p = Some m → m.1 + sizeof_large_header ≤ p ∧ 0 < m.1 ∧
  (m.1 + m.2 ≤ RAW_POOL_START - POOL_SKEW ∨ POOL_LIMIT ≤ m.1).
Proof.
  intros Hp. destruct (v_large _ _ _ Hinv p m Hp) as [Hin Hout Hh Hr _ _ _].
  destruct (pg_pos _ _ (v_pages _ _ _ Hinv) m Hin) as (? & _). unfold outside in Hout. split_and!; [lia|done..].
Qed.

(** Blocks in use do not overlap. *)
Lemma live_apart live p n q k :
  live_ok g live → live !! p = Some n → live !! q = Some k → p ≠ q → p + n ≤ q ∨ q + k ≤ p.
Proof.
  intros Hl Hp Hq Hne. destruct (Hl p n Hp) as [_ [(Hp1 & lh & c & Hd & Hn)|(m & Hm & Hn)]],
    (Hl q k Hq) as [_ [(Hq1 & lh' & c' & Hd' & Hk)|(m' & Hm' & Hk)]].
  - destruct (small_range p lh c Hp1 Hd) as (? & ? & ?), (small_range q lh' c' Hq1 Hd') as (? & ? & ?).
    destruct (decide (dchunk_extract p = dchunk_extract q)) as [Heq|Hx].
    + rewrite Heq in Hd. rewrite Hd in Hd'. injection Hd' as <- <-.
      destruct (i_live _ _ _ (v_heap _ _ _ Hinv) p Hp1) as (_ & Hb & _), (i_live _ _ _ (v_heap _ _ _ Hinv) q Hq1) as (_ & Hb' & _).
      rewrite Heq in Hb. destruct (block_apart (v_heap _ _ _ Hinv) _ _ _ p q Hd Hb Hb' Hne); lia.
    + pose proof (extract_mod p) as Hp0. pose proof (extract_mod q) as Hq0. apply Z.mod_divide in Hp0 as [a Ha], Hq0 as [b Hb]; [|done..].
      assert (0 < CHUNK_SIZE) by done. assert (a < b ∨ b < a) as [?|?] by (destruct (Z.lt_trichotomy a b) as [|[]]; [auto|congruence|auto]);
        assert (0 < DCH) by done; nia.
  - destruct (small_range p lh c Hp1 Hd) as (? & ? & Hc). pose proof (pool_range _ Hc). pose proof (large_range q m' Hm').
    unfold POOL_SKEW, sizeof_large_header, DCH in *. lia.
  - destruct (small_range q lh' c' Hq1 Hd') as (? & ? & Hc). pose proof (pool_range _ Hc). pose proof (large_range p m Hm).
    unfold POOL_SKEW, sizeof_large_header, DCH in *. lia.
  - pose proof (v_large _ _ _ Hinv p m Hm) as [Hi1 _ _ _ _ _ _]. pose proof (v_large _ _ _ Hinv q m' Hm') as [Hi2 _ _ _ _ _ _].
    assert (m ≠ m') as Hmm by (intros <-; by apply Hne, (v_large_sep _ _ _ Hinv p q m)).
    pose proof (large_range p m Hm). pose proof (large_range q m' Hm'). unfold sizeof_large_header in *.
    destruct (pg_disj _ _ (v_pages _ _ _ Hinv) m m' Hi1 Hi2 Hmm); lia.
Qed.

(** Their pages are there. *)
Lemma live_mapped live p n a :
  live_ok g live → live !! p = Some n → p ≤ a < p + n → mapped (s_pages s) a = true.
Proof.
  intros Hl Hp Ha. destruct (Hl p n Hp) as [_ [(Hp1 & lh & c & Hd & Hn)|(m & Hm & Hn)]].
  - destruct (small_range p lh c Hp1 Hd) as (? & ? & Hc). pose proof (pool_range _ Hc). apply (pl_mapped _ _ (v_pool _ _ _ Hinv)).
    unfold DCH in *. lia.
  - apply mapped_spec. exists m. split; [apply (lg_page _ _ _ _ (v_large _ _ _ Hinv p m Hm))|].
    pose proof (large_range p m Hm). unfold sizeof_large_header in *. lia.
Qed.

Lemma live_positive live p n : live_ok g live → live !! p = Some n → 0 < p.
Proof.
  intros Hl Hp. assert (0 < RAW_POOL_START) by done. destruct (Hl p n Hp) as [_ [(Hp1 & lh & c & Hd & Hn)|(m & Hm & Hn)]].
  - destruct (small_range p lh c Hp1 Hd) as (? & ? & Hc). pose proof (pool_range _ Hc). unfold DCH in *. lia.
  - pose proof (large_range p m Hm). unfold sizeof_large_header in *. lia.
Qed.

(** Neither the links of the lists nor the fields of a chunk are where a
    client may write. *)
Lemma live_unlisted live p n a l :
  live_ok g live → live !! p = Some n → p - 8 < a < p + n → a ∉ g_ls g l.
Proof.
  intros Hl Hp Ha Hin. pose proof (v_heap _ _ _ Hinv) as Hok.
  assert (∃ x, g_cs g x ≠ CNone ∧ (a = x ∨ ∃ lh c, cdata (g_cs g x) = Some (lh, c) ∧ block (s_mem s) x a ∧ ∀ lh' c',
    p ∈ g_live g → cdata (g_cs g (dchunk_extract p)) = Some (lh', c') → dchunk_extract p = x → p ≠ a)) as (x & Hx & Hax).
  { destruct (is_blk l) eqn:Hb.
    - destruct (i_blk _ _ _ Hok l a Hb Hin) as [[[lh c] Hd] Hbl]. exists (dchunk_extract a).
      split; [by intros Hn; rewrite Hn in Hd|right]. exists lh, c. split_and!; try done. intros lh' c' Hlv _ _ <-.
      by destruct (i_live _ _ _ Hok p Hlv) as (_ & _ & Hno); apply (Hno l).
    - exists a. split; [|by left]. by apply (chunk_list Hok l). }
  pose proof (pool_range x Hx) as Hxr. destruct (Hl p n Hp) as [_ [(Hp1 & lh & c & Hd & Hn)|(m & Hm & Hn)]].
  - destruct (small_range p lh c Hp1 Hd) as (Hlo & Hhi & Hc).
    pose proof (extract_mod p) as Hp0. destruct (cs_pos Hok x Hx) as [_ Hx0].
    apply Z.mod_divide in Hp0 as [i Hi], Hx0 as [j Hj]; [|done..]. assert (CHUNK_SIZE = 65792 ∧ DCH = 256) as [HC HD] by done.
    destruct Hax as [->|(lh' & c' & Hd' & Hbl & Hne)].
    + assert (i < j ∨ j ≤ i) as [?|?] by lia; nia.
    + destruct (block_range Hok x lh' c' a Hd' Hbl) as (? & ? & _). pose proof (cls2size_bounds c' (ck_cls _ _ _ _ _ (i_chunk _ _ _ Hok _ _ _ Hd'))).
      destruct (decide (dchunk_extract p = x)) as [Heq|Hx'].
      * specialize (Hne lh c Hp1 Hd Heq). rewrite Heq in Hd. rewrite Hd in Hd'. injection Hd' as <- <-.
        destruct (i_live _ _ _ Hok p Hp1) as (_ & Hb & _). rewrite Heq in Hb.
        destruct (block_apart Hok x lh c p a Hd Hb Hbl Hne); lia.
      * assert (i < j ∨ j < i) as [?|?] by (destruct (Z.lt_trichotomy i j) as [|[]]; [auto|congruence|auto]); nia.
  - pose proof (large_range p m Hm) as (? & ? & Hout). unfold sizeof_large_header, POOL_SKEW in *.
    assert (CHUNK_SIZE = 65792) by done. assert (x ≤ a < x + CHUNK_SIZE).
    { destruct Hax as [->|(lh' & c' & Hd' & Hbl & _)]; [lia|]. destruct (block_range Hok x lh' c' a Hd' Hbl) as (? & ? & _).
      pose proof (cls2size_bounds c' (ck_cls _ _ _ _ _ (i_chunk _ _ _ Hok _ _ _ Hd'))). unfold DCH in *. lia. }
    lia.
Qed.
End geometry.

(** ** Calls *)

(** The words that a write to the block [p] of size [n] may change. *)
Definition block_words (p n : Z) (c : cell) : Prop := ∃ a, c = Word a ∧ p - 8 < a < p + n.

Lemma write_sim live s p n h' :
  sim live s → live !! p = Some n → agree (block_words p n) (s_mem s) h' → sim live (upd s h').
Proof.
  intros (g & Hinv & Hl) Hp Hag. exists g. split; [|done].
  assert (∀ c, (∀ a, c ≠ Word a) → h' c = s_mem s c) as Hk.
  { intros c Hc. apply Hag. intros (a & -> & _). by destruct (Hc a). }
  apply (keeps_inv Hinv); [|split; try done; intros; apply Hk; [by intros ? ->|done]].
  apply (heap_frame (v_heap _ _ _ Hinv)); [|by rewrite Hk].
  eapply agree_weaken; [done|]. intros c (a & -> & Ha). right. left. exists a. split; [done|].
  intros l. by apply (live_unlisted Hinv live p n).
Qed.

Section calls.
Context (mmap : nat → Z → Z → list mapping → Z) (Hmm : mmap_contract mmap).

(** What a call of [malloc] may come to. *)
Definition malloc_out (live : blocks) (size : Z) (o : out Z) : Prop :=
  match o with
  | Ret p s' => sim (<[p := Z.max 1 size]> live) s' ∧ live !! p = None
  | Exits => True
  | Faults => 65536 < size ∧ ∃ n pages, mmap n 0 (large_alloc_size size) pages = MAP_FAILED
  | Hangs => False
  end.

Lemma live_ok_holds g g' live :
  live_ok g live → holds g g' → g_live g ⊆ g_live g' → (∀ p m, g_large g !! p = Some m → g_large g' !! p = Some m) → live_ok g' live.
Proof.
  intros Hl Hh Hs Hlg p n Hp. destruct (Hl p n Hp) as [Hn [(Hp1 & lh & c & Hd & ?)|(m & Hm & ?)]]; split; try done.
  - left. split; [by apply Hs|]. eauto.
  - right. eauto.
Qed.

Lemma live_ok_small g live p n lh c :
  live_ok g live → p ∈ g_live g → cdata (g_cs g (dchunk_extract p)) = Some (lh, c) → 1 ≤ n ≤ sz c → live_ok g (<[p := n]> live).
Proof.
  intros Hl Hp Hd Hn q k [[<- <-]|[_ Hq]]%lookup_insert_Some; [|by apply Hl]. split; [lia|]. left. split; [done|]. exists lh, c. split; [done|lia].
Qed.

(** A large block is not a small one. *)
Lemma small_not_large H g s p m : inv H g s → p ∈ g_live g → g_large g !! p = Some m → False.
Proof.
  intros Hinv Hp Hm. destruct (i_live _ _ _ (v_heap _ _ _ Hinv) p Hp) as ([[lh c] Hd] & _).
  destruct (small_range Hinv p lh c Hp Hd) as (? & ? & Hcs). pose proof (pool_range Hinv _ Hcs).
  pose proof (large_range Hinv p m Hm). pose proof (v_large _ _ _ Hinv p m Hm) as [_ _ _ ? _ _ _].
  pose proof (cls2size_bounds c (ck_cls _ _ _ _ _ (i_chunk _ _ _ (v_heap _ _ _ Hinv) _ _ _ Hd))).
  unfold POOL_SKEW, sizeof_large_header, DCH in *. lia.
Qed.

Lemma small_malloc_sim g s live t c n :
  inv HNone g s → live_ok g live → s_mem s (ThreadState t) = READY → 0 ≤ c < NCLS → 1 ≤ n ≤ sz c →
  wp (small_malloc mmap t c) (λ p s', sim (<[p := n]> live) s' ∧ live !! p = None) s.
Proof.
  intros Hinv Hl Ht Hc Hn. destruct (th_ready _ _ _ (v_threads _ _ _ Hinv) t Ht) as (Hlh & _ & Hg).
  set (lh := s_mem s (LocalHeap t)) in *. unfold small_malloc. wstep. wstep. fold lh. wstep.
  apply access_spec.
  { apply (pl_mapped _ _ (v_pool _ _ _ Hinv)). pose proof (pool_range Hinv lh ltac:(by rewrite Hlh)).
    assert (0 < CHUNK_SIZE) by done. lia. }
  eapply wp_mono; [by apply (small_malloc_loop_spec mmap Hmm lh c g s)|].
  intros p s' [g' [Hinv' Hsy Hho Hnew Hlive Hdat]]. split.
  - exists g'. split; [done|]. eapply live_ok_small; [|rewrite Hlive; set_solver|done..].
    apply (live_ok_holds g); try done; [set_solver|]. intros q m. by rewrite (sy_large _ _ _ _ Hsy).
  - destruct (live !! p) as [k|] eqn:Hp; [|done]. destruct (Hl p k Hp) as [_ [(? & _)|(m & Hm & _)]]; [done|].
    rewrite <-(sy_large _ _ _ _ Hsy) in Hm. destruct (small_not_large _ _ _ p m Hinv'); [rewrite Hlive; set_solver|done].
Qed.

Lemma large_sim g live size p m s' :
  live_ok g live → 1 ≤ size → large_got size g p m s' → sim (<[p := size]> live) s' ∧ live !! p = None.
Proof.
  intros Hl Hsz [Hinv Hnew Hpos Hroom]. split.
  - exists (large_g g (<[p := m]> (g_large g))). split; [done|].
    intros q k [[<- <-]|[Hne Hq]]%lookup_insert_Some.
    + split; [done|]. right. exists m. simpl. by rewrite lookup_insert_eq.
    + destruct (Hl q k Hq) as [? [?|(m' & Hm' & ?)]]; split; try done; [by left|right]. exists m'. simpl. by rewrite lookup_insert_ne.
  - destruct (live !! p) as [k|] eqn:Hp; [|done]. destruct (Hl p k Hp) as [_ [(Hin & _)|(m' & Hm' & _)]]; [|by rewrite Hnew in Hm'].
    destruct (small_not_large _ _ _ p m Hinv Hin). simpl. by rewrite lookup_insert_eq.
Qed.

Lemma malloc_sim live s t size :
  sim live s → 0 ≤ size ≤ LARGE_MAX → malloc_out live size (malloc mmap t size s).
Proof.
  intros (g & Hinv & Hl) Hsz. unfold malloc, bind. pose proof (check_init_spec mmap Hmm g s t Hinv) as Hci.
  unfold wp in Hci. destruct (check_init mmap t s) as [[] s1| | |]; try done. destruct Hci as (g1 & [Hinv1 Ht1 Hho1 Hli1 Hla1]).
  assert (live_ok g1 live) as Hl1 by (apply (live_ok_holds g); try done; [by rewrite Hli1|by intros; rewrite Hla1]).
  destruct (th_ready _ _ _ (v_threads _ _ _ Hinv1) t Ht1) as (_ & _ & Hg).
  rewrite (th_tables _ _ _ (v_threads _ _ _ Hinv1) Hg).
  replace (if bool_decide (size = 0) then 1 else size) with (Z.max 1 size) by (case_bool_decide; lia).
  set (n := Z.max 1 size). destruct (decide (n ≤ 65536)) as [Hsm|Hlg].
  - assert (1 ≤ n ≤ 65536) as Hn by lia. pose proof (size2cls_range n Hn) as Hc. pose proof (size2cls_fits n Hn).
    rewrite (proj2 (Z.ltb_lt _ _)) by (unfold NCLS, DEFAULT_BLOCK_CLASS in *; lia).
    pose proof (small_malloc_sim g1 s1 live t _ n Hinv1 Hl1 Ht1 Hc ltac:(lia)) as Hw. unfold wp in Hw.
    by destruct (small_malloc mmap t (size2cls tables n) s1).
  - assert (n = size) as -> by lia. rewrite size2cls_large by lia. change (LARGE_CLASS <? DEFAULT_BLOCK_CLASS) with false. cbn iota.
    destruct (decide (mmap (s_calls s1) 0 (large_alloc_size size) (s_pages s1) = MAP_FAILED)) as [Hf|Hok].
    + rewrite (large_malloc_fails mmap g1 s1 size Hinv1 Hf). simpl. split; [lia|by eauto].
    + pose proof (large_malloc_spec mmap Hmm g1 s1 size Hinv1 Hsz Hok) as Hw. unfold wp in Hw.
      destruct (large_malloc mmap 1 size s1) as [p s2| | |]; try done. destruct Hw as (m & Hgot).
      simpl. rewrite Z.max_r by lia. apply (large_sim g1 live size p m); [done|lia|done].
Qed.

Lemma freed_sim p g s g' s' live : freed p g s g' s' → live_ok g live → sim (delete p live) s'.
Proof.
  intros [Hinv Hsy Hli Hda] Hl. exists g'. split; [done|]. intros q k [Hne Hq]%lookup_delete_Some.
  destruct (Hl q k Hq) as [Hk [(Hin & lh & c & Hd & Hs)|(m & Hm & Hs)]]; split; try done.
  - left. assert (q ∈ g_live g') as Hin' by (rewrite Hli; set_solver). split; [done|]. exists lh, c. by rewrite Hda.
  - right. exists m. by rewrite (sy_large _ _ _ _ Hsy).
Qed.

Lemma free_sim live s t p n :
  sim live s → live !! p = Some n → wp (free mmap t p) (λ _ s', sim (delete p live) s') s.
Proof.
  intros (g & Hinv & Hl) Hp. unfold free. rewrite bool_decide_false by (pose proof (live_positive Hinv live p n Hl Hp); lia).
  assert (LARGE_OWNER = 57005 ∧ 57005 < RAW_POOL_START) as [HLO HR] by done. repeat wstep.
  set (lh := s_mem s (LocalHeap t)). assert (lh ≠ LARGE_OWNER) as Hlh.
  { unfold lh. destruct (decide (s_mem s (ThreadState t) = READY)) as [Hr|Hn].
    - destruct (th_ready _ _ _ (v_threads _ _ _ Hinv) t Hr) as (Hh & _). pose proof (pool_range Hinv _ ltac:(by rewrite Hh)). lia.
    - rewrite (th_unready _ _ _ (v_threads _ _ _ Hinv) t Hn). lia. }
  destruct (Hl p n Hp) as [_ [(Hin & lh' & c & Hd & Hn)|(m & Hm & _)]].
  - destruct (small_range Hinv p lh' c Hin Hd) as (? & ? & Hcs). pose proof (pool_range Hinv _ Hcs) as Hrng.
    apply access_spec; [apply (pl_mapped _ _ (v_pool _ _ _ Hinv)); change CHUNK_SIZE with 65792 in Hrng; lia|].
    destruct (i_chunk _ _ _ (v_heap _ _ _ Hinv) _ _ _ Hd) as [_ Hh' Ho _ _ _ _ _ _ _].
    repeat wstep. rewrite Ho. assert (lh' ≠ LARGE_OWNER) by (pose proof (pool_range Hinv lh' ltac:(by rewrite Hh')); lia).
    case_bool_decide as Heq.
    + rewrite Heq in Hd. eapply wp_mono; [by apply (local_free_spec lh c g s)|].
      intros _ s' [g' Hfr]. by eapply freed_sim.
    + rewrite bool_decide_true by done. wstep. eapply wp_mono; [by apply (check_init_spec mmap Hmm g s t)|].
      intros _ s1 [g1 [Hinv1 Ht1 Hho1 Hli1 Hla1]]. repeat wstep.
      destruct (th_ready _ _ _ (v_threads _ _ _ Hinv1) t Ht1) as (Hh1 & _).
      eapply wp_mono; [apply (remote_free_spec g1 s1 t); try done; by rewrite Hli1|].
      intros _ s' [g' Hfr]. eapply freed_sim; [done|].
      apply (live_ok_holds g); try done; [by rewrite Hli1|by intros; rewrite Hla1].
  - destruct (v_large _ _ _ Hinv p m Hm) as [Hpg _ Hh Hr Ho _ _]. apply access_spec.
    { apply mapped_spec. exists m. split; [done|]. unfold sizeof_large_header in *. lia. }
    repeat wstep. rewrite Ho, bool_decide_false by done. rewrite bool_decide_false by (by intros []).
    eapply wp_mono; [by apply (large_free_spec g s p m)|]. intros ? s' Hinv'. eexists. split; [exact Hinv'|].
    intros q k [Hne Hq]%lookup_delete_Some. destruct (Hl q k Hq) as [Hk [Hs|(m' & Hm' & Hs)]]; split; try done; [by left|].
    right. exists m'. simpl. by rewrite lookup_delete_ne.
Qed.

Lemma exit_sim live s t :
  sim live s → s_mem s (ThreadState t) = READY → wp (thread_exit t;; thread_gone t) (λ _ s', sim live s') s.
Proof.
  intros (g & Hinv & Hl) Ht. eapply wp_mono; [by apply (thread_exit_spec g s t)|].
  intros _ s' (g' & Hinv' & Hli & Hla & Hcs). exists g'. split; [done|].
  intros p n Hp. rewrite Hli, Hla, Hcs. by apply Hl.
Qed.

(** ** Calls that use others *)

(** [memcpy] and [memset] write to their destination only. *)
Context (memcpy : Z → Z → Z → mem → mem) (memset : Z → Z → Z → mem → mem).
Context (Hcpy : ∀ d p n h, agree (block_words d n) h (memcpy d p n h)).
Context (Hset : ∀ p v n h, agree (block_words p n) h (memset p v n h)).
Context (mremap : nat → Z → Z → Z → list mapping → Z).

Lemma calloc_sim live s t nmemb size :
  sim live s → 0 ≤ nmemb * size ≤ LARGE_MAX → malloc_out live (nmemb * size) (calloc mmap memset t nmemb size s).
Proof.
  intros Hs Hsz. pose proof (malloc_sim live s t (nmemb * size) Hs Hsz) as Hm. unfold calloc, bind.
  assert (LARGE_MAX < 2 ^ 64) by done. rewrite wrap_u_small by lia.
  destruct (malloc mmap t (nmemb * size) s) as [p s1| | |]; try done. destruct Hm as [Hs1 Hnew].
  destruct Hs1 as (g1 & Hinv1 & Hl1). pose proof (live_positive Hinv1 _ p _ Hl1 (lookup_insert_eq _ _ _)).
  rewrite bool_decide_false by lia. split; [|done].
  apply (write_sim _ s1 p (Z.max 1 (nmemb * size))); [by exists g1|by rewrite lookup_insert_eq|].
  eapply agree_weaken; [apply Hset|]. intros c (a & -> & ?). exists a. split; [done|lia].
Qed.

(** A small block changes its size or is replaced. *)
Lemma realloc_sim live s t p n size :
  sim live s → live !! p = Some n → s_mem s (Owner (dchunk_extract p)) ≠ LARGE_OWNER → 1 ≤ size ≤ LARGE_MAX →
  match realloc mmap mremap memcpy t p size s with
  | Ret r s' => sim (<[r := size]> (delete p live)) s' ∧ delete p live !! r = None
  | Exits => True
  | Faults => 65536 < size ∧ ∃ n pages, mmap n 0 (large_alloc_size size) pages = MAP_FAILED
  | Hangs => False
  end.
Proof.
  intros Hs Hp Ho Hsz. pose proof Hs as (g & Hinv & Hl). unfold realloc.
  rewrite bool_decide_false by (pose proof (live_positive Hinv live p n Hl Hp); lia).
  rewrite (bool_decide_false (size = 0)) by lia. unfold bind, ret at 1.
  destruct (Hl p n Hp) as [Hn1 [(Hin & lh & c & Hd & Hn)|(m & Hm & _)]].
  2: { by destruct (v_large _ _ _ Hinv p m Hm) as [_ _ _ _ ? _ _]. }
  destruct (small_range Hinv p lh c Hin Hd) as (? & ? & Hcs). pose proof (pool_range Hinv _ Hcs) as Hrng.
  destruct (i_chunk _ _ _ (v_heap _ _ _ Hinv) _ _ _ Hd) as [Hc _ _ Hcls _ _ _ _ _ _].
  unfold access at 1. rewrite (pl_mapped _ _ (v_pool _ _ _ Hinv)) by (change CHUNK_SIZE with 65792 in Hrng; lia).
  unfold get. rewrite (bool_decide_true (s_mem s _ ≠ _)) by done. rewrite Hcls.
  destruct (decide (s_mem s GlobalState = READY)) as [Hg|Hng]; [|by destruct Hcs; apply (unready_none Hinv)].
  rewrite (th_tables _ _ _ (v_threads _ _ _ Hinv) Hg). pose proof (cls2size_bounds c Hc).
  destruct (Z.leb_spec size (sz c)) as [Hle|Hgt].
  - simpl. split; [|by rewrite lookup_delete_eq]. exists g. split; [done|].
    eapply live_ok_small; try done; [|lia]. intros q k [_ Hq]%lookup_delete_Some. by apply Hl.
  - pose proof (malloc_sim live s t size Hs ltac:(lia)) as Hm.
    destruct (malloc mmap t size s) as [r s1| | |]; try done. simpl in Hm. rewrite Z.max_r in Hm by lia. destruct Hm as [Hs1 Hnew].
    assert (r ≠ p) as Hrp by congruence. unfold modify.
    assert (sim (<[r := size]> live) (upd s1 (memcpy r p (sz c) (s_mem s1)))) as Hs2.
    { apply (write_sim _ s1 r size); [done|by rewrite lookup_insert_eq|]. eapply agree_weaken; [apply Hcpy|].
      intros x (a & -> & ?). exists a. split; [done|lia]. }
    pose proof (free_sim _ _ t p n Hs2 ltac:(by rewrite lookup_insert_ne)) as Hf. unfold wp, upd in Hf.
    destruct (free mmap t p _) as [[] s3| | |]; try done. simpl. rewrite delete_insert_ne in Hf by done.
    split; [done|]. by rewrite lookup_delete_ne.
Qed.
End calls.

(** ** The first state *)

Definition ghost0 : ghost := Ghost (λ _, []) (λ _, CNone) (λ _ _, []) ∅ ∅.

Lemma start_heap : heap_ok HNone ghost0 (s_mem ss_start).
Proof.
  split; simpl; try done; try (by intros; set_solver). split; simpl; try done.
  - intros l _. by destruct l.
  - intros _. constructor.
  - intros l l' x ?%elem_of_nil. done.
Qed.

Lemma start_sim : sim ∅ ss_start.
Proof.
  exists ghost0. split; [|done]. split; simpl; [apply start_heap| | |done|done|].
  - split; simpl; try done; [|by left]. intros a Ha. assert (0 < RAW_POOL_START) by done. unfold POOL_SKEW in Ha. change (<[LastAlloc := 8]> (λ _ : cell, 0) PoolEnd) with 0 in Ha. lia.
  - split; try (by intros ? ?%elem_of_nil); [constructor|]. by intros ? ? ?%elem_of_nil.
  - split; simpl; try done.
Qed.
