(* ===== verification/SsSystem.v ===== *)
(** * SSMalloc and its clients

    Any number of threads call the interface, write to their blocks and exit, in
    any order; a call is one transition, so calls do not interleave with each
    other.  The theorems hold for every such run; [mmap], [memcpy] and [memset]
    are only assumed to do what [mmap_contract] and the hypotheses of the section
    say. *)

From S2P Require Import Prelude Lts SsSize SsQueue SsMem SsMalloc SsLinks SsInv SsPool SsLarge SsThm.

Local Open Scope Z_scope.

(** ** The system *)

Inductive ss_label :=
  | LMalloc (t : tid) (size : Z)
  | LCalloc (t : tid) (nmemb size : Z)
  | LRealloc (t : tid) (p size : Z)
  | LFreeCall (t : tid) (p : Z)
  | LWrite (p a v : Z)
  | LExit (t : tid).

Section system.
Context (mmap : nat → Z → Z → list mapping → Z).
Context (mremap : nat → Z → Z → Z → list mapping → Z).
Context (memcpy : Z → Z → Z → mem → mem) (memset : Z → Z → Z → mem → mem).

(** A call that returns takes the system to the next state. *)
Definition after {A} (o : out A) (f : A → st → st * blocks) : option (st * blocks) :=
  match o with Ret a s' => Some (f a s') | _ => None end.

(** The sizes of calls are such that nothing wraps around ([ss_interface_errors] has what happens
    otherwise), and a thread calls nothing between its destructor and its end. *)
Definition ss_step (l : ss_label) (x : st * blocks) : option (st * blocks) :=
  let '(s, live) := x in
  match l with
  | LMalloc t size =>
      if bool_decide (0 ≤ size ≤ LARGE_MAX) then after (malloc mmap t size s) (λ p s', (s', <[p := Z.max 1 size]> live))
      else None
  | LCalloc t nmemb size =>
      if bool_decide (0 ≤ nmemb * size ≤ LARGE_MAX) then
        after (calloc mmap memset t nmemb size s) (λ p s', (s', <[p := Z.max 1 (nmemb * size)]> live))
      else None
  | LRealloc t p size =>
      if bool_decide (is_Some (live !! p) ∧ s_mem s (Owner (dchunk_extract p)) ≠ LARGE_OWNER ∧ 1 ≤ size ≤ LARGE_MAX) then
        after (realloc mmap mremap memcpy t p size s) (λ r s', (s', <[r := size]> (delete p live)))
      else None
  | LFreeCall t p =>
      if bool_decide (is_Some (live !! p)) then after (free mmap t p s) (λ _ s', (s', delete p live)) else None
  | LWrite p a v =>
      match live !! p with
      | Some n => if bool_decide (p - 8 < a < p + n) then Some (upd s (<[Word a := v]> (s_mem s)), live) else None
      | None => None
      end
  | LExit t =>
      if bool_decide (s_mem s (ThreadState t) = READY) then after ((thread_exit t;; thread_gone t) s) (λ _ s', (s', live)) else None
  end.

#[local] Instance ss_sys : Lts ss_label (st * blocks) := {
  lts_init x := x = (ss_start, ∅);
  lts_step := ss_step;
}.

Definition ss_reachable (s : st) (live : blocks) : Prop := reachable (s, live).

Context (Hmm : mmap_contract mmap).
Context (Hcpy : ∀ d p n h, agree (block_words d n) h (memcpy d p n h)).
Context (Hset : ∀ p v n h, agree (block_words p n) h (memset p v n h)).

Lemma ss_sim s live : ss_reachable s live → sim live s.
Proof.
  intros Hr. apply (invariant_reachable (λ x, sim x.2 x.1) (s, live)); [|done]. clear s live Hr. split; [by intros ? ->; apply start_sim|].
  intros l [s live] [s' live'] Hs Hstep. destruct l; cbn [lts_step ss_sys ss_step fst snd] in *.
  - case_bool_decide as Hg; [|done]. pose proof (malloc_sim mmap Hmm live s t size Hs Hg) as Hm.
    destruct (malloc mmap t size s); simplify_eq/=. by destruct Hm.
  - case_bool_decide as Hg; [|done]. pose proof (calloc_sim mmap Hmm memset Hset live s t nmemb size Hs Hg) as Hm.
    destruct (calloc mmap memset t nmemb size s); simplify_eq/=. by destruct Hm.
  - case_bool_decide as Hg; [|done]. destruct Hg as ([n Hp] & Ho & Hsz).
    pose proof (realloc_sim mmap Hmm memcpy Hcpy mremap live s t p n size Hs Hp Ho Hsz) as Hm.
    destruct (realloc mmap mremap memcpy t p size s); simplify_eq/=. by destruct Hm.
  - case_bool_decide as Hg; [|done]. destruct Hg as [n Hp]. pose proof (free_sim mmap Hmm live s t p n Hs Hp) as Hm. unfold wp in Hm.
    by destruct (free mmap t p s); simplify_eq/=.
  - destruct (live !! p) as [n|] eqn:Hp; [|done]. case_bool_decide as Ha; [|done]. simplify_eq.
    apply (write_sim live' s p n); [done..|]. apply agree_set; [done|]. by exists a.
  - case_bool_decide as Ht; [|done]. pose proof (exit_sim live s t Hs Ht) as Hm. unfold wp in Hm.
    by destruct ((thread_exit t;; thread_gone t) s); simplify_eq/=.
Qed.

(** ** Theorems *)

(** C4: Blocks in use. In every sequence of calls of [malloc], [calloc], [realloc] of small
    blocks and [free], with sizes that do not wrap around and [realloc] to at least one byte, and of
    writes to blocks, by any number of threads, the blocks that the clients have are pairwise disjoint and
    consist of mapped memory. *)
Theorem ss_blocks_apart s live :
  ss_reachable s live →
  (∀ p n q k, live !! p = Some n → live !! q = Some k → p ≠ q → p + n ≤ q ∨ q + k ≤ p) ∧
  (∀ p n a, live !! p = Some n → p ≤ a < p + n → mapped (s_pages s) a = true).
Proof.
  intros (g & Hinv & Hl)%ss_sim. split.
  - intros p n q k. by apply (live_apart Hinv live).
  - intros p n a. by apply (live_mapped Hinv live).
Qed.

(** C5: Allocation. Whatever the clients have done before, the block that
    [malloc] returns is large enough, mapped, not NULL, and apart from every
    block in use. *)
Theorem ss_malloc_fresh s live t size p s' :
  ss_reachable s live → 0 ≤ size ≤ LARGE_MAX → malloc mmap t size s = Ret p s' →
  0 < p ∧ (∀ a, p ≤ a < p + Z.max 1 size → mapped (s_pages s') a = true) ∧
  (∀ q k, live !! q = Some k → p + Z.max 1 size ≤ q ∨ q + k ≤ p).
Proof.
  intros Hs%ss_sim Hsz Heq. pose proof (malloc_sim mmap Hmm live s t size Hs Hsz) as Hm. rewrite Heq in Hm.
  destruct Hm as [(g & Hinv & Hl) Hnew]. assert (<[p := Z.max 1 size]> live !! p = Some (Z.max 1 size)) as Hp by apply lookup_insert_eq.
  split_and!.
  - by apply (live_positive Hinv _ p (Z.max 1 size) Hl).
  - intros a. by apply (live_mapped Hinv _ p _ a Hl).
  - intros q k Hq. assert (p ≠ q) by congruence. apply (live_apart Hinv _ p _ q k Hl); [done|by rewrite lookup_insert_ne|done].
Qed.

(** C33: Termination. After every such sequence, [malloc] of a size that does not wrap around, [free] of a block in
    use and the destructor of a thread return or exit the process: they never
    loop for ever, and never touch unmapped memory, except that [malloc] of a
    large size does when [mmap] fails. *)
Theorem ss_calls_return s live :
  ss_reachable s live →
  (∀ t size, 0 ≤ size ≤ LARGE_MAX → match malloc mmap t size s with
     | Hangs => False
     | Faults => 65536 < size ∧ ∃ n pages, mmap n 0 (PAGE_ROUNDUP (u64 (size + CHUNK_SIZE))) pages = MAP_FAILED
     | _ => True end) ∧
  (∀ t p, is_Some (live !! p) → match free mmap t p s with Faults | Hangs => False | _ => True end) ∧
  (∀ t, s_mem s (ThreadState t) = READY → match thread_exit t s with Faults | Hangs => False | _ => True end).
Proof.
  intros Hs%ss_sim. split_and!.
  - intros t size Hsz. pose proof (malloc_sim mmap Hmm live s t size Hs Hsz) as Hm. by destruct (malloc mmap t size s).
  - intros t p [n Hp]. pose proof (free_sim mmap Hmm live s t p n Hs Hp) as Hm. unfold wp in Hm. by destruct (free mmap t p s).
  - intros t Ht. pose proof (exit_sim live s t Hs Ht) as Hm. unfold wp, bind in Hm. by destruct (thread_exit t s).
Qed.

(** C34: Heaps. A thread that has a heap shares it with no other thread, also
    when threads exit and their heaps are reused. *)
Theorem ss_heap_private s live t t' :
  ss_reachable s live → s_mem s (ThreadState t) = READY → s_mem s (ThreadState t') = READY → t ≠ t' →
  s_mem s (LocalHeap t) ≠ s_mem s (LocalHeap t') ∧ s_mem s (LocalHeap t) ≠ 0.
Proof.
  intros (g & Hinv & _)%ss_sim Ht Ht' Hne. pose proof (v_threads _ _ _ Hinv) as Hth. split.
  - intros Heq. by apply Hne, (th_excl _ _ _ Hth).
  - destruct (th_ready _ _ _ Hth t Ht) as (Hh & _). pose proof (cs_pos (v_heap _ _ _ Hinv) _ ltac:(by rewrite Hh)). lia.
Qed.
End system.

(** ** An operating system *)

(** The first free address behind the low mappings. *)
Definition low_top (pages : list mapping) : Z :=
  foldr (λ m top, if m.1 <? RAW_POOL_START - POOL_SKEW then Z.max top (m.1 + m.2) else top) PAGE_SIZE pages.

Definition mmap_example (n : nat) (pos size : Z) (pages : list mapping) : Z :=
  if pos =? 0 then
    let r := (low_top pages + PAGE_SIZE - 1) / PAGE_SIZE * PAGE_SIZE in
    if r + size <=? RAW_POOL_START - POOL_SKEW then r else MAP_FAILED
  else
    let r := pos - pos `mod` PAGE_SIZE in
    if r + size <=? POOL_LIMIT then r else MAP_FAILED.

Definition memcpy_example (d p n : Z) (h : mem) : mem := λ c,
  match c with Word a => if (d <=? a) && (a + 8 <=? d + n) then h (Word (a - d + p)) else h c | _ => h c end.

Definition memset_example (p v n : Z) (h : mem) : mem := λ c,
  match c with Word a => if (p <=? a) && (a + 8 <=? p + n) then v * 0x0101010101010101 else h c | _ => h c end.

Definition mremap_example (n : nat) (p old new : Z) (pages : list mapping) : Z := MAP_FAILED.

Lemma low_top_spec pages m : m ∈ pages → m.1 < RAW_POOL_START - POOL_SKEW → m.1 + m.2 ≤ low_top pages.
Proof.
  intros Hm Hlt. induction pages as [|m' pages IH]; [by apply elem_of_nil in Hm|]. simpl.
  apply elem_of_cons in Hm as [->|Hm].
  - rewrite (proj2 (Z.ltb_lt _ _)) by done. lia.
  - specialize (IH Hm). destruct (_ <? _); lia.
Qed.

Lemma low_top_pos pages : PAGE_SIZE ≤ low_top pages.
Proof. induction pages as [|m pages IH]; simpl; [done|]. destruct (_ <? _); lia. Qed.

Lemma mmap_example_ok : mmap_contract mmap_example.
Proof.
  assert (RAW_POOL_START < 2 ^ 47 ∧ RAW_POOL_START - POOL_SKEW < MAP_FAILED) as [? ?] by done. split.
  - intros n size pages Hsz Hok. unfold mmap_example in *. change (0 =? 0) with true in *. cbn iota in *.
    pose proof (low_top_pos pages). pose proof (low_top_spec pages) as Hlow.
    set (top := low_top pages) in *. set (r := (top + PAGE_SIZE - 1) / PAGE_SIZE * PAGE_SIZE) in *.
    destruct (Z.leb_spec (r + size) (RAW_POOL_START - POOL_SKEW)) as [Hle|]; [|done].
    assert (top ≤ r) as Htop.
    { unfold r. change PAGE_SIZE with 4096. pose proof (Z.div_mod (top + 4096 - 1) 4096 ltac:(lia)).
      pose proof (Z.mod_pos_bound (top + 4096 - 1) 4096 ltac:(lia)). lia. }
    change PAGE_SIZE with 4096 in *. split_and!; [by unfold r; rewrite Z.mod_mul|lia|unfold POOL_SKEW in *; lia|by left|].
    intros m Hm. unfold disj. simpl. destruct (decide (m.1 < RAW_POOL_START - POOL_SKEW)) as [Hlt|]; [|lia].
    specialize (Hlow m Hm Hlt). lia.
  - intros n pos size pages Hpos Hsz r _. unfold mmap_example. assert (0 < RAW_POOL_START) by done.
    rewrite (proj2 (Z.eqb_neq pos 0)) by lia. fold r. destruct (Z.leb_spec (r + size) POOL_LIMIT); [by right|by left].
Qed.

Lemma memcpy_example_ok d p n h : agree (block_words d n) h (memcpy_example d p n h).
Proof.
  intros c Hc. destruct c; try done. simpl. destruct (_ && _) eqn:Hb; [|done]. destruct Hc. exists a. split; [done|lia].
Qed.

Lemma memset_example_ok p v n h : agree (block_words p n) h (memset_example p v n h).
Proof.
  intros c Hc. destruct c; try done. simpl. destruct (_ && _) eqn:Hb; [|done]. destruct Hc. exists a. split; [done|lia].
Qed.

Definition ss_run : list ss_label → st * blocks → option (st * blocks) :=
  @run _ _ (ss_sys mmap_example mremap_example memcpy_example memset_example).
Definition ss_reach : st → blocks → Prop := ss_reachable mmap_example mremap_example memcpy_example memset_example.

(** What holds at the end of a run holds of a reachable state. *)
Lemma ss_run_reach ls (P : st → blocks → Prop) :
  match ss_run ls (ss_start, ∅) with Some (s, live) => P s live | None => False end →
  ∃ s live, ss_reach s live ∧ P s live.
Proof.
  destruct (ss_run ls (ss_start, ∅)) as [[s live]|] eqn:Hrun; [|done]. intros HP. exists s, live. split; [|done].
  refine (run_reachable ls (ss_start, ∅) (s, live) _ Hrun). by constructor.
Qed.

(** Two threads; thread 1 frees a block of thread 0, which exits, and whose
    heap thread 2 takes over. *)
Definition ss_demo : list ss_label :=
  [LMalloc 0 24; LMalloc 0 24; LWrite 105553116373760 105553116373768 7; LMalloc 1 100000; LFreeCall 1 105553116373760;
   LExit 0; LMalloc 2 24; LRealloc 2 105553116373784 40; LCalloc 1 3 8; LFreeCall 2 69824].

Lemma ss_demo_state : ∃ s live, ss_reach s live ∧
  (live !! 105553116373808 = Some 24 ∧ live !! 105553116505344 = Some 40 ∧
   s_mem s (ThreadState 1) = READY ∧ s_mem s (ThreadState 2) = READY ∧
   (if malloc mmap_example 0 3000 s is Ret p _ then p = 105553116702720 else False)).
Proof. apply (ss_run_reach ss_demo). vm_compute. repeat split. Qed.

Lemma ss_blocks_apart_witness :
  ∃ s live, ss_reach s live ∧ live !! 105553116373808 = Some 24 ∧ live !! 105553116505344 = Some 40 ∧
  mapped (s_pages s) 105553116505383 = true ∧
  (105553116373808 + 24 ≤ 105553116505344 ∨ 105553116505344 + 40 ≤ 105553116373808).
Proof.
  destruct ss_demo_state as (s & live & Hr & Hp & Hq & _). exists s, live.
  destruct (ss_blocks_apart mmap_example mremap_example memcpy_example memset_example mmap_example_ok
    memcpy_example_ok memset_example_ok s live Hr) as [Hd Hm].
  split_and!; [done..|by apply (Hm 105553116505344 40)|by apply (Hd _ _ _ _ Hp Hq)].
Defined.

Lemma ss_malloc_fresh_witness :
  ∃ s live, ss_reach s live ∧ live !! 105553116505344 = Some 40 ∧
  if malloc mmap_example 0 3000 s is Ret p s' then
    0 < p ∧ mapped (s_pages s') (p + 2999) = true ∧ (p + 3000 ≤ 105553116505344 ∨ 105553116505344 + 40 ≤ p)
  else False.
Proof.
  destruct ss_demo_state as (s & live & Hr & _ & Hq & _ & _ & Hm). exists s, live.
  destruct (malloc mmap_example 0 3000 s) as [p s'| | |] eqn:Heq; try done.
  destruct (ss_malloc_fresh mmap_example mremap_example memcpy_example memset_example mmap_example_ok
    memcpy_example_ok memset_example_ok s live 0 3000 p s' Hr ltac:(done) Heq) as (Hpos & Hmap & Hap).
  split_and!; [done..|apply Hmap; lia|by apply (Hap _ _ Hq)].
Defined.

Lemma ss_calls_return_witness :
  ∃ s live, ss_reach s live ∧ is_Some (live !! 105553116505344) ∧
  match free mmap_example 1 105553116505344 s with Faults | Hangs => False | _ => True end.
Proof.
  destruct ss_demo_state as (s & live & Hr & _ & Hq & _). exists s, live.
  destruct (ss_calls_return mmap_example mremap_example memcpy_example memset_example mmap_example_ok
    memcpy_example_ok memset_example_ok s live Hr) as (_ & Hf & _).
  split_and!; [done|by eauto|apply Hf; by eauto].
Defined.

Lemma ss_heap_private_witness :
  ∃ s live, ss_reach s live ∧ s_mem s (ThreadState 1) = READY ∧ s_mem s (ThreadState 2) = READY ∧
  s_mem s (LocalHeap 1) ≠ s_mem s (LocalHeap 2).
Proof.
  destruct ss_demo_state as (s & live & Hr & _ & _ & H1 & H2 & _). exists s, live. split_and!; [done..|].
  apply (ss_heap_private mmap_example mremap_example memcpy_example memset_example mmap_example_ok
    memcpy_example_ok memset_example_ok s live 1 2 Hr H1 H2). done.
Defined.

(** ** Calls that break their contracts *)

(** C36: Defects of the interface. The second block of [memalign(64, 72)] is
    not aligned; [memalign] as the first call dereferences NULL; [malloc] of a
    size near 2^64 returns a block without that memory; [calloc] of 2^32 times
    2^32 bytes returns a block of 8 bytes; [realloc(p, 0)] returns [p], which
    is free and is returned again by [malloc]. *)
Theorem ss_interface_errors :
  (∃ s live, ss_reach s live ∧
     if memalign mmap_example 1 0 64 72 s is Ret p _ then p `mod` 64 ≠ 0 else False) ∧
  memalign mmap_example 1 0 64 72 ss_start = Faults ∧
  (if malloc mmap_example 0 (2 ^ 64 - 1) ss_start is Ret p s' then 0 < p ∧ mapped (s_pages s') (p + 4096) = false
   else False) ∧
  (if (p <- calloc mmap_example memset_example 0 (2 ^ 32) (2 ^ 32);; q <- malloc mmap_example 0 1;; ret (p, q)) ss_start
      is Ret (p, q) _ then q = p + 8 else False) ∧
  (∃ s live p, ss_reach s live ∧ live !! p = Some 24 ∧
     if (q <- realloc mmap_example mremap_example memcpy_example 0 p 0;; r <- malloc mmap_example 0 24;; ret (q, r)) s
       is Ret (q, r) _ then q = p ∧ r = p else False).
Proof.
  split_and!.
  - apply (ss_run_reach [LMalloc 0 72]). vm_compute. done.
  - vm_compute. done.
  - vm_compute. done.
  - vm_compute. done.
  - destruct (ss_run_reach [LMalloc 0 24] (λ s live, live !! 105553116373760 = Some 24 ∧
      if (q <- realloc mmap_example mremap_example memcpy_example 0 105553116373760 0;; r <- malloc mmap_example 0 24;; ret (q, r)) s
        is Ret (q, r) _ then q = 105553116373760 ∧ r = 105553116373760 else False)) as (s & live & Hr & Hp & Hq).
    { vm_compute. done. }
    by exists s, live, 105553116373760.
Qed.
