(* ===== verification/SsTypes.v ===== *)
(** * Types of the SSMalloc headers

    [free] and [realloc] find the header of a block by masking its address, and
    trust every field of it.  In each reachable state of [SsSystem.v] the header
    found that way for a block in use is a well-typed one. *)

From S2P Require Import Prelude Lts SsSize SsQueue SsMem SsMalloc SsLinks SsInv SsPool SsLarge SsThm SsSystem.

Local Open Scope Z_scope.

(** ** Headers *)

(** A data chunk header with the types of [dchunk_s]: a size class with its
    block size and block count, one of the three states, and counters of that
    width. *)
Record dchunk_typed (h : mem) (dc : Z) : Prop := {
  dt_cls : 0 ≤ h (SizeCls dc) < NCLS;
  dt_size : h (BlockSize dc) = sz (h (SizeCls dc));
  dt_cnt : h (BlkCnt dc) = CHUNK_DATA_SIZE / h (BlockSize dc);
  dt_state : h (State dc) = FOREGROUND ∨ h (State dc) = BACKGROUND ∨ h (State dc) = FULL;
  dt_free : 0 ≤ h (FreeBlkCnt dc) ≤ h (BlkCnt dc);
  dt_full : h (State dc) = FULL ↔ h (FreeBlkCnt dc) = 0;
  dt_mem : ∃ k, 0 ≤ k ≤ h (BlkCnt dc) ∧ h (FreeMem dc) = dc + DCH + k * h (BlockSize dc);
}.

(** What stands before a block of [n] bytes at [p]: the header of a data chunk
    that has cut off [p] and has not got it back, or a large header. *)
Definition block_typed (h : mem) (p n : Z) : Prop :=
  let dc := dchunk_extract p in
  if bool_decide (h (Owner dc) = LARGE_OWNER) then h (Mem dc) ≤ dc ∧ p + n ≤ h (Mem dc) + h (AllocSize dc)
  else dchunk_typed h dc ∧ n ≤ h (BlockSize dc) ∧ h (FreeBlkCnt dc) < h (BlkCnt dc) ∧
    (p - (dc + DCH)) `mod` h (BlockSize dc) = 0 ∧ dc + DCH ≤ p < h (FreeMem dc).

(** ** Data chunks *)

Section chunk.
Context {H : hole} {g : ghost} {h : mem} (Hok : heap_ok H g h).

(** The free blocks of a chunk, and any other block that it has cut off. *)
Lemma free_others dc lh c k l :
  cdata (g_cs g dc) = Some (lh, c) → h (FreeMem dc) = dc + DCH + k * sz c →
  NoDup (l ++ g_ls g (LFree dc)) → (∀ x, x ∈ l → block h dc x) → length l + length (g_ls g (LFree dc)) ≤ k.
Proof.
  intros Hd Hfm Hnd Hl. assert (length (l ++ g_ls g (LFree dc)) ≤ k) as Hlen.
  { apply (block_count Hok dc lh c _ _ Hd Hfm Hnd). intros x [Hx|Hx]%elem_of_app; [by apply Hl|].
    apply (chunk_blocks Hok). by left. }
  rewrite length_app in Hlen. lia.
Qed.

Lemma chunk_typed dc lh c : cdata (g_cs g dc) = Some (lh, c) → dchunk_typed h dc.
Proof.
  intros Hd. destruct (i_chunk _ _ _ Hok dc lh c Hd) as [Hcls _ _ Hsc Hbs Hcnt Hst (k & Hk & Hfm & Hfr) _ Hfree].
  pose proof (free_others dc lh c k [] Hd Hfm (lk_nodup _ _ _ _ (i_links _ _ _ Hok) _)
    (λ x Hx, match not_elem_of_nil _ Hx with end)) as Hlen. simpl in Hlen.
  split; rewrite ?Hbs, ?Hsc, ?Hcnt; try done.
  - rewrite Hst. destruct (g_cs g dc); simpl; auto.
  - lia.
  - rewrite Hst. case_bool_decide as Hf; [rewrite Hf; simpl; split; [done|]; lia|].
    destruct (g_cs g dc); simplify_eq/=; split; intros; done || lia.
  - by exists k.
Qed.

(** A block in use is not among the free blocks of its chunk. *)
Lemma live_counted x lh c :
  x ∈ g_live g → cdata (g_cs g (dchunk_extract x)) = Some (lh, c) →
  h (FreeBlkCnt (dchunk_extract x)) < h (BlkCnt (dchunk_extract x)).
Proof.
  intros Hx Hd. destruct (i_live _ _ _ Hok x Hx) as (_ & Hb & Hnot).
  destruct (i_chunk _ _ _ Hok _ lh c Hd) as [_ _ _ _ _ Hcnt _ (k & Hk & Hfm & Hfr) _ _].
  assert (length [x] + length (g_ls g (LFree (dchunk_extract x))) ≤ k) as Hlen; [|simpl in Hlen; lia].
  apply (free_others _ lh c k [x] Hd Hfm).
  - constructor; [apply Hnot|apply (lk_nodup _ _ _ _ (i_links _ _ _ Hok))].
  - by intros y ->%list_elem_of_singleton.
Qed.
End chunk.

(** ** Blocks in use *)

Lemma sim_typed s live p n : sim live s → live !! p = Some n → block_typed (s_mem s) p n.
Proof.
  intros (g & Hinv & Hl) Hp. pose proof (v_heap _ _ _ Hinv) as Hok. unfold block_typed.
  destruct (Hl p n Hp) as [_ [(Hx & lh & c & Hd & Hn)|(m & Hm & Hn)]].
  - pose proof (i_chunk _ _ _ Hok _ lh c Hd) as Hck. pose proof (ck_bs _ _ _ _ _ Hck) as Hbs.
    assert (LARGE_OWNER = 57005 ∧ 57005 < RAW_POOL_START) as [HLO HR] by done.
    rewrite bool_decide_false; swap 1 2.
    { rewrite (ck_owner _ _ _ _ _ Hck). pose proof (ck_heap _ _ _ _ _ Hck) as Hh.
      destruct (i_pos _ _ _ Hok lh) as (Hlo & _); [by rewrite Hh|]. lia. }
    destruct (i_live _ _ _ Hok p Hx) as (_ & (i & Hi & Hpi & Hlt) & _).
    destruct (small_range Hinv p lh c Hx Hd) as (Hlo & _).
    split_and!; [by apply (chunk_typed Hok _ lh c)|by rewrite Hbs|by apply (live_counted Hok p lh c)| |done..].
    replace (p - (dchunk_extract p + DCH)) with (i * s_mem s (BlockSize (dchunk_extract p))) by lia.
    apply Z_mod_mult.
  - destruct (v_large _ _ _ Hinv p m Hm) as [_ _ Hh _ Ho Hs Hme]. rewrite bool_decide_true by done.
    rewrite Hs, Hme. done.
Qed.

(** C35: Types of the headers. After every sequence of calls with sizes that do not wrap around, the header in
    front of a block in use is well typed: it is marked as a large header and
    its mapping contains the block, or it is a data chunk whose size class,
    block size, block count, state, free counter and cut-off address fit
    together, the block is one of those cut off, on a multiple of the block
    size, large enough, and not counted as free. *)
Theorem ss_headers_typed mmap mremap memcpy memset s live p n :
  mmap_contract mmap →
  (∀ d p n h, agree (block_words d n) h (memcpy d p n h)) → (∀ p v n h, agree (block_words p n) h (memset p v n h)) →
  ss_reachable mmap mremap memcpy memset s live → live !! p = Some n → block_typed (s_mem s) p n.
Proof. intros Hmm Hcpy Hset Hs%ss_sim; [|done..]. by apply sim_typed. Qed.

Lemma ss_headers_typed_witness :
  ∃ s live, ss_reach s live ∧ live !! 105553116505344 = Some 40 ∧ block_typed (s_mem s) 105553116505344 40.
Proof.
  destruct ss_demo_state as (s & live & Hr & _ & Hq & _). exists s, live. split_and!; [done..|].
  apply (ss_headers_typed mmap_example mremap_example memcpy_example memset_example s live);
    [apply mmap_example_ok|apply memcpy_example_ok|apply memset_example_ok|done..].
Defined.
