(* ===== verification/Printme.v ===== *)
(** * Helpers of the benchmarks ([printme.c])

    The random numbers, and the line that a bound thread prints: for every
    core the hardware threads, marked where the thread may run.  hwloc, the
    operating system and the allocator are parameters. *)

From Stdlib Require Import Ascii.
From Stdlib Require String.
From stdpp Require Import pretty.
From S2P Require Import Prelude.

Local Open Scope Z_scope.

(** ** Random numbers *)

(** [open] and [read]: a file descriptor or -1; the value that is in the buffer
    after the call.  [None] when the process exits. *)
Definition urandom_init (open : string → Z) : option Z :=
  let urandom_fd := open "/dev/urandom"%string in
  if bool_decide (urandom_fd = -1) then None else Some urandom_fd.

Definition urandom (read : Z → Z → Z) (buf_impl : Z) (urandom_fd : Z) : Z := read urandom_fd buf_impl.

(** ** Strings *)

Definition BUFSIZ : nat := 8192.

(** [strncat(dst, src, n)] *)
Definition strncat (dst src : string) (n : Z) : string := (dst ++ String.substring 0 (Z.to_nat n) src)%string.

Definition strlen (s : string) : Z := Z.of_nat (String.length s).

(** What [snprintf] leaves in a buffer of [n] bytes. *)
Definition snprintf (n : Z) (s : string) : string := String.substring 0 (Z.to_nat (n - 1)) s.

(** ** Ranges *)

(** The state of the loop: [ret], [first], [range_start]. *)
Record brs := Brs { b_ret : string; b_first : bool; b_range_start : Z }.

(** [bitmap & (1 << i)] *)
Definition bit_isset (bitmap i : Z) : bool := negb (bool_decide (Z.land bitmap (s32 (Z.shiftl 1 i)) = 0)).

Definition range_text (range_start range_end : Z) : string :=
  let stmp := Z.of_nat BUFSIZ - 1 in
  if bool_decide (range_start = range_end) then snprintf stmp (pretty range_start)
  else snprintf stmp (pretty range_start ++ "-" ++ pretty range_end).

Definition ret_cat (ret s : string) : string := strncat ret s (Z.of_nat BUFSIZ - strlen ret - 1).

Definition brs_step (bitmap i : Z) (s : brs) : brs :=
  let isset := bit_isset bitmap i in
  if 0 <=? b_range_start s then
    if isset then s
    else
      let ret := if b_first s then b_ret s else ret_cat (b_ret s) "," in
      Brs (ret_cat ret (range_text (b_range_start s) (i - 1))) false (-999)
  else if isset then Brs (b_ret s) (b_first s) i else s.

Fixpoint brs_loop (n : nat) (bitmap i : Z) (s : brs) : brs :=
  match n with O => s | S n => brs_loop n bitmap (i + 1) (brs_step bitmap i s) end.

Definition bitmap2rangestr (bitmap : Z) : string :=
  let s := brs_loop 32 bitmap 0 (Brs "" true (-999)) in
  if 0 <=? b_range_start s then
    let ret := if b_first s then b_ret s else ret_cat (b_ret s) "," in
    ret_cat ret (range_text (b_range_start s) (32 - 1))
  else b_ret s.

(** A reader of such strings: numbers and ranges, separated by commas. *)
Record rst := Rst { r_done : list Z; r_lo : option Z; r_cur : Z }.

Definition r_flush (r : rst) : list Z :=
  let lo := default (r_cur r) (r_lo r) in r_done r ++ seqZ lo (r_cur r - lo + 1).

Definition r_char (c : ascii) (r : rst) : option rst :=
  let n := Z.of_N (N_of_ascii c) in
  if (48 <=? n) && (n <=? 57) then Some (Rst (r_done r) (r_lo r) (r_cur r * 10 + (n - 48)))
  else if bool_decide (c = "-"%char) then Some (Rst (r_done r) (Some (r_cur r)) 0)
  else if bool_decide (c = ","%char) then Some (Rst (r_flush r) None 0)
  else None.

Fixpoint r_run (s : string) (r : rst) : option rst :=
  match s with
  | EmptyString => Some r
  | String c s => match r_char c r with Some r' => r_run s r' | None => None end
  end.

Definition read_ranges (s : string) : option (list Z) :=
  if bool_decide (s = ""%string) then Some [] else r_flush <$> r_run s (Rst [] None 0).

(** ** The line *)

(** [hwloc_obj_t]: the fields that are used. *)
Inductive hwloc_type := HWLOC_OBJ_SOCKET | HWLOC_OBJ_CORE | HWLOC_OBJ_PU | HWLOC_OBJ_OTHER.

#[export] Instance hwloc_type_eq_dec : EqDecision hwloc_type.
Proof. solve_decision. Defined.

Record hwloc_obj := HObj { o_type : hwloc_type; o_logical_index : Z; o_sibling_rank : Z; o_os_index : Z }.

(** What hwloc answers: the numbers of sockets and cores, the hardware threads
    of a set of processors, each followed by its ancestors, and for every
    socket and every core of it the hardware threads. *)
Record hwloc_topology := Topo {
  t_nbsockets : Z;
  t_nbcores : Z;
  t_inside : (Z → bool) → list (list hwloc_obj);
  t_sockets : list (list (list hwloc_obj));
}.

(** A call prints and returns, or leaves what C defines, as by writing behind
    the end of an array. *)
Inductive pout := PReturn (code : Z) (text : string) | POverflow.

(** [while (NULL != o && o->type != type) o = o->parent;] and the index. *)
Fixpoint find_up (type : hwloc_type) (chain : list hwloc_obj) : Z :=
  match chain with
  | [] => 0
  | o :: chain => if bool_decide (o_type o = type) then o_logical_index o else find_up type chain
  end.

(** [data[socket_index][core_index] |= (1 << pu->sibling_rank)] for all of them;
    [None] when an index or the shift is out of range. *)
Fixpoint fill_data (t : hwloc_topology) (pus : list (list hwloc_obj)) (data : Z → Z) : option (Z → Z) :=
  match pus with
  | [] => Some data
  | chain :: pus =>
      let core_index := find_up HWLOC_OBJ_CORE chain in
      let socket_index := find_up HWLOC_OBJ_SOCKET chain in
      let i := socket_index * t_nbcores t + core_index in
      let sibling_rank := match chain with pu :: _ => o_sibling_rank pu | [] => 0 end in
      if (0 <=? i) && (i <? t_nbsockets t * t_nbcores t) && (0 <=? sibling_rank) && (sibling_rank <? 32) then
        fill_data t pus (<[i := Z.lor (data i) (s32 (Z.shiftl 1 sibling_rank))]> data)
      else None
  end.

Definition LEN : Z := 1024.

(** [strncat(str, s, len - strlen(str))]: the terminating zero is the last byte
    written. *)
Definition str_cat (str s : string) : option string :=
  let r := strncat str s (LEN - strlen str) in
  if strlen r + 1 <=? LEN then Some r else None.

(** The inner loop over the cores of a socket, from core [c]. *)
Fixpoint str1_cores (n : nat) (t : hwloc_topology) (data : Z → Z) (k c : Z) (first : bool) (str1 : string) : option (bool * string) :=
  match n with
  | O => Some (first, str1)
  | S n =>
      let bits := data (k * t_nbcores t + c) in
      if 0 <? bits then
        str1 ← (if first then Some str1 else str_cat str1 ", ");
        let tmp1 := snprintf (LEN - 1) ("socket " ++ pretty k ++ "[core " ++ pretty c ++ "[hwt " ++ bitmap2rangestr bits ++ "]]") in
        str1 ← str_cat str1 tmp1;
        str1_cores n t data k (c + 1) false str1
      else str1_cores n t data k (c + 1) first str1
  end.

Fixpoint str1_sockets (n : nat) (t : hwloc_topology) (data : Z → Z) (k : Z) (first : bool) (str1 : string) : option string :=
  match n with
  | O => Some str1
  | S n =>
      '(first, str1) ← str1_cores (Z.to_nat (t_nbcores t)) t data k 0 first str1;
      str1_sockets n t data (k + 1) first str1
  end.

Fixpoint str2_pus (cpuset : Z → bool) (pus : list hwloc_obj) (str2 : string) : option string :=
  match pus with
  | [] => Some str2
  | pu :: pus => str2 ← str_cat str2 (if cpuset (o_os_index pu) then "B" else "."); str2_pus cpuset pus str2
  end.

Fixpoint str2_cores (cpuset : Z → bool) (cores : list (list hwloc_obj)) (core_index : Z) (str2 : string) : option string :=
  match cores with
  | [] => Some str2
  | core :: cores =>
      str2 ← (if 0 <? core_index then str_cat str2 "/" else Some str2);
      str2 ← str2_pus cpuset core str2;
      str2_cores cpuset cores (core_index + 1) str2
  end.

Fixpoint str2_sockets (cpuset : Z → bool) (sockets : list (list (list hwloc_obj))) (str2 : string) : option string :=
  match sockets with
  | [] => Some str2
  | socket :: sockets =>
      str2 ← str_cat str2 "[";
      str2 ← str2_cores cpuset socket 0 str2;
      str2 ← str_cat str2 "]";
      str2_sockets cpuset sockets str2
  end.

(** [cpubind] is what [hwloc_get_cpubind] gives, [malloc_ok] and [calloc_ok]
    whether the allocations succeed.  Without a socket [data[0]] is behind the
    array. *)
Definition printme (t : hwloc_topology) (cpubind : option (Z → bool)) (malloc_ok calloc_ok : bool) (hostname instr : string) : pout :=
  match cpubind with
  | None => PReturn 0 ("Not Bound" +:+ String "010" "")
  | Some cpuset =>
      if negb malloc_ok then PReturn 1 ("Error in allocation" +:+ String "010" "")
      else if t_nbsockets t <=? 0 then POverflow
      else if negb calloc_ok then PReturn 1 ("Error in allocation" +:+ String "010" "")
      else
        match (data ← fill_data t (t_inside t cpuset) (λ _, 0);
               _ ← str1_sockets (Z.to_nat (t_nbsockets t)) t data 0 true "";
               str2_sockets cpuset (t_sockets t) "") with
        | Some str2 => PReturn 0 (hostname ++ ": " ++ instr ++ " " ++ str2 ++ String "010" "")
        | None => POverflow
        end
  end.

(** *** Proof *)

Lemma string_app_nil (s : string) : (s ++ "")%string = s.
Proof. induction s as [|c s IH]; [done|]. apply (f_equal (String c) IH). Qed.

Lemma string_app_assoc (s t u : string) : ((s ++ t) ++ u)%string = (s ++ (t ++ u))%string.
Proof. induction s as [|c s IH]; [done|]. apply (f_equal (String c) IH). Qed.

Lemma strlen_app s t : strlen (s ++ t) = strlen s + strlen t.
Proof.
  unfold strlen. induction s as [|c s IH]; [done|]. change (String c s +:+ t) with (String c (s +:+ t)).
  cbn [String.length]. lia.
Qed.

Lemma substring_whole s n : (String.length s ≤ n)%nat → String.substring 0 n s = s.
Proof.
  revert n. induction s as [|c s IH]; intros [|n] Hn; simpl in *; try done; [lia|]. by rewrite IH by lia.
Qed.

Lemma ret_cat_fits ret s : strlen ret + strlen s < 8192 → ret_cat ret s = (ret ++ s)%string.
Proof.
  intros Hn. unfold ret_cat, strncat. rewrite substring_whole; [done|]. unfold strlen in *. change (Z.of_nat BUFSIZ) with 8192. lia.
Qed.

Lemma bit_isset_testbit bitmap i : - 2 ^ 31 ≤ bitmap < 2 ^ 31 → 0 ≤ i < 32 → bit_isset bitmap i = Z.testbit bitmap i.
Proof.
  intros Hb Hi. unfold bit_isset. rewrite Z.shiftl_1_l.
  assert (Z.land bitmap (s32 (2 ^ i)) = 0 ↔ Z.testbit bitmap i = false) as Heq.
  { destruct (decide (i = 31)) as [->|Hne].
    - change (s32 (2 ^ 31)) with (Z.lnot (Z.ones 31)). rewrite <-Z.ldiff_land, Z.ldiff_ones_r by lia.
      rewrite Z.shiftl_mul_pow2, Z.shiftr_div_pow2, Z.testbit_eqb by lia.
      destruct (decide (bitmap < 0)).
      + replace (bitmap / 2 ^ 31) with (-1) by (apply (Z.div_unique _ _ _ (bitmap + 2 ^ 31)); lia). done.
      + rewrite Z.div_small by lia. done.
    - rewrite wrap_s_small; [|lia|split; [|apply Z.pow_lt_mono_r; lia]; pose proof (Z.pow_pos_nonneg 2 i); lia]. split; intros Ht.
      + rewrite <-Z.bits_inj_iff' in Ht. specialize (Ht i ltac:(lia)).
        rewrite Z.land_spec, Z.pow2_bits_true, andb_true_r, Z.bits_0 in Ht by lia. done.
      + apply Z.bits_inj'. intros k Hk. rewrite Z.land_spec, Z.bits_0, Z.pow2_bits_eqb by lia.
        destruct (Z.eqb_spec i k) as [<-|]; [by rewrite Ht|apply andb_false_r]. }
  case_bool_decide as Hc; simpl.
  - symmetry. by apply Heq.
  - destruct (Z.testbit bitmap i); [done|]. exfalso. by apply Hc, Heq.
Qed.

(** Finitely many cases. *)
Lemma all_below (n : nat) (P : Z → Prop) : Forall P (Z.of_nat <$> List.seq 0 n) → ∀ i, 0 ≤ i < Z.of_nat n → P i.
Proof.
  intros Hall i Hi. rewrite Forall_forall in Hall. apply Hall, list_elem_of_fmap. exists (Z.to_nat i). split; [lia|].
  apply list_elem_of_In, in_seq. lia.
Qed.

(** The digits of a small number. *)
Lemma read_number n s d lo : 0 ≤ n < 32 → r_run (pretty n ++ s) (Rst d lo 0) = r_run s (Rst d lo n).
Proof.
  intros Hn. apply (all_below 32 (λ n, ∀ s d lo, r_run (pretty n ++ s) (Rst d lo 0) = r_run s (Rst d lo n))); [|lia].
  clear. repeat (constructor; [intros s d lo; reflexivity|]). constructor.
Qed.

Lemma number_length n : 0 ≤ n < 32 → 1 ≤ strlen (pretty n) ≤ 2.
Proof.
  apply (all_below 32 (λ n, 1 ≤ strlen (pretty n) ≤ 2)). repeat (constructor; [by vm_compute|]). constructor.
Qed.

Lemma r_run_app s t r : r_run (s ++ t) r = match r_run s r with Some r' => r_run t r' | None => None end.
Proof.
  revert r. induction s as [|c s IH]; intros r; [done|]. change (String c s +:+ t) with (String c (s +:+ t)).
  cbn [r_run]. destruct (r_char c r); [apply IH|done].
Qed.

(** The text of a range, and how it is read. *)
Lemma range_text_eq a b :
  0 ≤ a ≤ b → b < 32 → 1 ≤ strlen (range_text a b) ≤ 5 ∧ ∀ d, ∃ r, r_run (range_text a b) (Rst d None 0) = Some r ∧ r_flush r = d ++ seqZ a (b - a + 1).
Proof.
  intros Ha Hb. pose proof (number_length a ltac:(lia)) as La. pose proof (number_length b ltac:(lia)) as Lb.
  assert (range_text a b = if bool_decide (a = b) then pretty a else (pretty a ++ "-" ++ pretty b)%string) as ->.
  { unfold range_text, snprintf. case_bool_decide; rewrite substring_whole; try done; unfold strlen in *; change (Z.of_nat BUFSIZ) with 8192; [lia|].
    pose proof (strlen_app (pretty a) ("-" ++ pretty b)) as H1. pose proof (strlen_app "-" (pretty b)) as H2. unfold strlen in *.
    change (Z.of_nat (String.length "-")) with 1 in H2. lia. }
  case_bool_decide as Heq.
  - split; [lia|]. intros d. subst b. exists (Rst d None a). split; [|done].
    rewrite <-(string_app_nil (pretty a)). rewrite read_number by lia. done.
  - rewrite !strlen_app. change (strlen "-") with 1. split; [lia|]. intros d. exists (Rst d (Some a) b). split; [|done].
    rewrite read_number by lia. change (r_run ("-" +:+ pretty b) (Rst d None a)) with (r_run (pretty b) (Rst d (Some a) 0)).
    rewrite <-(string_app_nil (pretty b)). by rewrite read_number by lia.
Qed.

(** What has been written stands for the list [l]. *)
Definition reads (s : string) (l : list Z) : Prop :=
  (s = ""%string ∧ l = []) ∨ (s ≠ ""%string ∧ r_flush <$> r_run s (Rst [] None 0) = Some l).

Lemma reads_emit s l (first : bool) a b :
  reads s l → (first = true ↔ s = ""%string) → 0 ≤ a ≤ b → b < 32 → strlen s + 6 < 8192 →
  let s' := ret_cat (if first then s else ret_cat s ",") (range_text a b) in
  reads s' (l ++ seqZ a (b - a + 1)) ∧ s' ≠ ""%string ∧ strlen s' ≤ strlen s + 6.
Proof.
  intros Hr Hf Ha Hb Hlen s'. destruct (range_text_eq a b Ha Hb) as [Hl Hread].
  assert (strlen ""%string = 0 ∧ strlen ","%string = 1) as [H0 H1] by done.
  assert (s' = ((if first then s else s ++ ",") ++ range_text a b)%string) as ->.
  { unfold s'. destruct first; [rewrite ret_cat_fits by lia; done|]. rewrite (ret_cat_fits s) by lia.
    rewrite ret_cat_fits by (rewrite strlen_app; lia). done. }
  assert (((if first then s else s ++ ",") ++ range_text a b)%string ≠ ""%string) as Hne.
  { intros Heq. apply (f_equal strlen) in Heq. rewrite strlen_app, H0 in Heq.
    assert (∀ t, 0 ≤ strlen t) as Hp by (intros; unfold strlen; lia). specialize (Hp (if first then s else s +:+ ",")). lia. }
  split_and!; [right|done|rewrite strlen_app; destruct first; rewrite ?strlen_app; lia]. split; [done|].
  destruct first.
  - assert (s = ""%string) as -> by by apply Hf. destruct Hr as [[_ ->]|[? _]]; [|done].
    destruct (Hread []) as (r & Hr & Hfl). change ("" +:+ range_text a b) with (range_text a b). rewrite Hr. simpl. by rewrite Hfl.
  - destruct Hr as [[-> _]|[_ Hr]]; [by destruct Hf as [_ ?%(λ H, H eq_refl)]|].
    destruct (r_run s (Rst [] None 0)) as [r0|] eqn:Hr0; [|done]. injection Hr as Hr.
    rewrite string_app_assoc, r_run_app, Hr0. destruct (Hread l) as (r & Hr' & Hfl).
    change (r_run ("," +:+ range_text a b) r0) with (r_run (range_text a b) (Rst (r_flush r0) None 0)).
    rewrite Hr, Hr'. simpl. by rewrite Hfl.
Qed.

Definition set_bits (bitmap n : Z) : list Z := filter (λ j, Z.testbit bitmap j = true) (seqZ 0 n).

Lemma set_bits_succ bitmap n :
  0 ≤ n → set_bits bitmap (n + 1) = set_bits bitmap n ++ (if Z.testbit bitmap n then [n] else []).
Proof.
  intros Hn. unfold set_bits. rewrite seqZ_app by lia. rewrite filter_app. f_equal. change (0 + n) with n. simpl.
  rewrite seqZ_cons by lia. rewrite filter_cons. replace (Z.pred 1) with 0 by lia. simpl.
  destruct (Z.testbit bitmap n); [by rewrite decide_True by done|by rewrite decide_False by done].
Qed.

Lemma filter_whole {A} (P : A → Prop) `{∀ x, Decision (P x)} (l : list A) : (∀ x, x ∈ l → P x) → filter P l = l.
Proof.
  induction l as [|x l IH]; intros Hl; [done|]. rewrite filter_cons_True by (apply Hl; by left).
  by rewrite IH by (intros y Hy; apply Hl; by right).
Qed.

Lemma set_bits_run bitmap a n :
  0 ≤ a ≤ n → (∀ j, a ≤ j < n → Z.testbit bitmap j = true) → set_bits bitmap n = set_bits bitmap a ++ seqZ a (n - a).
Proof.
  intros Ha Hall. unfold set_bits. replace n with (a + (n - a)) at 1 by lia. rewrite seqZ_app by lia. rewrite filter_app. f_equal.
  change (0 + a) with a. apply filter_whole. intros j Hj%elem_of_seqZ. apply Hall. lia.
Qed.

Record brs_ok (bitmap i : Z) (s : brs) : Prop := {
  bo_first : b_first s = true ↔ b_ret s = ""%string;
  bo_len : strlen (b_ret s) ≤ 6 * i;
  bo_open : 0 ≤ b_range_start s → b_range_start s < i ∧ reads (b_ret s) (set_bits bitmap (b_range_start s)) ∧
    ∀ j, b_range_start s ≤ j < i → Z.testbit bitmap j = true;
  bo_closed : b_range_start s < 0 → reads (b_ret s) (set_bits bitmap i);
}.

(** A range that is written out. *)
Lemma brs_emit bitmap i s :
  brs_ok bitmap i s → 0 ≤ b_range_start s → i ≤ 32 →
  let ret := ret_cat (if b_first s then b_ret s else ret_cat (b_ret s) ",") (range_text (b_range_start s) (i - 1)) in
  reads ret (set_bits bitmap i) ∧ ret ≠ ""%string ∧ strlen ret ≤ 6 * i + 6.
Proof.
  intros [Hf Hl Ho _] Hrs Hi ret. destruct (Ho Hrs) as (Hlt & Hr & Hall).
  destruct (reads_emit (b_ret s) _ (b_first s) (b_range_start s) (i - 1) Hr Hf) as (Hr' & Hne & Hlen); [lia..|].
  rewrite (set_bits_run bitmap (b_range_start s) i) by (done || lia).
  replace (i - 1 - b_range_start s + 1) with (i - b_range_start s) in Hr' by lia.
  split_and!; [done..|]. unfold ret. lia.
Qed.

Lemma brs_step_ok bitmap i s :
  - 2 ^ 31 ≤ bitmap < 2 ^ 31 → 0 ≤ i < 32 → brs_ok bitmap i s → brs_ok bitmap (i + 1) (brs_step bitmap i s).
Proof.
  intros Hb Hi Hs. unfold brs_step. rewrite bit_isset_testbit by done. pose proof (set_bits_succ bitmap i ltac:(lia)) as Hsucc.
  destruct (Z.leb_spec 0 (b_range_start s)) as [Hrs|Hrs], (Z.testbit bitmap i) eqn:Hbit.
  - destruct Hs as [? ? Ho ?]. destruct (Ho Hrs) as (? & ? & Hall). split; try done; [lia| |lia]. intros _. split_and!; [lia|done|].
    intros j Hj. destruct (decide (j = i)) as [->|]; [done|]. apply Hall. lia.
  - destruct (brs_emit bitmap i s Hs Hrs ltac:(lia)) as (Hr & Hne & Hlen). rewrite app_nil_r in Hsucc.
    split; simpl; [done|lia|lia|]. intros _. by rewrite Hsucc.
  - destruct Hs as [? ? ? Hc]. split; simpl; [done|lia| |lia]. intros _. split_and!; [lia|by apply Hc|].
    intros j Hj. by replace j with i by lia.
  - destruct Hs as [? ? ? Hc]. rewrite app_nil_r in Hsucc. split; [done|lia|lia|]. rewrite Hsucc. done.
Qed.

Lemma brs_loop_ok n bitmap i s :
  - 2 ^ 31 ≤ bitmap < 2 ^ 31 → 0 ≤ i → i + Z.of_nat n ≤ 32 → brs_ok bitmap i s → brs_ok bitmap (i + Z.of_nat n) (brs_loop n bitmap i s).
Proof.
  intros Hb. revert i s. induction n as [|n IH]; intros i s Hi Hn Hs; cbn [brs_loop].
  - by replace (i + Z.of_nat 0) with i by lia.
  - replace (i + Z.of_nat (S n)) with (i + 1 + Z.of_nat n) by lia. apply IH; [lia..|]. apply brs_step_ok; [done|lia|done].
Qed.

(** C37: Round trip of the ranges. For every 32-bit bitmap, reading the text
    that [bitmap2rangestr] writes gives the bits that are set, in order. *)
Theorem bitmap2rangestr_roundtrip bitmap :
  - 2 ^ 31 ≤ bitmap < 2 ^ 31 → read_ranges (bitmap2rangestr bitmap) = Some (set_bits bitmap 32).
Proof.
  intros Hb. unfold bitmap2rangestr. assert (brs_ok bitmap 0 (Brs "" true (-999))) as Hs0.
  { split; simpl; [done|done|lia|]. intros _. by left. }
  pose proof (brs_loop_ok 32 bitmap 0 _ Hb ltac:(lia) ltac:(lia) Hs0) as Hs. change (0 + Z.of_nat 32) with 32 in Hs.
  set (s := brs_loop 32 bitmap 0 (Brs "" true (-999))) in *.
  assert (∀ t l, reads t l → read_ranges t = Some l) as Hread.
  { intros t l [[-> ->]|[Hne Hr]]; [done|]. unfold read_ranges. by rewrite bool_decide_false. }
  apply Hread. destruct (Z.leb_spec 0 (b_range_start s)) as [Hrs|Hrs].
  - by apply (brs_emit bitmap 32 s Hs Hrs).
  - by apply (bo_closed _ _ _ Hs).
Qed.

Lemma bitmap2rangestr_roundtrip_witness :
  - 2 ^ 31 ≤ -11 < 2 ^ 31 ∧ bitmap2rangestr (-11) = "0,2,4-31"%string ∧
  read_ranges (bitmap2rangestr (-11)) = Some (set_bits (-11) 32).
Proof. split_and!; [lia..|done|]. apply bitmap2rangestr_roundtrip. lia. Defined.

(** *** The line, without arrays *)

Fixpoint join (sep : string) (l : list string) : string :=
  match l with [] => "" | [x] => x | x :: l => x ++ sep ++ join sep l end.

Definition concat_text (l : list string) : string := foldr String.append "" l.

(** The cores that the thread may use, as in "socket 0[core 1[hwt 0-1]]". *)
Definition core_entries (t : hwloc_topology) (data : Z → Z) (k c : Z) (n : nat) : list string :=
  flat_map (λ c, let bits := data (k * t_nbcores t + c) in
    if 0 <? bits then
      [snprintf (LEN - 1) ("socket " ++ pretty k ++ "[core " ++ pretty c ++ "[hwt " ++ bitmap2rangestr bits ++ "]]")]
    else []) (seqZ c n).

Definition binding_text (t : hwloc_topology) (data : Z → Z) : string :=
  join ", " (flat_map (λ k, core_entries t data k 0 (Z.to_nat (t_nbcores t))) (seqZ 0 (Z.to_nat (t_nbsockets t)))).

(** The map of the machine, as in "[BB/..][../..]". *)
Definition core_text (cpuset : Z → bool) (core : list hwloc_obj) : string :=
  concat_text ((λ pu, if cpuset (o_os_index pu) then "B"%string else "."%string) <$> core).

Definition machine_text (cpuset : Z → bool) (sockets : list (list (list hwloc_obj))) : string :=
  concat_text ((λ cores, ("[" ++ join "/" (core_text cpuset <$> cores) ++ "]")%string) <$> sockets).

(** [f] appends [u], if there is room. *)
Definition appends (f : string → option string) (u : string) : Prop :=
  ∀ s, strlen s < LEN → f s = if bool_decide (strlen s + strlen u < LEN) then Some (s ++ u)%string else None.

Lemma strlen_pos s : 0 ≤ strlen s.
Proof. unfold strlen. lia. Qed.

Lemma appends_cat u : appends (λ s, str_cat s u) u.
Proof.
  intros s Hs. unfold str_cat, strncat. rewrite strlen_app. pose proof (strlen_pos u). case_bool_decide as Hfit.
  - rewrite substring_whole by (unfold strlen in *; lia). rewrite (proj2 (Z.leb_le _ _)) by lia. done.
  - rewrite (proj2 (Z.leb_gt _ _)); [done|].
    assert (strlen (String.substring 0 (Z.to_nat (LEN - strlen s)) u) = LEN - strlen s); [|lia].
    assert (∀ n v, (n ≤ String.length v)%nat → String.length (String.substring 0 n v) = n) as Hsub.
    { intros n. induction n as [|n IH]; intros [|c v] Hn; simpl in *; try done; [lia|]. by rewrite IH by lia. }
    unfold strlen in *. rewrite Hsub; lia.
Qed.

Lemma appends_nil : appends Some "".
Proof. intros s Hs. change (strlen "") with 0. rewrite bool_decide_true by lia. by rewrite string_app_nil. Qed.

Lemma appends_bind f g u v : appends f u → appends g v → appends (λ s, f s ≫= g) (u ++ v).
Proof.
  intros Hf Hg s Hs. rewrite Hf by done. rewrite strlen_app. pose proof (strlen_pos u). pose proof (strlen_pos v).
  case_bool_decide as Hu; simpl.
  - rewrite Hg by (rewrite strlen_app; lia). rewrite strlen_app, string_app_assoc. by rewrite Z.add_assoc.
  - rewrite bool_decide_false by lia. done.
Qed.

Lemma appends_eq f g u v : appends f u → (∀ s, f s = g s) → u = v → appends g v.
Proof. intros Hf Heq -> s Hs. rewrite <-Heq. by apply Hf. Qed.

Lemma str2_pus_appends cpuset pus : appends (str2_pus cpuset pus) (core_text cpuset pus).
Proof.
  induction pus as [|pu pus IH]; [apply appends_nil|].
  apply (appends_bind _ _ _ _ (appends_cat (if cpuset (o_os_index pu) then "B" else ".")) IH).
Qed.

Lemma str2_cores_appends cpuset cores i :
  0 ≤ i → appends (str2_cores cpuset cores i) ((if bool_decide (0 < i ∧ cores ≠ []) then "/" else "") ++ join "/" (core_text cpuset <$> cores)).
Proof.
  revert i. induction cores as [|core cores IH]; intros i Hi.
  { rewrite bool_decide_false by (by intros [_ ?]). apply appends_nil. }
  assert (appends (λ s, if 0 <? i then str_cat s "/" else Some s) (if bool_decide (0 < i ∧ core :: cores ≠ []) then "/" else "")) as Hsep.
  { destruct (Z.ltb_spec 0 i); [rewrite bool_decide_true by done; apply appends_cat|rewrite bool_decide_false by lia; apply appends_nil]. }
  eapply appends_eq; [apply (appends_bind _ _ _ _ Hsep (appends_bind _ _ _ _ (str2_pus_appends cpuset core) (IH (i + 1) ltac:(lia))))|done|].
  f_equal. destruct cores as [|core' cores].
  - rewrite bool_decide_false by (by intros [_ ?]). by rewrite string_app_nil.
  - by rewrite bool_decide_true by (split; [lia|done]).
Qed.

Lemma str2_appends cpuset sockets : appends (str2_sockets cpuset sockets) (machine_text cpuset sockets).
Proof.
  induction sockets as [|socket sockets IH]; [apply appends_nil|].
  eapply appends_eq; [apply (appends_bind _ _ _ _ (appends_cat "[") (appends_bind _ _ _ _ (str2_cores_appends cpuset socket 0 ltac:(lia))
    (appends_bind _ _ _ _ (appends_cat "]") IH)))|done|].
  rewrite bool_decide_false by lia. unfold machine_text. simpl. by rewrite !string_app_assoc.
Qed.

(** Entries behind [first]. *)
Definition sep_text (first : bool) (l : list string) : string :=
  if first then join ", " l else concat_text ((λ x, (", " ++ x)%string) <$> l).

Lemma join_cons x l : join ", " (x :: l) = (x ++ sep_text false l)%string.
Proof.
  revert x. induction l as [|y l IH]; intros x; [by rewrite string_app_nil|].
  change (join ", " (x :: y :: l)) with (x +:+ ", " +:+ join ", " (y :: l)). rewrite IH. unfold sep_text. simpl. by rewrite ?string_app_assoc.
Qed.

Lemma sep_text_app first l1 l2 :
  sep_text first (l1 ++ l2) = (sep_text first l1 ++ sep_text (first && bool_decide (l1 = [])) l2)%string.
Proof.
  assert (∀ l, sep_text false (l ++ l2) = (sep_text false l ++ sep_text false l2)%string) as Hf.
  { intros l. induction l as [|x l IH]; [done|]. change (sep_text false ((x :: l) ++ l2)) with ((", " +:+ x) +:+ sep_text false (l ++ l2)).
    rewrite IH. symmetry. apply string_app_assoc. }
  destruct first; simpl andb; [|apply Hf]. destruct l1 as [|x l1]; [by rewrite bool_decide_true|]. rewrite bool_decide_false by done.
  change (join ", " (x :: (l1 ++ l2)) = join ", " (x :: l1) +:+ sep_text false l2). rewrite !join_cons, Hf. by rewrite string_app_assoc.
Qed.

(** [f] appends the entries [l], a separator before each but the first. *)
Definition lists (f : bool → string → option (bool * string)) (l : list string) : Prop :=
  ∀ first s, strlen s < LEN →
    f first s = if bool_decide (strlen s + strlen (sep_text first l) < LEN)
                then Some (first && bool_decide (l = []), (s ++ sep_text first l)%string) else None.

Lemma lists_nil : lists (λ first s, Some (first, s)) [].
Proof.
  intros first s Hs. assert (sep_text first [] = "") as -> by by destruct first. change (strlen "") with 0.
  rewrite !bool_decide_true by (done || lia). by rewrite string_app_nil, andb_true_r.
Qed.

Lemma lists_one x :
  lists (λ (first : bool) s, s ← (if first then Some s else str_cat s ", "); s ← str_cat s x; Some (false, s)) [x].
Proof.
  intros first s Hs. rewrite (bool_decide_false ([x] = [])) by done. rewrite andb_false_r.
  assert (appends (λ s, (if first then Some s else str_cat s ", ") ≫= λ s, str_cat s x) (sep_text first [x])) as Happ.
  { destruct first; [apply appends_cat|]. eapply appends_eq; [apply (appends_bind _ _ _ _ (appends_cat ", ") (appends_cat x))|done|].
    symmetry. apply string_app_nil. }
  specialize (Happ s Hs). cbv beta in Happ. destruct (if first then Some s else str_cat s ", ") as [s'|]; simpl in *.
  - rewrite Happ. by case_bool_decide.
  - by case_bool_decide.
Qed.

Lemma lists_app f g l1 l2 : lists f l1 → lists g l2 → lists (λ first s, f first s ≫= λ p, g p.1 p.2) (l1 ++ l2).
Proof.
  intros Hf Hg first s Hs. rewrite Hf by done. rewrite sep_text_app, strlen_app.
  pose proof (strlen_pos (sep_text first l1)). pose proof (strlen_pos (sep_text (first && bool_decide (l1 = [])) l2)).
  case (bool_decide_reflect (strlen s + strlen (sep_text first l1) < LEN)); intros H1; simpl; [|by rewrite (bool_decide_false (strlen s + _ < LEN)) by lia].
  rewrite Hg by (rewrite strlen_app; lia). rewrite strlen_app, string_app_assoc, <-andb_assoc.
  assert (bool_decide (l1 = []) && bool_decide (l2 = []) = bool_decide (l1 ++ l2 = [])) as ->.
  { rewrite <-bool_decide_and. apply bool_decide_ext. destruct l1, l2; naive_solver. }
  by rewrite Z.add_assoc.
Qed.

Lemma lists_eq f g l : lists f l → (∀ first s, f first s = g first s) → lists g l.
Proof. intros Hf Heq first s Hs. rewrite <-Heq. by apply Hf. Qed.

Lemma seqZ_succ c n : seqZ c (Z.of_nat (S n)) = c :: seqZ (c + 1) (Z.of_nat n).
Proof. rewrite seqZ_cons by lia. f_equal. f_equal; lia. Qed.

Lemma str1_cores_lists n t data k c : lists (str1_cores n t data k c) (core_entries t data k c n).
Proof.
  revert c. induction n as [|n IH]; intros c; [apply lists_nil|]. unfold core_entries. rewrite seqZ_succ. cbn [flat_map].
  specialize (IH (c + 1)). unfold core_entries in IH. cbn [str1_cores]. destruct (0 <? data (k * t_nbcores t + c)); [|exact IH].
  eapply lists_eq; [apply (lists_app _ _ _ _ (lists_one _) IH)|]. intros first s. cbv beta.
  destruct (if first then Some s else str_cat s ", ") as [s'|]; [|done]. simpl. by destruct (str_cat s' _).
Qed.

(** [str1_sockets], with the flag it ends with. *)
Lemma str1_sockets_eq (n : nat) t data k first s :
  strlen s < LEN →
  let u := sep_text first (flat_map (λ k, core_entries t data k 0 (Z.to_nat (t_nbcores t))) (seqZ k (Z.of_nat n))) in
  str1_sockets n t data k first s = if bool_decide (strlen s + strlen u < LEN) then Some (s ++ u)%string else None.
Proof.
  revert k first s. induction n as [|n IH]; intros k first s Hs.
  { cbv zeta. change (flat_map _ (seqZ k (Z.of_nat 0))) with (@nil string). assert (sep_text first [] = "") as -> by by destruct first.
    change (strlen "") with 0. rewrite bool_decide_true by lia. by rewrite string_app_nil. }
  rewrite seqZ_succ. cbn [flat_map str1_sockets]. rewrite str1_cores_lists by done. cbv zeta. rewrite sep_text_app, strlen_app.
  set (l := core_entries t data k 0 _). set (l' := flat_map _ _).
  pose proof (strlen_pos (sep_text first l)). pose proof (strlen_pos (sep_text (first && bool_decide (l = [])) l')).
  case (bool_decide_reflect (strlen s + strlen (sep_text first l) < LEN)); intros H1; simpl; [|by rewrite (bool_decide_false (strlen s + _ < LEN)) by lia].
  rewrite IH by (rewrite strlen_app; lia). fold l'. rewrite strlen_app, string_app_assoc. by rewrite Z.add_assoc.
Qed.

(** C38: on a machine with a socket and with indices in range, the report of a bound thread is one line: the host, the caller's text
    and the map of the machine, a bracket for each socket, its cores separated
    by slashes, [B] for each hardware thread that the calling thread may use and
    a dot for each other one.  It is printed exactly if both texts that are
    built, the list of the cores and the map, fit their 1024-byte arrays with
    the terminating zero; otherwise [strncat] writes past the end of one of
    them. *)
Theorem printme_line t cpuset data hostname instr :
  0 < t_nbsockets t →
  fill_data t (t_inside t cpuset) (λ _, 0) = Some data →
  printme t (Some cpuset) true true hostname instr =
  if bool_decide (strlen (binding_text t data) < LEN ∧ strlen (machine_text cpuset (t_sockets t)) < LEN)
  then PReturn 0 (hostname ++ ": " ++ instr ++ " " ++ machine_text cpuset (t_sockets t) ++ String "010" "")
  else POverflow.
Proof.
  intros Hsockets Hdata. unfold printme. cbn [negb]. rewrite (proj2 (Z.leb_gt _ _) Hsockets), Hdata. cbn [mbind option_bind].
  rewrite str1_sockets_eq, str2_appends by done. fold (binding_text t data). cbv zeta.
  change (strlen "" + ?x) with x.
  unfold binding_text. change (sep_text true ?l) with (join ", " l). cbv zeta.
  do 3 case_bool_decide; try done; tauto.
Qed.

(** Two sockets of two cores of two hardware threads each. *)
Definition demo_pu (i : Z) : hwloc_obj := HObj HWLOC_OBJ_PU i (i mod 2) i.

Definition demo_chain (i : Z) : list hwloc_obj :=
  [demo_pu i; HObj HWLOC_OBJ_CORE (i / 2) (i / 2 mod 2) (i / 2); HObj HWLOC_OBJ_OTHER 0 0 0; HObj HWLOC_OBJ_SOCKET (i / 4) (i / 4) (i / 4)].

Definition demo_topology : hwloc_topology :=
  Topo 2 4 (λ cpuset, demo_chain <$> filter (λ i, cpuset i) (seqZ 0 8))
    [[[demo_pu 0; demo_pu 1]; [demo_pu 2; demo_pu 3]]; [[demo_pu 4; demo_pu 5]; [demo_pu 6; demo_pu 7]]].

Lemma printme_line_witness :
  ∃ data, fill_data demo_topology (t_inside demo_topology (λ i, (1 <=? i) && (i <=? 3))) (λ _, 0) = Some data
    ∧ binding_text demo_topology data = "socket 0[core 0[hwt 1]], socket 0[core 1[hwt 0-1]]"%string
    ∧ printme demo_topology (Some (λ i, (1 <=? i) && (i <=? 3))) true true "host" "thread"
      = PReturn 0 ("host: thread [.B/BB][../..]" ++ String "010" "").
Proof.
  eexists. split; [reflexivity|]. split; [vm_compute; reflexivity|].
  erewrite printme_line; [|done|reflexivity]. vm_compute. reflexivity.
Defined.
